(* ===== verification/_CoqProject ===== *)
-Q . S2P
Prelude.v
Interface.v
Sync.v
Machine.v
Phys.v
Page.v
PageSpec.v
UserMem.v
PhysInit.v
Kheap.v
Kvirt.v
Arc.v
AtomicList.v
AsyncMutex.v
HeapLogic.v
Node.v
BTree.v
Deque.v
Readonly.v
Keeps.v
NodeSpec.v
Kids.v
BTreeSpec.v
Rebalance.v
BTreeRemove.v
BTreeIter.v
BTreeBulk.v
BTreeMove.v
BTreeBorder.v
BTreeSplit.v
BTreeClone.v
BTreeAppend.v
BTreeRefine.v
BTreeRange.v
BTreeInto.v
BTreePlaces.v
BTreeEntry.v
BTreeRangeSpec.v
BTreeMut.v
BTreeCompare.v
BTreeMaps.v
Utf8.v
Console.v
Ide.v
Panic.v
Block.v
Mbr.v
Stream.v
Fat.v
Device.v
Vfs.v
Interrupt.v
System.v
Object.v
Task.v
Syscall.v
SyscallSpec.v
PageCalls.v
Kernel.v
Crabapi.v
KernelSpec.v
KernelCall.v
KernelMaps.v
