(* ===== verification/Prelude.v ===== *)
(** * CrabOS: a verified model of the kernel (root file)

    CrabOS is a small multitasking kernel for x86-64 with a user library.  This
    library is a shallow embedding of its Rust code: one file per component, each
    function a definition in a state monad, with the theorems that make the
    component correct.  The code is under [kernel/src], [alloc_collections/src],
    [interface/src] and [userland]; every file's header names what it models.

    ** The parts, from the bottom

    - [Prelude]: outcomes (return, panic, undefined behaviour), results, the state
      monad [M S], lenses from a component's state into the whole, machine integers
      ([u64_add] and the like panic in a debug build and wrap in a release build),
      the weakest precondition [wp] and its tactics.
    - [Interface]: the system call numbers and errors, and their encoding in [rax].
    - [Sync]: critical sections (the interrupt flag saved in a token), [Mutex],
      [EarlyInit].  A component states its needs with the class [HasCpu].
    - [Machine], [Phys], [PhysInit]: frames, their reference counts, the free list
      and bump allocators, and the set-up from the memory map.
    - [Page], [PageSpec]: page tables accessed through the recursive mapping, every
      access translated by walking the tables; [PageSpec] shows them to be one map
      from virtual pages to entries.  [UserMem] validates user ranges against them.
    - [Kheap], [Kvirt]: the heap's size classes over the class [PageSource], which
      the kernel page allocator implements.  Every word of the heap is read and written
      through the page tables: a page that is not mapped faults.
    - [Arc], [AtomicList], [AsyncMutex]: shared ownership; and the lock-free list
      and the asynchronous mutex as interleavings of atomic steps.
    - [HeapLogic]: boxes over any allocator, and a separation logic for them in which a
      program is proved against the part of the heap it needs.  [Node], [BTree],
      [BTreeIter], [BTreeRange], [BTreeInto], [BTreeEntry], [BTreeMut], [BTreeBulk],
      [BTreeCompare]: the B-tree of [alloc_collections], node by node, with all of its
      operations.  [NodeSpec], [Kids], [BTreeSpec], [Rebalance], [BTreeRemove] prove that
      each step changes the list of entries as it should, and [BTreeRefine] that insertion,
      look-up and removal are those of a finite map.  [Deque] and [BTreeRangeSpec]: ranges
      and iterators as double-ended queues.  [BTreePlaces]: every gap between entries is
      one edge, and every value one place; [Readonly] and [Keeps]: what a step leaves
      alone.  [BTreeMove], [BTreeBorder], [BTreeSplit], [BTreeClone], [BTreeAppend] prove
      the operations on whole trees, and [BTreeMaps] that several maps in one heap are
      several finite maps.
    - [Utf8], [Console], [Panic]: text, the screens, the panic handler.
    - [Block], [Ide], [Mbr], [Stream], [Fat], [Vfs]: from the ports of the disk to
      paths.  [Block] is the interface between the layers: the disk implements it,
      a partition of an implementation implements it, the file system is proved
      against it.  [Device]: timer and keyboard.
    - [Interrupt], [System], [Object], [Task]: trap frames, the state of objects
      and tasks, handles, the scheduler and the futures of tasks.
    - [Syscall], [SyscallSpec], [PageCalls], [Kernel], [KernelSpec], [KernelCall],
      [KernelMaps]: the system calls, [main] and the entry point of interrupts, and
      theorems about components at work together: the disk below the files, a system
      call from user mode and back, the B-tree below the scheduler.
    - [Crabapi]: the user library and the first program.

    ** How the code is embedded

    A function that can return early has type [M S (result A E)] and [_ <-? _] for
    the question mark; guards of critical sections and locks are dropped where the
    scope of the code ends.  A panic is an outcome without a state: the machine
    halts.  Undefined behaviour ([UB]) is the outcome of a read the language gives no
    meaning to, of an access outside of the memory a component owns, of a loop
    that has used up its fuel, and of an insertion that damages a tree (below): a theorem that ends in [Ret] therefore proves that
    the loop ends.  Fuel appears in the scheduler's switch loop, in the polls of the
    disk's status, in streams, and in [write_all]; the theorems say how much is
    enough (as many turns as tasks; the disk's latency; 34 per sector of a
    directory; one per byte; the height of the tree).

    A future is a value with a poll function ([run_loop_poll], [dispatch_poll],
    [read_scancode_poll]); an await that is always ready is a plain call.  In the file
    system an [Arc] is the value behind it, since nothing changes what it shares;
    [Object] and [Arc] count references explicitly.  The answer of the allocator is
    an argument wherever a client may see an allocation fail ([answer]).

    Third-party crates are interfaces with their documented equations as laws:
    streams ([StreamsLaws], with a model of them in [Stream]), the ring buffer of
    the keyboard ([Device]); bit flag types are masks.  The processor is modelled where the
    code relies on it: the interrupt flag, [cr3], translation.  What is printed for
    debugging is left out, except by the panic handler and the console itself.

    ** What the theorems show

    Memory: frames are never handed out twice and are freed exactly when the last handle
    goes ([Phys.handles_safe]), mapping and unmapping are exact on the map of pages
    ([PageSpec]), heap blocks are disjoint and keep their contents ([Kvirt]). Sharing:
    exclusion of both mutexes, exactness of [Arc], and no loss in the lock-free list,
    for every interleaving. Collections: any sequence of operations on B-trees, one
    ([BTreeRefine.operations_refine]) or several ([BTreeMaps.collections_refine]: with
    entries, loops over mutable values, [==], [split_off], [append] and [clone]), is one
    on finite maps and leaks nothing; ranges and all iterators are double-ended queues
    over the sorted entries ([BTreeRangeSpec.iterators_refine],
    [BTreeMut.mutation_refines]); a failed allocation may lose entries, and how many is
    stated exactly ([BTreeMaps.allocation_failures]). The orders in which the scheduler
    and the handle table go through their maps are those of the B-tree
    ([KernelMaps.kernel_orders]), and so are the outcomes of an insertion into them
    ([KernelMaps.tree_insert_refines]). Storage: sectors read are those of the disk, a
    partition is a device, reading a file is reading a list of bytes, the streaming
    lookup is a search in the listing, opening a path resolves its names;
    [KernelSpec.kernel_file_read] joins them. Tasks: switching is exact, the choice is
    fair, spawning is atomic, and a task that waits for a key leaves interrupts as they
    were. System calls: [alloc_page], [release_page] and
    [modify_page] for all arguments (one whose range overflows at its end panics in a
    debug build, [UserMem.PageRange_overflow]), and bad arguments change nothing; a call that works on
    memory goes from the interrupt through the scheduler and the future of the task back
    to the frame of the call, with nothing but its effect and its result changed, for a
    task that runs while the others sleep ([KernelCall]). Other theorems state
    what the code does where it departs from its intent: a directory of one cluster
    looks empty, text that ends inside a character never finishes, a spurious wake loses
    a task, [Arc] frees into the wrong class,
    [map_physical_memory] panics when there is no frame for a page table.

    ** Not modelled

    The boot loader, the assembly stubs and [int 0x7f] itself, the build files, the
    procedural macro of [kernel_derive]; translation caching and large pages; the
    formatting machinery of [core::fmt], and with it the [Debug] instances.  [set.rs] is
    commented out of the build, and was not changed with the rest: it takes the result of
    an insertion for an option.  [Object] and [Task] see the B-tree as a finite map whose
    insertion may fail ([System.tree_insert]).  A map with entries but fewer than the
    eleven of a leaf takes another one without an allocation; an empty map is as before
    when its root finds no memory; a larger map whose tree cannot grow has counted the
    entry and may have lost others ([BTreeMaps.allocation_failures]), and there the model
    stops ([System.DAMAGED]).  [KernelMaps.tree_insert_refines] proves that these are the
    outcomes of the tree.  What the kernel does with a damaged tree is not modelled: the
    theorems about handles and about spawning say when it cannot happen.

    Left open: the boot of the first task from a disk as one theorem; the path of
    [KernelCall] for the calls that use files and for several tasks that are ready; the
    heap of [Kheap] as the allocator of [HeapLogic]. *)

From stdpp Require Export base gmap list strings.
From stdpp Require Import options.
From Stdlib Require Export ZArith Lia.

#[global] Open Scope Z_scope.

(** ** Outcomes

    A Rust function either returns, panics, or (for the [unsafe] parts) reaches
    a state the language gives no meaning to.  [UB] is only produced by reads of
    memory that does not hold a value of the type it is read at. *)

Inductive outcome (A : Type) : Type :=
| Ret (a : A)
| Panic (msg : string)
| UB (msg : string).

Arguments Ret {A} _.
Arguments Panic {A} _.
Arguments UB {A} _.

(** [core::result::Result]. *)
Inductive result (A E : Type) : Type :=
| Ok (a : A)
| Err (e : E).

Arguments Ok {A E} _.
Arguments Err {A E} _.

Definition is_ok {A E} (r : result A E) : bool :=
  match r with Ok _ => true | Err _ => false end.

Definition map_err {A E F} (f : E -> F) (r : result A E) : result A F :=
  match r with Ok a => Ok a | Err e => Err (f e) end.

Definition map_ok {A B E} (f : A -> B) (r : result A E) : result B E :=
  match r with Ok a => Ok (f a) | Err e => Err e end.

Definition ok_or {A E} (o : option A) (e : E) : result A E :=
  match o with Some a => Ok a | None => Err e end.

(** ** The state monad of the kernel code

    A panic halts the machine, so no state is kept with it.  The state reached
    before an [Err] is kept: an error path returns to its caller. *)

Definition M (S A : Type) : Type := S -> outcome (A * S).

#[export] Instance M_ret S : MRet (M S) := fun A a s => Ret (a, s).
#[export] Instance M_bind S : MBind (M S) := fun A B k m s =>
  match m s with
  | Ret (a, s') => k a s'
  | Panic e => Panic e
  | UB e => UB e
  end.
#[export] Instance outcome_ret : MRet outcome := fun A a => Ret a.
#[export] Instance outcome_bind : MBind outcome := fun A B k m =>
  match m with
  | Ret a => k a
  | Panic e => Panic e
  | UB e => UB e
  end.

Definition panic {S A} (msg : string) : M S A := fun _ => Panic msg.
Definition ub {S A} (msg : string) : M S A := fun _ => UB msg.
Definition gets {S A} (f : S -> A) : M S A := fun s => Ret (f s, s).
Definition modify {S} (f : S -> S) : M S unit := fun s => Ret (tt, f s).
Definition lift {S A} (o : outcome A) : M S A := fun s =>
  match o with Ret a => Ret (a, s) | Panic e => Panic e | UB e => UB e end.

(** [Option::expect] and [Result::expect]. *)
Definition expect {S A} (o : option A) (msg : string) : M S A :=
  match o with Some a => mret a | None => panic msg end.
Definition expect_ok {S A E} (r : result A E) (msg : string) : M S A :=
  match r with Ok a => mret a | Err _ => panic msg end.

(** The [?] operator: [x ←? m; k] continues with the value of an [Ok] and
    returns an [Err] to the caller. *)
Definition try {S A B E} (m : M S (result A E)) (k : A -> M S (result B E)) :
  M S (result B E) :=
  mbind (fun r => match r with Ok a => k a | Err e => mret (Err e) end) m.

Notation "x ←? m ; k" := (try m (fun x => k))
  (at level 20, m at level 100, k at level 200, only parsing) : stdpp_scope.
Notation "m ;;? k" := (try m (fun _ => k))
  (at level 100, k at level 200, right associativity, only parsing) : stdpp_scope.

(** [for x in xs { f(x)?; }] *)
Fixpoint for_each_try {S A E} (f : A -> M S (result unit E)) (xs : list A) :
  M S (result unit E) :=
  match xs with
  | [] => mret (Ok tt)
  | x :: xs => _ ←? f x; for_each_try f xs
  end.

(** [for x in xs { f(x); }] *)
Fixpoint for_each {S A} (f : A -> M S unit) (xs : list A) : M S unit :=
  match xs with
  | [] => mret tt
  | x :: xs => _ ← f x; for_each f xs
  end.

(** ** Weakest preconditions

    [wp m Q s]: run from [s], [m] returns (no panic, no [UB]) and the value and
    final state satisfy [Q]. *)

Definition wp {S A} (m : M S A) (Q : A -> S -> Prop) (s : S) : Prop :=
  match m s with Ret (a, s') => Q a s' | _ => False end.

Section wp_rules.
Context {S : Type}.

Lemma wp_iff {A} (m : M S A) (Q : A -> S -> Prop) s :
  wp m Q s <-> exists a s', m s = Ret (a, s') /\ Q a s'.
Proof.
  unfold wp. destruct (m s) as [[a s']| |]; split; [eauto| | easy | | easy |].
  - intros (a0 & s0 & [= -> ->] & H). exact H.
  - intros (a0 & s0 & [=] & _).
  - intros (a0 & s0 & [=] & _).
Qed.

Lemma wp_run {A} (m : M S A) (Q : A -> S -> Prop) s a s' :
  m s = Ret (a, s') -> Q a s' -> wp m Q s.
Proof. unfold wp. intros ->. done. Qed.

Lemma wp_Q_run {A} (m : M S A) s a s' : wp m (fun a0 s0 => a0 = a /\ s0 = s') s -> m s = Ret (a, s').
Proof. intros H. apply wp_iff in H as (? & ? & -> & -> & ->). done. Qed.

Lemma bind_run {A B} (m : M S A) (k : A -> M S B) s a s' :
  m s = Ret (a, s') -> (m ≫= k) s = k a s'.
Proof. unfold mbind, M_bind. by intros ->. Qed.

Lemma try_run {A B E} (m : M S (result A E)) (k : A -> M S (result B E)) s r s' :
  m s = Ret (r, s') ->
  try m k s = match r with Ok a => k a s' | Err e => Ret (Err e, s') end.
Proof. intros H. unfold try. rewrite (bind_run _ _ _ _ _ H). by destruct r. Qed.

Lemma wp_ret {A} (a : A) (Q : A -> S -> Prop) s : Q a s -> wp (mret a) Q s.
Proof. done. Qed.

Lemma wp_bind {A B} (m : M S A) (k : A -> M S B) (Q : B -> S -> Prop) s :
  wp m (fun a => wp (k a) Q) s -> wp (m ≫= k) Q s.
Proof. unfold wp, mbind, M_bind. destruct (m s) as [[]| |]; done. Qed.

Lemma wp_try {A B E} (m : M S (result A E)) (k : A -> M S (result B E))
    (Q : result B E -> S -> Prop) s :
  wp m (fun r => match r with Ok a => wp (k a) Q | Err e => Q (Err e) end) s ->
  wp (try m k) Q s.
Proof.
  intros H. apply wp_bind. unfold wp in *.
  destruct (m s) as [[[]]| |]; done.
Qed.

Lemma wp_mono {A} (m : M S A) (P Q : A -> S -> Prop) s :
  (forall a s', P a s' -> Q a s') -> wp m P s -> wp m Q s.
Proof. unfold wp. destruct (m s) as [[]| |]; auto. Qed.

Lemma wp_gets {A} (f : S -> A) (Q : A -> S -> Prop) s :
  Q (f s) s -> wp (gets f) Q s.
Proof. done. Qed.

Lemma wp_modify (f : S -> S) (Q : unit -> S -> Prop) s :
  Q tt (f s) -> wp (modify f) Q s.
Proof. done. Qed.

Lemma wp_lift {A} (o : outcome A) a (Q : A -> S -> Prop) s :
  o = Ret a -> Q a s -> wp (lift o) Q s.
Proof. intros ->. done. Qed.

(** A loop over a list, by an invariant on the elements still to visit. *)
Lemma wp_for_each {A} (f : A -> M S unit) (xs : list A)
    (I : list A -> S -> Prop) s :
  I xs s ->
  (forall x rest s, I (x :: rest) s -> wp (f x) (fun _ => I rest) s) ->
  wp (for_each f xs) (fun _ => I []) s.
Proof.
  intros H Hf. revert s H. induction xs as [|x xs IH]; intros s H; [done|].
  apply wp_bind. eapply wp_mono; [|by apply Hf]. intros u s' H'. by apply IH.
Qed.

Lemma wp_for_each_try {A E} (f : A -> M S (result unit E)) (xs : list A)
    (I : list A -> S -> Prop) (R : E -> S -> Prop) s :
  I xs s ->
  (forall x rest s, I (x :: rest) s ->
    wp (f x) (fun r s' => match r with Ok _ => I rest s' | Err e => R e s' end) s) ->
  wp (for_each_try f xs)
     (fun r s' => match r with Ok _ => I [] s' | Err e => R e s' end) s.
Proof.
  intros H Hf. revert s H. induction xs as [|x xs IH]; intros s H; [done|].
  apply wp_try. eapply wp_mono; [|by apply Hf].
  intros [u|e] s' H'; [by apply IH | done].
Qed.

End wp_rules.

Create HintDb wp.
#[export] Hint Resolve wp_ret wp_gets wp_modify : wp.

(** One step of a [wp] goal. *)
Ltac wp_step :=
  match goal with
  | |- wp (mret _) _ _ => apply wp_ret
  | |- wp (mbind _ _) _ _ => apply wp_bind
  | |- wp (try _ _) _ _ => apply wp_try
  | |- wp (gets _) _ _ => apply wp_gets
  | |- wp (modify _) _ _ => apply wp_modify
  end.
Ltac wp_steps := repeat (wp_step; cbv beta).

(** Use a proved specification of the first call of the goal. *)
Tactic Notation "wp_call" uconstr(H) :=
  eapply wp_mono; [|eapply H]; cbv beta.

(** ** Lenses: the part of a larger state a component keeps *)

Record lens (S A : Type) := Lens { view : S -> A; set : A -> S -> S }.
Arguments Lens {S A} _ _.
Arguments view {S A} _ _.
Arguments set {S A} _ _ _.

Class LensLaws {S A} (l : lens S A) : Prop := {
  view_set : forall a s, view l (set l a s) = a;
  set_view : forall s, set l (view l s) s = s;
  set_set : forall a b s, set l a (set l b s) = set l a s
}.

(** Run an operation of a component inside the larger state. *)
Definition zoom {S A B} (l : lens S A) (m : M A B) : M S B := fun s =>
  match m (view l s) with
  | Ret (b, a) => Ret (b, set l a s)
  | Panic e => Panic e
  | UB e => UB e
  end.

Lemma wp_zoom {S A B} (l : lens S A) (m : M A B) (Q : B -> S -> Prop) s :
  wp m (fun b a => Q b (set l a s)) (view l s) -> wp (zoom l m) Q s.
Proof. unfold wp, zoom. destruct (m (view l s)) as [[]| |]; done. Qed.

(** ** 64-bit arithmetic

    [usize] and [u64] are the same width on the target.  Plain [+], [-], [*]
    panic on overflow in the default (debug) build and wrap in a release build;
    [Makefile] offers both. *)

Inductive profile := Debug | Release.

Definition u64_limit : Z := 2 ^ 64.
Definition wrap64 (z : Z) : Z := z `mod` u64_limit.
Definition in_u64 (z : Z) : Prop := 0 <= z < u64_limit.

Definition arith (p : profile) (msg : string) (z : Z) : outcome Z :=
  if bool_decide (0 <= z < u64_limit) then Ret z
  else match p with Debug => Panic msg | Release => Ret (wrap64 z) end.

Definition u64_add p a b := arith p "attempt to add with overflow" (a + b).
Definition u64_sub p a b := arith p "attempt to subtract with overflow" (a - b).
Definition u64_mul p a b := arith p "attempt to multiply with overflow" (a * b).

Definition checked_add (a b : Z) : option Z :=
  if bool_decide (a + b < u64_limit) then Some (a + b) else None.
Definition checked_mul (a b : Z) : option Z :=
  if bool_decide (a * b < u64_limit) then Some (a * b) else None.

Lemma arith_exact p msg z : in_u64 z -> arith p msg z = Ret z.
Proof. intros H. unfold arith. by rewrite bool_decide_true. Qed.

Lemma wrap64_small z : in_u64 z -> wrap64 z = z.
Proof. apply Z.mod_small. Qed.

Lemma wrap64_range z : in_u64 (wrap64 z).
Proof. apply Z.mod_pos_bound. unfold u64_limit. lia. Qed.

(** Case analysis on boolean integer comparisons. *)
Ltac zcases :=
  repeat match goal with
  | |- context [?a =? ?b] => destruct (Z.eqb_spec a b)
  | |- context [?a <? ?b] => destruct (Z.ltb_spec a b)
  | |- context [?a <=? ?b] => destruct (Z.leb_spec a b)
  | H : context [?a =? ?b] |- _ => destruct (Z.eqb_spec a b)
  | H : context [?a <? ?b] |- _ => destruct (Z.ltb_spec a b)
  | H : context [?a <=? ?b] |- _ => destruct (Z.leb_spec a b)
  end.

(** Linear arithmetic with division and remainder by constants. *)
Ltac zdiv := Z.div_mod_to_equations; lia.

(** Linear arithmetic with the limits of a 64-bit word. *)
Ltac u64 := unfold in_u64, u64_limit in *; change (2 ^ 64) with 18446744073709551616 in *.

(** One bit of a number. *)
Lemma land_pow2 a n : 0 <= n -> Z.land a (2 ^ n) = if Z.testbit a n then 2 ^ n else 0.
Proof.
  intros Hn. apply Z.bits_inj'. intros m Hm. rewrite Z.land_spec, Z.pow2_bits_eqb by done.
  destruct (Z.eqb_spec n m) as [<-|Hne].
  - rewrite andb_true_r. destruct (Z.testbit a n); [by rewrite Z.pow2_bits_true|by rewrite Z.bits_0].
  - rewrite andb_false_r. destruct (Z.testbit a n); [by rewrite Z.pow2_bits_false|by rewrite Z.bits_0].
Qed.

(** ** Flag sets

    The [bitflags] crate (third party): a flag type is its bits; the operations
    that inspect them are parameters with the behaviour the crate documents. *)

Class Bitflags := {
  from_bits : Z -> Z -> option Z;            (* all flags, bits *)
  from_bits_truncate : Z -> Z -> Z;
  contains : Z -> Z -> bool
}.

Class BitflagsLaws (B : Bitflags) : Prop := {
  from_bits_some : forall all b, Z.land b (Z.lnot all) = 0 -> from_bits all b = Some b;
  from_bits_none : forall all b, Z.land b (Z.lnot all) <> 0 -> from_bits all b = None;
  from_bits_truncate_spec : forall all b, from_bits_truncate all b = Z.land b all;
  contains_spec : forall a b, contains a b = (Z.land a b =? b)
}.

Definition bitflags_crate : Bitflags := {|
  from_bits all b := if Z.land b (Z.lnot all) =? 0 then Some b else None;
  from_bits_truncate all b := Z.land b all;
  contains a b := Z.land a b =? b
|}.

Lemma bitflags_crate_laws : BitflagsLaws bitflags_crate.
Proof.
  split; cbn; [intros all b -> | intros all b H | |]; try done.
  by rewrite (proj2 (Z.eqb_neq _ _)).
Qed.

(** ** Lists *)

Lemma list_lookup_insert_cases {A} (l : list A) i j x y :
  <[i := x]> l !! j = Some y ->
  (i = j /\ x = y /\ (i < length l)%nat) \/ (i <> j /\ (l !! j = Some y)).
Proof.
  intros H. destruct (decide (i = j)) as [->|Hne].
  - left. assert (j < length l)%nat as Hl.
    { apply lookup_lt_Some in H. by rewrite length_insert in H. }
    rewrite list_lookup_insert_eq in H by done. naive_solver.
  - right. by rewrite list_lookup_insert_ne in H.
Qed.

Lemma NoDup_cons_inv {A} (x : A) l : NoDup (x :: l) -> x ∉ l /\ NoDup l.
Proof. apply NoDup_cons. Qed.

(** ** Transition systems *)

Lemma rtc_invariant {A} (R : A -> A -> Prop) (P : A -> Prop) c c' :
  (forall c c', R c c' -> P c -> P c') -> P c -> rtc R c c' -> P c'.
Proof. intros Hs H Hr. induction Hr; eauto. Qed.
