(* ===== verification/Interface.v ===== *)
(** * Interface: the system call ABI

    The two [enum64!] enumerations of [interface/src/syscall.rs] with the
    conversions the macro of [interface/src/lib.rs] generates, the flags of the
    page system calls, and the decoding of a result register on the user side
    ([userland/crabapi/src/syscall.rs]). *)

From S2P Require Import Prelude.

Inductive Syscall :=
| AllocPage | ReleasePage | ModifyPage | ReleaseHandle | CloneHandle
| CreatePageContext | Debug_ | SetPageContext | GetPageContext | CreateTask
| Exit | MapPhysicalMemory | ReadStream | WriteStream | OpenFile.

#[export] Instance Syscall_eq_dec : EqDecision Syscall.
Proof. solve_decision. Defined.

(** [vector as u64] *)
Definition Syscall_code (v : Syscall) : Z :=
  match v with
  | AllocPage => 1 | ReleasePage => 2 | ModifyPage => 3 | ReleaseHandle => 4
  | CloneHandle => 5 | CreatePageContext => 6 | Debug_ => 7
  | SetPageContext => 8 | GetPageContext => 9 | CreateTask => 10 | Exit => 11
  | MapPhysicalMemory => 12 | ReadStream => 13 | WriteStream => 14
  | OpenFile => 15
  end.

(** [TryFrom<u64> for Syscall] *)
Definition Syscall_try_from (vector : Z) : option Syscall :=
  match vector with
  | 1 => Some AllocPage | 2 => Some ReleasePage | 3 => Some ModifyPage
  | 4 => Some ReleaseHandle | 5 => Some CloneHandle
  | 6 => Some CreatePageContext | 7 => Some Debug_ | 8 => Some SetPageContext
  | 9 => Some GetPageContext | 10 => Some CreateTask | 11 => Some Exit
  | 12 => Some MapPhysicalMemory | 13 => Some ReadStream
  | 14 => Some WriteStream | 15 => Some OpenFile
  | _ => None
  end.

Inductive SysError :=
| BadSyscall | BadPointer | AlreadyMapped | MemoryExhausted | IllegalValue
| WrongObjectKind | BadHandle | IoError | NoFile | InvalidOperation.

#[export] Instance SysError_eq_dec : EqDecision SysError.
Proof. solve_decision. Defined.

(** [e as u64] *)
Definition SysError_code (e : SysError) : Z :=
  match e with
  | BadSyscall => 0xffffffff00000001
  | BadPointer => 0xffffffff00000002
  | AlreadyMapped => 0xffffffff00000003
  | MemoryExhausted => 0xffffffff00000004
  | IllegalValue => 0xffffffff00000005
  | WrongObjectKind => 0xffffffff00000006
  | BadHandle => 0xffffffff00000007
  | IoError => 0xffffffff00000008
  | NoFile => 0xffffffff00000009
  | InvalidOperation => 0xffffffff00000010
  end.

Definition SysError_all : list SysError :=
  [BadSyscall; BadPointer; AlreadyMapped; MemoryExhausted; IllegalValue;
   WrongObjectKind; BadHandle; IoError; NoFile; InvalidOperation].

(** [TryFrom<u64> for SysError]: the arms are tried in order. *)
Definition SysError_try_from (vector : Z) : option SysError :=
  find (fun e => vector =? SysError_code e) SysError_all.

Definition OK : Z := 0.
Definition ERR_FLAG : Z := 0x8000000000000000.

Abbreviation SysResult A := (result A SysError).

(** What [syscall::dispatch] stores in [rax]. *)
Definition SyscallReturn_code (r : SysResult Z) : Z :=
  match r with Ok u => u | Err e => SysError_code e end.

(** The user side: [From<SyscallResult> for Result<T, SysError>] at
    [T = u64], [usize] or [Handle], which all keep the register unchanged. *)
Definition SyscallResult_into (raw : Z) : outcome (SysResult Z) :=
  if Z.land raw ERR_FLAG =? 0 then Ret (Ok raw)
  else match SysError_try_from raw with
       | Some e => Ret (Err e)
       | None => Panic "SysError from u64"
       end.

(** ** Properties *)

Lemma SysError_try_from_code e : SysError_try_from (SysError_code e) = Some e.
Proof. by destruct e. Qed.

Lemma SysError_code_flag e : Z.land (SysError_code e) ERR_FLAG <> 0.
Proof. by destruct e. Qed.

Lemma land_ERR_FLAG_small u : 0 <= u < 2 ^ 63 -> Z.land u ERR_FLAG = 0.
Proof.
  intros Hu. apply Z.bits_inj'. intros n Hn.
  rewrite Z.land_spec, Z.bits_0. change ERR_FLAG with (2 ^ 63).
  destruct (decide (n = 63)) as [->|Hne].
  - destruct (decide (u = 0)) as [->|Hnz]; [by rewrite Z.bits_0|].
    rewrite Z.bits_above_log2; [done | lia |].
    apply Z.log2_lt_pow2; lia.
  - rewrite Z.pow2_bits_false by done. by rewrite andb_false_r.
Qed.

(** Round trip of the system call vectors: the register value a caller
    writes for a system call is decoded by the kernel to that call, and no other
    register value decodes to it. *)
Theorem Syscall_roundtrip v r :
  Syscall_try_from r = Some v <-> r = Syscall_code v.
Proof.
  split.
  - intros H. unfold Syscall_try_from in H.
    repeat (case_match; try discriminate); injection H as <-; reflexivity.
  - intros ->. by destruct v.
Qed.

(** C38: a kernel result crosses the register boundary unchanged: for every
    result whose success value leaves the error bit clear, the user library
    decodes the register written by the kernel to exactly that result, so an
    error is never taken for a success nor the reverse, and decoding does not
    panic. *)
Theorem syscall_result_roundtrip (r : SysResult Z) :
  match r with Ok u => 0 <= u < 2 ^ 63 | Err _ => True end ->
  SyscallResult_into (SyscallReturn_code r) = Ret r.
Proof.
  unfold SyscallResult_into. destruct r as [u|e]; cbn [SyscallReturn_code].
  - intros Hu. by rewrite land_ERR_FLAG_small, Z.eqb_refl.
  - intros _. destruct (Z.eqb_spec (Z.land (SysError_code e) ERR_FLAG) 0) as [H|_].
    + by apply SysError_code_flag in H.
    + by rewrite SysError_try_from_code.
Qed.

Lemma syscall_result_roundtrip_witness :
  SyscallResult_into (SyscallReturn_code (Ok 42)) = Ret (Ok 42).
Proof. apply (syscall_result_roundtrip (Ok 42)). lia. Defined.
