(* ===== verification/Sync.v ===== *)
(** * Sync: critical sections, the kernel mutex, early initialisation

    [kernel/src/critical.rs], [kernel/src/sync/mutex.rs] and
    [kernel/src/util/early_init.rs].  A critical section is the interrupt flag
    of the CPU saved in a token; a [Mutex] is a flag taken inside a critical
    section that lasts as long as its guard. *)

From S2P Require Import Prelude.

(** ** critical.rs *)

Definition FLAG_IF : Z := Z.shiftl 1 9.

(** The interrupt flag of the machine a state contains. *)
Class HasCpu (S : Type) := cpu_if : lens S bool.
Arguments cpu_if {S _}.

(** [Critical(bool)]: whether interrupts were enabled when it was created. *)
Definition Critical : Type := bool.

Section critical.
Context {S : Type} `{!HasCpu S}.

(** The RFLAGS image [pushf] stores, as far as the code looks at it. *)
Definition eflags : M S Z := gets (fun s => if view cpu_if s then FLAG_IF else 0).

Definition cli : M S unit := modify (set cpu_if false).
Definition sti : M S unit := modify (set cpu_if true).

Definition begin : M S Critical :=
  fl ← eflags;
  _ ← cli;
  mret (negb (Z.land fl FLAG_IF =? 0)).

(** [Drop for Critical] *)
Definition drop_critical (crit : Critical) : M S unit :=
  if crit then sti else mret tt.

Definition section {A} (f : M S A) : M S A :=
  crit ← begin;
  r ← f;
  _ ← drop_critical crit;
  mret r.
End critical.

(** ** sync/mutex.rs *)

(** [MutexInner] *)
Record Mutex (A : Type) := MutexInner { value : A; locked : bool }.
Arguments MutexInner {A} _ _.
Arguments value {A} _.
Arguments locked {A} _.

Definition Mutex_new {A} (a : A) : Mutex A := MutexInner a false.

(** [MutexGuard]: the critical section it keeps open. *)
Definition MutexGuard : Type := Critical.

Section mutex.
Context {S A : Type} `{!HasCpu S} (mx : lens S (Mutex A)).

Definition set_locked (b : bool) : M S unit :=
  modify (fun s => set mx (MutexInner (value (view mx s)) b) s).

Definition lock : M S MutexGuard :=
  critical ← begin;
  l ← gets (fun s => locked (view mx s));
  if l : bool then panic "recursive mutex lock!"
  else
    _ ← set_locked true;
    mret critical.

(** [Drop for MutexGuard], then the drop of its [_critical] field. *)
Definition drop_guard (g : MutexGuard) : M S unit :=
  _ ← set_locked false;
  drop_critical g.

(** [*guard] and [*guard = a] *)
Definition deref : M S A := gets (fun s => value (view mx s)).
Definition assign (a : A) : M S unit :=
  modify (fun s => set mx (MutexInner a (locked (view mx s))) s).

(** A lexical scope that holds the lock and drops the guard at its end. *)
Definition with_lock {B} (body : M S B) : M S B :=
  g ← lock;
  r ← body;
  _ ← drop_guard g;
  mret r.
End mutex.

(** ** util/early_init.rs *)

Inductive init_state := UNINIT | MIDINIT | SAFE.

Record EarlyInit (A : Type) := EI { init : init_state; cell : option A }.
Arguments EI {A} _ _.
Arguments init {A} _.
Arguments cell {A} _.

Definition EarlyInit_new {A} : EarlyInit A := EI UNINIT None.

(** [compare_and_swap(UNINIT, MIDINIT)], the write of the value, then the store
    of [SAFE]. *)
Definition EarlyInit_set {A} (e : EarlyInit A) (a : A) : outcome (EarlyInit A) :=
  match init e with
  | UNINIT =>
      let e := EI MIDINIT (cell e) in
      let e := EI (init e) (Some a) in
      Ret (EI SAFE (cell e))
  | _ => Panic "called EarlyInit::set twice on same value!"
  end.

Definition EarlyInit_deref {A} (e : EarlyInit A) : outcome A :=
  match init e with
  | SAFE => match cell e with Some a => Ret a | None => UB "uninitialised value" end
  | _ => Panic "EarlyInit not yet initialised"
  end.

(** The cell is initialised exactly when its flag says so. *)
Definition EarlyInit_wf {A} (e : EarlyInit A) : Prop :=
  match init e with UNINIT => cell e = None | MIDINIT => True | SAFE => is_Some (cell e) end.

(** ** Critical sections: properties *)

Section critical_facts.
Context {S : Type} {HC : HasCpu S} {HL : LensLaws (cpu_if : lens S bool)}.

Lemma begin_run (s : S) : begin s = Ret (view cpu_if s, set cpu_if false s).
Proof.
  unfold begin, eflags, cli, gets, modify, mbind, M_bind, mret, M_ret. cbn.
  by destruct (view cpu_if s).
Qed.

Lemma drop_critical_run (c : Critical) (s : S) :
  drop_critical c s = Ret (tt, if c then set cpu_if true s else s).
Proof. by destruct c. Qed.

Lemma drop_critical_restores (s s' : S) :
  view cpu_if s' = false -> 
  drop_critical (view cpu_if s) s' = Ret (tt, set cpu_if (view cpu_if s) s').
Proof.
  intros H. rewrite drop_critical_run. destruct (view cpu_if s); [done|].
  rewrite <- H, set_view. done.
Qed.

Lemma wp_begin (Q : Critical -> S -> Prop) (s : S) :
  Q (view cpu_if s) (set cpu_if false s) -> wp begin Q s.
Proof. intros H. eapply wp_run; [apply begin_run | done]. Qed.

Lemma wp_drop_critical (c : Critical) (Q : unit -> S -> Prop) (s : S) :
  Q tt (if c then set cpu_if true s else s) -> wp (drop_critical c) Q s.
Proof. intros H. eapply wp_run; [apply drop_critical_run | done]. Qed.

(** A body that leaves interrupts off is run by [section] with interrupts off,
    and the flag is put back afterwards. *)
Lemma wp_section {A} (f : M S A) (Q : A -> S -> Prop) (s : S) :
  wp f (fun a s' => view cpu_if s' = false /\ Q a (set cpu_if (view cpu_if s) s'))
     (set cpu_if false s) ->
  wp (section f) Q s.
Proof.
  intros H. unfold section. wp_step. apply wp_begin. wp_step.
  eapply wp_mono; [|exact H]. intros a s' [Hif HQ]. wp_step.
  eapply wp_run; [by apply drop_critical_restores|]. by wp_step.
Qed.
End critical_facts.

Section mutex_facts.
Context {S A : Type} {HC : HasCpu S} {HL : LensLaws (cpu_if : lens S bool)}.
Context (mx : lens S (Mutex A)) `{!LensLaws mx}.

Lemma lock_recursive (s : S) :
  locked (view mx (set cpu_if false s)) = true ->
  lock mx s = Panic "recursive mutex lock!".
Proof.
  intros H. unfold lock, mbind, M_bind at 1. rewrite begin_run.
  unfold gets, mbind, M_bind. by rewrite H.
Qed.

Lemma wp_with_lock {B} (body : M S B) (Q : B -> S -> Prop) (s : S) :
  let s0 := set cpu_if false s in
  locked (view mx s0) = false ->
  wp body
     (fun b s' => wp (drop_guard mx (view cpu_if s)) (fun _ s'' => Q b s'') s')
     (set mx (MutexInner (value (view mx s0)) true) s0) ->
  wp (with_lock mx body) Q s.
Proof.
  intros s0 Hl H. unfold with_lock. wp_step.
  unfold lock. wp_step. apply wp_begin. wp_steps. fold s0. rewrite Hl.
  unfold set_locked. wp_steps.
  eapply wp_mono; [|exact H]. intros b s' H'. wp_step.
  eapply wp_mono; [|exact H']. intros u s'' HQ. by wp_step.
Qed.

(** The same with the guard's drop computed: the body leaves interrupts off, the
    value it leaves stays, and the flag is put back. *)
Lemma wp_locked {B} (body : M S B) (Q : B -> S -> Prop) (s : S) :
  let s0 := set cpu_if false s in
  locked (view mx s0) = false ->
  wp body (fun b s' =>
      let s'' := set mx (MutexInner (value (view mx s')) false) s' in
      view cpu_if s'' = false /\ Q b (set cpu_if (view cpu_if s) s''))
     (set mx (MutexInner (value (view mx s0)) true) s0) ->
  wp (with_lock mx body) Q s.
Proof.
  intros s0 Hl H. apply wp_with_lock; [done|]. eapply wp_mono; [|exact H].
  intros b s' [Hif HQ]. unfold drop_guard, set_locked. wp_steps. apply wp_drop_critical.
  destruct (view cpu_if s); [exact HQ|]. cbv zeta in Hif.
  match type of HQ with Q b (set _ false ?s2) => pose proof (@set_view S bool cpu_if HL s2) as E end.
  rewrite Hif in E. by rewrite E in HQ.
Qed.
End mutex_facts.

(** ** Guards and critical sections as a transition system

    The live tokens of a CPU: critical sections and mutex guards, the most
    recent first.  Each transition is the code of the operation. *)

Inductive token :=
| TCrit (c : Critical)
| TGuard (id : nat) (g : MutexGuard).

Record cpu := Cpu { flag : bool; mutexes : gmap nat (Mutex unit) }.

#[export] Instance cpu_HasCpu : HasCpu cpu :=
  Lens flag (fun b s => Cpu b (mutexes s)).

Definition mutex_at (id : nat) : lens cpu (Mutex unit) :=
  Lens (fun s => default (Mutex_new tt) (mutexes s !! id))
       (fun m s => Cpu (flag s) (<[id := m]> (mutexes s))).

Inductive cpu_step : cpu * list token -> cpu * list token -> Prop :=
| step_begin s s' c ts :
    begin s = Ret (c, s') -> cpu_step (s, ts) (s', TCrit c :: ts)
| step_lock id s s' g ts :
    lock (mutex_at id) s = Ret (g, s') -> cpu_step (s, ts) (s', TGuard id g :: ts)
| step_end s s' c ts1 ts2 :
    drop_critical c s = Ret (tt, s') ->
    cpu_step (s, ts1 ++ TCrit c :: ts2) (s', ts1 ++ ts2)
| step_unlock id s s' g ts1 ts2 :
    drop_guard (mutex_at id) g s = Ret (tt, s') ->
    cpu_step (s, ts1 ++ TGuard id g :: ts2) (s', ts1 ++ ts2).

(** Tokens released in the order scopes end: only the most recent one. *)
Inductive lifo_step : cpu * list token -> cpu * list token -> Prop :=
| lifo_begin s s' c ts :
    begin s = Ret (c, s') -> lifo_step (s, ts) (s', TCrit c :: ts)
| lifo_lock id s s' g ts :
    lock (mutex_at id) s = Ret (g, s') -> lifo_step (s, ts) (s', TGuard id g :: ts)
| lifo_end s s' c ts :
    drop_critical c s = Ret (tt, s') -> lifo_step (s, TCrit c :: ts) (s', ts)
| lifo_unlock id s s' g ts :
    drop_guard (mutex_at id) g s = Ret (tt, s') ->
    lifo_step (s, TGuard id g :: ts) (s', ts).

Definition saved (t : token) : bool :=
  match t with TCrit c => c | TGuard _ g => g end.
Definition guards_of (id : nat) (ts : list token) : list token :=
  List.filter (fun t => match t with TGuard i _ => Nat.eqb i id | _ => false end) ts.
Definition is_locked (id : nat) (s : cpu) : bool := locked (view (mutex_at id) s).

Definition cpu_start (b : bool) : cpu * list token := (Cpu b ∅, []).

#[export] Instance cpu_HasCpu_laws : LensLaws (cpu_if : lens cpu bool).
Proof. split; [done | by intros [] | done]. Qed.

Lemma mutex_at_view_set id m s : view (mutex_at id) (set (mutex_at id) m s) = m.
Proof. cbn. by rewrite lookup_insert_eq. Qed.

Lemma mutex_at_view_set_ne id id' m s :
  id <> id' -> view (mutex_at id) (set (mutex_at id') m s) = view (mutex_at id) s.
Proof. intros H. cbn. by rewrite lookup_insert_ne. Qed.

Lemma lock_ret id s g s' :
  lock (mutex_at id) s = Ret (g, s') ->
  g = flag s /\ is_locked id s = false /\
  s' = set (mutex_at id) (MutexInner tt true) (set cpu_if false s).
Proof.
  unfold lock, mbind, M_bind at 1. rewrite begin_run.
  unfold set_locked, is_locked, gets, modify, mbind, M_bind, panic, mret, M_ret.
  cbn. destruct (locked _); [done|]. intros [= <- <-]. split_and!; [done..|].
  by destruct (value _).
Qed.

Lemma drop_guard_run id g s :
  drop_guard (mutex_at id) g s =
  Ret (tt, let s' := set (mutex_at id) (Mutex_new tt) s in
           if g then set cpu_if true s' else s').
Proof.
  unfold drop_guard, set_locked, modify, mbind, M_bind.
  rewrite drop_critical_run. cbn. by destruct (value _), g.
Qed.

Lemma is_locked_set id id' b s :
  is_locked id (set (mutex_at id') (MutexInner tt b) s) =
  if Nat.eqb id' id then b else is_locked id s.
Proof.
  unfold is_locked. destruct (Nat.eqb_spec id' id) as [->|H].
  - by rewrite mutex_at_view_set.
  - by rewrite mutex_at_view_set_ne.
Qed.

Lemma is_locked_flag id b s : is_locked id (set cpu_if b s) = is_locked id s.
Proof. done. Qed.

Lemma is_locked_cond_flag id (g : bool) s :
  is_locked id (if g then set cpu_if true s else s) = is_locked id s.
Proof. by destruct g. Qed.

Lemma guards_of_app id ts1 ts2 :
  guards_of id (ts1 ++ ts2) = guards_of id ts1 ++ guards_of id ts2.
Proof. apply List.filter_app. Qed.

(** One live guard exactly when the mutex is marked locked. *)
Definition guards_inv (c : cpu * list token) : Prop :=
  forall id, length (guards_of id c.2) = if is_locked id c.1 then 1%nat else 0%nat.

Lemma cpu_step_guards c c' : cpu_step c c' -> guards_inv c -> guards_inv c'.
Proof.
  intros Hstep Hinv id. specialize (Hinv id). revert Hinv.
  destruct Hstep as [s s' ct ts H|id' s s' g ts H|s s' ct ts1 ts2 H|id' s s' g ts1 ts2 H];
    cbn [fst snd]; rewrite ?guards_of_app, ?length_app.
  - rewrite begin_run in H. injection H as _ <-. exact (fun x => x).
  - apply lock_ret in H as (_ & Hfree & ->). intros Hinv.
    rewrite is_locked_set, is_locked_flag. cbn.
    destruct (Nat.eqb_spec id' id) as [->|_]; [|done]. cbn.
    unfold guards_of in *. rewrite Hinv, Hfree. done.
  - rewrite drop_critical_run in H.
    assert (s' = if ct then set cpu_if true s else s) as -> by congruence.
    rewrite is_locked_cond_flag. exact (fun x => x).
  - rewrite drop_guard_run in H. cbv zeta in H.
    assert (s' = let s1 := set (mutex_at id') (MutexInner tt false) s in
                 if g then set cpu_if true s1 else s1) as -> by (cbv zeta; unfold Mutex_new in H; congruence).
    cbv zeta. rewrite is_locked_cond_flag, is_locked_set. cbn.
    destruct (Nat.eqb_spec id' id) as [->|_]; cbn; [|done].
    unfold guards_of. destruct (is_locked id s); lia.
Qed.

(** C21: the kernel mutex is exclusive: however critical sections and
    guards are opened and closed (in any order, any number of mutexes), each
    mutex has at most one live guard, and its flag says exactly whether one is
    live. *)
Theorem mutex_exclusion b s ts id :
  rtc cpu_step (cpu_start b) (s, ts) ->
  (length (guards_of id ts) <= 1)%nat /\
  (is_locked id s = true <-> length (guards_of id ts) = 1%nat).
Proof.
  intros H. assert (guards_inv (s, ts)) as Hinv.
  { eapply rtc_invariant; [apply cpu_step_guards | | exact H]. done. }
  specialize (Hinv id). cbn [fst snd] in Hinv. rewrite Hinv.
  destruct (is_locked id s); split; (lia || done || split; (done || lia)).
Qed.

Lemma mutex_exclusion_witness :
  is_locked 3 (Cpu false {[3%nat := MutexInner tt true]}) = true.
Proof.
  apply (mutex_exclusion true _ [TGuard 3 true] 3%nat); [|reflexivity].
  apply rtc_once. apply (step_lock 3 (Cpu true ∅)). reflexivity.
Defined.

(** Interrupts are off while anything is live; only the oldest token may have
    seen them on. *)
Fixpoint chain_inv (b : bool) (fl : bool) (ts : list token) : Prop :=
  match ts with
  | [] => fl = b
  | t :: ts => fl = false /\ chain_inv b (saved t) ts
  end.

Definition lifo_inv (b : bool) (c : cpu * list token) : Prop :=
  chain_inv b (flag c.1) c.2.

Lemma lifo_step_inv b c c' : lifo_step c c' -> lifo_inv b c -> lifo_inv b c'.
Proof.
  unfold lifo_inv.
  destruct 1 as [s s' ct ts H|id s s' g ts H|s s' ct ts H|id s s' g ts H];
    cbn [fst snd]; intros Hinv.
  - rewrite begin_run in H. injection H as <- <-. done.
  - apply lock_ret in H as (-> & _ & ->). done.
  - rewrite drop_critical_run in H. injection H as <-.
    destruct Hinv as [Hf Hinv]. destruct ct; cbn in *; congruence.
  - rewrite drop_guard_run in H. injection H as <-.
    destruct Hinv as [Hf Hinv]. destruct g; cbn in *; congruence.
Qed.

(** Scoped use of critical sections and locks is sound: when tokens are
    released in the reverse order of their creation, interrupts are disabled as
    long as any critical section or guard is live, and once all are released
    the interrupt flag is back to its initial value. *)
Theorem lifo_interrupts b s ts :
  rtc lifo_step (cpu_start b) (s, ts) ->
  flag s = match ts with [] => b | _ :: _ => false end.
Proof.
  intros H. assert (lifo_inv b (s, ts)) as Hinv.
  { eapply rtc_invariant; [apply lifo_step_inv | | exact H]. done. }
  destruct ts; [exact Hinv | apply Hinv].
Qed.

Lemma lifo_interrupts_witness :
  flag (Cpu true {[3%nat := MutexInner tt false]}) = true.
Proof.
  apply (lifo_interrupts true _ []).
  eapply rtc_l; [apply (lifo_lock 3 (Cpu true ∅)); reflexivity|].
  eapply rtc_l; [|apply rtc_refl].
  apply lifo_unlock with (id := 3%nat) (g := true). reflexivity.
Defined.

(** The order matters: releasing the guard of a mutex before a critical
    section opened under it leaves that critical section live with interrupts
    enabled.  This is what happens when a future that holds a [Critical] is left
    pending: its task lock is released first. *)
Theorem critical_escapes :
  exists s ts, rtc cpu_step (cpu_start true) (s, TCrit false :: ts) /\ flag s = true.
Proof.
  exists (Cpu true {[0%nat := MutexInner tt false]}), []. split; [|done].
  eapply rtc_l; [apply (step_lock 0 (Cpu true ∅)); reflexivity|].
  eapply rtc_l; [eapply step_begin; reflexivity|].
  eapply rtc_l; [|apply rtc_refl].
  apply (step_unlock 0%nat) with (ts1 := [TCrit false]) (ts2 := []) (g := true).
  reflexivity.
Qed.

(** ** EarlyInit *)

(** An [EarlyInit] cell is written once and read only afterwards: on a
    well-formed cell, [set] succeeds exactly on a fresh cell and then [deref]
    returns the value stored; a read before it and a second [set] panic, and no
    access reads an uninitialised value. *)
Theorem EarlyInit_once {A} (e : EarlyInit A) (a : A) :
  EarlyInit_wf e ->
  (forall e', EarlyInit_set e a = Ret e' ->
     init e = UNINIT /\ EarlyInit_wf e' /\ EarlyInit_deref e' = Ret a /\
     forall b, EarlyInit_set e' b = Panic "called EarlyInit::set twice on same value!") /\
  (init e = UNINIT -> exists e', EarlyInit_set e a = Ret e') /\
  (init e <> SAFE -> EarlyInit_deref e = Panic "EarlyInit not yet initialised") /\
  (forall msg, EarlyInit_deref e <> UB msg).
Proof.
  destruct e as [i c]. unfold EarlyInit_wf, EarlyInit_set, EarlyInit_deref. cbn.
  intros Hwf. split_and!.
  - intros e' H. destruct i; [|done..]. injection H as <-. cbn. naive_solver.
  - intros ->. eauto.
  - by destruct i.
  - intros msg. destruct i; [done..|]. destruct Hwf as [x ->]. done.
Qed.

Lemma EarlyInit_once_witness :
  exists e', EarlyInit_set (@EarlyInit_new nat) 5%nat = Ret e'.
Proof. by apply (EarlyInit_once (@EarlyInit_new nat) 5%nat). Defined.
