(* ===== verification/Machine.v ===== *)
(** * Machine: the state the memory code works on

    Physical frames, the page table root, the temporary mapping window and the
    static variables of [kernel/src/mem/phys.rs], with the accessors of
    [kernel/src/mem/page.rs] that both the frame allocator and the page tables
    use ([temp_map], [temp_reset]).

    A frame is either 512 words (what a zeroed frame or a page table is) or a
    frame whose first bytes hold an [Option<RawPhys>] link of the free list.  The
    hardware translates every access by walking the tables: the translation cache
    is not modelled, so [invlpg] has no effect on the state. *)

From S2P Require Import Prelude Sync.

Definition PAGE_SIZE : Z := 0x1000.

(** [addr & !0xfff] *)
Definition page_base (a : Z) : Z := Z.land a (Z.lnot 0xfff).

Inductive frame :=
| FWords (w : gmap Z Z)
| FLink (next : option Z).

Definition zero_frame : frame := FWords ∅.

(** The [i]th word of a frame read as an array of words. *)
Definition frame_word (f : frame) (i : Z) : option Z :=
  match f with FWords w => Some (default 0 (w !! i)) | FLink _ => None end.

Record PhysRegion := Region { rbegin : Z; rend : Z }.

Record machine := Machine {
  build : profile;
  m_if : bool;
  mem : gmap Z frame;
  cr3 : Z;
  temp : Z;                                (* page table word behind [temp_page] *)
  regions : EarlyInit (list PhysRegion);   (* PHYS_REGIONS *)
  bump : EarlyInit (Mutex (list Z));       (* PHYS_BUMP_ALLOC *)
  rc_enabled : bool;                       (* REF_COUNT_ENABLED *)
  rc : gmap Z Z;                           (* _phys_rc, by page number *)
  next_free : Mutex (option Z)             (* NEXT_FREE_PHYS *)
}.

Definition set_if b (s : machine) :=
  Machine (build s) b (mem s) (cr3 s) (temp s) (regions s) (bump s) (rc_enabled s) (rc s) (next_free s).
Definition set_mem x (s : machine) :=
  Machine (build s) (m_if s) x (cr3 s) (temp s) (regions s) (bump s) (rc_enabled s) (rc s) (next_free s).
Definition set_cr3 x (s : machine) :=
  Machine (build s) (m_if s) (mem s) x (temp s) (regions s) (bump s) (rc_enabled s) (rc s) (next_free s).
Definition set_temp x (s : machine) :=
  Machine (build s) (m_if s) (mem s) (cr3 s) x (regions s) (bump s) (rc_enabled s) (rc s) (next_free s).
Definition set_regions x (s : machine) :=
  Machine (build s) (m_if s) (mem s) (cr3 s) (temp s) x (bump s) (rc_enabled s) (rc s) (next_free s).
Definition set_bump x (s : machine) :=
  Machine (build s) (m_if s) (mem s) (cr3 s) (temp s) (regions s) x (rc_enabled s) (rc s) (next_free s).
Definition set_rc_enabled x (s : machine) :=
  Machine (build s) (m_if s) (mem s) (cr3 s) (temp s) (regions s) (bump s) x (rc s) (next_free s).
Definition set_rc x (s : machine) :=
  Machine (build s) (m_if s) (mem s) (cr3 s) (temp s) (regions s) (bump s) (rc_enabled s) x (next_free s).
Definition set_next_free x (s : machine) :=
  Machine (build s) (m_if s) (mem s) (cr3 s) (temp s) (regions s) (bump s) (rc_enabled s) (rc s) x.

#[export] Instance machine_HasCpu : HasCpu machine := Lens m_if set_if.
#[export] Instance machine_HasCpu_laws : LensLaws (cpu_if : lens machine bool).
Proof. split; [done | by intros [] | done]. Qed.

(** The static mutexes.  [PHYS_BUMP_ALLOC] is only locked after its [EarlyInit]
    cell has been dereferenced. *)
Definition NEXT_FREE_PHYS : lens machine (Mutex (option Z)) := Lens next_free set_next_free.
Definition PHYS_BUMP_ALLOC : lens machine (Mutex (list Z)) :=
  Lens (fun s => default (Mutex_new []) (cell (bump s)))
       (fun m s => set_bump (EI (init (bump s)) (Some m)) s).

(** [a + b] of the code, in the profile the kernel was built with. *)
Definition add64 (a b : Z) : M machine Z := fun s => lift (u64_add (build s) a b) s.
Definition sub64 (a b : Z) : M machine Z := fun s => lift (u64_sub (build s) a b) s.
Definition mul64 (a b : Z) : M machine Z := fun s => lift (u64_mul (build s) a b) s.

(** ** page.rs: the temporary mapping *)

(** [PageFlags] are kept as their bits. *)
Definition PRESENT : Z := 0x001.
Definition WRITE : Z := 0x002.
Definition USER : Z := 0x004.
Definition WRITE_THROUGH : Z := 0x008.
Definition CACHE_DISABLED : Z := 0x010.
Definition ACCESSED : Z := 0x020.
Definition DIRTY : Z := 0x040.
Definition GLOBAL : Z := 0x080.
Definition PageFlags_all : Z := 0x0ff.

(** [*entry = PmlEntry(0)] on the entry of [temp_page]. *)
Definition temp_reset : M machine unit := modify (set_temp 0).

Definition temp_map (phys : Z) : M machine unit :=
  entry ← gets temp;
  if entry =? 0 then modify (set_temp (Z.lor phys (Z.lor PRESENT WRITE)))
  else panic "temp page already mapped".

(** The frame behind the pointer of a [TempMap]. *)
Definition temp_frame (s : machine) : Z := page_base (temp s).

(** [*(ptr as *mut Option<RawPhys>)] *)
Definition read_link : M machine (option Z) := fun s =>
  match mem s !! temp_frame s with
  | Some (FLink n) => Ret (n, s)
  | _ => UB "frame does not hold a free list link"
  end.

(** [ptr::write(ptr as *mut Option<RawPhys>, next)] *)
Definition write_link (next : option Z) : M machine unit :=
  modify (fun s => set_mem (<[temp_frame s := FLink next]> (mem s)) s).

(** [zero(ptr, PAGE_SIZE)] *)
Definition zero_temp : M machine unit :=
  modify (fun s => set_mem (<[temp_frame s := zero_frame]> (mem s)) s).

(** ** Page arithmetic *)

Definition page_aligned (a : Z) : Prop := a `mod` PAGE_SIZE = 0.

Lemma page_base_sub a : page_base a = a - a `mod` PAGE_SIZE.
Proof.
  unfold page_base, PAGE_SIZE. change 0xfff with (Z.ones 12).
  rewrite <- Z.ldiff_land, Z.ldiff_ones_r, Z.shiftl_mul_pow2, Z.shiftr_div_pow2 by lia.
  change (2 ^ 12) with 0x1000. zdiv.
Qed.

Lemma lor_low a b : page_aligned a -> 0 <= b < PAGE_SIZE -> Z.lor a b = a + b.
Proof.
  unfold page_aligned, PAGE_SIZE. intros Ha Hb.
  assert (Z.land a b = 0) as Hdis.
  { apply Z.bits_inj'. intros n Hn. rewrite Z.land_spec, Z.bits_0.
    destruct (decide (n < 12)).
    - replace a with ((a / 2 ^ 12) * 2 ^ 12) by (change (2 ^ 12) with 0x1000; zdiv).
      by rewrite Z.mul_pow2_bits_low.
    - replace (Z.testbit b n) with false; [by rewrite andb_false_r|].
      symmetry. destruct (decide (b = 0)) as [->|]; [apply Z.bits_0|].
      apply Z.bits_above_log2; [lia|].
      assert (Z.log2 b < 12); [|lia]. apply Z.log2_lt_pow2; lia. }
  pose proof (Z.add_lor_land a b). lia.
Qed.

Lemma page_base_lor a b : page_aligned a -> 0 <= b < PAGE_SIZE -> page_base (Z.lor a b) = a.
Proof.
  intros Ha Hb. rewrite lor_low, page_base_sub by done.
  unfold page_aligned, PAGE_SIZE in *. zdiv.
Qed.

Lemma page_base_aligned a : page_aligned (page_base a).
Proof. rewrite page_base_sub. unfold page_aligned, PAGE_SIZE. zdiv. Qed.

Lemma page_base_id a : page_aligned a -> page_base a = a.
Proof. rewrite page_base_sub. unfold page_aligned, PAGE_SIZE. lia. Qed.

Lemma land_low_mod a : Z.land a 0xfff = a `mod` PAGE_SIZE.
Proof. change 0xfff with (Z.ones 12). by rewrite Z.land_ones. Qed.
