(* ===== verification/Phys.v ===== *)
(** * Phys: the physical frame allocator ([kernel/src/mem/phys.rs])

    A [Phys] is a counted reference to a frame; a [RawPhys] is its address.  Both
    are a 64-bit [Z] here: creating a [Phys] is [Phys_new], dropping one is
    [drop_phys].  Frames that were given back form a list linked through their
    own memory; frames never used yet are taken from a bump pointer per region.

    The reference counts live at a fixed virtual range in the kernel; here they
    are the map [rc] from page numbers, and the mapping of that range (which
    [phys_init] sets up) is not modelled. *)

From S2P Require Import Prelude Sync Machine.

Definition MAX_PHYS_PAGE : Z := Z.shiftl 1 48.

(** Slots between [_phys_rc] and [_phys_rc_end] ([kernel/linker.ld]). *)
Definition rc_slots : Z := Z.shiftl 1 48 / 4096.

(** ** Reference counts *)

Definition known_region (raw : Z) (reg : PhysRegion) : bool :=
  (rbegin reg <=? raw) && (raw <? rend reg).

Definition ref_count (raw : Z) : M machine (option Z) :=
  rs ← (fun s => lift (EarlyInit_deref (regions s)) s);
  if negb (existsb (known_region raw) rs) then mret None
  else if MAX_PHYS_PAGE <? raw then panic "addr > MAX_PHYS_PAGE"
  else
    let page_number := Z.shiftr raw 12 in
    if rc_slots <? page_number then panic "rc > end"
    else mret (Some page_number).

Definition rc_load (slot : Z) (s : machine) : Z := default 0 (rc s !! slot).

(** [fetch_add] and [fetch_sub] wrap; they return the previous value. *)
Definition fetch_add (slot : Z) (d : Z) : M machine Z :=
  previous ← gets (rc_load slot);
  _ ← modify (fun s => set_rc (<[slot := wrap64 (previous + d)]> (rc s)) s);
  mret previous.

Definition inc_ref (raw : Z) : M machine unit :=
  enabled ← gets rc_enabled;
  if enabled : bool then
    r ← ref_count raw;
    match r with
    | Some slot => _ ← fetch_add slot 1; mret tt
    | None => mret tt
    end
  else mret tt.

Definition inc_ref_for_init (raw : Z) : M machine unit :=
  r ← ref_count raw;
  match r with
  | Some slot => _ ← fetch_add slot 1; mret tt
  | None => mret tt
  end.

Inductive PhysStatus := InUse | ShouldFree.

Definition dec_ref (raw : Z) : M machine PhysStatus :=
  enabled ← gets rc_enabled;
  if enabled : bool then
    r ← ref_count raw;
    match r with
    | Some slot =>
        previous_ref_count ← fetch_add slot (-1);
        if previous_ref_count =? 0 then panic "phys::dec_ref underflowed!"
        else if previous_ref_count =? 1 then mret ShouldFree
        else mret InUse
    | None => mret InUse
    end
  else mret InUse.

(** ** Phys *)

Definition Phys_new (raw_phys : Z) : M machine Z :=
  _ ← inc_ref raw_phys; mret raw_phys.

Definition into_raw (phys : Z) : Z := phys.
Definition from_raw (raw_phys : Z) : Z := raw_phys.
Definition clone (phys : Z) : M machine Z := Phys_new phys.

(** [Drop for Phys] *)
Definition drop_phys (phys : Z) : M machine unit :=
  status ← dec_ref phys;
  match status with
  | InUse => mret tt
  | ShouldFree =>
      with_lock NEXT_FREE_PHYS (
        crit ← begin;
        _ ← temp_map phys;
        head ← deref NEXT_FREE_PHYS;
        _ ← assign NEXT_FREE_PHYS None;
        _ ← write_link head;
        _ ← temp_reset;
        _ ← drop_critical crit;
        assign NEXT_FREE_PHYS (Some phys))
  end.

(** ** Allocation *)

Definition alloc_freelist : M machine (option Z) :=
  with_lock NEXT_FREE_PHYS (
    head ← deref NEXT_FREE_PHYS;
    _ ← assign NEXT_FREE_PHYS None;
    match head with
    | None => mret None
    | Some phys =>
        crit ← begin;
        phys ← Phys_new phys;
        _ ← temp_map phys;
        next ← read_link;
        _ ← write_link None;
        _ ← assign NEXT_FREE_PHYS next;
        _ ← zero_temp;
        _ ← temp_reset;
        _ ← drop_critical crit;
        mret (Some phys)
    end).

(** The body of the loop for the region [idx], whose bump pointer is [alloc]. *)
Definition alloc_from (idx : nat) (alloc : Z) : M machine Z :=
  next ← add64 alloc PAGE_SIZE;
  bump_alloc ← deref PHYS_BUMP_ALLOC;
  _ ← assign PHYS_BUMP_ALLOC (<[idx := next]> bump_alloc);
  phys ← Phys_new alloc;
  crit ← begin;
  _ ← temp_map alloc;
  _ ← zero_temp;
  _ ← temp_reset;
  _ ← drop_critical crit;
  mret phys.

(** [regions.iter().zip(bump_alloc.iter_mut())], from index [idx]. *)
Fixpoint alloc_new (idx : nat) (regions : list PhysRegion) (bump_alloc : list Z) :
  M machine (result Z unit) :=
  match regions, bump_alloc with
  | region :: regions, alloc :: bump_alloc =>
      if rend region <=? alloc then alloc_new (S idx) regions bump_alloc
      else phys ← alloc_from idx alloc; mret (Ok phys)
  | _, _ => mret (Err tt)
  end.

Definition alloc : M machine (result Z unit) :=
  page ← alloc_freelist;
  match page with
  | Some page => mret (Ok page)
  | None =>
      regions ← (fun s => lift (EarlyInit_deref (regions s)) s);
      _ ← (fun s => lift (EarlyInit_deref (bump s)) s);
      with_lock PHYS_BUMP_ALLOC (
        bump_alloc ← deref PHYS_BUMP_ALLOC;
        alloc_new 0 regions bump_alloc)
  end.

(** ** The invariant of the allocator

    [rs] are the regions, [bs] the bump pointers and [fl] the free list. *)

Fixpoint free_chain (mem : gmap Z frame) (head : option Z) (fl : list Z) : Prop :=
  match fl with
  | [] => head = None
  | p :: fl =>
      head = Some p /\ exists next, mem !! p = Some (FLink next) /\ free_chain mem next fl
  end.

Definition rc_of (s : machine) (p : Z) : Z := rc_load (Z.shiftr p 12) s.

(** A frame of a region, before or after its bump pointer. *)
Definition in_region (r : PhysRegion) (p : Z) : Prop :=
  page_aligned p /\ rbegin r <= p < rend r.

Definition fresh (rs : list PhysRegion) (bs : list Z) (p : Z) : Prop :=
  exists i r b, rs !! i = Some r /\ bs !! i = Some b /\ page_aligned p /\ b <= p < rend r.

Definition used (rs : list PhysRegion) (bs : list Z) (p : Z) : Prop :=
  exists i r b, rs !! i = Some r /\ bs !! i = Some b /\ page_aligned p /\ rbegin r <= p < b.

(** The frames [alloc] may return. *)
Definition allocatable rs bs (fl : list Z) (p : Z) : Prop := p ∈ fl \/ fresh rs bs p.

Definition regions_ok (rs : list PhysRegion) : Prop :=
  (forall i r, rs !! i = Some r ->
     page_aligned (rbegin r) /\ page_aligned (rend r) /\
     0 < rbegin r <= rend r /\ rend r <= MAX_PHYS_PAGE) /\
  (forall i j r r' p, rs !! i = Some r -> rs !! j = Some r' ->
     rbegin r <= p < rend r -> rbegin r' <= p < rend r' -> i = j).

Record phys_inv (rs : list PhysRegion) (bs fl : list Z) (s : machine) : Prop := {
  pi_regions : regions s = EI SAFE (Some rs);
  pi_bump : bump s = EI SAFE (Some (Mutex_new bs));
  pi_head : exists head, next_free s = Mutex_new head /\ free_chain (mem s) head fl;
  pi_enabled : rc_enabled s = true;
  pi_temp : temp s = 0;
  pi_rs : regions_ok rs;
  pi_len : length rs = length bs;
  pi_bs : forall i r b, rs !! i = Some r -> bs !! i = Some b ->
            page_aligned b /\ rbegin r <= b <= rend r;
  pi_nodup : NoDup fl;
  pi_fl : forall p, p ∈ fl -> used rs bs p;
  pi_rc : forall p, allocatable rs bs fl p -> rc_of s p = 0
}.

(** What the allocator never touches. *)
Definition same_env (s s' : machine) : Prop :=
  build s' = build s /\ m_if s' = m_if s /\ cr3 s' = cr3 s.

(** ** Running the allocator *)

Lemma existsb_known rs p i r :
  rs !! i = Some r -> rbegin r <= p < rend r -> existsb (known_region p) rs = true.
Proof.
  intros Hr Hp. apply existsb_exists. exists r. split.
  - apply list_elem_of_In, list_elem_of_lookup. eauto.
  - unfold known_region. lia.
Qed.

Lemma existsb_known_false rs p :
  (forall i r, rs !! i = Some r -> ~ rbegin r <= p < rend r) ->
  existsb (known_region p) rs = false.
Proof.
  intros H. apply not_true_iff_false. intros (r & Hin & Hr)%existsb_exists.
  apply list_elem_of_In, list_elem_of_lookup in Hin as [i Hi].
  apply (H i r Hi). unfold known_region in Hr. lia.
Qed.

Lemma shiftr12 p : Z.shiftr p 12 = p / PAGE_SIZE.
Proof. by rewrite Z.shiftr_div_pow2. Qed.

Lemma page_number_inj p q :
  page_aligned p -> page_aligned q -> Z.shiftr p 12 = Z.shiftr q 12 -> p = q.
Proof. rewrite !shiftr12. unfold page_aligned, PAGE_SIZE. intros. zdiv. Qed.

Lemma ref_count_known rs i r p s :
  regions s = EI SAFE (Some rs) -> regions_ok rs ->
  rs !! i = Some r -> rbegin r <= p < rend r ->
  ref_count p s = Ret (Some (Z.shiftr p 12), s).
Proof.
  intros Hs [Hok _] Hr Hp. destruct (Hok i r Hr) as (_ & _ & Hb & He).
  unfold ref_count, mbind, M_bind, lift. rewrite Hs. cbn [EarlyInit_deref init cell].
  erewrite existsb_known by eauto. cbn [negb].
  rewrite (proj2 (Z.ltb_ge _ _)) by lia.
  rewrite (proj2 (Z.ltb_ge _ _)); [done|].
  rewrite shiftr12. unfold rc_slots, MAX_PHYS_PAGE, PAGE_SIZE in *.
  change (Z.shiftl 1 48) with (2 ^ 48) in *. zdiv.
Qed.

Lemma ref_count_unknown rs p s :
  regions s = EI SAFE (Some rs) ->
  (forall i r, rs !! i = Some r -> ~ rbegin r <= p < rend r) ->
  ref_count p s = Ret (None, s).
Proof.
  intros Hs Hp. unfold ref_count, mbind, M_bind, lift. rewrite Hs.
  cbn [EarlyInit_deref init cell]. by rewrite existsb_known_false.
Qed.

Definition bump_rc (p d : Z) (s : machine) : machine :=
  set_rc (<[Z.shiftr p 12 := wrap64 (rc_of s p + d)]> (rc s)) s.

Section known_frame.
Context (rs : list PhysRegion) (i : nat) (r : PhysRegion) (p : Z).
Context (Hok : regions_ok rs) (Hr : rs !! i = Some r) (Hp : rbegin r <= p < rend r).

Lemma wp_Phys_new (Q : Z -> machine -> Prop) s :
  regions s = EI SAFE (Some rs) -> rc_enabled s = true ->
  Q p (bump_rc p 1 s) -> wp (Phys_new p) Q s.
Proof using Hok Hr Hp.
  intros Hs He HQ. unfold Phys_new, inc_ref. wp_steps. rewrite He. wp_step.
  eapply wp_run; [by eapply ref_count_known|]. unfold fetch_add. by wp_steps.
Qed.

Lemma wp_dec_ref (Q : PhysStatus -> machine -> Prop) s :
  regions s = EI SAFE (Some rs) -> rc_enabled s = true ->
  rc_of s p <> 0 ->
  Q (if rc_of s p =? 1 then ShouldFree else InUse) (bump_rc p (-1) s) ->
  wp (dec_ref p) Q s.
Proof using Hok Hr Hp.
  intros Hs He Hrc HQ. unfold dec_ref. wp_steps. rewrite He. wp_step.
  eapply wp_run; [by eapply ref_count_known|]. unfold fetch_add. wp_steps.
  unfold rc_of in *.
  rewrite (proj2 (Z.eqb_neq _ _)) by done.
  destruct (_ =? 1); by wp_steps.
Qed.
End known_frame.

(** The temporary window is closed before and after every use. *)
Lemma wp_temp_map p (Q : unit -> machine -> Prop) s :
  temp s = 0 -> Q tt (set_temp (Z.lor p 3) s) -> wp (temp_map p) Q s.
Proof. intros Ht HQ. unfold temp_map. wp_steps. by rewrite Ht. Qed.

Lemma temp_frame_eq p s : temp s = Z.lor p 3 -> page_aligned p -> temp_frame s = p.
Proof.
  intros Ht Hp. unfold temp_frame. rewrite Ht.
  apply page_base_lor; [done | unfold PAGE_SIZE; lia].
Qed.

(** Restoring the interrupt flag and the closed window gives the state back. *)
Lemma machine_eta s :
  Machine (build s) (m_if s) (mem s) (cr3 s) (temp s) (regions s) (bump s)
    (rc_enabled s) (rc s) (next_free s) = s.
Proof. by destruct s. Qed.

(** The free list is reached with its mutex unlocked and the window closed. *)
Lemma wp_next_free_locked {B} (body : M machine B) (Q : B -> machine -> Prop) s head :
  next_free s = Mutex_new head ->
  wp body (fun b s' =>
      Q b (set_if (m_if s) (set_next_free (MutexInner (value (next_free s')) false) s')) /\
      m_if s' = false)
    (set_next_free (MutexInner head true) (set_if false s)) ->
  wp (with_lock NEXT_FREE_PHYS body) Q s.
Proof.
  intros Hn H. apply wp_with_lock; cbn; rewrite Hn; [done|].
  eapply wp_mono; [|exact H]. intros b s' [HQ Hif]. unfold drop_guard, set_locked.
  wp_steps. apply wp_drop_critical. cbn.
  destruct (m_if s) eqn:Hb; [exact HQ|].
  replace (set_next_free _ s') with
    (set_if false (set_next_free (MutexInner (value (next_free s')) false) s')); [done|].
  rewrite <- Hif. by destruct s'.
Qed.

Lemma wp_drop_phys_shared (Q : unit -> machine -> Prop) rs i r p s :
  regions_ok rs -> rs !! i = Some r -> rbegin r <= p < rend r ->
  regions s = EI SAFE (Some rs) -> rc_enabled s = true ->
  rc_of s p <> 0 -> rc_of s p <> 1 ->
  Q tt (bump_rc p (-1) s) -> wp (drop_phys p) Q s.
Proof.
  intros Hok Hr Hp Hs He H0 H1 HQ. unfold drop_phys. wp_step.
  eapply wp_dec_ref; [done..|]. by rewrite (proj2 (Z.eqb_neq _ _)).
Qed.

Lemma wp_drop_phys_last (Q : unit -> machine -> Prop) rs i r p s head :
  regions_ok rs -> rs !! i = Some r -> rbegin r <= p < rend r -> page_aligned p ->
  regions s = EI SAFE (Some rs) -> rc_enabled s = true -> temp s = 0 ->
  next_free s = Mutex_new head -> rc_of s p = 1 ->
  Q tt (set_next_free (Mutex_new (Some p))
          (set_mem (<[p := FLink head]> (mem s)) (bump_rc p (-1) s))) ->
  wp (drop_phys p) Q s.
Proof.
  intros Hok Hr Hp Ha Hs He Ht Hn H1 HQ. unfold drop_phys. wp_step.
  eapply wp_dec_ref; [done..| lia |]. rewrite H1. cbn [Z.eqb Pos.eqb].
  eapply wp_next_free_locked; [exact Hn|].
  wp_step. apply wp_begin. wp_step. apply wp_temp_map; [done|].
  unfold deref, assign, write_link, temp_reset. wp_steps. cbn.
  rewrite (temp_frame_eq p) by done. split; [|done].
  revert HQ. destruct s as [b f m c t rg bm e rcs nf]. cbn in *. subst. exact id.
Qed.

Lemma wp_alloc_freelist_empty (Q : option Z -> machine -> Prop) s :
  next_free s = Mutex_new None -> Q None s -> wp alloc_freelist Q s.
Proof.
  intros Hn HQ. eapply wp_next_free_locked; [exact Hn|].
  unfold deref, assign. wp_steps. cbn. wp_steps. split; [|done].
  revert HQ. destruct s as [b f m c t rg bm e rcs nf]. cbn in *. subst. exact id.
Qed.

Lemma wp_alloc_freelist_pop (Q : option Z -> machine -> Prop) rs i r p s next :
  regions_ok rs -> rs !! i = Some r -> rbegin r <= p < rend r -> page_aligned p ->
  regions s = EI SAFE (Some rs) -> rc_enabled s = true -> temp s = 0 ->
  next_free s = Mutex_new (Some p) -> mem s !! p = Some (FLink next) ->
  Q (Some p) (set_next_free (Mutex_new next)
          (set_mem (<[p := zero_frame]> (mem s)) (bump_rc p 1 s))) ->
  wp alloc_freelist Q s.
Proof.
  intros Hok Hr Hp Ha Hs He Ht Hn Hm HQ.
  eapply wp_next_free_locked; [exact Hn|].
  unfold deref, assign at 1. wp_steps. cbn. wp_step. apply wp_begin. wp_step.
  eapply wp_Phys_new; [done..|]. wp_step. apply wp_temp_map; [done|]. wp_step.
  match goal with |- wp read_link _ ?s1 =>
    eapply (wp_run read_link _ s1 next s1) end.
  { unfold read_link. rewrite (temp_frame_eq p) by done. cbn. by rewrite Hm. }
  unfold write_link, assign, zero_temp, temp_reset. wp_steps.
  rewrite !(temp_frame_eq p) by done. cbn. wp_steps. split; [|done].
  rewrite insert_insert_eq.
  revert HQ. destruct s as [b f m c t rg bm e rcs nf]. cbn in *. subst. exact id.
Qed.

(** Moving the bump pointer of region [idx] from [a]. *)
Definition bumped (idx : nat) (a : Z) (bs : list Z) : list Z :=
  <[idx := a + PAGE_SIZE]> bs.

Lemma wp_alloc_from (Q : Z -> machine -> Prop) rs bs idx r a s :
  regions_ok rs -> rs !! idx = Some r -> rbegin r <= a < rend r -> page_aligned a ->
  regions s = EI SAFE (Some rs) -> rc_enabled s = true -> temp s = 0 ->
  bump s = EI SAFE (Some (MutexInner bs true)) -> m_if s = false ->
  Q a (set_bump (EI SAFE (Some (MutexInner (bumped idx a bs) true)))
         (set_mem (<[a := zero_frame]> (mem s)) (bump_rc a 1 s))) ->
  wp (alloc_from idx a) Q s.
Proof.
  intros Hok Hr Ha Hal Hs He Ht Hb Hif HQ. unfold alloc_from. wp_step.
  destruct (proj1 Hok idx r Hr) as (_ & _ & Hpos & Hmax).
  eapply wp_run.
  { unfold add64, lift, u64_add. rewrite arith_exact; [done|].
    unfold in_u64, u64_limit, PAGE_SIZE, MAX_PHYS_PAGE in *.
    change (Z.shiftl 1 48) with (2 ^ 48) in *. lia. }
  unfold deref, assign. wp_steps. cbn. rewrite Hb. cbn.
  eapply wp_Phys_new; [done..|]. wp_step. apply wp_begin. wp_step.
  apply wp_temp_map; [done|]. unfold zero_temp, temp_reset. wp_steps.
  rewrite (temp_frame_eq a) by done. cbn. rewrite Hif. cbn. wp_steps.
  revert HQ. destruct s as [b f m c t rg bm e rcs nf]. cbn in *. subst. exact id.
Qed.

(** The loop picks the first region that is not exhausted. *)
Definition first_fit (rs : list PhysRegion) (bs : list Z) (idx : nat) : Prop :=
  exists r b, rs !! idx = Some r /\ bs !! idx = Some b /\ b < rend r /\
  forall j r' b', (j < idx)%nat -> rs !! j = Some r' -> bs !! j = Some b' -> rend r' <= b'.

Lemma alloc_new_run rs0 bs0 (Q : result Z unit -> machine -> Prop) s :
  (forall idx r b, first_fit rs0 bs0 idx -> rs0 !! idx = Some r -> bs0 !! idx = Some b ->
     wp (alloc_from idx b) (fun p => Q (Ok p)) s) ->
  ((forall j r b, rs0 !! j = Some r -> bs0 !! j = Some b -> rend r <= b) -> Q (Err tt) s) ->
  length rs0 = length bs0 ->
  wp (alloc_new 0 rs0 bs0) Q s.
Proof.
  intros Hfit Hnone Hlen.
  assert (forall rs bs pre preb, rs0 = pre ++ rs -> bs0 = preb ++ bs ->
    length pre = length preb ->
    (forall j r b, (j < length pre)%nat -> rs0 !! j = Some r -> bs0 !! j = Some b -> rend r <= b) ->
    wp (alloc_new (length pre) rs bs) Q s) as Hgen.
  { intros rs. induction rs as [|r rs IH]; intros bs pre preb Hrs Hbs Hl Hpre.
    - apply wp_ret, Hnone. intros j r b Hj. apply Hpre; [|done].
      apply lookup_lt_Some in Hj. rewrite Hrs, app_nil_r in Hj. done.
    - destruct bs as [|b bs].
      { rewrite Hrs, Hbs, !length_app in Hlen. cbn in Hlen. lia. }
      assert (rs0 !! length pre = Some r) as Hr by (rewrite Hrs; by apply list_lookup_middle).
      assert (bs0 !! length pre = Some b) as Hb by (rewrite Hbs; by apply list_lookup_middle).
      cbn [alloc_new]. destruct (Z.leb_spec (rend r) b).
      + specialize (IH bs (pre ++ [r]) (preb ++ [b])).
        rewrite !length_app, Nat.add_1_r in IH. cbn in IH.
        apply IH; [by rewrite <- app_assoc | by rewrite <- app_assoc | lia |].
        intros j r' b' Hj Hr' Hb'. destruct (decide (j = length pre)) as [->|]; [naive_solver|].
        apply (Hpre j); [lia | done..].
      + wp_step. eapply Hfit; [|done..]. exists r, b. split_and!; [done..|].
        intros j r' b' Hj. by apply Hpre. }
  apply (Hgen rs0 bs0 [] []); [done..|]. cbn. lia.
Qed.

Lemma wp_bump_locked {B} (body : M machine B) (Q : B -> machine -> Prop) s bs :
  bump s = EI SAFE (Some (Mutex_new bs)) ->
  wp body (fun b s' =>
      m_if s' = false /\ exists bs', bump s' = EI SAFE (Some (MutexInner bs' true)) /\
      Q b (set_if (m_if s) (set_bump (EI SAFE (Some (Mutex_new bs'))) s')))
    (set_bump (EI SAFE (Some (MutexInner bs true))) (set_if false s)) ->
  wp (with_lock PHYS_BUMP_ALLOC body) Q s.
Proof.
  intros Hb H. apply wp_with_lock; cbn; rewrite Hb; cbn; [done|].
  eapply wp_mono; [|exact H]. intros b s' (Hif & bs' & Hb' & HQ).
  unfold drop_guard, set_locked. wp_steps. apply wp_drop_critical.
  cbn. rewrite Hb'. cbn. destruct (m_if s); [exact HQ|].
  replace (set_bump _ s') with
    (set_if false (set_bump (EI SAFE (Some (Mutex_new bs'))) s')); [done|].
  destruct s'; cbn in *. by subst.
Qed.

Lemma wp_alloc_bump (Q : result Z unit -> machine -> Prop) rs bs s :
  regions_ok rs -> length rs = length bs ->
  (forall i r b, rs !! i = Some r -> bs !! i = Some b ->
     page_aligned b /\ rbegin r <= b <= rend r) ->
  regions s = EI SAFE (Some rs) -> rc_enabled s = true -> temp s = 0 ->
  bump s = EI SAFE (Some (Mutex_new bs)) ->
  (forall idx r a, first_fit rs bs idx -> rs !! idx = Some r -> bs !! idx = Some a ->
     Q (Ok a) (set_bump (EI SAFE (Some (Mutex_new (bumped idx a bs))))
                (set_mem (<[a := zero_frame]> (mem s)) (bump_rc a 1 s)))) ->
  ((forall j r b, rs !! j = Some r -> bs !! j = Some b -> rend r <= b) -> Q (Err tt) s) ->
  wp (with_lock PHYS_BUMP_ALLOC
        (bump_alloc ← deref PHYS_BUMP_ALLOC; alloc_new 0 rs bump_alloc)) Q s.
Proof.
  intros Hok Hlen Hbs Hs He Ht Hb HQ Hnone. eapply wp_bump_locked; [exact Hb|].
  unfold deref. wp_steps. cbn. apply alloc_new_run; [..|exact Hlen].
  - intros idx r a Hfit Hr Ha. pose proof (Hbs idx r a Hr Ha) as [Hal Hin].
    assert (a < rend r) as Hlt by (destruct Hfit as (r0 & b0 & ? & ? & ? & _); naive_solver).
    eapply wp_alloc_from; try done; [lia|].
    split; [done|]. exists (bumped idx a bs). split; [done|].
    specialize (HQ idx r a Hfit Hr Ha).
    revert HQ. destruct s as [b f m c t rg bm e rcs nf]. cbn in *. subst. exact id.
  - intros Hex. split; [done|]. exists bs. split; [done|].
    specialize (Hnone Hex).
    revert Hnone. destruct s as [b f m c t rg bm e rcs nf]. cbn in *. subst. exact id.
Qed.

(** ** Free frames *)

Lemma free_chain_insert m head fl p f :
  p ∉ fl -> free_chain m head fl -> free_chain (<[p := f]> m) head fl.
Proof.
  revert head. induction fl as [|q fl IH]; intros head; [done|].
  intros [Hne Hp]%not_elem_of_cons (-> & n & Hq & Hc). split; [done|].
  exists n. rewrite lookup_insert_ne by done. auto.
Qed.

Definition bumps_ok (rs : list PhysRegion) (bs : list Z) : Prop :=
  forall i r b, rs !! i = Some r -> bs !! i = Some b ->
    page_aligned b /\ rbegin r <= b <= rend r.

Section frames.
Context (rs : list PhysRegion) (bs : list Z).
Context (Hok : regions_ok rs) (Hbs : bumps_ok rs bs).

Lemma used_known p : used rs bs p ->
  exists i r, rs !! i = Some r /\ rbegin r <= p < rend r /\ page_aligned p.
Proof using Hbs.
  intros (i & r & b & Hr & Hb & Ha & Hp). destruct (Hbs i r b Hr Hb).
  exists i, r. split_and!; (done || lia).
Qed.

Lemma fresh_known p : fresh rs bs p ->
  exists i r, rs !! i = Some r /\ rbegin r <= p < rend r /\ page_aligned p.
Proof using Hbs.
  intros (i & r & b & Hr & Hb & Ha & Hp). destruct (Hbs i r b Hr Hb).
  exists i, r. split_and!; (done || lia).
Qed.

Lemma used_not_fresh p : used rs bs p -> ~ fresh rs bs p.
Proof using Hok Hbs.
  intros (i & r & b & Hr & Hb & _ & Hp) (j & r' & b' & Hr' & Hb' & _ & Hp').
  destruct (Hbs i r b Hr Hb). destruct (Hbs j r' b' Hr' Hb').
  assert (i = j) as <- by (apply (proj2 Hok i j r r' p Hr Hr'); lia).
  simplify_eq. lia.
Qed.

(** Effect of taking the frame under the bump pointer of region [idx]. *)
Context (idx : nat) (r0 : PhysRegion) (a : Z).
Context (Hr0 : rs !! idx = Some r0) (Ha : bs !! idx = Some a) (Hlt : a < rend r0).

Lemma bumped_lookup j b :
  bumped idx a bs !! j = Some b ->
  (j = idx /\ b = a + PAGE_SIZE) \/ (j <> idx /\ bs !! j = Some b).
Proof using Ha Hr0.
  intros [(-> & <- & _)|[Hne H]]%list_lookup_insert_cases; [by left | by right].
Qed.

Lemma bumped_self : bumped idx a bs !! idx = Some (a + PAGE_SIZE).
Proof using Ha. apply list_lookup_insert_eq. by apply lookup_lt_Some in Ha. Qed.

Lemma bumped_fresh p : fresh rs (bumped idx a bs) p <-> fresh rs bs p /\ p <> a.
Proof using Hok Hbs Hr0 Ha Hlt.
  destruct (Hbs idx r0 a Hr0 Ha) as [Haa Hra]. split.
  - intros (i & r & b & Hr & [[-> ->]|[Hne Hb]]%bumped_lookup & Hal & Hp).
    + simplify_eq. unfold PAGE_SIZE in *. split; [|lia]. exists idx, r0, a. split_and!; (done || lia).
    + split; [by exists i, r, b|]. intros ->. destruct (Hbs i r b Hr Hb).
      apply Hne. apply (proj2 Hok i idx r r0 a Hr Hr0); lia.
  - intros [(i & r & b & Hr & Hb & Hal & Hp) Hne].
    destruct (decide (i = idx)) as [->|Hi].
    + simplify_eq. exists idx, r0, (a + PAGE_SIZE). rewrite bumped_self.
      unfold page_aligned, PAGE_SIZE in *. split_and!; try (done || lia). zdiv.
    + exists i, r, b. unfold bumped. by rewrite list_lookup_insert_ne.
Qed.

Lemma bumped_used p : used rs bs p -> used rs (bumped idx a bs) p.
Proof using Ha Hr0.
  intros (i & r & b & Hr & Hb & Hal & Hp). destruct (decide (i = idx)) as [->|Hi].
  - simplify_eq. exists idx, r0, (a + PAGE_SIZE). rewrite bumped_self.
    unfold PAGE_SIZE in *. split_and!; (done || lia).
  - exists i, r, b. unfold bumped. by rewrite list_lookup_insert_ne.
Qed.

Lemma bumped_ok : bumps_ok rs (bumped idx a bs).
Proof using Hok Hbs Hr0 Ha Hlt.
  intros i r b Hr [[-> ->]|[Hne Hb]]%bumped_lookup; [|by apply (Hbs i)].
  simplify_eq. destruct (Hbs idx r0 a Hr0 Ha). destruct (proj1 Hok idx r0 Hr0) as (_ & He & _).
  unfold page_aligned, PAGE_SIZE in *. split; zdiv.
Qed.
End frames.

Lemma rc_of_insert_ne s s' p q n :
  rc s' = <[Z.shiftr p 12 := n]> (rc s) ->
  page_aligned p -> page_aligned q -> q <> p -> rc_of s' q = rc_of s q.
Proof.
  intros Hs Hp Hq Hne. unfold rc_of, rc_load. rewrite Hs, lookup_insert_ne; [done|].
  intros Heq. apply Hne. by apply page_number_inj.
Qed.

Lemma allocatable_known rs bs fl s p :
  phys_inv rs bs fl s -> allocatable rs bs fl p ->
  exists i r, rs !! i = Some r /\ rbegin r <= p < rend r /\ page_aligned p.
Proof.
  intros Hi [H|H].
  - eapply used_known, pi_fl; [exact (pi_bs _ _ _ _ Hi) | done..].
  - eapply fresh_known; [exact (pi_bs _ _ _ _ Hi) | done].
Qed.

(** ** The specification of [alloc] *)

Definition alloc_post (rs : list PhysRegion) (bs fl : list Z) (s : machine)
    (res : result Z unit) (s' : machine) : Prop :=
  match res with
  | Ok p =>
      same_env s s' /\ allocatable rs bs fl p /\
      mem s' = <[p := zero_frame]> (mem s) /\
      rc s' = <[Z.shiftr p 12 := 1]> (rc s) /\
      exists bs' fl', phys_inv rs bs' fl' s' /\
        forall q, allocatable rs bs' fl' q <-> allocatable rs bs fl q /\ q <> p
  | Err _ => s' = s /\ forall q, ~ allocatable rs bs fl q
  end.

Lemma bump_rc_free p s :
  rc_of s p = 0 -> rc (bump_rc p 1 s) = <[Z.shiftr p 12 := 1]> (rc s).
Proof. intros H. unfold bump_rc. cbn. by rewrite H. Qed.

Lemma alloc_post_pop rs bs fl p next s :
  phys_inv rs bs (p :: fl) s -> mem s !! p = Some (FLink next) ->
  free_chain (mem s) next fl ->
  alloc_post rs bs (p :: fl) s (Ok p)
    (set_next_free (Mutex_new next) (set_mem (<[p := zero_frame]> (mem s)) (bump_rc p 1 s))).
Proof.
  intros Hi Hm Hc. pose proof Hi as [Hrs Hb Hh He Ht Hok Hlen Hbs Hnd Hfl Hrc].
  apply NoDup_cons_inv in Hnd as [Hp Hnd].
  assert (allocatable rs bs (p :: fl) p) as Hal by (left; apply list_elem_of_here).
  assert (forall q, allocatable rs bs fl q <-> allocatable rs bs (p :: fl) q /\ q <> p) as Hq.
  { intros q. unfold allocatable. rewrite elem_of_cons. split.
    - intros [Hq|Hq]; (split; [auto|]); [by intros ->|].
      intros ->. eapply used_not_fresh; [done.. | | exact Hq].
      apply Hfl, list_elem_of_here.
    - naive_solver. }
  destruct (allocatable_known _ _ _ _ _ Hi Hal) as (i & r & Hr & Hin & Ha).
  cbn. rewrite (Hrc p Hal). split_and!; [done|done|done|done|].
  exists bs, fl. split; [|exact Hq]. split; cbn; try done.
  - exists next. split; [done|]. by apply free_chain_insert.
  - intros q Hin'. by apply Hfl, list_elem_of_further.
  - intros q Hq'. pose proof (proj1 (Hq q) Hq') as [Hold Hne].
    destruct (allocatable_known _ _ _ _ _ Hi Hold) as (_ & _ & _ & _ & Haq).
    rewrite <- (Hrc q Hold). eapply rc_of_insert_ne; [reflexivity | done..].
Qed.

Lemma alloc_post_bump rs bs idx r a s :
  phys_inv rs bs [] s -> next_free s = Mutex_new None ->
  first_fit rs bs idx -> rs !! idx = Some r -> bs !! idx = Some a ->
  alloc_post rs bs [] s (Ok a)
    (set_bump (EI SAFE (Some (Mutex_new (bumped idx a bs))))
       (set_mem (<[a := zero_frame]> (mem s)) (bump_rc a 1 s))).
Proof.
  intros Hi Hn Hfit Hr Ha. pose proof Hi as [Hrs Hb Hh He Ht Hok Hlen Hbs Hnd Hfl Hrc].
  assert (a < rend r) as Hlt by (destruct Hfit as (? & ? & ? & ? & ? & _); naive_solver).
  destruct (Hbs idx r a Hr Ha) as [Haa Hra].
  assert (allocatable rs bs [] a) as Hal.
  { right. exists idx, r, a. split_and!; (done || lia). }
  assert (forall q, allocatable rs (bumped idx a bs) [] q <-> allocatable rs bs [] q /\ q <> a) as Hq.
  { intros q. unfold allocatable. rewrite (bumped_fresh rs bs Hok Hbs idx r a) by done.
    rewrite elem_of_nil. naive_solver. }
  cbn. rewrite (Hrc a Hal). split_and!; [done|done|done|done|].
  exists (bumped idx a bs), []. split; [|exact Hq]. split; cbn; try done.
  - unfold bumped. by rewrite length_insert.
  - eapply bumped_ok; done.
  - intros q Hq'. rewrite elem_of_nil in Hq'. done.
  - intros q Hq'. pose proof (proj1 (Hq q) Hq') as [Hold Hne].
    destruct (allocatable_known _ _ _ _ _ Hi Hold) as (_ & _ & _ & _ & Haq).
    rewrite <- (Hrc q Hold). eapply rc_of_insert_ne; [reflexivity | done..].
Qed.

Lemma alloc_ok rs bs fl s :
  phys_inv rs bs fl s -> wp alloc (alloc_post rs bs fl s) s.
Proof.
  intros Hi. pose proof Hi as [Hrs Hb (head & Hn & Hc) He Ht Hok Hlen Hbs Hnd Hfl Hrc].
  unfold alloc. wp_step. destruct fl as [|p fl].
  - cbn in Hc. subst head. apply wp_alloc_freelist_empty; [done|].
    wp_step. eapply wp_run; [by rewrite Hrs|].
    wp_step. eapply wp_run; [by rewrite Hb|].
    eapply wp_alloc_bump; try done.
    + intros idx r a Hfit Hr Ha. by eapply alloc_post_bump.
    + intros Hex. split; [done|]. intros q [Hq|(i & r & b & Hr & Hb' & _ & Hq)]; [by rewrite elem_of_nil in Hq|].
      specialize (Hex i r b Hr Hb'). lia.
  - destruct Hc as (-> & next & Hm & Hc).
    destruct (allocatable_known _ _ _ _ p Hi) as (i & r & Hr & Hin & Ha).
    { left. apply list_elem_of_here. }
    eapply wp_alloc_freelist_pop; try done. wp_step. by eapply alloc_post_pop.
Qed.

(** C12: allocating a frame: from any state that satisfies the allocator
    invariant, [phys::alloc] returns without panicking.  On success the frame
    was free, is zeroed, has reference count one, is no longer free, and every
    other frame of memory and count is untouched; it fails exactly when no frame
    is free, and then changes nothing.  The invariant is preserved. *)
Theorem alloc_spec rs bs fl s :
  phys_inv rs bs fl s -> wp alloc (alloc_post rs bs fl s) s.
Proof. apply alloc_ok. Qed.

(** ** Live handles

    The [Phys] values that exist, as a list of frames.  [into_raw] and [from_raw]
    move a handle into and out of raw form and leave the list unchanged. *)

Inductive phys_step : machine * list Z -> machine * list Z -> Prop :=
| step_alloc s s' p live :
    Z.of_nat (length live) < u64_limit - 1 ->
    alloc s = Ret (Ok p, s') -> phys_step (s, live) (s', p :: live)
| step_alloc_fail s s' live :
    alloc s = Ret (Err tt, s') -> phys_step (s, live) (s', live)
| step_clone s s' p live :
    p ∈ live -> Z.of_nat (length live) < u64_limit - 1 ->
    clone p s = Ret (p, s') -> phys_step (s, live) (s', p :: live)
| step_drop s s' p live live' :
    live ≡ₚ p :: live' -> drop_phys p s = Ret (tt, s') ->
    phys_step (s, live) (s', live').

Definition handles (live : list Z) (p : Z) : Z := Z.of_nat (count_occ Z.eq_dec live p).

Definition known (rs : list PhysRegion) (p : Z) : Prop :=
  exists i r, rs !! i = Some r /\ rbegin r <= p < rend r /\ page_aligned p.

(** Every count is the number of live handles, and every frame of the regions is
    either live or free, never both. *)
Record live_inv (rs : list PhysRegion) (c : machine * list Z) : Prop := {
  li_phys : exists bs fl, phys_inv rs bs fl c.1 /\
    forall p, known rs p ->
      (p ∈ c.2 \/ allocatable rs bs fl p) /\ ~ (p ∈ c.2 /\ allocatable rs bs fl p);
  li_known : forall p, p ∈ c.2 -> known rs p;
  li_rc : forall p, known rs p -> rc_of c.1 p = handles c.2 p;
  li_bound : Z.of_nat (length c.2) < u64_limit
}.

Lemma handles_cons live p q :
  handles (p :: live) q = handles live q + (if decide (q = p) then 1 else 0).
Proof.
  unfold handles. destruct (decide (q = p)) as [->|H].
  - rewrite count_occ_cons_eq by done. lia.
  - rewrite count_occ_cons_neq by congruence. lia.
Qed.

Lemma handles_zero live p : p ∉ live <-> handles live p = 0.
Proof.
  unfold handles. rewrite list_elem_of_In, (count_occ_not_In Z.eq_dec). lia.
Qed.

Lemma handles_pos live p : p ∈ live <-> 0 < handles live p.
Proof.
  destruct (decide (p ∈ live)) as [H|H].
  - split; [|done]. intros _. assert (handles live p <> 0); [|unfold handles in *; lia].
    intros H0%handles_zero. done.
  - split; [done|]. apply handles_zero in H. lia.
Qed.

Lemma handles_bound live p : handles live p <= Z.of_nat (length live).
Proof. unfold handles. pose proof (count_occ_bound Z.eq_dec p live). lia. Qed.

Lemma handles_perm live live' p : live ≡ₚ live' -> handles live p = handles live' p.
Proof. intros H. unfold handles. by rewrite (proj1 (Permutation_count_occ Z.eq_dec _ _) H p). Qed.

Lemma rc_of_insert s s' p q n :
  rc s' = <[Z.shiftr p 12 := n]> (rc s) -> page_aligned p -> page_aligned q ->
  rc_of s' q = if decide (q = p) then n else rc_of s q.
Proof.
  intros Hs Hp Hq. destruct (decide (q = p)) as [->|Hne].
  - unfold rc_of, rc_load. by rewrite Hs, lookup_insert_eq.
  - by eapply rc_of_insert_ne.
Qed.

Lemma handles_in_u64 live p d :
  Z.of_nat (length live) < u64_limit -> 0 <= handles live p + d < u64_limit ->
  wrap64 (handles live p + d) = handles live p + d.
Proof. intros _ H. by apply wrap64_small. Qed.

(** [phys_inv] only depends on counts of free frames. *)
Lemma phys_inv_bump_rc rs bs fl s p d :
  phys_inv rs bs fl s -> page_aligned p -> ~ allocatable rs bs fl p ->
  phys_inv rs bs fl (bump_rc p d s).
Proof.
  intros Hi Hp Hna. pose proof Hi as [Hrs Hb Hh He Ht Hok Hlen Hbs Hnd Hfl Hrc].
  split; try done. intros q Hq.
  destruct (allocatable_known _ _ _ _ _ Hi Hq) as (_ & _ & _ & _ & Haq).
  rewrite <- (Hrc q Hq). eapply rc_of_insert_ne; [reflexivity | done..|].
  by intros ->.
Qed.

Lemma used_not_allocatable rs bs fl s p :
  phys_inv rs bs fl s -> used rs bs p -> p ∉ fl -> ~ allocatable rs bs fl p.
Proof.
  intros Hi Hu Hp [H|H]; [done|]. destruct Hi.
  by eapply used_not_fresh in H.
Qed.

Definition drop_post (rs : list PhysRegion) (bs fl : list Z) (p : Z) (s s' : machine) : Prop :=
  same_env s s' /\
  rc s' = <[Z.shiftr p 12 := wrap64 (rc_of s p - 1)]> (rc s) /\
  if decide (rc_of s p = 1) then
    phys_inv rs bs (p :: fl) s' /\ exists n, mem s' = <[p := FLink n]> (mem s)
  else phys_inv rs bs fl s' /\ mem s' = mem s.

Lemma drop_spec rs bs fl s p :
  phys_inv rs bs fl s -> used rs bs p -> p ∉ fl -> 0 < rc_of s p < u64_limit ->
  wp (drop_phys p) (fun _ s' => drop_post rs bs fl p s s') s.
Proof.
  intros Hi Hu Hp Hn. pose proof Hi as [Hrs Hb (head & Hf & Hc) He Ht Hok Hlen Hbs Hnd Hfl Hrc].
  destruct (used_known rs bs Hbs p Hu) as (i & r & Hr & Hin & Ha).
  pose proof (used_not_allocatable _ _ _ _ _ Hi Hu Hp) as Hna.
  unfold drop_post. destruct (decide (rc_of s p = 1)) as [H1|H1].
  - eapply wp_drop_phys_last; try done. split_and!; [done..| |by exists head].
    split; cbn; try done.
    + exists (Some p). split; [done|]. split; [done|]. exists head.
      rewrite lookup_insert_eq. split; [done|]. by apply free_chain_insert.
    + by apply NoDup_cons.
    + intros q [->|Hq]%elem_of_cons; auto.
    + intros q Hq. destruct (decide (q = p)) as [->|Hne].
      * unfold rc_of at 1, rc_load. cbn. rewrite lookup_insert_eq. cbn. by rewrite H1.
      * assert (allocatable rs bs fl q) as Hq'.
        { destruct Hq as [[->|?]%elem_of_cons|?]; [done|by left|by right]. }
        destruct (allocatable_known _ _ _ _ _ Hi Hq') as (_ & _ & _ & _ & Haq).
        rewrite <- (Hrc q Hq'). by eapply rc_of_insert_ne.
  - eapply wp_drop_phys_shared; try done; [lia|]. split_and!; [done..| |done].
    by apply phys_inv_bump_rc.
Qed.

Lemma known_used rs bs fl s p :
  phys_inv rs bs fl s -> known rs p -> ~ allocatable rs bs fl p ->
  used rs bs p /\ p ∉ fl.
Proof.
  intros Hi (i & r & Hr & Hin & Ha) Hna. split; [|by intros Hp; apply Hna; left].
  pose proof (pi_len _ _ _ _ Hi) as Hlen.
  destruct (lookup_lt_is_Some_2 bs i) as [b Hb].
  { rewrite <- Hlen. by eapply lookup_lt_Some. }
  exists i, r, b. split_and!; [done..| lia |].
  destruct (decide (p < b)); [done|]. exfalso. apply Hna. right.
  exists i, r, b. split_and!; (done || lia).
Qed.

Section live.
Context (rs : list PhysRegion).

Lemma live_alloc s s' p live :
  live_inv rs (s, live) -> alloc s = Ret (Ok p, s') ->
  known rs p /\ p ∉ live /\ (Z.of_nat (S (length live)) < u64_limit ->
  live_inv rs (s', p :: live)).
Proof.
  intros [(bs & fl & Hi & Hx) Hk Hrc Hbnd] Hrun. cbn in *.
  pose proof (alloc_ok _ _ _ _ Hi) as Hsp. unfold wp in Hsp. rewrite Hrun in Hsp.
  destruct Hsp as (_ & Hal & _ & Hrc' & bs' & fl' & Hi' & Hq).
  assert (known rs p) as Hkp by (exact (allocatable_known _ _ _ _ _ Hi Hal)).
  assert (p ∉ live) as Hnl by (intros Hl; by apply (Hx p Hkp)).
  split_and!; [done..|]. intros Hlen. split; cbn; [|..].
  - exists bs', fl'. split; [done|]. intros q Hkq. rewrite Hq.
    destruct (Hx q Hkq) as [Hor Hno]. rewrite elem_of_cons.
    destruct (decide (q = p)); naive_solver.
  - intros q [->|Hql]%elem_of_cons; auto.
  - intros q Hkq. rewrite handles_cons, <- Hrc by done.
    pose proof Hkp as (_ & _ & _ & _ & Hap). pose proof Hkq as (_ & _ & _ & _ & Haq).
    rewrite (rc_of_insert s s' p q 1) by done.
    destruct (decide (q = p)) as [->|]; [|lia].
    destruct Hi. rewrite (pi_rc0 p Hal). lia.
  - lia.
Qed.

Lemma live_fail s s' live :
  live_inv rs (s, live) -> alloc s = Ret (Err tt, s') ->
  s' = s /\ forall p, known rs p -> p ∈ live.
Proof.
  intros [(bs & fl & Hi & Hx) Hk Hrc Hbnd] Hrun. cbn in *.
  pose proof (alloc_ok _ _ _ _ Hi) as Hsp. unfold wp in Hsp. rewrite Hrun in Hsp.
  destruct Hsp as [-> Hnone]. split; [done|].
  intros p Hp. destruct (Hx p Hp) as [[?|?] _]; [done|]. by apply Hnone in H.
Qed.

Lemma live_clone s p live :
  live_inv rs (s, live) -> p ∈ live ->
  clone p s = Ret (p, bump_rc p 1 s) /\
  (Z.of_nat (S (length live)) < u64_limit -> live_inv rs (bump_rc p 1 s, p :: live)).
Proof.
  intros [(bs & fl & Hi & Hx) Hk Hrc Hbnd] Hin. cbn in *.
  pose proof (Hk p Hin) as Hkp. pose proof Hkp as (i & r & Hr & Hpr & Ha).
  split.
  { destruct Hi. assert (wp (clone p) (fun a t => a = p /\ t = bump_rc p 1 s) s) as Hw.
    { eapply wp_Phys_new; done. }
    apply wp_iff in Hw as (a & t & -> & -> & ->). done. }
  intros Hlen. split; cbn; [|..].
  - exists bs, fl. split; [apply phys_inv_bump_rc; [done..|]; by intros ?; apply (Hx p Hkp)|].
    intros q Hkq. destruct (Hx q Hkq) as [Hor Hno]. rewrite elem_of_cons.
    destruct (decide (q = p)); naive_solver.
  - intros q [->|Hql]%elem_of_cons; auto.
  - intros q Hkq. rewrite handles_cons, <- Hrc by done.
    pose proof Hkq as (_ & _ & _ & _ & Haq).
    rewrite (rc_of_insert s (bump_rc p 1 s) p q (wrap64 (rc_of s p + 1))) by done.
    destruct (decide (q = p)) as [->|]; [|lia].
    pose proof (handles_bound live p). pose proof (proj1 (handles_pos live p) Hin).
    rewrite Hrc by done. rewrite wrap64_small; unfold in_u64; lia.
  - lia.
Qed.

Lemma live_drop s p live live' :
  live_inv rs (s, live) -> live ≡ₚ p :: live' ->
  wp (drop_phys p) (fun _ s' => live_inv rs (s', live')) s.
Proof.
  intros [(bs & fl & Hi & Hx) Hk Hrc Hbnd] Hp. cbn in *.
  assert (p ∈ live) as Hin by (rewrite Hp; apply list_elem_of_here).
  pose proof (Hk p Hin) as Hkp. pose proof Hkp as (i & r & Hr & Hpr & Ha).
  assert (~ allocatable rs bs fl p) as Hna by (intros ?; by apply (Hx p Hkp)).
  destruct (known_used _ _ _ _ _ Hi Hkp Hna) as [Hu Hnf].
  pose proof (handles_bound live p). pose proof (proj1 (handles_pos live p) Hin).
  eapply wp_mono; [|eapply drop_spec; [done..|rewrite Hrc by done; lia]].
  intros u s' (_ & Hrc' & Hcase).
  assert (length live = S (length live')) as Hl by (by rewrite Hp).
  assert (forall q, handles live q = handles live' q + (if decide (q = p) then 1 else 0)) as Hh.
  { intros q. by rewrite (handles_perm _ _ q Hp), handles_cons. }
  assert (forall q, q ∈ live <-> q = p \/ q ∈ live') as Hmem.
  { intros q. by rewrite Hp, elem_of_cons. }
  split; cbn; [| |intros q Hkq|lia].
  - destruct (decide (rc_of s p = 1)) as [H1|H1]; destruct Hcase as [Hi' _].
    + exists bs, (p :: fl). split; [done|]. intros q Hkq. destruct (Hx q Hkq) as [Hor Hno].
      rewrite Hrc, Hh, decide_True in H1 by done.
      assert (p ∉ live') as Hnp by (apply handles_zero; lia).
      unfold allocatable in *. rewrite elem_of_cons. rewrite Hmem in *.
      destruct (decide (q = p)) as [->|]; naive_solver.
    + exists bs, fl. split; [done|]. intros q Hkq. destruct (Hx q Hkq) as [Hor Hno].
      rewrite Hrc, Hh, decide_True in H1 by done.
      assert (p ∈ live') as Hnp by (apply handles_pos; rewrite Hh, decide_True in H0 by done; lia).
      rewrite Hmem in *. destruct (decide (q = p)) as [->|]; naive_solver.
  - intros q Hq. apply Hk, Hmem. auto.
  - pose proof Hkq as (_ & _ & _ & _ & Haq).
    rewrite (rc_of_insert s s' p q (wrap64 (rc_of s p - 1))) by done.
    specialize (Hh q). destruct (decide (q = p)) as [->|].
    + rewrite Hrc by done. rewrite wrap64_small; unfold in_u64; lia.
    + rewrite Hrc by done. lia.
Qed.
End live.

Lemma live_inv_step rs c c' : phys_step c c' -> live_inv rs c -> live_inv rs c'.
Proof.
  destruct 1 as [s s' p live Hlen Hrun|s s' live Hrun|s s' p live Hin Hlen Hrun|s s' p live live' Hp Hrun];
    intros Hi.
  - apply (live_alloc _ _ _ _ _ Hi Hrun). lia.
  - by destruct (live_fail _ _ _ _ Hi Hrun) as [-> _].
  - destruct (live_clone _ _ _ _ Hi Hin) as [Hr H]. rewrite Hr in Hrun.
    injection Hrun as <-. apply H. lia.
  - pose proof (live_drop _ _ _ _ _ Hi Hp) as H. unfold wp in H. by rewrite Hrun in H.
Qed.

(** The allocator when counting is switched on, before any frame is handed out. *)
Record boot (rs : list PhysRegion) (s : machine) : Prop := {
  boot_regions : regions s = EI SAFE (Some rs);
  boot_bump : bump s = EI SAFE (Some (Mutex_new (rbegin <$> rs)));
  boot_free : next_free s = Mutex_new None;
  boot_enabled : rc_enabled s = true;
  boot_temp : temp s = 0;
  boot_rc : rc s = ∅;
  boot_ok : regions_ok rs
}.

Lemma boot_phys_inv rs s : boot rs s -> phys_inv rs (rbegin <$> rs) [] s.
Proof.
  intros [Hrs Hb Hf He Ht Hrc Hok]. split; try done.
  - by exists None.
  - by rewrite length_fmap.
  - intros i r b Hr Hl. rewrite list_lookup_fmap, Hr in Hl. cbn in Hl. simplify_eq.
    destruct (proj1 Hok i r Hr) as (? & _ & ? & _). split; (done || lia).
  - constructor.
  - intros p Hp. by rewrite elem_of_nil in Hp.
  - intros p _. unfold rc_of, rc_load. by rewrite Hrc.
Qed.

Lemma boot_live rs s : boot rs s -> live_inv rs (s, []).
Proof.
  intros Hboot. pose proof Hboot as [Hrs Hb Hf He Ht Hrc Hok]. split; cbn.
  - exists (rbegin <$> rs), []. split; [by apply boot_phys_inv|].
    intros p (i & r & Hr & Hp & Ha). rewrite elem_of_nil. split; [|naive_solver].
    right. right. exists i, r, (rbegin r). by rewrite list_lookup_fmap, Hr.
  - intros p Hp. by rewrite elem_of_nil in Hp.
  - intros p _. unfold rc_of, rc_load. by rewrite Hrc.
  - done.
Qed.

(** C1: reference counting is exact and frames are never handed out twice: after
    any sequence of allocations, clones and drops of handles, the count of every
    frame is its number of live handles; the next [alloc] does not panic, and
    returns a zeroed frame of a known region that no live handle refers to, or
    fails with every frame of every region live (no frame leaks); and dropping
    any live handle does not panic. *)
Theorem handles_safe rs s0 s live :
  boot rs s0 -> rtc phys_step (s0, []) (s, live) ->
  (forall p, known rs p -> rc_of s p = handles live p) /\
  (exists res s', alloc s = Ret (res, s') /\
     match res with
     | Ok p => known rs p /\ p ∉ live /\ mem s' !! p = Some zero_frame
     | Err _ => forall p, known rs p -> p ∈ live
     end) /\
  (forall p live', live ≡ₚ p :: live' -> exists s', drop_phys p s = Ret (tt, s')).
Proof.
  intros Hboot%boot_live Hr.
  assert (live_inv rs (s, live)) as Hi.
  { eapply rtc_invariant; [apply live_inv_step | exact Hboot | exact Hr]. }
  split_and!; [apply (li_rc _ _ Hi)| |].
  - destruct (li_phys _ _ Hi) as (bs & fl & Hp & _).
    pose proof (alloc_ok _ _ _ _ Hp) as (res & s' & Hrun & Hpost)%wp_iff.
    exists res, s'. split; [done|]. destruct res as [p|[]].
    + destruct (live_alloc _ _ _ _ _ Hi Hrun) as (Hk & Hn & _).
      destruct Hpost as (_ & _ & Hm & _). split_and!; [done..|].
      by rewrite Hm, lookup_insert_eq.
    + by apply (live_fail _ _ _ _ Hi Hrun).
  - intros p live' Hp. pose proof (live_drop _ _ _ _ _ Hi Hp) as ([] & s' & Hrun & _)%wp_iff.
    by exists s'.
Qed.

(** ** A concrete machine *)

Definition example_regions : list PhysRegion := [Region 0x100000 0x103000].

Definition example_machine : machine :=
  Machine Debug true ∅ 0x1000 0 (EI SAFE (Some example_regions))
    (EI SAFE (Some (Mutex_new [0x100000]))) true ∅ (Mutex_new None).

Lemma example_regions_ok : regions_ok example_regions.
Proof.
  split.
  - intros [|i] r; [|done]. intros [= <-]. unfold page_aligned, PAGE_SIZE. done.
  - intros [|i] [|j] r r' p; done.
Qed.

Lemma example_boot : boot example_regions example_machine.
Proof. split; try done. apply example_regions_ok. Qed.

Lemma alloc_spec_witness :
  wp alloc (alloc_post example_regions [0x100000] [] example_machine) example_machine.
Proof. apply (alloc_spec example_regions [0x100000] []), (boot_phys_inv _ _ example_boot). Defined.

Lemma handles_safe_witness :
  rc_of example_machine 0x101000 = handles [] 0x101000.
Proof.
  apply (handles_safe example_regions example_machine example_machine []).
  - apply example_boot.
  - apply rtc_refl.
  - exists 0%nat, (Region 0x100000 0x103000). split_and!; done.
Defined.
