(* ===== verification/Page.v ===== *)
(** * Page: page tables through the recursive mapping ([kernel/src/mem/page.rs])

    Every table access of the code goes through a virtual address computed by
    [pml4_entry] .. [pml1_entry]; the processor translates that address by
    walking the very tables it reaches.  [load] and [store] model such an access:
    four table reads from [cr3], a page fault (a kernel panic, [mem/fault.rs]) on
    an entry that is not present, then the word itself.  Large pages, the
    accessed and dirty bits the processor sets, and translation caching are not
    modelled; the kernel runs with write protection off, so the WRITE and USER
    bits do not restrict it. *)

From S2P Require Import Prelude Sync Machine Phys.

(** ** PmlEntry *)

Definition raw_phys (e : Z) : option Z :=
  let raw := Z.land e (Z.lnot 0xfff) in
  if negb (raw =? 0) then Some raw else None.

Definition flags `{Bitflags} (e : Z) : outcome Z :=
  match from_bits PageFlags_all (Z.land e 0xfff) with
  | Some f => Ret f
  | None => Panic "PageFlags::from_bits in PmlEntry::flags"
  end.

Definition set_flags (e fl : Z) : Z := Z.lor (Z.land e (Z.lnot 0xfff)) fl.

(** ** Addresses of entries *)

Definition CURRENT_PML : Z := 0xffffff8000000000.

(** [base.add(i)] on a pointer to 64-bit entries. *)
Definition ptr_add (base i : Z) : Z := base + 8 * i.

Definition pml4_entry (base virt : Z) : Z :=
  let base := base + 0x7ffffff000 in
  ptr_add base (Z.land (Z.shiftr virt 39) 0x1ff).
Definition pml3_entry (base virt : Z) : Z :=
  let base := base + 0x7fffe00000 in
  ptr_add base (Z.land (Z.shiftr virt 30) 0x3ffff).
Definition pml2_entry (base virt : Z) : Z :=
  let base := base + 0x7fc0000000 in
  ptr_add base (Z.land (Z.shiftr virt 21) 0x7ffffff).
Definition pml1_entry (base virt : Z) : Z :=
  ptr_add base (Z.land (Z.shiftr virt 12) 0xfffffffff).

(** ** Address translation *)

Definition PAGE_FAULT : string := "Page fault!".

(** The table index of [va] at depth [n] (0 for the PML4). *)
Definition table_index (n : nat) (va : Z) : Z :=
  Z.land (Z.shiftr va (39 - 9 * Z.of_nat n)) 0x1ff.

Fixpoint walk (mm : gmap Z frame) (table : Z) (indices : list Z) : outcome Z :=
  match indices with
  | [] => Ret table
  | i :: indices =>
      match mm !! table with
      | Some (FWords w) =>
          let e := default 0 (w !! i) in
          if Z.testbit e 0 then walk mm (page_base e) indices else Panic PAGE_FAULT
      | _ => UB "walk through a frame that is not a table"
      end
  end.

Definition translate (s : machine) (va : Z) : outcome Z :=
  walk (mem s) (page_base (cr3 s)) (map (fun n => table_index n va) [0; 1; 2; 3]%nat).

Definition word_index (va : Z) : Z := Z.shiftr (Z.land va 0xfff) 3.

(** [*(va as *const PmlEntry)] *)
Definition load (va : Z) : M machine Z :=
  fr ← (fun s => lift (translate s va) s);
  f ← gets (fun s => mem s !! fr);
  match f with
  | Some (FWords w) => mret (default 0 (w !! word_index va))
  | _ => ub "load from a frame that does not hold words"
  end.

Definition store_word (fr i e : Z) : M machine unit :=
  f ← gets (fun s => mem s !! fr);
  match f with
  | Some (FWords w) => modify (fun s => set_mem (<[fr := FWords (<[i := e]> w)]> (mem s)) s)
  | _ => ub "store to a frame that does not hold words"
  end.

Definition store (va e : Z) : M machine unit :=
  fr ← (fun s => lift (translate s va) s);
  store_word fr (word_index va) e.

(** ** Mapping *)

Inductive MapError := AlreadyMapped | CannotAllocatePageTable.

Definition is_mapped (virt : Z) : M machine bool :=
  section (
    let pml4_ent := pml4_entry CURRENT_PML virt in
    let pml3_ent := pml3_entry CURRENT_PML virt in
    let pml2_ent := pml2_entry CURRENT_PML virt in
    let pml1_ent := pml1_entry CURRENT_PML virt in
    e4 ← load pml4_ent;
    if e4 =? 0 then mret false else
    e3 ← load pml3_ent;
    if e3 =? 0 then mret false else
    e2 ← load pml2_ent;
    if e2 =? 0 then mret false else
    e1 ← load pml1_ent;
    mret (negb (e1 =? 0))).

Definition TABLE_FLAGS : Z := Z.lor (Z.lor PRESENT WRITE) USER.

(** One of the three blocks "need to allocate new page table for entry". *)
Definition ensure_table (ent : Z) : M machine (result unit MapError) :=
  e ← load ent;
  if e =? 0 then
    tab ← alloc;
    match tab with
    | Err _ => mret (Err CannotAllocatePageTable)
    | Ok tab => _ ← store ent (Z.lor (into_raw tab) TABLE_FLAGS); mret (Ok tt)
    end
  else mret (Ok tt).

(** [phys] is owned by the call: it is dropped when an error is returned. *)
Definition map (phys virt fl : Z) : M machine (result unit MapError) :=
  section (
    let pml4_ent := pml4_entry CURRENT_PML virt in
    let pml3_ent := pml3_entry CURRENT_PML virt in
    let pml2_ent := pml2_entry CURRENT_PML virt in
    let pml1_ent := pml1_entry CURRENT_PML virt in
    r ← (_ ←? ensure_table pml4_ent;
         _ ←? ensure_table pml3_ent;
         _ ←? ensure_table pml2_ent;
         e ← load pml1_ent;
         if negb (e =? 0) then mret (Err AlreadyMapped)
         else
           _ ← store pml1_ent (Z.lor (into_raw phys) fl);
           mret (Ok tt));
    match r with
    | Ok _ => mret r
    | Err _ => _ ← drop_phys phys; mret r
    end).

Inductive NotMapped := NotMapped_.

Definition checked_pml1_entry (pml_base virt : Z) : M machine (result Z NotMapped) :=
  section (
    let pml4_ent := pml4_entry pml_base virt in
    let pml3_ent := pml3_entry pml_base virt in
    let pml2_ent := pml2_entry pml_base virt in
    let pml1_ent := pml1_entry pml_base virt in
    e4 ← load pml4_ent;
    if e4 =? 0 then mret (Err NotMapped_) else
    e3 ← load pml3_ent;
    if e3 =? 0 then mret (Err NotMapped_) else
    e2 ← load pml2_ent;
    if e2 =? 0 then mret (Err NotMapped_) else
    e1 ← load pml1_ent;
    if e1 =? 0 then mret (Err NotMapped_) else
    mret (Ok pml1_ent)).

(** The word behind the reference [entry] returns. *)
Definition entry (virt : Z) : M machine (result Z NotMapped) :=
  ent ←? checked_pml1_entry CURRENT_PML virt;
  e ← load ent;
  mret (Ok e).

Definition unmap (virt : Z) : M machine (result unit NotMapped) :=
  crit ← begin;
  r ← (pml1_ent ←? checked_pml1_entry CURRENT_PML virt;
       e ← load pml1_ent;
       match raw_phys e with
       | Some raw =>
           _ ← drop_phys (from_raw raw);
           _ ← store pml1_ent 0;
           mret (Ok tt)
       | None => mret (Err NotMapped_)
       end);
  _ ← drop_critical crit;
  mret r.

(** [page::modify] *)
Definition modify_page (virt fl : Z) : M machine (result unit NotMapped) :=
  crit ← begin;
  r ← (pml1_ent ←? checked_pml1_entry CURRENT_PML virt;
       e ← load pml1_ent;
       _ ← store pml1_ent (set_flags e fl);
       mret (Ok tt));
  _ ← drop_critical crit;
  mret r.

Definition virt_to_phys (virt : Z) : M machine (result Z NotMapped) :=
  crit ← begin;
  r ← (pml1_ent ←? checked_pml1_entry CURRENT_PML virt;
       e ← load pml1_ent;
       match raw_phys e with
       | Some raw => phys ← Phys_new raw; mret (Ok phys)
       | None => mret (Err NotMapped_)
       end);
  _ ← drop_critical crit;
  mret r.

(** ** Page contexts *)

(** [PageCtx { pml4: Phys }] *)
Definition PageCtx : Type := Z.

(** First kernel entry of the current PML4 in the recursive window. *)
Definition KERNEL_PML4 : Z := 0xfffffffffffff800.

Definition temp_store (i e : Z) : M machine unit :=
  fr ← gets temp_frame; store_word fr i e.

Definition PageCtx_new : M machine (result PageCtx unit) :=
  pml4_raw ←? alloc;
  let pml4_raw := into_raw pml4_raw in
  crit ← begin;
  _ ← temp_map pml4_raw;
  _ ← for_each (fun i =>
        e ← load (ptr_add KERNEL_PML4 (Z.of_nat i));
        temp_store (256 + Z.of_nat i) e) (seq 0 255);
  _ ← temp_store 511 (Z.lor pml4_raw PRESENT);
  _ ← temp_reset;
  _ ← drop_critical crit;
  mret (Ok (from_raw pml4_raw)).

Definition init_kernel_pml4_entries : M machine unit :=
  for_each (fun i =>
    let ent := ptr_add KERNEL_PML4 (Z.of_nat i) in
    e ← load ent;
    if e =? 0 then
      tab ← alloc;
      match tab with
      | Ok tab => store ent (Z.lor (into_raw tab) TABLE_FLAGS)
      | Err _ => panic "phys::alloc"
      end
    else mret tt) (seq 0 255).

Definition current_ctx : M machine PageCtx :=
  c ← gets cr3; Phys_new c.

Definition set_ctx (ctx : PageCtx) : M machine unit :=
  old_cr3 ← gets cr3;
  _ ← modify (set_cr3 (into_raw ctx));
  drop_phys (from_raw old_cr3).

(** [each_phys]: the loop of one level, over the table at virtual address [base]
    with the entries that belong to the parent index [up]. *)
Definition each_level (n : nat) (base up : Z) (f : Z -> M machine unit)
    (inner : Z -> M machine unit) : M machine unit :=
  for_each (fun i =>
    let idx := Z.lor (Z.shiftl up 9) (Z.of_nat i) in
    e ← load (ptr_add base idx);
    match raw_phys e with
    | Some phys => _ ← f phys; inner idx
    | None => mret tt
    end) (seq 0 n).

Definition each_phys (f : Z -> M machine unit) : M machine unit :=
  root ← gets (fun s => page_base (cr3 s));
  _ ← f root;
  each_level 511 0xfffffffffffff000 0 f (fun pml4_idx =>
    each_level 512 0xffffffffffe00000 pml4_idx f (fun pml3_idx =>
      each_level 512 0xffffffffc0000000 pml3_idx f (fun pml2_idx =>
        each_level 512 0xffffff8000000000 pml2_idx f (fun _ => mret tt)))).

(** [phys::init_ref_counts] *)
Definition init_ref_counts : M machine unit :=
  _ ← each_phys inc_ref_for_init;
  c ← gets cr3;
  _ ← inc_ref_for_init c;
  modify (set_rc_enabled true).
