(* ===== verification/PageSpec.v ===== *)
(** * PageSpec: the page tables as a map from virtual pages

    The tables reachable from [cr3] form a tree; the ghost map [owner] gives for
    each table its depth and the address prefix it translates.  Under that
    invariant the entry addresses of the code reach the entries they name, and
    [map], [unmap], [modify_page], [entry] and [is_mapped] are updates and
    lookups of one finite map from virtual pages to entries. *)

From S2P Require Import Prelude Sync Machine Phys Page.

(** ** Indices *)

(** The index of [va] at depth [n], and the prefix that selects the table of
    depth [n] that translates it. *)
Definition idxd (n : nat) (va : Z) : Z := (va / 2 ^ (39 - 9 * Z.of_nat n)) `mod` 512.
Definition pfxd (n : nat) (va : Z) : Z :=
  (va / 2 ^ (48 - 9 * Z.of_nat n)) `mod` 2 ^ (9 * Z.of_nat n).

(** The virtual page of an address. *)
Definition vpage (va : Z) : Z := (va / 2 ^ 12) `mod` 2 ^ 36.

Ltac pow2s :=
  change (2 ^ 9) with 512 in *; change (2 ^ 12) with 4096 in *;
  change (2 ^ 18) with 262144 in *; change (2 ^ 21) with 2097152 in *;
  change (2 ^ 27) with 134217728 in *; change (2 ^ 30) with 1073741824 in *;
  change (2 ^ 36) with 68719476736 in *; change (2 ^ 39) with 549755813888 in *;
  change (2 ^ 48) with 281474976710656 in *.

Lemma idxd0 va : idxd 0 va = (va / 2 ^ 39) `mod` 512. Proof. done. Qed.
Lemma idxd1 va : idxd 1 va = (va / 2 ^ 30) `mod` 512. Proof. done. Qed.
Lemma idxd2 va : idxd 2 va = (va / 2 ^ 21) `mod` 512. Proof. done. Qed.
Lemma idxd3 va : idxd 3 va = (va / 2 ^ 12) `mod` 512. Proof. done. Qed.
Lemma pfxd1 va : pfxd 1 va = (va / 2 ^ 39) `mod` 512. Proof. done. Qed.
Lemma pfxd2 va : pfxd 2 va = (va / 2 ^ 30) `mod` 2 ^ 18. Proof. done. Qed.
Lemma pfxd3 va : pfxd 3 va = (va / 2 ^ 21) `mod` 2 ^ 27. Proof. done. Qed.
Create Rewrite HintDb idx.
#[export] Hint Rewrite idxd0 idxd1 idxd2 idxd3 pfxd1 pfxd2 pfxd3 : idx.

Lemma idxd_range n va : 0 <= idxd n va < 512.
Proof. apply Z.mod_pos_bound. lia. Qed.

Lemma pfxd_step n va : (n < 3)%nat -> pfxd (S n) va = pfxd n va * 512 + idxd n va.
Proof.
  intros Hn. destruct n as [|[|[|n]]]; [..|lia]; autorewrite with idx.
  - unfold pfxd. cbn. rewrite Z.mod_1_r. lia.
  - pow2s. zdiv.
  - pow2s. zdiv.
Qed.

Lemma vpage_split va : vpage va = pfxd 3 va * 512 + idxd 3 va.
Proof. unfold vpage. autorewrite with idx. pow2s. zdiv. Qed.

Lemma land_mod a n m : 0 <= n -> m = 2 ^ n - 1 -> Z.land a m = a `mod` 2 ^ n.
Proof.
  intros Hn ->. rewrite <- Z.land_ones by done. by rewrite Z.ones_equiv, <- Z.sub_1_r.
Qed.

Lemma table_index_idxd n va : (n < 4)%nat -> table_index n va = idxd n va.
Proof.
  intros Hn. unfold table_index, idxd. rewrite Z.shiftr_div_pow2 by lia.
  by apply (land_mod _ 9).
Qed.

Definition indices (va : Z) : list Z := List.map (fun n => table_index n va) [0; 1; 2; 3]%nat.

Lemma indices_eq va : indices va = [idxd 0 va; idxd 1 va; idxd 2 va; idxd 3 va].
Proof. unfold indices. cbn [List.map]. by rewrite !table_index_idxd by lia. Qed.

Lemma word_index_eq va : word_index va = (va `mod` 4096) / 8.
Proof.
  unfold word_index. rewrite (land_mod _ 12) by done.
  by rewrite Z.shiftr_div_pow2.
Qed.

(** The entry of depth [n] for [va], at its address in the recursive window. *)
Definition entry_addr (n : nat) (va : Z) : Z :=
  match n with
  | 0%nat => pml4_entry CURRENT_PML va
  | 1%nat => pml3_entry CURRENT_PML va
  | 2%nat => pml2_entry CURRENT_PML va
  | _ => pml1_entry CURRENT_PML va
  end.

(** The walk of an entry address goes [4 - n] times through the recursive slot
    511 and then down the tables of [va]. *)
Definition window_path (n : nat) (va : Z) : list Z :=
  replicate (4 - n) 511 ++ List.map (fun k => idxd k va) (seq 0 n).

(** The four indices and the word index of a window address, by arithmetic on
    the offset [u] of the entry in the window. *)
Lemma window_arith u :
  0 <= u < 2 ^ 36 ->
  let a := CURRENT_PML + 8 * u in
  (a / 2 ^ 39) `mod` 512 = 511 /\ (a / 2 ^ 30) `mod` 512 = u / 2 ^ 27 /\
  (a / 2 ^ 21) `mod` 512 = (u / 2 ^ 18) `mod` 512 /\
  (a / 2 ^ 12) `mod` 512 = (u / 512) `mod` 512 /\ (a `mod` 4096) / 8 = u `mod` 512.
Proof. pow2s. intros Hu. cbv zeta. unfold CURRENT_PML. repeat split; zdiv. Qed.

Lemma entry_addr_offset n va :
  (n < 4)%nat ->
  entry_addr n va = CURRENT_PML + 8 * match n with
    | 0%nat => 0xffffffe00 + (va / 2 ^ 39) `mod` 512
    | 1%nat => 0xffffc0000 + (va / 2 ^ 30) `mod` 2 ^ 18
    | 2%nat => 0xff8000000 + (va / 2 ^ 21) `mod` 2 ^ 27
    | _ => (va / 2 ^ 12) `mod` 2 ^ 36
    end.
Proof.
  intros Hn. destruct n as [|[|[|[|n]]]]; [..|lia]; unfold entry_addr;
    [unfold pml4_entry|unfold pml3_entry|unfold pml2_entry|unfold pml1_entry];
    unfold ptr_add; rewrite !Z.shiftr_div_pow2 by lia;
    [rewrite (land_mod _ 9) by done|rewrite (land_mod _ 18) by done
    |rewrite (land_mod _ 27) by done|rewrite (land_mod _ 36) by done];
    change (2 ^ 9) with 512; unfold CURRENT_PML; lia.
Qed.

Lemma entry_addr_indices n va :
  (n < 4)%nat ->
  indices (entry_addr n va) = window_path n va /\
  word_index (entry_addr n va) = idxd n va.
Proof.
  intros Hn. rewrite indices_eq, word_index_eq, (entry_addr_offset n va) by done.
  unfold window_path. destruct n as [|[|[|[|n]]]]; [..|lia];
    cbn [replicate Nat.sub app seq List.map]; autorewrite with idx;
    match goal with |- context [CURRENT_PML + 8 * ?u] =>
      destruct (window_arith u) as (-> & -> & -> & -> & ->); [pow2s; zdiv|] end;
    pow2s; repeat match goal with
    | |- _ /\ _ => split
    | |- _ :: _ = _ :: _ => apply f_equal2
    end; try reflexivity; zdiv.
Qed.

(** ** The tree of tables *)

Section tables.
Context (mm : gmap Z frame) (root : Z).

Definition word (t i : Z) : Z :=
  match mm !! t with Some (FWords w) => default 0 (w !! i) | _ => 0 end.

Definition nonzero (e : Z) : option Z := if e =? 0 then None else Some e.

(** The table of depth [n] for [va]. *)
Fixpoint desc (va : Z) (n : nat) : option Z :=
  match n with
  | O => Some root
  | S n => t ← desc va n; page_base <$> nonzero (word t (idxd n va))
  end.

(** The nonzero entry of depth [n] for [va]. *)
Definition tword (va : Z) (n : nat) : option Z :=
  t ← desc va n; nonzero (word t (idxd n va)).

Record pt_inv (owner : gmap Z (nat * Z)) : Prop := {
  pt_root : owner !! root = Some (0%nat, 0);
  pt_self : page_base (word root 511) = root /\ Z.testbit (word root 511) 0 = true;
  pt_words : forall t n p, owner !! t = Some (n, p) ->
    (n <= 3)%nat /\ (n = 0%nat -> t = root) /\ page_aligned t /\
    exists w, mm !! t = Some (FWords w);
  pt_closed : forall t n p i, owner !! t = Some (n, p) -> (n < 3)%nat ->
    0 <= i < 512 -> (n = 0%nat -> i <> 511) -> word t i <> 0 ->
    Z.testbit (word t i) 0 = true /\
    owner !! page_base (word t i) = Some (S n, p * 512 + i)
}.

(** Addresses outside the recursive window. *)
Definition outside (va : Z) : Prop := idxd 0 va <> 511.

Lemma desc_S va n : desc va (S n) = page_base <$> tword va n.
Proof. unfold tword. cbn. by destruct (desc va n). Qed.

Lemma tword_none va n k : tword va n = None -> (n <= k)%nat -> tword va k = None.
Proof.
  intros H. induction 1 as [|k _ IH]; [done|].
  unfold tword. by rewrite desc_S, IH.
Qed.

Lemma tword_desc va n t :
  desc va n = Some t -> tword va n = nonzero (word t (idxd n va)).
Proof. unfold tword. by intros ->. Qed.

Lemma desc_next va n t :
  desc va n = Some t -> word t (idxd n va) <> 0 ->
  desc va (S n) = Some (page_base (word t (idxd n va))).
Proof.
  intros H Hw. rewrite desc_S, (tword_desc _ _ _ H). unfold nonzero.
  by rewrite (proj2 (Z.eqb_neq _ _)).
Qed.

Lemma nonzero_some e x : nonzero e = Some x <-> e = x /\ e <> 0.
Proof. unfold nonzero. zcases; naive_solver. Qed.

Context (owner : gmap Z (nat * Z)) (Hpt : pt_inv owner).

Lemma desc_owner va n t :
  outside va -> (n <= 3)%nat -> desc va n = Some t -> owner !! t = Some (n, pfxd n va).
Proof using Hpt.
  intros Ho. revert t. induction n as [|n IH]; intros t Hn Hd.
  - injection Hd as <-. rewrite (pt_root _ Hpt). unfold pfxd. cbn. by rewrite Z.mod_1_r.
  - cbn in Hd. destruct (desc va n) as [u|]; [|done]. cbn in Hd.
    destruct (nonzero _) as [e|] eqn:He; [|done]. apply nonzero_some in He as [<- He].
    injection Hd as <-. rewrite pfxd_step by lia.
    apply (pt_closed _ Hpt u); [apply IH; [lia|done] | lia | apply idxd_range | | done].
    intros ->. exact Ho.
Qed.

Lemma desc_frame va n t :
  outside va -> (n <= 3)%nat -> desc va n = Some t ->
  page_aligned t /\ exists w, mm !! t = Some (FWords w).
Proof using Hpt.
  intros Ho Hn Hd%desc_owner; [|done..]. by apply (pt_words _ Hpt) in Hd as (_ & _ & ?).
Qed.

(** *** Walks *)

Lemma walk_step t i ks w :
  mm !! t = Some (FWords w) -> Z.testbit (word t i) 0 = true ->
  walk mm t (i :: ks) = walk mm (page_base (word t i)) ks.
Proof. unfold word. cbn. intros ->. by intros ->. Qed.

Lemma walk_app t ks js :
  walk mm t (ks ++ js) =
  match walk mm t ks with Ret t => walk mm t js | Panic e => Panic e | UB e => UB e end.
Proof.
  revert t. induction ks as [|i ks IH]; intros t; [done|]. cbn.
  destruct (mm !! t) as [[w|]|]; try done.
  destruct (Z.odd (default 0 (w !! i))); [apply IH | done].
Qed.

Lemma walk_self k : walk mm root (replicate k 511) = Ret root.
Proof using Hpt.
  induction k as [|k IH]; [done|].
  destruct (pt_words _ Hpt root 0 0) as (_ & _ & _ & w & Hw); [apply Hpt|].
  destruct (pt_self _ Hpt) as [Hp Hb]. cbn [replicate].
  by rewrite (walk_step _ _ _ w), Hp.
Qed.

Lemma walk_desc va n t :
  outside va -> (n <= 3)%nat -> desc va n = Some t ->
  walk mm root (List.map (fun k => idxd k va) (seq 0 n)) = Ret t.
Proof using Hpt.
  intros Ho. revert t. induction n as [|n IH]; intros t Hn Hd; [by injection Hd as <-|].
  rewrite seq_S, List.map_app, walk_app. cbn in Hd.
  destruct (desc va n) as [u|] eqn:Hu; [|done]. rewrite (IH u) by (done || lia).
  cbn in Hd |- *. destruct (nonzero _) as [e|] eqn:He; [|done].
  apply nonzero_some in He as [<- He]. injection Hd as <-.
  destruct (desc_frame va n u Ho) as (_ & w & Hw); [lia|done|]. rewrite Hw.
  destruct (pt_closed _ Hpt u n (pfxd n va) (idxd n va)) as [Hb _];
    [apply desc_owner; done || lia | lia | apply idxd_range | by intros -> | done|].
  unfold word in Hb |- *. rewrite Hw in Hb |- *.
  by rewrite <- Z.bit0_odd, Hb.
Qed.

(** The recursive window: the address of the entry of depth [n] translates to
    the table of depth [n], whatever that depth. *)
Lemma walk_window va n t :
  outside va -> (n <= 3)%nat -> desc va n = Some t ->
  walk mm root (indices (entry_addr n va)) = Ret t.
Proof using Hpt.
  intros Ho Hn Hd. destruct (entry_addr_indices n va) as [-> _]; [lia|].
  unfold window_path. rewrite walk_app, walk_self. by apply walk_desc.
Qed.

End tables.

(** *** Updates *)

Section update.
Context (mm : gmap Z frame) (root : Z) (owner : gmap Z (nat * Z)).
Context (Hpt : pt_inv mm root owner).

Lemma word_other t u i f : t <> u -> word (<[t := f]> mm) u i = word mm u i.
Proof. intros. unfold word. by rewrite lookup_insert_ne. Qed.

Lemma word_same t w i j e :
  mm !! t = Some (FWords w) ->
  word (<[t := FWords (<[i := e]> w)]> mm) t j = if decide (i = j) then e else word mm t j.
Proof.
  intros Hw. unfold word. rewrite lookup_insert_eq, Hw.
  destruct (decide (i = j)) as [->|]; [by rewrite lookup_insert_eq | by rewrite lookup_insert_ne].
Qed.

(** Frames that are no tables do not matter. *)
Lemma pt_inv_frame t f : t ∉ dom owner -> pt_inv (<[t := f]> mm) root owner.
Proof using Hpt.
  intros Ht. assert (forall u x, owner !! u = Some x -> t <> u) as Hne.
  { intros u x Hu ->. by apply Ht, elem_of_dom. }
  destruct Hpt as [Hr Hs Hw Hc]. split; [done|..].
  - rewrite word_other by eauto. done.
  - intros u n p Hu. rewrite lookup_insert_ne by eauto. exact (Hw u n p Hu).
  - intros u n p i Hu. rewrite word_other by eauto. exact (Hc u n p i Hu).
Qed.

Lemma tword_frame t f va k :
  t ∉ dom owner -> outside va -> (k <= 3)%nat ->
  desc (<[t := f]> mm) root va k = desc mm root va k /\
  tword (<[t := f]> mm) root va k = tword mm root va k.
Proof using Hpt.
  intros Ht Ho. assert (forall j, (j <= 3)%nat -> desc (<[t := f]> mm) root va j = desc mm root va j ->
    tword (<[t := f]> mm) root va j = tword mm root va j) as Hstep.
  { intros j Hj. unfold tword. intros ->. destruct (desc mm root va j) as [u|] eqn:Hu; [|done].
    cbn. rewrite word_other; [done|]. intros ->. apply Ht, elem_of_dom.
    eapply desc_owner in Hu; [by eexists | done..]. }
  induction k as [|k IH]; intros Hk; (split; [|apply Hstep; [done|]]); try done;
    rewrite !desc_S; destruct IH as [_ ->]; done || lia.
Qed.

(** Writing an entry changes the paths through it and no other. *)
Context (t : Z) (n : nat) (p i e : Z) (w : gmap Z Z).
Context (Ht : owner !! t = Some (n, p)) (Hw : mm !! t = Some (FWords w)).
Let mm' := <[t := FWords (<[i := e]> w)]> mm.

Definition through (va : Z) : Prop := pfxd n va = p /\ idxd n va = i.

Lemma desc_store va k :
  outside va -> (k <= 3)%nat -> (k <= n)%nat \/ ~ through va ->
  desc mm' root va k = desc mm root va k.
Proof using Hpt Ht Hw.
  intros Ho. induction k as [|k IH]; intros Hk Hcase; [done|].
  rewrite !desc_S. unfold tword. rewrite IH by (lia || (destruct Hcase; [left; lia | by right])).
  destruct (desc mm root va k) as [u|] eqn:Hu; [|done]. cbn. do 2 f_equal.
  unfold mm'. destruct (decide (t = u)) as [<-|]; [|by rewrite word_other].
  eapply desc_owner in Hu; [|done|done|lia]. rewrite Ht in Hu. injection Hu as Hkn Hp.
  rewrite word_same by done. destruct (decide _) as [Hi|]; [|done].
  exfalso. destruct Hcase as [|[]]; [lia | by subst].
Qed.

Lemma tword_store va k :
  outside va -> (k <= 3)%nat -> (k < n)%nat \/ ~ through va ->
  tword mm' root va k = tword mm root va k.
Proof using Hpt Ht Hw.
  intros Ho Hk Hcase. unfold tword.
  rewrite desc_store; [|done..|destruct Hcase; [left; lia | by right]].
  destruct (desc mm root va k) as [u|] eqn:Hu; [|done]. cbn. f_equal.
  unfold mm'. destruct (decide (t = u)) as [<-|]; [|by rewrite word_other].
  eapply desc_owner in Hu; [|done..]. rewrite Ht in Hu. injection Hu as Hkn Hp.
  rewrite word_same by done. destruct (decide _) as [Hi|]; [|done].
  exfalso. destruct Hcase as [|[]]; [lia | by subst].
Qed.

Lemma tword_store_through va :
  outside va -> (n <= 3)%nat -> desc mm root va n = Some t -> idxd n va = i ->
  tword mm' root va n = nonzero e.
Proof using Hpt Ht Hw.
  intros Ho Hn Hd Hi. unfold tword. rewrite desc_store, Hd; [|done|done|by left].
  cbn. unfold mm'. rewrite word_same, decide_True by done. done.
Qed.

Lemma pt_inv_store owner' :
  (n = 0%nat -> i <> 511) ->
  (forall u x, owner !! u = Some x -> owner' !! u = Some x) ->
  (forall u m q, owner' !! u = Some (m, q) -> owner !! u = Some (m, q) \/
     ((m <= 3)%nat /\ m <> 0%nat /\ page_aligned u /\ mm !! u = Some zero_frame)) ->
  ((n < 3)%nat -> 0 <= i < 512 -> e <> 0 ->
     Z.testbit e 0 = true /\ owner' !! page_base e = Some (S n, p * 512 + i)) ->
  pt_inv mm' root owner'.
Proof using Hpt Ht Hw.
  intros H511 Hmono Hnew He. pose proof Hpt as [Hr Hs Hws Hc].
  assert (forall u m q, owner' !! u = Some (m, q) ->
    (m <= 3)%nat /\ (m = 0%nat -> u = root) /\ page_aligned u /\
    exists w, mm !! u = Some (FWords w)) as Hws'.
  { intros u m q [Hu|(? & ? & ? & ?)]%Hnew; [by apply Hws in Hu|].
    split_and!; try done. by eexists. }
  split.
  - by apply Hmono.
  - unfold mm'. destruct (decide (t = root)) as [->|]; [|by rewrite word_other].
    rewrite Hr in Ht. injection Ht as <- _. rewrite word_same by done.
    rewrite decide_False by (by apply H511). done.
  - intros u m q Hu. destruct (Hws' u m q Hu) as (? & ? & ? & wu & Hwu).
    split_and!; try done. unfold mm'. destruct (decide (t = u)) as [<-|].
    + rewrite lookup_insert_eq. eauto.
    + rewrite lookup_insert_ne by done. eauto.
  - intros u m q j Hu Hm Hj Hj' Hne. unfold mm' in *.
    destruct (Hnew u m q Hu) as [Hold|(_ & _ & _ & Hz)].
    + destruct (decide (t = u)) as [<-|Htu].
      * rewrite Ht in Hold. injection Hold as <- <-. rewrite word_same in Hne |- * by done.
        destruct (decide (i = j)) as [<-|]; [by apply He|].
        destruct (Hc t n p j) as [? Ho]; auto.
      * rewrite word_other in Hne |- * by done. destruct (Hc u m q j) as [? Ho]; auto.
    + destruct (decide (t = u)) as [<-|Htu].
      * pose proof (Hmono _ _ Ht) as Ht'. rewrite Hu in Ht'. injection Ht' as -> ->.
        rewrite word_same in Hne |- * by done.
        destruct (decide (i = j)) as [<-|]; [by apply He|].
        unfold word in Hne. rewrite Hz in Hne. cbn in Hne. by rewrite lookup_empty in Hne.
      * rewrite word_other in Hne by done. unfold word in Hne. rewrite Hz in Hne.
        cbn in Hne. by rewrite lookup_empty in Hne.
Qed.
End update.

(** ** The state *)

Definition root_of (s : machine) : Z := page_base (cr3 s).

(** The table entry of a virtual page, and the tables above it. *)
Definition pte (s : machine) (va : Z) : option Z := tword (mem s) (root_of s) va 3.

(** The allocator's invariant, the tree of tables, and no table is free. *)
Record vm_inv (rs : list PhysRegion) (bs fl : list Z) (owner : gmap Z (nat * Z))
    (s : machine) : Prop := {
  vm_phys : phys_inv rs bs fl s;
  vm_pt : pt_inv (mem s) (root_of s) owner;
  vm_free : forall t, t ∈ dom owner -> ~ allocatable rs bs fl t
}.

Lemma vm_inv_if rs bs fl o b s : vm_inv rs bs fl o s -> vm_inv rs bs fl o (set_if b s).
Proof.
  intros [[] Hp Hf]. split; [|done..]. by split.
Qed.

Section entry_access.
Context (owner : gmap Z (nat * Z)) (s : machine).
Context (Hpt : pt_inv (mem s) (root_of s) owner).
Context (va : Z) (n : nat) (t : Z).
Context (Ho : outside va) (Hn : (n <= 3)%nat) (Hd : desc (mem s) (root_of s) va n = Some t).

Lemma translate_entry : translate s (entry_addr n va) = Ret t.
Proof using All. by eapply walk_window. Qed.

(** Reading an entry through the recursive window reads the table of its depth. *)
Lemma wp_load_entry (Q : Z -> machine -> Prop) :
  Q (word (mem s) t (idxd n va)) s -> wp (load (entry_addr n va)) Q s.
Proof using All.
  intros HQ. unfold load. wp_step. eapply wp_run; [by rewrite translate_entry|].
  wp_steps. unfold word in HQ.
  destruct (desc_frame _ _ _ Hpt va n t) as (_ & w & Hw); [done..|].
  rewrite Hw in HQ |- *. wp_steps.
  destruct (entry_addr_indices n va) as [_ ->]; [lia|]. done.
Qed.

Lemma wp_store_entry e (Q : unit -> machine -> Prop) :
  (forall w, mem s !! t = Some (FWords w) ->
     Q tt (set_mem (<[t := FWords (<[idxd n va := e]> w)]> (mem s)) s)) ->
  wp (store (entry_addr n va) e) Q s.
Proof using All.
  intros HQ. unfold store. wp_step. eapply wp_run; [by rewrite translate_entry|].
  unfold store_word. wp_steps.
  destruct (desc_frame _ _ _ Hpt va n t) as (_ & w & Hw); [done..|].
  rewrite Hw. wp_steps. destruct (entry_addr_indices n va) as [_ ->]; [lia|]. by apply HQ.
Qed.
End entry_access.

Lemma vpage_page_base a : vpage (page_base a) = vpage a.
Proof. unfold vpage. rewrite page_base_sub. unfold PAGE_SIZE. pow2s. zdiv. Qed.

(** [pte] only depends on the page. *)
Lemma pte_vpage s va va' : vpage va = vpage va' -> pte s va = pte s va'.
Proof.
  intros H. rewrite !vpage_split in H. pose proof (idxd_range 3 va). pose proof (idxd_range 3 va').
  assert (pfxd 3 va = pfxd 3 va' /\ idxd 3 va = idxd 3 va') as [Hp Hi] by lia.
  assert (pfxd 2 va = pfxd 2 va' /\ idxd 2 va = idxd 2 va') as [Hp2 Hi2].
  { rewrite !(pfxd_step 2) in Hp by lia. pose proof (idxd_range 2 va). pose proof (idxd_range 2 va'). lia. }
  assert (pfxd 1 va = pfxd 1 va' /\ idxd 1 va = idxd 1 va') as [Hp1 Hi1].
  { rewrite !(pfxd_step 1) in Hp2 by lia. pose proof (idxd_range 1 va). pose proof (idxd_range 1 va'). lia. }
  assert (idxd 0 va = idxd 0 va') as Hi0.
  { rewrite !(pfxd_step 0) in Hp1 by lia. unfold pfxd in Hp1. cbn in Hp1. rewrite !Z.mod_1_r in Hp1. lia. }
  unfold pte, tword. cbn. by rewrite Hi, Hi2, Hi1, Hi0.
Qed.

(** An ordinary access goes to the frame of its page. *)
Lemma translate_page owner s va e : pt_inv (mem s) (root_of s) owner -> outside va ->
  pte s va = Some e -> Z.testbit e 0 = true -> translate s va = Ret (page_base e).
Proof.
  intros Hpt Ho Hp Hb. unfold translate. change (page_base (cr3 s)) with (root_of s).
  change (List.map _ _) with (indices va). rewrite indices_eq.
  destruct (desc (mem s) (root_of s) va 3) as [t|] eqn:Hd; [|unfold pte, tword in Hp; by rewrite Hd in Hp].
  pose proof (walk_desc _ _ _ Hpt va 3 t Ho ltac:(lia) Hd) as Hw.
  change [idxd 0 va; idxd 1 va; idxd 2 va; idxd 3 va] with
    (List.map (fun k => idxd k va) (seq 0 3) ++ [idxd 3 va]). rewrite walk_app, Hw.
  destruct (desc_frame _ _ _ Hpt va 3 t Ho ltac:(lia) Hd) as (_ & w & Hf).
  unfold pte in Hp. rewrite (tword_desc _ _ _ _ _ Hd) in Hp. apply nonzero_some in Hp as [He _].
  by rewrite (walk_step _ _ _ _ w), He by (done || by rewrite He).
Qed.

(** The words of a page. *)
Lemma load_page owner s va e w : pt_inv (mem s) (root_of s) owner -> outside va ->
  pte s va = Some e -> Z.testbit e 0 = true -> mem s !! page_base e = Some (FWords w) ->
  load va s = Ret (default 0 (w !! word_index va), s).
Proof.
  intros Hpt Ho Hp Hb Hw. unfold load, mbind, M_bind, lift, gets. by rewrite (translate_page owner s va e), Hw.
Qed.

Lemma store_page owner s va e w v : pt_inv (mem s) (root_of s) owner -> outside va ->
  pte s va = Some e -> Z.testbit e 0 = true -> mem s !! page_base e = Some (FWords w) ->
  store va v s = Ret (tt, set_mem (<[page_base e := FWords (<[word_index va := v]> w)]> (mem s)) s).
Proof.
  intros Hpt Ho Hp Hb Hw. unfold store, store_word, mbind, M_bind, lift, gets.
  by rewrite (translate_page owner s va e), Hw.
Qed.

(** [phys_inv] does not depend on frames that are not on the free list. *)
Lemma phys_inv_set_mem rs bs fl s t f :
  phys_inv rs bs fl s -> ~ allocatable rs bs fl t ->
  phys_inv rs bs fl (set_mem (<[t := f]> (mem s)) s).
Proof.
  intros [Hrs Hb (head & Hn & Hc) He Ht Hok Hlen Hbs Hnd Hfl Hrc] Hna.
  split; try done. exists head. split; [done|]. cbn.
  apply free_chain_insert; [|done]. intros Hin. apply Hna. by left.
Qed.

(** The mappings of two states agree outside the window. *)
Definition same_mappings (s s' : machine) : Prop :=
  forall va, outside va -> pte s' va = pte s va.

Lemma same_mappings_trans s1 s2 s3 :
  same_mappings s1 s2 -> same_mappings s2 s3 -> same_mappings s1 s3.
Proof. intros H1 H2 va Hva. by rewrite H2, H1. Qed.

Lemma same_env_trans s1 s2 s3 : same_env s1 s2 -> same_env s2 s3 -> same_env s1 s3.
Proof. unfold same_env. intros (?&?&?) (?&?&?). split_and!; congruence. Qed.

Lemma same_env_refl s : same_env s s.
Proof. done. Qed.
#[export] Hint Resolve same_env_refl : wp.

Lemma TABLE_entry p :
  page_aligned p -> Z.testbit (Z.lor p TABLE_FLAGS) 0 = true /\
  page_base (Z.lor p TABLE_FLAGS) = p /\ Z.lor p TABLE_FLAGS <> 0.
Proof.
  intros Hp. assert (Z.testbit (Z.lor p TABLE_FLAGS) 0 = true) as Hb.
  { rewrite Z.lor_spec. change (Z.testbit TABLE_FLAGS 0) with true. by rewrite orb_true_r. }
  split_and!; [done| |].
  - apply page_base_lor; [done|]. change TABLE_FLAGS with 7. unfold PAGE_SIZE. lia.
  - intros H0. by rewrite H0, Z.bits_0 in Hb.
Qed.

(** A handle that may be dropped: its frame is no page table, and if it is a
    frame of the allocator it is in use and counted. *)
Record held (rs : list PhysRegion) (bs fl : list Z) (owner : gmap Z (nat * Z))
    (s : machine) (q : Z) : Prop := {
  held_aligned : page_aligned q;
  held_owner : q ∉ dom owner;
  held_used : known rs q -> ~ allocatable rs bs fl q /\ 0 < rc_of s q < u64_limit
}.

Lemma held_if rs bs fl o s b q : held rs bs fl o s q -> held rs bs fl o (set_if b s) q.
Proof. by intros []. Qed.

Lemma known_dec rs q :
  page_aligned q -> known rs q \/ forall i r, rs !! i = Some r -> ~ rbegin r <= q < rend r.
Proof.
  intros Ha. destruct (decide (Exists (fun r => rbegin r <= q < rend r) rs)) as [H|H].
  - left. apply Exists_exists in H as (r & Hr & Hin).
    apply list_elem_of_lookup in Hr as [i Hi]. by exists i, r.
  - right. intros i r Hr Hin. apply H, Exists_exists. exists r. split; [|done].
    by eapply list_elem_of_lookup_2.
Qed.

(** ** Frames that are data

    A frame that is neither a table nor free: nobody but its owner writes to it. *)
Definition data_frame (rs : list PhysRegion) (bs fl : list Z) (owner : gmap Z (nat * Z)) (q : Z) : Prop :=
  page_aligned q /\ q ∉ dom owner /\ ~ allocatable rs bs fl q.

(** A change of the memory that respects the data frames of [P]: they stay data frames
    with their contents and counts, and only frames outside of [P] may become free. *)
Record evolves (rs : list PhysRegion) (P : Z -> Prop) (bs fl : list Z) (owner : gmap Z (nat * Z)) (s : machine)
    (bs' fl' : list Z) (owner' : gmap Z (nat * Z)) (s' : machine) : Prop := {
  ev_vm : vm_inv rs bs' fl' owner' s';
  ev_data : forall q, P q -> data_frame rs bs fl owner q ->
    data_frame rs bs' fl' owner' q /\ mem s' !! q = mem s !! q /\ rc_of s' q = rc_of s q;
  ev_free : forall q, allocatable rs bs' fl' q -> allocatable rs bs fl q \/ ~ P q
}.

Lemma evolves_refl rs P bs fl owner s : vm_inv rs bs fl owner s -> evolves rs P bs fl owner s bs fl owner s.
Proof. split; [done|done|by left]. Qed.

Lemma evolves_trans rs P bs fl o s bs1 fl1 o1 s1 bs2 fl2 o2 s2 :
  evolves rs P bs fl o s bs1 fl1 o1 s1 -> evolves rs P bs1 fl1 o1 s1 bs2 fl2 o2 s2 -> evolves rs P bs fl o s bs2 fl2 o2 s2.
Proof.
  intros [Hv1 Hd1 Hf1] [Hv2 Hd2 Hf2]. split; [done| |].
  - intros q HP Hq. destruct (Hd1 q HP Hq) as (Hq1 & Hm1 & Hr1), (Hd2 q HP Hq1) as (Hq2 & Hm2 & Hr2).
    split_and!; [done|congruence|congruence].
  - intros q [Hq|Hq]%Hf2; [by apply Hf1|by right].
Qed.

Lemma evolves_weaken rs (P P' : Z -> Prop) bs fl o s bs' fl' o' s' : (forall q, P' q -> P q) ->
  evolves rs P bs fl o s bs' fl' o' s' -> evolves rs P' bs fl o s bs' fl' o' s'.
Proof.
  intros HP [Hv Hd Hf]. split; [done| |].
  - intros q HP' Hq. apply Hd; [by apply HP|done].
  - intros q [Hq|Hq]%Hf; [by left|right]. intros HP'. by apply Hq, HP.
Qed.

Lemma evolves_if rs P bs fl o s bs' fl' o' s' b b' :
  evolves rs P bs fl o s bs' fl' o' s' -> evolves rs P bs fl o (set_if b s) bs' fl' o' (set_if b' s').
Proof. intros [Hv Hd Hf]. split; [by apply vm_inv_if|exact Hd|exact Hf]. Qed.

Lemma held_data rs bs fl owner s q : vm_inv rs bs fl owner s -> held rs bs fl owner s q -> data_frame rs bs fl owner q.
Proof.
  intros Hvm [Ha Ho Hu]. split_and!; [done|done|]. intros Hal.
  destruct (allocatable_known _ _ _ _ _ (vm_phys _ _ _ _ _ Hvm) Hal) as (i & r & Hr & Hin & _).
  destruct Hu as [Hna _]; [by exists i, r|done].
Qed.

Lemma held_evolves rs (P : Z -> Prop) bs fl o s bs' fl' o' s' q : vm_inv rs bs fl o s -> P q ->
  evolves rs P bs fl o s bs' fl' o' s' -> held rs bs fl o s q -> held rs bs' fl' o' s' q /\ rc_of s' q = rc_of s q.
Proof.
  intros Hvm HP [_ Hd _] Hh. destruct (Hd q HP) as ((Ha & Ho & Hna) & _ & Hrc); [by eapply held_data|].
  split; [|done]. split; [done|done|]. intros Hk. split; [done|]. rewrite Hrc. by apply Hh.
Qed.

Definition same_tables (s s' : machine) : Prop :=
  forall va k, outside va -> (k <= 3)%nat ->
    desc (mem s') (root_of s') va k = desc (mem s) (root_of s) va k /\
    tword (mem s') (root_of s') va k = tword (mem s) (root_of s) va k.

Lemma same_tables_mappings s s' : same_tables s s' -> same_mappings s s'.
Proof. intros H va Hva. by apply H. Qed.

Lemma same_env_root s s' : same_env s s' -> root_of s' = root_of s.
Proof. unfold root_of. by intros (_ & _ & ->). Qed.

(** Dropping a held handle. *)
Lemma drop_held rs bs fl owner s q :
  vm_inv rs bs fl owner s -> held rs bs fl owner s q ->
  wp (drop_phys q) (fun _ s' =>
    (exists fl', evolves rs (fun p => p <> q) bs fl owner s bs fl' owner s') /\ same_env s s' /\ same_tables s s' /\
    forall p, known rs p -> rc_of s' p = rc_of s p - (if decide (p = q) then 1 else 0)) s.
Proof.
  intros Hvm [Ha Hno Hu]. pose proof Hvm as [Hp Hpt Hf].
  destruct (known_dec rs q Ha) as [Hk|Hk].
  - destruct (Hu Hk) as [Hna Hrc]. destruct (known_used _ _ _ _ _ Hp Hk Hna) as [Hus Hfl].
    eapply wp_mono; [|by eapply drop_spec]. intros [] s' (Henv & Hc & Hpost).
    assert (forall p, known rs p -> rc_of s' p = rc_of s p - (if decide (p = q) then 1 else 0)) as Hcs.
    { intros p (i & r & _ & _ & Hap). rewrite (rc_of_insert _ _ _ p _ Hc) by done.
      destruct (decide (p = q)) as [->|]; [|lia]. apply wrap64_small. unfold in_u64. lia. }
    pose proof (same_env_root _ _ Henv) as Hroot.
    assert (forall p, p <> q -> page_aligned p -> rc_of s' p = rc_of s p) as Hne by (intros; by eapply rc_of_insert_ne).
    destruct (decide _) as [H1|H1].
    + destruct Hpost as [Hp' [n Hm]]. split_and!; [exists (q :: fl)|done| |done].
      * assert (forall p, allocatable rs bs (q :: fl) p -> allocatable rs bs fl p \/ p = q) as Hal.
        { intros p [[->|Hin]%elem_of_cons|Hfr]; [by right|left; by left|left; by right]. }
        split; [split; [done| |]| |].
        -- rewrite Hroot, Hm. by apply pt_inv_frame.
        -- intros t Ht [Hat| ->]%Hal; [by apply (Hf t)|done].
        -- intros p Hpq (Hpa & Hpo & Hpn). split_and!; [split_and!; [done..|]| |by apply Hne].
           ++ by intros [?|?]%Hal.
           ++ rewrite Hm. by apply lookup_insert_ne.
        -- intros p [?| ->]%Hal; [by left|right]. by intros ?.
      * intros va k Hva Hk'. rewrite Hroot, Hm. by eapply tword_frame.
    + destruct Hpost as [Hp' Hm]. split_and!; [exists fl|done| |done].
      * split; [split; [done| |done]; by rewrite Hroot, Hm| |by left].
        intros p Hpq Hd. split_and!; [done..|by rewrite Hm|apply Hne; [done|apply Hd]].
      * intros va k _ _. by rewrite Hroot, Hm.
  - unfold drop_phys, dec_ref. wp_steps. rewrite (pi_enabled _ _ _ _ Hp). wp_steps.
    eapply wp_run; [eapply ref_count_unknown; [exact (pi_regions _ _ _ _ Hp)|done]|].
    wp_steps. split_and!; [exists fl; by apply evolves_refl|done|done|]. intros p (i & r & Hr & Hin & _).
    rewrite decide_False; [lia|]. intros ->. by apply (Hk i r).
Qed.

(** What one [ensure_table] block guarantees. *)
Definition table_post (rs : list PhysRegion) (bs fl : list Z) (owner : gmap Z (nat * Z))
    (va : Z) (n : nat) (s : machine) (r : result unit MapError) (s' : machine) : Prop :=
  same_env s s' /\ same_mappings s s' /\
  (exists bs' fl' owner', evolves rs (fun _ => True) bs fl owner s bs' fl' owner' s') /\
  match r with
  | Ok _ => exists t, desc (mem s') (root_of s') va (S n) = Some t
  | Err e => e = CannotAllocatePageTable /\ s' = s /\ pte s va = None /\
             forall q, ~ allocatable rs bs fl q
  end.

(** Taking a free frame [p]: a later step may add it to the tables and write the
    tables. *)
Lemma evolves_alloc rs bs fl bs' fl' owner owner' s s' p : vm_inv rs bs fl owner s -> vm_inv rs bs' fl' owner' s' ->
  allocatable rs bs fl p -> page_aligned p -> rc s' = <[Z.shiftr p 12 := 1]> (rc s) ->
  (forall q, allocatable rs bs' fl' q <-> allocatable rs bs fl q /\ q <> p) ->
  (forall q, q ∈ dom owner' -> q ∈ dom owner \/ q = p) ->
  (forall q, q ∉ dom owner -> q <> p -> mem s' !! q = mem s !! q) ->
  evolves rs (fun _ => True) bs fl owner s bs' fl' owner' s'.
Proof.
  intros Hvm Hvm' Hp Ha Hrc Hal Hdom Hmem. split; [done| |intros q [? _]%Hal; by left].
  intros q _ (Hqa & Hqo & Hqn). assert (q <> p) as Hne by (by intros ->).
  split_and!; [split_and!; [done|by intros [|]%Hdom|by intros [? _]%Hal]|by apply Hmem|by eapply rc_of_insert_ne].
Qed.

(** Allocation seen by a caller that will map or drop the frame. *)
Lemma alloc_vm rs bs fl owner s :
  vm_inv rs bs fl owner s ->
  wp alloc (fun r s' => match r with
    | Ok p => same_env s s' /\ same_tables s s' /\ allocatable rs bs fl p /\ known rs p /\
        mem s' !! p = Some zero_frame /\ rc_of s' p = 1 /\ exists bs' fl',
        evolves rs (fun _ => True) bs fl owner s bs' fl' owner s' /\ held rs bs' fl' owner s' p
    | Err _ => s' = s
    end) s.
Proof.
  intros Hvm. pose proof Hvm as [Hp Hpt Hf]. wp_call alloc_ok; [|exact Hp]. intros [p|[]] s1 Hpost; [|apply Hpost].
  destruct Hpost as (Henv & Hall & Hm & Hrc & bs' & fl' & Hp1 & Hq).
  destruct (allocatable_known _ _ _ _ _ Hp Hall) as (i & r & Hr & Hin & Ha).
  assert (p ∉ dom owner) as Hpo. { intros H. by apply (Hf p H). }
  pose proof (same_env_root _ _ Henv) as Hroot.
  assert (rc_of s1 p = 1) as Hone by (by rewrite (rc_of_insert _ _ _ _ _ Hrc), decide_True).
  split_and!; [done| |done|by exists i, r|by rewrite Hm, lookup_insert_eq|done|].
  - intros va k Ho Hk. rewrite Hroot, Hm. by eapply tword_frame.
  - assert (vm_inv rs bs' fl' owner s1) as Hvm1.
    { split; [done| |].
      - rewrite Hroot, Hm. by apply pt_inv_frame.
      - intros t Ht. rewrite Hq. intros [Hal _]. by apply (Hf t). }
    exists bs', fl'. split.
    + eapply evolves_alloc; try done; [by left|]. intros q _ Hne. rewrite Hm. by apply lookup_insert_ne.
    + split; [done|done|]. intros _. split; [rewrite Hq; naive_solver|]. rewrite Hone. u64. lia.
Qed.

Lemma tword_zero mm root va n t :
  desc mm root va n = Some t -> mm !! t = Some zero_frame -> tword mm root va n = None.
Proof.
  intros Hd Ht. rewrite (tword_desc _ _ _ _ _ Hd). unfold word. rewrite Ht. cbn.
  by rewrite lookup_empty.
Qed.

(** Hanging a fresh zeroed table below the empty entry of [va] at depth [n]:
    the new tree, and no mapping changes. *)
Section new_table.
Context (mm : gmap Z frame) (root : Z) (owner : gmap Z (nat * Z)).
Context (Hpt : pt_inv mm root owner).
Context (va : Z) (n : nat) (t p : Z) (w : gmap Z Z).
Context (Ho : outside va) (Hn : (n < 3)%nat) (Hd : desc mm root va n = Some t).
Context (Hempty : word mm t (idxd n va) = 0) (Hw : mm !! t = Some (FWords w)).
Context (Hp : page_aligned p) (Hz : mm !! p = Some zero_frame) (Hfresh : p ∉ dom owner).
Let e := Z.lor p TABLE_FLAGS.
Let mm' := <[t := FWords (<[idxd n va := e]> w)]> mm.
Let owner' := <[p := (S n, pfxd (S n) va)]> owner.

Lemma owner_t : owner !! t = Some (n, pfxd n va).
Proof using All. eapply desc_owner; try done. lia. Qed.

Lemma new_table_inv : pt_inv mm' root owner'.
Proof using All.
  assert (forall u x, owner !! u = Some x -> u <> p) as Hne.
  { intros u x Hu ->. by apply Hfresh, elem_of_dom. }
  pose proof (TABLE_entry p Hp) as (Hb & Hbase & _).
  eapply pt_inv_store; [done|exact owner_t|done| | | |].
  - intros ->. exact Ho.
  - intros u x Hu. unfold owner'. rewrite lookup_insert_ne; [done|].
    symmetry. by eapply Hne.
  - intros u m q. unfold owner'. intros [(<- & [= <- <-])|(Hu & ?)]%lookup_insert_Some.
    + right. split_and!; (done || lia).
    + by left.
  - intros _ _ _. split; [done|]. unfold e, owner'. rewrite Hbase, lookup_insert_eq.
    by rewrite pfxd_step.
Qed.

Lemma new_table_desc : desc mm' root va (S n) = Some p.
Proof using All.
  pose proof (TABLE_entry p Hp) as (_ & Hbase & He).
  rewrite desc_S. unfold mm'.
  erewrite tword_store_through; [|exact Hpt|exact owner_t|done..|lia|done|done].
  unfold nonzero, e. rewrite (proj2 (Z.eqb_neq _ _)) by done. cbn. by rewrite Hbase.
Qed.

Lemma new_table_mappings va' :
  outside va' -> tword mm' root va' 3 = tword mm root va' 3.
Proof using All.
  intros Ho'. destruct (decide (pfxd n va' = pfxd n va /\ idxd n va' = idxd n va)) as [Hthr|Hnot].
  2: { eapply tword_store; [exact Hpt|exact owner_t|done..|]. right. exact Hnot. }
  assert (forall k, (k <= n)%nat -> desc mm root va' k = desc mm root va k) as Hsame.
  { destruct Hthr as [Hpf _]. intros k. induction k as [|k IH]; [done|]. intros Hk.
    cbn. rewrite IH by lia. destruct (desc mm root va k) as [u|]; [|done]. cbn. do 3 f_equal.
    clear - Hpf Hk Hn. destruct n as [|[|[|?]]], k as [|[|?]]; try lia;
      autorewrite with idx in Hpf |- *; pow2s; zdiv. }
  destruct Hthr as [Hpf Hidx].
  assert (tword mm root va' n = None) as Hnone.
  { rewrite (tword_desc _ _ _ _ t); [|by rewrite Hsame]. by rewrite Hidx, Hempty. }
  rewrite (tword_none _ _ _ _ _ Hnone) by lia.
  assert (desc mm' root va' (S n) = Some p) as Hd'.
  { pose proof (TABLE_entry p Hp) as (_ & Hbase & He). rewrite desc_S. unfold mm'.
    erewrite tword_store_through; [|exact Hpt|exact owner_t|done..|lia|by rewrite Hsame|done].
    unfold nonzero, e. rewrite (proj2 (Z.eqb_neq _ _)) by done. cbn. by rewrite Hbase. }
  apply (tword_none _ _ _ (S n)); [|lia]. eapply tword_zero; [exact Hd'|].
  unfold mm'. rewrite lookup_insert_ne; [done|]. intros Heq.
  apply Hfresh, elem_of_dom. rewrite <- Heq. eexists. exact owner_t.
Qed.
End new_table.

Section map_proofs.
Context (rs : list PhysRegion) (va : Z) (Ho : outside va).

Lemma ensure_table_spec bs fl owner n t s :
  vm_inv rs bs fl owner s -> (n < 3)%nat -> desc (mem s) (root_of s) va n = Some t ->
  wp (ensure_table (entry_addr n va)) (table_post rs bs fl owner va n s) s.
Proof using Ho.
  intros Hvm Hn Hd. pose proof Hvm as [Hp Hpt Hf]. unfold ensure_table. wp_step.
  eapply wp_load_entry; [exact Hpt|done|lia|exact Hd|]. zcases.
  2: { wp_step. split_and!; [done|done|exists bs, fl, owner; by apply evolves_refl|].
       eexists. by apply desc_next. }
  wp_step. wp_call alloc_ok; [|exact Hp]. intros [p|[]] s1 Hpost.
  - destruct Hpost as (Henv & Hall & Hm & Hrc & bs' & fl' & Hp1 & Hq).
    destruct (allocatable_known _ _ _ _ _ Hp Hall) as (i & r & Hr & Hin & Ha).
    assert (p ∉ dom owner) as Hpo. { intros H. by apply (Hf p H). }
    pose proof (same_env_root _ _ Henv) as Hroot.
    assert (pt_inv (mem s1) (root_of s1) owner) as Hpt1.
    { rewrite Hroot, Hm. by apply pt_inv_frame. }
    assert (forall va' k, outside va' -> (k <= 3)%nat ->
        desc (mem s1) (root_of s1) va' k = desc (mem s) (root_of s) va' k /\
        tword (mem s1) (root_of s1) va' k = tword (mem s) (root_of s) va' k) as Hsame.
    { intros va' k Ho' Hk. rewrite Hroot, Hm. by eapply tword_frame. }
    assert (t <> p) as Htp.
    { intros ->. apply Hpo, elem_of_dom. eexists. eapply desc_owner; [exact Hpt|done| |done]. lia. }
    assert (desc (mem s1) (root_of s1) va n = Some t) as Hd1.
    { destruct (Hsame va n) as [-> _]; (done || lia). }
    assert (word (mem s1) t (idxd n va) = 0) as Hw1 by (by rewrite Hm, word_other).
    wp_step. eapply wp_store_entry; [exact Hpt1|done|lia|exact Hd1|].
    intros w Hw. wp_step.
    assert (mem s1 !! p = Some zero_frame) as Hz by (by rewrite Hm, lookup_insert_eq).
    split_and!; [done| | |].
    + intros va' Ho'. unfold pte at 1, root_of at 1. cbn.
      etrans; [|by apply (Hsame va' 3%nat)].
      by eapply (new_table_mappings _ _ owner Hpt1 va n t p w).
    + assert (t ∈ dom owner) as Hto.
      { apply elem_of_dom. eexists. eapply desc_owner; [exact Hpt|done| |done]. lia. }
      exists bs', fl', (<[p := (S n, pfxd (S n) va)]> owner).
      eapply (evolves_alloc _ _ _ _ _ _ _ _ _ p); try done; [split| |].
      * apply phys_inv_set_mem; [done|]. rewrite Hq. intros [Hal _]. by apply (Hf t).
      * by eapply (new_table_inv _ _ owner Hpt1 va n t p w).
      * intros u Hu. rewrite Hq. rewrite dom_insert in Hu.
        apply elem_of_union in Hu as [->%elem_of_singleton|Hu]; [naive_solver|].
        intros [Hal _]. by apply (Hf u).
      * intros u. rewrite dom_insert. set_solver.
      * intros u Hu Hne. cbn. rewrite lookup_insert_ne by (by intros ->). rewrite Hm. by apply lookup_insert_ne.
    + eexists. by eapply (new_table_desc _ _ owner Hpt1 va n t p w).
  - destruct Hpost as [-> Hnone]. wp_step. split_and!; [done|done|exists bs, fl, owner; by apply evolves_refl|done|done| |done].
    unfold pte. apply (tword_none _ _ _ n); [|lia].
    rewrite (tword_desc _ _ _ _ _ Hd), e. done.
Qed.
End map_proofs.

(** What [map] guarantees for the page of [va] and the handle [phys]: an error
    changes no mapping and drops the handle. *)
Definition map_post (rs : list PhysRegion) (phys va fl : Z) (s : machine)
    (r : result unit MapError) (s' : machine) : Prop :=
  (exists bs fl owner, vm_inv rs bs fl owner s') /\ same_env s s' /\
  match r with
  | Ok _ => pte s va = None /\ pte s' va = nonzero (Z.lor phys fl) /\
      (forall va', outside va' -> vpage va' <> vpage va -> pte s' va' = pte s va') /\
      rc_of s' phys = rc_of s phys
  | Err e =>
      match e with
      | AlreadyMapped => exists e', pte s va = Some e'
      | CannotAllocatePageTable => pte s va = None
      end /\
      same_mappings s s' /\ (known rs phys -> rc_of s' phys = rc_of s phys - 1)
  end.

Lemma through_vpage va va' :
  pfxd 3 va' = pfxd 3 va /\ idxd 3 va' = idxd 3 va <-> vpage va' = vpage va.
Proof.
  rewrite !vpage_split. pose proof (idxd_range 3 va). pose proof (idxd_range 3 va').
  split; [intros [-> ->]; done | lia].
Qed.

(** Storing the entry of [va] changes that mapping only. *)
Section leaf_store.
Context (rs : list PhysRegion) (bs fl : list Z) (owner : gmap Z (nat * Z)) (s : machine).
Context (Hvm : vm_inv rs bs fl owner s) (va t e : Z).
Context (Ho : outside va) (Hd : desc (mem s) (root_of s) va 3 = Some t).

Lemma leaf_store (Q : unit -> machine -> Prop) :
  (forall s', vm_inv rs bs fl owner s' -> same_env s s' -> rc s' = rc s ->
     pte s' va = nonzero e ->
     (forall va', outside va' -> vpage va' <> vpage va -> pte s' va' = pte s va') ->
     (forall q, q ∉ dom owner -> mem s' !! q = mem s !! q) ->
     Q tt s') ->
  wp (store (entry_addr 3 va) e) Q s.
Proof using All.
  intros HQ. destruct Hvm as [Hp Hpt Hf].
  eapply desc_owner in Hd as Ht; [|exact Hpt|done|done].
  eapply wp_store_entry; [exact Hpt|done|done|exact Hd|]. intros w Hw. apply HQ.
  - split; [|eapply pt_inv_store; [exact Hpt|exact Ht|done|..]|done]; cbn.
    + apply phys_inv_set_mem; [done|]. apply Hf, elem_of_dom. by eexists.
    + lia.
    + done.
    + by left.
    + lia.
  - done.
  - done.
  - by eapply tword_store_through.
  - intros va' Ho' Hne. eapply tword_store; [exact Hpt|exact Ht|done..|].
    right. unfold through. by rewrite through_vpage.
  - intros q Hq. cbn. apply lookup_insert_ne. intros ->. by apply Hq, elem_of_dom.
Qed.
End leaf_store.

(** The running flag is put back by [section]. *)
Lemma wp_section_env {A} (f : M machine A) (Q : A -> machine -> Prop) s :
  wp f (fun a s' => same_env (set_if false s) s' /\ Q a (set_if (m_if s) s'))
     (set_if false s) ->
  wp (section f) Q s.
Proof.
  intros H. apply wp_section. eapply wp_mono; [|exact H].
  intros a s' [(_ & Hif & _) HQ]. done.
Qed.

Section map_theorem.
Context (rs : list PhysRegion) (phys va flg : Z).
Context (Ho : outside va).
Context (bs fl : list Z) (owner : gmap Z (nat * Z)) (s : machine).
Context (Hvm0 : vm_inv rs bs fl owner s) (Hh0 : held rs bs fl owner s phys).

(** What else [map] keeps: the data frames, and the handle on an error. *)
Definition map_full (r : result unit MapError) (s' : machine) : Prop :=
  map_post rs phys va flg s r s' /\
  exists bs' fl' owner', evolves rs (fun q => is_ok r = true \/ q <> phys) bs fl owner s bs' fl' owner' s'.

(** The state between two blocks of [map]. *)
Definition mid (n : nat) (s1 : machine) : Prop :=
  same_env s s1 /\ same_mappings s s1 /\
  (exists t, desc (mem s1) (root_of s1) va n = Some t) /\
  exists bs1 fl1 owner1, evolves rs (fun _ => True) bs fl owner s bs1 fl1 owner1 s1.

(** The value of the body, before the handle is dropped on an error. *)
Definition body_post (r : result unit MapError) (s1 : machine) : Prop :=
  match r with
  | Ok _ => map_full (Ok tt) s1
  | Err AlreadyMapped => mid 0 s1 /\ exists e', pte s va = Some e'
  | Err CannotAllocatePageTable => mid 0 s1 /\ pte s va = None
  end.

Lemma mid_le n s1 : mid n s1 -> mid 0 s1.
Proof using Type. intros (? & ? & _ & ?). split_and!; [done..|by eexists|done]. Qed.

Lemma ensure_table_mid n s1 :
  mid n s1 -> (n < 3)%nat ->
  wp (ensure_table (entry_addr n va)) (fun r s2 =>
    match r with Ok _ => mid (S n) s2 | Err e => body_post (Err e) s2 end) s1.
Proof using Ho.
  intros (Henv & Hm & (t & Hd) & bs1 & fl1 & o1 & Hev) Hn.
  wp_call ensure_table_spec; [|done|by apply Hev|done..]. intros r s2 (Henv2 & Hm2 & (bs' & fl' & o' & Hev2) & Hr).
  assert (forall k, (exists t, desc (mem s2) (root_of s2) va k = Some t) -> mid k s2) as Hmid.
  { intros k Hk. split_and!; [by eapply same_env_trans|by eapply same_mappings_trans|done|].
    exists bs', fl', o'. by eapply evolves_trans. }
  destruct r as [[]|e]; [by apply Hmid|]. destruct Hr as (-> & _ & Hp & _).
  split; [apply Hmid; by eexists|]. by rewrite <- (Hm va Ho).
Qed.

Lemma map_leaf s1 :
  mid 3 s1 ->
  wp (e ← load (entry_addr 3 va);
      if negb (e =? 0) then mret (Err AlreadyMapped)
      else
        _ ← store (entry_addr 3 va) (Z.lor (into_raw phys) flg);
        mret (Ok tt)) body_post s1.
Proof using Ho Hvm0 Hh0.
  intros Hmid. pose proof Hmid as (Henv & Hm & (t & Hd) & bs1 & fl1 & o1 & Hev).
  pose proof (ev_vm _ _ _ _ _ _ _ _ _ _ Hev) as Hvm. pose proof (vm_pt _ _ _ _ _ Hvm) as Hpt.
  assert (pte s va = nonzero (word (mem s1) t (idxd 3 va))) as Hpte.
  { rewrite <- (Hm va Ho). by apply tword_desc. }
  wp_step. eapply wp_load_entry; [exact Hpt|done|lia|exact Hd|].
  unfold nonzero in Hpte. destruct (Z.eqb_spec (word (mem s1) t (idxd 3 va)) 0) as [H0|H0]; cbn [negb].
  - wp_step. eapply leaf_store; [exact Hvm|done|exact Hd|].
    intros s2 Hvm2 Henv2 Hrc2 Hv Hothers Hdata. wp_step.
    assert (evolves rs (fun _ => True) bs1 fl1 o1 s1 bs1 fl1 o1 s2) as Hev2.
    { split; [done| |by left]. intros q _ Hq. split_and!; [done|apply Hdata, Hq|]. unfold rc_of, rc_load. by rewrite Hrc2. }
    assert (evolves rs (fun _ => True) bs fl owner s bs1 fl1 o1 s2) as Hev' by (by eapply evolves_trans).
    split; [split_and!; [by exists bs1, fl1, o1|by eapply same_env_trans|done|done| |]|].
    + intros va' Hva' Hne. by rewrite Hothers, Hm.
    + eapply held_evolves; [exact Hvm0| |exact Hev'|exact Hh0]; done.
    + exists bs1, fl1, o1. by eapply (evolves_weaken _ (fun _ => True)).
  - wp_step. split; [by eapply mid_le|]. by eexists.
Qed.

Lemma map_drop r s1 :
  body_post r s1 ->
  wp (match r with Ok _ => mret r | Err _ => _ ← drop_phys phys; mret r end) map_full s1.
Proof using Hvm0 Hh0.
  destruct r as [[]|e]; [done|]. intros Hb.
  assert (mid 0 s1 /\ match e with
    | AlreadyMapped => exists e', pte s va = Some e'
    | CannotAllocatePageTable => pte s va = None end) as
    [(Henv & Hm & _ & bs1 & fl1 & o1 & Hev) Hpte] by (by destruct e).
  pose proof (ev_vm _ _ _ _ _ _ _ _ _ _ Hev) as Hvm.
  destruct (held_evolves _ _ _ _ _ _ _ _ _ _ phys Hvm0 I Hev Hh0) as [Hh Hrc].
  wp_step. wp_call drop_held; [|exact Hvm|exact Hh].
  intros [] s2 ((fl' & Hev2) & Henv2 & Ht2 & Hrc2). wp_step.
  assert (evolves rs (fun q => is_ok (Err e : result unit MapError) = true \/ q <> phys) bs fl owner s bs1 fl' o1 s2) as Hev'.
  { eapply evolves_trans; [eapply (evolves_weaken _ (fun _ => True)); [done|exact Hev]|].
    eapply evolves_weaken; [|exact Hev2]. by intros q [[=]|?]. }
  split; [split_and!; [|by eapply same_env_trans|done| |]|by exists bs1, fl', o1].
  - exists bs1, fl', o1. apply Hev'.
  - by eapply same_mappings_trans; [|apply same_tables_mappings].
  - intros Hk. rewrite Hrc2, Hrc by done. by rewrite decide_True.
Qed.
End map_theorem.

Lemma map_ok rs bs fl owner s phys va flg :
  outside va -> vm_inv rs bs fl owner s -> held rs bs fl owner s phys ->
  wp (map phys va flg) (map_full rs phys va flg bs fl owner s) s.
Proof.
  intros Ho Hvm Hh. apply wp_section_env. cbv zeta.
  change (pml4_entry CURRENT_PML va) with (entry_addr 0 va).
  change (pml3_entry CURRENT_PML va) with (entry_addr 1 va).
  change (pml2_entry CURRENT_PML va) with (entry_addr 2 va).
  change (pml1_entry CURRENT_PML va) with (entry_addr 3 va).
  assert (set_if (m_if s) (set_if false s) = s) as Hback by (by destruct s).
  eapply (wp_mono _ (map_full rs phys va flg bs fl owner (set_if false s))).
  { intros r s' [(Hvm' & Henv & Hr) (b' & f' & o' & Hev)]. split; [done|].
    split; [split_and!; [|by destruct Henv as (? & _ & ?)|exact Hr]|].
    - destruct Hvm' as (b1 & f1 & o1 & Hvm'). exists b1, f1, o1. by apply vm_inv_if.
    - exists b', f', o'. rewrite <- Hback at 1. by apply evolves_if. }
  assert (vm_inv rs bs fl owner (set_if false s) /\ held rs bs fl owner (set_if false s) phys) as [Hvm1 Hh1]
    by (split; [by apply vm_inv_if|by apply held_if]).
  revert Hvm1 Hh1. generalize (set_if false s). clear Hvm Hh Hback s. intros s Hvm Hh.
  assert (mid rs va bs fl owner s 0 s) as H0.
  { split_and!; [done|done|by eexists|]. exists bs, fl, owner. by apply evolves_refl. }
  wp_step. eapply (wp_mono _ (body_post rs phys va flg bs fl owner s)).
  { intros r s1. by apply map_drop. }
  do 3 (wp_step; wp_call ensure_table_mid; [|done|eassumption|lia];
    intros [u|e] ? ?; [clear u|done]).
  by apply map_leaf.
Qed.

(** C2: mapping a page: from any state whose tables and allocator satisfy the
    invariants, [page::map] returns without a page fault or a panic and keeps the
    invariants and the interrupt flag.  On success the page was not mapped, its
    entry becomes the frame and flags given, and every other mapping outside the
    recursive window is unchanged; on an error no mapping changes at all (a table
    hung into the tree before the failure stays and is empty) and the handle is
    released. *)
Theorem map_spec rs bs fl owner s phys va flg :
  outside va -> vm_inv rs bs fl owner s -> held rs bs fl owner s phys ->
  wp (map phys va flg) (map_post rs phys va flg s) s.
Proof. intros. eapply wp_mono; [|by eapply map_ok]. by intros r s' [? _]. Qed.

(** ** Lookups *)

Section lookups.
Context (owner : gmap Z (nat * Z)) (s : machine) (va : Z).
Context (Hpt : pt_inv (mem s) (root_of s) owner) (Ho : outside va).

(** One test "this table exists" on the way down. *)
Lemma wp_level {B} (k : M machine B) (z : B) n t (Q : B -> machine -> Prop) :
  (n < 3)%nat -> desc (mem s) (root_of s) va n = Some t ->
  (pte s va = None -> Q z s) ->
  ((exists u, desc (mem s) (root_of s) va (S n) = Some u) -> wp k Q s) ->
  wp (e ← load (entry_addr n va); if e =? 0 then mret z else k) Q s.
Proof using All.
  intros Hn Hd Hz Hk. wp_step. eapply wp_load_entry; [exact Hpt|done|lia|exact Hd|].
  destruct (Z.eqb_spec (word (mem s) t (idxd n va)) 0) as [H0|H0].
  - wp_step. apply Hz. unfold pte. apply (tword_none _ _ _ n); [|lia].
    by rewrite (tword_desc _ _ _ _ _ Hd), H0.
  - apply Hk. eexists. by apply desc_next.
Qed.

Lemma wp_last_level {B} (k : Z -> M machine B) t (Q : B -> machine -> Prop) :
  desc (mem s) (root_of s) va 3 = Some t ->
  (forall e, pte s va = nonzero e -> wp (k e) Q s) ->
  wp (e ← load (entry_addr 3 va); k e) Q s.
Proof using All.
  intros Hd Hk. wp_step. eapply wp_load_entry; [exact Hpt|done|lia|exact Hd|].
  apply Hk. by apply tword_desc.
Qed.
End lookups.

Lemma pt_inv_if owner b s :
  pt_inv (mem s) (root_of s) owner -> pt_inv (mem (set_if b s)) (root_of (set_if b s)) owner.
Proof. done. Qed.

Ltac entry_addrs va :=
  change (pml4_entry CURRENT_PML va) with (entry_addr 0 va);
  change (pml3_entry CURRENT_PML va) with (entry_addr 1 va);
  change (pml2_entry CURRENT_PML va) with (entry_addr 2 va);
  change (pml1_entry CURRENT_PML va) with (entry_addr 3 va).

Ltac levels :=
  eapply wp_level; [eassumption|assumption|lia|reflexivity| |];
    [|intros [? ?]; eapply wp_level; [eassumption|assumption|lia|eassumption| |];
      [|intros [? ?]; eapply wp_level; [eassumption|assumption|lia|eassumption| |];
        [|intros [? ?]]]].

(** [page::is_mapped] answers whether the page has an entry, without a page
    fault whatever tables are missing, and changes nothing. *)
Theorem is_mapped_spec owner s va :
  outside va -> pt_inv (mem s) (root_of s) owner ->
  is_mapped va s = Ret (bool_decide (is_Some (pte s va)), s).
Proof.
  intros Ho Hpt. enough (wp (is_mapped va) (fun b s' => b = bool_decide (is_Some (pte s va)) /\ s' = s) s)
    as (b & s' & -> & -> & ->)%wp_iff by done.
  apply wp_section_env. cbv zeta. entry_addrs va.
  apply (pt_inv_if _ false) in Hpt.
  assert (forall b, b = bool_decide (is_Some (pte s va)) ->
    same_env (set_if false s) (set_if false s) /\ b = bool_decide (is_Some (pte s va)) /\
    set_if (m_if s) (set_if false s) = s) as Hfin.
  { intros b Hb. split_and!; [done|done|]. by destruct s. }
  levels; try (intros Hnone; apply Hfin; change (pte (set_if false s) va) with (pte s va) in Hnone;
    by rewrite Hnone, bool_decide_false by (by intros [? [=]])).
  eapply wp_last_level; [exact Hpt|done|eassumption|]. intros e Hp. wp_step. apply Hfin.
  change (pte (set_if false s) va) with (pte s va) in Hp. rewrite Hp. unfold nonzero.
  by zcases.
Qed.

(** The entry of a mapped page, reached by its address. *)
Lemma checked_spec owner s va (Q : result Z NotMapped -> machine -> Prop) :
  outside va -> pt_inv (mem s) (root_of s) owner ->
  (pte s va = None -> Q (Err NotMapped_) s) ->
  (forall t e, desc (mem s) (root_of s) va 3 = Some t -> pte s va = Some e ->
     word (mem s) t (idxd 3 va) = e -> Q (Ok (entry_addr 3 va)) s) ->
  wp (checked_pml1_entry CURRENT_PML va) Q s.
Proof.
  intros Ho Hpt HN HS. apply wp_section_env. cbv zeta. entry_addrs va.
  apply (pt_inv_if _ false) in Hpt.
  assert (forall r, Q r s -> same_env (set_if false s) (set_if false s) /\
    Q r (set_if (m_if s) (set_if false s))) as Hfin.
  { intros r Hr. split; [done|]. by destruct s. }
  levels; try (intros Hnone; apply Hfin; by apply HN).
  wp_step. eapply wp_load_entry; [exact Hpt|done|lia|eassumption|].
  match goal with H : desc _ _ va 3 = Some ?t |- _ =>
    pose proof (tword_desc _ _ _ _ _ H) as Hp; rename H into Hd end.
  match type of Hp with _ = nonzero ?w => destruct (Z.eqb_spec w 0) as [Hz|Hz] end.
  - rewrite Hz in Hp. wp_step. apply Hfin. by apply HN.
  - wp_step. apply Hfin. eapply HS; [exact Hd| |reflexivity]. etrans; [exact Hp|].
    unfold nonzero. by rewrite (proj2 (Z.eqb_neq _ _)).
Qed.

(** [page::entry]: the word that [&PmlEntry] refers to. *)
Lemma entry_spec owner s va :
  outside va -> pt_inv (mem s) (root_of s) owner ->
  entry va s = Ret (match pte s va with Some e => Ok e | None => Err NotMapped_ end, s).
Proof.
  intros Ho Hpt. enough (wp (entry va) (fun r s' =>
    r = match pte s va with Some e => Ok e | None => Err NotMapped_ end /\ s' = s) s)
    as (r & s' & -> & -> & ->)%wp_iff by done.
  unfold entry. wp_step. eapply checked_spec; [done|exact Hpt|by intros ->|].
  intros t e Hd -> He. wp_step. eapply wp_load_entry; [exact Hpt|done|lia|exact Hd|].
  wp_step. by rewrite He.
Qed.

(** What [unmap] and [modify_page] do to the mapping of [va]. *)
Definition update_post (rs : list PhysRegion) (va : Z) (new : option Z) (s s' : machine) : Prop :=
  pte s' va = new /\
  (forall va', outside va' -> vpage va' <> vpage va -> pte s' va' = pte s va').

Lemma wp_begin_if (f : Critical -> M machine unit) (Q : unit -> machine -> Prop) s :
  wp (f (m_if s)) Q (set_if false s) -> wp (crit ← begin; f crit) Q s.
Proof. intros H. wp_step. by apply wp_begin. Qed.

(** [begin] .. [drop] around a body that keeps the environment. *)
Lemma wp_critical {A} (f : M machine A) (Q : A -> machine -> Prop) s :
  wp f (fun a s' => same_env (set_if false s) s' /\ Q a (set_if (m_if s) s')) (set_if false s) ->
  wp (crit ← begin; r ← f; _ ← drop_critical crit; mret r) Q s.
Proof. apply wp_section_env. Qed.

Lemma unmap_ok rs bs fl owner s va :
  outside va -> vm_inv rs bs fl owner s ->
  (forall e q, pte s va = Some e -> raw_phys e = Some q -> held rs bs fl owner s q) ->
  wp (unmap va) (fun r s' =>
    (exists fl', vm_inv rs bs fl' owner s') /\ same_env s s' /\
    match pte s va ≫= raw_phys with
    | Some q => r = Ok tt /\ update_post rs va None s s' /\
        (forall p, known rs p -> rc_of s' p = rc_of s p - (if decide (p = q) then 1 else 0))
    | None => r = Err NotMapped_ /\ s' = s
    end) s.
Proof.
  intros Ho Hvm Hh. pose proof (vm_pt _ _ _ _ _ Hvm) as Hpt. apply wp_critical.
  assert (set_if (m_if s) (set_if false s) = s) as Hback by (by destruct s).
  wp_step. eapply checked_spec; [done|exact Hpt| |].
  { intros Hp. change (pte s va = None) in Hp. rewrite Hp, Hback. cbn. split_and!; try done.
    by exists fl. }
  intros t e Hd Hp He. change (pte s va = Some e) in Hp. rewrite Hp. cbn [mbind option_bind].
  wp_step. eapply wp_load_entry; [exact Hpt|done|lia|exact Hd|]. rewrite He.
  destruct (raw_phys e) as [q|] eqn:Hq.
  2: { wp_step. rewrite Hback. split_and!; try done. by exists fl. }
  wp_step. wp_call (drop_held rs bs fl owner);
    [|by apply vm_inv_if|by apply held_if, (Hh e)].
  intros [] s1 ((fl' & Hvm1%ev_vm) & Henv1 & Ht1 & Hrc1). wp_step.
  eapply leaf_store; [exact Hvm1|done| |].
  { destruct (Ht1 va 3%nat) as [-> _]; [done|done|exact Hd]. }
  intros s2 Hvm2 Henv2 Hrc2 Hnew Hoth _. wp_step. cbn in *.
  split; [by eapply same_env_trans|].
  split_and!; [exists fl'; by apply vm_inv_if| |done| |].
  - destruct Henv1 as (? & _ & ?), Henv2 as (? & _ & ?). cbn in *. split_and!; cbn; congruence.
  - split; [done|]. intros va' Ho' Hne. etrans; [by apply Hoth|].
    by apply (Ht1 va' 3%nat).
  - intros p Hk. transitivity (rc_of s1 p); [|by apply Hrc1].
    unfold rc_of, rc_load. cbn. by rewrite Hrc2.
Qed.

(** Unmapping a page: if the page has an entry with a frame, the entry is
    cleared, exactly one reference to that frame is released, and no other
    mapping outside the recursive window changes; otherwise nothing changes and
    the error is [NotMapped]. *)
Theorem unmap_spec rs bs fl owner s va :
  outside va -> vm_inv rs bs fl owner s ->
  (forall e q, pte s va = Some e -> raw_phys e = Some q -> held rs bs fl owner s q) ->
  wp (unmap va) (fun r s' =>
    (exists fl', vm_inv rs bs fl' owner s') /\ same_env s s' /\
    match pte s va ≫= raw_phys with
    | Some q => r = Ok tt /\ update_post rs va None s s' /\
        (forall p, known rs p -> rc_of s' p = rc_of s p - (if decide (p = q) then 1 else 0))
    | None => r = Err NotMapped_ /\ s' = s
    end) s.
Proof. apply unmap_ok. Qed.

(** The flags of an entry change, its frame does not. *)
Lemma set_flags_keeps e flg : 0 <= flg < 0x1000 ->
  raw_phys (set_flags e flg) = raw_phys e /\ Z.land (set_flags e flg) 0xfff = flg.
Proof.
  intros Hf. split.
  - unfold raw_phys. assert (Z.land (set_flags e flg) (Z.lnot 0xfff) = page_base e) as ->; [|done].
    apply page_base_lor; [apply page_base_aligned | exact Hf].
  - rewrite land_low_mod. unfold set_flags. rewrite lor_low; [|apply page_base_aligned|exact Hf].
    pose proof (page_base_aligned e). unfold page_aligned, page_base, PAGE_SIZE in *. zdiv.
Qed.

(** Changing the flags of a page rewrites the low bits of its entry, keeps its
    frame, and touches no other mapping; an unmapped page is an error. *)
Theorem modify_spec rs bs fl owner s va flg :
  outside va -> vm_inv rs bs fl owner s -> 0 <= flg < 0x1000 ->
  wp (modify_page va flg) (fun r s' =>
    vm_inv rs bs fl owner s' /\ same_env s s' /\
    match pte s va with
    | Some e => r = Ok tt /\ update_post rs va (nonzero (set_flags e flg)) s s' /\
        raw_phys (set_flags e flg) = raw_phys e /\ Z.land (set_flags e flg) 0xfff = flg
    | None => r = Err NotMapped_ /\ s' = s
    end) s.
Proof.
  intros Ho Hvm Hf. pose proof (vm_pt _ _ _ _ _ Hvm) as Hpt. apply wp_critical.
  assert (set_if (m_if s) (set_if false s) = s) as Hback by (by destruct s).
  wp_step. eapply checked_spec; [done|exact Hpt| |].
  { intros Hp. change (pte s va = None) in Hp. by rewrite Hp, Hback. }
  intros t e Hd Hp He. change (pte s va = Some e) in Hp. rewrite Hp.
  wp_step. eapply wp_load_entry; [exact Hpt|done|lia|exact Hd|]. rewrite He.
  wp_step. eapply leaf_store; [by apply vm_inv_if|done|exact Hd|].
  intros s1 Hvm1 Henv1 Hrc1 Hnew Hoth _. wp_step. split; [done|].
  split_and!; [by apply vm_inv_if| |done|done| |].
  - by destruct Henv1 as (? & _ & ?).
  - by apply set_flags_keeps.
  - by apply set_flags_keeps.
Qed.

(** ** A concrete address space: page 0 is mapped to frame [0x5000] *)

Definition example_tables : gmap Z frame :=
  {[ 0x1000 := FWords {[ 511 := 0x1001; 0 := 0x2007 ]};
     0x2000 := FWords {[ 0 := 0x3007 ]};
     0x3000 := FWords {[ 0 := 0x4007 ]};
     0x4000 := FWords {[ 0 := 0x5007 ]} ]}.

Definition example_owner : gmap Z (nat * Z) :=
  {[ 0x1000 := (0%nat, 0); 0x2000 := (1%nat, 0); 0x3000 := (2%nat, 0); 0x4000 := (3%nat, 0) ]}.

Definition example_vm : machine := set_mem example_tables example_machine.

Ltac lookup_cases H :=
  repeat match type of H with
  | <[_ := _]> _ !! _ = Some _ =>
      apply lookup_insert_Some in H as [[<- H]|[_ H]]; [try injection H as <- <-|]
  | {[ _ := _ ]} !! _ = Some _ => apply lookup_singleton_Some in H as [<- H]; try injection H as <- <-
  end.

Lemma word_at mm t w i : mm !! t = Some (FWords w) -> word mm t i = default 0 (w !! i).
Proof. unfold word. by intros ->. Qed.

Lemma single_word mm t e i :
  mm !! t = Some (FWords {[ 0 := e ]}) -> word mm t i <> 0 -> i = 0.
Proof.
  intros Ht. rewrite (word_at _ _ _ _ Ht). destruct (decide (i = 0)); [done|].
  by rewrite lookup_singleton_ne.
Qed.

Lemma example_pt : pt_inv example_tables 0x1000 example_owner.
Proof.
  split; [done|done| |].
  - intros t n p H. unfold example_owner in H. lookup_cases H;
      (split_and!; [lia|done || (intros; lia)|done|by eexists]).
  - intros t n p i H Hn Hi H511 Hne. unfold example_owner in H. lookup_cases H; try lia;
      [|apply (single_word _ _ 0x3007) in Hne as ->; [done|reflexivity]
       |apply (single_word _ _ 0x4007) in Hne as ->; [done|reflexivity]].
    assert (i = 0) as ->; [|done]. destruct (decide (i = 0)) as [|H0]; [done|]. exfalso.
    apply Hne. rewrite (word_at _ _ {[ 511 := 0x1001; 0 := 0x2007 ]} i) by reflexivity.
    rewrite lookup_insert_ne by (intros <-; by apply H511). by rewrite lookup_singleton_ne.
Qed.

Lemma example_not_known q : ~ (0x100000 <= q < 0x103000) -> ~ known example_regions q.
Proof. intros Hq ([|i] & r & [= <-] & H & _). exact (Hq H). Qed.

Lemma example_vm_inv : vm_inv example_regions [0x100000] [] example_owner example_vm.
Proof.
  pose proof (boot_phys_inv _ _ example_boot) as [Hrs Hb (head & Hn & Hc) He Ht Hok Hlen Hbs Hnd Hfl Hrc].
  split; [split; try done; by exists head|exact example_pt|].
  intros t Hd Hal. assert (phys_inv example_regions [0x100000] [] example_machine) as Hi.
  { exact (boot_phys_inv _ _ example_boot). }
  apply (allocatable_known _ _ _ _ _ Hi) in Hal. revert Hal. apply example_not_known.
  apply elem_of_dom in Hd as [x Hx]. unfold example_owner in Hx. lookup_cases Hx; lia.
Qed.

Lemma example_held q :
  page_aligned q -> q ∉ dom example_owner -> ~ (0x100000 <= q < 0x103000) ->
  held example_regions [0x100000] [] example_owner example_vm q.
Proof. intros Ha Hd Hq. split; [done|done|]. intros Hk. by destruct (example_not_known q Hq). Qed.

Lemma map_spec_witness :
  exists s', map 0x6000 0x1000 7 example_vm = Ret (Ok tt, s') /\ pte s' 0x1000 = Some 0x6007.
Proof.
  assert (wp (map 0x6000 0x1000 7) (map_post example_regions 0x6000 0x1000 7 example_vm) example_vm) as H.
  { apply (map_spec example_regions [0x100000] [] example_owner).
    - by vm_compute.
    - exact example_vm_inv.
    - apply example_held; [done|by vm_compute|lia]. }
  apply wp_iff in H as (r & s' & Hrun & _ & _ & H). exists s'. rewrite Hrun.
  destruct r as [[]|[]].
  - destruct H as (_ & H & _). by rewrite H.
  - destruct H as ([e' He'] & _). by vm_compute in He'.
  - exfalso. assert (exists u, map 0x6000 0x1000 7 example_vm = Ret (Ok tt, u)) as [u Hu]
      by (eexists; vm_compute; reflexivity).
    rewrite Hrun in Hu. discriminate.
Defined.

Lemma is_mapped_spec_witness : is_mapped 0x0 example_vm = Ret (true, example_vm).
Proof. rewrite (is_mapped_spec example_owner); [done|by vm_compute|exact example_pt]. Defined.

Lemma unmap_spec_witness :
  exists s', unmap 0 example_vm = Ret (Ok tt, s') /\ pte s' 0 = None.
Proof.
  pose proof (unmap_spec example_regions [0x100000] [] example_owner example_vm 0) as H.
  assert (pte example_vm 0 = Some 0x5007) as Hp by (by vm_compute).
  apply wp_iff in H as (r & s' & Hrun & _ & _ & H);
    [|by vm_compute|exact example_vm_inv|].
  - rewrite Hp in H. destruct H as (-> & [H _] & _). by exists s'.
  - intros e q He Hq. rewrite Hp in He. injection He as <-. injection Hq as <-.
    apply example_held; [done|by vm_compute|]. vm_compute. intuition congruence.
Defined.

Lemma modify_spec_witness :
  exists s', modify_page 0 5 example_vm = Ret (Ok tt, s') /\ pte s' 0 = Some 0x5005.
Proof.
  pose proof (modify_spec example_regions [0x100000] [] example_owner example_vm 0 5) as H.
  assert (pte example_vm 0 = Some 0x5007) as Hp by (by vm_compute).
  apply wp_iff in H as (r & s' & Hrun & _ & _ & H);
    [|by vm_compute|exact example_vm_inv|lia].
  rewrite Hp in H. destruct H as (-> & [H _] & _). by exists s'.
Defined.
