(* ===== verification/UserMem.v ===== *)
(** * UserMem: validation of user pointers ([kernel/src/mem/user.rs])

    System calls pass addresses and lengths from user space; this module turns
    them into page ranges and checks the pages against the tables. *)

From S2P Require Import Prelude Interface Sync Machine Phys Page PageSpec.

Definition MAX_USER_ADDR : Z := 0x0000800000000000.

Definition validate_page_align (addr : Z) : result unit SysError :=
  if negb (Z.land addr (PAGE_SIZE - 1) =? 0) then Err BadPointer else Ok tt.

Record PageRange := PageRange_ { base_page : Z; page_count : Z }.

Definition PageRange_new (p : profile) (base_page page_count : Z) :
  outcome (result PageRange SysError) :=
  match checked_mul page_count PAGE_SIZE with
  | None => Ret (Err MemoryExhausted)
  | Some byte_len =>
      match validate_page_align base_page with
      | Err e => Ret (Err e)
      | Ok _ =>
          if MAX_USER_ADDR <? base_page then Ret (Err BadPointer)
          else
            last ← u64_add p base_page byte_len;
            if MAX_USER_ADDR <? last then Ret (Err BadPointer)
            else Ret (Ok (PageRange_ base_page page_count))
      end
  end.

Definition PageRange_containing (p : profile) (start_addr byte_len : Z) :
  outcome (result PageRange SysError) :=
  let first_page_offset := start_addr `mod` PAGE_SIZE in
  base_page ← u64_sub p start_addr first_page_offset;
  match checked_add byte_len first_page_offset with
  | None => Ret (Err MemoryExhausted)
  | Some byte_len =>
      let last_page_extent := byte_len `mod` PAGE_SIZE in
      last_page_padding ←
        (if last_page_extent =? 0 then Ret 0 else u64_sub p PAGE_SIZE last_page_extent);
      match checked_add byte_len last_page_padding with
      | None => Ret (Err MemoryExhausted)
      | Some byte_len => PageRange_new p base_page (byte_len / PAGE_SIZE)
      end
  end.

(** [pages]: the iterator runs over the indices [0..page_count] and computes the
    address of each when it is reached. *)
Definition page_indices (r : PageRange) : list Z := Z.of_nat <$> seq 0 (Z.to_nat (page_count r)).

Definition page_addr (r : PageRange) (index : Z) : M machine Z :=
  offset ← mul64 index PAGE_SIZE;
  add64 (base_page r) offset.

Definition pages_try (f : Z -> M machine (result unit SysError)) (r : PageRange) :
  M machine (result unit SysError) :=
  for_each_try (fun i => addr ← page_addr r i; f addr) (page_indices r).

Section validate.
Context `{Bitflags}.

Definition validate_map (r : PageRange) (fl : Z) : M machine (result unit SysError) :=
  pages_try (fun addr =>
    ent ← entry addr;
    valid ← match ent with
            | Ok e => f ← lift (flags e); mret (contains f fl)
            | Err _ => mret false
            end;
    if negb valid then mret (Err BadPointer) else mret (Ok tt)) r.

Definition validate_available (r : PageRange) : M machine (result unit SysError) :=
  pages_try (fun addr =>
    ent ← entry addr;
    if is_ok ent then mret (Err Interface.AlreadyMapped) else mret (Ok tt)) r.

Definition containing (addr len : Z) : M machine (result PageRange SysError) :=
  fun s => lift (PageRange_containing (build s) addr len) s.

Definition validate_read (addr len : Z) : M machine (result unit SysError) :=
  page_range ←? containing addr len;
  validate_map page_range 0.

Definition validate_write (addr len : Z) : M machine (result unit SysError) :=
  page_range ←? containing addr len;
  validate_map page_range WRITE.

(** A slice is its address and number of elements; [size] is [size_of::<T>()]. *)
Definition borrow_slice (size addr len : Z) : M machine (result (Z * Z) SysError) :=
  match checked_mul len size with
  | None => mret (Err BadPointer)
  | Some byte_len => _ ←? validate_read addr byte_len; mret (Ok (addr, len))
  end.

Definition borrow_slice_mut (size addr len : Z) : M machine (result (Z * Z) SysError) :=
  match checked_mul len size with
  | None => mret (Err BadPointer)
  | Some byte_len => _ ←? validate_write addr byte_len; mret (Ok (addr, len))
  end.

Definition borrow (size addr : Z) : M machine (result Z SysError) :=
  slice ←? borrow_slice size addr size;
  if snd slice =? 0 then panic "index out of bounds" else mret (Ok (fst slice)).
End validate.

(** ** Ranges *)

Definition round_up (a : Z) : Z := (a + 4095) / 4096 * 4096.

Lemma page_align_spec addr :
  validate_page_align addr = if bool_decide (page_aligned addr) then Ok tt else Err BadPointer.
Proof.
  unfold validate_page_align. change (PAGE_SIZE - 1) with 0xfff. rewrite land_low_mod.
  unfold page_aligned. case_bool_decide as Ha; zcases; done || lia.
Qed.

Lemma PageRange_new_spec p base count :
  0 <= base -> 0 <= count -> base + count * 4096 < u64_limit ->
  PageRange_new p base count =
  Ret (if bool_decide (page_aligned base /\ base + count * 4096 <= MAX_USER_ADDR)
       then Ok (PageRange_ base count) else Err BadPointer).
Proof.
  intros Hb Hc Hlim. unfold PageRange_new, checked_mul, PAGE_SIZE.
  rewrite bool_decide_true by lia. rewrite page_align_spec.
  destruct (bool_decide_reflect (page_aligned base)) as [Ha|Ha].
  2: { by rewrite bool_decide_false by naive_solver. }
  destruct (Z.ltb_spec MAX_USER_ADDR base).
  { rewrite bool_decide_false; [done|]. lia. }
  unfold u64_add. rewrite arith_exact by (unfold in_u64; lia). cbn.
  destruct (Z.ltb_spec MAX_USER_ADDR (base + count * 4096));
    [rewrite bool_decide_false | rewrite bool_decide_true]; done || lia.
Qed.

Definition OVERFLOW : string := "attempt to add with overflow".

(** The arguments for which [PageRange::new] computes the end of the range with an
    overflow: the number of bytes is one of 64 bits, the end is not. *)
Definition range_overflows (base count : Z) : Prop :=
  page_aligned base /\ base <= MAX_USER_ADDR /\ count * 4096 < u64_limit <= base + count * 4096.
#[export] Instance range_overflows_dec base count : Decision (range_overflows base count).
Proof. unfold range_overflows, page_aligned. apply _. Defined.

(** The range, or what is wrong with it, by exact arithmetic. *)
Definition range_result (base count : Z) : result PageRange SysError :=
  if u64_limit <=? count * 4096 then Err MemoryExhausted
  else if bool_decide (page_aligned base /\ base + count * 4096 <= MAX_USER_ADDR) then Ok (PageRange_ base count)
  else Err BadPointer.

Lemma PageRange_new_exact p base count : in_u64 base -> in_u64 count -> ~ range_overflows base count ->
  PageRange_new p base count = Ret (range_result base count).
Proof.
  intros [Hb _] [Hc _] Hno. unfold range_result. destruct (Z.leb_spec u64_limit (count * 4096)).
  { unfold PageRange_new, checked_mul, PAGE_SIZE. by rewrite bool_decide_false by lia. }
  destruct (decide (base + count * 4096 < u64_limit)); [by apply PageRange_new_spec|].
  rewrite bool_decide_false by (u64; unfold MAX_USER_ADDR; lia).
  unfold PageRange_new, checked_mul, PAGE_SIZE. rewrite bool_decide_true by lia. rewrite page_align_spec.
  destruct (bool_decide_reflect (page_aligned base)) as [Ha|Ha]; [|done].
  destruct (Z.ltb_spec MAX_USER_ADDR base); [done|]. destruct Hno. unfold range_overflows. split_and!; (done || lia).
Qed.

Lemma PageRange_new_overflow p base count : in_u64 base -> in_u64 count -> range_overflows base count ->
  PageRange_new p base count =
  match p with Debug => Panic OVERFLOW | Release => Ret (Ok (PageRange_ base count)) end.
Proof.
  intros [Hb _] [Hc _] (Ha & Hmax & Hlim & Hover). unfold PageRange_new, checked_mul, PAGE_SIZE.
  rewrite bool_decide_true by lia. rewrite page_align_spec, bool_decide_true by done.
  rewrite (proj2 (Z.ltb_ge _ _)) by done. unfold u64_add, arith. rewrite bool_decide_false by lia.
  destruct p; [done|]. cbn [mbind outcome_bind].
  assert (wrap64 (base + count * 4096) = base + count * 4096 - u64_limit) as ->.
  { unfold wrap64. symmetry. apply (Z.mod_unique _ _ 1); [left|lia]. u64. unfold MAX_USER_ADDR in Hmax. lia. }
  by rewrite (proj2 (Z.ltb_ge _ _)) by lia.
Qed.

Lemma range_result_user base count r : in_u64 base -> in_u64 count -> range_result base count = Ok r ->
  r = PageRange_ base count.
Proof. intros _ _. unfold range_result. repeat case_match; by intros [= <-]. Qed.

(** The length of the smallest range of pages around [start .. start + len]: from the
    page of the first byte to the end of the page of the last. *)
Definition span (start len : Z) : Z := round_up (len + start `mod` 4096).

Lemma span_top start len : page_base start + span start len = round_up (start + len).
Proof. rewrite page_base_sub. unfold span, round_up, PAGE_SIZE. zdiv. Qed.

Lemma containing_exact p start len : in_u64 start -> in_u64 len ->
  PageRange_containing p start len =
  if u64_limit <=? span start len then Ret (Err MemoryExhausted)
  else PageRange_new p (page_base start) (span start len / 4096).
Proof.
  intros [Hs Hs'] [Hl Hl']. unfold PageRange_containing. cbv zeta. unfold PAGE_SIZE, span.
  pose proof (Z.mod_pos_bound start 0x1000 ltac:(lia)) as Hmod.
  pose proof (Z.mod_le start 0x1000 Hs ltac:(lia)) as Hle.
  unfold u64_sub. rewrite arith_exact by (u64; lia). rewrite (page_base_sub start). unfold PAGE_SIZE.
  cbn [mbind outcome_bind]. unfold checked_add. set (n := len + start `mod` 0x1000).
  assert (n <= round_up n) as Hup by (unfold round_up; zdiv).
  destruct (bool_decide_reflect (n < u64_limit)) as [Hn|Hn].
  2:{ by rewrite (proj2 (Z.leb_le _ _)) by lia. }
  assert (exists pad, (if n `mod` 0x1000 =? 0 then Ret 0
            else arith p "attempt to subtract with overflow" (0x1000 - n `mod` 0x1000)) = Ret pad /\
          n + pad = round_up n) as (pad & -> & Hpad).
  { pose proof (Z.mod_pos_bound n 0x1000 ltac:(lia)). unfold round_up. destruct (Z.eqb_spec (n `mod` 0x1000) 0).
    - exists 0. split; [done|zdiv].
    - exists (0x1000 - n `mod` 0x1000). rewrite arith_exact by (u64; lia). split; [done|zdiv]. }
  cbn [mbind outcome_bind]. rewrite Hpad. destruct (Z.leb_spec u64_limit (round_up n)).
  - by rewrite bool_decide_false by lia.
  - by rewrite bool_decide_true by lia.
Qed.

(** ** Walking a range *)

(** The page addresses of a range in user space. *)
Definition page_list (r : PageRange) : list Z :=
  (fun i => base_page r + i * 4096) <$> page_indices r.

Definition user_range (r : PageRange) : Prop :=
  page_aligned (base_page r) /\ 0 <= base_page r /\ 0 <= page_count r /\
  base_page r + page_count r * 4096 <= MAX_USER_ADDR.

Lemma elem_of_page_list r a :
  0 <= page_count r ->
  a ∈ page_list r <-> exists i, 0 <= i < page_count r /\ a = base_page r + i * 4096.
Proof.
  intros Hc. unfold page_list, page_indices. rewrite <- list_fmap_compose, list_elem_of_fmap.
  split.
  - intros (i & -> & Hi%elem_of_seq). exists (Z.of_nat i). cbn. split; lia.
  - intros (i & Hi & ->). exists (Z.to_nat i). rewrite elem_of_seq. cbn. split; [f_equal|]; lia.
Qed.

(** A test of each page that changes nothing. *)
Lemma pages_try_pure (f : Z -> M machine (result unit SysError)) (g : Z -> bool) e r s :
  user_range r ->
  (forall a, a ∈ page_list r -> f a s = Ret (if g a then Ok tt else Err e, s)) ->
  pages_try f r s = Ret (if forallb g (page_list r) then Ok tt else Err e, s).
Proof.
  intros (_ & Hb & Hc & Hmax) Hf. unfold pages_try, page_list in *.
  assert (forall i, i ∈ page_indices r -> 0 <= i < page_count r) as Hidx.
  { intros i Hi. unfold page_indices in Hi. apply list_elem_of_fmap in Hi as (n & -> & Hn%elem_of_seq).
    lia. }
  induction (page_indices r) as [|i is' IH]; [done|]. cbn [for_each_try fmap list_fmap forallb].
  unfold try at 1, mbind at 1, M_bind. unfold page_addr at 1, mbind, M_bind.
  destruct (Hidx i ltac:(left)) as [Hi0 Hi1]. unfold MAX_USER_ADDR in Hmax.
  assert (mul64 i PAGE_SIZE s = Ret (i * 4096, s)) as ->.
  { unfold mul64, lift, u64_mul. rewrite arith_exact; [done|]. unfold PAGE_SIZE. u64. lia. }
  assert (add64 (base_page r) (i * 4096) s = Ret (base_page r + i * 4096, s)) as ->.
  { unfold add64, lift, u64_add. rewrite arith_exact; [done|]. u64. lia. }
  cbn [fmap list_fmap] in Hf. rewrite Hf by left.
  destruct (g _); cbn [andb]; [|done]. apply IH.
  - intros a Ha. apply Hf. by right.
  - intros j Hj. apply Hidx. by right.
Qed.

Lemma user_outside va : 0 <= va < MAX_USER_ADDR -> outside va.
Proof. unfold outside, MAX_USER_ADDR. intros H. rewrite idxd0. pow2s. zdiv. Qed.

Lemma page_list_outside r a : user_range r -> a ∈ page_list r -> outside a.
Proof.
  intros (_ & Hb & Hc & Hmax) (i & Hi & ->)%elem_of_page_list; [|done].
  apply user_outside. lia.
Qed.

Section validation.
Context `{!Bitflags, !BitflagsLaws _}.
Context (owner : gmap Z (nat * Z)) (s : machine) (Hpt : pt_inv (mem s) (root_of s) owner).

(** Entries hold flags that [PageFlags] defines. *)
Definition entries_valid : Prop :=
  forall va e, pte s va = Some e -> Z.land (Z.land e 0xfff) (Z.lnot PageFlags_all) = 0.

Definition mapped_with (fl va : Z) : bool :=
  match pte s va with Some e => Z.land (Z.land e 0xfff) fl =? fl | None => false end.

Lemma validate_map_run r fl :
  entries_valid -> user_range r ->
  validate_map r fl s =
    Ret (if forallb (mapped_with fl) (page_list r) then Ok tt else Err BadPointer, s).
Proof using All.
  intros Hv Hr. apply pages_try_pure; [done|]. intros a Ha.
  unfold mbind, M_bind. rewrite (entry_spec owner) by (done || by eapply page_list_outside).
  unfold mapped_with. destruct (pte s a) as [e|] eqn:He; [|done]. cbn.
  unfold flags. rewrite from_bits_some by (by eapply Hv). cbn. rewrite contains_spec.
  by destruct (_ =? fl).
Qed.

Lemma validate_available_run r :
  user_range r ->
  validate_available r s =
    Ret (if forallb (fun a => bool_decide (pte s a = None)) (page_list r)
         then Ok tt else Err Interface.AlreadyMapped, s).
Proof using All.
  intros Hr. apply pages_try_pure; [done|]. intros a Ha. unfold mbind, M_bind.
  rewrite (entry_spec owner) by (done || by eapply page_list_outside).
  by destruct (pte s a).
Qed.
End validation.

(** The pages of the range around [addr .. addr + len]. *)
Definition covered (addr len va : Z) : Prop := page_base addr <= va < round_up (addr + len).

Lemma round_up_base addr len :
  0 <= addr -> 0 <= len -> page_base addr <= round_up (addr + len) /\
  (round_up (addr + len) - page_base addr) / 4096 * 4096 = round_up (addr + len) - page_base addr.
Proof.
  intros. rewrite page_base_sub. unfold round_up, PAGE_SIZE. split; zdiv.
Qed.

Lemma covered_pages addr len (P : Z -> Prop) :
  0 <= addr -> 0 <= len -> (forall va va', vpage va = vpage va' -> P va -> P va') ->
  let r := PageRange_ (page_base addr) ((round_up (addr + len) - page_base addr) / 4096) in
  (forall a, a ∈ page_list r -> P a) <-> (forall va, covered addr len va -> P va).
Proof.
  intros Ha Hl HP. cbv zeta.
  destruct (round_up_base addr len Ha Hl) as [Hle Hdiv]. pose proof (page_base_aligned addr) as Hal.
  set (n := (round_up (addr + len) - page_base addr) / 4096) in *.
  unfold covered. split.
  - intros H va Hva. apply (HP (page_base va)); [apply vpage_page_base|]. apply H.
    apply elem_of_page_list; [cbn; lia|]. cbn [base_page page_count].
    exists ((page_base va - page_base addr) / 4096). rewrite (page_base_sub va).
    unfold page_aligned, PAGE_SIZE in *. split; zdiv.
  - intros H a (i & Hi & ->)%elem_of_page_list; [|cbn; lia]. cbn [base_page page_count] in *.
    apply H. lia.
Qed.

Section borrowing.
Context `{!Bitflags, !BitflagsLaws _}.
Context (owner : gmap Z (nat * Z)) (s : machine) (Hpt : pt_inv (mem s) (root_of s) owner).
Context (Hv : entries_valid s).

Definition accessible (fl addr byte_len : Z) : Prop :=
  round_up (addr + byte_len) <= MAX_USER_ADDR /\
  forall va, covered addr byte_len va -> mapped_with s fl va = true.

(** The addresses and lengths for which the end of the range of pages overflows. *)
Definition slice_overflows (addr byte_len : Z) : Prop :=
  page_base addr <= MAX_USER_ADDR /\ span addr byte_len < u64_limit <= round_up (addr + byte_len).
#[export] Instance slice_overflows_dec addr n : Decision (slice_overflows addr n).
Proof using Type. unfold slice_overflows. apply _. Defined.

(** What is wrong with a slice that may not be borrowed. *)
Definition slice_error (addr byte_len : Z) : SysError :=
  if u64_limit <=? byte_len then BadPointer
  else if u64_limit <=? span addr byte_len then MemoryExhausted else BadPointer.

Lemma span_pages addr n : in_u64 addr -> 0 <= n ->
  in_u64 (page_base addr) /\ 0 <= span addr n /\ span addr n / 4096 * 4096 = span addr n /\
  round_up (addr + n) = page_base addr + span addr n.
Proof using Type.
  intros [Ha Ha'] Hn. rewrite <- span_top, page_base_sub. unfold span, round_up, PAGE_SIZE, in_u64, u64_limit in *.
  pose proof (Z.mod_pos_bound addr 0x1000 ltac:(lia)). split_and!; try done; zdiv.
Qed.

Lemma span_overflows addr n : in_u64 addr -> 0 <= n -> span addr n < u64_limit ->
  slice_overflows addr n <-> range_overflows (page_base addr) (span addr n / 4096).
Proof using Type.
  intros Ha Hn Hlim. destruct (span_pages addr n Ha Hn) as (_ & _ & Hdiv & Htop).
  unfold slice_overflows, range_overflows. rewrite Hdiv, Htop. pose proof (page_base_aligned addr). naive_solver lia.
Qed.

Lemma validate_run fl addr len : in_u64 addr -> in_u64 len -> ~ slice_overflows addr len ->
  exists r, (page_range ←? containing addr len; validate_map page_range fl) s = Ret (r, s) /\
    (r = Ok tt <-> accessible fl addr len) /\ (r = Ok tt \/ r = Err (slice_error addr len)).
Proof using All.
  intros Ha [Hl Hl'] Hno. destruct (span_pages addr len Ha Hl) as (Hb & Hs0 & Hdiv & Htop).
  unfold try, mbind, M_bind. unfold containing at 1, lift, slice_error, accessible.
  rewrite containing_exact by done. rewrite (proj2 (Z.leb_gt _ _) Hl'). destruct (Z.leb_spec u64_limit (span addr len)).
  { eexists. split; [done|]. split; [|by right]. split; [done|]. intros [Hmax _]. u64. unfold MAX_USER_ADDR in Hmax. lia. }
  rewrite PageRange_new_exact; [|done|u64; split; [apply Z.div_pos; lia|zdiv]|by rewrite <- span_overflows].
  unfold range_result. rewrite Hdiv, (proj2 (Z.leb_gt _ _)), <- Htop by lia.
  destruct (bool_decide_reflect (page_aligned (page_base addr) /\ round_up (addr + len) <= MAX_USER_ADDR)) as [[_ Hmax]|Hmax].
  2: { eexists. split; [done|]. split; [|by right]. split; [done|]. intros [? _]. destruct Hmax. split; [apply page_base_aligned|done]. }
  set (r := PageRange_ _ _).
  rewrite (validate_map_run owner s Hpt r fl Hv).
  2: { split_and!; cbn; [apply page_base_aligned|apply Hb|apply Z.div_pos; lia|lia]. }
  eexists. split; [done|].
  assert (forallb (mapped_with s fl) (page_list r) = true <->
    forall va, covered addr len va -> mapped_with s fl va = true) as Hiff.
  { rewrite <- covered_pages by (done || apply Ha || (intros va va' Hvp; unfold mapped_with; by rewrite (pte_vpage s va va' Hvp))).
    replace (round_up (addr + len) - page_base addr) with (span addr len) by lia.
    rewrite forallb_forall. by setoid_rewrite <- list_elem_of_In. }
  destruct (forallb _ _); (split; [|tauto]); split; try done.
  - intros _. split; [done|]. by apply Hiff.
  - intros [_ Hall%Hiff]. done.
Qed.

Lemma validate_overflow fl addr len : in_u64 addr -> in_u64 len -> slice_overflows addr len -> build s = Debug ->
  (page_range ←? containing addr len; validate_map page_range fl) s = Panic OVERFLOW.
Proof using Type.
  intros Ha [Hl Hl'] Hover Hd. destruct (span_pages addr len Ha Hl) as (Hb & Hs0 & Hdiv & Htop).
  pose proof Hover as (_ & Hlim & _). unfold try, mbind, M_bind. unfold containing at 1, lift.
  rewrite containing_exact by done. rewrite (proj2 (Z.leb_gt _ _)) by lia.
  rewrite PageRange_new_overflow, Hd; [done|done|u64; split; [apply Z.div_pos; lia|zdiv]|by apply span_overflows].
Qed.
End borrowing.

(** What a borrow of [len] elements of [size] bytes does: [fl] are the flags the pages
    must have. *)
Definition borrow_post (borrow : M machine (result (Z * Z) SysError)) (s : machine) (fl addr len size : Z) : Prop :=
  (slice_overflows addr (len * size) -> build s = Debug -> borrow s = Panic OVERFLOW) /\
  (~ slice_overflows addr (len * size) -> exists r, borrow s = Ret (r, s) /\
     (r = Ok (addr, len) <-> accessible s fl addr (len * size)) /\
     (r = Ok (addr, len) \/ r = Err (slice_error addr (len * size)))).

Lemma borrow_ok `{!Bitflags, !BitflagsLaws _} owner s fl size addr len :
  pt_inv (mem s) (root_of s) owner -> entries_valid s -> in_u64 addr -> in_u64 len -> 0 <= size ->
  borrow_post (match checked_mul len size with
    | None => mret (Err BadPointer)
    | Some byte_len => _ ←? (page_range ←? containing addr byte_len; validate_map page_range fl); mret (Ok (addr, len))
    end) s fl addr len size.
Proof.
  intros Hpt Hv Ha [Hl Hl'] Hs. assert (0 <= len * size) as Hn by (apply Z.mul_nonneg_nonneg; lia).
  unfold borrow_post, checked_mul. destruct (bool_decide_reflect (len * size < u64_limit)) as [Hlim|Hlim].
  - split; [intros Hover Hd|intros Hno].
    + unfold try at 1, mbind at 1, M_bind at 1. by rewrite validate_overflow.
    + destruct (validate_run owner s Hpt Hv fl addr (len * size)) as (r & Hrun & Hiff & Hcase); [done..|].
      rewrite (try_run _ _ _ _ _ Hrun). destruct r as [[]|e]; eexists; (split; [reflexivity|]); rewrite <- Hiff; naive_solver.
  - destruct (span_pages addr (len * size) Ha Hn) as (_ & Hs0 & _ & Htop).
    assert (u64_limit <= span addr (len * size)).
    { pose proof (Z.mod_pos_bound addr 4096 ltac:(lia)). unfold span, round_up. zdiv. }
    split; [unfold slice_overflows; lia|]. intros _. exists (Err BadPointer). split; [done|].
    unfold slice_error, accessible. rewrite (proj2 (Z.leb_le _ _)) by lia. split; [|by right].
    split; [done|]. intros [Hmax _]. destruct Ha as [Ha _]. rewrite Htop, page_base_sub in Hmax.
    u64. unfold MAX_USER_ADDR, PAGE_SIZE in *. zdiv.
Qed.

(** C13: borrowing a user slice, for any 64-bit address and number of elements: if the
    end of the range of pages around it overflows although its length does not, a debug
    build panics ([PageRange_overflow] says what a release build accepts).  In every
    other case [borrow_slice] and [borrow_slice_mut] return without a page fault or a
    panic and change nothing; they return the slice exactly when every page it touches
    lies below [MAX_USER_ADDR] and is mapped (writable, for the mutable borrow), and
    otherwise [MemoryExhausted] when the length of the range is not one of 64 bits, and
    [BadPointer] else. *)
Theorem borrow_slice_spec `{!Bitflags, !BitflagsLaws _} owner s size addr len :
  pt_inv (mem s) (root_of s) owner -> entries_valid s -> in_u64 addr -> in_u64 len -> 0 <= size ->
  borrow_post (borrow_slice_mut size addr len) s WRITE addr len size /\
  borrow_post (borrow_slice size addr len) s 0 addr len size.
Proof. intros. split; by eapply borrow_ok. Qed.

(** C40: [PageRange::new] for every 64-bit base and number of pages: by exact arithmetic
    it makes the range, or names what is wrong with it, unless the addition of the length
    to the base overflows, which is not checked: such a range is never one of user space;
    a debug build panics, and a release build accepts it. *)
Theorem PageRange_overflow p base count : in_u64 base -> in_u64 count ->
  (~ range_overflows base count -> PageRange_new p base count = Ret (range_result base count) /\
     (is_ok (range_result base count) = true <-> user_range (PageRange_ base count))) /\
  (range_overflows base count -> ~ user_range (PageRange_ base count) /\
     PageRange_new p base count =
       match p with Debug => Panic OVERFLOW | Release => Ret (Ok (PageRange_ base count)) end).
Proof.
  intros Hb Hc. split; intros Hover.
  - split; [by apply PageRange_new_exact|]. unfold range_result, user_range. cbn. destruct Hb, Hc.
    destruct (Z.leb_spec u64_limit (count * 4096)); [split; [done|]; u64; unfold MAX_USER_ADDR; lia|].
    case_bool_decide; cbn; naive_solver lia.
  - split; [|by apply PageRange_new_overflow]. intros (_ & _ & _ & H). cbn in H.
    destruct Hover as (_ & _ & _ & Hover). u64. unfold MAX_USER_ADDR in H. lia.
Qed.

Lemma PageRange_overflow_witness :
  PageRange_new Debug 0x1000 (2 ^ 52 - 1) = Panic OVERFLOW /\
  PageRange_new Release 0x1000 (2 ^ 52 - 1) = Ret (Ok (PageRange_ 0x1000 (2 ^ 52 - 1))) /\
  PageRange_new Debug 0x1000 4 = Ret (Ok (PageRange_ 0x1000 4)).
Proof.
  assert (range_overflows 0x1000 (2 ^ 52 - 1)) as Hover by (by vm_compute).
  assert (~ range_overflows 0x1000 4) as Hno by (intros (_ & _ & _ & H); by vm_compute in H).
  split_and!.
  - by apply (PageRange_overflow Debug 0x1000 (2 ^ 52 - 1)).
  - by apply (PageRange_overflow Release 0x1000 (2 ^ 52 - 1)).
  - apply (PageRange_overflow Debug 0x1000 4); done.
Defined.

Lemma example_words t i :
  Z.land (Z.land (word example_tables t i) 0xfff) (Z.lnot PageFlags_all) = 0.
Proof.
  unfold word. destruct (example_tables !! t) as [f|] eqn:Ht; [|done].
  assert (exists w, f = FWords w /\ forall e, w !! i = Some e ->
    Z.land (Z.land e 0xfff) (Z.lnot PageFlags_all) = 0) as (w & -> & Hw).
  { unfold example_tables in Ht. lookup_cases Ht; (try subst f);
      (eexists; split; [reflexivity|]); intros e He; lookup_cases He; by subst. }
  destruct (w !! i) as [e|] eqn:He; [by apply Hw|done].
Qed.

Lemma example_entries_valid : entries_valid example_vm.
Proof.
  intros va e He. unfold pte, tword in He.
  destruct (desc _ _ va 3) as [t|]; [|done]. apply nonzero_some in He as [<- _].
  apply example_words.
Qed.

Lemma borrow_slice_spec_witness :
  exists r, borrow_slice_mut (H := bitflags_crate) 8 0x10 3 example_vm = Ret (r, example_vm) /\
    r = Ok (0x10, 3).
Proof.
  destruct (borrow_slice_spec (H := bitflags_crate) (BitflagsLaws0 := bitflags_crate_laws)
    example_owner example_vm 8 0x10 3) as [[_ H] _];
    [exact example_pt|exact example_entries_valid|by vm_compute|by vm_compute|lia|].
  destruct H as (r & Hrun & Hiff & _). { intros (_ & _ & Hover). by vm_compute in Hover. }
  exists r. split; [exact Hrun|]. apply Hiff. split; [by vm_compute|].
  intros va Hva. change (covered 16 24 va) in Hva. unfold covered in Hva.
  change (page_base 16) with 0 in Hva. change (round_up (16 + 24)) with 4096 in Hva.
  unfold mapped_with. rewrite (pte_vpage example_vm va 0); [by vm_compute|].
  unfold vpage. pow2s. zdiv.
Defined.
