(* ===== verification/PhysInit.v ===== *)
(** * PhysInit: setting up the frame allocator ([kernel/src/mem/phys.rs])

    [phys_init] turns the memory map of the BIOS into the regions and bump
    pointers the allocator works on, and maps the pages that hold the reference
    counts.  The fixed-capacity vectors are the [arrayvec] crate's. *)

From S2P Require Import Prelude Sync Machine Phys Page PageSpec.

(** The [arrayvec] crate (third party): [push] panics on a full vector,
    [try_push] returns the element. *)
Class ArrayVec := {
  push : forall {A}, nat -> list A -> A -> outcome (list A);
  try_push : forall {A}, nat -> list A -> A -> result (list A) A
}.

Class ArrayVecLaws (AV : ArrayVec) : Prop := {
  push_room : forall A cap (l : list A) x, (length l < cap)%nat -> push cap l x = Ret (l ++ [x]);
  push_full : forall A cap (l : list A) x, (cap <= length l)%nat -> exists m, push cap l x = Panic m;
  try_push_room : forall A cap (l : list A) x, (length l < cap)%nat -> try_push cap l x = Ok (l ++ [x]);
  try_push_full : forall A cap (l : list A) x, (cap <= length l)%nat -> try_push cap l x = Err x
}.

Definition arrayvec_crate : ArrayVec := {|
  push A cap l x := if decide (length l < cap)%nat then Ret (l ++ [x]) else Panic "CapacityError";
  try_push A cap l x := if decide (length l < cap)%nat then Ok (l ++ [x]) else Err x
|}.

Lemma arrayvec_crate_laws : ArrayVecLaws arrayvec_crate.
Proof.
  split; cbn; intros A cap l x Hl; case_decide; try lia; try done. by eexists.
Qed.

Definition REGION_KIND_USABLE : Z := 1.
Definition REGIONS_CAP : nat := 8.

Record BiosMemoryRegion := Bios { bm_begin : Z; bm_size : Z; bm_kind : Z }.

Section init.
Context `{ArrayVec}.

(** The loop over the memory map, up to the [break]. *)
Fixpoint collect (p : profile) (boundary : Z) (map : list BiosMemoryRegion)
    (phys_regions : list PhysRegion) (phys_bump_alloc : list Z) :
    outcome (list PhysRegion * list Z) :=
  match map with
  | [] => Ret (phys_regions, phys_bump_alloc)
  | region :: map =>
      if negb (bm_kind region =? REGION_KIND_USABLE) then
        collect p boundary map phys_regions phys_bump_alloc
      else
        let region_begin := bm_begin region in
        region_end ← u64_add p (bm_begin region) (bm_size region);
        if region_end <? boundary then collect p boundary map phys_regions phys_bump_alloc
        else
          let region_begin := if region_begin <? boundary then boundary else region_begin in
          phys_regions ← push REGIONS_CAP phys_regions (Region region_begin region_end);
          match try_push REGIONS_CAP phys_bump_alloc region_begin with
          | Ok phys_bump_alloc => collect p boundary map phys_regions phys_bump_alloc
          | Err _ => Ret (phys_regions, phys_bump_alloc)
          end
  end.

Context (phys_rc : Z).   (* the address of [_phys_rc] *)

Definition ensure_rc_page (phys : Z) : M machine unit :=
  r ← ref_count phys;
  match r with
  | None => mret tt
  | Some slot =>
      let ref_count_page := page_base (phys_rc + 8 * slot) in
      mapped ← is_mapped ref_count_page;
      if mapped : bool then mret tt
      else
        r ← alloc;
        phys ← expect_ok r "phys::alloc in phys_init";
        r ← map phys ref_count_page (Z.lor PRESENT WRITE);
        expect_ok r "page::map in phys_init"
  end.

(** [while phys < region.end], with fuel. *)
Fixpoint rc_region (fuel : nat) (phys rend : Z) : M machine unit :=
  if phys <? rend then
    match fuel with
    | O => ub "out of fuel"
    | S fuel =>
        _ ← ensure_rc_page phys;
        phys ← add64 phys PAGE_SIZE;
        rc_region fuel phys rend
    end
  else mret tt.

Definition region_fuel (r : PhysRegion) : nat := Z.to_nat ((rend r - rbegin r) / PAGE_SIZE + 1).

Definition EarlyInit_regions (rs : list PhysRegion) : M machine unit := fun s =>
  match EarlyInit_set (regions s) rs with
  | Ret e => Ret (tt, set_regions e s) | Panic m => Panic m | UB m => UB m
  end.
Definition EarlyInit_bump (bs : Mutex (list Z)) : M machine unit := fun s =>
  match EarlyInit_set (bump s) bs with
  | Ret e => Ret (tt, set_bump e s) | Panic m => Panic m | UB m => UB m
  end.

(** The sum printed as free memory. *)
Fixpoint free_bytes (rs : list PhysRegion) : M machine Z :=
  match rs with
  | [] => mret 0
  | r :: rs => n ← sub64 (rend r) (rbegin r); m ← free_bytes rs; add64 n m
  end.

Definition phys_init (bios_memory_map : list BiosMemoryRegion) (high_memory_boundary : Z) :
  M machine unit :=
  _ ← temp_reset;
  p ← gets build;
  rb ← lift (collect p high_memory_boundary bios_memory_map [] []);
  _ ← EarlyInit_regions (fst rb);
  _ ← EarlyInit_bump (Mutex_new (snd rb));
  _ ← free_bytes (fst rb);
  _ ← for_each (fun r => rc_region (region_fuel r) (rbegin r) (rend r)) (fst rb);
  for_each (fun i =>
    raw_phys ← mul64 (Z.of_nat i) PAGE_SIZE;
    ensure_rc_page raw_phys) (seq 0 (Z.to_nat (high_memory_boundary / PAGE_SIZE))).
End init.

(** ** The regions *)

Section regions.
Context `{!ArrayVec, !ArrayVecLaws _}.

Definition usable (boundary : Z) (r : BiosMemoryRegion) : bool :=
  (bm_kind r =? REGION_KIND_USABLE) && (boundary <=? bm_begin r + bm_size r).

Definition clip (boundary : Z) (r : BiosMemoryRegion) : PhysRegion :=
  Region (Z.max boundary (bm_begin r)) (bm_begin r + bm_size r).

(** The regions of a memory map: its usable parts above the boundary, in order. *)
Definition regions_of (boundary : Z) (map : list BiosMemoryRegion) : list PhysRegion :=
  clip boundary <$> base.filter (fun r => Is_true (usable boundary r)) map.

(** What the BIOS must report: sizes that do not overflow; and at and above the boundary,
    usable areas that do not overlap, end below 2^48 and begin and end at a page.  Nothing is
    asked of the areas below the boundary: low memory may end within a page. *)
Record bios_ok (boundary : Z) (map : list BiosMemoryRegion) : Prop := {
  bios_range : forall r, r ∈ map -> 0 <= bm_begin r /\ 0 <= bm_size r /\
    bm_begin r + bm_size r < u64_limit;
  bios_aligned : forall r, r ∈ map -> bm_kind r = REGION_KIND_USABLE -> boundary <= bm_begin r + bm_size r ->
    (boundary <= bm_begin r -> page_aligned (bm_begin r)) /\ page_aligned (bm_begin r + bm_size r) /\
    bm_begin r + bm_size r <= MAX_PHYS_PAGE;
  bios_disjoint : forall i j r r' p, map !! i = Some r -> map !! j = Some r' ->
    bm_kind r = REGION_KIND_USABLE -> bm_kind r' = REGION_KIND_USABLE -> boundary <= p ->
    bm_begin r <= p < bm_begin r + bm_size r ->
    bm_begin r' <= p < bm_begin r' + bm_size r' -> i = j
}.

Lemma collect_run p boundary map rs bs :
  (forall r, r ∈ map -> 0 <= bm_begin r /\ 0 <= bm_size r /\ bm_begin r + bm_size r < u64_limit) ->
  length bs = length rs ->
  (length rs + length (regions_of boundary map) <= REGIONS_CAP)%nat ->
  collect p boundary map rs bs =
  Ret (rs ++ regions_of boundary map, bs ++ (rbegin <$> regions_of boundary map)).
Proof using All.
  intros Hb. revert rs bs. induction map as [|r map IH]; intros rs bs Hl Hc.
  { cbn. by rewrite !app_nil_r. }
  destruct (Hb r ltac:(left)) as (Hr0 & Hs0 & Hlim).
  assert (forall x, x ∈ map -> 0 <= bm_begin x /\ 0 <= bm_size x /\ bm_begin x + bm_size x < u64_limit)
    as Hb' by (intros x Hx; apply Hb; by right).
  unfold regions_of in *. cbn [collect]. rewrite filter_cons in *. unfold usable in *.
  destruct (Z.eqb_spec (bm_kind r) REGION_KIND_USABLE); cbn [negb andb] in *.
  2: { rewrite decide_False in * by (intros []). by apply IH. }
  unfold u64_add. rewrite arith_exact by (u64; lia). cbn [mbind outcome_bind].
  destruct (Z.ltb_spec (bm_begin r + bm_size r) boundary).
  { rewrite (proj2 (Z.leb_gt _ _)) in * by done. rewrite decide_False in * by (intros []).
    by apply IH. }
  rewrite (proj2 (Z.leb_le _ _)) in * by done. rewrite decide_True in * by done.
  rewrite fmap_cons in *. cbn [length fmap list_fmap] in *.
  rewrite push_room by lia. cbn [mbind outcome_bind]. rewrite try_push_room by lia.
  rewrite IH; [|done|rewrite !length_app; cbn; lia|rewrite !length_app; cbn; lia].
  rewrite <- !app_assoc. unfold clip at 1 3. cbn.
  do 2 f_equal; f_equal; f_equal; [f_equal|]; zcases; lia.
Qed.

Lemma collect_panics p boundary map rs bs :
  (forall r, r ∈ map -> 0 <= bm_begin r /\ 0 <= bm_size r /\ bm_begin r + bm_size r < u64_limit) ->
  length bs = length rs -> (length rs <= REGIONS_CAP)%nat ->
  (REGIONS_CAP < length rs + length (regions_of boundary map))%nat ->
  exists m, collect p boundary map rs bs = Panic m.
Proof using All.
  intros Hb. revert rs bs. induction map as [|r map IH]; intros rs bs Hl Hc Hmore.
  { cbn in Hmore. lia. }
  destruct (Hb r ltac:(left)) as (Hr0 & Hs0 & Hlim).
  assert (forall x, x ∈ map -> 0 <= bm_begin x /\ 0 <= bm_size x /\ bm_begin x + bm_size x < u64_limit)
    as Hb' by (intros x Hx; apply Hb; by right).
  unfold regions_of in *. cbn [collect]. rewrite filter_cons in *. unfold usable in *.
  destruct (Z.eqb_spec (bm_kind r) REGION_KIND_USABLE); cbn [negb andb] in *.
  2: { rewrite decide_False in * by (intros []). by apply IH. }
  unfold u64_add. rewrite arith_exact by (u64; lia). cbn [mbind outcome_bind].
  destruct (Z.ltb_spec (bm_begin r + bm_size r) boundary).
  { rewrite (proj2 (Z.leb_gt _ _)) in * by done. rewrite decide_False in * by (intros []).
    by apply IH. }
  rewrite (proj2 (Z.leb_le _ _)) in * by done. rewrite decide_True in * by done.
  cbn [length fmap list_fmap] in *.
  destruct (decide (length rs < REGIONS_CAP)%nat) as [Hroom|Hfull].
  - rewrite push_room by done. cbn [mbind outcome_bind]. rewrite try_push_room by lia.
    apply IH; [done|rewrite !length_app; cbn; lia..].
  - destruct (push_full _ REGIONS_CAP rs
      (Region (if bm_begin r <? boundary then boundary else bm_begin r) (bm_begin r + bm_size r)))
      as [m Hm]; [lia|]. exists m. by rewrite Hm.
Qed.
End regions.

Lemma elem_of_regions boundary map r :
  r ∈ regions_of boundary map <->
  exists b, b ∈ map /\ usable boundary b = true /\ r = clip boundary b.
Proof.
  unfold regions_of. rewrite list_elem_of_fmap. split.
  - intros (b & -> & [Hu Hb]%list_elem_of_filter). exists b. split_and!; [done| |done].
    by apply Is_true_true.
  - intros (b & Hb & Hu & ->). exists b. split; [done|]. apply list_elem_of_filter.
    split; [by apply Is_true_true|done].
Qed.

(** Filtering keeps distinct positions distinct. *)
Lemma filter_lookup_inj {A} (P : A -> Prop) `{!forall x, Decision (P x)} (l : list A) i j x y :
  base.filter P l !! i = Some x -> base.filter P l !! j = Some y -> i <> j ->
  exists i' j', l !! i' = Some x /\ l !! j' = Some y /\ i' <> j'.
Proof.
  revert i j. induction l as [|z l IH]; intros i j; [done|].
  rewrite filter_cons. destruct (decide (P z)).
  - destruct i as [|i], j as [|j]; cbn; intros Hx Hy Hne; try done.
    + injection Hx as ->. apply list_elem_of_lookup_2, list_elem_of_filter in Hy as [_ Hy].
      apply list_elem_of_lookup in Hy as [k Hk]. by exists 0%nat, (S k).
    + injection Hy as ->. apply list_elem_of_lookup_2, list_elem_of_filter in Hx as [_ Hx].
      apply list_elem_of_lookup in Hx as [k Hk]. by exists (S k), 0%nat.
    + destruct (IH i j Hx Hy ltac:(congruence)) as (i' & j' & ? & ? & ?).
      exists (S i'), (S j'). split_and!; (done || congruence).
  - intros Hx Hy Hne. destruct (IH i j Hx Hy Hne) as (i' & j' & ? & ? & ?).
    exists (S i'), (S j'). split_and!; (done || congruence).
Qed.

Lemma regions_of_ok boundary map :
  bios_ok boundary map -> page_aligned boundary -> 0 < boundary ->
  regions_ok (regions_of boundary map).
Proof.
  intros [Hr Ha Hd] Hal Hpos. split.
  - intros i r Hi. apply list_elem_of_lookup_2, elem_of_regions in Hi as (b & Hb & Hu & ->).
    unfold usable in Hu. apply andb_true_iff in Hu as [Hk%Z.eqb_eq Hle%Z.leb_le].
    destruct (Ha b Hb Hk Hle) as (Hab & Has & Hmax), (Hr b Hb) as (? & ? & _).
    unfold clip in *. cbn. split_and!; [|exact Has|lia|lia|done].
    destruct (Z.max_spec boundary (bm_begin b)) as [[? ->]|[? ->]]; [apply Hab; lia|done].
  - intros i j r r' p Hi Hj Hp Hp'. destruct (decide (i = j)) as [|Hne]; [done|]. exfalso.
    unfold regions_of in Hi, Hj. rewrite list_lookup_fmap in Hi, Hj.
    destruct (base.filter _ map !! i) as [b|] eqn:Hbi; [|done].
    destruct (base.filter _ map !! j) as [b'|] eqn:Hbj; [|done].
    injection Hi as <-. injection Hj as <-.
    assert (forall k x, base.filter (fun r => Is_true (usable boundary r)) map !! k = Some x ->
      bm_kind x = REGION_KIND_USABLE) as Hkind.
    { intros k x Hx. apply list_elem_of_lookup_2, list_elem_of_filter in Hx as [Hu _].
      unfold usable in Hu. apply Is_true_true, andb_true_iff in Hu as [Hu _]. by apply Z.eqb_eq. }
    destruct (filter_lookup_inj _ _ _ _ _ _ Hbi Hbj Hne) as (i' & j' & Hi' & Hj' & Hne').
    apply Hne', (Hd i' j' b b' p); eauto; unfold clip in Hp, Hp'; cbn in Hp, Hp'; lia.
Qed.

(** C32: the loop of [phys_init] over the memory map of the BIOS: when the usable areas that
    reach the boundary begin and end at a page there and do not overlap, and at most eight of
    them do, the loop ends, in either build, with exactly the usable memory above the
    boundary: the regions satisfy the invariant the allocator needs, every bump pointer
    starts at its region, and no frame below the boundary (the kernel image and the boot
    page tables) is in a region. *)
Theorem collect_spec `{!ArrayVec, !ArrayVecLaws _} p boundary map :
  bios_ok boundary map -> page_aligned boundary -> 0 < boundary ->
  (length (regions_of boundary map) <= REGIONS_CAP)%nat ->
  exists rs, collect p boundary map [] [] = Ret (rs, rbegin <$> rs) /\ regions_ok rs /\
    forall q, known rs q <->
      page_aligned q /\ boundary <= q /\ exists r, r ∈ map /\ bm_kind r = REGION_KIND_USABLE /\
        bm_begin r <= q < bm_begin r + bm_size r.
Proof.
  intros Hb Hal Hpos Hlen. exists (regions_of boundary map). split_and!.
  - rewrite collect_run; [done|apply Hb|done|done].
  - by apply regions_of_ok.
  - intros q. unfold known. split.
    + intros (i & r & Hi & Hq & Haq).
      apply list_elem_of_lookup_2, elem_of_regions in Hi as (b & Hbm & Hu & ->).
      unfold usable in Hu. apply andb_true_iff in Hu as [Hk%Z.eqb_eq Hle%Z.leb_le].
      unfold clip in Hq. cbn in Hq. split_and!; [done|lia|].
      exists b. split_and!; (done || lia).
    + intros (Haq & Hbq & b & Hbm & Hk & Hq).
      assert (clip boundary b ∈ regions_of boundary map) as Hin.
      { apply elem_of_regions. exists b. split_and!; [done| |done]. unfold usable.
        rewrite Hk, Z.eqb_refl. cbn. lia. }
      apply list_elem_of_lookup in Hin as [i Hi]. exists i, (clip boundary b).
      split_and!; [done|cbn; lia|cbn; lia|done].
Qed.

(** The ninth usable region stops the kernel: [phys_regions.push] runs before
    the capacity test of [try_push], so the loop panics where the [break] for an
    exceeded capacity was meant to stop it. *)
Theorem collect_ninth `{!ArrayVec, !ArrayVecLaws _} p boundary map :
  (forall r, r ∈ map -> 0 <= bm_begin r /\ 0 <= bm_size r /\ bm_begin r + bm_size r < u64_limit) ->
  (REGIONS_CAP < length (regions_of boundary map))%nat ->
  exists m, collect p boundary map [] [] = Panic m.
Proof. intros Hb Hlen. apply collect_panics; try done. cbn. lia. Qed.

(** The map of a PC with 128 MiB, as QEMU reports it: low memory ends within a page. *)
Definition example_bios : list BiosMemoryRegion :=
  [Bios 0 0x9fc00 1; Bios 0x9fc00 0x400 2; Bios 0xf0000 0x10000 2; Bios 0x100000 0x7ee0000 1;
   Bios 0x7fe0000 0x20000 2; Bios 0xfffc0000 0x40000 2].

Lemma example_bios_ok : bios_ok 0x200000 example_bios.
Proof.
  split.
  - intros r Hr. repeat (apply elem_of_cons in Hr as [->|Hr]; [u64; cbn; lia|]).
    by rewrite elem_of_nil in Hr.
  - intros r Hr Hk Hb. repeat (apply elem_of_cons in Hr as [->|Hr];
      [cbn in Hk, Hb; try lia; split_and!; (done || (vm_compute; done))|]). by rewrite elem_of_nil in Hr.
  - intros i j r r' q Hi Hj Hk Hk' Hq Hr Hr'. unfold example_bios in *.
    do 6 (destruct i as [|i]; [injection Hi as <-; cbn in Hk, Hr; try lia;
      do 6 (destruct j as [|j]; [injection Hj as <-; cbn in Hk', Hr'; (done || lia)|]); done|]). done.
Qed.

Lemma collect_spec_witness :
  exists rs, collect (H := arrayvec_crate) Debug 0x200000 example_bios [] [] = Ret (rs, rbegin <$> rs) /\
    rs = [Region 0x200000 0x7fe0000].
Proof.
  destruct (collect_spec (H := arrayvec_crate) (ArrayVecLaws0 := arrayvec_crate_laws)
    Debug 0x200000 example_bios) as (rs & Hrun & _).
  - exact example_bios_ok.
  - done.
  - lia.
  - vm_compute. lia.
  - exists rs. split; [exact Hrun|]. vm_compute in Hrun. by injection Hrun as <-.
Defined.

Lemma collect_ninth_witness :
  exists m, collect (H := arrayvec_crate) Debug 0x200000
    (replicate 9 (Bios 0x200000 0x1000 1)) [] [] = Panic m.
Proof.
  apply (collect_ninth (H := arrayvec_crate) (ArrayVecLaws0 := arrayvec_crate_laws)).
  - intros r Hr. apply elem_of_replicate_inv in Hr as ->. by vm_compute.
  - vm_compute. lia.
Defined.
