(* ===== verification/Kheap.v ===== *)
(** * Kheap: the kernel heap ([kernel/src/mem/kalloc.rs])

    Nine size classes, each a free list threaded through the free objects
    themselves.  The heap takes its pages from a page source; what it relies on
    is the interface [PageSource], which [Kvirt] implements for the page
    allocator of [kernel/src/mem/kvirt.rs].

    Memory is read and written a word at a time through the page source, which decides
    whether an access faults; a free object holds its [Option<NonNull<FreeObject>>] in
    its first word, null being 0. *)

From S2P Require Import Prelude Sync Machine.

(** What the words of memory hold, by the addresses of their bytes; [None] where an
    access faults. *)
#[local] Abbreviation vmem := (Z -> option Z).

(** [core::alloc::Layout] *)
Record Layout := Layout_ { layout_size : Z; layout_align : Z }.

Definition enc (p : option Z) : Z := default 0 p.
Definition dec (w : Z) : option Z := if w =? 0 then None else Some w.

Record SizeClass := SizeClass_ { size : Z; free : option Z }.
Definition SizeClass_new (size : Z) : SizeClass := SizeClass_ size None.

Abbreviation Allocator := (list SizeClass).
Definition Allocator_new : Allocator :=
  SizeClass_new <$> [16; 32; 64; 128; 256; 512; 1024; 2048; 4096].

Definition fits (l : Layout) (c : SizeClass) : bool :=
  (layout_size l <=? size c) && (layout_align l <=? size c).

(** The bytes of the pages. *)
Definition in_pages (pgs : list Z) (a : Z) : Prop := exists p, p ∈ pgs /\ p <= a < p + 4096.

(** The memory after the word at [a] has been written. *)
Definition written (pgs : list Z) (v : vmem) (a w : Z) (v' : vmem) : Prop :=
  forall b, in_pages pgs b -> v' b = if decide (a <= b < a + 8) then Some w else v b.

(** The page source: the pages handed out so far are its ghost argument. *)
Class PageSource (S : Type) := {
  vword : S -> vmem;
  vread : Z -> M S Z;
  vwrite : Z -> Z -> M S unit;
  alloc_page : M S (result Z unit);
  pages_inv : list Z -> S -> Prop;
  page_room : S -> Prop;   (* address space is left for one more page *)
  pages_ok : forall out s p, pages_inv out s -> p ∈ out -> p `mod` 4096 = 0 /\ 0 < p;
  pages_nodup : forall out s, pages_inv out s -> NoDup out;
  vread_ok : forall out s a, pages_inv out s -> in_pages out a -> (8 | a) ->
    exists w, vread a s = Ret (w, s) /\ vword s a = Some w;
  vwrite_ok : forall out s a w, pages_inv out s -> in_pages out a -> (8 | a) ->
    exists s', vwrite a w s = Ret (tt, s') /\ pages_inv out s' /\ written out (vword s) a w (vword s');
  alloc_page_spec : forall out s, pages_inv out s -> page_room s ->
    wp alloc_page (fun r s' =>
      (forall a, in_pages out a -> vword s' a = vword s a) /\
      match r with
      | Ok p => pages_inv (p :: out) s'
      | Err _ => pages_inv out s'
      end) s
}.

Section heap.
Context {S : Type} `{PageSource S}.

(** [ptr::write_bytes(ptr, 0, n)], for a whole number of words. *)
Definition write_zero (ptr n : Z) : M S unit :=
  for_each (fun k => vwrite (ptr + 8 * Z.of_nat k) 0) (seq 0 (Z.to_nat (n / 8))).

(** [FreeObject::take] on the head [next]: the object and the new head. *)
Definition take (next : option Z) : M S (option Z * option Z) :=
  match next with
  | None => mret (None, None)
  | Some next =>
      w ← vread next;
      _ ← vwrite next 0;
      mret (Some next, dec w)
  end.

Definition add_free (c : SizeClass) (ptr : Z) : M S SizeClass :=
  _ ← vwrite ptr (enc (free c));
  mret (SizeClass_ (size c) (Some ptr)).

Fixpoint add_all (c : SizeClass) (ptrs : list Z) : M S SizeClass :=
  match ptrs with
  | [] => mret c
  | ptr :: ptrs => c ← add_free c ptr; add_all c ptrs
  end.

(** [(0..PAGE_SIZE).step_by(size)] *)
Definition offsets (size : Z) : list Z :=
  (fun k => Z.of_nat k * size) <$> seq 0 (Z.to_nat ((PAGE_SIZE + size - 1) / size)).

(** The class is [&mut self]: it is passed and returned. *)
Definition alloc_uninitialized (c : SizeClass) : M S (result Z unit * SizeClass) :=
  '(ptr, next) ← take (free c);
  match ptr with
  | Some ptr => mret (Ok ptr, SizeClass_ (size c) next)
  | None =>
      let c := SizeClass_ (size c) next in
      r ← alloc_page;
      match r with
      | Err e => mret (Err e, c)
      | Ok new_page =>
          c ← add_all c ((fun offset => new_page + offset) <$> offsets (size c));
          '(ptr, next) ← take (free c);
          match ptr with
          | Some ptr => mret (Ok ptr, SizeClass_ (size c) next)
          | None => panic "alloc_uninitialized: self.free.take() should always be Some"
          end
      end
  end.

Definition class_alloc (c : SizeClass) : M S (result Z unit * SizeClass) :=
  '(r, c) ← alloc_uninitialized c;
  match r with
  | Err e => mret (Err e, c)
  | Ok ptr => _ ← write_zero ptr (size c); mret (Ok ptr, c)
  end.

Definition class_free (c : SizeClass) (ptr : Z) : M S SizeClass := add_free c ptr.

(** [Allocator::class]: the first class that fits. *)
Definition class (al : Allocator) (l : Layout) : option (nat * SizeClass) :=
  list_find (fun c => Is_true (fits l c)) al.

Definition NO_CLASS : string := "no size class for layout".

Definition alloc_layout (al : Allocator) (l : Layout) : M S (result Z unit * Allocator) :=
  match class al l with
  | None => panic NO_CLASS
  | Some (i, c) => '(r, c) ← class_alloc c; mret (r, <[i := c]> al)
  end.

Definition free_layout (al : Allocator) (l : Layout) (ptr : Z) : M S Allocator :=
  match class al l with
  | None => panic NO_CLASS
  | Some (i, c) => c ← class_free c ptr; mret (<[i := c]> al)
  end.

End heap.

(** [GlobalAlloc], on the static [ALLOCATOR]; [pages] is the state of the page
    source. *)
Section global.
Context {K S : Type} `{PageSource S} `{!HasCpu K}.
Context (pages : lens K S) (ALLOCATOR : lens K (Mutex Allocator)).

Definition global_alloc (l : Layout) : M K (result Z unit) :=
  with_lock ALLOCATOR (
    al ← deref ALLOCATOR;
    '(r, al) ← zoom pages (alloc_layout al l);
    _ ← assign ALLOCATOR al;
    mret r).

Definition global_dealloc (ptr : Z) (l : Layout) : M K unit :=
  with_lock ALLOCATOR (
    al ← deref ALLOCATOR;
    al ← zoom pages (free_layout al l ptr);
    assign ALLOCATOR al).
End global.

(** ** Free lists *)

Fixpoint chain (vm : vmem) (head : option Z) (fl : list Z) : Prop :=
  match fl with
  | [] => head = None
  | p :: fl => head = Some p /\ p <> 0 /\ exists w, vm p = Some w /\ chain vm (dec w) fl
  end.

Lemma dec_enc head vm fl : chain vm head fl -> dec (enc head) = head.
Proof.
  destruct fl as [|p fl]; cbn; [by intros ->|]. intros (-> & Hp & _).
  unfold dec, enc. cbn. by rewrite (proj2 (Z.eqb_neq _ _)).
Qed.

Lemma chain_ext vm vm' head fl :
  (forall p, p ∈ fl -> vm' p = vm p) -> chain vm head fl -> chain vm' head fl.
Proof.
  revert head. induction fl as [|p fl IH]; intros head Heq; [done|].
  intros (-> & Hp & w & Hw & Hc). split_and!; [done..|]. exists w. rewrite Heq by left. split; [done|].
  apply IH; [|done]. intros q Hq. apply Heq. by right.
Qed.

(** ** Blocks *)

Definition class_size_ok (sz : Z) : Prop := 0 < sz /\ (sz | 4096) /\ (8 | sz).

Definition page_blocks (sz pg : Z) : list Z := (fun offset => pg + offset) <$> offsets sz.

Definition blocks (sz : Z) (pgs : list Z) : list Z := pgs ≫= page_blocks sz.

Lemma elem_of_offsets sz o :
  class_size_ok sz -> o ∈ offsets sz <-> exists k, o = k * sz /\ 0 <= o < 4096.
Proof.
  intros (Hsz & [m Hm] & _). unfold offsets, PAGE_SIZE. rewrite list_elem_of_fmap.
  assert ((0x1000 + sz - 1) / sz = m) as ->.
  { symmetry. apply (Z.div_unique _ _ _ (sz - 1)); lia. }
  setoid_rewrite elem_of_seq. split.
  - intros (k & -> & Hk). exists (Z.of_nat k). split; [done|]. nia.
  - intros (k & -> & Hk). exists (Z.to_nat k). assert (0 <= k < m) by nia. split; [f_equal|]; lia.
Qed.

Lemma NoDup_offsets sz : class_size_ok sz -> NoDup (offsets sz).
Proof.
  intros [Hsz _]. apply NoDup_fmap_2_strong; [|apply NoDup_seq].
  intros x y _ _ Heq. nia.
Qed.

Lemma elem_of_page_blocks sz pg b :
  class_size_ok sz ->
  b ∈ page_blocks sz pg <-> exists k, b = pg + k * sz /\ pg <= b < pg + 4096.
Proof.
  intros Hsz. unfold page_blocks. rewrite list_elem_of_fmap.
  setoid_rewrite elem_of_offsets; [|done]. split.
  - intros (o & -> & k & -> & Ho). exists k. split; [done|lia].
  - intros (k & -> & Hk). exists (k * sz). split; [done|]. exists k. split; [done|lia].
Qed.

Lemma NoDup_page_blocks sz pg : class_size_ok sz -> NoDup (page_blocks sz pg).
Proof.
  intros H. apply NoDup_fmap_2_strong; [|by apply NoDup_offsets]. intros; lia.
Qed.

Definition pages_aligned (pgs : list Z) : Prop := forall p, p ∈ pgs -> p `mod` 4096 = 0 /\ 0 < p.

Lemma elem_of_blocks sz pgs b :
  b ∈ blocks sz pgs <-> exists pg, pg ∈ pgs /\ b ∈ page_blocks sz pg.
Proof. unfold blocks. rewrite list_elem_of_bind. naive_solver. Qed.

Lemma blocks_aligned sz pgs b :
  class_size_ok sz -> pages_aligned pgs -> b ∈ blocks sz pgs -> (sz | b) /\ 0 < b.
Proof.
  intros Hsz Hp (pg & Hpg & (k & -> & Hk)%elem_of_page_blocks)%elem_of_blocks; [|done].
  destruct (Hp pg Hpg) as [Ha Hpos], Hsz as (Hsz & [m Hm] & _). split; [|lia].
  apply Z.divide_add_r; [|by apply Z.divide_factor_r].
  exists (pg / 4096 * m). rewrite <- Z.mul_assoc, <- Hm. zdiv.
Qed.

(** Blocks of one size never overlap. *)
Lemma aligned_disjoint sz a b x :
  0 < sz -> (sz | a) -> (sz | b) -> a <= x < a + sz -> b <= x < b + sz -> a = b.
Proof. intros Hsz [i ->] [j ->] Ha Hb. assert (i = j) as ->; [nia|done]. Qed.

Lemma page_of_block pgs sz b x :
  class_size_ok sz -> b ∈ blocks sz pgs -> b <= x < b + sz ->
  exists pg, pg ∈ pgs /\ pg <= x < pg + 4096.
Proof.
  intros Hsz (pg & Hpg & (k & -> & Hk)%elem_of_page_blocks)%elem_of_blocks; [|done].
  intros Hx. exists pg. split; [done|]. destruct Hsz as (Hsz & [m Hm] & _).
  assert (k < m) by nia. nia.
Qed.

Lemma aligned_pages_disjoint a b x :
  a `mod` 4096 = 0 -> b `mod` 4096 = 0 -> a <= x < a + 4096 -> b <= x < b + 4096 -> a = b.
Proof. intros. zdiv. Qed.

Lemma NoDup_blocks sz pgs :
  class_size_ok sz -> pages_aligned pgs -> NoDup pgs -> NoDup (blocks sz pgs).
Proof.
  intros Hsz Ha. induction 1 as [|pg pgs Hni Hnd IH]; [constructor|].
  cbn. apply NoDup_app. split_and!.
  - by apply NoDup_page_blocks.
  - intros b (k & -> & Hk)%elem_of_page_blocks; [|done]. intros Hb.
    apply elem_of_blocks in Hb as (pg' & Hpg' & (k' & Heq & Hk')%elem_of_page_blocks); [|done].
    assert (pg = pg') as <-; [|done].
    apply (aligned_pages_disjoint pg pg' (pg + k * sz)); [apply Ha; left|apply Ha; by right|lia|lia].
  - apply IH. intros p Hp. apply Ha. by right.
Qed.

(** ** One class *)

Section class_proofs.
Context {S : Type} `{PageSource S}.

(** [pgs] the pages of the class, [fl] its free blocks, [lv] its live ones. *)
Record class_inv (s : S) (c : SizeClass) (pgs fl lv : list Z) : Prop := {
  ci_size : class_size_ok (size c);
  ci_chain : chain (vword s) (free c) fl;
  ci_blocks : fl ++ lv ≡ₚ blocks (size c) pgs
}.

Lemma class_inv_ext s s' c c' pgs fl lv : size c' = size c -> free c' = free c ->
  (forall p, p ∈ fl -> vword s' p = vword s p) -> class_inv s c pgs fl lv -> class_inv s' c' pgs fl lv.
Proof. intros Hs Hf Hv [Hsz Hc Hb]. split; rewrite ?Hs, ?Hf; [done|by eapply chain_ext|done]. Qed.

Lemma chain_nonzero v head fl p : chain v head fl -> p ∈ fl -> p <> 0.
Proof using Type.
  revert head. induction fl as [|q fl IH]; intros head; [by intros _ ?%elem_of_nil|].
  intros (-> & Hq & w & _ & Hc) [->|Hp]%elem_of_cons; [done|]. by eapply IH.
Qed.

(** Words at different aligned addresses are different words. *)
Lemma written_other pgs v a w v' q : written pgs v a w v' -> in_pages pgs q -> ~ (a <= q < a + 8) -> v' q = v q.
Proof using Type. intros Hw Hq Hne. by rewrite (Hw q Hq), decide_False. Qed.

Lemma word_apart a q : (8 | a) -> (8 | q) -> q <> a -> ~ (a <= q < a + 8).
Proof using Type. intros [x ->] [y ->] Hne. lia. Qed.

(** Where the words of the pages [out] may be. *)
Definition word_addr (out : list Z) (p : Z) : Prop := in_pages out p /\ (8 | p) /\ p <> 0.

Lemma wp_take_pop (Q : option Z * option Z -> S -> Prop) out s p fl :
  pages_inv out s -> word_addr out p -> chain (vword s) (Some p) (p :: fl) ->
  (forall next s', chain (vword s) next fl -> pages_inv out s' -> written out (vword s) p 0 (vword s') ->
     Q (Some p, next) s') ->
  wp (take (Some p)) Q s.
Proof.
  intros Hi (Hin & Ha & _) (_ & Hp & w & Hw & Hc) HQ. unfold take.
  destruct (vread_ok out s p Hi Hin Ha) as (w' & Hr & Hw'). assert (w' = w) as -> by congruence.
  wp_step. eapply wp_run; [exact Hr|]. destruct (vwrite_ok out s p 0 Hi Hin Ha) as (s' & Hs & Hi' & Hwr).
  wp_step. eapply wp_run; [exact Hs|]. wp_step. by apply HQ.
Qed.

Lemma wp_add_all out (Q : SizeClass -> S -> Prop) c fl ptrs s :
  pages_inv out s -> chain (vword s) (free c) fl -> NoDup ptrs ->
  (forall p, p ∈ fl -> word_addr out p) -> (forall p, p ∈ ptrs -> word_addr out p /\ p ∉ fl) ->
  (forall c' s', size c' = size c -> pages_inv out s' -> chain (vword s') (free c') (reverse ptrs ++ fl) ->
     (forall a, in_pages out a -> (forall p, p ∈ ptrs -> ~ (p <= a < p + 8)) -> vword s' a = vword s a) ->
     Q c' s') ->
  wp (add_all c ptrs) Q s.
Proof.
  revert c fl s Q. induction ptrs as [|p ptrs IH]; intros c fl s Q Hi Hc Hnd Hfl Hp HQ.
  - apply wp_ret. by apply HQ.
  - apply NoDup_cons_inv in Hnd as [Hni Hnd]. destruct (Hp p ltac:(left)) as [(Hin & Ha & Hp0) Hpf].
    cbn [add_all]. unfold add_free. destruct (vwrite_ok out s p (enc (free c)) Hi Hin Ha) as (s1 & Hs & Hi1 & Hwr).
    wp_step. wp_step. eapply wp_run; [exact Hs|]. wp_step.
    apply (IH _ (p :: fl)); [done| |done| | |].
    + split_and!; [done..|]. exists (enc (free c)). rewrite (Hwr p Hin), decide_True by lia. split; [done|].
      rewrite (dec_enc _ _ _ Hc). eapply chain_ext; [|exact Hc]. intros q Hq. destruct (Hfl q Hq) as (Hqi & Hqa & _).
      eapply written_other; [exact Hwr|done|]. apply word_apart; [done..|]. by intros ->.
    + intros q [->|Hq]%elem_of_cons; [done|by apply Hfl].
    + intros q Hq. destruct (Hp q ltac:(by right)) as [? ?]. split; [done|]. intros [->|?]%elem_of_cons; done.
    + intros c' s' Hsz Hi' Hc' Heq. apply HQ; [done|done| |].
      * rewrite reverse_cons, <- app_assoc. exact Hc'.
      * intros a Hai Hap. rewrite Heq; [|done|intros q Hq; apply Hap; by right].
        eapply written_other; [exact Hwr|done|]. apply Hap. left.
Qed.

Lemma wp_write_zero out (Q : unit -> S -> Prop) ptr n s :
  pages_inv out s -> (8 | ptr) -> (8 | n) -> (forall a, ptr <= a < ptr + n -> in_pages out a) ->
  (forall s', pages_inv out s' ->
     (forall b, in_pages out b -> vword s' b = if decide (ptr <= b < ptr + n) then Some 0 else vword s b) -> Q tt s') ->
  wp (write_zero ptr n) Q s.
Proof.
  intros Hi Ha [m ->] Hin HQ. unfold write_zero. rewrite Z.div_mul by lia.
  assert (forall len k s1, (k + len)%nat = Z.to_nat m -> pages_inv out s1 ->
    (forall b, in_pages out b -> vword s1 b = if decide (ptr <= b < ptr + 8 * Z.of_nat k) then Some 0 else vword s b) ->
    wp (for_each (fun k => vwrite (ptr + 8 * Z.of_nat k) 0) (seq k len)) Q s1) as Hloop.
  { intros len. induction len as [|len IH]; intros k s1 Hk Hi1 Hv; cbn [seq for_each].
    - apply wp_ret, HQ; [done|]. intros b Hb. rewrite (Hv b Hb). repeat case_decide; (done || lia).
    - destruct (vwrite_ok out s1 (ptr + 8 * Z.of_nat k) 0 Hi1) as (s2 & Hs & Hi2 & Hwr).
      + apply Hin. lia.
      + apply Z.divide_add_r; [done|apply Z.divide_factor_l].
      + wp_step. eapply wp_run; [exact Hs|]. apply IH; [lia|done|]. intros b Hb. rewrite (Hwr b Hb), (Hv b Hb).
        repeat case_decide; (done || lia). }
  apply (Hloop _ 0%nat); [done|done|]. intros b _. by rewrite decide_False by lia.
Qed.

(** What an allocation from a class guarantees. *)
Definition class_post (out : list Z) (s : S) (c : SizeClass) (pgs fl lv : list Z)
    (rc : result Z unit * SizeClass) (s' : S) : Prop :=
  size rc.2 = size c /\
  match rc.1 with
  | Err _ => class_inv s' rc.2 pgs fl lv /\ pages_inv out s' /\ (forall a, in_pages out a -> vword s' a = vword s a)
  | Ok p => exists new fl',
      class_inv s' rc.2 (new ++ pgs) fl' (p :: lv) /\ pages_inv (new ++ out) s' /\
      (forall a, p <= a < p + size c -> vword s' a = Some 0) /\
      (forall a, in_pages out a -> (forall b, b ∈ fl -> ~ (b <= a < b + size c)) -> vword s' a = vword s a)
  end.

Section pop.
Context (out : list Z) (s : S) (c : SizeClass) (pgs : list Z) (p : Z) (fl lv : list Z).
Context (Hci : class_inv s c pgs (p :: fl) lv) (Hpi : pages_inv out s) (Hsub : pgs ⊆ out) (Hnd : NoDup pgs).

Lemma pop_aligned : pages_aligned pgs.
Proof using Hpi Hsub. intros q Hq. eapply pages_ok; [exact Hpi|]. by apply Hsub. Qed.

Lemma pop_block q : q ∈ p :: fl -> q ∈ blocks (size c) pgs.
Proof using Hci. intros Hq. rewrite <- (ci_blocks _ _ _ _ _ Hci). apply elem_of_app. by left. Qed.

Lemma pop_word q : q ∈ p :: fl -> word_addr out q.
Proof using Hci Hpi Hsub.
  intros Hq%pop_block. pose proof (ci_size _ _ _ _ _ Hci) as Hsz.
  destruct (blocks_aligned _ _ _ Hsz pop_aligned Hq) as [Hd H0]. pose proof Hsz as (Hs & _ & H8).
  destruct (page_of_block pgs (size c) q q) as (pg & Hpg & Hin); [done|done|lia|].
  split_and!; [exists pg; split; [by apply Hsub|done]|by etrans|lia].
Qed.

Lemma pop_in a : p <= a < p + size c -> in_pages out a.
Proof using Hci Hpi Hsub.
  intros Ha. destruct (page_of_block pgs (size c) p a) as (pg & Hpg & Hin);
    [apply Hci|apply pop_block; left|done|]. exists pg. split; [by apply Hsub|done].
Qed.

Lemma pop_apart q : q ∈ fl -> ~ (p <= q < p + size c).
Proof using All.
  intros Hq Hin. pose proof (ci_size _ _ _ _ _ Hci) as Hsz. pose proof Hsz as (Hs & _).
  assert (NoDup (p :: fl ++ lv)) as Hndb.
  { change (p :: fl ++ lv) with ((p :: fl) ++ lv). rewrite (ci_blocks _ _ _ _ _ Hci). apply NoDup_blocks; [done|apply pop_aligned|done]. }
  apply NoDup_cons_inv in Hndb as [Hni _]. apply Hni, elem_of_app. left.
  replace p with q; [done|]. symmetry.
  apply (aligned_disjoint (size c) p q q); [done|..|done|lia].
  - apply (blocks_aligned _ pgs); [done|apply pop_aligned|apply pop_block; left].
  - apply (blocks_aligned _ pgs); [done|apply pop_aligned|apply pop_block; by right].
Qed.

(** Taking the head of a free list and zeroing it. *)
Lemma wp_pop (Q : option Z * option Z -> S -> Prop) :
  (forall next s1, wp (write_zero p (size c)) (fun _ s' =>
     pages_inv out s' /\ class_inv s' (SizeClass_ (size c) next) pgs fl (p :: lv) /\
     (forall a, p <= a < p + size c -> vword s' a = Some 0) /\
     (forall a, in_pages out a -> ~ (p <= a < p + size c) -> vword s' a = vword s a)) s1 -> Q (Some p, next) s1) ->
  wp (take (free c)) Q s.
Proof using All.
  intros HQ. pose proof (ci_chain _ _ _ _ _ Hci) as Hc. pose proof Hc as (Hf & _).
  rewrite Hf in Hc |- *. pose proof (ci_size _ _ _ _ _ Hci) as Hsz. pose proof Hsz as (Hs & _ & H8).
  destruct (pop_word p ltac:(left)) as (Hin & Ha & _).
  eapply wp_take_pop; [done|apply pop_word; left|exact Hc|]. intros next s1 Hn Hi1 Hwr. apply HQ.
  apply (wp_write_zero out); [done|done|done|apply pop_in|]. intros s2 Hi2 Hv.
  assert (forall a, in_pages out a -> ~ (p <= a < p + size c) -> vword s2 a = vword s a) as Hk.
  { intros a Hai Hna. rewrite (Hv a Hai), decide_False by done. eapply written_other; [exact Hwr|done|].
    assert (8 <= size c); [|lia]. destruct H8 as [m Hm]. lia. }
  split_and!; [done| | |exact Hk].
  - split; cbn; [done| |].
    + eapply chain_ext; [|exact Hn]. intros q Hq. destruct (pop_word q ltac:(by right)) as (Hqi & _).
      apply Hk; [done|by apply pop_apart].
    + rewrite <- (ci_blocks _ _ _ _ _ Hci). by rewrite <- Permutation_middle.
  - intros a Haa. by rewrite (Hv a (pop_in a Haa)), decide_True.
Qed.
End pop.

(** Filling an empty class from a new page. *)
Lemma fill_page out s c pgs lv p (Q : SizeClass -> S -> Prop) :
  class_inv s c pgs [] lv -> pages_inv (p :: out) s -> pgs ⊆ out ->
  (forall c' fl s', size c' = size c -> class_inv s' c' (p :: pgs) fl lv -> fl <> [] ->
     pages_inv (p :: out) s' ->
     (forall a, in_pages out a -> vword s' a = vword s a) ->
     (forall b, b ∈ fl -> p <= b /\ b + size c <= p + 4096) ->
     Q c' s') ->
  wp (add_all c ((fun offset => p + offset) <$> offsets (size c))) Q s.
Proof.
  intros [Hsz Hc Hb] Hpi Hsub HQ. change ((fun offset => p + offset) <$> offsets (size c)) with
    (page_blocks (size c) p).
  destruct (pages_ok _ _ p Hpi ltac:(left)) as [Hpa Hp0].
  assert (forall b, b ∈ page_blocks (size c) p -> p <= b /\ b + size c <= p + 4096) as Hin.
  { intros b (k & -> & Hk)%elem_of_page_blocks; [|done]. destruct Hsz as (Hsz & [m Hm] & _).
    assert (k < m) by nia. nia. }
  assert (0 < size c /\ 8 <= size c) as [Hpos H8] by (destruct Hsz as (? & _ & [m ?]); lia).
  eapply (wp_add_all (p :: out) _ _ []); [done|exact Hc|by apply NoDup_page_blocks|by intros q ?%elem_of_nil| |].
  - intros b Hbk. destruct (Hin b Hbk). split; [|by apply not_elem_of_nil]. split_and!; [exists p; split; [left|lia]| |lia].
    apply elem_of_page_blocks in Hbk as (k & -> & _); [|done]. destruct Hsz as (_ & _ & Hd).
    apply Z.divide_add_r; [|by apply Z.divide_mul_r]. apply Z.mod_divide in Hpa as [x ->]; [|done]. exists (x * 512). lia.
  - intros c' s' Hs Hi' Hc' Heq. rewrite app_nil_r in Hc'.
    apply (HQ _ (reverse (page_blocks (size c) p))); [done| | |done| |].
    + split; [by rewrite Hs|done|]. rewrite Hs. cbn.
      rewrite reverse_Permutation. cbn in Hb. by rewrite Hb.
    + intros Hnil. assert (p ∈ page_blocks (size c) p) as Hpb.
      { apply elem_of_page_blocks; [done|]. exists 0. lia. }
      rewrite <- reverse_Permutation, Hnil in Hpb. by apply elem_of_nil in Hpb.
    + intros a (q & Hq & Ha). apply Heq; [exists q; split; [by right|done]|]. intros b Hbk Hab.
      destruct (Hin b Hbk). pose proof (pages_nodup _ _ Hpi) as [Hni _]%NoDup_cons_inv. apply Hni.
      replace p with q; [done|]. destruct (pages_ok _ _ q Hpi ltac:(by right)).
      apply (aligned_pages_disjoint q p a); (done || lia).
    + intros b. rewrite reverse_Permutation. apply Hin.
Qed.

Lemma class_alloc_spec out s c pgs fl lv :
  class_inv s c pgs fl lv -> pages_inv out s -> page_room s -> pgs ⊆ out -> NoDup pgs ->
  wp (class_alloc c) (class_post out s c pgs fl lv) s.
Proof.
  intros Hci Hpi Hroom Hsub Hnd. unfold class_alloc, alloc_uninitialized. wp_step.
  destruct fl as [|p fl].
  - pose proof (ci_chain _ _ _ _ _ Hci) as Hc. cbn in Hc. rewrite Hc. cbn [take]. wp_steps.
    wp_call alloc_page_spec; [|exact Hpi|exact Hroom]. intros [p|[]] s1 [Hv1 Hpi1].
    2: { wp_steps. split; [done|]. split_and!; [|done|done].
         apply (class_inv_ext s s1 c); (done || by intros q ?%elem_of_nil). }
    wp_steps. assert (p ∉ out) as Hpo by (by pose proof (pages_nodup _ _ Hpi1) as [? _]%NoDup_cons_inv).
    eapply (fill_page out _ _ pgs lv); [|exact Hpi1|done|].
    { apply (class_inv_ext s s1 c); (done || by intros q ?%elem_of_nil). }
    intros c' fl' s2 Hs Hci2 Hne Hpi2 Hout Hin. destruct fl' as [|q fl']; [done|]. wp_step.
    apply (wp_pop (p :: out) s2 c' (p :: pgs) q fl' lv); [done|done|set_solver|apply NoDup_cons; split; [by intros ?%Hsub|done]|].
    intros next s3 Hz. wp_steps. eapply wp_mono; [|exact Hz]. intros [] s4 (Hpi4 & Hci4 & Hz4 & Hk4). wp_step.
    split; [exact Hs|]. exists [p], fl'. split_and!; [exact Hci4|exact Hpi4| |].
    + intros a Ha. apply Hz4. by rewrite Hs.
    + intros a Ha _. pose proof Ha as (q' & Hq' & Ha'). rewrite Hk4, Hout, Hv1; [done|done|done|exists q'; split; [by right|done]|].
      intros Hqa. destruct (Hin q ltac:(left)). destruct (pages_ok _ _ q' Hpi ltac:(done)), (pages_ok _ _ p Hpi1 ltac:(left)).
      apply Hpo. replace p with q'; [done|]. apply (aligned_pages_disjoint q' p a); (done || lia).
  - wp_step. apply (wp_pop out s c pgs p fl lv); [done..|]. intros next s3 Hz. wp_steps.
    eapply wp_mono; [|exact Hz]. intros [] s4 (Hpi4 & Hci4 & Hz4 & Hk4). wp_step.
    split; [done|]. exists [], fl. split_and!; [exact Hci4|exact Hpi4|exact Hz4|].
    intros a Ha Hna. apply Hk4; [done|]. apply Hna. left.
Qed.
End class_proofs.

(** ** The allocator *)

Record ghost := Ghost { g_pages : list Z; g_free : list Z; g_live : list Z }.

Definition CLASS_SIZES : list Z := [16; 32; 64; 128; 256; 512; 1024; 2048; 4096].

(** The live blocks with their sizes. *)
Definition live (al : Allocator) (gs : list ghost) : list (Z * Z) :=
  mjoin (zip_with (fun c g => (fun p => (p, size c)) <$> g_live g) al gs).

Lemma elem_of_live al gs p n :
  (p, n) ∈ live al gs <->
  exists i c g, al !! i = Some c /\ gs !! i = Some g /\ p ∈ g_live g /\ n = size c.
Proof.
  unfold live. rewrite list_elem_of_join. split.
  - intros (l & Hk & [i Hi]%list_elem_of_lookup).
    apply lookup_zip_with_Some in Hi as (c & g & -> & Hc & Hg).
    apply list_elem_of_fmap in Hk as (q & [= -> ->] & Hq). by exists i, c, g.
  - intros (i & c & g & Hc & Hg & Hp & ->).
    exists ((fun p => (p, size c)) <$> g_live g). split.
    + apply list_elem_of_fmap. by exists p.
    + apply list_elem_of_lookup. exists i. apply lookup_zip_with_Some. by exists c, g.
Qed.

(** Lists of disjoint lists. *)
Lemma NoDup_bind_disjoint {A B} (f : A -> list B) (l : list A) i j x y b :
  NoDup (l ≫= f) -> l !! i = Some x -> l !! j = Some y -> b ∈ f x -> b ∈ f y -> i = j.
Proof.
  revert i j. induction l as [|z l IH]; intros i j; [done|].
  cbn. intros (_ & Hd & Hnd)%NoDup_app Hi Hj Hx Hy.
  assert (forall k w, l !! k = Some w -> b ∈ f w -> b ∈ l ≫= f) as Hin.
  { intros k w Hk Hw. apply list_elem_of_bind. exists w. split; [done|].
    by eapply list_elem_of_lookup_2. }
  destruct i as [|i], j as [|j]; cbn in Hi, Hj; simplify_eq; [done|..].
  - exfalso. by apply (Hd b); eauto.
  - exfalso. by apply (Hd b); eauto.
  - f_equal. by apply (IH i j).
Qed.

Lemma bind_insert_perm {A B} (f : A -> list B) (l : list A) i x y new :
  l !! i = Some x -> f y ≡ₚ new ++ f x -> <[i := y]> l ≫= f ≡ₚ new ++ (l ≫= f).
Proof.
  revert i. induction l as [|z l IH]; intros [|i] Hi Hp; cbn in Hi |- *; simplify_eq.
  - rewrite Hp. by rewrite app_assoc.
  - rewrite (IH i) by done. by rewrite Permutation_app_swap_app.
Qed.

Section allocator_proofs.
Context {S : Type} `{PageSource S}.

Record heap_inv (al : Allocator) (gs : list ghost) (out : list Z) (s : S) : Prop := {
  hi_len : length al = length gs;
  hi_class : forall i c g, al !! i = Some c -> gs !! i = Some g ->
    class_inv s c (g_pages g) (g_free g) (g_live g);
  hi_out : out ≡ₚ gs ≫= g_pages;
  hi_pages : pages_inv out s;
  hi_sizes : size <$> al = CLASS_SIZES
}.

Lemma hi_nodup al gs out s : heap_inv al gs out s -> NoDup (gs ≫= g_pages).
Proof. intros Hi. rewrite <- (hi_out _ _ _ _ Hi). eapply pages_nodup, Hi. Qed.

Lemma hi_sub al gs out s i g : heap_inv al gs out s -> gs !! i = Some g -> g_pages g ⊆ out.
Proof.
  intros Hi Hg p Hp. rewrite (hi_out _ _ _ _ Hi). apply list_elem_of_bind.
  exists g. split; [done|]. by eapply list_elem_of_lookup_2.
Qed.

Lemma hi_class_nodup al gs out s i g :
  heap_inv al gs out s -> gs !! i = Some g -> NoDup (g_pages g).
Proof.
  intros Hi%hi_nodup Hg. apply list_elem_of_split_length in Hg as (l1 & l2 & -> & _).
  rewrite bind_app in Hi. apply NoDup_app in Hi as (_ & _ & Hi). cbn in Hi.
  by apply NoDup_app in Hi as (? & _).
Qed.

(** Every block of a class, free or live. *)
Lemma block_in al gs out s i c g b :
  heap_inv al gs out s -> al !! i = Some c -> gs !! i = Some g ->
  b ∈ g_free g \/ b ∈ g_live g -> b ∈ blocks (size c) (g_pages g).
Proof.
  intros Hi Hc Hg Hb. rewrite <- (ci_blocks _ _ _ _ _ (hi_class _ _ _ _ Hi _ _ _ Hc Hg)).
  by apply elem_of_app.
Qed.

(** A block lies in the pages of the heap. *)
Lemma block_in_pages al gs out s i c g b a :
  heap_inv al gs out s -> al !! i = Some c -> gs !! i = Some g ->
  b ∈ g_free g \/ b ∈ g_live g -> b <= a < b + size c -> in_pages out a.
Proof.
  intros Hi Hc Hg Hb Ha.
  destruct (page_of_block (g_pages g) (size c) b a) as (pg & Hpg & Hin);
    [apply (hi_class _ _ _ _ Hi _ _ _ Hc Hg)|by eapply block_in|done|].
  exists pg. split; [by eapply hi_sub|done].
Qed.

(** Overlapping blocks are the same block of the same class. *)
Lemma blocks_disjoint al gs out s i j c d g h b b' a :
  heap_inv al gs out s -> al !! i = Some c -> gs !! i = Some g -> al !! j = Some d -> gs !! j = Some h ->
  b ∈ g_free g \/ b ∈ g_live g -> b' ∈ g_free h \/ b' ∈ g_live h ->
  b <= a < b + size c -> b' <= a < b' + size d -> i = j /\ b = b'.
Proof.
  intros Hi Hc Hg Hd Hh Hb Hb' Ha Ha'.
  pose proof (block_in _ _ _ _ _ _ _ _ Hi Hc Hg Hb) as Hbk.
  pose proof (block_in _ _ _ _ _ _ _ _ Hi Hd Hh Hb') as Hbk'.
  pose proof (ci_size _ _ _ _ _ (hi_class _ _ _ _ Hi _ _ _ Hc Hg)) as Hsz.
  pose proof (ci_size _ _ _ _ _ (hi_class _ _ _ _ Hi _ _ _ Hd Hh)) as Hsz'.
  destruct (page_of_block _ _ _ _ Hsz Hbk Ha) as (pg & Hpg & Hin).
  destruct (page_of_block _ _ _ _ Hsz' Hbk' Ha') as (pg' & Hpg' & Hin').
  assert (forall k x, gs !! k = Some x -> pages_aligned (g_pages x)) as Hal.
  { intros k x Hx p Hp. eapply pages_ok; [apply Hi|]. by eapply hi_sub. }
  assert (pg = pg') as <-.
  { apply (aligned_pages_disjoint pg pg' a); [apply (Hal i g Hg pg Hpg)|apply (Hal j h Hh pg' Hpg')|done|done]. }
  assert (i = j) as <- by (by eapply NoDup_bind_disjoint; [eapply hi_nodup|..]).
  simplify_eq. split; [done|].
  eapply (aligned_disjoint (size c) b b' a); [apply Hsz|by eapply blocks_aligned; eauto..|done|done].
Qed.

(** Replacing the class [i]. *)
Lemma heap_inv_update al gs out s s' i c g c' g' new :
  heap_inv al gs out s -> al !! i = Some c -> gs !! i = Some g -> size c' = size c ->
  class_inv s' c' (g_pages g') (g_free g') (g_live g') ->
  g_pages g' = new ++ g_pages g -> pages_inv (new ++ out) s' ->
  (forall j h q, j <> i -> gs !! j = Some h -> q ∈ g_free h -> vword s' q = vword s q) ->
  heap_inv (<[i := c']> al) (<[i := g']> gs) (new ++ out) s'.
Proof.
  intros Hi Hc Hg Hs Hci Hpg Hpi Hframe. split.
  - rewrite !length_insert. apply Hi.
  - intros j d h Hd Hh. apply list_lookup_insert_cases in Hd as [(<- & <- & Hlt)|[Hne Hd]].
    + rewrite list_lookup_insert_eq in Hh by (by eapply lookup_lt_Some). by simplify_eq.
    + rewrite list_lookup_insert_ne in Hh by done.
      destruct (hi_class _ _ _ _ Hi _ _ _ Hd Hh) as [Hsz Hch Hbl]. split; [done| |done].
      eapply chain_ext; [|exact Hch]. intros q Hq. by eapply Hframe.
  - rewrite (bind_insert_perm g_pages gs i g g' new) by (done || by rewrite Hpg).
    by rewrite (hi_out _ _ _ _ Hi).
  - done.
  - rewrite list_fmap_insert, Hs, <- (hi_sizes _ _ _ _ Hi).
    apply list_insert_id. by rewrite list_lookup_fmap, Hc.
Qed.

Lemma live_update al gs i c g c' g' x :
  al !! i = Some c -> gs !! i = Some g -> size c' = size c ->
  g_live g' ≡ₚ x :: g_live g -> live (<[i := c']> al) (<[i := g']> gs) ≡ₚ (x, size c) :: live al gs.
Proof.
  unfold live. revert i gs. induction al as [|d al IH]; intros [|i] [|h gs] Hc Hg Hs Hl;
    cbn in Hc, Hg |- *; simplify_eq.
  - rewrite Hl, Hs. done.
  - rewrite IH by done. by rewrite Permutation_middle.
Qed.
End allocator_proofs.

Definition layout_ok (l : Layout) : Prop :=
  0 <= layout_size l <= 4096 /\ exists k, 0 <= k <= 12 /\ layout_align l = 2 ^ k.

Lemma class_size_pow2 (al : Allocator) i c :
  size <$> al = CLASS_SIZES -> al !! i = Some c -> exists j, 0 <= j <= 12 /\ size c = 2 ^ j.
Proof.
  intros Hs Hc. assert (CLASS_SIZES !! i = Some (size c)) as Hi.
  { by rewrite <- Hs, list_lookup_fmap, Hc. }
  assert (Forall (fun z => exists j, 0 <= j <= 12 /\ z = 2 ^ j) CLASS_SIZES) as Hall.
  { unfold CLASS_SIZES. repeat apply Forall_cons_2; [exists 4|exists 5|exists 6|exists 7|exists 8|
      exists 9|exists 10|exists 11|exists 12|constructor]; done. }
  by eapply Forall_lookup_1 in Hall.
Qed.

(** A class fits every layout up to a page; the alignment divides its size. *)
Lemma class_found (al : Allocator) l :
  size <$> al = CLASS_SIZES -> layout_ok l ->
  exists i c, class al l = Some (i, c) /\ al !! i = Some c /\
    layout_size l <= size c /\ (layout_align l | size c).
Proof.
  intros Hs [Hl (k & Hk & Hal)].
  assert (2 ^ k <= 4096) as Hk12.
  { change 4096 with (2 ^ 12). apply Z.pow_le_mono_r; lia. }
  assert (exists c8, al !! 8%nat = Some c8 /\ size c8 = 4096) as (c8 & Hc8 & Hs8).
  { assert ((size <$> al) !! 8%nat = Some 4096) as Ha by (by rewrite Hs).
    by apply list_lookup_fmap_Some in Ha as (c8 & ? & ?); exists c8. }
  destruct (list_find_elem_of (fun c => Is_true (fits l c)) al c8) as [[i c] Hf].
  { by eapply list_elem_of_lookup_2. }
  { apply Is_true_true. unfold fits. rewrite Hs8. lia. }
  exists i, c. split; [exact Hf|]. apply list_find_Some in Hf as (Hc & Hfit%Is_true_true & _).
  unfold fits in Hfit. apply andb_true_iff in Hfit as [Hsz%Z.leb_le Ha%Z.leb_le].
  split_and!; [done..|]. destruct (class_size_pow2 al i c Hs Hc) as (j & Hj & Hjs).
  rewrite Hal, Hjs in *. assert (k <= j) by (apply (Z.pow_le_mono_r_iff 2); lia).
  exists (2 ^ (j - k)). rewrite <- Z.pow_add_r by lia. f_equal. lia.
Qed.

(** Memory of a live block. *)
Definition same_block {S} `{PageSource S} (s s' : S) (b : Z * Z) : Prop :=
  forall a, b.1 <= a < b.1 + b.2 -> vword s' a = vword s a.

Section alloc_proof.
Context {S : Type} `{PageSource S}.
Context (al : Allocator) (gs : list ghost) (out : list Z) (s : S) (Hi : heap_inv al gs out s).
Context (i : nat) (c : SizeClass) (g : ghost) (Hc : al !! i = Some c) (Hg : gs !! i = Some g).

Lemma class_blocks_nodup : NoDup (g_free g ++ g_live g).
Proof using All.
  pose proof (hi_class _ _ _ _ Hi _ _ _ Hc Hg) as Hci.
  rewrite (ci_blocks _ _ _ _ _ Hci). apply NoDup_blocks.
  - apply Hci.
  - intros x Hx. eapply pages_ok; [apply Hi|]. by eapply hi_sub.
  - by eapply hi_class_nodup.
Qed.

(** The blocks that an allocation from the class [i] leaves alone. *)
Lemma alloc_keeps (s1 : S) j d h q a :
  (forall a, in_pages out a -> (forall b, b ∈ g_free g -> ~ (b <= a < b + size c)) -> vword s1 a = vword s a) ->
  al !! j = Some d -> gs !! j = Some h ->
  (j <> i /\ q ∈ g_free h) \/ q ∈ g_live h -> q <= a < q + size d -> vword s1 a = vword s a.
Proof using All.
  intros Hk Hd Hh Hq Ha. apply Hk.
  - eapply block_in_pages; [exact Hi|exact Hd|exact Hh| |exact Ha]. naive_solver.
  - intros b Hb Hba.
    destruct (blocks_disjoint _ _ _ _ i j c d g h b q a Hi Hc Hg Hd Hh) as [Hij Hbq];
      [by left|naive_solver|done..|]. subst j q.
    destruct Hq as [[? _]|Hlv]; [done|]. rewrite Hg in Hh. injection Hh as Hh. subst h.
    pose proof class_blocks_nodup as (_ & Hd2 & _)%NoDup_app. by apply (Hd2 b).
Qed.

(** A block of the class overlaps no other live block. *)
Lemma live_head_disjoint p lv q m a :
  g_live g = p :: lv -> (q, m) ∈ live al (<[i := Ghost (g_pages g) (g_free g) lv]> gs) ->
  p <= a < p + size c -> ~ (q <= a < q + m).
Proof using All.
  intros Hl (j & d & h & Hd & Hh & Hq & ->)%elem_of_live Ha Hqa.
  pose proof class_blocks_nodup as (_ & _ & Hnd)%NoDup_app. rewrite Hl in Hnd.
  apply NoDup_cons_inv in Hnd as [Hni _].
  apply list_lookup_insert_cases in Hh as [(<- & <- & _)|[Hne Hh]].
  - cbn in Hq. destruct (blocks_disjoint _ _ _ _ i i c d g g p q a Hi Hc Hg Hd Hg) as [_ <-]; try done.
    + right. rewrite Hl. left.
    + right. rewrite Hl. by right.
  - destruct (blocks_disjoint _ _ _ _ i j c d g h p q a Hi Hc Hg Hd Hh) as [? _]; try done.
    + right. rewrite Hl. left.
    + by right.
Qed.

Lemma live_same_size c' gs' : size c' = size c -> live (<[i := c']> al) gs' = live al gs'.
Proof using Hc.
  clear -Hc. intros Hs. unfold live. f_equal.
  revert i gs' Hc. induction al as [|d al' IH]; intros [|i] [|h gs'] Hc;
    cbn in Hc |- *; simplify_eq; try done; [by rewrite Hs|]. f_equal. by apply IH.
Qed.
End alloc_proof.

(** Allocating from the heap: for a layout up to a page, [alloc_layout] does
    not panic; a block it returns is large enough and aligned for the layout,
    zeroed, and overlaps no live block, and the contents of every live block are
    unchanged; it fails only when the page source does, and then leaves memory
    and live blocks as they were.  The heap invariant (free and live blocks
    partition the pages) is preserved. *)
Lemma alloc_layout_spec {S} `{PageSource S} (al : Allocator) gs out (s : S) l :
  heap_inv al gs out s -> page_room s -> layout_ok l ->
  wp (alloc_layout al l) (fun ra s' => match ra with
    | (Ok p, al') => exists gs' out' n,
        heap_inv al' gs' out' s' /\ live al' gs' ≡ₚ (p, n) :: live al gs /\
        layout_size l <= n /\ (layout_align l | p) /\
        (forall a, p <= a < p + n -> vword s' a = Some 0) /\
        (forall q m a, (q, m) ∈ live al gs -> p <= a < p + n -> ~ (q <= a < q + m)) /\
        (forall b, b ∈ live al gs -> same_block s s' b)
    | (Err _, al') => heap_inv al' gs out s' /\ live al' gs = live al gs /\
        forall a, in_pages out a -> vword s' a = vword s a
    end) s.
Proof.
  intros Hi Hroom Hl. unfold alloc_layout.
  destruct (class_found al l (hi_sizes _ _ _ _ Hi) Hl) as (i & c & -> & Hc & Hsz & Hal).
  destruct (lookup_lt_is_Some_2 gs i) as [g Hg].
  { rewrite <- (hi_len _ _ _ _ Hi). by eapply lookup_lt_Some. }
  pose proof (hi_class _ _ _ _ Hi _ _ _ Hc Hg) as Hci.
  pose proof (hi_sub _ _ _ _ _ _ Hi Hg) as Hsub.
  wp_step. wp_call (class_alloc_spec out _ _ (g_pages g) (g_free g) (g_live g));
    [|exact Hci|apply Hi|exact Hroom|done|by eapply hi_class_nodup].
  intros [[p|[]] c'] s1 [Hs Hpost]; cbn in Hs, Hpost; wp_step.
  2: { destruct Hpost as (Hci' & Hpi & Hvm). split_and!; [|by eapply live_same_size|done].
       rewrite <- (list_insert_id gs i g) by done.
       apply (heap_inv_update al gs out s s1 i c g c' g []); try done.
       intros j h q Hj Hh Hq. destruct (lookup_lt_is_Some_2 al j) as [d Hd].
       { rewrite (hi_len _ _ _ _ Hi). by eapply lookup_lt_Some. }
       apply Hvm. apply (block_in_pages al gs out s j d h q); [exact Hi|exact Hd|exact Hh|by left|].
       destruct (ci_size _ _ _ _ _ (hi_class _ _ _ _ Hi _ _ _ Hd Hh)). lia. }
  destruct Hpost as (new & fl' & Hci' & Hpi & Hz & Hk).
  set (g' := Ghost (new ++ g_pages g) fl' (p :: g_live g)).
  assert (heap_inv (<[i := c']> al) (<[i := g']> gs) (new ++ out) s1) as Hi'.
  { apply (heap_inv_update al gs out s s1 i c g c' g' new); try done.
    intros j h q Hj Hh Hq. destruct (lookup_lt_is_Some_2 al j) as [d Hd].
    { rewrite (hi_len _ _ _ _ Hi). by eapply lookup_lt_Some. }
    eapply (alloc_keeps al gs out s Hi i c g Hc Hg s1 j d h q q); eauto.
    destruct (ci_size _ _ _ _ _ (hi_class _ _ _ _ Hi _ _ _ Hd Hh)). lia. }
  assert (<[i := c']> al !! i = Some c' /\ <[i := g']> gs !! i = Some g') as [Hc' Hg'].
  { split; apply list_lookup_insert_eq; by eapply lookup_lt_Some. }
  exists (<[i := g']> gs), (new ++ out), (size c). split_and!.
  - exact Hi'.
  - by apply (live_update al gs i c g).
  - done.
  - etrans; [exact Hal|]. rewrite <- Hs.
    eapply (blocks_aligned _ (new ++ g_pages g)); [apply Hci'| |].
    + intros x Hx. eapply pages_ok; [exact Hpi|]. revert Hx. rewrite !elem_of_app. naive_solver.
    + rewrite <- (ci_blocks _ _ _ _ _ Hci'). apply elem_of_app. right. left.
  - exact Hz.
  - intros q m a Hq Ha. rewrite <- Hs in Ha.
    eapply (live_head_disjoint _ _ _ _ Hi' i c' g' Hc' Hg' p (g_live g)); [done| |exact Ha].
    rewrite list_insert_insert_eq, (live_same_size _ _ _ Hc) by done.
    revert Hq. rewrite !elem_of_live. intros (j & d & h & Hd & Hh & Hq & ->).
    destruct (decide (i = j)) as [<-|Hne].
    + exists i, d, (Ghost (new ++ g_pages g) fl' (g_live g)). simplify_eq.
      rewrite list_lookup_insert_eq by (by eapply lookup_lt_Some). done.
    + exists j, d, h. by rewrite list_lookup_insert_ne.
  - intros [q m] (j & d & h & Hd & Hh & Hq & ->)%elem_of_live a Ha. cbn in Ha.
    eapply (alloc_keeps al gs out s Hi i c g Hc Hg s1 j d h q a); eauto.
Qed.

Lemma live_remove (al : Allocator) gs i c g g' x :
  al !! i = Some c -> gs !! i = Some g -> g_live g ≡ₚ x :: g_live g' ->
  live al gs ≡ₚ (x, size c) :: live al (<[i := g']> gs).
Proof.
  unfold live. revert i gs. induction al as [|d al IH]; intros [|i] [|h gs] Hc Hg Hl;
    cbn in Hc, Hg |- *; simplify_eq.
  - by rewrite Hl.
  - rewrite (IH i) by done. by rewrite Permutation_middle.
Qed.

Section free_proof.
Context {S : Type} `{PageSource S}.
Context (al : Allocator) (gs : list ghost) (out : list Z) (s : S) (Hi : heap_inv al gs out s).
Context (i : nat) (c : SizeClass) (g : ghost) (Hc : al !! i = Some c) (Hg : gs !! i = Some g).
Context (ptr : Z) (lv : list Z) (Hlv : g_live g ≡ₚ ptr :: lv).
Context (s' : S) (Hpi : pages_inv out s') (Hwr : written out (vword s) ptr (enc (free c)) (vword s')).
Let c' := SizeClass_ (size c) (Some ptr).
Let g' := Ghost (g_pages g) (ptr :: g_free g) lv.

Lemma free_ptr : ptr ∈ blocks (size c) (g_pages g) /\ 0 < ptr /\ ptr ∉ g_free g /\ ptr ∉ lv.
Proof using Hi Hc Hg Hlv.
  assert (ptr ∈ g_live g) as Hptr by (rewrite Hlv; left).
  assert (ptr ∈ blocks (size c) (g_pages g)) as Hbk by (eapply block_in; [exact Hi|done..|by right]).
  pose proof (class_blocks_nodup al gs out s Hi i c g Hc Hg) as (_ & Hd & Hnd)%NoDup_app.
  rewrite Hlv in Hnd. apply NoDup_cons_inv in Hnd as [Hni _]. split_and!; [done| | |done].
  - eapply (blocks_aligned (size c)); [apply (hi_class _ _ _ _ Hi _ _ _ Hc Hg)| |exact Hbk].
    intros x Hx. eapply pages_ok; [apply Hi|]. by eapply hi_sub.
  - intros Hf. by apply (Hd ptr).
Qed.

Lemma free_word : word_addr out ptr.
Proof using Hi Hc Hg Hlv.
  destruct free_ptr as (Hbk & Hp0 & _). pose proof (ci_size _ _ _ _ _ (hi_class _ _ _ _ Hi _ _ _ Hc Hg)) as Hsz.
  split_and!; [|destruct Hsz as (_ & _ & H8)|lia].
  - eapply block_in_pages; [exact Hi|exact Hc|exact Hg|right; rewrite Hlv; left|]. destruct Hsz as [Hsz _]. lia.
  - etrans; [exact H8|]. eapply (blocks_aligned (size c)); [apply (hi_class _ _ _ _ Hi _ _ _ Hc Hg)| |exact Hbk].
    intros x Hx. eapply pages_ok; [apply Hi|]. by eapply hi_sub.
Qed.

Lemma free_frame q : in_pages out q -> ~ (ptr <= q < ptr + size c) -> vword s' q = vword s q.
Proof using Hc Hg Hi Hwr.
  intros Hq Hne. eapply written_other; [exact Hwr|done|].
  destruct (ci_size _ _ _ _ _ (hi_class _ _ _ _ Hi _ _ _ Hc Hg)) as (? & _ & [m Hm]). lia.
Qed.

Lemma free_heap_inv : heap_inv (<[i := c']> al) (<[i := g']> gs) out s'.
Proof using All.
  destruct free_ptr as (Hbk & Hp0 & Hpf & _), free_word as (Hin & Hpa & _).
  pose proof (hi_class _ _ _ _ Hi _ _ _ Hc Hg) as [Hsz Hch Hbl].
  assert (0 < size c) as Hs0 by apply Hsz.
  apply (heap_inv_update al gs out s s' i c g c' g' []); try done.
  - split; cbn; [done| |].
    + split_and!; [done|lia|]. exists (enc (free c)). rewrite (Hwr ptr Hin), decide_True by lia. split; [done|].
      rewrite (dec_enc _ _ _ Hch). eapply chain_ext; [|exact Hch].
      intros q Hq. assert (q ∈ blocks (size c) (g_pages g)) as Hqb by (eapply block_in; [exact Hi|done..|by left]).
      destruct (blocks_aligned (size c) (g_pages g) q Hsz) as [Hqa Hq0]; [|done|].
      { intros x Hx. eapply pages_ok; [apply Hi|]. by eapply hi_sub. }
      eapply written_other; [exact Hwr| |apply word_apart; [done| |by intros ->]].
      * apply (block_in_pages al gs out s i c g q); [exact Hi|exact Hc|exact Hg|by left|]. lia.
      * etrans; [|exact Hqa]. apply Hsz.
    + rewrite <- Hbl, Hlv. apply Permutation_middle.
  - intros j h q Hj Hh Hq. destruct (lookup_lt_is_Some_2 al j) as [d Hd].
    { rewrite (hi_len _ _ _ _ Hi). by eapply lookup_lt_Some. }
    destruct (ci_size _ _ _ _ _ (hi_class _ _ _ _ Hi _ _ _ Hd Hh)) as [Hd0 _].
    apply free_frame.
    + apply (block_in_pages al gs out s j d h q); [exact Hi|exact Hd|exact Hh|by left|]. lia.
    + intros Hin'. destruct (blocks_disjoint _ _ _ _ i j c d g h ptr q q Hi Hc Hg Hd Hh) as [Hij _];
        [right; rewrite Hlv; left|by left|lia|lia|by subst j].
Qed.

(** The memory of the blocks that stay live. *)
Lemma free_keeps b : b ∈ live al (<[i := g']> gs) -> same_block s s' b.
Proof using All.
  destruct b as [q m]. intros Hin a Ha. cbn in Ha. pose proof Hin as (j & d & h & Hd & Hh & Hq & ->)%elem_of_live.
  assert (q ∈ g_live g /\ j = i \/ j <> i /\ gs !! j = Some h) as Hold.
  { apply list_lookup_insert_cases in Hh as [(<- & <- & Hlt)|[Hne Hh]]; [left|by right].
    split; [|done]. cbn in Hq. rewrite Hlv. by right. }
  apply free_frame.
  - destruct Hold as [[Hq' ->]|[_ Hh']]; [|eapply block_in_pages; [exact Hi|exact Hd|exact Hh'|by right|exact Ha]].
    eapply block_in_pages; [exact Hi|exact Hd|exact Hg|by right|exact Ha].
  - intros Hpa. destruct Hold as [[Hq' ->]|[Hne Hh']].
    + destruct (blocks_disjoint _ _ _ _ i i c d g g ptr q a Hi Hc Hg Hd Hg) as [_ <-];
        [right; rewrite Hlv; left|by right|done|done|].
      rewrite list_lookup_insert_eq in Hh by (by eapply lookup_lt_Some). injection Hh as <-.
      by destruct free_ptr as (_ & _ & _ & ?).
    + destruct (blocks_disjoint _ _ _ _ i j c d g h ptr q a Hi Hc Hg Hd Hh') as [-> _];
        [right; rewrite Hlv; left|by right|done..].
Qed.
End free_proof.

(** Freeing to the heap: a live block freed with a layout of its size class
    goes back to the free list of that class: the heap invariant is preserved,
    exactly that block stops being live, and the contents of every other live
    block are unchanged. *)
Lemma free_layout_spec {S} `{PageSource S} (al : Allocator) gs out (s : S) l i c g ptr lv :
  heap_inv al gs out s -> class al l = Some (i, c) -> gs !! i = Some g ->
  g_live g ≡ₚ ptr :: lv ->
  wp (free_layout al l ptr) (fun al' s' => exists gs',
    heap_inv al' gs' out s' /\ live al gs ≡ₚ (ptr, size c) :: live al' gs' /\
    forall b, b ∈ live al' gs' -> same_block s s' b) s.
Proof.
  intros Hi Hcl Hg Hlv. unfold free_layout. rewrite Hcl.
  assert (al !! i = Some c) as Hc by (by apply list_find_Some in Hcl as (? & _)).
  destruct (free_word al gs out s Hi i c g Hc Hg ptr lv Hlv) as (Hin & Ha & _).
  destruct (vwrite_ok out s ptr (enc (free c)) (hi_pages _ _ _ _ Hi) Hin Ha) as (s' & Hrun & Hpi & Hwr).
  unfold class_free, add_free. wp_step. wp_step. eapply wp_run; [exact Hrun|]. wp_steps.
  exists (<[i := Ghost (g_pages g) (ptr :: g_free g) lv]> gs).
  rewrite (live_same_size al i c Hc) by done. split_and!.
  - by eapply free_heap_inv.
  - by apply (live_remove al gs i c g).
  - intros b. by eapply free_keeps.
Qed.
