(* ===== verification/Kvirt.v ===== *)
(** * Kvirt: kernel pages ([kernel/src/mem/kvirt.rs])

    The page allocator maps fresh frames at increasing kernel addresses and
    keeps a free list of pages that were given back; a [PageBox] is a value in a
    page of its own.  The allocator implements the
    [PageSource] interface of the heap on top of the frame allocator and the
    page tables: an access to a heap page is a [load] or [store] of [Page], which walks
    the tables and faults where nothing is mapped. *)

From S2P Require Import Prelude Sync Machine Phys Page PageSpec Kheap.

(** [PageAllocatorInner]; [ptr] is the next address to map. *)
Record PageAllocatorInner := PageAllocator_ { free_page : option Z; next_ptr : Z }.

(** The machine and the static mutex. *)
Record kvirt := Kvirt {
  mach : machine;
  PAGES : Mutex PageAllocatorInner
}.

(** [PageAllocator::new] *)
Definition PageAllocator_new (ptr : Z) : Mutex PageAllocatorInner := Mutex_new (PageAllocator_ None ptr).

Definition mach_lens : lens kvirt machine := Lens mach (fun m k => Kvirt m (PAGES k)).
Definition PAGE_ALLOCATOR : lens kvirt (Mutex PageAllocatorInner) :=
  Lens PAGES (fun p k => Kvirt (mach k) p).

#[export] Instance kvirt_HasCpu : HasCpu kvirt :=
  Lens (fun k => m_if (mach k)) (fun b k => set mach_lens (set_if b (mach k)) k).
#[export] Instance kvirt_HasCpu_laws : LensLaws (cpu_if : lens kvirt bool).
Proof. split; [done | by intros [[]] | done]. Qed.
#[export] Instance PAGE_ALLOCATOR_laws : LensLaws PAGE_ALLOCATOR.
Proof. split; [done | by intros [] | done]. Qed.

(** Accesses to the words of kernel pages. *)
Definition kread (a : Z) : M kvirt Z := zoom mach_lens (load a).
Definition kwrite (a w : Z) : M kvirt unit := zoom mach_lens (store a w).

(** [ptr::write_bytes(ptr, 0, n)], for a whole number of words. *)
Definition kzero (ptr n : Z) : M kvirt unit :=
  for_each (fun i => kwrite (ptr + 8 * Z.of_nat i) 0) (seq 0 (Z.to_nat (n / 8))).

(** [PageAllocator::alloc]: the free list first. *)
Definition alloc_free_page : M kvirt (option Z) :=
  with_lock PAGE_ALLOCATOR (
    inner ← deref PAGE_ALLOCATOR;
    _ ← assign PAGE_ALLOCATOR (PageAllocator_ None (next_ptr inner));
    match free_page inner with
    | Some page =>
        w ← kread page;
        _ ← kwrite page 0;
        _ ← assign PAGE_ALLOCATOR (PageAllocator_ (dec w) (next_ptr inner));
        _ ← kzero page PAGE_SIZE;
        mret (Some page)
    | None => mret None
    end).

(** [inner.ptr = inner.ptr.add(PAGE_SIZE)] *)
Definition take_ptr : M kvirt Z :=
  with_lock PAGE_ALLOCATOR (
    inner ← deref PAGE_ALLOCATOR;
    _ ← assign PAGE_ALLOCATOR (PageAllocator_ (free_page inner) (next_ptr inner + PAGE_SIZE));
    mret (next_ptr inner)).

Definition PageAllocator_alloc : M kvirt (result Z unit) :=
  page ← alloc_free_page;
  match page with
  | Some page => mret (Ok page)
  | None =>
      phys ←? zoom mach_lens alloc;
      ptr ← take_ptr;
      r ← zoom mach_lens (map phys ptr (Z.lor PRESENT WRITE));
      match r with
      | Ok _ => mret (Ok ptr)
      | Err CannotAllocatePageTable => mret (Err tt)
      | Err AlreadyMapped => panic "MapError::AlreadyMapped in PageAllocator::allocate"
      end
  end.

(** [PageAllocator::free] *)
Definition PageAllocator_free (page : Z) : M kvirt unit :=
  with_lock PAGE_ALLOCATOR (
    inner ← deref PAGE_ALLOCATOR;
    _ ← assign PAGE_ALLOCATOR (PageAllocator_ None (next_ptr inner));
    _ ← kwrite page (enc (free_page inner));
    assign PAGE_ALLOCATOR (PageAllocator_ (Some page) (next_ptr inner))).

(** ** [PageBox]

    A value of a type [T : PageSized] is the list of its eight-byte words, at
    most a page of them (the [PageSized] derive refuses larger types). *)
Fixpoint write_words (ptr : Z) (value : list Z) : M kvirt unit :=
  match value with
  | [] => mret tt
  | w :: value => _ ← kwrite ptr w; write_words (ptr + 8) value
  end.

Definition PageBox_new (value : list Z) : M kvirt (result Z unit) :=
  page ←? PageAllocator_alloc;
  _ ← write_words page value;
  mret (Ok page).

(** [Drop] runs the drop glue of [T] and keeps the page. *)
Definition PageBox_drop (drop_in_place : Z -> M kvirt unit) (page : Z) : M kvirt unit :=
  drop_in_place page.

(** [Deref] of a [PageBox] whose [T] has [n] words. *)
Fixpoint PageBox_deref (n : nat) (page : Z) : M kvirt (list Z) :=
  match n with
  | O => mret []
  | S n => w ← kread page; ws ← PageBox_deref n (page + 8); mret (w :: ws)
  end.

(** ** The words of mapped pages *)

(** The word an access at [b] finds, if it does not fault. *)
Definition mword (m : machine) (b : Z) : option Z :=
  match load b m with Ret (w, _) => Some w | _ => None end.

Definition KERNEL_START : Z := 0xffff800000000000.

(** Pages of the kernel half, below the recursive window. *)
Definition kernel_pages (pgs : list Z) : Prop :=
  forall p, p ∈ pgs -> p `mod` 4096 = 0 /\ KERNEL_START <= p /\ p + 4096 <= CURRENT_PML.

(** The pages [pgs] are mapped to data frames of their own, which hold words. *)
Record page_frames (rs : list PhysRegion) (bs fl : list Z) (owner : gmap Z (nat * Z)) (pgs : list Z)
    (m : machine) : Prop := {
  pf_frame : forall p, p ∈ pgs -> exists e w, pte m p = Some e /\ Z.testbit e 0 = true /\
    data_frame rs bs fl owner (page_base e) /\ mem m !! page_base e = Some (FWords w);
  pf_apart : forall p q e e', p ∈ pgs -> q ∈ pgs -> pte m p = Some e -> pte m q = Some e' ->
    page_base e = page_base e' -> p = q
}.

Lemma kernel_outside va : KERNEL_START <= va < CURRENT_PML -> outside va.
Proof. unfold outside, CURRENT_PML, KERNEL_START. intros H. rewrite idxd0. pow2s. zdiv. Qed.

Lemma mword_if m b a : mword (set_if b m) a = mword m a.
Proof.
  unfold mword, load, mbind, M_bind, lift, gets. change (translate (set_if b m) a) with (translate m a).
  destruct (translate m a) as [fr| |]; [|done..]. cbn [mem set_if]. by destruct (mem m !! fr) as [[]|].
Qed.

Lemma page_frames_if rs bs fl o pgs m b : page_frames rs bs fl o pgs m -> page_frames rs bs fl o pgs (set_if b m).
Proof. intros [Hf Ha]. by split. Qed.

Lemma page_frames_sub rs bs fl o pgs pgs' m : pgs' ⊆ pgs -> page_frames rs bs fl o pgs m -> page_frames rs bs fl o pgs' m.
Proof. intros Hs [Hf Ha]. split; [by intros p ?%Hs; apply Hf|]. intros p q e e' ?%Hs ?%Hs. by apply Ha. Qed.

Section words.
Context (rs : list PhysRegion) (bs fl : list Z) (owner : gmap Z (nat * Z)) (pgs : list Z) (m : machine).
Context (Hvm : vm_inv rs bs fl owner m) (Hpf : page_frames rs bs fl owner pgs m) (Hk : kernel_pages pgs).

Lemma in_page_vpage p b : p ∈ pgs -> p <= b < p + 4096 -> vpage b = vpage p.
Proof using Hk. intros Hp Hb. destruct (Hk p Hp) as (Ha & _). unfold vpage. pow2s. zdiv. Qed.

Lemma in_page_outside p b : p ∈ pgs -> p <= b < p + 4096 -> outside b.
Proof using Hk. intros Hp Hb. destruct (Hk p Hp) as (_ & ? & ?). apply kernel_outside. lia. Qed.

(** An access to one of the pages reads a word of the frame of its page. *)
Lemma page_load p b e w : p ∈ pgs -> p <= b < p + 4096 -> pte m p = Some e -> Z.testbit e 0 = true ->
  mem m !! page_base e = Some (FWords w) -> load b m = Ret (default 0 (w !! word_index b), m).
Proof using Hvm Hk.
  intros Hp Hb He Hb0 Hw. eapply load_page; [apply Hvm|by eapply in_page_outside| |done|exact Hw].
  rewrite <- He. apply pte_vpage. by apply in_page_vpage.
Qed.

Lemma mword_load b : in_pages pgs b -> exists w, load b m = Ret (w, m) /\ mword m b = Some w.
Proof using All.
  intros (p & Hp & Hb). destruct (pf_frame _ _ _ _ _ _ Hpf p Hp) as (e & w & He & Hb0 & _ & Hw).
  exists (default 0 (w !! word_index b)). unfold mword. rewrite (page_load p b e w) by done. done.
Qed.

(** Writing a word of one of the pages. *)
Lemma page_store a v : in_pages pgs a -> (8 | a) -> exists m', store a v m = Ret (tt, m') /\
  vm_inv rs bs fl owner m' /\ page_frames rs bs fl owner pgs m' /\ m_if m' = m_if m /\
  same_mappings m m' /\ written pgs (mword m) a v (mword m').
Proof using All.
  intros (p & Hp & Ha) [x Hx]. destruct (pf_frame _ _ _ _ _ _ Hpf p Hp) as (e & w & He & Hb0 & (Hpa & Hno & Hna) & Hw).
  set (f := page_base e) in *. set (w' := <[word_index a := v]> w).
  exists (set_mem (<[f := FWords w']> (mem m)) m).
  assert (vm_inv rs bs fl owner (set_mem (<[f := FWords w']> (mem m)) m)) as Hvm'.
  { destruct Hvm as [Hph Hpt Hfr]. split; [by apply phys_inv_set_mem|by apply pt_inv_frame|done]. }
  assert (same_mappings m (set_mem (<[f := FWords w']> (mem m)) m)) as Hsame.
  { intros va Hva. eapply tword_frame; [apply Hvm|done|done|lia]. }
  assert (forall q, q ∈ pgs -> pte (set_mem (<[f := FWords w']> (mem m)) m) q = pte m q) as Hpte.
  { intros q Hq. apply Hsame. eapply in_page_outside; [exact Hq|lia]. }
  split_and!; [|done| |done|done|].
  - eapply store_page; [apply Hvm|by eapply in_page_outside| |exact Hb0|exact Hw].
    rewrite <- He. apply pte_vpage. by apply in_page_vpage.
  - split.
    + intros q Hq. destruct (pf_frame _ _ _ _ _ _ Hpf q Hq) as (e1 & w1 & He1 & Hb1 & Hd1 & Hw1).
      destruct (decide (page_base e1 = f)) as [Heq|Hne].
      * exists e1, w'. rewrite Hpte by done. split_and!; [done..|]. cbn. by rewrite Heq, lookup_insert_eq.
      * exists e1, w1. rewrite Hpte by done. split_and!; [done..|]. cbn. by rewrite lookup_insert_ne.
    + intros q q' e1 e2 Hq Hq'. rewrite !Hpte by done. by eapply pf_apart.
  - intros b (q & Hq & Hb). destruct (pf_frame _ _ _ _ _ _ Hpf q Hq) as (e1 & w1 & He1 & Hb1 & Hd1 & Hw1).
    assert (mword m b = Some (default 0 (w1 !! word_index b))) as ->.
    { unfold mword. rewrite (page_load q b e1 w1) by done. done. }
    assert (forall wq, mem (set_mem (<[f := FWords w']> (mem m)) m) !! page_base e1 = Some (FWords wq) ->
      mword (set_mem (<[f := FWords w']> (mem m)) m) b = Some (default 0 (wq !! word_index b))) as Hm'.
    { intros wq Hwq. unfold mword. erewrite load_page; [done|apply Hvm'|by eapply in_page_outside| |exact Hb1|exact Hwq].
      rewrite <- He1, <- Hpte by done. apply pte_vpage. by apply in_page_vpage. }
    destruct (Hk p Hp) as (Hpm & _), (Hk q Hq) as (Hqm & _).
    destruct (decide (q = p)) as [->|Hne].
    + assert (e1 = e) as -> by congruence. assert (w1 = w) as -> by (unfold f in Hw; congruence).
      rewrite (Hm' w') by (cbn; apply lookup_insert_eq). unfold w'.
      assert (word_index b = word_index a <-> a <= b < a + 8) as Hiff.
      { rewrite !word_index_eq. clear -Hpm Ha Hb Hx. split; intros; zdiv. }
      case_decide as Hd.
      * apply Hiff in Hd as ->. by rewrite lookup_insert_eq.
      * by rewrite lookup_insert_ne by (intros Heq; by apply Hd, Hiff).
    + assert (page_base e1 <> f) as Hf by (intros Hf; by apply Hne, (pf_apart _ _ _ _ _ _ Hpf q p e1 e)).
      rewrite (Hm' w1) by (cbn; by rewrite lookup_insert_ne). rewrite decide_False; [done|].
      intros Hab. apply Hne. apply (aligned_pages_disjoint q p b); [done|done|done|].
      clear -Hpm Ha Hab Hx. zdiv.
Qed.

(** The pages keep their frames and words while the rest of the memory evolves. *)
Lemma frames_evolve P bs' fl' o' m' : evolves rs P bs fl owner m bs' fl' o' m' ->
  (forall p e, p ∈ pgs -> pte m p = Some e -> P (page_base e)) -> (forall p, p ∈ pgs -> pte m' p = pte m p) ->
  page_frames rs bs' fl' o' pgs m' /\ forall b, in_pages pgs b -> mword m' b = mword m b.
Proof using All.
  intros Hev HP Hpte.
  assert (forall p e w, p ∈ pgs -> pte m p = Some e -> data_frame rs bs fl owner (page_base e) ->
    mem m !! page_base e = Some (FWords w) -> mem m' !! page_base e = Some (FWords w)) as Hmem.
  { intros p e w Hp He Hd <-. by apply (ev_data _ _ _ _ _ _ _ _ _ _ Hev); [eapply HP|]. }
  split; [split|].
  - intros p Hp. destruct (pf_frame _ _ _ _ _ _ Hpf p Hp) as (e & w & He & Hb & Hd & Hw). exists e, w.
    rewrite Hpte by done. split_and!; [done|done| |by eapply Hmem].
    by apply (ev_data _ _ _ _ _ _ _ _ _ _ Hev); [eapply HP|].
  - intros p q e e' Hp Hq. rewrite !Hpte by done. by eapply pf_apart.
  - intros b (p & Hp & Hb). destruct (pf_frame _ _ _ _ _ _ Hpf p Hp) as (e & w & He & Hb0 & Hd & Hw).
    unfold mword. rewrite (page_load p b e w) by done.
    erewrite load_page; [done|apply Hev|by eapply in_page_outside| |exact Hb0|by eapply Hmem].
    rewrite <- He, <- Hpte by done. apply pte_vpage. by apply in_page_vpage.
Qed.
End words.

(** ** The invariant *)

(** [out] are the pages handed out, [fp] the pages of the free list. *)
Record page_inv (rs : list PhysRegion) (bs fl : list Z) (owner : gmap Z (nat * Z)) (out fp : list Z)
    (k : kvirt) : Prop := {
  ki_vm : vm_inv rs bs fl owner (mach k);
  ki_frames : page_frames rs bs fl owner (out ++ fp) (mach k);
  ki_unlocked : PAGES k = Mutex_new (value (PAGES k));
  ki_chain : chain (mword (mach k)) (free_page (value (PAGES k))) fp;
  ki_nodup : NoDup (out ++ fp);
  ki_pages : forall p, p ∈ out ++ fp -> p `mod` 4096 = 0 /\ KERNEL_START <= p /\ p + 4096 <= next_ptr (value (PAGES k));
  ki_ptr : next_ptr (value (PAGES k)) `mod` 4096 = 0 /\ KERNEL_START <= next_ptr (value (PAGES k)) <= CURRENT_PML;
  ki_fresh : forall va, next_ptr (value (PAGES k)) <= va < CURRENT_PML -> pte (mach k) va = None
}.

Definition kvirt_inv (out : list Z) (k : kvirt) : Prop :=
  exists rs bs fl owner fp, page_inv rs bs fl owner out fp k.

(** The next page lies below the recursive window. *)
Definition kvirt_room (k : kvirt) : Prop := next_ptr (value (PAGES k)) + 4096 <= CURRENT_PML.

Lemma page_inv_kernel rs bs fl owner out fp k : page_inv rs bs fl owner out fp k -> kernel_pages (out ++ fp).
Proof. intros Hk p Hp. destruct (ki_pages _ _ _ _ _ _ _ Hk p Hp) as (? & ? & ?), (ki_ptr _ _ _ _ _ _ _ Hk). split_and!; (done || lia). Qed.

Lemma page_inv_if rs bs fl owner out fp k b : page_inv rs bs fl owner out fp k -> page_inv rs bs fl owner out fp (set cpu_if b k).
Proof.
  intros [Hvm Hf Hu Hc Hnd Hp Hpt Hfr]. split; [by apply vm_inv_if|by apply page_frames_if|done| |done..].
  eapply chain_ext; [|exact Hc]. intros p _. apply mword_if.
Qed.

(** A body run with the page allocator locked. *)
Lemma wp_pages_locked {B} (body : M kvirt B) (Q : B -> kvirt -> Prop) k :
  PAGES k = Mutex_new (value (PAGES k)) ->
  wp body (fun b k' => m_if (mach k') = false /\
      Q b (set mach_lens (set_if (m_if (mach k)) (mach k'))
            (set PAGE_ALLOCATOR (Mutex_new (value (PAGES k'))) k')))
    (set PAGE_ALLOCATOR (MutexInner (value (PAGES k)) true) (set cpu_if false k)) ->
  wp (with_lock PAGE_ALLOCATOR body) Q k.
Proof.
  intros Hu H. apply wp_with_lock; cbn; [by rewrite Hu|].
  eapply wp_mono; [|exact H]. intros b k' [Hif HQ]. unfold drop_guard, set_locked.
  wp_steps. apply wp_drop_critical. cbn in *.
  destruct (m_if (mach k)); [exact HQ|]. unfold set_if in HQ. rewrite <- Hif in HQ at 1.
  destruct k' as [[] ?]. exact HQ.
Qed.

(** ** Writes to kernel pages *)

(** The memory after writes to the pages [pgs]. *)
Record rewritten (rs : list PhysRegion) (bs fl : list Z) (owner : gmap Z (nat * Z)) (pgs : list Z)
    (m m' : machine) : Prop := {
  rw_vm : vm_inv rs bs fl owner m';
  rw_frames : page_frames rs bs fl owner pgs m';
  rw_if : m_if m' = m_if m;
  rw_same : same_mappings m m'
}.

Section writes.
Context (rs : list PhysRegion) (bs fl : list Z) (owner : gmap Z (nat * Z)) (pgs : list Z) (Hk : kernel_pages pgs).

Lemma wp_kread k a (Q : Z -> kvirt -> Prop) : vm_inv rs bs fl owner (mach k) -> page_frames rs bs fl owner pgs (mach k) ->
  in_pages pgs a -> (forall w, mword (mach k) a = Some w -> Q w k) -> wp (kread a) Q k.
Proof using Hk.
  intros Hvm Hpf Hin HQ. destruct (mword_load rs bs fl owner pgs (mach k) Hvm Hpf Hk a Hin) as (w & Hl & Hw).
  apply wp_zoom. cbn. eapply wp_run; [exact Hl|]. cbn. replace (Kvirt _ _) with k by (by destruct k). by apply HQ.
Qed.

Lemma wp_kwrite k a v (Q : unit -> kvirt -> Prop) : vm_inv rs bs fl owner (mach k) ->
  page_frames rs bs fl owner pgs (mach k) -> in_pages pgs a -> (8 | a) ->
  (forall m', rewritten rs bs fl owner pgs (mach k) m' -> written pgs (mword (mach k)) a v (mword m') ->
     Q tt (set mach_lens m' k)) -> wp (kwrite a v) Q k.
Proof using Hk.
  intros Hvm Hpf Hin Ha HQ.
  destruct (page_store rs bs fl owner pgs (mach k) Hvm Hpf Hk a v Hin Ha) as (m' & Hs & Hvm' & Hpf' & Hif & Hsm & Hw).
  apply wp_zoom. cbn. eapply wp_run; [exact Hs|]. by apply HQ.
Qed.

Lemma rewritten_trans m1 m2 m3 : rewritten rs bs fl owner pgs m1 m2 -> rewritten rs bs fl owner pgs m2 m3 ->
  rewritten rs bs fl owner pgs m1 m3.
Proof using Type. intros [_ _ H1 Hs1] [Hv Hf H2 Hs2]. split; [done|done|congruence|by eapply same_mappings_trans]. Qed.

Lemma wp_kzero ptr n k (Q : unit -> kvirt -> Prop) : vm_inv rs bs fl owner (mach k) ->
  page_frames rs bs fl owner pgs (mach k) -> (8 | ptr) -> (8 | n) -> (forall a, ptr <= a < ptr + n -> in_pages pgs a) ->
  (forall m', rewritten rs bs fl owner pgs (mach k) m' ->
     (forall b, in_pages pgs b -> mword m' b = if decide (ptr <= b < ptr + n) then Some 0 else mword (mach k) b) ->
     Q tt (set mach_lens m' k)) -> wp (kzero ptr n) Q k.
Proof using Hk.
  intros Hvm Hpf Ha [x ->] Hin HQ. unfold kzero. rewrite Z.div_mul by lia.
  assert (forall len i m1, (i + len)%nat = Z.to_nat x -> rewritten rs bs fl owner pgs (mach k) m1 ->
    (forall b, in_pages pgs b -> mword m1 b = if decide (ptr <= b < ptr + 8 * Z.of_nat i) then Some 0 else mword (mach k) b) ->
    wp (for_each (fun i => kwrite (ptr + 8 * Z.of_nat i) 0) (seq i len)) Q (set mach_lens m1 k)) as Hloop.
  { intros len. induction len as [|len IH]; intros i m1 Hi Hrw Hv; cbn [seq for_each].
    - apply wp_ret, HQ; [done|]. intros b Hb. rewrite (Hv b Hb). repeat case_decide; (done || lia).
    - wp_step. apply wp_kwrite; [apply Hrw|apply Hrw|apply Hin; lia|by apply Z.divide_add_r, Z.divide_factor_l|].
      intros m2 Hrw2 Hwr. apply IH; [lia|by eapply rewritten_trans|].
      intros b Hb. rewrite (Hwr b Hb). cbn. rewrite (Hv b Hb). repeat case_decide; (done || lia). }
  replace k with (set mach_lens (mach k) k) at 1 by (by destruct k).
  apply (Hloop _ 0%nat); [done|by split|]. intros b _. by rewrite decide_False by lia.
Qed.
End writes.

(** Writes that leave the links of the free list alone. *)
Lemma page_inv_rewritten rs bs fl o out fp k m' : page_inv rs bs fl o out fp k ->
  rewritten rs bs fl o (out ++ fp) (mach k) m' -> (forall p, p ∈ fp -> mword m' p = mword (mach k) p) ->
  page_inv rs bs fl o out fp (set mach_lens m' k).
Proof.
  intros Hk [Hvm Hf _ Hs] Heq. pose proof Hk as [_ _ Hu Hc Hnd Hp Hpt Hfr].
  split; [done|done|done|by eapply chain_ext|done|done|done|].
  intros va Hva. change (next_ptr (value (PAGES k)) <= va < CURRENT_PML) in Hva. transitivity (pte (mach k) va); [|by apply Hfr].
  apply Hs, kernel_outside. lia.
Qed.

(** A page of the free list holds none of the pages handed out. *)
Lemma page_inv_apart rs bs fl o out fp k p q : page_inv rs bs fl o out fp k -> p ∈ out -> q ∈ fp ->
  forall a, p <= a < p + 4096 -> ~ (q <= a < q + 4096).
Proof.
  intros Hk Hp Hq a Ha Hb. destruct (ki_pages _ _ _ _ _ _ _ Hk p) as (? & _); [apply elem_of_app; by left|].
  destruct (ki_pages _ _ _ _ _ _ _ Hk q) as (? & _); [apply elem_of_app; by right|].
  assert (p = q) as -> by (by apply (aligned_pages_disjoint p q a)).
  pose proof (ki_nodup _ _ _ _ _ _ _ Hk) as (_ & Hd & _)%NoDup_app. by apply (Hd q).
Qed.

Lemma in_pages_sub pgs pgs' a : pgs ⊆ pgs' -> in_pages pgs a -> in_pages pgs' a.
Proof. intros Hs (p & Hp & Ha). exists p. split; [by apply Hs|done]. Qed.

(** ** The page source *)

(** [p] has been added to the pages handed out: it reads as zeros, and the other pages
    keep their contents. *)
Definition page_added (out : list Z) (k : kvirt) (p : Z) (k' : kvirt) : Prop :=
  kvirt_inv (p :: out) k' /\ (forall a, p <= a < p + 4096 -> mword (mach k') a = Some 0) /\
  forall a, in_pages out a -> mword (mach k') a = mword (mach k) a.

Lemma alloc_free_page_spec out k :
  kvirt_inv out k ->
  wp alloc_free_page (fun r k' => match r with Some p => page_added out k p k' | None => k' = k end) k.
Proof.
  intros (rs & bs & fl & o & fp & Hk). pose proof Hk as [Hvm Hpf Hu Hc Hnd Hp Hptr Hfr].
  pose proof (page_inv_kernel _ _ _ _ _ _ _ Hk) as Hker. apply wp_pages_locked; [done|].
  unfold deref, assign. wp_steps. cbn. destruct fp as [|p fp].
  - cbn in Hc. rewrite Hc. wp_step. split; [done|].
    destruct k as [[] [[fp0 np] lk]]. cbn in *. injection Hu as ->. by subst.
  - destruct Hc as (Hh & Hp0 & w & Hw & Hc). rewrite Hh.
    assert (p ∈ out ++ p :: fp) as Hpin by (apply elem_of_app; right; left).
    destruct (Hp p Hpin) as (Hpa & Hpos & Hpl).
    assert ((8 | p)) as Hp8. { apply Z.mod_divide in Hpa as [x ->]; [|done]. exists (x * 512). lia. }
    assert (forall a, p <= a < p + 4096 -> in_pages (out ++ p :: fp) a) as Hin by (intros a Ha; by exists p).
    wp_step. eapply (wp_kread rs bs fl o (out ++ p :: fp)); [exact Hker|by apply vm_inv_if|by apply page_frames_if|apply Hin; lia|].
    intros w' Hw'. assert (w' = w) as ->. { cbn in Hw'. rewrite mword_if in Hw'. congruence. }
    wp_step. eapply (wp_kwrite rs bs fl o (out ++ p :: fp)); [exact Hker|by apply vm_inv_if|by apply page_frames_if|apply Hin; lia|done|].
    intros m1 Hrw1 Hwr1. wp_steps.
    eapply (wp_kzero rs bs fl o (out ++ p :: fp)); [exact Hker|apply Hrw1|apply Hrw1|done|by exists 512|exact Hin|].
    intros m2 Hrw2 Hz. cbn in Hz, Hrw2. wp_step. cbn.
    pose proof (rewritten_trans _ _ _ _ _ _ _ _ Hrw1 Hrw2) as [Hvm2 Hpf2 Hif2 Hsm2]. split; [exact Hif2|].
    assert (forall a, in_pages (out ++ p :: fp) a -> ~ (p <= a < p + 4096) -> mword m2 a = mword (mach k) a) as Hkeep.
    { intros a Ha Hna. rewrite (Hz a Ha). unfold PAGE_SIZE. rewrite decide_False by done.
      rewrite (Hwr1 a Ha), decide_False by lia. cbn. apply mword_if. }
    assert (forall q, q ∈ out \/ q ∈ fp -> q <> p) as Hne.
    { rewrite <- Permutation_middle in Hnd. apply NoDup_cons_inv in Hnd as [Hni _].
      intros q Hq ->. by apply Hni, elem_of_app. }
    assert (forall q a, q ∈ out \/ q ∈ fp -> q <= a < q + 4096 -> mword m2 a = mword (mach k) a) as Hkeep'.
    { intros q a Hq Ha. assert (q ∈ out ++ p :: fp) as Hqin by (rewrite elem_of_app, elem_of_cons; naive_solver).
      apply Hkeep; [by exists q|]. intros Hpa'. apply (Hne q Hq). destruct (Hp q Hqin) as (? & _).
      by apply (aligned_pages_disjoint q p a). }
    split_and!.
    + exists rs, bs, fl, o, fp. split; cbn.
      * by apply vm_inv_if.
      * apply page_frames_if. eapply page_frames_sub; [|exact Hpf2]. set_solver.
      * done.
      * eapply chain_ext; [|exact Hc]. intros q Hq. rewrite mword_if. apply (Hkeep' q); [by right|lia].
      * by rewrite Permutation_middle.
      * intros q Hq. apply Hp. set_solver.
      * exact Hptr.
      * intros va Hva. transitivity (pte (mach k) va); [|by apply Hfr].
        exact (Hsm2 va (kernel_outside va ltac:(lia))).
    + intros a Ha. cbn. rewrite mword_if, (Hz a (Hin a Ha)). by rewrite decide_True.
    + intros a (q & Hq & Ha). cbn. rewrite mword_if. apply (Hkeep' q); [by left|done].
Qed.

Lemma take_ptr_run k :
  PAGES k = Mutex_new (value (PAGES k)) ->
  take_ptr k = Ret (next_ptr (value (PAGES k)),
    set PAGE_ALLOCATOR (Mutex_new (PageAllocator_ (free_page (value (PAGES k)))
      (next_ptr (value (PAGES k)) + PAGE_SIZE))) k).
Proof.
  intros Hu. enough (wp take_ptr (fun r k' => r = next_ptr (value (PAGES k)) /\
    k' = set PAGE_ALLOCATOR (Mutex_new (PageAllocator_ (free_page (value (PAGES k)))
      (next_ptr (value (PAGES k)) + PAGE_SIZE))) k) k) as (r & k' & -> & -> & ->)%wp_iff by done.
  apply wp_pages_locked; [done|]. unfold deref, assign. wp_steps. cbn. split_and!; [done|done|].
  by destruct k as [[] ?].
Qed.

(** Moving the pointer past a page: the pages [pgs] handed out before, and the machine
    [m] in which the next page stays unmapped ([new] is empty) or becomes a page. *)
Lemma page_inv_bump rs bs fl o bs' fl' o' out fp new k m : page_inv rs bs fl o out fp k -> kvirt_room k ->
  new = [] \/ new = [next_ptr (value (PAGES k))] ->
  vm_inv rs bs' fl' o' m -> page_frames rs bs' fl' o' (new ++ out ++ fp) m ->
  (forall p, p ∈ fp -> mword m p = mword (mach k) p) ->
  (forall va, next_ptr (value (PAGES k)) + 4096 <= va < CURRENT_PML -> pte m va = None) ->
  page_inv rs bs' fl' o' (new ++ out) fp
    (set mach_lens m (set PAGE_ALLOCATOR (Mutex_new (PageAllocator_ (free_page (value (PAGES k)))
      (next_ptr (value (PAGES k)) + PAGE_SIZE))) k)).
Proof.
  intros [_ _ Hu Hc Hnd Hp [Ha Hpos] _] Hroom Hnew Hvm Hpf Heq Hfr. unfold kvirt_room in Hroom.
  split; cbn; unfold PAGE_SIZE; rewrite <- ?app_assoc.
  - exact Hvm.
  - exact Hpf.
  - done.
  - eapply chain_ext; [|exact Hc]. exact Heq.
  - destruct Hnew as [->| ->]; [done|]. apply NoDup_cons. split; [|done].
    intros Hin. destruct (Hp _ Hin) as (_ & _ & ?). lia.
  - intros q Hq. apply elem_of_app in Hq as [Hq|Hq].
    + destruct Hnew as [->| ->]; [by apply elem_of_nil in Hq|].
      apply list_elem_of_singleton in Hq as ->. split_and!; (done || lia).
    + destruct (Hp q Hq) as (? & ? & ?). split_and!; (done || lia).
  - split; [zdiv|lia].
  - exact Hfr.
Qed.

(** A mapped frame of zeros reads as zeros. *)
Lemma mapped_zero rs bs fl o m p e a : vm_inv rs bs fl o m -> p `mod` 4096 = 0 -> KERNEL_START <= p -> p + 4096 <= CURRENT_PML ->
  pte m p = Some e -> Z.testbit e 0 = true -> mem m !! page_base e = Some zero_frame -> p <= a < p + 4096 ->
  mword m a = Some 0.
Proof.
  intros Hvm Hp H1 H2 He Hb Hm Ha. unfold mword.
  erewrite load_page; [by rewrite lookup_empty|apply Hvm|apply kernel_outside; lia| |exact Hb|exact Hm].
  rewrite <- He. apply pte_vpage. unfold vpage. pow2s. zdiv.
Qed.

Lemma PageAllocator_alloc_spec out k :
  kvirt_inv out k -> kvirt_room k ->
  wp PageAllocator_alloc (fun r k' => match r with
    | Ok p => page_added out k p k'
    | Err _ => kvirt_inv out k' /\ forall a, in_pages out a -> mword (mach k') a = mword (mach k) a
    end) k.
Proof.
  intros Hki Hr. unfold PageAllocator_alloc. wp_step.
  wp_call alloc_free_page_spec; [|exact Hki]. intros [p|] k1; [by intros; wp_step|]. intros ->.
  destruct Hki as (rs & bs & fl & o & fp & Hk). pose proof Hk as [Hvm Hpf Hu Hc Hnd Hp [Hptr Hrange] Hfr].
  pose proof (page_inv_kernel _ _ _ _ _ _ _ Hk) as Hker.
  wp_step. apply wp_zoom. cbn. wp_call alloc_vm; [|exact Hvm]. unfold kvirt_room in Hr.
  intros [phys|[]] m1 Hpost.
  2: { subst m1. destruct k. split; [|done]. by exists rs, bs, fl, o, fp. }
  destruct Hpost as (Henv & Htab & Hall & Hkn & Hz & Hrc & bs1 & fl1 & Hev1 & Hheld).
  set (np := next_ptr (value (PAGES k))) in *.
  wp_step. eapply wp_run; [by apply take_ptr_run|]. cbn. fold np.
  assert (outside np) as Ho by (apply kernel_outside; lia).
  wp_step. apply wp_zoom. cbn. wp_call (map_ok rs bs1 fl1 o); [|done|apply Hev1|done].
  intros r m2 [(_ & Henv2 & Hr2) (bs2 & fl2 & o2 & Hev2)].
  assert (forall va, np <= va < CURRENT_PML -> pte m1 va = None) as Hfr1.
  { intros va Hva. destruct (Htab va 3%nat) as [_ Ht]; [apply kernel_outside; lia|done|].
    unfold pte. rewrite Ht. apply Hfr. fold np. lia. }
  assert (forall p, p ∈ out ++ fp -> pte m1 p = pte (mach k) p) as Hpte1.
  { intros p Hpin. destruct (Hp p Hpin) as (_ & ? & ?). apply Htab; [apply kernel_outside; lia|done]. }
  destruct (frames_evolve _ _ _ _ _ _ Hvm Hpf Hker _ _ _ _ _ Hev1) as [Hpf1 Heq1]; [done|done|].
  assert (forall va, np + 4096 <= va < CURRENT_PML -> vpage va <> vpage np) as Hvp.
  { intros va Hva. unfold vpage, CURRENT_PML, KERNEL_START in *. pow2s. clear -Hva Hrange. zdiv. }
  assert (forall p, p ∈ out ++ fp -> vpage p <> vpage np) as Hvp'.
  { intros p Hpin. destruct (Hp p Hpin) as (Hpa & ? & ?). unfold vpage, CURRENT_PML, KERNEL_START in *. pow2s.
    clear -Hpa Hptr H H0 Hrange. zdiv. }
  assert (forall p e, p ∈ out ++ fp -> pte m1 p = Some e -> page_base e <> phys) as Hapart.
  { intros p e Hpin He <-. rewrite Hpte1 in He by done. destruct (pf_frame _ _ _ _ _ _ Hpf p Hpin) as (e' & w & He' & _ & (_ & _ & Hna) & _).
    assert (e' = e) as -> by congruence. done. }
  assert (forall p, p ∈ out ++ fp -> pte m2 p = pte m1 p) as Hpte2.
  { intros p Hpin. destruct (Hp p Hpin) as (_ & ? & ?). assert (outside p) by (apply kernel_outside; lia).
    destruct r as [[]|e]; [apply Hr2; [done|by apply Hvp']|by apply Hr2]. }
  destruct (frames_evolve _ _ _ _ _ _ (ev_vm _ _ _ _ _ _ _ _ _ _ Hev1) Hpf1 Hker _ _ _ _ _ Hev2) as [Hpf2 Heq2].
  { intros p e Hpin He. right. by eapply Hapart. }
  { done. }
  assert (forall a, in_pages (out ++ fp) a -> mword m2 a = mword (mach k) a) as Heq by (intros a Ha; by rewrite Heq2, Heq1).
  assert (forall p, p ∈ fp -> mword m2 p = mword (mach k) p) as Heqf.
  { intros p Hpin. apply Heq. exists p. split; [by apply elem_of_app; right|lia]. }
  assert (forall a, in_pages out a -> mword m2 a = mword (mach k) a) as Heqo.
  { intros a Ha. apply Heq. eapply in_pages_sub; [|exact Ha]. set_solver. }
  destruct r as [[]|e].
  - destruct Hr2 as (_ & Hent & Hoth & _). pose proof (held_aligned _ _ _ _ _ _ Hheld) as Hpa.
    assert (page_base (Z.lor phys 3) = phys /\ Z.testbit (Z.lor phys 3) 0 = true) as [Hbase Hbit].
    { split; [apply page_base_lor; [done|unfold PAGE_SIZE; lia]|]. rewrite Z.lor_spec. apply orb_true_r. }
    assert (pte m2 np = Some (Z.lor phys 3)) as He.
    { rewrite Hent. apply nonzero_some. split; [done|]. intros H0. change (Z.lor phys 3 = 0) in H0. by rewrite H0 in Hbit. }
    destruct (ev_data _ _ _ _ _ _ _ _ _ _ Hev2 phys) as (Hd2 & Hm2 & _); [by left| |].
    { eapply held_data; [apply Hev1|done]. }
    rewrite Hz in Hm2. wp_step. split_and!; [|intros a Ha; cbn|exact Heqo].
    + exists rs, bs2, fl2, o2, fp. apply (page_inv_bump rs bs fl o bs2 fl2 o2 out fp [np]); [exact Hk|exact Hr|by right|apply Hev2| |exact Heqf|].
      * split.
        -- intros p [->|Hpin]%elem_of_cons; [|by apply Hpf2]. exists (Z.lor phys 3), ∅. by rewrite Hbase.
        -- intros p q e e' [->|Hpin]%elem_of_cons [->|Hqin]%elem_of_cons He1 He1' Hbb; [done|..|by eapply Hpf2].
           ++ rewrite He in He1. injection He1 as <-. destruct (Hapart q e'); [done|by rewrite <- Hpte2|congruence].
           ++ rewrite He in He1'. injection He1' as <-. destruct (Hapart p e); [done|by rewrite <- Hpte2|congruence].
      * intros va Hva. rewrite Hoth; [apply Hfr1; lia|apply kernel_outside; lia|by apply Hvp].
    + eapply (mapped_zero rs bs2 fl2 o2 m2 np); [apply Hev2|done|lia|done|exact He|done|by rewrite Hbase|done].
  - destruct Hr2 as (He & Hsame & _). destruct e.
    { destruct He as [e' He']. rewrite Hfr1 in He' by lia. discriminate. }
    wp_step. split; [|exact Heqo]. exists rs, bs2, fl2, o2, fp.
    apply (page_inv_bump rs bs fl o bs2 fl2 o2 out fp []); [exact Hk|exact Hr|by left|apply Hev2|exact Hpf2|exact Heqf|].
    intros va Hva. rewrite Hsame by (apply kernel_outside; lia). apply Hfr1. lia.
Qed.

(** Reading and writing a word of a page handed out. *)
Lemma kread_out out k a : kvirt_inv out k -> in_pages out a ->
  exists w, kread a k = Ret (w, k) /\ mword (mach k) a = Some w.
Proof.
  intros (rs & bs & fl & o & fp & Hk) Hin.
  enough (wp (kread a) (fun w k' => k' = k /\ mword (mach k) a = Some w) k) as (w & k' & Hr & -> & Hw)%wp_iff by by exists w.
  eapply (wp_kread rs bs fl o (out ++ fp)); [by eapply page_inv_kernel|apply Hk|apply Hk| |done].
  eapply in_pages_sub; [|exact Hin]. set_solver.
Qed.

Lemma kwrite_out out k a w : kvirt_inv out k -> in_pages out a -> (8 | a) ->
  exists m, kwrite a w k = Ret (tt, set mach_lens m k) /\ kvirt_inv out (set mach_lens m k) /\
    written out (mword (mach k)) a w (mword m).
Proof.
  intros (rs & bs & fl & o & fp & Hk) Hin Ha.
  enough (wp (kwrite a w) (fun _ k' => exists m, k' = set mach_lens m k /\ kvirt_inv out (set mach_lens m k) /\
    written out (mword (mach k)) a w (mword m)) k) as ([] & k' & Hr & m & -> & ? & ?)%wp_iff by by exists m.
  eapply (wp_kwrite rs bs fl o (out ++ fp)); [by eapply page_inv_kernel|apply Hk|apply Hk| |done|].
  { eapply in_pages_sub; [|exact Hin]. set_solver. }
  intros m Hrw Hwr. exists m. split_and!; [done| |].
  - exists rs, bs, fl, o, fp. apply page_inv_rewritten; [done|done|]. intros q Hq. rewrite (Hwr q).
    + rewrite decide_False; [done|]. destruct Hin as (p & Hp & Hpa). intros Hqa.
      destruct Ha as [x Hx], (ki_pages _ _ _ _ _ _ _ Hk p) as (Hpm & _); [apply elem_of_app; by left|].
      eapply (page_inv_apart _ _ _ _ _ _ _ p q Hk Hp Hq q); [|lia]. clear -Hpm Hpa Hqa Hx. zdiv.
    + exists q. split; [apply elem_of_app; by right|lia].
  - intros b Hb. apply Hwr. eapply in_pages_sub; [|exact Hb]. set_solver.
Qed.

(** The page allocator keeps the promise the heap relies on. *)
#[export] Program Instance Kvirt_PageSource : PageSource kvirt := {|
  vword k := mword (mach k);
  vread := kread;
  vwrite := kwrite;
  alloc_page := PageAllocator_alloc;
  pages_inv := kvirt_inv;
  page_room := kvirt_room
|}.
Next Obligation.
  intros out s p (rs & bs & fl & o & fp & Hk) Hp. destruct (ki_pages _ _ _ _ _ _ _ Hk p) as (? & ? & _);
    [apply elem_of_app; by left|]. unfold KERNEL_START in *. split; [done|lia].
Qed.
Next Obligation.
  intros out s (rs & bs & fl & o & fp & Hk). pose proof (ki_nodup _ _ _ _ _ _ _ Hk) as H. by apply NoDup_app in H as (? & _).
Qed.
Next Obligation. intros out s a Hk Hin _. by eapply kread_out. Qed.
Next Obligation. intros out s a w Hk Hin Ha. destruct (kwrite_out out s a w Hk Hin Ha) as (m & ? & ? & ?). by eexists. Qed.
Next Obligation.
  intros out s Hk Hr. eapply wp_mono; [|by apply (PageAllocator_alloc_spec out)].
  intros [p|[]] k' H; [destruct H as (? & _ & ?)|destruct H]; by split.
Qed.

(** A page given back is a page of the free list; the others keep their contents. *)
Lemma PageAllocator_free_spec out k page : kvirt_inv (page :: out) k ->
  wp (PageAllocator_free page) (fun _ k' => kvirt_inv out k' /\
    free_page (value (PAGES k')) = Some page /\
    forall a, in_pages out a -> mword (mach k') a = mword (mach k) a) k.
Proof.
  intros (rs & bs & fl & o & fp & Hk). pose proof Hk as [Hvm Hpf Hu Hc Hnd Hp Hptr Hfr].
  pose proof (page_inv_kernel _ _ _ _ _ _ _ Hk) as Hker. apply wp_pages_locked; [done|].
  unfold deref, assign. wp_steps. cbn.
  destruct (Hp page ltac:(left)) as (Hpa & Hpos & _).
  assert ((8 | page)) as Hp8. { apply Z.mod_divide in Hpa as [x ->]; [|done]. exists (x * 512). lia. }
  eapply (wp_kwrite rs bs fl o (page :: out ++ fp)); [exact Hker|by apply vm_inv_if|by apply page_frames_if| |done|].
  { exists page. split; [left|lia]. }
  intros m Hrw Hwr. cbn in Hwr. wp_step. cbn. split; [by rewrite (rw_if _ _ _ _ _ _ _ Hrw)|].
  apply NoDup_cons_inv in Hnd as [Hni Hnd].
  assert (forall q a, q ∈ out ++ fp -> q <= a < q + 4096 -> mword m a = mword (mach k) a) as Hkeep.
  { intros q a Hq Ha. rewrite (Hwr a), decide_False; [apply mword_if| |exists q; split; [by right|done]].
    intros Hpga. apply Hni. destruct (Hp q ltac:(by right)) as (? & _).
    replace page with q; [done|]. apply (aligned_pages_disjoint q page a); (done || lia). }
  split_and!; [|done|].
  - exists rs, bs, fl, o, (page :: fp). assert (out ++ page :: fp ≡ₚ page :: out ++ fp) as Hperm by by rewrite Permutation_middle.
    split; cbn.
    + apply vm_inv_if, Hrw.
    + apply page_frames_if. eapply page_frames_sub; [|apply Hrw]. intros q. by rewrite Hperm.
    + done.
    + split_and!; [done|unfold KERNEL_START in *; lia|]. exists (enc (free_page (value (PAGES k)))). split.
      * rewrite mword_if, (Hwr page), decide_True by (lia || (exists page; split; [left|lia])). done.
      * rewrite (dec_enc _ _ _ Hc). eapply chain_ext; [|exact Hc]. intros q Hq. rewrite mword_if.
        apply (Hkeep q); [apply elem_of_app; by right|lia].
    + rewrite Hperm. by apply NoDup_cons.
    + intros q. rewrite Hperm. apply Hp.
    + exact Hptr.
    + intros va Hva. transitivity (pte (mach k) va); [|by apply Hfr].
      exact (rw_same _ _ _ _ _ _ _ Hrw va (kernel_outside va ltac:(lia))).
  - intros a (q & Hq & Ha). cbn. rewrite mword_if. apply (Hkeep q); [apply elem_of_app; by left|done].
Qed.

Lemma write_words_run out value : forall ptr k, kvirt_inv out k -> (8 | ptr) ->
  (forall a, ptr <= a < ptr + 8 * Z.of_nat (length value) -> in_pages out a) ->
  exists m, write_words ptr value k = Ret (tt, set mach_lens m k) /\ kvirt_inv out (set mach_lens m k) /\
    (forall a, in_pages out a -> ~ (ptr <= a < ptr + 8 * Z.of_nat (length value)) -> mword m a = mword (mach k) a) /\
    forall i w, value !! i = Some w -> mword m (ptr + 8 * Z.of_nat i) = Some w.
Proof.
  induction value as [|w value IH]; intros ptr k Hk Ha Hin.
  - exists (mach k). replace (set mach_lens (mach k) k) with k by (by destruct k). by split_and!.
  - cbn [length] in Hin. destruct (kwrite_out out k ptr w Hk) as (m1 & Hr1 & Hk1 & Hw1); [apply Hin; lia|done|].
    destruct (IH (ptr + 8) (set mach_lens m1 k)) as (m & Hr & Hkm & Ho & Hv); [done|by apply Z.divide_add_r; [|exists 1]| |].
    { intros a Hal. apply Hin. lia. }
    exists m. split_and!.
    + cbn [write_words]. unfold mbind, M_bind. rewrite Hr1. exact Hr.
    + exact Hkm.
    + intros a Hai Hna. cbn [length] in Hna. rewrite Ho by (done || lia). cbn. rewrite (Hw1 a Hai), decide_False by lia. done.
    + intros [|i] w' Hw; cbn in Hw.
      * injection Hw as <-. replace (ptr + 8 * Z.of_nat 0) with ptr by lia.
        rewrite Ho by (lia || (apply Hin; lia)). cbn. rewrite (Hw1 ptr), decide_True by (lia || (apply Hin; lia)). done.
      * rewrite <- (Hv i w' Hw). f_equal. lia.
Qed.

Lemma PageBox_deref_run out value : forall ptr k, kvirt_inv out k ->
  (forall a, ptr <= a < ptr + 8 * Z.of_nat (length value) -> in_pages out a) ->
  (forall i w, value !! i = Some w -> mword (mach k) (ptr + 8 * Z.of_nat i) = Some w) ->
  PageBox_deref (length value) ptr k = Ret (value, k).
Proof.
  induction value as [|w value IH]; intros ptr k Hk Hin H; [done|]. cbn [length] in Hin.
  destruct (kread_out out k ptr Hk) as (w' & Hr & Hw'); [apply Hin; lia|].
  pose proof (H 0%nat w eq_refl) as H0. replace (ptr + 8 * Z.of_nat 0) with ptr in H0 by lia.
  assert (w' = w) as -> by congruence. cbn [PageBox_deref length]. unfold mbind, M_bind. rewrite Hr.
  rewrite IH; [done|done| |].
  - intros a Ha. apply Hin. lia.
  - intros i w' Hw. rewrite <- (H (S i) w' Hw). f_equal. lia.
Qed.

(** The life of a [PageBox]: [new] takes a page of its own and the box derefs to
    the value; on failure nothing is taken.  Dropping it, for a type without drop
    glue, changes nothing: the page is never given back. *)
Theorem PageBox_life out k value :
  kvirt_inv out k -> kvirt_room k -> (length value <= 512)%nat ->
  wp (PageBox_new value) (fun r k' => match r with
    | Ok page => kvirt_inv (page :: out) k' /\
        (forall a, in_pages out a -> mword (mach k') a = mword (mach k) a) /\
        PageBox_deref (length value) page k' = Ret (value, k') /\
        PageBox_drop (fun _ => mret tt) page k' = Ret (tt, k')
    | Err _ => kvirt_inv out k' /\ forall a, in_pages out a -> mword (mach k') a = mword (mach k) a
    end) k.
Proof.
  intros Hk Hr Hl. unfold PageBox_new. wp_step.
  wp_call PageAllocator_alloc_spec; [|exact Hk|exact Hr]. intros [page|e] k1 H; [|done]. destruct H as (Hk1 & _ & Hkeep).
  assert (page `mod` 4096 = 0 /\ page ∉ out /\ forall q, q ∈ page :: out -> q `mod` 4096 = 0) as (Hpa & Hni & Hal).
  { destruct Hk1 as (rs & bs & fl & o & fp & Hk1). pose proof (ki_pages _ _ _ _ _ _ _ Hk1) as Hp.
    assert (forall q, q ∈ page :: out -> q `mod` 4096 = 0) as Hal by (intros q Hq; apply Hp, elem_of_app; by left).
    split_and!; [apply Hal; left| |exact Hal]. by pose proof (ki_nodup _ _ _ _ _ _ _ Hk1) as ((? & _)%NoDup_cons_inv & _)%NoDup_app. }
  assert (forall a, page <= a < page + 8 * Z.of_nat (length value) -> in_pages (page :: out) a) as Hin.
  { intros a Ha. exists page. split; [left|lia]. }
  destruct (write_words_run (page :: out) value page k1) as (m & Hw & Hkm & Ho & Hv); [done| |done|].
  { apply Z.mod_divide in Hpa as [x ->]; [|done]. exists (x * 512). lia. }
  wp_step. eapply wp_run; [exact Hw|]. cbv beta iota. wp_step.
  split_and!; [done| |by eapply PageBox_deref_run|done].
  intros a (q & Hq & Ha). cbn. rewrite Ho; [apply Hkeep; by exists q|exists q; split; [by right|done]|].
  intros Hpga. apply Hni. replace page with q; [done|].
  apply (aligned_pages_disjoint q page a); [apply Hal; by right|done|done|lia].
Qed.

(** ** The heap of the kernel *)

(** The page allocator's state and the static [ALLOCATOR] of kalloc.rs. *)
Record kernel := Kernel { kv : kvirt; HEAP : Mutex Allocator }.

Definition kv_lens : lens kernel kvirt := Lens kv (fun v k => Kernel v (HEAP k)).
Definition HEAP_ALLOCATOR : lens kernel (Mutex Allocator) :=
  Lens HEAP (fun h k => Kernel (kv k) h).

#[export] Instance kernel_HasCpu : HasCpu kernel :=
  Lens (fun k => m_if (mach (kv k))) (fun b k => Kernel (set cpu_if b (kv k)) (HEAP k)).
#[export] Instance kernel_HasCpu_laws : LensLaws (cpu_if : lens kernel bool).
Proof. split; [done | by intros [[[]]] | done]. Qed.
#[export] Instance HEAP_ALLOCATOR_laws : LensLaws HEAP_ALLOCATOR.
Proof. split; [done | by intros [] | done]. Qed.

Lemma heap_inv_if al gs out (v : kvirt) b : heap_inv al gs out v -> heap_inv al gs out (set cpu_if b v).
Proof.
  intros [Hl Hcl Ho Hp Hs]. split; try done.
  - intros i c g Hc Hg. apply (class_inv_ext v (set cpu_if b v) c c); [done|done| |exact (Hcl i c g Hc Hg)]. intros q _. apply mword_if.
  - destruct Hp as (rs & bs & fl & o & fp & Hk). exists rs, bs, fl, o, fp. by apply page_inv_if.
Qed.

Record kernel_heap (gs : list ghost) (out : list Z) (k : kernel) : Prop := {
  kh_unlocked : HEAP k = Mutex_new (value (HEAP k));
  kh_inv : heap_inv (value (HEAP k)) gs out (kv k)
}.

(** The live blocks of the kernel heap. *)
Definition heap_blocks (gs : list ghost) (k : kernel) : list (Z * Z) := live (value (HEAP k)) gs.

(** The critical pattern of both operations: lock, work on the classes, store
    them, unlock. *)
Lemma wp_heap_locked {B} (f : Allocator -> M kvirt (B * Allocator)) (Q : B -> kernel -> Prop) gs out k :
  kernel_heap gs out k ->
  (forall v, heap_inv (value (HEAP k)) gs out v -> v = set cpu_if false (kv k) ->
     wp (f (value (HEAP k))) (fun ba v' => forall b,
       Q ba.1 (Kernel (set cpu_if b v') (Mutex_new ba.2))) v) ->
  wp (with_lock HEAP_ALLOCATOR (
    al ← deref HEAP_ALLOCATOR;
    '(r, al) ← zoom kv_lens (f al);
    _ ← assign HEAP_ALLOCATOR al;
    mret r)) Q k.
Proof.
  intros [Hu Hi] H. apply wp_with_lock; cbn; [by rewrite Hu|].
  unfold deref, assign. wp_steps. apply wp_zoom. cbn.
  eapply wp_mono; [|apply H; [by apply heap_inv_if|done]].
  intros [b al'] v' HQ. cbn in HQ. wp_steps. unfold drop_guard, set_locked. wp_steps.
  apply wp_drop_critical. cbn. destruct (m_if (mach (kv k))); [by apply HQ|].
  specialize (HQ (m_if (mach v'))). destruct v' as [[] ?]. exact HQ.
Qed.

(** What an access to kernel memory finds; a fault is [None]. *)
Definition kernel_word (k : kernel) (a : Z) : option Z := mword (mach (kv k)) a.

(** A chunk of kernel memory keeps its contents. *)
Definition same_memory (k k' : kernel) (b : Z * Z) : Prop :=
  forall a, b.1 <= a < b.1 + b.2 -> kernel_word k' a = kernel_word k a.

Lemma kernel_word_if v al b a : kernel_word (Kernel (set cpu_if b v) al) a = mword (mach v) a.
Proof. apply mword_if. Qed.

(** A live block can be accessed. *)
Lemma block_word gs out k b a : kernel_heap gs out k -> b ∈ heap_blocks gs k -> b.1 <= a < b.1 + b.2 ->
  in_pages out a /\ exists w, kernel_word k a = Some w.
Proof.
  intros [_ Hi] Hb Ha. destruct b as [q n]. apply elem_of_live in Hb as (i & c & g & Hc & Hg & Hq & ->).
  assert (in_pages out a) as Hin by (eapply block_in_pages; [exact Hi|exact Hc|exact Hg|by right|exact Ha]).
  split; [done|]. destruct (kread_out out (kv k) a) as (w & _ & Hw); [apply Hi|done|by exists w].
Qed.

(** C10: allocating from the kernel heap: for a layout up to a page, [alloc] of
    [GlobalAlloc] takes its two locks and does not panic or fault.  A block it
    returns is large enough and aligned for the layout, overlaps no live block, and
    every address of it, translated through the page tables, reads as zero; the
    contents of every live block are unchanged.  When no frame or page table is left
    it fails and leaves the live blocks and their contents as they were.  The
    invariants of the heap (free and live blocks partition its pages), the page
    allocator (each page is mapped to a frame of its own), the page tables and the
    frame allocator are preserved. *)
Theorem global_alloc_spec gs out k l :
  kernel_heap gs out k -> kvirt_room (kv k) -> layout_ok l ->
  wp (global_alloc kv_lens HEAP_ALLOCATOR l) (fun r k' => match r with
    | Ok p => exists gs' out' n, kernel_heap gs' out' k' /\
        heap_blocks gs' k' ≡ₚ (p, n) :: heap_blocks gs k /\
        layout_size l <= n /\ (layout_align l | p) /\
        (forall a, p <= a < p + n -> kernel_word k' a = Some 0) /\
        (forall q m a, (q, m) ∈ heap_blocks gs k -> p <= a < p + n -> ~ (q <= a < q + m)) /\
        (forall b, b ∈ heap_blocks gs k -> same_memory k k' b)
    | Err _ => kernel_heap gs out k' /\ heap_blocks gs k' = heap_blocks gs k /\
        (forall b, b ∈ heap_blocks gs k -> same_memory k k' b)
    end) k.
Proof.
  intros Hk Hroom Hl. apply (wp_heap_locked (fun al => alloc_layout al l) _ gs out); [exact Hk|].
  assert (forall a, mword (mach (set cpu_if false (kv k))) a = kernel_word k a) as Hif by (intros; apply mword_if).
  intros v Hv ->. wp_call alloc_layout_spec; [|exact Hv|exact Hroom|exact Hl].
  intros [[p|[]] al'] v' Hpost b; cbn [fst snd].
  - destruct Hpost as (gs' & out' & n & Hi & Hlive & Hn & Ha & Hz & Hd & Hs).
    exists gs', out', n. split_and!; [split; [done|by apply heap_inv_if]|done..| |done|].
    + intros a Hpa. rewrite kernel_word_if. by apply Hz.
    + intros c Hc a Hca. rewrite kernel_word_if, <- Hif. by apply (Hs c Hc).
  - destruct Hpost as (Hi & Hlive & Hv'). split_and!; [split; [done|by apply heap_inv_if]|done|].
    intros c Hc a Hca. rewrite kernel_word_if, <- Hif. by apply Hv', (block_word gs out k c a).
Qed.

(** C15: freeing to the kernel heap: [dealloc] of a live block with a layout of its
    size class does not panic, makes exactly that block free, keeps the heap
    invariant, and leaves the contents of every other live block unchanged. *)
Theorem global_dealloc_spec gs out k l i c g ptr lv :
  kernel_heap gs out k -> class (value (HEAP k)) l = Some (i, c) ->
  gs !! i = Some g -> g_live g ≡ₚ ptr :: lv ->
  wp (global_dealloc kv_lens HEAP_ALLOCATOR ptr l) (fun _ k' => exists gs',
    kernel_heap gs' out k' /\ heap_blocks gs k ≡ₚ (ptr, size c) :: heap_blocks gs' k' /\
    forall b, b ∈ heap_blocks gs' k' -> same_memory k k' b) k.
Proof.
  intros Hk Hcl Hg Hlv.
  assert (wp (with_lock HEAP_ALLOCATOR (
    al ← deref HEAP_ALLOCATOR;
    '(r, al) ← zoom kv_lens (al ← free_layout al l ptr; mret (tt, al));
    _ ← assign HEAP_ALLOCATOR al; mret r)) (fun _ k' => exists gs',
    kernel_heap gs' out k' /\ heap_blocks gs k ≡ₚ (ptr, size c) :: heap_blocks gs' k' /\
    forall b, b ∈ heap_blocks gs' k' -> same_memory k k' b) k) as H.
  { apply (wp_heap_locked (fun al => al ← free_layout al l ptr; mret (tt, al)) _ gs out); [exact Hk|].
    intros v Hv ->. wp_step. wp_call (free_layout_spec _ gs out _ l i c g ptr lv); [|exact Hv|exact Hcl|exact Hg|exact Hlv].
    intros al' v' (gs' & Hi & Hlive & Hs). wp_step. intros b. cbn [fst snd]. exists gs'.
    split_and!; [split; [done|by apply heap_inv_if]|done|].
    intros d Hd a Ha. rewrite kernel_word_if. etrans; [by apply (Hs d Hd)|]. apply mword_if. }
  revert H. unfold wp, global_dealloc, with_lock, mbind, M_bind, zoom.
  destruct (lock _ _) as [[]| |]; [|done..]. destruct (deref _ _) as [[]| |]; [|done..].
  by destruct (free_layout _ _ _ _) as [[]| |].
Qed.

(** ** A concrete kernel: one heap page handed out, one on the free list

    The two pages are mapped to the frames [0x9000] and [0xa000]. *)

Definition HEAP_START : Z := 0xffff800000100000.

Definition heap_tables : gmap Z frame :=
  {[ 0x1000 := FWords {[ 511 := 0x1001; 0 := 0x2007; 256 := 0x6007 ]};
     0x2000 := FWords {[ 0 := 0x3007 ]};
     0x3000 := FWords {[ 0 := 0x4007 ]};
     0x4000 := FWords {[ 0 := 0x5007 ]};
     0x6000 := FWords {[ 0 := 0x7007 ]};
     0x7000 := FWords {[ 0 := 0x8007 ]};
     0x8000 := FWords {[ 256 := 0x9003; 257 := 0xa003 ]};
     0x9000 := zero_frame; 0xa000 := zero_frame ]}.

Definition heap_owner : gmap Z (nat * Z) :=
  {[ 0x1000 := (0%nat, 0); 0x2000 := (1%nat, 0); 0x3000 := (2%nat, 0); 0x4000 := (3%nat, 0);
     0x6000 := (1%nat, 256); 0x7000 := (2%nat, 131072); 0x8000 := (3%nat, 67108864) ]}.

Definition heap_machine : machine := set_mem heap_tables example_machine.

Definition example_kernel : kernel :=
  Kernel (Kvirt heap_machine (Mutex_new (PageAllocator_ (Some (HEAP_START + 4096)) (HEAP_START + 8192))))
    (Mutex_new Allocator_new).

Lemma root_words i : word heap_tables 0x1000 i <> 0 -> i = 0 \/ i = 256 \/ i = 511.
Proof.
  rewrite (word_at _ _ {[ 511 := 0x1001; 0 := 0x2007; 256 := 0x6007 ]}) by reflexivity.
  destruct (decide (i = 0)), (decide (i = 256)), (decide (i = 511)); try tauto. intros H.
  by rewrite !lookup_insert_ne, lookup_singleton_ne in H by done.
Qed.

Lemma heap_pt : pt_inv heap_tables 0x1000 heap_owner.
Proof.
  split; [done|done| |].
  - intros t n p H. unfold heap_owner in H. lookup_cases H;
      (split_and!; [lia|done || (intros; lia)|done|by eexists]).
  - intros t n p i H Hn Hi H511 Hne. unfold heap_owner in H. lookup_cases H; try lia;
      [|apply (single_word _ _ 0x3007) in Hne as ->; [done|reflexivity]
       |apply (single_word _ _ 0x4007) in Hne as ->; [done|reflexivity]
       |apply (single_word _ _ 0x7007) in Hne as ->; [done|reflexivity]
       |apply (single_word _ _ 0x8007) in Hne as ->; [done|reflexivity]].
    apply root_words in Hne as [->|[->| ->]]; [done|done|by destruct H511].
Qed.

Lemma heap_vm_inv : vm_inv example_regions [0x100000] [] heap_owner heap_machine.
Proof.
  pose proof (boot_phys_inv _ _ example_boot) as [Hrs Hb (head & Hn & Hc) He Ht Hok Hlen Hbs Hnd Hfl Hrc].
  split; [split; try done; by exists head|exact heap_pt|].
  intros t Hd Hal. assert (phys_inv example_regions [0x100000] [] example_machine) as Hi.
  { exact (boot_phys_inv _ _ example_boot). }
  apply (allocatable_known _ _ _ _ _ Hi) in Hal. revert Hal. apply example_not_known.
  apply elem_of_dom in Hd as [x Hx]. unfold heap_owner in Hx. lookup_cases Hx; lia.
Qed.

(** Below the recursive window nothing else is mapped in the kernel half. *)
Lemma heap_unmapped va : HEAP_START + 8192 <= va < CURRENT_PML -> pte heap_machine va = None.
Proof.
  intros Hva. unfold pte. destruct (tword (mem heap_machine) (root_of heap_machine) va 3) as [e|] eqn:He; [exfalso|done].
  unfold HEAP_START, CURRENT_PML in Hva. revert He. unfold root_of. change (page_base (cr3 heap_machine)) with 0x1000.
  cbn [mem heap_machine set_mem]. intros He.
  assert (forall n t, (n <= 3)%nat -> desc heap_tables 0x1000 va n = Some t -> word heap_tables t (idxd n va) <> 0 /\
    ((n < 3)%nat -> desc heap_tables 0x1000 va (S n) = Some (page_base (word heap_tables t (idxd n va))))) as Hstep.
  { intros n t Hn Hd. destruct (tword heap_tables 0x1000 va n) as [x|] eqn:Hx; [|by rewrite (tword_none _ _ _ n 3) in He].
    pose proof Hx as Hx'. rewrite (tword_desc _ _ _ _ _ Hd) in Hx'. apply nonzero_some in Hx' as [Heq Hne]. split; [congruence|].
    intros _. rewrite desc_S, Hx, Heq. done. }
  destruct (Hstep 0%nat 0x1000 ltac:(lia) eq_refl) as [H0 D1].
  assert (256 <= idxd 0 va < 511) as Hi by (rewrite idxd0; clear -Hva; pow2s; zdiv).
  assert (idxd 0 va = 256) as E0 by (apply root_words in H0; lia). rewrite E0 in D1. specialize (D1 ltac:(lia)).
  destruct (Hstep 1%nat 0x6000 ltac:(lia) D1) as [H1 D2].
  apply (single_word _ _ 0x7007) in H1 as E1; [|reflexivity]. rewrite E1 in D2. specialize (D2 ltac:(lia)).
  destruct (Hstep 2%nat 0x7000 ltac:(lia) D2) as [H2 D3].
  apply (single_word _ _ 0x8007) in H2 as E2; [|reflexivity]. rewrite E2 in D3. specialize (D3 ltac:(lia)).
  destruct (Hstep 3%nat 0x8000 ltac:(lia) D3) as [H3 _].
  assert (idxd 3 va = 256 \/ idxd 3 va = 257) as E3.
  { rewrite (word_at _ _ {[ 256 := 0x9003; 257 := 0xa003 ]}) in H3 by reflexivity.
    destruct (decide (idxd 3 va = 256)), (decide (idxd 3 va = 257)); try tauto.
    by rewrite lookup_insert_ne, lookup_singleton_ne in H3 by done. }
  rewrite idxd0 in E0. rewrite idxd1 in E1. rewrite idxd2 in E2. rewrite idxd3 in E3.
  clear -Hva E0 E1 E2 E3. pow2s. zdiv.
Qed.

Lemma heap_data q : page_aligned q -> q ∉ dom heap_owner -> ~ (0x100000 <= q < 0x103000) ->
  data_frame example_regions [0x100000] [] heap_owner q.
Proof.
  intros Ha Hd Hq. split_and!; [done|done|]. intros Hal.
  by eapply (example_not_known q Hq), (allocatable_known _ _ _ _ _ (vm_phys _ _ _ _ _ heap_vm_inv)).
Qed.

Lemma example_kernel_inv : kvirt_inv [HEAP_START] (kv example_kernel).
Proof.
  exists example_regions, [0x100000], [], heap_owner, [HEAP_START + 4096].
  assert (pte heap_machine HEAP_START = Some 0x9003 /\ pte heap_machine (HEAP_START + 4096) = Some 0xa003) as [P1 P2]
    by (split; vm_compute; reflexivity).
  assert (forall p, p ∈ [HEAP_START] ++ [HEAP_START + 4096] -> p = HEAP_START \/ p = HEAP_START + 4096) as Hcases.
  { intros p [->|Hp%list_elem_of_singleton]%elem_of_cons; tauto. }
  split.
  - exact heap_vm_inv.
  - split; cbn [mach kv example_kernel].
    + intros p [->| ->]%Hcases; [exists 0x9003|exists 0xa003]; exists ∅;
        (split_and!; [done|reflexivity| |reflexivity]);
        (apply heap_data; [reflexivity|by apply not_elem_of_dom|change (page_base _) with 0x9000 || change (page_base _) with 0xa000; lia]).
    + intros p q e e' [->| ->]%Hcases [->| ->]%Hcases; rewrite ?P1, ?P2; intros [= <-] [= <-] Hb; (done || by vm_compute in Hb).
  - done.
  - split_and!; [done|done|]. exists 0. split; [vm_compute; reflexivity|done].
  - apply NoDup_cons. split; [|by apply NoDup_singleton]. rewrite list_elem_of_singleton. unfold HEAP_START. lia.
  - cbn [value PAGES next_ptr kv example_kernel Mutex_new]. intros p [->| ->]%Hcases; (split; [reflexivity|unfold HEAP_START, KERNEL_START; lia]).
  - split; [reflexivity|cbn; unfold HEAP_START, KERNEL_START, CURRENT_PML; lia].
  - exact heap_unmapped.
Qed.

Definition example_ghosts (live_page : bool) : list ghost :=
  replicate 8 (Ghost [] [] []) ++
    [if live_page then Ghost [HEAP_START] [] [HEAP_START] else Ghost [] [] []].

Lemma example_heap_inv : kernel_heap (example_ghosts true) [HEAP_START] example_kernel.
Proof.
  assert (class_size_ok 16 /\ class_size_ok 32 /\ class_size_ok 64 /\ class_size_ok 128 /\
    class_size_ok 256 /\ class_size_ok 512 /\ class_size_ok 1024 /\ class_size_ok 2048 /\
    class_size_ok 4096) as (?&?&?&?&?&?&?&?&?).
  { unfold class_size_ok. split_and!; first [lia|by apply Z.mod_divide]. }
  split; [done|]. split; [done| |done|exact example_kernel_inv|done].
  intros i c g Hc Hg. do 9 (destruct i as [|i];
    [cbn in Hc, Hg; injection Hc as <-; injection Hg as <-; by split|]).
  by destruct i.
Qed.

Lemma global_alloc_spec_witness :
  exists p k', global_alloc kv_lens HEAP_ALLOCATOR (Layout_ 24 8) example_kernel = Ret (Ok p, k') /\
    (8 | p).
Proof.
  assert (layout_ok (Layout_ 24 8)) as Hl by (split; [cbn; lia|by exists 3]).
  assert (kvirt_room (kv example_kernel)) as Hroom by by vm_compute.
  pose proof (global_alloc_spec _ _ _ _ example_heap_inv Hroom Hl) as H.
  destruct (proj1 (wp_iff _ _ _) H) as ([p|[]] & k' & Hrun & Hpost).
  - destruct Hpost as (gs' & out' & n & _ & _ & _ & Hal & _). exists p, k'. split; [exact Hrun|exact Hal].
  - exfalso. assert (exists p t, global_alloc kv_lens HEAP_ALLOCATOR (Layout_ 24 8) example_kernel =
      Ret (Ok p, t)) as (p & t & Ht) by (do 2 eexists; vm_compute; reflexivity).
    rewrite Hrun in Ht. discriminate.
Defined.

Lemma global_dealloc_spec_witness :
  exists k', global_dealloc kv_lens HEAP_ALLOCATOR HEAP_START (Layout_ 4096 8) example_kernel =
    Ret (tt, k').
Proof.
  pose proof (global_dealloc_spec (example_ghosts true) [HEAP_START] example_kernel
    (Layout_ 4096 8) 8 (SizeClass_new 4096) (Ghost [HEAP_START] [] [HEAP_START]) HEAP_START []
    example_heap_inv) as H.
  destruct (proj1 (wp_iff _ _ _) (H eq_refl eq_refl (reflexivity _))) as ([] & k' & Hrun & _). exists k'. exact Hrun.
Defined.
