(* ===== verification/Arc.v ===== *)
(** * Arc: shared ownership ([kernel/src/sync/arc.rs])

    An [Arc] is the address of an [ArcObject]: a reference count and an object.
    The cells that exist are a map from addresses; the allocator's answers and
    the drop glue of the object are parameters of the operations. *)

From S2P Require Import Prelude Sync Machine Kheap.

Section arc.
Context {S T : Type}.
Context (cells : lens S (gmap Z (Z * T))).       (* [ArcObject]: count, object *)
Context (alloc_answer : M S bool).               (* does [kalloc::alloc] succeed *)
Context (drop_in_place : T -> M S unit).

(** [Arc::new]; when the allocation fails the object is dropped. *)
Definition Arc_new (object : T) : M S (result Z unit) :=
  ok ← alloc_answer;
  if ok : bool then
    m ← gets (view cells);
    let ptr := fresh ({[ 0 ]} ∪ dom m) in   (* not null *)
    _ ← modify (set cells (<[ptr := (1, object)]> m));
    mret (Ok ptr)
  else _ ← drop_in_place object; mret (Err tt).

(** [self.ptr.as_ref()] *)
Definition as_ref (ptr : Z) : M S (Z * T) :=
  m ← gets (view cells);
  match m !! ptr with
  | Some cell => mret cell
  | None => ub "Arc used after free"
  end.

Definition Arc_deref (ptr : Z) : M S T := cell ← as_ref ptr; mret cell.2.

Definition set_count (ptr n : Z) (object : T) : M S unit :=
  modify (fun s => set cells (<[ptr := (wrap64 n, object)]> (view cells s)) s).

Definition Arc_clone (ptr : Z) : M S Z :=
  cell ← as_ref ptr;
  _ ← set_count ptr (cell.1 + 1) cell.2;
  mret ptr.

Definition Arc_drop (ptr : Z) : M S unit :=
  cell ← as_ref ptr;
  _ ← set_count ptr (cell.1 - 1) cell.2;
  if cell.1 =? 0 then panic "Arc::drop: ref_count underflow!"
  else if cell.1 =? 1 then
    _ ← drop_in_place cell.2;
    modify (fun s => set cells (delete ptr (view cells s)) s)
  else mret tt.
End arc.

(** The layout [drop] passes to [free_layout]: that of the pointer. *)
Definition POINTER_LAYOUT : Layout := Layout_ 8 8.

(** ** Ownership

    The handles that exist, over an arena that logs the objects dropped. *)

Record arena (T : Type) := Arena { arcs : gmap Z (Z * T); answers : list bool; dropped : list T }.
Arguments Arena {T} _ _ _.
Arguments arcs {T} _.
Arguments answers {T} _.
Arguments dropped {T} _.

Section ownership.
Context {T : Type}.

Definition arcs_lens : lens (arena T) (gmap Z (Z * T)) :=
  Lens arcs (fun m s => Arena m (answers s) (dropped s)).

Definition arena_answer : M (arena T) bool := fun s =>
  match answers s with
  | [] => Ret (false, s)
  | b :: bs => Ret (b, Arena (arcs s) bs (dropped s))
  end.

Definition arena_drop (o : T) : M (arena T) unit :=
  modify (fun s => Arena (arcs s) (answers s) (o :: dropped s)).

Definition new := Arc_new arcs_lens arena_answer arena_drop.
Definition clone := Arc_clone arcs_lens (S := arena T) (T := T).
Definition drop := Arc_drop arcs_lens arena_drop.

(** A state and the handles alive in it; objects put in so far. *)
Definition config : Type := arena T * list Z * list T.

Inductive arc_step : config -> config -> Prop :=
| arc_step_new s s' p o live created :
    Z.of_nat (length live) < u64_limit - 1 ->
    new o s = Ret (Ok p, s') -> arc_step (s, live, created) (s', p :: live, o :: created)
| arc_step_fail s s' o live created :
    new o s = Ret (Err tt, s') -> arc_step (s, live, created) (s', live, o :: created)
| arc_step_clone s s' p live created :
    p ∈ live -> Z.of_nat (length live) < u64_limit - 1 ->
    clone p s = Ret (p, s') -> arc_step (s, live, created) (s', p :: live, created)
| arc_step_drop s s' p live live' created :
    live ≡ₚ p :: live' -> drop p s = Ret (tt, s') ->
    arc_step (s, live, created) (s', live', created).

Definition count (live : list Z) (p : Z) : Z := Z.of_nat (count_occ Z.eq_dec live p).

Definition objects (m : gmap Z (Z * T)) : list T := (fun kv => kv.2.2) <$> map_to_list m.

Record arc_inv (c : config) : Prop := {
  ai_count : forall p n o, arcs c.1.1 !! p = Some (n, o) -> n = count c.1.2 p /\ 0 < n;
  ai_live : forall p, p ∈ c.1.2 -> is_Some (arcs c.1.1 !! p);
  ai_len : Z.of_nat (length c.1.2) < u64_limit;
  ai_objects : c.2 ≡ₚ dropped c.1.1 ++ objects (arcs c.1.1)
}.

Lemma count_cons live p q : count (p :: live) q = (if decide (q = p) then 1 else 0) + count live q.
Proof.
  unfold count. cbn. destruct (Z.eq_dec p q), (decide (q = p)); subst; try done; lia.
Qed.

Lemma count_perm live live' p : live ≡ₚ live' -> count live p = count live' p.
Proof. intros H. unfold count. f_equal. by apply Permutation_count_occ. Qed.

Lemma count_le live p : 0 <= count live p <= Z.of_nat (length live).
Proof. unfold count. pose proof (count_occ_bound Z.eq_dec p live). lia. Qed.

Lemma count_pos live p : p ∈ live -> 0 < count live p.
Proof.
  intros H%list_elem_of_In. unfold count.
  apply (count_occ_In Z.eq_dec) in H. lia.
Qed.

Lemma objects_insert m p n o : m !! p = None -> objects (<[p := (n, o)]> m) ≡ₚ o :: objects m.
Proof. intros H. unfold objects. by rewrite map_to_list_insert. Qed.

Lemma objects_delete m p n o : m !! p = Some (n, o) -> objects m ≡ₚ o :: objects (delete p m).
Proof. intros H. unfold objects. by rewrite <- (map_to_list_delete m p (n, o)). Qed.

Lemma objects_update m p n n' o : m !! p = Some (n, o) -> objects (<[p := (n', o)]> m) ≡ₚ objects m.
Proof.
  intros H. rewrite (objects_delete (<[p := (n', o)]> m) p n' o) by apply lookup_insert_eq.
  rewrite delete_insert_eq. symmetry. by apply (objects_delete m p n o).
Qed.

Lemma new_run o s :
  new o s = match answers s with
    | true :: bs => let p := fresh ({[ 0 ]} ∪ dom (arcs s)) in
        Ret (Ok p, Arena (<[p := (1, o)]> (arcs s)) bs (dropped s))
    | false :: bs => Ret (Err tt, Arena (arcs s) bs (o :: dropped s))
    | [] => Ret (Err tt, Arena (arcs s) [] (o :: dropped s))
    end.
Proof.
  unfold new, Arc_new, arena_answer, arena_drop, mbind, M_bind.
  destruct (answers s) as [|[] bs] eqn:H; unfold gets, modify; cbn; rewrite ?H; done.
Qed.

Lemma clone_run p s n o :
  arcs s !! p = Some (n, o) ->
  clone p s = Ret (p, Arena (<[p := (wrap64 (n + 1), o)]> (arcs s)) (answers s) (dropped s)).
Proof. intros H. unfold clone, Arc_clone, as_ref, mbind, M_bind, gets. cbn. by rewrite H. Qed.

Lemma drop_run p s n o :
  arcs s !! p = Some (n, o) -> n <> 0 ->
  drop p s = Ret (tt, if n =? 1 then Arena (delete p (arcs s)) (answers s) (o :: dropped s)
    else Arena (<[p := (wrap64 (n - 1), o)]> (arcs s)) (answers s) (dropped s)).
Proof.
  intros H Hn. unfold drop, Arc_drop, as_ref, mbind, M_bind, gets. cbn. rewrite H. cbn.
  rewrite (proj2 (Z.eqb_neq n 0)) by done. destruct (n =? 1); [|done].
  unfold arena_drop, modify. cbn. by rewrite delete_insert_eq.
Qed.

Lemma arc_new_inv s s' p o live created :
  arc_inv (s, live, created) -> Z.of_nat (length live) < u64_limit - 1 ->
  new o s = Ret (Ok p, s') -> arc_inv (s', p :: live, o :: created).
Proof.
  intros [Hc Hl Hn Ho] Hlen Hr. rewrite new_run in Hr. cbn in *.
  destruct (answers s) as [|[] bs]; simplify_eq. set (p := fresh ({[ 0 ]} ∪ dom (arcs s))).
  assert (arcs s !! p = None) as Hp.
  { apply not_elem_of_dom. intros Hin. apply (is_fresh ({[ 0 ]} ∪ dom (arcs s))). set_solver. }
  assert (count live p = 0) as H0.
  { unfold count. rewrite (proj1 (count_occ_not_In Z.eq_dec live p)); [done|].
    intros Hin%list_elem_of_In. apply Hl in Hin as [? Hin]. by rewrite Hp in Hin. }
  split; cbn.
  - intros q n x. rewrite count_cons. intros [(<- & [= <- <-])|(Hne & Hq)]%lookup_insert_Some.
    + rewrite decide_True by done. lia.
    + rewrite decide_False by done. destruct (Hc q n x Hq). lia.
  - intros q [->|Hq]%elem_of_cons; [by rewrite lookup_insert_eq|].
    rewrite lookup_insert_ne; [by apply Hl|]. intros <-. apply Hl in Hq as [? Hq]. by rewrite Hp in Hq.
  - rewrite Nat2Z.inj_succ. lia.
  - rewrite Ho, objects_insert by done. by rewrite Permutation_middle.
Qed.

Lemma arc_clone_inv s s' p live created :
  arc_inv (s, live, created) -> p ∈ live -> Z.of_nat (length live) < u64_limit - 1 ->
  clone p s = Ret (p, s') -> arc_inv (s', p :: live, created).
Proof.
  intros [Hc Hl Hn Ho] Hp Hlen Hr. cbn in *. destruct (Hl p Hp) as [[n o] Hcell].
  rewrite (clone_run p s n o Hcell) in Hr. simplify_eq. destruct (Hc p n o Hcell) as [Hcnt Hpos].
  pose proof (count_le live p) as Hle.
  rewrite wrap64_small by (unfold in_u64; lia). split; cbn.
  - intros q m x. rewrite count_cons. intros [(<- & [= <- <-])|(Hne & Hq)]%lookup_insert_Some.
    + rewrite decide_True by done. lia.
    + rewrite decide_False by done. destruct (Hc q m x Hq). lia.
  - intros q Hq. destruct (decide (p = q)) as [<-|]; [by rewrite lookup_insert_eq|].
    rewrite lookup_insert_ne by done. apply Hl. by apply elem_of_cons in Hq as [->|].
  - rewrite Nat2Z.inj_succ. lia.
  - rewrite Ho. by rewrite (objects_update _ _ n).
Qed.

Lemma arc_drop_inv s s' p live live' created :
  arc_inv (s, live, created) -> live ≡ₚ p :: live' ->
  drop p s = Ret (tt, s') -> arc_inv (s', live', created).
Proof.
  intros [Hc Hl Hn Ho] Hp Hr. cbn in *.
  assert (p ∈ live) as Hin by (rewrite Hp; left).
  destruct (Hl p Hin) as [[n o] Hcell]. destruct (Hc p n o Hcell) as [Hcnt Hpos].
  rewrite (drop_run p s n o Hcell) in Hr by lia. simplify_eq.
  assert (forall q, count live q = (if decide (q = p) then 1 else 0) + count live' q) as Hcount.
  { intros q. by rewrite (count_perm _ _ q Hp), count_cons. }
  pose proof (Hcount p) as Hcp. rewrite decide_True in Hcp by done.
  assert (length live = S (length live')) as Hlen by (by rewrite Hp).
  pose proof (count_le live' p).
  destruct (Z.eqb_spec (count live p) 1) as [H1|H1]; split; cbn.
  - intros q m x [Hne Hq]%lookup_delete_Some. destruct (Hc q m x Hq) as [-> ?].
    rewrite Hcount, decide_False in * by done. lia.
  - intros q Hq. rewrite lookup_delete_ne; [apply Hl; rewrite Hp; by right|]. intros <-.
    apply count_pos in Hq. lia.
  - lia.
  - rewrite Ho, (objects_delete _ p _ o Hcell). symmetry. by rewrite Permutation_middle.
  - intros q m x [(<- & [= <- <-])|(Hne & Hq)]%lookup_insert_Some.
    + rewrite wrap64_small by (unfold in_u64; lia). lia.
    + destruct (Hc q m x Hq) as [-> ?]. rewrite Hcount, decide_False in * by done. lia.
  - intros q Hq. destruct (decide (p = q)) as [<-|]; [by rewrite lookup_insert_eq|].
    rewrite lookup_insert_ne by done. apply Hl. rewrite Hp. by right.
  - lia.
  - rewrite Ho. by rewrite (objects_update _ p (count live p)).
Qed.

Lemma arc_inv_step c c' : arc_step c c' -> arc_inv c -> arc_inv c'.
Proof.
  intros [s s' p o live created Hl Hr|s s' o live created Hr|s s' p live created Hp Hl Hr
    |s s' p live live' created Hp Hr] Hi.
  - by eapply arc_new_inv.
  - destruct Hi as [Hc Hl Hn Ho]. rewrite new_run in Hr. cbn in *.
    destruct (answers s) as [|[] bs]; simplify_eq; split; cbn; try done; by rewrite Ho.
  - by eapply arc_clone_inv.
  - by eapply arc_drop_inv.
Qed.
End ownership.

(** C22: shared ownership is exact: after any sequence of creations, clones and
    drops, each count is the number of handles, every handle reaches its object,
    and every object ever put into an [Arc] is either still held by at least one
    handle or has been dropped, once (an allocation failure drops it too); cloning
    or dropping any live handle does not panic and touches no freed memory. *)
Theorem arc_safe {T} (bs : list bool) (s : arena T) live created :
  rtc arc_step (Arena ∅ bs [], [], []) (s, live, created) ->
  (forall p, p ∈ live -> exists o, arcs s !! p = Some (count live p, o)) /\
  created ≡ₚ dropped s ++ objects (arcs s) /\
  (forall p n o, arcs s !! p = Some (n, o) -> p ∈ live) /\
  (forall p, p ∈ live -> (exists s', clone p s = Ret (p, s')) /\ exists s', drop p s = Ret (tt, s')).
Proof.
  intros Hr. assert (arc_inv (s, live, created)) as [Hc Hl Hn Ho].
  { eapply rtc_invariant; [apply arc_inv_step| |exact Hr]. split; cbn; try done.
    by intros p ?%elem_of_nil. }
  cbn in *. split_and!.
  - intros p Hp. destruct (Hl p Hp) as [[n o] Hcell]. destruct (Hc p n o Hcell) as [-> _]. by exists o.
  - exact Ho.
  - intros p n o Hcell. destruct (Hc p n o Hcell) as [Hn' Hpos]. apply list_elem_of_In.
    apply (count_occ_In Z.eq_dec). unfold count in *. lia.
  - intros p Hp. destruct (Hl p Hp) as [[n o] Hcell]. destruct (Hc p n o Hcell) as [Hn' Hpos].
    split; eexists; [by eapply clone_run|eapply drop_run; [done|lia]].
Qed.

Lemma arc_safe_witness :
  exists s : arena nat, rtc arc_step (Arena ∅ [true] [], [], []) (s, [1; 1], [7%nat]) /\
    arcs s !! 1 = Some (2, 7%nat).
Proof.
  eexists. assert (Hr : rtc arc_step (Arena (T := nat) ∅ [true] [], [], [])
    (Arena {[ 1 := (2, 7%nat) ]} [] [], [1; 1], [7%nat])).
  { apply (rtc_l _ _ (Arena {[ 1 := (1, 7%nat) ]} [] [], [1], [7%nat])).
    - apply arc_step_new; [done|by vm_compute].
    - apply rtc_once. apply arc_step_clone; [left|done|by vm_compute]. }
  split; [exact Hr|].
  destruct (arc_safe _ _ _ _ Hr) as (H & _). destruct (H 1) as [o Ho]; [left|].
  reflexivity.
Defined.

(** [Arc::drop] frees with the layout of its pointer, not of the object: for
    an object of more than 16 bytes it gives the block to the size class of 16
    bytes instead of the class the block was taken from. *)
Theorem arc_frees_wrong_class (al : Allocator) l :
  size <$> al = CLASS_SIZES -> layout_ok l -> 16 < layout_size l ->
  exists i c i' c', class al POINTER_LAYOUT = Some (i, c) /\ class al l = Some (i', c') /\
    size c = 16 /\ size c < size c' /\ i <> i'.
Proof.
  intros Hs Hl H16. destruct (class_found al l Hs Hl) as (i' & c' & Hcl' & Hc' & Hsz & _).
  destruct al as [|c al]; [done|]. cbn in Hs. injection Hs as Hs0 _.
  exists 0%nat, c, i', c'. split_and!; [|done|done|lia|].
  - unfold class. cbn. rewrite decide_True; [done|]. apply Is_true_true. unfold fits. rewrite Hs0. done.
  - intros <-. cbn in Hc'. simplify_eq. lia.
Qed.

Lemma arc_frees_wrong_class_witness :
  exists i c i' c', class Allocator_new POINTER_LAYOUT = Some (i, c) /\
    class Allocator_new (Layout_ 24 8) = Some (i', c') /\ size c < size c' /\ i <> i'.
Proof.
  destruct (arc_frees_wrong_class Allocator_new (Layout_ 24 8)) as (i & c & i' & c' & H1 & H2 & _ & H3 & H4).
  - done.
  - split; [cbn; lia|by exists 3].
  - cbn. lia.
  - by exists i, c, i', c'.
Defined.
