(* ===== verification/AtomicList.v ===== *)
(** * AtomicList: the lock-free list ([kernel/src/util/atomic_list.rs])

    Several threads push items and take the whole list at once.  Each atomic
    access of the code is one step of one thread; the steps interleave freely.
    Boxes live in a shared heap of items by address, null being 0; freeing a box
    removes it, and its address may be handed out again. *)

From S2P Require Import Prelude.

Section atomic_list.
Context {T : Type}.

Record Item := Item_ { next : Z; item : T }.

Record shared := Shared { head : Z; boxes : gmap Z Item }.

(** [AtomicList::new] *)
Definition new : shared := Shared 0 ∅.

(** Where a thread is.  [item] is the box being pushed, [head] what was loaded. *)
Inductive pc :=
| Idle
| Boxed (item : Z)              (* top of the loop of [push_front] *)
| Loaded (item head : Z)
| Stored (item head : Z)
| Iter (head : Z).              (* an [AtomicListIter] *)

(** What an idle thread does next. *)
Inductive action :=
| Push (x : T) (alloc_succeeds : bool)
| Take.

(** One step: the new shared state and position, the items whose push takes
    effect, the items an iterator yields. *)
Definition effect : Type := shared * pc * list T * list T.

Definition box_new (s : shared) (x : T) : Z * shared :=
  let p := fresh ({[ 0 ]} ∪ dom (boxes s)) in
  (p, Shared (head s) (<[p := Item_ 0 x]> (boxes s))).

(** [item.next.store(head)] *)
Definition store_next (s : shared) (p h : Z) : outcome shared :=
  match boxes s !! p with
  | Some it => Ret (Shared (head s) (<[p := Item_ h (item it)]> (boxes s)))
  | None => UB "item used after free"
  end.

(** [AtomicListIter::next] *)
Definition iter_next (s : shared) (h : Z) : outcome effect :=
  if h =? 0 then Ret (s, Idle, [], [])
  else match boxes s !! h with
       | Some it => Ret (Shared (head s) (delete h (boxes s)), Iter (next it), [], [item it])
       | None => UB "item used after free"
       end.

Definition step (a : action) (s : shared) (t : pc) : outcome effect :=
  match t with
  | Idle =>
      match a with
      | Push x true => let '(p, s) := box_new s x in Ret (s, Boxed p, [], [])
      | Push x false => Ret (s, Idle, [], [])                  (* Err(MemoryExhausted) *)
      | Take => Ret (Shared 0 (boxes s), Iter (head s), [], [])
      end
  | Boxed p => Ret (s, Loaded p (head s), [], [])
  | Loaded p h => s ← store_next s p h; Ret (s, Stored p h, [], [])
  | Stored p h =>
      if head s =? h then
        match boxes s !! p with
        | Some it => Ret (Shared p (boxes s), Idle, [item it], [])
        | None => UB "item used after free"
        end
      else Ret (s, Boxed p, [], [])
  | Iter h => iter_next s h
  end.

(** ** Threads *)

Record system := System {
  mem : shared;
  threads : list pc;
  pushed : list T;      (* items whose compare-and-swap succeeded *)
  yielded : list T      (* items returned by iterators *)
}.

Inductive sys_step : system -> system -> Prop :=
| sys_step_thread c i t a s' t' ps ys :
    threads c !! i = Some t -> step a (mem c) t = Ret (s', t', ps, ys) ->
    sys_step c (System s' (<[i := t']> (threads c)) (ps ++ pushed c) (ys ++ yielded c)).

Definition start (n : nat) : system := System new (replicate n Idle) [] [].

(** ** The invariant *)

Fixpoint chain (b : gmap Z Item) (h : Z) (l : list (Z * T)) : Prop :=
  match l with
  | [] => h = 0
  | (p, x) :: l => h = p /\ p <> 0 /\ exists n, b !! p = Some (Item_ n x) /\ chain b n l
  end.

(** The boxes a thread owns. *)
Definition owns (b : gmap Z Item) (t : pc) (l : list (Z * T)) : Prop :=
  match t with
  | Idle => l = []
  | Boxed p => exists x n, l = [(p, x)] /\ p <> 0 /\ b !! p = Some (Item_ n x)
  | Loaded p _ => exists x n, l = [(p, x)] /\ p <> 0 /\ b !! p = Some (Item_ n x)
  | Stored p h => exists x, l = [(p, x)] /\ p <> 0 /\ b !! p = Some (Item_ h x)
  | Iter h => chain b h l
  end.

(** The items in an iterator count as pushed; the item being pushed does not. *)
Definition contrib (t : pc) (l : list (Z * T)) : list T :=
  match t with Iter _ => l.*2 | _ => [] end.

Record inv (c : system) (gl : list (Z * T)) (gs : list (list (Z * T))) : Prop := {
  inv_head : chain (boxes (mem c)) (head (mem c)) gl;
  inv_owns : Forall2 (owns (boxes (mem c))) (threads c) gs;
  inv_nodup : NoDup ((gl ++ mjoin gs).*1);
  inv_dom : forall p, is_Some (boxes (mem c) !! p) <-> p ∈ (gl ++ mjoin gs).*1;
  inv_items : pushed c ≡ₚ yielded c ++ gl.*2 ++ mjoin (zip_with contrib (threads c) gs)
}.

Lemma list_chain_ext b b' h l :
  (forall p, p ∈ l.*1 -> b' !! p = b !! p) -> chain b h l -> chain b' h l.
Proof.
  revert h. induction l as [|[p x] l IH]; intros h Heq; [done|]. cbn in Heq.
  intros (-> & Hp & n & Hb & Hc). split_and!; [done..|]. exists n. split.
  - rewrite Heq by left. done.
  - apply IH; [|done]. intros q Hq. apply Heq. by right.
Qed.

Lemma owns_ext b b' t l :
  (forall p, p ∈ l.*1 -> b' !! p = b !! p) -> owns b t l -> owns b' t l.
Proof.
  intros Heq. destruct t; cbn; [done|..].
  - intros (x & n & -> & Hp & Hb). exists x, n. split_and!; [done..|]. rewrite Heq; [done|left].
  - intros (x & n & -> & Hp & Hb). exists x, n. split_and!; [done..|]. rewrite Heq; [done|left].
  - intros (x & -> & Hp & Hb). exists x. split_and!; [done..|]. rewrite Heq; [done|left].
  - by apply list_chain_ext.
Qed.

Lemma join_split {A} (gs : list (list A)) i g :
  gs !! i = Some g -> mjoin gs ≡ₚ g ++ mjoin (delete i gs).
Proof.
  revert i. induction gs as [|h gs IH]; intros [|i] Hi; cbn in *; simplify_eq; [done|].
  rewrite (IH i) by done. apply Permutation_app_swap_app.
Qed.

Lemma join_insert {A} (gs : list (list A)) i g g' :
  gs !! i = Some g -> mjoin (<[i := g']> gs) ≡ₚ g' ++ mjoin (delete i gs).
Proof.
  revert i. induction gs as [|h gs IH]; intros [|i] Hi; cbn in *; simplify_eq; [done|].
  rewrite (IH i) by done. apply Permutation_app_swap_app.
Qed.

(** One thread [i] moves: the boxes it owned and the list change, the rest of the
    boxes [rest] does not. *)
Section update.
Context (c : system) (gl : list (Z * T)) (gs : list (list (Z * T))) (Hinv : inv c gl gs).
Context (i : nat) (t : pc) (g : list (Z * T)) (Ht : threads c !! i = Some t) (Hg : gs !! i = Some g).
Let rest := mjoin (delete i gs).

Lemma update_nodup : NoDup ((gl ++ g ++ rest).*1).
Proof using Hinv Hg.
  pose proof (inv_nodup _ _ _ Hinv) as H. by rewrite (join_split gs i g Hg) in H.
Qed.

Lemma update_dom p : is_Some (boxes (mem c) !! p) <-> p ∈ (gl ++ g ++ rest).*1.
Proof using Hinv Hg. rewrite (inv_dom _ _ _ Hinv). by rewrite (join_split gs i g Hg). Qed.

Lemma update_owns : owns (boxes (mem c)) t g.
Proof using Hinv Hg Ht. pose proof (inv_owns _ _ _ Hinv) as H. by eapply Forall2_lookup_lr in H. Qed.

Lemma inv_update s' t' gl' g' ps ys :
  chain (boxes s') (head s') gl' -> owns (boxes s') t' g' ->
  (forall p, p ∈ rest.*1 -> boxes s' !! p = boxes (mem c) !! p) ->
  NoDup ((gl' ++ g' ++ rest).*1) ->
  (forall p, is_Some (boxes s' !! p) <-> p ∈ (gl' ++ g' ++ rest).*1) ->
  ps ++ gl.*2 ++ contrib t g ≡ₚ ys ++ gl'.*2 ++ contrib t' g' ->
  inv (System s' (<[i := t']> (threads c)) (ps ++ pushed c) (ys ++ yielded c)) gl' (<[i := g']> gs).
Proof using Hinv Hg Ht.
  intros Hc Ho Hsame Hnd Hdom Hitems.
  assert (zip_with contrib (threads c) gs !! i = Some (contrib t g)) as Hz.
  { rewrite lookup_zip_with, Ht. cbn. by rewrite Hg. }
  split; cbn.
  - exact Hc.
  - apply Forall2_same_length_lookup. split.
    + rewrite !length_insert. by eapply Forall2_length, Hinv.
    + intros j u l Hu Hl. apply list_lookup_insert_cases in Hu as [(<- & <- & Hlt)|[Hne Hu]].
      * rewrite list_lookup_insert_eq in Hl by (by eapply lookup_lt_Some). by simplify_eq.
      * rewrite list_lookup_insert_ne in Hl by done.
        pose proof (inv_owns _ _ _ Hinv) as H. eapply Forall2_lookup_lr in H; [|done..].
        eapply owns_ext; [|exact H]. intros p Hp. apply Hsame. revert Hp. unfold rest.
        rewrite !list_elem_of_fmap. intros (q & -> & Hq). exists q. split; [done|].
        apply list_elem_of_join. exists l. split; [done|].
        apply list_elem_of_lookup. destruct (decide (j < i)%nat).
        -- exists j. by rewrite list_lookup_delete_lt.
        -- exists (pred j). rewrite list_lookup_delete_ge by lia. by replace (S (pred j)) with j by lia.
  - by rewrite (join_insert gs i g g' Hg).
  - intros p. rewrite Hdom. by rewrite (join_insert gs i g g' Hg).
  - rewrite <- (insert_zip_with contrib).
    rewrite (join_insert _ i _ _ Hz). rewrite (inv_items _ _ _ Hinv).
    rewrite (join_split _ i _ Hz). set (R := mjoin (delete i _)).
    transitivity (yielded c ++ (ps ++ gl.*2 ++ contrib t g) ++ R).
    + rewrite <- !app_assoc. rewrite (Permutation_app_swap_app ps (yielded c)). done.
    + rewrite Hitems, <- !app_assoc. apply Permutation_app_swap_app.
Qed.

(** The thread can take step [a], and the invariant holds afterwards. *)
Definition can_step (a : action) : Prop :=
  exists s' t' ps ys gl' gs', step a (mem c) t = Ret (s', t', ps, ys) /\
    inv (System s' (<[i := t']> (threads c)) (ps ++ pushed c) (ys ++ yielded c)) gl' gs'.

Lemma can_step_intro a s' t' gl' g' ps ys :
  step a (mem c) t = Ret (s', t', ps, ys) ->
  chain (boxes s') (head s') gl' -> owns (boxes s') t' g' ->
  (forall p, p ∈ rest.*1 -> boxes s' !! p = boxes (mem c) !! p) ->
  NoDup ((gl' ++ g' ++ rest).*1) ->
  (forall p, is_Some (boxes s' !! p) <-> p ∈ (gl' ++ g' ++ rest).*1) ->
  ps ++ gl.*2 ++ contrib t g ≡ₚ ys ++ gl'.*2 ++ contrib t' g' ->
  can_step a.
Proof using Hinv Hg Ht.
  intros Hs Hc Ho Hsame Hn Hd Hit. exists s', t', ps, ys, gl', (<[i := g']> gs).
  split; [done|]. by apply inv_update.
Qed.
End update.

Lemma not_in_swap {A} (x : A) l1 l2 l3 : NoDup (l1 ++ x :: l2 ++ l3) -> x ∉ l1 ++ l2 ++ l3.
Proof. rewrite <- Permutation_middle. by intros [? _]%NoDup_cons_inv. Qed.

(** Thread [i], at [t], owns the boxes [g]. *)
Section steps.
Context (c : system) (gl : list (Z * T)) (gs : list (list (Z * T))) (Hinv : inv c gl gs) (i : nat).
#[local] Abbreviation rest := (mjoin (delete i gs)).

(** A new box is nobody's. *)
Lemma push_step x : threads c !! i = Some Idle -> gs !! i = Some [] -> can_step c i Idle (Push x true).
Proof using Hinv.
  intros Ht Hg. pose proof (update_nodup c gl gs Hinv i [] Hg) as Hnd.
  pose proof (update_dom c gl gs Hinv i [] Hg) as Hdom. pose proof (inv_head _ _ _ Hinv) as Hh.
  set (p := fresh ({[ 0 ]} ∪ dom (boxes (mem c)))).
  assert (p <> 0 /\ boxes (mem c) !! p = None) as [Hp0 Hp].
  { pose proof (is_fresh ({[ 0 ]} ∪ dom (boxes (mem c)))) as Hf. fold p in Hf.
    split; [set_solver|]. apply not_elem_of_dom. set_solver. }
  assert (p ∉ (gl ++ [] ++ rest).*1) as Hpn.
  { intros Hin%Hdom. rewrite Hp in Hin. by destruct Hin. }
  eapply (can_step_intro c gl gs Hinv i Idle [] Ht Hg _ _ _ gl [(p, x)]); [done| | | | | |done]; cbn.
  - eapply list_chain_ext; [|exact Hh]. intros q Hq. rewrite lookup_insert_ne; [done|].
    intros <-. apply Hpn. rewrite fmap_app. apply elem_of_app. by left.
  - exists x, 0. by rewrite lookup_insert_eq.
  - intros q Hq. rewrite lookup_insert_ne; [done|]. intros <-. apply Hpn.
    rewrite !fmap_app. apply elem_of_app. by right.
  - rewrite <- Permutation_middle. by apply NoDup_cons.
  - intros q. rewrite lookup_insert_is_Some', Hdom.
    rewrite <- Permutation_middle. cbn. rewrite elem_of_cons. naive_solver.
Qed.

(** The box's link is written: the box is not in the list yet. *)
Lemma store_step a p x n h : threads c !! i = Some (Loaded p h) -> gs !! i = Some [(p, x)] ->
  p <> 0 -> boxes (mem c) !! p = Some (Item_ n x) -> can_step c i (Loaded p h) a.
Proof using Hinv.
  intros Ht Hg Hp Hb. pose proof (update_nodup c gl gs Hinv i _ Hg) as Hnd.
  pose proof (update_dom c gl gs Hinv i _ Hg) as Hdom. pose proof (inv_head _ _ _ Hinv) as Hh.
  rewrite fmap_app in Hnd. cbn in Hnd.
  pose proof (not_in_swap p (gl.*1) [] (rest.*1) Hnd) as Hpn. cbn in Hpn.
  eapply (can_step_intro c gl gs Hinv i _ _ Ht Hg _ (Shared (head (mem c)) (<[p := Item_ h x]> (boxes (mem c)))) _ gl [(p, x)]).
  - cbn. unfold store_next. by rewrite Hb.
  - eapply list_chain_ext; [|exact Hh]. intros q Hq. cbn. rewrite lookup_insert_ne; [done|].
    intros <-. apply Hpn, elem_of_app. by left.
  - cbn. exists x. by rewrite lookup_insert_eq.
  - intros q Hq. cbn. rewrite lookup_insert_ne; [done|]. intros <-. apply Hpn, elem_of_app. by right.
  - by rewrite fmap_app.
  - intros q. cbn. rewrite lookup_insert_is_Some', Hdom. split; [|by right].
    intros [<-|?]; [|done]. rewrite fmap_app. apply elem_of_app. right. left.
  - done.
Qed.

(** The compare-and-swap moves the box into the list, if the head is still the same. *)
Lemma swap_step a p x h : threads c !! i = Some (Stored p h) -> gs !! i = Some [(p, x)] ->
  p <> 0 -> boxes (mem c) !! p = Some (Item_ h x) -> can_step c i (Stored p h) a.
Proof using Hinv.
  intros Ht Hg Hp Hb. pose proof (update_nodup c gl gs Hinv i _ Hg) as Hnd.
  pose proof (update_dom c gl gs Hinv i _ Hg) as Hdom. pose proof (inv_head _ _ _ Hinv) as Hh.
  destruct (Z.eqb_spec (head (mem c)) h) as [Heq|Hne].
  - eapply (can_step_intro c gl gs Hinv i _ _ Ht Hg _ (Shared p (boxes (mem c))) Idle ((p, x) :: gl) [] [x] []).
    + cbn. by rewrite (proj2 (Z.eqb_eq _ _) Heq), Hb.
    + cbn. split_and!; [done..|]. exists h. by rewrite <- Heq at 2.
    + done.
    + done.
    + revert Hnd. cbn. rewrite <- Permutation_middle. done.
    + intros q. cbn [boxes]. rewrite Hdom. cbn. by rewrite <- Permutation_middle.
    + done.
  - eapply (can_step_intro c gl gs Hinv i _ _ Ht Hg _ (mem c) (Boxed p) gl [(p, x)] [] []); try done.
    + cbn. by rewrite (proj2 (Z.eqb_neq _ _) Hne).
    + cbn. by exists x, h.
Qed.

(** An iterator frees the box whose item it yields. *)
Lemma next_step a q x g n : threads c !! i = Some (Iter q) -> gs !! i = Some ((q, x) :: g) ->
  q <> 0 -> boxes (mem c) !! q = Some (Item_ n x) -> chain (boxes (mem c)) n g -> can_step c i (Iter q) a.
Proof using Hinv.
  intros Ht Hg Hq Hb Hc. pose proof (update_nodup c gl gs Hinv i _ Hg) as Hnd.
  pose proof (update_dom c gl gs Hinv i _ Hg) as Hdom. pose proof (inv_head _ _ _ Hinv) as Hh.
  rewrite fmap_app in Hnd. cbn in Hnd. rewrite fmap_app in Hnd.
  pose proof (not_in_swap q (gl.*1) (g.*1) (rest.*1) Hnd) as Hqn.
  assert (forall r, r ∈ gl.*1 ++ g.*1 ++ rest.*1 -> delete q (boxes (mem c)) !! r = boxes (mem c) !! r) as Hdel.
  { intros r Hr. rewrite lookup_delete_ne; [done|]. by intros <-. }
  eapply (can_step_intro c gl gs Hinv i _ _ Ht Hg _ (Shared (head (mem c)) (delete q (boxes (mem c)))) (Iter n) gl g [] [x]).
  - cbn. unfold iter_next. by rewrite (proj2 (Z.eqb_neq _ _) Hq), Hb.
  - eapply list_chain_ext; [|exact Hh]. intros r Hr. apply Hdel, elem_of_app. by left.
  - cbn. eapply list_chain_ext; [|exact Hc]. intros r Hr. apply Hdel. rewrite !elem_of_app. by right; left.
  - intros r Hr. apply Hdel. rewrite !elem_of_app. by right; right.
  - rewrite !fmap_app. rewrite <- Permutation_middle in Hnd. by apply NoDup_cons_inv in Hnd as [_ ?].
  - intros r. cbn. rewrite lookup_delete_is_Some, Hdom. rewrite !fmap_app. cbn.
    rewrite <- Permutation_middle, elem_of_cons. split; [naive_solver|].
    intros Hr. split; [by intros ->|by right].
  - cbn. by rewrite Permutation_middle.
Qed.

(** Whatever a thread does next, it does not touch a freed box, and the
    invariant holds afterwards. *)
Lemma list_step_inv t a : threads c !! i = Some t -> can_step c i t a.
Proof using Hinv.
  intros Ht. pose proof (inv_owns _ _ _ Hinv) as Hall. pose proof (inv_head _ _ _ Hinv) as Hh.
  destruct (Forall2_lookup_l _ _ _ _ _ Hall Ht) as (g & Hg & Ho).
  pose proof (update_nodup c gl gs Hinv i g Hg) as Hnd. pose proof (update_dom c gl gs Hinv i g Hg) as Hdom.
  destruct t as [|p|p h|p h|h]; cbn in Ho.
  - subst g. destruct a as [x [|]|].
    + by apply push_step.
    + by eapply (can_step_intro c gl gs Hinv i _ _ Ht Hg _ _ _ gl []).
    + eapply (can_step_intro c gl gs Hinv i _ _ Ht Hg _ _ _ [] gl); [done|done|exact Hh|done| | |]; cbn; try done.
      by rewrite app_nil_r.
  - destruct Ho as (x & n & -> & Hp & Hb).
    eapply (can_step_intro c gl gs Hinv i _ _ Ht Hg _ _ _ gl [(p, x)]); [done|exact Hh| |done|exact Hnd|exact Hdom|done].
    by exists x, n.
  - destruct Ho as (x & n & -> & Hp & Hb). by eapply store_step.
  - destruct Ho as (x & -> & Hp & Hb). by eapply swap_step.
  - destruct g as [|[q x] g]; cbn in Ho.
    + subst h. by eapply (can_step_intro c gl gs Hinv i _ _ Ht Hg _ _ _ gl []).
    + destruct Ho as (-> & Hq & n & Hb & Hc). by eapply next_step.
Qed.
End steps.

Lemma list_start_inv n : inv (start n) [] (replicate n []).
Proof.
  assert (mjoin (replicate n ([] : list (Z * T))) = []) as Hj by (by induction n).
  split; cbn; try done.
  - clear Hj. induction n as [|n IH]; cbn; [constructor|by constructor].
  - rewrite Hj. constructor.
  - intros p. rewrite Hj. cbn. rewrite lookup_empty. split; [by intros [? [=]]|by intros ?%elem_of_nil].
  - clear Hj. induction n as [|n IH]; [done|exact IH].
Qed.
End atomic_list.

(** C16: the lock-free list loses and duplicates nothing: in every interleaving of
    any number of threads that push and take, no step touches a freed item, and
    the items pushed so far are exactly the items iterators have yielded, the
    items still in iterators and the items in the list; when every thread is idle
    they are the items yielded and the items reachable from the head. *)
Theorem atomic_list_safe {T} n (c : system (T := T)) :
  rtc sys_step (start n) c ->
  (forall i t a, threads c !! i = Some t -> exists e, step a (mem c) t = Ret e) /\
  exists gl its, chain (boxes (mem c)) (head (mem c)) gl /\
    pushed c ≡ₚ yielded c ++ gl.*2 ++ its /\
    ((forall t, t ∈ threads c -> t = Idle) -> its = []).
Proof.
  intros Hr. assert (exists gl gs, inv c gl gs) as (gl & gs & Hi).
  { eapply (rtc_invariant _ (fun c => exists gl gs, inv c gl gs)); [| |exact Hr].
    - intros c1 c2 Hs (gl & gs & Hi). destruct Hs as [c1 i t a s' t' ps ys Ht Hs].
      destruct (list_step_inv c1 gl gs Hi i t a Ht) as (s2 & t2 & ps2 & ys2 & gl' & gs' & Hs2 & Hi2).
      rewrite Hs in Hs2. simplify_eq. by exists gl', gs'.
    - exists [], (replicate n []). apply list_start_inv. }
  split.
  - intros i t a Ht. destruct (list_step_inv c gl gs Hi i t a Ht) as (s2 & t2 & ps2 & ys2 & gl' & gs' & Hs2 & _).
    by eexists.
  - exists gl, (mjoin (zip_with contrib (threads c) gs)). destruct Hi as [Hh Ho _ _ Hit].
    split_and!; [done..|]. intros Hidle. clear -Ho Hidle.
    induction Ho as [|t l ts gs Hto Ho IH]; [done|]. cbn.
    rewrite (Hidle t) by left. cbn. apply IH. intros u Hu. apply Hidle. by right.
Qed.

Lemma atomic_list_safe_witness :
  exists c : system (T := nat), rtc sys_step (start 2) c /\ pushed c ≡ₚ [5%nat] /\
    exists gl, chain (boxes (mem c)) (head (mem c)) gl.
Proof.
  assert (Hr : rtc sys_step (start (T := nat) 2)
    (System (Shared 1 {[ 1 := Item_ 0 5%nat ]}) [Idle; Idle] [5%nat] [])).
  { set (s0 := Shared 0 {[ 1 := Item_ 0 5%nat ]}).
    eapply rtc_l; [refine (sys_step_thread _ 0 Idle (Push 5%nat true) s0 (Boxed 1) [] [] _ _); done|].
    eapply rtc_l; [refine (sys_step_thread _ 0 (Boxed 1) Take s0 (Loaded 1 0) [] [] _ _); done|].
    eapply rtc_l; [refine (sys_step_thread _ 0 (Loaded 1 0) Take s0 (Stored 1 0) [] [] _ _); done|].
    apply rtc_once. refine (sys_step_thread _ 0 (Stored 1 0) Take
      (Shared 1 {[ 1 := Item_ 0 5%nat ]}) Idle [5%nat] [] _ _); done. }
  eexists. split; [exact Hr|]. split; [done|].
  destruct (atomic_list_safe _ _ Hr) as (_ & gl & its & Hgl & _). by exists gl.
Defined.
