(* ===== verification/AsyncMutex.v ===== *)
(** * AsyncMutex: the asynchronous mutex ([kernel/src/sync/async_mutex.rs])

    Tasks poll the future of [lock] and drop guards; each atomic operation is one
    step, and the steps of different tasks interleave freely.  The list of wakers
    is an [AtomicList]; its operations are single steps here ([AtomicList] shows
    that it loses and duplicates nothing). *)

From S2P Require Import Prelude.

(** [AsyncMutex]: the flag and the wakers, a waker being its task. *)
Record AsyncMutex := AsyncMutex_ { locked : bool; wakers : list nat }.

Definition AsyncMutex_new : AsyncMutex := AsyncMutex_ false [].

(** Where a task is with respect to the mutex. *)
Inductive pc :=
| Out                        (* no future, no guard *)
| Polled                     (* [poll] entered *)
| Pushed                     (* waker pushed, before the swap *)
| Waiting                    (* [Poll::Pending] returned *)
| Holding                    (* owns the guard *)
| Unlocked                   (* in [drop], after the store *)
| Waking (ws : list nat).    (* in [drop], in the loop over the wakers *)

#[export] Instance pc_eq_dec : EqDecision pc.
Proof. solve_decision. Defined.

(** [lock]: the two halves of its poll function. *)
Definition lock_push (i : nat) (alloc_succeeds : bool) (m : AsyncMutex) : AsyncMutex * pc :=
  if alloc_succeeds then (AsyncMutex_ (locked m) (i :: wakers m), Pushed) else (m, Out).

Definition lock_swap (m : AsyncMutex) : AsyncMutex * pc :=
  let previous := locked m in
  (AsyncMutex_ true (wakers m), if previous then Waiting else Holding).

(** [Drop for AsyncMutexGuard] *)
Definition drop_store (m : AsyncMutex) : AsyncMutex * pc := (AsyncMutex_ false (wakers m), Unlocked).
Definition drop_take (m : AsyncMutex) : AsyncMutex * pc := (AsyncMutex_ (locked m) [], Waking (wakers m)).

Record system := System { mutex : AsyncMutex; tasks : list pc; woken : gset nat }.

(** One step of task [i]; the boolean is the answer of the allocator. *)
Definition task_step (i : nat) (b : bool) (c : system) (t : pc) : system :=
  let put mt w := System (fst mt) (<[i := snd mt]> (tasks c)) w in
  match t with
  | Out => put (mutex c, Polled) (woken c)
  | Waiting => put (mutex c, Polled) (woken c ∖ {[ i ]})
  | Polled => put (lock_push i b (mutex c)) (woken c)
  | Pushed => put (lock_swap (mutex c)) (woken c)
  | Holding => put (drop_store (mutex c)) (woken c)
  | Unlocked => put (drop_take (mutex c)) (woken c)
  | Waking [] => put (mutex c, Out) (woken c)
  | Waking (w :: ws) => put (mutex c, Waking ws) ({[ w ]} ∪ woken c)
  end.

Inductive sys_step : system -> system -> Prop :=
| sys_step_task c i b t : tasks c !! i = Some t -> sys_step c (task_step i b c t).

Definition start (n : nat) : system := System AsyncMutex_new (replicate n Out) ∅.

(** ** The invariant *)

(** A wake-up of [i] is on its way. *)
Definition coming (c : system) (i : nat) : Prop :=
  i ∈ woken c \/ exists j ws, tasks c !! j = Some (Waking ws) /\ i ∈ ws.

(** Somebody is going to run the wakers. *)
Definition release_due (c : system) : Prop :=
  locked (mutex c) = true \/ exists j, tasks c !! j = Some Unlocked.

Record inv (c : system) : Prop := {
  inv_lock : forall i, tasks c !! i = Some Holding -> locked (mutex c) = true;
  inv_one : forall i j, tasks c !! i = Some Holding -> tasks c !! j = Some Holding -> i = j;
  inv_held : locked (mutex c) = true -> exists i, tasks c !! i = Some Holding;
  inv_pushed : forall i, tasks c !! i = Some Pushed -> coming c i \/ i ∈ wakers (mutex c);
  inv_waiting : forall i, tasks c !! i = Some Waiting ->
    coming c i \/ (i ∈ wakers (mutex c) /\ release_due c)
}.

Lemma task_lookup c i t' j u :
  <[i := t']> (tasks c) !! j = Some u -> (j = i /\ u = t') \/ (j <> i /\ tasks c !! j = Some u).
Proof. intros H. apply list_lookup_insert_cases in H as [(-> & -> & _)|[? ?]]; [by left|by right]. Qed.

Lemma task_other c i (t' : pc) j : j <> i -> <[i := t']> (tasks c) !! j = tasks c !! j.
Proof. intros. by rewrite list_lookup_insert_ne. Qed.

Section preservation.
Context (c : system) (i : nat) (t : pc) (Hi : tasks c !! i = Some t).

Lemma task_self t' : <[i := t']> (tasks c) !! i = Some t'.
Proof using Hi. apply list_lookup_insert_eq. by eapply lookup_lt_Some. Qed.

(** Wake-ups survive every step of a task that is not waking others. *)
Lemma coming_keep m' t' w j :
  woken c ∖ {[ i ]} ⊆ w -> (forall ws, t <> Waking ws) -> j <> i ->
  coming c j -> coming (System m' (<[i := t']> (tasks c)) w) j.
Proof using Hi.
  intros Hw Ht Hj [H|(k & ws & Hk & Hin)]; [left; cbn; set_solver|].
  right. exists k, ws. split; [|done]. cbn. rewrite task_other; [done|].
  intros ->. rewrite Hi in Hk. injection Hk as ->. by apply (Ht ws).
Qed.

Lemma due_keep m' t' w :
  locked m' = locked (mutex c) -> t <> Unlocked -> release_due c ->
  release_due (System m' (<[i := t']> (tasks c)) w).
Proof using Hi.
  intros Hl Ht [H|[k Hk]]; [left; cbn; congruence|]. right. exists k. cbn.
  rewrite task_other; [done|]. intros ->. rewrite Hi in Hk. by injection Hk.
Qed.

(** A step that does not touch the lock. *)
Lemma inv_plain m' t' w :
  inv c -> locked m' = locked (mutex c) -> (wakers (mutex c) ⊆ wakers m') ->
  t <> Holding -> t' <> Holding -> t <> Unlocked -> (forall ws, t <> Waking ws) ->
  t' <> Waiting -> (t' = Pushed -> i ∈ wakers m') ->
  woken c ∖ {[ i ]} ⊆ w -> inv (System m' (<[i := t']> (tasks c)) w).
Proof using Hi.
  intros Hv Hl Hws Ht1 Ht1' Ht2 Ht3 Ht4 Hpush Hw. split; cbn; rewrite ?Hl.
  - intros j [[-> ?]|[_ Hj]]%task_lookup; [done|]. by eapply inv_lock.
  - intros j k [[-> ?]|[_ Hj]]%task_lookup [[-> ?]|[_ Hk]]%task_lookup; try done. by eapply inv_one.
  - intros H. destruct (inv_held _ Hv H) as [j Hj]. exists j. rewrite task_other; [done|].
    intros ->. rewrite Hi in Hj. by injection Hj.
  - intros j [[-> Hu]|[Hne Hj]]%task_lookup; [right; by apply Hpush|].
    destruct (inv_pushed _ Hv j Hj) as [?|?]; [left; by apply coming_keep|right; by apply Hws].
  - intros j [[-> Hu]|[Hne Hj]]%task_lookup; [by subst t'|].
    destruct (inv_waiting _ Hv j Hj) as [?|[??]]; [left; by apply coming_keep|right].
    split; [by apply Hws|]. by apply due_keep.
Qed.
End preservation.

Lemma inv_swap c i :
  inv c -> tasks c !! i = Some Pushed ->
  inv (System (lock_swap (mutex c)).1 (<[i := (lock_swap (mutex c)).2]> (tasks c)) (woken c)).
Proof.
  intros Hv Hi. unfold lock_swap. cbn. set (b := locked (mutex c)).
  assert (forall j, j <> i -> coming c j ->
    coming (System (AsyncMutex_ true (wakers (mutex c)))
      (<[i := if b then Waiting else Holding]> (tasks c)) (woken c)) j) as Hkeep.
  { intros j Hj. apply (coming_keep c i _ Hi); [set_solver|done|done]. }
  split; cbn; try done.
  - intros j k Hj Hk. apply task_lookup in Hj as [[-> Hj]|[_ Hj]], Hk as [[-> Hk]|[_ Hk]]; try done.
    + pose proof (inv_lock _ Hv k Hk) as Hlk. fold b in Hlk. by rewrite Hlk in Hj.
    + pose proof (inv_lock _ Hv j Hj) as Hlk. fold b in Hlk. by rewrite Hlk in Hk.
    + by eapply inv_one.
  - intros _. destruct b eqn:Hb.
    + destruct (inv_held _ Hv Hb) as [j Hj]. exists j. rewrite task_other; [done|].
      intros ->. rewrite Hi in Hj. discriminate.
    + exists i. by eapply task_self.
  - intros j [[-> Hu]|[Hne Hj]]%task_lookup; [by destruct b|].
    destruct (inv_pushed _ Hv j Hj); auto.
  - intros j [[-> Hu]|[Hne Hj]]%task_lookup.
    + destruct (inv_pushed _ Hv i Hi) as [[?|(k & ws & Hk & Hin)]|?].
      * left. by left.
      * left. right. exists k, ws. split; [|done]. cbn. rewrite task_other; [done|].
        intros ->. rewrite Hi in Hk. discriminate.
      * right. split; [done|]. by left.
    + destruct (inv_waiting _ Hv j Hj) as [?|[??]]; [left; by apply Hkeep|right].
      split; [done|]. by left.
Qed.

Lemma inv_drop_store c i :
  inv c -> tasks c !! i = Some Holding ->
  inv (System (drop_store (mutex c)).1 (<[i := (drop_store (mutex c)).2]> (tasks c)) (woken c)).
Proof.
  intros Hv Hi. cbn.
  assert (forall j, tasks c !! j = Some Holding -> j = i) as Hone.
  { intros j Hj. by eapply inv_one. }
  assert (forall j, j <> i -> coming c j ->
    coming (System (AsyncMutex_ false (wakers (mutex c))) (<[i := Unlocked]> (tasks c)) (woken c)) j) as Hkeep.
  { intros j Hj. apply (coming_keep c i _ Hi); [set_solver|done|done]. }
  split; cbn; try done.
  - intros j [[-> ?]|[Hne Hj]]%task_lookup; [done|]. by apply Hone in Hj.
  - intros j k [[-> ?]|[_ Hj]]%task_lookup [[-> ?]|[_ Hk]]%task_lookup; try done. by eapply inv_one.
  - intros j [[-> ?]|[Hne Hj]]%task_lookup; [done|]. destruct (inv_pushed _ Hv j Hj); auto.
  - intros j [[-> ?]|[Hne Hj]]%task_lookup; [done|].
    destruct (inv_waiting _ Hv j Hj) as [?|[??]]; [left; by apply Hkeep|right].
    split; [done|]. right. exists i. by eapply task_self.
Qed.

Lemma inv_drop_take c i :
  inv c -> tasks c !! i = Some Unlocked ->
  inv (System (drop_take (mutex c)).1 (<[i := (drop_take (mutex c)).2]> (tasks c)) (woken c)).
Proof.
  intros Hv Hi. cbn.
  assert (forall j, j <> i -> coming c j \/ j ∈ wakers (mutex c) ->
    coming (System (AsyncMutex_ (locked (mutex c)) []) (<[i := Waking (wakers (mutex c))]> (tasks c))
      (woken c)) j) as Hkeep.
  { intros j Hj [H|H].
    - apply (coming_keep c i _ Hi); [set_solver|done|done|done].
    - right. exists i, (wakers (mutex c)). split; [by eapply task_self|done]. }
  split; cbn.
  - intros j [[-> ?]|[_ Hj]]%task_lookup; [done|]. by eapply inv_lock.
  - intros j k [[-> ?]|[_ Hj]]%task_lookup [[-> ?]|[_ Hk]]%task_lookup; try done. by eapply inv_one.
  - intros H. destruct (inv_held _ Hv H) as [j Hj]. exists j. rewrite task_other; [done|].
    intros ->. rewrite Hi in Hj. discriminate.
  - intros j [[-> ?]|[Hne Hj]]%task_lookup; [done|]. left. apply Hkeep; [done|].
    by apply (inv_pushed _ Hv).
  - intros j [[-> ?]|[Hne Hj]]%task_lookup; [done|]. left. apply Hkeep; [done|].
    destruct (inv_waiting _ Hv j Hj) as [?|[??]]; auto.
Qed.

Lemma inv_wake c i ws t' w :
  inv c -> tasks c !! i = Some (Waking ws) ->
  (t' = Out /\ ws = [] /\ w = woken c) \/
  (exists x ws', ws = x :: ws' /\ t' = Waking ws' /\ w = {[ x ]} ∪ woken c) ->
  inv (System (mutex c) (<[i := t']> (tasks c)) w).
Proof.
  intros Hv Hi Hcase.
  assert (t' <> Holding /\ t' <> Pushed /\ t' <> Waiting) as (Hn1 & Hn2 & Hn3).
  { destruct Hcase as [(-> & _)|(x & ws' & _ & -> & _)]; done. }
  assert (forall j, coming c j -> coming (System (mutex c) (<[i := t']> (tasks c)) w) j) as Hkeep.
  { intros j [H|(k & us & Hk & Hin)].
    - left. cbn. destruct Hcase as [(_ & _ & ->)|(x & ws' & _ & _ & ->)]; set_solver.
    - destruct (decide (k = i)) as [->|Hne].
      + rewrite Hi in Hk. injection Hk as <-.
        destruct Hcase as [(_ & -> & _)|(x & ws' & -> & -> & ->)]; [by apply elem_of_nil in Hin|].
        apply elem_of_cons in Hin as [->|Hin]; [left; cbn; set_solver|].
        right. exists i, ws'. split; [by eapply task_self|done].
      + right. exists k, us. split; [|done]. cbn. by rewrite task_other. }
  split; cbn.
  - intros j [[-> ?]|[_ Hj]]%task_lookup; [by subst t'|]. by eapply inv_lock.
  - intros j k [[-> ?]|[_ Hj]]%task_lookup [[-> ?]|[_ Hk]]%task_lookup; try (by subst t'). by eapply inv_one.
  - intros H. destruct (inv_held _ Hv H) as [j Hj]. exists j. rewrite task_other; [done|].
    intros ->. rewrite Hi in Hj. discriminate.
  - intros j [[-> ?]|[Hne Hj]]%task_lookup; [by subst t'|].
    destruct (inv_pushed _ Hv j Hj); auto.
  - intros j [[-> ?]|[Hne Hj]]%task_lookup; [by subst t'|].
    destruct (inv_waiting _ Hv j Hj) as [?|[??]]; [auto|right]. split; [done|]. by apply (due_keep c i _ Hi).
Qed.
Lemma lock_step_inv c c' : sys_step c c' -> inv c -> inv c'.
Proof.
  intros [c1 i b t Hi] Hv. unfold task_step. destruct t as [| | | | | |ws].
  - apply (inv_plain c1 i Out); try done. set_solver.
  - unfold lock_push. destruct b; apply (inv_plain c1 i Polled); try done; cbn; try set_solver.
  - by apply inv_swap.
  - apply (inv_plain c1 i Waiting); try done.
  - by apply inv_drop_store.
  - by apply inv_drop_take.
  - destruct ws as [|x ws]; eapply inv_wake; try done; [by left|right; by exists x, ws].
Qed.

Lemma lock_start_inv n : inv (start n).
Proof.
  split; cbn; try done; [intros i Hi|intros i j Hi _|intros i Hi|intros i Hi]; apply lookup_replicate_1 in Hi as [? _]; done.
Qed.

(** C17: the asynchronous mutex excludes and does not lose wake-ups: in every
    interleaving of tasks that poll [lock] and drop guards, at most one task holds
    the guard and the flag says whether one does; and a waiting task either has a
    wake-up on its way (it was woken or is in the list a release is walking) or is
    registered while the mutex is held or about to be released, so whenever the
    mutex is free and no release is in progress every waiting task has been woken. *)
Theorem async_mutex_safe n c :
  rtc sys_step (start n) c ->
  (forall i j, tasks c !! i = Some Holding -> tasks c !! j = Some Holding -> i = j) /\
  (locked (mutex c) = true <-> exists i, tasks c !! i = Some Holding) /\
  (locked (mutex c) = false ->
   (forall j t, tasks c !! j = Some t -> t <> Unlocked /\ forall ws, t <> Waking ws) ->
   forall i, tasks c !! i = Some Waiting -> i ∈ woken c).
Proof.
  intros Hr. assert (inv c) as Hv.
  { eapply rtc_invariant; [apply lock_step_inv|apply lock_start_inv|exact Hr]. }
  split_and!.
  - apply Hv.
  - split; [apply Hv|]. intros [i Hi]. by eapply inv_lock.
  - intros Hl Hq i Hi. destruct (inv_waiting _ Hv i Hi) as [[?|(j & ws & Hj & _)]|[_ [?|[j Hj]]]].
    + done.
    + destruct (Hq j _ Hj) as [_ H]. by destruct (H ws).
    + congruence.
    + by destruct (Hq j _ Hj) as [H _].
Qed.

(** Task 0 takes the lock, task 1 waits, task 0 releases it. *)
Definition example_run : list nat := [0; 0; 0; 1; 1; 1; 0; 0; 0; 0; 0; 0]%nat.

Fixpoint run_tasks (is_ : list nat) (c : system) : system :=
  match is_ with
  | [] => c
  | i :: is_ => match tasks c !! i with
                | Some t => run_tasks is_ (task_step i true c t)
                | None => run_tasks is_ c
                end
  end.

Lemma run_tasks_steps is_ c : rtc sys_step c (run_tasks is_ c).
Proof.
  revert c. induction is_ as [|i is_ IH]; intros c; [done|]. cbn.
  destruct (tasks c !! i) as [t|] eqn:Hi; [|apply IH].
  eapply rtc_l; [by apply (sys_step_task c i true)|apply IH].
Qed.

Lemma async_mutex_safe_witness :
  let c := run_tasks example_run (start 2) in
  tasks c !! 1%nat = Some Waiting /\ 1%nat ∈ woken c.
Proof.
  split; [done|]. destruct (async_mutex_safe 2 _ (run_tasks_steps example_run (start 2))) as (_ & _ & H).
  apply H; [done| |done].
  intros [|[|j]] t Ht; cbn in Ht; [injection Ht as <-|injection Ht as <-|done]; done.
Defined.
