(* ===== verification/HeapLogic.v ===== *)
(** * HeapLogic: boxes and a separation logic for them ([alloc_collections/src/boxed.rs], [glue.rs])

    Collections keep their nodes in boxes from an allocator they are generic in.
    The heap is a map from addresses to values; a box is allocated and given back
    with the layout of its value.  Assertions about parts of the heap form a
    (linear) logic of the proof mode: [hwp m Q] holds of the part of the heap that
    [m] needs to run to the end and leave a part that satisfies [Q]. *)

From S2P Require Import Prelude.
From iris.proofmode Require Import proofmode.
From iris.prelude Require Import options.

#[local] Open Scope Z_scope.

(** ** The allocator ([glue.rs])

    The trait [GlobalAlloc], and what its users rely on: [al_inv live a] says that
    [a] is a state of the allocator in which [live] are the blocks in use, with the
    layouts they were allocated with.  Blocks are new, and lie behind the null
    address and the statics, which end at [STATIC_END]. *)
Definition STATIC_END : Z := 16.

Class GlobalAlloc (L A : Type) := {
  al_alloc : L → A → option Z * A;
  al_dealloc : Z → L → A → A;
  al_inv : gmap Z L → A → Prop;
  al_alloc_ok live l a : al_inv live a →
    match al_alloc l a with
    | (Some p, a') => live !! p = None ∧ STATIC_END <= p ∧ al_inv (<[p := l]> live) a'
    | (None, a') => al_inv live a'
    end;
  al_dealloc_ok live p l a : live !! p = Some l → al_inv live a → al_inv (delete p live) (al_dealloc p l a)
}.

(** The layout of a value, [Layout::for_value]. *)
Class HasLayout (N L : Type) := layout_of : N → L.

(** [core::alloc::AllocErr] *)
Inductive AllocErr := AllocErr_.

(** ** The logic *)

Record hProp (N : Type) := HProp { holds : gmap Z N → Prop }.
Arguments HProp {N} _.
Arguments holds {N} _ _.

Bind Scope bi_scope with hProp.

Section hprop.
Context {N : Type}.
Implicit Types P Q : hProp N.

(** Records, so that they do not unfold to implications. *)
Record h_entails P Q : Prop := Entails { entails_holds : ∀ h, holds P h → holds Q h }.
Record h_equiv_ P Q : Prop := Equiv_ { equiv_holds : ∀ h, holds P h ↔ holds Q h }.
#[export] Instance h_equiv : Equiv (hProp N) := h_equiv_.
#[export] Instance h_equivalence : Equivalence (≡@{hProp N}).
Proof.
  split.
  - by intros P.
  - intros P Q [H]. split. intros h. by rewrite H.
  - intros P Q R [H1] [H2]. split. intros h. by rewrite H1.
Qed.
Canonical Structure hPropO := discreteO (hProp N).

Definition h_emp : hProp N := HProp (λ h, h = ∅).
Definition h_pure (φ : Prop) : hProp N := HProp (λ _, φ).
Definition h_and P Q : hProp N := HProp (λ h, holds P h ∧ holds Q h).
Definition h_or P Q : hProp N := HProp (λ h, holds P h ∨ holds Q h).
Definition h_impl P Q : hProp N := HProp (λ h, holds P h → holds Q h).
Definition h_forall A (Φ : A → hProp N) : hProp N := HProp (λ h, ∀ x, holds (Φ x) h).
Definition h_exist A (Φ : A → hProp N) : hProp N := HProp (λ h, ∃ x, holds (Φ x) h).
Definition h_sep P Q : hProp N := HProp (λ h, ∃ h1 h2, h = h1 ∪ h2 ∧ h1 ##ₘ h2 ∧ holds P h1 ∧ holds Q h2).
Definition h_wand P Q : hProp N := HProp (λ h, ∀ h', h ##ₘ h' → holds P h' → holds Q (h ∪ h')).
Definition h_persistently P : hProp N := h_pure (h_entails h_emp P).

Lemma h_sep_assoc P Q R : h_entails (h_sep (h_sep P Q) R) (h_sep P (h_sep Q R)).
Proof.
  split. intros h (h12 & h3 & -> & Hd & (h1 & h2 & -> & Hd' & HP & HQ) & HR).
  apply map_disjoint_union_l in Hd as [H1 H2].
  exists h1, (h2 ∪ h3). split_and!; [by rewrite assoc_L|by apply map_disjoint_union_r|done|].
  by exists h2, h3.
Qed.

Lemma h_bi_mixin : BiMixin h_entails h_emp h_pure h_and h_or h_impl h_forall h_exist h_sep h_wand.
Proof.
  split.
  - split; [by intros P|]. intros P Q R [H1] [H2]. split. eauto.
  - intros P Q. split; [intros [H]; split; split; intros h; apply H|].
    intros [[H1] [H2]]. split. intros h. split; eauto.
  - intros n φ ψ H. split. done.
  - intros n P P' [HP] Q Q' [HQ]. split. intros h. cbn. by rewrite HP HQ.
  - intros n P P' [HP] Q Q' [HQ]. split. intros h. cbn. by rewrite HP HQ.
  - intros n P P' [HP] Q Q' [HQ]. split. intros h. cbn. by rewrite HP HQ.
  - intros A n Φ Ψ H. split. intros h. cbn. split; intros HΦ x; by apply (H x).
  - intros A n Φ Ψ H. split. intros h. cbn. split; intros [x HΦ]; exists x; by apply (H x).
  - intros n P P' [HP] Q Q' [HQ]. split. intros h. cbn.
    split; intros (h1 & h2 & -> & Hd & HP1 & HQ2); exists h1, h2; split_and!; (done || by apply HP || by apply HQ).
  - intros n P P' [HP] Q Q' [HQ]. split. intros h. cbn. split; intros H h' Hd HP'; by apply HQ, H, HP.
  - intros φ P H. split. by intros h _.
  - intros φ P H. split. intros h Hφ. by apply (H Hφ).
  - intros P Q. split. by intros h [? ?].
  - intros P Q. split. by intros h [? ?].
  - intros P Q R [H1] [H2]. split. intros h HP. split; eauto.
  - intros P Q. split. intros h HP. by left.
  - intros P Q. split. intros h HQ. by right.
  - intros P Q R [H1] [H2]. split. intros h [?|?]; eauto.
  - intros P Q R [H]. split. intros h HP HQ. by apply H.
  - intros P Q R [H]. split. intros h [HP HQ]. by apply H.
  - intros A P Ψ H. split. intros h HP x. by apply (H x).
  - intros A Ψ x. split. intros h H. exact (H x).
  - intros A Ψ x. split. intros h H. by exists x.
  - intros A Φ Q H. split. intros h [x Hx]. by apply (H x).
  - intros P P' Q Q' [HP] [HQ]. split. intros h (h1 & h2 & -> & Hd & H1 & H2). exists h1, h2. split_and!; eauto.
  - intros P. split. intros h HP. exists ∅, h.
    split_and!; [by rewrite left_id_L|apply map_disjoint_empty_l|done|done].
  - intros P. split. intros h (h1 & h2 & -> & Hd & -> & HP). by rewrite left_id_L.
  - intros P Q. split. intros h (h1 & h2 & -> & Hd & HP & HQ). exists h2, h1.
    split_and!; [by apply map_union_comm|done|done|done].
  - intros P Q R. exact (h_sep_assoc P Q R).
  - intros P Q R [H]. split. intros h HP h' Hd HQ. apply H. by exists h, h'.
  - intros P Q R [H]. split. intros h (h1 & h2 & -> & Hd & HP & HQ). by apply H.
Qed.

Lemma h_persistently_mixin :
  BiPersistentlyMixin h_entails h_emp h_and h_exist h_sep h_persistently.
Proof.
  eapply bi_persistently_mixin_discrete; [done| |done|exact h_bi_mixin].
  intros A Φ [H]. destruct (H ∅ eq_refl) as [x Hx]. exists x. split. by intros h ->.
Qed.

Lemma h_later_mixin :
  BiLaterMixin h_entails h_pure h_or h_impl h_forall h_exist h_sep h_persistently (λ P, P).
Proof. by eapply bi_later_mixin_id; [|exact h_bi_mixin]. Qed.

Canonical Structure hPropI : bi := {|
  bi_ofe_mixin := ofe_mixin_of (hProp N);
  bi_bi_mixin := h_bi_mixin;
  bi_bi_persistently_mixin := h_persistently_mixin;
  bi_bi_later_mixin := h_later_mixin |}.

#[export] Instance h_pure_forall : BiPureForall hPropI.
Proof. intros A φ. split. by intros h H. Qed.

(** [p ↦ n]: the box at [p] holds [n], and is all there is. *)
Definition points_to (p : Z) (n : N) : hProp N := HProp (λ h, h = {[p := n]}).

End hprop.

Arguments hPropI : clear implicits.

#[local] Notation "p ↦ n" := (points_to p n) (at level 20) : bi_scope.

(** ** Boxes ([boxed.rs]) *)

(** The boxes in use and the state of the allocator. *)
Record store (N A : Type) := Store { cells : gmap Z N; al : A }.
Arguments Store {N A} _ _.
Arguments cells {N A} _.
Arguments al {N A} _.

Section boxes.
Context {N L A : Type} `{!GlobalAlloc L A, !HasLayout N L, !EqDecision L}.

(** Reading, and changing in place, what a box holds. *)
Definition load (p : Z) : M (store N A) N := λ s,
  match cells s !! p with Some n => Ret (n, s) | None => UB "no box here" end.
Definition update (p : Z) (f : N → N) : M (store N A) unit := λ s,
  match cells s !! p with
  | Some n => Ret (tt, Store (<[p := f n]> (cells s)) (al s))
  | None => UB "no box here"
  end.

(** [alloc] and [Box::new] *)
Definition Box_new (value : N) : M (store N A) (result Z AllocErr) := λ s,
  match al_alloc (layout_of value) (al s) with
  | (Some p, a) => Ret (Ok p, Store (<[p := value]> (cells s)) a)
  | (None, a) => Ret (Err AllocErr_, Store (cells s) a)
  end.

(** [Allocator::dealloc]: giving back with another layout than the block's is
    undefined behaviour. *)
Definition dealloc (p : Z) (l : L) : M (store N A) unit := λ s,
  match cells s !! p with
  | Some n => if decide (layout_of n = l) then Ret (tt, Store (delete p (cells s)) (al_dealloc p l (al s)))
              else UB "dealloc with another layout"
  | None => UB "no box here"
  end.

(** [free]: the layout is the one of the value. *)
Definition box_free (p : Z) : M (store N A) unit := n ← load p; dealloc p (layout_of n).

(** [Box::into_inner], and [Drop] with the drop glue of the value. *)
Definition into_inner (p : Z) : M (store N A) N := value ← load p; _ ← box_free p; mret value.
Definition Box_drop (drop_in_place : N → M (store N A) unit) (p : Z) : M (store N A) unit :=
  n ← load p; _ ← drop_in_place n; box_free p.

(** ** Weakest preconditions over a part of the heap *)

Definition live (cs : gmap Z N) : gmap Z L := layout_of <$> cs.

Definition hwp {B} (m : M (store N A) B) (Q : B → hProp N) : hProp N := HProp (λ h,
  ∀ hf a, h ##ₘ hf → al_inv (live (h ∪ hf)) a →
    wp m (λ b s', ∃ h', cells s' = h' ∪ hf ∧ h' ##ₘ hf ∧ al_inv (live (cells s')) (al s') ∧ holds (Q b) h')
      (Store (h ∪ hf) a)).

Implicit Types P : hProp N.

Lemma hwp_intro P {B} (m : M (store N A) B) Q :
  (∀ h hf a, holds P h → h ##ₘ hf → al_inv (live (h ∪ hf)) a →
     ∃ b h' a', m (Store (h ∪ hf) a) = Ret (b, Store (h' ∪ hf) a') ∧ h' ##ₘ hf ∧
       al_inv (live (h' ∪ hf)) a' ∧ holds (Q b) h') →
  P ⊢ hwp m Q.
Proof.
  intros H. split. intros h HP hf a Hd Hi. destruct (H h hf a HP Hd Hi) as (b & h' & a' & Hm & Hd' & Hi' & HQ).
  eapply wp_run; [exact Hm|]. by exists h'.
Qed.

Lemma hwp_wand {B} (m : M (store N A) B) (P Q : B → hProp N) : hwp m P -∗ (∀ b, P b -∗ Q b) -∗ hwp m Q.
Proof.
  apply bi.entails_wand, bi.wand_intro_r. split.
  intros h (h1 & h2 & -> & Hd & Hm & Hk) hf a Hdf Hi.
  apply map_disjoint_union_l in Hdf as [Hd1 Hd2]. rewrite -assoc_L in Hi |- *.
  eapply wp_mono; [|apply Hm; [by apply map_disjoint_union_r|done]].
  intros b s' (h' & Hc & Hd' & Hi' & HP). apply map_disjoint_union_r in Hd' as [Hd12 Hd1f].
  exists (h' ∪ h2). split_and!.
  - by rewrite Hc assoc_L.
  - by apply map_disjoint_union_l.
  - done.
  - rewrite map_union_comm; [|done]. by apply (Hk b).
Qed.

Lemma hwp_ret {B} (b : B) Q : Q b ⊢ hwp (mret b) Q.
Proof. apply hwp_intro. intros h hf a HQ Hd Hi. by exists b, h, a. Qed.

Lemma hwp_bind {B C} (m : M (store N A) B) (k : B → M (store N A) C) Q :
  hwp m (λ b, hwp (k b) Q) ⊢ hwp (m ≫= k) Q.
Proof.
  split. intros h Hm hf a Hd Hi. apply wp_bind. eapply wp_mono; [|by apply Hm].
  intros b [cs a'] (h' & Hc & Hd' & Hi' & HQ). cbn in *. subst cs. by apply HQ.
Qed.

Lemma hwp_try {B C E} (m : M (store N A) (result B E)) (k : B → M (store N A) (result C E)) Q :
  hwp m (λ r, match r with Ok b => hwp (k b) Q | Err e => Q (Err e) end) ⊢ hwp (try m k) Q.
Proof.
  rewrite -hwp_bind. iIntros "H". iApply (hwp_wand with "H"). iIntros ([b|e]) "H"; [done|by iApply hwp_ret].
Qed.

Lemma cell_here p n (h hf : gmap Z N) : ({[p := n]} ∪ h ∪ hf) !! p = Some n.
Proof. rewrite -assoc_L. by apply lookup_union_Some_l, lookup_singleton_eq. Qed.

Lemma hwp_load_ p n Q : points_to p n ∗ (points_to p n -∗ Q n) ⊢ hwp (load p) Q.
Proof.
  apply hwp_intro. intros h hf a (h1 & h2 & -> & Hd & Hh1 & Hk) Hdf Hi. cbn in Hh1. subst h1.
  pose proof (cell_here p n h2 hf) as Hp.
  exists n, ({[p := n]} ∪ h2), a. split_and!; [by unfold load; cbn [cells]; rewrite Hp|done|done|].
  rewrite map_union_comm; [|done]. by apply Hk.
Qed.

Lemma hwp_update_ p f n Q : layout_of (f n) = layout_of n →
  points_to p n ∗ (points_to p (f n) -∗ Q tt) ⊢ hwp (update p f) Q.
Proof.
  intros Hl. apply hwp_intro. intros h hf a (h1 & h2 & -> & Hd & Hh1 & Hk) Hdf Hi. cbn in Hh1. subst h1.
  pose proof (cell_here p n h2 hf) as Hp.
  assert (<[p := f n]> ({[p := n]} ∪ h2 ∪ hf) = {[p := f n]} ∪ h2 ∪ hf) as Hu.
  { rewrite -!assoc_L !insert_union_l. f_equal. by rewrite insert_singleton_eq. }
  apply map_disjoint_union_l in Hdf as [Hd1 Hd2].
  apply map_disjoint_singleton_l in Hd. apply map_disjoint_singleton_l in Hd1.
  exists tt, ({[p := f n]} ∪ h2), a. split_and!.
  - unfold update. cbn [cells al]. by rewrite Hp Hu.
  - apply map_disjoint_union_l. split; [by apply map_disjoint_singleton_l|done].
  - rewrite -Hu /live fmap_insert Hl insert_id; [done|]. by rewrite lookup_fmap Hp.
  - rewrite map_union_comm; [|by apply map_disjoint_singleton_l].
    apply Hk; [by apply map_disjoint_singleton_r|done].
Qed.

Lemma hwp_box_new (value : N) Q :
  (∀ p, ⌜STATIC_END <= p⌝ → points_to p value -∗ Q (Ok p)) ∧ Q (Err AllocErr_) ⊢ hwp (Box_new value) Q.
Proof.
  apply hwp_intro. intros h hf a [Hok Herr] Hdf Hi. pose proof (al_alloc_ok _ (layout_of value) _ Hi) as Ha.
  unfold Box_new. cbn. destruct (al_alloc (layout_of value) a) as [[p|] a'].
  - destruct Ha as (Hp & Hst & Hi'). rewrite /live lookup_fmap in Hp. apply fmap_None in Hp.
    apply lookup_union_None in Hp as [Hph Hpf].
    exists (Ok p), (<[p := value]> h), a'. split_and!.
    + by rewrite insert_union_l.
    + by apply map_disjoint_insert_l.
    + by rewrite -insert_union_l /live fmap_insert.
    + rewrite insert_union_singleton_r; [|done].
      apply (Hok p Hst); [by apply map_disjoint_singleton_r|done].
  - by exists (Err AllocErr_), h, a'.
Qed.

Lemma hwp_dealloc_ p n l Q : layout_of n = l → points_to p n ∗ Q tt ⊢ hwp (dealloc p l) Q.
Proof.
  intros <-. apply hwp_intro. intros h hf a (h1 & h2 & -> & Hd & Hh1 & HQ) Hdf Hi. cbn in Hh1. subst h1.
  apply map_disjoint_union_l in Hdf as [Hd1 Hd2].
  apply map_disjoint_singleton_l in Hd. apply map_disjoint_singleton_l in Hd1.
  pose proof (cell_here p n h2 hf) as Hp.
  assert (delete p ({[p := n]} ∪ h2 ∪ hf) = h2 ∪ hf) as Hu.
  { rewrite -assoc_L -insert_union_singleton_l delete_insert_id; [done|]. by apply lookup_union_None. }
  exists tt, h2, (al_dealloc p (layout_of n) a). split_and!; [|done| |done].
  - unfold dealloc. cbn [cells al]. by rewrite Hp decide_True ?Hu.
  - rewrite -Hu /live fmap_delete. apply al_dealloc_ok; [|done]. by rewrite lookup_fmap Hp.
Qed.

Lemma hwp_load p n Q : points_to p n -∗ (points_to p n -∗ Q n) -∗ hwp (load p) Q.
Proof. iIntros "H HQ". iApply hwp_load_. iFrame. Qed.
Lemma hwp_update p f n Q : layout_of (f n) = layout_of n →
  points_to p n -∗ (points_to p (f n) -∗ Q tt) -∗ hwp (update p f) Q.
Proof. iIntros (Hl) "H HQ". iApply hwp_update_; [exact Hl|]. iFrame. Qed.
Lemma hwp_dealloc p n l Q : layout_of n = l → points_to p n -∗ Q tt -∗ hwp (dealloc p l) Q.
Proof. iIntros (Hl) "H HQ". iApply hwp_dealloc_; [exact Hl|]. iFrame. Qed.

(** What is proved about a part of the heap holds of a whole store. *)
Lemma hwp_run {B} (m : M (store N A) B) P Q (s : store N A) :
  (P ⊢ hwp m Q) → holds P (cells s) → al_inv (live (cells s)) (al s) →
  ∃ b s', m s = Ret (b, s') ∧ holds (Q b) (cells s') ∧ al_inv (live (cells s')) (al s').
Proof.
  intros [H] HP Hi. destruct s as [cs a]. cbn in *.
  pose proof (H cs HP ∅ a (map_disjoint_empty_r _)) as Hw. rewrite right_id_L in Hw.
  apply wp_iff in Hw as (b & s' & Hm & h' & Hc & _ & Hi' & HQ); [|done].
  rewrite right_id_L in Hc. subst h'. by exists b, s'.
Qed.

Lemma hwp_ext {B} (m m' : M (store N A) B) Q : (∀ s, m s = m' s) → hwp m Q ⊢ hwp m' Q.
Proof. intros Hm. split. intros h H hf a Hd Hi. pose proof (H hf a Hd Hi) as Hw. unfold wp in *. by rewrite -Hm. Qed.

Lemma hwp_assoc {B C D} (m : M (store N A) B) (f : B → M (store N A) C) (g : C → M (store N A) D) Q :
  hwp (b ← m; f b) (λ c, hwp (g c) Q) ⊢ hwp (b ← m; c ← f b; g c) Q.
Proof.
  rewrite hwp_bind. apply hwp_ext. intros s. unfold mbind, M_bind. by destruct (m s) as [[b s']|?|?].
Qed.

Lemma hwp_regroup {B C D E} (m1 : M (store N A) B) (m2 : B → M (store N A) C) (m3 : C → M (store N A) D)
    (k : D → M (store N A) E) Q :
  hwp (d ← (b ← m1; c ← m2 b; m3 c); k d) Q ⊢ hwp (b ← m1; c ← m2 b; d ← m3 c; k d) Q.
Proof.
  apply hwp_ext. intros s. unfold mbind, M_bind. destruct (m1 s) as [[b s1]|?|?]; [|done..].
  by destruct (m2 b s1) as [[c s2]|?|?].
Qed.

Lemma hwp_lift {B} (o : outcome B) b Q : o = Ret b → Q b ⊢ hwp (lift o) Q.
Proof. intros ->. apply hwp_intro. intros h hf a HQ Hd Hi. by exists b, h, a. Qed.

Lemma hwp_expect {B} (o : option B) b msg Q : o = Some b → Q b ⊢ hwp (expect o msg) Q.
Proof. intros ->. apply hwp_ret. Qed.

End boxes.

(** ** An allocator

    Blocks at increasing addresses; a list of answers says which requests fail. *)
Record bump := Bump { bump_next : Z; answers : list bool }.

Definition bump_alloc (a : bump) : option Z * bump :=
  match answers a with
  | false :: rest => (None, Bump (bump_next a) rest)
  | rest => (Some (bump_next a), Bump (bump_next a + 16) (tail rest))
  end.

#[export] Program Instance bump_GlobalAlloc {L} : GlobalAlloc L bump := {|
  al_alloc _ a := bump_alloc a;
  al_dealloc _ _ a := a;
  al_inv live a := STATIC_END <= bump_next a ∧ ∀ p l, live !! p = Some l → p < bump_next a
|}.
Next Obligation.
  intros L live l [n bs] [Hn Hl]. cbn in *.
  assert (live !! n = None ∧ STATIC_END <= n ∧ STATIC_END <= n + 16 ∧
    ∀ p l', <[n := l]> live !! p = Some l' → p < n + 16) as H.
  { split_and!; [|done|lia|].
    - destruct (live !! n) eqn:E; [apply Hl in E; lia|done].
    - intros p l' [[<- <-]|[_ H%Hl]]%lookup_insert_Some; lia. }
  by destruct bs as [|[|] bs].
Qed.
Next Obligation.
  intros L live p l a Hp [Hn Hl]. split; [done|]. intros q l' [_ H]%lookup_delete_Some. by eapply Hl.
Qed.
