(* ===== verification/Node.v ===== *)
(** * Node: nodes of the B-tree ([alloc_collections/src/btree/node.rs])

    A node is a box in the heap: a leaf, or an internal node with one more edge
    than keys.  It points back to the edge of its parent it hangs from.  An array of
    the code is here the list of its first [len] elements (and [len + 1] edges): what
    lies behind is never read.  The [debug_assert]s of the code are panics. *)

From S2P Require Import Prelude HeapLogic.

#[local] Open Scope nat_scope.

Definition B : nat := 6.
Definition MIN_LEN : nat := B - 1.
Definition CAPACITY : nat := 2 * B - 1.

(** [Layout::new::<LeafNode>] and [Layout::new::<InternalNode>] *)
Inductive NodeLayout := LeafLayout | InternalLayout.
#[export] Instance NodeLayout_eq_dec : EqDecision NodeLayout.
Proof. solve_decision. Defined.

(** [LeafNode], and [InternalNode] when it has edges. *)
Record Node (K V : Type) := Node_ {
  parent : option Z;
  parent_idx : option nat;
  keys : list K;
  vals : list V;
  edges : option (list Z)
}.
Arguments Node_ {K V} _ _ _ _ _.
Arguments parent {K V} _.
Arguments parent_idx {K V} _.
Arguments keys {K V} _.
Arguments vals {K V} _.
Arguments edges {K V} _.

(** [Root]; [NodeRef], without the pointer to the map's only root; [Handle]. *)
Record Root := Root_ { root_node : Z; root_height : nat }.
Record NodeRef := NodeRef_ { height : nat; node : Z }.
Record Handle := Handle_ { hnode : NodeRef; idx : nat }.

(** [ForceResult] *)
Inductive ForceResult (L I : Type) := Leaf (l : L) | Internal (i : I).
Arguments Leaf {L I} _.
Arguments Internal {L I} _.

(** [InsertResult] *)
Inductive InsertResult (K V : Type) :=
| Fit (kv : Handle)
| Split (left : NodeRef) (k : K) (v : V) (right : Root).
Arguments Fit {K V} _.
Arguments Split {K V} _ _ _ _.

(** The static [EMPTY_ROOT_NODE]: its address and what its header says. *)
Definition EMPTY_ROOT_NODE : Z := 8.

Definition debug_assert {S} (b : bool) : M S unit := if b then mret tt else panic "assertion failed".

(** [slice_insert] and [slice_remove] *)
Definition slice_insert {T} (l : list T) (i : nat) (x : T) : list T := take i l ++ x :: drop i l.
Definition slice_remove {T} (l : list T) (i : nat) : list T := take i l ++ drop (S i) l.

#[export] Instance Node_layout {K V} : HasLayout (Node K V) NodeLayout :=
  λ n, match edges n with None => LeafLayout | Some _ => InternalLayout end.

Section node.
Context {K V A : Type} `{!GlobalAlloc NodeLayout A}.
#[local] Abbreviation N := (Node K V).
#[local] Abbreviation M := (M (store N A)).

Definition LeafNode_new : N := Node_ None None [] [] None.
Definition InternalNode_new : N := Node_ None None [] [] (Some []).

Definition set_link (p : option Z) (i : option nat) (n : N) : N := Node_ p i (keys n) (vals n) (edges n).
Definition set_kvs (ks : list K) (vs : list V) (n : N) : N := Node_ (parent n) (parent_idx n) ks vs (edges n).
Definition set_edges (es : list Z) (n : N) : N := Node_ (parent n) (parent_idx n) (keys n) (vals n) (Some es).

(** An element of an array; reading behind [len] is undefined behaviour. *)
Definition get_unchecked {T} (l : list T) (i : nat) : M T :=
  match l !! i with Some x => mret x | None => ub "read of an uninitialised element" end.

(** [as_internal().edges] *)
Definition edges_of (n : N) : M (list Z) :=
  match edges n with Some es => mret es | None => ub "a leaf has no edges" end.

(** ** [Root] *)

Definition shared_empty_root : Root := Root_ EMPTY_ROOT_NODE 0.
Definition root_is_shared_root (r : Root) : bool := bool_decide (root_node r = EMPTY_ROOT_NODE).

(** [as_ref], [as_mut] and [into_ref] *)
Definition root_ref (r : Root) : NodeRef := NodeRef_ (root_height r) (root_node r).

Definition new_leaf : M (result Root AllocErr) :=
  node ←? Box_new LeafNode_new;
  mret (Ok (Root_ node 0)).

(** ** [NodeRef] *)

(** [as_header]: the static root can be read, too. *)
Definition as_header (n : NodeRef) : M N :=
  if bool_decide (node n = EMPTY_ROOT_NODE) then mret LeafNode_new else load (node n).
Definition is_shared_root (n : NodeRef) : bool := bool_decide (node n = EMPTY_ROOT_NODE).

Definition len (n : NodeRef) : M nat := h ← as_header n; mret (length (keys h)).
Definition node_keys (n : NodeRef) : M (list K) := h ← as_header n; mret (keys h).

(** [forget_type], [reborrow], [cast_unchecked] and [reborrow_mut] do not change a
    reference. *)
Definition force (n : NodeRef) : ForceResult NodeRef NodeRef :=
  match height n with O => Leaf n | S _ => Internal n end.

Definition ascend (n : NodeRef) : M (result Handle NodeRef) :=
  h ← as_header n;
  match parent h with
  | Some p =>
      match parent_idx h with
      | Some i => mret (Ok (Handle_ (NodeRef_ (S (height n)) p) i))
      | None => ub "read of an uninitialised parent index"
      end
  | None => mret (Err n)
  end.

(** ** [Handle] *)

Definition new_edge (n : NodeRef) (i : nat) : M Handle :=
  l ← len n; _ ← debug_assert (i <=? l); mret (Handle_ n i).
Definition new_kv (n : NodeRef) (i : nat) : M Handle :=
  l ← len n; _ ← debug_assert (i <? l); mret (Handle_ n i).

Definition first_edge (n : NodeRef) : M Handle := new_edge n 0.
Definition last_edge (n : NodeRef) : M Handle := l ← len n; new_edge n l.
Definition first_kv (n : NodeRef) : M Handle := l ← len n; _ ← debug_assert (0 <? l); new_kv n 0.
Definition last_kv (n : NodeRef) : M Handle := l ← len n; _ ← debug_assert (0 <? l); new_kv n (l - 1).

Definition left_edge (h : Handle) : M Handle := new_edge (hnode h) (idx h).
Definition right_edge (h : Handle) : M Handle := new_edge (hnode h) (idx h + 1).
Definition left_kv (h : Handle) : M (result Handle Handle) :=
  if 0 <? idx h then kv ← new_kv (hnode h) (idx h - 1); mret (Ok kv) else mret (Err h).
Definition right_kv (h : Handle) : M (result Handle Handle) :=
  l ← len (hnode h);
  if idx h <? l then kv ← new_kv (hnode h) (idx h); mret (Ok kv) else mret (Err h).

Definition force_handle (h : Handle) : ForceResult Handle Handle :=
  match force (hnode h) with Leaf _ => Leaf h | Internal _ => Internal h end.

Definition descend (h : Handle) : M NodeRef :=
  n ← load (node (hnode h));
  es ← edges_of n;
  child ← get_unchecked es (idx h);
  mret (NodeRef_ (height (hnode h) - 1) child).

(** [into_kv], [into_kv_mut] and [kv_mut]; a reference to a value is its place. *)
Definition into_kv (h : Handle) : M (K * V) :=
  _ ← debug_assert (negb (is_shared_root (hnode h)));
  n ← load (node (hnode h));
  k ← get_unchecked (keys n) (idx h);
  v ← get_unchecked (vals n) (idx h);
  mret (k, v).

(** [mem::replace] of the key and value a handle points to. *)
Definition replace_kv (h : Handle) (k : K) (v : V) : M (K * V) :=
  old ← into_kv h;
  _ ← update (node (hnode h)) (λ n, set_kvs (<[idx h := k]> (keys n)) (<[idx h := v]> (vals n)) n);
  mret old.
Definition replace_val (h : Handle) (v : V) : M V :=
  old ← into_kv h;
  _ ← update (node (hnode h)) (λ n, set_kvs (keys n) (<[idx h := v]> (vals n)) n);
  mret old.2.

Definition correct_parent_link (h : Handle) : M unit :=
  child ← descend h;
  update (node child) (set_link (Some (node (hnode h))) (Some (idx h))).

Definition correct_childrens_parent_links (n : NodeRef) (first after_last : nat) : M unit :=
  for_each (λ i, h ← new_edge n i; correct_parent_link h) (seq first (after_last - first)).
Definition correct_all_childrens_parent_links (n : NodeRef) : M unit :=
  l ← len n; correct_childrens_parent_links n 0 (l + 1).

Definition set_parent (p : option Z) (n : N) : N := set_link p (parent_idx n) n.

(** ** Levels of the root *)

(** A new root node above the old one, with no keys. *)
Definition push_level (root : Root) : M (Root * result NodeRef AllocErr) :=
  _ ← debug_assert (negb (root_is_shared_root root));
  new_node ← Box_new InternalNode_new;
  match new_node with
  | Err e => mret (root, Err e)
  | Ok new_node =>
      _ ← update new_node (set_edges [root_node root]);
      let root := Root_ new_node (root_height root + 1) in
      e ← first_edge (root_ref root);
      _ ← correct_parent_link e;
      mret (root, Ok (root_ref root))
  end.

(** Its first child becomes the root; the node is given back. *)
Definition pop_level (root : Root) : M Root :=
  _ ← debug_assert (0 <? root_height root);
  let top := root_node root in
  e ← first_edge (root_ref root);
  child ← descend e;
  _ ← update (node child) (set_parent None);
  _ ← dealloc top InternalLayout;
  mret (Root_ (node child) (root_height root - 1)).

(** ** Giving nodes back *)

Definition ok_ {T E} (r : result T E) : option T := match r with Ok x => Some x | Err _ => None end.

Definition deallocate_and_ascend_leaf (n : NodeRef) : M (option Handle) :=
  _ ← debug_assert (negb (is_shared_root n));
  ret ← ascend n;
  _ ← dealloc (node n) LeafLayout;
  mret (ok_ ret).
Definition deallocate_and_ascend_internal (n : NodeRef) : M (option Handle) :=
  ret ← ascend n;
  _ ← dealloc (node n) InternalLayout;
  mret (ok_ ret).

(** ** Adding and removing at the ends *)

Definition leaf_push (n : NodeRef) (k : K) (v : V) : M unit :=
  l ← len n;
  _ ← debug_assert (l <? CAPACITY);
  _ ← debug_assert (negb (is_shared_root n));
  update (node n) (λ n, set_kvs (keys n ++ [k]) (vals n ++ [v]) n).

Definition leaf_push_front (n : NodeRef) (k : K) (v : V) : M unit :=
  l ← len n;
  _ ← debug_assert (l <? CAPACITY);
  _ ← debug_assert (negb (is_shared_root n));
  update (node n) (λ n, set_kvs (slice_insert (keys n) 0 k) (slice_insert (vals n) 0 v) n).

Definition internal_push (n : NodeRef) (k : K) (v : V) (edge : Root) : M unit :=
  _ ← debug_assert (root_height edge =? height n - 1);
  i ← len n;
  _ ← debug_assert (i <? CAPACITY);
  m ← load (node n);
  es ← edges_of m;
  _ ← update (node n) (λ n, set_edges (es ++ [root_node edge]) (set_kvs (keys n ++ [k]) (vals n ++ [v]) n));
  e ← new_edge n (i + 1);
  correct_parent_link e.

Definition internal_push_front (n : NodeRef) (k : K) (v : V) (edge : Root) : M unit :=
  _ ← debug_assert (root_height edge =? height n - 1);
  i ← len n;
  _ ← debug_assert (i <? CAPACITY);
  m ← load (node n);
  es ← edges_of m;
  _ ← update (node n) (λ n, set_edges (slice_insert es 0 (root_node edge))
        (set_kvs (slice_insert (keys n) 0 k) (slice_insert (vals n) 0 v) n));
  correct_all_childrens_parent_links n.

(** [pop]; the edge of an internal node comes as a tree of its own. *)
Definition pop (n : NodeRef) : M (K * V * option Root) :=
  l ← len n;
  _ ← debug_assert (0 <? l);
  let i := l - 1 in
  m ← load (node n);
  k ← get_unchecked (keys m) i;
  v ← get_unchecked (vals m) i;
  match force n with
  | Leaf _ =>
      _ ← update (node n) (λ n, set_kvs (take i (keys n)) (take i (vals n)) n);
      mret (k, v, None)
  | Internal _ =>
      es ← edges_of m;
      edge ← get_unchecked es (i + 1);
      _ ← update edge (set_parent None);
      _ ← update (node n) (λ n, set_edges (take l es) (set_kvs (take i (keys n)) (take i (vals n)) n));
      mret (k, v, Some (Root_ edge (height n - 1)))
  end.

Definition pop_front (n : NodeRef) : M (K * V * option Root) :=
  old_len ← len n;
  _ ← debug_assert (0 <? old_len);
  m ← load (node n);
  k ← get_unchecked (keys m) 0;
  v ← get_unchecked (vals m) 0;
  _ ← update (node n) (λ n, set_kvs (slice_remove (keys n) 0) (slice_remove (vals n) 0) n);
  match force n with
  | Leaf _ => mret (k, v, None)
  | Internal _ =>
      es ← edges_of m;
      edge ← get_unchecked es 0;
      _ ← update (node n) (set_edges (slice_remove es 0));
      _ ← update edge (set_parent None);
      _ ← correct_childrens_parent_links n 0 old_len;
      mret (k, v, Some (Root_ edge (height n - 1)))
  end.

(** ** Inserting at an edge *)

(** [insert_fit] in a leaf; the place of the new value is returned. *)
Definition leaf_insert_fit (h : Handle) (k : K) (v : V) : M (Z * nat) :=
  l ← len (hnode h);
  _ ← debug_assert (l <? CAPACITY);
  _ ← debug_assert (negb (is_shared_root (hnode h)));
  _ ← update (node (hnode h)) (λ n, set_kvs (slice_insert (keys n) (idx h) k) (slice_insert (vals n) (idx h) v) n);
  mret (node (hnode h), idx h).

(** [split] of a leaf: the keys behind the handle move to a new node. *)
Definition leaf_split (h : Handle) : M (result (NodeRef * K * V * Root) AllocErr) :=
  _ ← debug_assert (negb (is_shared_root (hnode h)));
  new_node ←? Box_new LeafNode_new;
  m ← load (node (hnode h));
  k ← get_unchecked (keys m) (idx h);
  v ← get_unchecked (vals m) (idx h);
  _ ← update new_node (set_kvs (drop (idx h + 1) (keys m)) (drop (idx h + 1) (vals m)));
  _ ← update (node (hnode h)) (λ n, set_kvs (take (idx h) (keys n)) (take (idx h) (vals n)) n);
  mret (Ok (hnode h, k, v, Root_ new_node 0)).

Definition leaf_insert (h : Handle) (k : K) (v : V) : M (result (InsertResult K V * (Z * nat)) AllocErr) :=
  l ← len (hnode h);
  if l <? CAPACITY then
    ptr ← leaf_insert_fit h k v;
    kv ← new_kv (hnode h) (idx h);
    mret (Ok (Fit kv, ptr))
  else
    middle ← new_kv (hnode h) B;
    halves ←? leaf_split middle;
    let '(left_node, k', v', right_tree) := halves in
    ptr ← (if idx h <=? B then e ← new_edge left_node (idx h); leaf_insert_fit e k v
           else e ← new_edge (root_ref right_tree) (idx h - (B + 1)); leaf_insert_fit e k v);
    mret (Ok (Split left_node k' v' right_tree, ptr)).

(** [insert_fit] in an internal node, with the tree to hang behind the key. *)
Definition internal_insert_fit (h : Handle) (k : K) (v : V) (edge : Root) : M unit :=
  l ← len (hnode h);
  _ ← debug_assert (l <? CAPACITY);
  _ ← debug_assert (root_height edge =? height (hnode h) - 1);
  _ ← leaf_insert_fit h k v;
  m ← load (node (hnode h));
  es ← edges_of m;
  _ ← update (node (hnode h)) (set_edges (slice_insert es (idx h + 1) (root_node edge)));
  l ← len (hnode h);
  correct_childrens_parent_links (hnode h) (idx h + 1) (l + 1).

Definition internal_split (h : Handle) : M (result (NodeRef * K * V * Root) AllocErr) :=
  new_node ←? Box_new InternalNode_new;
  m ← load (node (hnode h));
  k ← get_unchecked (keys m) (idx h);
  v ← get_unchecked (vals m) (idx h);
  es ← edges_of m;
  let new_len := length (keys m) - idx h - 1 in
  _ ← update new_node (λ n, set_edges (drop (idx h + 1) es)
        (set_kvs (drop (idx h + 1) (keys m)) (drop (idx h + 1) (vals m)) n));
  _ ← update (node (hnode h)) (λ n, set_edges (take (idx h + 1) es)
        (set_kvs (take (idx h) (keys n)) (take (idx h) (vals n)) n));
  let new_root := Root_ new_node (height (hnode h)) in
  _ ← correct_childrens_parent_links (root_ref new_root) 0 (new_len + 1);
  mret (Ok (hnode h, k, v, new_root)).

Definition internal_insert (h : Handle) (k : K) (v : V) (edge : Root) : M (result (InsertResult K V) AllocErr) :=
  _ ← debug_assert (root_height edge =? height (hnode h) - 1);
  l ← len (hnode h);
  if l <? CAPACITY then
    _ ← internal_insert_fit h k v edge;
    kv ← new_kv (hnode h) (idx h);
    mret (Ok (Fit kv))
  else
    middle ← new_kv (hnode h) B;
    halves ←? internal_split middle;
    let '(left_node, k', v', right_tree) := halves in
    _ ← (if idx h <=? B then e ← new_edge left_node (idx h); internal_insert_fit e k v edge
         else e ← new_edge (root_ref right_tree) (idx h - (B + 1)); internal_insert_fit e k v edge);
    mret (Ok (Split left_node k' v' right_tree)).

(** ** Removing, merging and stealing *)

(** [remove] of a leaf's key. *)
Definition leaf_remove (h : Handle) : M (Handle * K * V) :=
  _ ← debug_assert (negb (is_shared_root (hnode h)));
  m ← load (node (hnode h));
  k ← get_unchecked (keys m) (idx h);
  v ← get_unchecked (vals m) (idx h);
  _ ← update (node (hnode h)) (λ n, set_kvs (slice_remove (keys n) (idx h)) (slice_remove (vals n) (idx h)) n);
  e ← left_edge h;
  mret (e, k, v).

Definition child_len (e : Handle) : M nat := c ← descend e; len c.

Definition can_merge (h : Handle) : M bool :=
  l ← left_edge h; left_len ← child_len l;
  r ← right_edge h; right_len ← child_len r;
  mret (left_len + right_len + 1 <=? CAPACITY).

(** The right child and the key move into the left child. *)
Definition merge (h : Handle) : M Handle :=
  let self := hnode h in
  l ← left_edge h; left_node ← descend l; left_len ← len left_node;
  r ← right_edge h; right_node ← descend r; right_len ← len right_node;
  _ ← debug_assert (left_len + right_len + 1 <=? CAPACITY);
  m ← load (node self);
  rm ← load (node right_node);
  k ← get_unchecked (keys m) (idx h);
  v ← get_unchecked (vals m) (idx h);
  es ← edges_of m;
  _ ← update (node left_node) (λ n, set_kvs (keys n ++ k :: keys rm) (vals n ++ v :: vals rm) n);
  _ ← update (node self) (λ n, set_edges (slice_remove es (idx h + 1))
        (set_kvs (slice_remove (keys n) (idx h)) (slice_remove (vals n) (idx h)) n));
  _ ← correct_childrens_parent_links self (idx h + 1) (length (keys m));
  _ ← (if 1 <? height self then
         lm ← load (node left_node);
         les ← edges_of lm;
         res ← edges_of rm;
         _ ← update (node left_node) (set_edges (les ++ res));
         _ ← correct_childrens_parent_links left_node (left_len + 1) (left_len + right_len + 2);
         dealloc (node right_node) InternalLayout
       else dealloc (node right_node) LeafLayout);
  new_edge self (idx h).

(** The last key of the left child moves to the handle, its key to the right
    child; and the other way round. *)
Definition steal_left (h : Handle) : M unit :=
  e ← left_edge h; left_node ← descend e;
  '(k, v, edge) ← pop left_node;
  '(k, v) ← replace_kv h k v;
  e ← right_edge h; right_node ← descend e;
  match force right_node with
  | Leaf leaf => leaf_push_front leaf k v
  | Internal internal =>
      edge ← expect edge "called `Option::unwrap()` on a `None` value";
      internal_push_front internal k v edge
  end.

Definition steal_right (h : Handle) : M unit :=
  e ← right_edge h; right_node ← descend e;
  '(k, v, edge) ← pop_front right_node;
  '(k, v) ← replace_kv h k v;
  e ← left_edge h; left_node ← descend e;
  match force left_node with
  | Leaf leaf => leaf_push leaf k v
  | Internal internal =>
      edge ← expect edge "called `Option::unwrap()` on a `None` value";
      internal_push internal k v edge
  end.
End node.
