(* ===== verification/BTree.v ===== *)
(** * BTree: the fallible B-tree map ([alloc_collections/src/btree/map.rs], [search.rs])

    A map is its root and a count.  Every operation is a sequence of steps on the
    nodes of [Node]; insertion climbs back over the parent pointers and may fail
    wherever it needs a node.  Loops that climb or descend run at most once per
    level: their fuel is the height. *)

From S2P Require Import Prelude HeapLogic Node.

#[local] Open Scope nat_scope.

(** [Ord] of the keys, by [cmp]; [K: Borrow<K>]. *)
Class Ord (K : Type) := {
  cmp : K → K → comparison;
  cmp_eq x y : cmp x y = Eq ↔ x = y;
  cmp_antisym x y : cmp y x = CompOpp (cmp x y);
  cmp_trans x y z : cmp x y = Lt → cmp y z = Lt → cmp x z = Lt
}.

#[export] Program Instance Z_Ord : Ord Z := {| cmp := Z.compare |}.
Next Obligation. apply Z.compare_eq_iff. Qed.
Next Obligation. intros. by rewrite Z.compare_antisym. Qed.
Next Obligation. intros x y z. rewrite !Z.compare_lt_iff. lia. Qed.

(** [BTreeMap] *)
Record BTreeMap := BTreeMap_ { root : Root; length_ : nat }.

(** [SearchResult] *)
Inductive SearchResult := Found (h : Handle) | GoDown (h : Handle).

(** [UnderflowResult] *)
Inductive UnderflowResult := AtRoot | EmptyParent (n : NodeRef) | Merged (n : NodeRef) | Stole (n : NodeRef).

Section btree.
Context {K V A : Type} `{!Ord K, !GlobalAlloc NodeLayout A}.
#[local] Abbreviation M := (M (store (Node K V) A)).

(** ** search.rs *)

Fixpoint search_keys (i : nat) (ks : list K) (key : K) : nat * bool :=
  match ks with
  | [] => (i, false)
  | k :: ks =>
      match cmp key k with
      | Gt => search_keys (S i) ks key
      | Eq => (i, true)
      | Lt => (i, false)
      end
  end.

Definition search_linear (n : NodeRef) (key : K) : M (nat * bool) :=
  ks ← node_keys n; mret (search_keys 0 ks key).

Definition search_node (n : NodeRef) (key : K) : M SearchResult :=
  r ← search_linear n key;
  match r with
  | (i, true) => h ← new_kv n i; mret (Found h)
  | (i, false) => h ← new_edge n i; mret (GoDown h)
  end.

Fixpoint search_tree_loop (fuel : nat) (n : NodeRef) (key : K) : M SearchResult :=
  match fuel with
  | O => ub "still searching"
  | S fuel =>
      r ← search_node n key;
      match r with
      | Found h => mret (Found h)
      | GoDown h =>
          match force_handle h with
          | Leaf leaf => mret (GoDown leaf)
          | Internal internal => c ← descend internal; search_tree_loop fuel c key
          end
      end
  end.
Definition search_tree (n : NodeRef) (key : K) : M SearchResult := search_tree_loop (S (height n)) n key.

(** ** map.rs: looking up *)

Definition BTreeMap_new : BTreeMap := BTreeMap_ shared_empty_root 0.
Definition map_len (m : BTreeMap) : nat := length_ m.
Definition is_empty (m : BTreeMap) : bool := map_len m =? 0.

Definition get_key_value (m : BTreeMap) (key : K) : M (option (K * V)) :=
  r ← search_tree (root_ref (root m)) key;
  match r with
  | Found h => kv ← into_kv h; mret (Some kv)
  | GoDown _ => mret None
  end.
Definition get (m : BTreeMap) (key : K) : M (option V) :=
  r ← search_tree (root_ref (root m)) key;
  match r with
  | Found h => kv ← into_kv h; mret (Some kv.2)
  | GoDown _ => mret None
  end.
Definition contains_key (m : BTreeMap) (key : K) : M bool :=
  v ← get m key; mret (match v with Some _ => true | None => false end).

(** [get_mut], and what its users do with the reference: put a value there. *)
Definition get_mut (m : BTreeMap) (key : K) : M (option Handle) :=
  r ← search_tree (root_ref (root m)) key;
  match r with
  | Found h => _ ← into_kv h; mret (Some h)
  | GoDown _ => mret None
  end.

(** ** Inserting *)

(** The loop of [VacantEntry::insert]: a key and a tree to hang behind it climb
    until a node has room for them; [cur_parent] is an error at the root. *)
Fixpoint insert_loop (fuel : nat) (r : Root) (cur_parent : result Handle NodeRef)
    (ins_k : K) (ins_v : V) (ins_edge : Root) : M (Root * result unit AllocErr) :=
  match cur_parent with
  | Err _ =>
      '(r, top) ← push_level r;
      match top with
      | Err e => mret (r, Err e)
      | Ok top => _ ← internal_push top ins_k ins_v ins_edge; mret (r, Ok tt)
      end
  | Ok parent =>
      match fuel with
      | O => ub "still inserting"
      | S fuel =>
          res ← internal_insert parent ins_k ins_v ins_edge;
          match res with
          | Err e => mret (r, Err e)
          | Ok (Fit _) => mret (r, Ok tt)
          | Ok (Split left_node k v right_tree) =>
              cur_parent ← ascend left_node;
              insert_loop fuel r cur_parent k v right_tree
          end
      end
  end.

(** [VacantEntry::insert]; the place of the value is returned. *)
Definition vacant_insert (m : BTreeMap) (h : Handle) (key : K) (value : V) : M (BTreeMap * result (Z * nat) AllocErr) :=
  let m := BTreeMap_ (root m) (length_ m + 1) in
  res ← leaf_insert h key value;
  match res with
  | Err e => mret (m, Err e)
  | Ok (Fit kv, _) => _ ← into_kv kv; mret (m, Ok (node (hnode kv), idx kv))
  | Ok (Split left_node k v right_tree, ptr) =>
      cur_parent ← ascend left_node;
      '(r, res) ← insert_loop (root_height (root m)) (root m) cur_parent k v right_tree;
      mret (BTreeMap_ r (length_ m), map_ok (λ _, ptr) res)
  end.

Definition ensure_root_is_owned (m : BTreeMap) : M (BTreeMap * result unit AllocErr) :=
  if root_is_shared_root (root m) then
    r ← new_leaf;
    match r with
    | Err e => mret (m, Err e)
    | Ok r => mret (BTreeMap_ r (length_ m), Ok tt)
    end
  else mret (m, Ok tt).

(** [Entry]; [Vacant] keeps the key. *)
Inductive Entry := Vacant (key : K) (h : Handle) | Occupied (h : Handle).

Definition entry (m : BTreeMap) (key : K) : M (BTreeMap * result Entry AllocErr) :=
  '(m, res) ← ensure_root_is_owned m;
  match res with
  | Err e => mret (m, Err e)
  | Ok _ =>
      r ← search_tree (root_ref (root m)) key;
      match r with
      | Found h => mret (m, Ok (Occupied h))
      | GoDown h => mret (m, Ok (Vacant key h))
      end
  end.

(** [BTreeMap::insert] *)
Definition insert (m : BTreeMap) (key : K) (value : V) : M (BTreeMap * result (option V) AllocErr) :=
  '(m, res) ← entry m key;
  match res with
  | Err e => mret (m, Err e)
  | Ok (Occupied h) => old ← replace_val h value; mret (m, Ok (Some old))
  | Ok (Vacant key h) => '(m, res) ← vacant_insert m h key value; mret (m, map_ok (λ _, None) res)
  end.

(** ** Removing *)

Fixpoint first_leaf_edge_loop (fuel : nat) (n : NodeRef) : M Handle :=
  match force n with
  | Leaf leaf => first_edge leaf
  | Internal internal =>
      match fuel with
      | O => ub "still descending"
      | S fuel => e ← first_edge internal; c ← descend e; first_leaf_edge_loop fuel c
      end
  end.
Definition first_leaf_edge (n : NodeRef) : M Handle := first_leaf_edge_loop (height n) n.

Fixpoint last_leaf_edge_loop (fuel : nat) (n : NodeRef) : M Handle :=
  match force n with
  | Leaf leaf => last_edge leaf
  | Internal internal =>
      match fuel with
      | O => ub "still descending"
      | S fuel => e ← last_edge internal; c ← descend e; last_leaf_edge_loop fuel c
      end
  end.
Definition last_leaf_edge (n : NodeRef) : M Handle := last_leaf_edge_loop (height n) n.

Definition handle_underfull_node (n : NodeRef) : M UnderflowResult :=
  p ← ascend n;
  match p with
  | Err _ => mret AtRoot
  | Ok parent =>
      l ← left_kv parent;
      side ← match l with
             | Ok left_ => mret (Some (true, left_))
             | Err parent =>
                 r ← right_kv parent;
                 match r with Ok right_ => mret (Some (false, right_)) | Err parent => mret None end
             end;
      match side with
      | None => mret (EmptyParent (hnode parent))
      | Some (is_left, handle) =>
          m ← can_merge handle;
          if m : bool then e ← merge handle; mret (Merged (hnode e))
          else
            _ ← (if is_left : bool then steal_left handle else steal_right handle);
            mret (Stole (hnode handle))
      end
  end.

(** The loop of [remove_kv]; [r] is the root. *)
Fixpoint underfull_loop (fuel : nat) (r : Root) (cur_node : NodeRef) : M Root :=
  l ← len cur_node;
  if l <? CAPACITY / 2 then
    u ← handle_underfull_node cur_node;
    match u with
    | AtRoot => mret r
    | EmptyParent _ => panic "internal error: entered unreachable code"
    | Merged parent =>
        l ← len parent;
        if l =? 0 then pop_level r
        else match fuel with O => ub "still climbing" | S fuel => underfull_loop fuel r parent end
    | Stole _ => mret r
    end
  else mret r.

(** [unwrap_unchecked] in a debug build *)
Definition unwrap_unchecked {T} (o : option T) : M T := expect o "'unchecked' unwrap on None in BTreeMap".

(** [OccupiedEntry::remove_kv] *)
Definition remove_kv (m : BTreeMap) (h : Handle) : M (BTreeMap * (K * V)) :=
  _ ← (if length_ m =? 0 then panic "attempt to subtract with overflow" else mret tt);
  let length_ := length_ m - 1 in
  '(small_leaf, old) ← match force_handle h with
    | Leaf leaf => '(hole, k, v) ← leaf_remove leaf; mret (hnode hole, (k, v))
    | Internal internal =>
        e ← right_edge internal; c ← descend e;
        le ← first_leaf_edge c;
        kv ← right_kv le;
        to_remove ← unwrap_unchecked (ok_ kv);
        '(hole, key, val) ← leaf_remove to_remove;
        old ← replace_kv internal key val;
        mret (hnode hole, old)
    end;
  r ← underfull_loop (root_height (root m)) (root m) small_leaf;
  mret (BTreeMap_ r length_, old).

(** [BTreeMap::remove] *)
Definition remove (m : BTreeMap) (key : K) : M (BTreeMap * option V) :=
  r ← search_tree (root_ref (root m)) key;
  match r with
  | Found h => '(m, kv) ← remove_kv m h; mret (m, Some kv.2)
  | GoDown _ => mret (m, None)
  end.

(** [OccupiedEntry]: [get], [insert], [remove]; [Entry::or_insert]. *)
Definition occupied_get (h : Handle) : M V := kv ← into_kv h; mret kv.2.
Definition occupied_insert (h : Handle) (value : V) : M V := replace_val h value.
End btree.
