(* ===== verification/Deque.v ===== *)
(** * Deque: calls on a double-ended queue

    A sequence of calls of [next] and [next_back] ([pulls]), and what they answer on a
    list ([deque]).  The iterators of a B-tree map are such queues. *)

From S2P Require Import Prelude.
From iris.prelude Require Import prelude options.

#[local] Open Scope nat_scope.

Section deque.
Context {S St T : Type} (next next_back : St → M S (St * option T)).

(** A sequence of calls: [true] for one of [next_back]. *)
Fixpoint pulls (calls : list bool) (st : St) : M S (St * list (option T)) :=
  match calls with
  | [] => mret (st, [])
  | b :: calls =>
      '(st, x) ← (if b : bool then next_back st else next st);
      '(st, xs) ← pulls calls st;
      mret (st, x :: xs)
  end.

(** What they answer on a list, and what they leave of it. *)
Fixpoint deque (calls : list bool) (l : list T) : list (option T) :=
  match calls with
  | [] => []
  | true :: calls => last l :: deque calls (removelast l)
  | false :: calls => head l :: deque calls (tail l)
  end.

Fixpoint left_of (calls : list bool) (l : list T) : list T :=
  match calls with
  | [] => l
  | true :: calls => left_of calls (removelast l)
  | false :: calls => left_of calls (tail l)
  end.

(** A relation of the two that every call keeps, as it does the store. *)
Record deque_like (R : St → list T → S → Prop) : Prop := {
  deque_next st l s : R st l s → ∃ st', next st s = Ret ((st', head l), s) ∧ R st' (tail l) s;
  deque_next_back st l s : R st l s → ∃ st', next_back st s = Ret ((st', last l), s) ∧ R st' (removelast l) s
}.

Lemma pulls_deque R : deque_like R → ∀ calls st l s, R st l s → ∃ st', pulls calls st s = Ret ((st', deque calls l), s).
Proof.
  intros HR. induction calls as [|b calls IH]; intros st l s H; cbn [pulls deque]; [by exists st|].
  destruct b.
  - destruct (deque_next_back R HR st l s H) as (st1 & Hrun & H1). destruct (IH _ _ _ H1) as (st2 & Hrun2).
    exists st2. unfold mbind, M_bind. by rewrite Hrun Hrun2.
  - destruct (deque_next R HR st l s H) as (st1 & Hrun & H1). destruct (IH _ _ _ H1) as (st2 & Hrun2).
    exists st2. unfold mbind, M_bind. by rewrite Hrun Hrun2.
Qed.
End deque.
