(* ===== verification/Readonly.v ===== *)
(** * Readonly: steps on a B-tree that write nothing

    [readonly m]: wherever [m] ends, the store is the one it started with.  The hint
    database [readonly] and the tactic [solve_readonly] follow a program step by
    step.  Reading may be done in any order ([hwp_swap]), and what held of the heap
    before it still holds ([hwp_look]). *)

From S2P Require Import Prelude HeapLogic Node BTree.
From iris.proofmode Require Import proofmode.
From iris.prelude Require Import options.

#[local] Open Scope nat_scope.

Section readonly.
Context {K V A : Type} `{!GlobalAlloc NodeLayout A}.
#[local] Abbreviation N := (Node K V).
#[local] Abbreviation M := (M (store N A)).

Definition readonly {B} (m : M B) : Prop := ∀ s x s', m s = Ret (x, s') → s' = s.

Lemma readonly_ret {B} (x : B) : readonly (mret x).
Proof. by intros s y s' [= _ ->]. Qed.
Lemma readonly_bind {B C} (m : M B) (k : B → M C) : readonly m → (∀ x, readonly (k x)) → readonly (m ≫= k).
Proof.
  intros Hm Hk s y s' H. unfold mbind, M_bind in H. destruct (m s) as [[x s1]|?|?] eqn:E; [|done..].
  apply Hm in E as ->. by eapply Hk.
Qed.
Lemma readonly_ub {B} msg : readonly (ub msg : M B).
Proof. intros s x s'. done. Qed.
Lemma readonly_panic {B} msg : readonly (panic msg : M B).
Proof. intros s x s'. done. Qed.
Lemma readonly_load p : readonly (load p : M N).
Proof. intros s x s'. unfold load. destruct (cells s !! p); [by intros [= _ ->]|done]. Qed.
Lemma readonly_debug_assert b : readonly (debug_assert b : M unit).
Proof. destruct b; [apply readonly_ret|]. intros s x s'. done. Qed.
Lemma readonly_get_unchecked {T} (l : list T) i : readonly (get_unchecked l i : M T).
Proof. unfold get_unchecked. destruct (l !! i); [apply readonly_ret|apply readonly_ub]. Qed.
Lemma readonly_unwrap {T} (o : option T) : readonly (unwrap_unchecked o : M T).
Proof. destruct o; [apply readonly_ret|apply readonly_panic]. Qed.

(** In the logic. *)
Lemma hwp_swap {B C D} (m1 : M B) (m2 : M C) (k : B → C → M D) Q : readonly m1 → readonly m2 →
  hwp (c ← m2; b ← m1; k b c) Q ⊢ hwp (b ← m1; c ← m2; k b c) Q.
Proof.
  intros H1 H2. split. intros h H hf a Hd Hi. specialize (H hf a Hd Hi). unfold wp, mbind, M_bind in *.
  destruct (m2 _) as [[c s2]|?|?] eqn:E2; [|done..]. pose proof (H2 _ _ _ E2) as ->.
  destruct (m1 _) as [[b s1]|?|?] eqn:E1; [|done..]. pose proof (H1 _ _ _ E1) as ->. by rewrite E2.
Qed.

Lemma hwp_readonly {B} (m : M B) (P : hProp N) Q : readonly m → (P ⊢ hwp m Q) → P ⊢ hwp m (λ x, P ∧ Q x).
Proof.
  intros Hr Hm. apply hwp_intro. intros h hf a HP Hd Hi. destruct Hm as [Hm]. specialize (Hm h HP hf a Hd Hi). unfold wp in Hm.
  destruct (m _) as [[x s]|?|?] eqn:E; [|done..]. apply Hr in E as ->. destruct Hm as (h' & Hc & Hd' & Hi' & HQ).
  cbn [cells] in Hc. apply map_union_cancel_r in Hc as <-; [|done..]. exists x, h, a. split_and!; [done..|by split].
Qed.

Lemma hwp_look {B} (m : M B) (P : hProp N) (φ : B → Prop) Q : readonly m → (P ⊢ hwp m (λ x, ⌜φ x⌝ ∧ True)) →
  P -∗ (∀ x, ⌜φ x⌝ → P -∗ Q x) -∗ hwp m Q.
Proof.
  intros Hr Hm. iIntros "HP HQ". iApply (hwp_wand with "[HP]"); [by iApply (hwp_readonly m P _ Hr Hm)|].
  iIntros (x) "H". iAssert ⌜φ x⌝%I as %Hx; [iDestruct "H" as "[_ [$ _]]"|]. iDestruct "H" as "[HP _]". by iApply ("HQ" with "[//] HP").
Qed.

Lemma readonly_as_header n : readonly (as_header n : M N).
Proof. unfold as_header. case_bool_decide; [apply readonly_ret|apply readonly_load]. Qed.
Lemma readonly_edges_of n : readonly (edges_of n : M (list Z)).
Proof. unfold edges_of. destruct (edges n); [apply readonly_ret|apply readonly_ub]. Qed.
End readonly.

Create HintDb readonly.
#[export] Hint Resolve readonly_ret readonly_ub readonly_panic readonly_load readonly_debug_assert readonly_as_header
  readonly_edges_of readonly_get_unchecked readonly_unwrap : readonly.

(** A sequence of steps is followed one by one; branches are taken apart. *)
Ltac solve_readonly :=
  repeat first
    [ progress eauto 1 with readonly
    | apply readonly_bind; [|intros ?]
    | progress cbn [mbind]
    | match goal with |- readonly (match ?x with _ => _ end) => destruct x end ].

Section readonly_steps.
Context {K V A : Type} `{!Ord K, !GlobalAlloc NodeLayout A}.
#[local] Abbreviation N := (Node K V).
#[local] Abbreviation M := (M (store N A)).

Lemma readonly_len n : readonly (len n : M nat).
Proof. unfold len. solve_readonly. Qed.
Lemma readonly_node_keys n : readonly (node_keys n : M (list K)).
Proof. unfold node_keys. solve_readonly. Qed.
Lemma readonly_search_linear n key : readonly (search_linear n key : M _).
Proof. unfold search_linear, node_keys. solve_readonly. Qed.
#[local] Hint Resolve readonly_len : readonly.
Lemma readonly_new_edge n i : readonly (new_edge n i : M Handle).
Proof. unfold new_edge. solve_readonly. Qed.
Lemma readonly_new_kv n i : readonly (new_kv n i : M Handle).
Proof. unfold new_kv. solve_readonly. Qed.
Lemma readonly_descend h : readonly (descend h : M NodeRef).
Proof. unfold descend. solve_readonly. Qed.
Lemma readonly_into_kv h : readonly (into_kv h : M (K * V)).
Proof. unfold into_kv. solve_readonly. Qed.
Lemma readonly_ascend n : readonly (ascend n : M _).
Proof. unfold ascend. solve_readonly. Qed.
#[local] Hint Resolve readonly_new_edge readonly_new_kv readonly_descend : readonly.
Lemma readonly_left_kv h : readonly (left_kv h : M _).
Proof. unfold left_kv. solve_readonly. Qed.
Lemma readonly_right_kv h : readonly (right_kv h : M _).
Proof. unfold right_kv. solve_readonly. Qed.

Lemma readonly_first_leaf_edge n : readonly (first_leaf_edge n : M Handle).
Proof.
  unfold first_leaf_edge. generalize (height n) as fuel. intros fuel. revert n.
  induction fuel as [|fuel IH]; intros [[|h] p]; cbn; unfold first_edge; solve_readonly.
Qed.
Lemma readonly_last_leaf_edge n : readonly (last_leaf_edge n : M Handle).
Proof.
  unfold last_leaf_edge. generalize (height n) as fuel. intros fuel. revert n.
  induction fuel as [|fuel IH]; intros [[|h] p]; cbn; unfold last_edge; solve_readonly.
Qed.
End readonly_steps.

#[export] Hint Resolve readonly_len readonly_node_keys readonly_search_linear readonly_new_edge readonly_new_kv readonly_descend
  readonly_into_kv readonly_ascend readonly_left_kv readonly_right_kv readonly_first_leaf_edge readonly_last_leaf_edge : readonly.
