(* ===== verification/Keeps.v ===== *)
(** * Keeps: what an insertion that climbs leaves alone

    When a leaf has been split, [VacantEntry::insert] has the place of the new value as
    a raw pointer and goes on changing nodes above.  [keeps m]: running [m] changes
    neither the keys nor the values of any leaf, and leaves no internal node without
    edges; so that the pointer is still good at the end ([hwp_keeps]). *)

From S2P Require Import Prelude HeapLogic Node BTree Readonly.
From iris.proofmode Require Import proofmode.
From iris.prelude Require Import options.

#[local] Open Scope nat_scope.

Section keeps.
Context {K V A : Type} `{!Ord K, !GlobalAlloc NodeLayout A}.
#[local] Abbreviation N := (Node K V).
#[local] Abbreviation M := (M (store N A)).
Implicit Types (c : gmap Z N) (s : store N A).

Definition same_leaf (n n' : N) : Prop :=
  match edges n with
  | None => edges n' = None ∧ keys n' = keys n ∧ vals n' = vals n
  | Some _ => edges n' ≠ None
  end.
Definition kept c c' : Prop := ∀ p n, c !! p = Some n → ∃ n', c' !! p = Some n' ∧ same_leaf n n'.

#[export] Instance same_leaf_refl : Reflexive same_leaf.
Proof. intros n. unfold same_leaf. by destruct (edges n). Qed.
#[export] Instance same_leaf_trans : Transitive same_leaf.
Proof.
  intros n1 n2 n3. unfold same_leaf. intros H1 H2. destruct (edges n1), (edges n2); naive_solver congruence.
Qed.
#[export] Instance kept_refl : Reflexive kept.
Proof. intros c p n Hn. by exists n. Qed.
#[export] Instance kept_trans : Transitive kept.
Proof.
  intros c1 c2 c3 H1 H2 p n Hn. destruct (H1 _ _ Hn) as (n2 & Hn2 & Hs). destruct (H2 _ _ Hn2) as (n3 & Hn3 & Hs').
  exists n3. split; [done|]. by etrans.
Qed.

(** From a store, and from any store. *)
Definition keeps_at {B} s (m : M B) : Prop := ∀ x s', al_inv (live (cells s)) (al s) → m s = Ret (x, s') →
  al_inv (live (cells s')) (al s') ∧ kept (cells s) (cells s').
Definition keeps {B} (m : M B) : Prop := ∀ s, keeps_at s m.

(** An internal node. *)
Definition inner_at s p : Prop := ∃ n, cells s !! p = Some n ∧ edges n ≠ None.
Lemma inner_kept s s' p : kept (cells s) (cells s') → inner_at s p → inner_at s' p.
Proof.
  intros H (n & Hn & He). destruct (H _ _ Hn) as (n' & Hn' & Hs). exists n'. split; [done|].
  unfold same_leaf in Hs. by destruct (edges n).
Qed.

Lemma keeps_at_bind {B C} s (m : M B) (k : B → M C) :
  keeps_at s m → (∀ x s', m s = Ret (x, s') → kept (cells s) (cells s') → keeps_at s' (k x)) → keeps_at s (m ≫= k).
Proof.
  intros Hm Hk y s2 Hi H. unfold mbind, M_bind in H. destruct (m s) as [[x s1]|?|?] eqn:E; [|done..].
  destruct (Hm _ _ Hi E) as [Hi1 H1]. destruct (Hk _ _ eq_refl H1 _ _ Hi1 H) as [Hi2 H2]. split; [done|]. by etrans.
Qed.
Lemma keeps_bind {B C} (m : M B) (k : B → M C) : keeps m → (∀ x, keeps (k x)) → keeps (m ≫= k).
Proof. intros Hm Hk s. apply keeps_at_bind; [apply Hm|]. intros x s' _ _. apply Hk. Qed.
Lemma keeps_readonly {B} (m : M B) : readonly m → keeps m.
Proof. intros Hm s x s' Hi H. apply Hm in H as ->. by split. Qed.

Lemma keeps_update_at s p (f : N → N) : (∀ n, cells s !! p = Some n → same_leaf n (f n)) → keeps_at s (update p f : M unit).
Proof.
  intros Hf x s' Hi. unfold update. destruct (cells s !! p) as [n|] eqn:Hn; [|done]. intros [= _ <-]. cbn [cells al].
  specialize (Hf n eq_refl). split.
  - unfold live in *. rewrite fmap_insert insert_id; [done|]. rewrite lookup_fmap Hn. cbn. f_equal.
    unfold layout_of, Node_layout. unfold same_leaf in Hf. destruct (edges n), (edges (f n)); naive_solver.
  - intros q m Hm. destruct (decide (p = q)) as [->|Hpq].
    + rewrite Hn in Hm. injection Hm as <-. exists (f n). by rewrite lookup_insert_eq.
    + exists m. by rewrite lookup_insert_ne.
Qed.
Lemma keeps_update p (f : N → N) : (∀ n, same_leaf n (f n)) → keeps (update p f : M unit).
Proof. intros Hf s. apply keeps_update_at. auto. Qed.
Lemma keeps_update_inner s p (f : N → N) : inner_at s p → (∀ n, edges n ≠ None → edges (f n) ≠ None) → keeps_at s (update p f : M unit).
Proof.
  intros (n & Hn & He) Hf. apply keeps_update_at. intros n' Hn'. rewrite Hn in Hn'. injection Hn' as <-.
  specialize (Hf n He). unfold same_leaf. by destruct (edges n).
Qed.

Lemma keeps_Box_new (n : N) : keeps (Box_new n : M _).
Proof.
  intros s x s' Hi. unfold Box_new. pose proof (al_alloc_ok _ (layout_of n) _ Hi) as Ha.
  destruct (al_alloc (layout_of n) (al s)) as [[p|] a]; intros [= _ <-]; [|by split].
  destruct Ha as (Hp & _ & Ha). cbn [cells al]. unfold live in *. rewrite fmap_insert. split; [done|].
  intros q m Hm. exists m. rewrite lookup_insert_ne; [done|]. intros <-. by rewrite lookup_fmap Hm in Hp.
Qed.
Lemma Box_new_inner s p s' (n : N) : (Box_new n : M _) s = Ret (Ok p, s') → edges n ≠ None → inner_at s' p.
Proof.
  unfold Box_new. destruct (al_alloc (layout_of n) (al s)) as [[q|] a]; [|done]. intros [= -> <-] He. exists n.
  split; [apply lookup_insert_eq|done].
Qed.

Lemma load_run s p (n : N) s' : (load p : M N) s = Ret (n, s') → s' = s ∧ cells s !! p = Some n.
Proof. unfold load. destruct (cells s !! p); [|done]. by intros [= -> ->]. Qed.
Lemma edges_of_run s (n : N) es s' : (edges_of n : M (list Z)) s = Ret (es, s') → s' = s ∧ edges n = Some es.
Proof. unfold edges_of. destruct (edges n); [|done]. by intros [= -> ->]. Qed.

(** In the logic: a leaf's entry that was there before is there afterwards. *)
Definition leaf_has (ptr : Z * nat) (k : K) (v : V) : hProp N :=
  HProp (λ h, ∃ n, h !! ptr.1 = Some n ∧ edges n = None ∧ keys n !! ptr.2 = Some k ∧ vals n !! ptr.2 = Some v).

Lemma hwp_keeps {B} (m : M B) P Q ptr k v : keeps m → (P ⊢ hwp m Q) → P ∧ leaf_has ptr k v ⊢ hwp m (λ x, Q x ∧ leaf_has ptr k v).
Proof.
  intros Hm [Hw]. apply hwp_intro. intros h hf a [HP (n & Hn & He & Hk & Hv)] Hd Hi. specialize (Hw h HP hf a Hd Hi). unfold wp in Hw.
  destruct (m _) as [[x [c' a']]|?|?] eqn:E; [|done..]. destruct Hw as (h' & Hc & Hd' & Hi' & HQ).
  cbn [cells al] in Hc, Hi'. subst c'.
  destruct (Hm (Store (h ∪ hf) a) _ _ Hi E) as [_ Hkept]. exists x, h', a'. split; [done|]. split; [exact Hd'|]. split; [exact Hi'|]. split; [exact HQ|].
  destruct (Hkept ptr.1 n) as (n' & Hn' & Hs); [by apply lookup_union_Some_l|].
  cbn [cells] in Hn'. apply lookup_union_Some in Hn' as [Hn'|Hn']; [|by eapply map_disjoint_spec in Hd; [done|exact Hn|exact Hn']|done].
  unfold same_leaf in Hs. rewrite He in Hs. destruct Hs as (He' & Hk' & Hv'). exists n'. by rewrite Hk' Hv'.
Qed.

Lemma leaf_has_here p (n : N) i k v : edges n = None → keys n !! i = Some k → vals n !! i = Some v →
  points_to p n ⊢ points_to p n ∧ leaf_has (p, i) k v.
Proof.
  intros He Hk Hv. split. intros h Hp. split; [done|]. change (h = {[p := n]}) in Hp. subst h. exists n.
  split_and!; [apply lookup_singleton_eq|done..].
Qed.
Lemma leaf_has_frame P R ptr k v : P ∧ leaf_has ptr k v -∗ R -∗ (P ∗ R) ∧ leaf_has ptr k v.
Proof.
  apply bi.entails_wand, bi.wand_intro_r. split. intros h (h1 & h2 & -> & Hd & [HP (n & Hn & H)] & HR). split; [by exists h1, h2|].
  exists n. split; [by apply lookup_union_Some_l|done].
Qed.
End keeps.

Create HintDb keeps.
#[export] Hint Resolve keeps_Box_new : keeps.
#[export] Hint Extern 1 (keeps _) => apply keeps_readonly; solve [eauto 2 with readonly] : keeps.

Ltac solve_keeps :=
  repeat first
    [ progress eauto 2 with keeps
    | apply keeps_bind; [|intros ?]
    | progress cbn [mbind]
    | match goal with |- keeps (match ?x with _ => _ end) => destruct x end ].

(** ** The steps of an insertion *)

Section insertion.
Context {K V A : Type} `{!Ord K, !GlobalAlloc NodeLayout A}.
#[local] Abbreviation N := (Node K V).
#[local] Abbreviation M := (M (store N A)).

Lemma keeps_set_link p par pi : keeps (update p (set_link par pi) : M unit).
Proof. apply keeps_update. intros n. unfold same_leaf. by destruct n as [? ? ? ? [|]]. Qed.
#[local] Hint Resolve keeps_set_link : keeps.
Lemma keeps_correct_parent_link h : keeps (correct_parent_link h : M unit).
Proof. unfold correct_parent_link. solve_keeps. Qed.
#[local] Hint Resolve keeps_correct_parent_link : keeps.
Lemma keeps_correct_links n i j : keeps (correct_childrens_parent_links n i j : M unit).
Proof. unfold correct_childrens_parent_links. induction (seq i (j - i)) as [|x xs IH]; cbn [for_each]; solve_keeps. Qed.
#[local] Hint Resolve keeps_correct_links : keeps.

Lemma keeps_now {B} (m : M B) s : keeps m → keeps_at s m.
Proof. intros H. apply H. Qed.

(** What was read of a node that has edges. *)
Lemma loaded_inner {B} s p (k : N → list Z → M B) :
  (∀ n es, inner_at s p → edges n = Some es → keeps_at s (k n es)) →
  keeps_at s (m ← load p; es ← edges_of m; k m es).
Proof.
  intros Hk. apply keeps_at_bind; [apply keeps_now; auto with keeps|]. intros n s' [-> Hn]%load_run _.
  apply keeps_at_bind; [apply keeps_now; auto with keeps|]. intros es s' [-> He]%edges_of_run _. apply Hk; [|done].
  exists n. by rewrite He.
Qed.

Lemma keeps_push_level r : keeps (push_level r : M _).
Proof.
  unfold push_level. apply keeps_bind; [auto with keeps|]. intros _ s. apply keeps_at_bind; [apply keeps_Box_new|].
  intros [p|e] s1 Hb _; [|apply keeps_now; auto with keeps].
  apply keeps_at_bind; [|intros _ s2 _ _; apply keeps_now; unfold first_edge; solve_keeps].
  apply keeps_update_inner; [|done]. by eapply Box_new_inner.
Qed.

Lemma keeps_internal_push n k v edge : keeps (internal_push n k v edge : M unit).
Proof.
  unfold internal_push. do 3 (apply keeps_bind; [auto with keeps|]; intros ?). intros s. apply loaded_inner. intros m es Hm He.
  apply keeps_at_bind; [by apply keeps_update_inner|]. intros _ s' _ _. apply keeps_now. solve_keeps.
Qed.

Lemma keeps_at_ext {B} (m m' : M B) s : m s = m' s → keeps_at s m → keeps_at s m'.
Proof. intros H Hm x s'. rewrite -H. apply Hm. Qed.
Lemma keeps_assoc {B C D} s (m : M B) (f : B → M C) (g : C → M D) :
  keeps_at s (b ← m; c ← f b; g c) → keeps_at s (c ← (b ← m; f b); g c).
Proof. apply keeps_at_ext. unfold mbind, M_bind. by destruct (m s) as [[b s1]|?|?]. Qed.

(** A node that is written to and whose edges are looked at next has edges. *)
Lemma keeps_checked {B} s p f (k : N → list Z → M B) : (∀ n, edges (f n) = edges n) →
  (∀ s' m es, inner_at s' p → keeps_at s' (k m es)) →
  keeps_at s (_ ← update p f; m ← load p; es ← edges_of m; k m es).
Proof.
  intros Hf Hk. destruct (cells s !! p) as [n|] eqn:Hn.
  2: { intros x s' _. unfold mbind, M_bind, update. by rewrite Hn. }
  destruct (edges n) as [es|] eqn:He.
  2: { intros x s' _. unfold mbind, M_bind, update, load. rewrite Hn. cbn [cells]. rewrite lookup_insert_eq. unfold edges_of. by rewrite Hf He. }
  apply keeps_at_bind.
  - apply keeps_update_inner; [exists n; by rewrite He|]. intros m. by rewrite Hf.
  - intros _ s' _ H. apply loaded_inner. intros m es' Hin _. by apply Hk.
Qed.

Lemma keeps_internal_insert_fit h k v edge : keeps (internal_insert_fit h k v edge : M unit).
Proof.
  unfold internal_insert_fit. do 3 (apply keeps_bind; [auto with keeps|]; intros ?). intros s. unfold leaf_insert_fit.
  do 3 (apply keeps_assoc, keeps_at_bind; [apply keeps_now; auto with keeps|]; intros ? ? _ _). apply keeps_assoc.
  apply (keeps_checked _ _ _ (λ m es, _ ← update (node (hnode h)) (set_edges (slice_insert es (idx h + 1) (root_node edge)));
    l ← len (hnode h); correct_childrens_parent_links (hnode h) (idx h + 1) (l + 1))); [done|].
  intros s1 m es Hin. apply keeps_at_bind; [by apply keeps_update_inner|]. intros _ s2 _ _. apply keeps_now. solve_keeps.
Qed.

Lemma keeps_internal_split h : keeps (internal_split h : M _).
Proof.
  intros s. unfold internal_split, try. apply keeps_at_bind; [apply keeps_Box_new|]. intros [p|e] s1 Hb _; [|apply keeps_now; auto with keeps].
  apply Box_new_inner in Hb; [|done].
  apply keeps_at_bind; [apply keeps_now; auto with keeps|]. intros m s2 [-> Hm]%load_run _.
  do 2 (apply keeps_at_bind; [apply keeps_now; auto with keeps|]; intros ? ? _ ?).
  apply keeps_at_bind; [apply keeps_now; auto with keeps|]. intros es s4 [-> He]%edges_of_run _.
  assert (inner_at s1 (node (hnode h))) as Hin by (exists m; by rewrite He).
  apply keeps_at_bind; [apply keeps_update_inner; [by do 2 (eapply inner_kept; [done|])|done]|]. intros _ s5 _ Hk5.
  apply keeps_at_bind; [apply keeps_update_inner; [by do 3 (eapply inner_kept; [done|])|done]|]. intros _ s6 _ _.
  apply keeps_now. solve_keeps.
Qed.
#[local] Hint Resolve keeps_push_level keeps_internal_push keeps_internal_insert_fit keeps_internal_split : keeps.

Lemma keeps_internal_insert h k v edge : keeps (internal_insert h k v edge : M _).
Proof. unfold internal_insert, try. solve_keeps. Qed.
#[local] Hint Resolve keeps_internal_insert : keeps.

Lemma keeps_insert_loop fuel : ∀ r cur_parent k v edge, keeps (insert_loop fuel r cur_parent k v edge : M _).
Proof. induction fuel as [|fuel IH]; intros r [h|n] k v edge; cbn [insert_loop]; solve_keeps. Qed.
End insertion.

#[export] Hint Resolve keeps_insert_loop : keeps.
