(* ===== verification/NodeSpec.v ===== *)
(** * NodeSpec: trees of nodes as lists of entries

    [tree_at h le p par pi L]: at [p] is a tree of height [h], hanging from edge
    [pi] of [par], whose top node has at least [le] keys, and whose entries in order
    are [L].  [ctx_at] is such a tree with a hole.  Each step on nodes changes the
    list of entries as it should and keeps the links between nodes right. *)

From S2P Require Import Prelude HeapLogic Node BTree Readonly Keeps.
From iris.proofmode Require Import proofmode.
From iris.prelude Require Import options.

#[local] Open Scope nat_scope.

(** ** The entries of a node's children, with the node's own between them *)

Section entries.
Context {T : Type}.
Implicit Types (L : list T) (Ls : list (list T)) (kvs : list T).

Fixpoint lefts Ls kvs : list T :=
  match Ls, kvs with L :: Ls, kv :: kvs => L ++ kv :: lefts Ls kvs | _, _ => [] end.
Fixpoint rights kvs Ls : list T :=
  match kvs, Ls with kv :: kvs, L :: Ls => kv :: L ++ rights kvs Ls | _, _ => [] end.
Definition inter Ls kvs : list T := match Ls with [] => [] | L :: Ls => L ++ rights kvs Ls end.

Lemma lefts_app Ls1 Ls2 kvs1 kvs2 : length Ls1 = length kvs1 →
  lefts (Ls1 ++ Ls2) (kvs1 ++ kvs2) = lefts Ls1 kvs1 ++ lefts Ls2 kvs2.
Proof.
  revert kvs1. induction Ls1 as [|L Ls1 IH]; intros [|kv kvs1] [=]; cbn; [done|].
  rewrite IH; [|done]. by rewrite -assoc_L.
Qed.

Lemma rights_app Ls1 Ls2 kvs1 kvs2 : length kvs1 = length Ls1 →
  rights (kvs1 ++ kvs2) (Ls1 ++ Ls2) = rights kvs1 Ls1 ++ rights kvs2 Ls2.
Proof.
  revert kvs1. induction Ls1 as [|L Ls1 IH]; intros [|kv kvs1] [=]; cbn; [done|].
  rewrite IH; [|done]. by rewrite -assoc_L.
Qed.

Lemma inter_focus Ls1 L Ls2 kvs1 kvs2 : length Ls1 = length kvs1 →
  inter (Ls1 ++ L :: Ls2) (kvs1 ++ kvs2) = lefts Ls1 kvs1 ++ L ++ rights kvs2 Ls2.
Proof.
  revert kvs1 L. induction Ls1 as [|L1 Ls1 IH]; intros [|kv kvs1] L [=]; [done|].
  cbn. specialize (IH kvs1 L ltac:(done)). destruct Ls1 as [|L2 Ls1]; cbn in *.
  - rewrite -!assoc_L /=. by destruct kvs1.
  - rewrite -!assoc_L /=. do 2 f_equal. by rewrite IH.
Qed.

(** Around a key: the trees on both sides of it. *)
Lemma inter_kv Ls1 L L' Ls2 kvs1 kv kvs2 : length Ls1 = length kvs1 →
  inter (Ls1 ++ L :: L' :: Ls2) (kvs1 ++ kv :: kvs2) = lefts Ls1 kvs1 ++ L ++ kv :: L' ++ rights kvs2 Ls2.
Proof. intros H. by rewrite inter_focus. Qed.

Lemma inter_split Ls1 Ls2 kvs1 kv kvs2 : length Ls1 = S (length kvs1) → Ls2 ≠ [] →
  inter (Ls1 ++ Ls2) (kvs1 ++ kv :: kvs2) = inter Ls1 kvs1 ++ kv :: inter Ls2 kvs2.
Proof.
  intros H H2. destruct Ls1 as [|L Ls1 _] using rev_ind; [done|]. destruct Ls2 as [|L2 Ls2]; [done|].
  rewrite length_app /= Nat.add_1_r in H. injection H as H.
  rewrite -assoc_L /= inter_kv; [|done]. rewrite -(app_nil_r kvs1) inter_focus; [|done].
  rewrite app_nil_r. by rewrite /= app_nil_r -!assoc_L.
Qed.
End entries.

(** Conditions on lengths, boolean or not. *)
Ltac simpl_len :=
  repeat match goal with
  | H : context [length (_ ++ _)] |- _ => rewrite length_app in H
  | H : context [length (_ <$> _)] |- _ => rewrite length_fmap in H
  | H : context [length (_ :: _)] |- _ => cbn [length] in H
  end;
  rewrite ?(length_app, length_fmap, length_take, length_drop); cbn [length].
Ltac simpl_node :=
  cbn [keys vals edges parent parent_idx set_kvs set_edges set_link set_parent hnode idx height node
       root_node root_height root_ref] in *.

(** ** Trees and trees with a hole *)

(** The least number of keys of a node [n] levels below the root, of height [h].
    A split leaves four, one less than [MIN_LEN]. *)
Definition least (n h : nat) : nat := match n, h with S _, _ => 4 | O, S _ => 1 | O, O => 0 end.

(** A leaf and an internal node with the keys and values [kvs]. *)
Definition leaf_node {K V} (par : option Z) (pi : option nat) (kvs : list (K * V)) : Node K V :=
  Node_ par pi kvs.*1 kvs.*2 None.
Definition inner_node {K V} (par : option Z) (pi : option nat) (kvs : list (K * V)) (es : list Z) : Node K V :=
  Node_ par pi kvs.*1 kvs.*2 (Some es).

(** Conditions on lengths of the parts of a node. *)
Ltac solve_len :=
  unfold leaf_node, inner_node, CAPACITY, MIN_LEN, B in *; simpl_node; simpl_len;
  rewrite ?Nat.leb_le ?Nat.ltb_lt ?Nat.eqb_eq; first [done | lia].

Section trees.
Context {K V A : Type} `{!GlobalAlloc NodeLayout A}.
#[local] Abbreviation N := (Node K V).
#[local] Abbreviation M := (M (store N A)).
#[local] Abbreviation prop := (hProp N).
#[local] Notation "p ↦ n" := (points_to p n) (at level 20) : bi_scope.
Implicit Types (L : list (K * V)) (kvs : list (K * V)) (cs : list (Z * list (K * V))).

Fixpoint tree_at (h le : nat) (p : Z) (par : option Z) (pi : option nat) L : prop :=
  match h with
  | O => ⌜le ≤ length L ≤ CAPACITY ∧ (STATIC_END <= p)%Z⌝ ∧ p ↦ leaf_node par pi L
  | S h => ∃ kvs cs,
      ⌜le ≤ length kvs ≤ CAPACITY ∧ (STATIC_END <= p)%Z ∧ length cs = S (length kvs) ∧ L = inter cs.*2 kvs⌝ ∧
      p ↦ inner_node par pi kvs cs.*1 ∗
      [∗ list] i ↦ c ∈ cs, tree_at h 4 c.1 (Some p) (Some i) c.2
  end.

(** Children from edge [i] on, and children whose links may be wrong. *)
Definition children (h : nat) (p : Z) (i : nat) cs : prop :=
  [∗ list] j ↦ c ∈ cs, tree_at h 4 c.1 (Some p) (Some (i + j)) c.2.
Definition orphans (h : nat) cs : prop :=
  [∗ list] c ∈ cs, ∃ par pi, tree_at h 4 c.1 par pi c.2.

#[local] Arguments children : simpl never.
#[local] Arguments orphans : simpl never.

(** A tree with a hole for a tree of height [h], [n] levels below the root [r]. *)
Fixpoint ctx_at (n h : nat) (p : Z) (par : option Z) (pi : option nat) (r : Root) L1 L2 : prop :=
  match n with
  | O => ⌜par = None ∧ r = Root_ p h ∧ L1 = [] ∧ L2 = []⌝ ∧ emp
  | S n => ∃ q qpar qpi kvs1 kvs2 cs1 cs2 L1' L2',
      ⌜par = Some q ∧ pi = Some (length cs1) ∧ length cs1 = length kvs1 ∧ length cs2 = length kvs2 ∧
       least n (S h) ≤ length kvs1 + length kvs2 ≤ CAPACITY ∧ (STATIC_END <= q)%Z ∧
       L1 = L1' ++ lefts cs1.*2 kvs1 ∧ L2 = rights kvs2 cs2.*2 ++ L2'⌝ ∧
      q ↦ inner_node qpar qpi (kvs1 ++ kvs2) (cs1.*1 ++ p :: cs2.*1) ∗
      children h q 0 cs1 ∗ children h q (S (length cs1)) cs2 ∗
      ctx_at n (S h) q qpar qpi r L1' L2'
  end.

(** The tree of a root. *)
Definition root_at (r : Root) L : prop :=
  ∃ pi, tree_at (root_height r) (least 0 (root_height r)) (root_node r) None pi L.

Lemma tree_weaken h le le' p par pi L : le' ≤ le → tree_at h le p par pi L ⊢ tree_at h le' p par pi L.
Proof.
  intros Hle. destruct h as [|h]; cbn.
  - iIntros "[% H]". iSplit; [iPureIntro; naive_solver lia|done].
  - iIntros "(%kvs & %cs & % & H)". iExists kvs, cs. iSplit; [iPureIntro; naive_solver lia|done].
Qed.

(** A tree but for the link of its top node. *)
Lemma tree_link h le p par pi L : tree_at h le p par pi L ⊢
  ∃ n, ⌜(STATIC_END <= p)%Z ∧ parent n = par ∧ parent_idx n = pi⌝ ∧ p ↦ n ∗
    ∀ par' pi', p ↦ set_link par' pi' n -∗ tree_at h le p par' pi' L.
Proof.
  destruct h as [|h]; cbn.
  - iIntros "[% H]". iExists (leaf_node par pi L). iSplit; [iPureIntro; naive_solver|]. iFrame "H".
    iIntros (par' pi') "H". by iSplit.
  - iIntros "(%kvs & %cs & % & H & Hcs)". iExists (inner_node par pi kvs cs.*1).
    iSplit; [iPureIntro; naive_solver|]. iFrame "H".
    iIntros (par' pi') "H". iExists kvs, cs. iSplit; [done|]. iFrame.
Qed.

Lemma children_app h p i cs1 cs2 : children h p i (cs1 ++ cs2) ⊣⊢ children h p i cs1 ∗ children h p (i + length cs1) cs2.
Proof.
  rewrite /children big_sepL_app. apply bi.sep_proper; [done|]. apply big_sepL_proper.
  intros j c _. by rewrite assoc_L.
Qed.

Lemma children_cons h p i c cs : children h p i (c :: cs) ⊣⊢
  tree_at h 4 c.1 (Some p) (Some i) c.2 ∗ children h p (S i) cs.
Proof.
  rewrite /children /= Nat.add_0_r. apply bi.sep_proper; [done|]. apply big_sepL_proper.
  intros j c' _. by rewrite Nat.add_succ_r.
Qed.

Lemma children_focus h q cs1 c cs2 : children h q 0 (cs1 ++ c :: cs2) ⊣⊢
  children h q 0 cs1 ∗ tree_at h 4 c.1 (Some q) (Some (length cs1)) c.2 ∗ children h q (S (length cs1)) cs2.
Proof. by rewrite children_app children_cons. Qed.

Lemma children_orphans h p i cs : children h p i cs ⊢ orphans h cs.
Proof. apply big_sepL_mono. iIntros (j c _) "H". by iExists _, _. Qed.

Lemma orphans_cons h c cs : orphans h (c :: cs) ⊣⊢ (∃ par pi, tree_at h 4 c.1 par pi c.2) ∗ orphans h cs.
Proof. done. Qed.

Lemma orphans_app h cs1 cs2 : orphans h (cs1 ++ cs2) ⊣⊢ orphans h cs1 ∗ orphans h cs2.
Proof. apply big_sepL_app. Qed.

(** Filling the hole. *)
Lemma tree_inner h le p par pi kvs cs : le ≤ length kvs ≤ CAPACITY → (STATIC_END <= p)%Z → length cs = S (length kvs) →
  p ↦ inner_node par pi kvs cs.*1 ∗ children h p 0 cs ⊢ tree_at (S h) le p par pi (inter cs.*2 kvs).
Proof. intros. iIntros "[H Hcs]". iExists kvs, cs. iSplit; [done|]. iFrame. Qed.

Lemma tree_inner_inv h le p par pi L : tree_at (S h) le p par pi L ⊢ ∃ kvs cs,
  ⌜le ≤ length kvs ≤ CAPACITY ∧ (STATIC_END <= p)%Z ∧ length cs = S (length kvs) ∧ L = inter cs.*2 kvs⌝ ∧
  p ↦ inner_node par pi kvs cs.*1 ∗ children h p 0 cs.
Proof. done. Qed.

Lemma ctx_plug n h p par pi r L1 L2 L :
  ctx_at n h p par pi r L1 L2 ∗ tree_at h (least n h) p par pi L ⊢ root_at r (L1 ++ L ++ L2).
Proof.
  revert h p par pi L1 L2 L. induction n as [|n IH]; intros h p par pi L1 L2 L; cbn.
  - iIntros "[Hc H]". iDestruct "Hc" as ((-> & -> & -> & ->)) "_". rewrite /= app_nil_r. by iExists pi.
  - iIntros "[Hc H]".
    iDestruct "Hc" as (q qpar qpi kvs1 kvs2 cs1 cs2 L1' L2' (-> & -> & Hl1 & Hl2 & Hle & Hq & -> & ->)) "(Hq & H1 & H2 & Hctx)".
    replace ((L1' ++ lefts cs1.*2 kvs1) ++ L ++ rights kvs2 cs2.*2 ++ L2')
      with (L1' ++ inter (cs1 ++ (p, L) :: cs2).*2 (kvs1 ++ kvs2) ++ L2');
      [|by rewrite fmap_app fmap_cons inter_focus ?length_fmap // -!assoc_L].
    iApply (IH (S h) q qpar qpi). iFrame "Hctx".
    iApply tree_inner; [by rewrite length_app|done|rewrite !length_app /=; lia|].
    rewrite fmap_app children_app children_cons /=. iFrame.
Qed.

(** ** Reading and relinking *)

Lemma hwp_debug_assert (b : bool) Q : b = true → Q tt ⊢ hwp (A := A) (N := N) (debug_assert b) Q.
Proof. intros ->. apply hwp_ret. Qed.

Lemma not_shared p : (STATIC_END <= p)%Z → bool_decide (p = EMPTY_ROOT_NODE) = false.
Proof. intros H. apply bool_decide_eq_false. unfold STATIC_END, EMPTY_ROOT_NODE in *. lia. Qed.

Lemma hwp_as_header h p n Q : (STATIC_END <= p)%Z →
  p ↦ n -∗ (p ↦ n -∗ Q n) -∗ hwp (as_header (NodeRef_ h p) : M N) Q.
Proof. intros Hp. unfold as_header. cbn. rewrite not_shared //. apply hwp_load. Qed.

Lemma hwp_len h p n Q : (STATIC_END <= p)%Z →
  p ↦ n -∗ (p ↦ n -∗ Q (length (keys n))) -∗ hwp (len (NodeRef_ h p) : M nat) Q.
Proof.
  iIntros (Hp) "H HQ". iApply hwp_bind. iApply (hwp_as_header with "H"); [done|]. iIntros "H".
  iApply hwp_ret. by iApply "HQ".
Qed.

Lemma hwp_new_edge h p n i Q : (STATIC_END <= p)%Z → i ≤ length (keys n) →
  p ↦ n -∗ (p ↦ n -∗ Q (Handle_ (NodeRef_ h p) i)) -∗ hwp (new_edge (NodeRef_ h p) i : M Handle) Q.
Proof.
  iIntros (Hp Hi) "H HQ". iApply hwp_bind. iApply (hwp_len with "H"); [done|]. iIntros "H".
  iApply hwp_bind. iApply hwp_debug_assert; [by apply Nat.leb_le|]. iApply hwp_ret. by iApply "HQ".
Qed.

Lemma hwp_new_kv h p n i Q : (STATIC_END <= p)%Z → i < length (keys n) →
  p ↦ n -∗ (p ↦ n -∗ Q (Handle_ (NodeRef_ h p) i)) -∗ hwp (new_kv (NodeRef_ h p) i : M Handle) Q.
Proof.
  iIntros (Hp Hi) "H HQ". iApply hwp_bind. iApply (hwp_len with "H"); [done|]. iIntros "H".
  iApply hwp_bind. iApply hwp_debug_assert; [by apply Nat.ltb_lt|]. iApply hwp_ret. by iApply "HQ".
Qed.

Lemma hwp_get_unchecked {T} (l : list T) i x Q : l !! i = Some x → Q x ⊢ hwp (get_unchecked l i : M T) Q.
Proof. intros H. unfold get_unchecked. rewrite H. apply hwp_ret. Qed.

Lemma hwp_edges_of n es Q : edges n = Some es → Q es ⊢ hwp (edges_of n : M (list Z)) Q.
Proof. intros H. unfold edges_of. rewrite H. apply hwp_ret. Qed.

Lemma hwp_descend h p n es i c Q : edges n = Some es → es !! i = Some c →
  p ↦ n -∗ (p ↦ n -∗ Q (NodeRef_ (h - 1) c)) -∗ hwp (descend (Handle_ (NodeRef_ h p) i) : M NodeRef) Q.
Proof.
  iIntros (He Hc) "H HQ". iApply hwp_bind. iApply (hwp_load with "H"). iIntros "H".
  iApply hwp_bind. iApply hwp_edges_of; [exact He|].
  iApply hwp_bind. iApply hwp_get_unchecked; [exact Hc|]. iApply hwp_ret. by iApply "HQ".
Qed.

Lemma hwp_into_kv h p n i k v Q : (STATIC_END <= p)%Z → keys n !! i = Some k → vals n !! i = Some v →
  p ↦ n -∗ (p ↦ n -∗ Q (k, v)) -∗ hwp (into_kv (Handle_ (NodeRef_ h p) i) : M (K * V)) Q.
Proof.
  iIntros (Hp Hk Hv) "H HQ". unfold into_kv, is_shared_root. cbn. rewrite not_shared //.
  iApply hwp_bind. iApply hwp_debug_assert; [done|]. iApply hwp_bind. iApply (hwp_load with "H"). iIntros "H".
  iApply hwp_bind. iApply hwp_get_unchecked; [exact Hk|]. iApply hwp_bind. iApply hwp_get_unchecked; [exact Hv|].
  iApply hwp_ret. by iApply "HQ".
Qed.

Lemma hwp_ascend h p n Q : (STATIC_END <= p)%Z → (parent n = None ∨ ∃ i, parent_idx n = Some i) →
  p ↦ n -∗ (p ↦ n -∗ Q (match parent n, parent_idx n with
                      | Some q, Some i => Ok (Handle_ (NodeRef_ (S h) q) i)
                      | _, _ => Err (NodeRef_ h p)
                      end)) -∗ hwp (ascend (NodeRef_ h p) : M _) Q.
Proof.
  iIntros (Hp Hpi) "H HQ". iApply hwp_bind. iApply (hwp_as_header with "H"); [done|]. iIntros "H".
  iSpecialize ("HQ" with "H"). destruct Hpi as [->|[i ->]]; [by iApply hwp_ret|].
  destruct (parent n); by iApply hwp_ret.
Qed.

(** A child gets the link of the edge it hangs from. *)
Lemma hwp_correct_parent_link hq q n es i h c L Q : edges n = Some es → es !! i = Some c →
  q ↦ n -∗ (∃ par pi, tree_at h 4 c par pi L) -∗ (q ↦ n -∗ tree_at h 4 c (Some q) (Some i) L -∗ Q tt) -∗
  hwp (correct_parent_link (Handle_ (NodeRef_ hq q) i) : M unit) Q.
Proof.
  iIntros (He Hc) "Hq (%par & %pi & Ht) HQ". iApply hwp_bind.
  iApply (hwp_descend with "Hq"); [done..|]. iIntros "Hq".
  iDestruct (tree_link with "Ht") as (m (Hs & _ & _)) "[Hm Hclose]".
  iApply (hwp_update with "Hm"); [done|]. iIntros "Hm". iApply ("HQ" with "Hq"). by iApply "Hclose".
Qed.

Lemma hwp_correct_links hq q n es cs h i e Q : (STATIC_END <= q)%Z → edges n = Some es →
  i + length cs ≤ S (length (keys n)) → e = i + length cs →
  (∀ j, j < length cs → es !! (i + j) = cs.*1 !! j) →
  q ↦ n -∗ orphans h cs -∗ (q ↦ n -∗ children h q i cs -∗ Q tt) -∗
  hwp (correct_childrens_parent_links (NodeRef_ hq q) i e : M unit) Q.
Proof.
  intros Hq He Hlen -> Hes. unfold correct_childrens_parent_links.
  replace (i + length cs - i) with (length cs) by lia.
  revert i Hlen Hes Q. induction cs as [|c cs IH]; intros i Hlen Hes Q; iIntros "Hn Ho HQ".
  - iApply hwp_ret. by iApply ("HQ" with "Hn").
  - cbn in *. rewrite orphans_cons. iDestruct "Ho" as "[Hc Ho]". iApply hwp_bind. iApply hwp_bind.
    iApply (hwp_new_edge with "Hn"); [done|lia|]. iIntros "Hn".
    iApply (hwp_correct_parent_link with "Hn Hc"); [exact He| |].
    { pose proof (Hes 0 ltac:(lia)) as H0. rewrite Nat.add_0_r in H0. exact H0. }
    iIntros "Hn Hc". iApply (IH with "Hn Ho"); [lia| |].
    { intros j Hj. rewrite Nat.add_succ_comm. apply (Hes (S j)). lia. }
    iIntros "Hn Ho". iApply ("HQ" with "Hn"). rewrite children_cons /=. iFrame.
Qed.

(** ** Leaves *)

Lemma slice_insert_app {T} (l1 l2 : list T) i x : i = length l1 → slice_insert (l1 ++ l2) i x = l1 ++ x :: l2.
Proof. intros ->. unfold slice_insert. by rewrite take_app_length drop_app_length. Qed.

Lemma slice_remove_app {T} (l1 l2 : list T) i x : i = length l1 → slice_remove (l1 ++ x :: l2) i = l1 ++ l2.
Proof.
  intros ->. unfold slice_remove. rewrite take_app_length.
  by rewrite -Nat.add_1_r (drop_app_add' l1) // /=.
Qed.

Lemma take_middle {T U} (f : T → U) (l1 : list T) x l2 : take (length l1) (f <$> l1 ++ x :: l2) = f <$> l1.
Proof. by rewrite -fmap_take take_app_length. Qed.

Lemma drop_middle {T U} (f : T → U) (l1 : list T) x l2 : skipn (length l1 + 1) (f <$> l1 ++ x :: l2) = f <$> l2.
Proof. by rewrite -fmap_drop -drop_drop drop_app_length. Qed.

Lemma lookup_middle {T U} (f : T → U) (l1 : list T) x l2 : (f <$> l1 ++ x :: l2) !! length l1 = Some (f x).
Proof. rewrite fmap_app /=. apply list_lookup_middle. by rewrite length_fmap. Qed.

Lemma insert_middle {T U} (f : T → U) (l1 : list T) x y l2 :
  <[length l1 := f y]> (f <$> l1 ++ x :: l2) = f <$> l1 ++ y :: l2.
Proof. induction l1 as [|z l1 IH]; [done|]. cbn. f_equal. exact IH. Qed.

Lemma set_kvs_middle par pi kvs1 kv k v kvs2 es : let n := Node_ par pi (kvs1 ++ kv :: kvs2).*1 (kvs1 ++ kv :: kvs2).*2 es in
  set_kvs (<[length kvs1 := k]> (keys n)) (<[length kvs1 := v]> (vals n)) n =
  Node_ (K := K) (V := V) par pi (kvs1 ++ (k, v) :: kvs2).*1 (kvs1 ++ (k, v) :: kvs2).*2 es.
Proof. cbn. unfold set_kvs. cbn [keys vals parent parent_idx edges]. f_equal; [apply (insert_middle fst _ _ (k, v))|apply (insert_middle snd _ _ (k, v))]. Qed.

Lemma hwp_leaf_insert_fit h p n i k v Q : (STATIC_END <= p)%Z → length (keys n) < CAPACITY →
  p ↦ n -∗ (p ↦ set_kvs (slice_insert (keys n) i k) (slice_insert (vals n) i v) n -∗ Q (p, i)) -∗
  hwp (leaf_insert_fit (Handle_ (NodeRef_ h p) i) k v : M _) Q.
Proof.
  iIntros (Hp Hc) "Hn HQ". unfold leaf_insert_fit, is_shared_root. cbn. rewrite not_shared //.
  iApply hwp_bind. iApply (hwp_len with "Hn"); [done|]. iIntros "Hn".
  iApply hwp_bind. iApply hwp_debug_assert; [solve_len|].
  iApply hwp_bind. iApply hwp_debug_assert; [done|].
  iApply hwp_bind. iApply (hwp_update with "Hn"); [done|]. iIntros "Hn". iApply hwp_ret. by iApply "HQ".
Qed.

Lemma hwp_leaf_split h p par pi kvs1 k v kvs2 Q : (STATIC_END <= p)%Z →
  p ↦ leaf_node par pi (kvs1 ++ (k, v) :: kvs2) -∗
  ((∀ q, ⌜STATIC_END <= q⌝%Z → p ↦ leaf_node par pi kvs1 -∗ q ↦ leaf_node None None kvs2 -∗
      Q (Ok (NodeRef_ h p, k, v, Root_ q 0))) ∧
   (p ↦ leaf_node par pi (kvs1 ++ (k, v) :: kvs2) -∗ Q (Err AllocErr_))) -∗
  hwp (leaf_split (Handle_ (NodeRef_ h p) (length kvs1)) : M _) Q.
Proof.
  iIntros (Hp) "Hn HQ". unfold leaf_split, is_shared_root. cbn. rewrite not_shared //.
  iApply hwp_bind. iApply hwp_debug_assert; [done|]. iApply hwp_try. iApply hwp_box_new.
  iSplit; [|iDestruct "HQ" as "[_ HQ]"; by iApply "HQ"]. iDestruct "HQ" as "[HQ _]".
  iIntros (q) "%Hq Hq". iApply hwp_bind. iApply (hwp_load with "Hn"). iIntros "Hn". cbn.
  do 2 (iApply hwp_bind; iApply hwp_get_unchecked; [apply lookup_middle|]).
  iApply hwp_bind. iApply (hwp_update with "Hq"); [done|]. iIntros "Hq".
  iApply hwp_bind. iApply (hwp_update with "Hn"); [done|]. iIntros "Hn". iApply hwp_ret. cbn.
  iApply ("HQ" $! q Hq with "[Hn] [Hq]").
  - rewrite !take_middle. iExact "Hn".
  - rewrite !drop_middle. iExact "Hq".
Qed.

(** Where the place of an insertion into a full node is after the split. *)
Lemma split_full {T} (l1 l2 : list T) : length (l1 ++ l2) = CAPACITY →
  ∃ la m lb, l1 ++ l2 = la ++ m :: lb ∧ length la = B ∧ length lb = 4 ∧
    ((length l1 ≤ B ∧ ∃ t, la = l1 ++ t ∧ l2 = t ++ m :: lb) ∨
     (B < length l1 ∧ ∃ t, l1 = la ++ m :: t ∧ lb = t ++ l2)).
Proof.
  intros H. assert (is_Some ((l1 ++ l2) !! B)) as [m Hm].
  { apply lookup_lt_is_Some_2. rewrite H. unfold CAPACITY, B. lia. }
  exists (take B (l1 ++ l2)), m, (drop (S B) (l1 ++ l2)).
  rewrite take_drop_middle //. rewrite length_take length_drop H.
  split_and!; [done|unfold CAPACITY, B; lia..|].
  destruct (decide (length l1 ≤ B)) as [Hle|Hgt].
  - left. split; [done|]. exists (take (B - length l1) l2). split; [by rewrite take_app_ge|].
    rewrite drop_app_ge; [|lia]. rewrite lookup_app_r // in Hm.
    replace (S B - length l1) with (S (B - length l1)) by lia. by rewrite take_drop_middle.
  - right. split; [lia|]. exists (drop (S B) l1). rewrite take_app_le; [|lia]. rewrite lookup_app_l in Hm; [|lia].
    split; [by rewrite take_drop_middle|]. by rewrite drop_app_le; [|lia].
Qed.

Lemma set_kvs_leaf par pi kvs1 kvs2 i k v : i = length kvs1 →
  let n := leaf_node par pi (kvs1 ++ kvs2) in
  set_kvs (slice_insert (keys n) i k) (slice_insert (vals n) i v) n = leaf_node par pi (kvs1 ++ (k, v) :: kvs2).
Proof.
  intros ->. unfold set_kvs, leaf_node. cbn. rewrite !fmap_app.
  by rewrite !slice_insert_app ?length_fmap.
Qed.

Lemma hwp_leaf_insert le p par pi kvs1 kvs2 k v Q :
  tree_at 0 le p par pi (kvs1 ++ kvs2) -∗
  ((tree_at 0 le p par pi (kvs1 ++ (k, v) :: kvs2) -∗
      Q (Ok (Fit (Handle_ (NodeRef_ 0 p) (length kvs1)), (p, length kvs1)))) ∧
   (∀ ptr k' v' right LL LR, ⌜kvs1 ++ (k, v) :: kvs2 = LL ++ (k', v') :: LR ∧ root_height right = 0⌝ →
      (tree_at 0 4 p par pi LL ∗ tree_at 0 4 (root_node right) None None LR) ∧ leaf_has ptr k v -∗
      Q (Ok (Split (NodeRef_ 0 p) k' v' right, ptr))) ∧
   (tree_at 0 le p par pi (kvs1 ++ kvs2) -∗ Q (Err AllocErr_))) -∗
  hwp (leaf_insert (Handle_ (NodeRef_ 0 p) (length kvs1)) k v : M _) Q.
Proof.
  cbn [tree_at]. iIntros "Ht HQ". iDestruct "Ht" as ([Hle Hp]) "Hn". unfold leaf_insert. cbn [hnode idx].
  iApply hwp_bind. iApply (hwp_len with "Hn"); [done|]. iIntros "Hn". cbn [keys leaf_node].
  rewrite length_fmap. destruct (length (kvs1 ++ kvs2) <? CAPACITY) eqn:E.
  - apply Nat.ltb_lt in E. iApply hwp_bind. iApply (hwp_leaf_insert_fit with "Hn"); [done|solve_len|].
    iIntros "Hn". rewrite set_kvs_leaf //.
    iApply hwp_bind. iApply (hwp_new_kv with "Hn"); [done|solve_len|]. iIntros "Hn". iApply hwp_ret.
    iDestruct "HQ" as "[HQ _]". iApply "HQ". iSplit; [iPureIntro; solve_len|done].
  - apply Nat.ltb_ge in E. destruct (split_full kvs1 kvs2) as (la & [km vm] & lb & Heq & Ha & Hb & Hcase); [lia|].
    iApply hwp_bind. iApply (hwp_new_kv with "Hn"); [done|cbn; rewrite length_fmap; unfold CAPACITY, B in *; lia|].
    iIntros "Hn". rewrite Heq -Ha. iApply hwp_try. iApply (hwp_leaf_split with "Hn"); [done|].
    iSplit.
    2: { iIntros "Hn". iDestruct "HQ" as "[_ [_ HQ]]". iApply "HQ". iSplit; [iPureIntro; solve_len|done]. }
    iIntros (q) "%Hq Hn Hnew". iDestruct "HQ" as "[_ [HQ _]]". rewrite Ha.
    destruct Hcase as [(Hi & t & -> & ->)|(Hi & t & -> & ->)].
    + rewrite (leb_correct _ _ Hi). iApply hwp_bind. iApply hwp_bind.
      iApply (hwp_new_edge with "Hn"); [done|solve_len|]. iIntros "Hn".
      iApply (hwp_leaf_insert_fit with "Hn"); [done|solve_len|]. iIntros "Hn". rewrite set_kvs_leaf //.
      iApply hwp_ret. iApply ("HQ" $! _ km vm (Root_ q 0) (kvs1 ++ (k, v) :: t) lb with "[] [Hn Hnew]").
      * iPureIntro. by rewrite -assoc_L.
      * iDestruct (leaf_has_here _ _ (length kvs1) k v with "Hn") as "Hn"; [done|apply lookup_middle..|].
        iDestruct (leaf_has_frame with "Hn Hnew") as "H". iSplit; [|iDestruct "H" as "[_ $]"]. iDestruct "H" as "[[Hn Hnew] _]".
        iSplitL "Hn"; (iSplit; [iPureIntro; solve_len|done]).
    + rewrite (leb_correct_conv _ _ Hi). iApply hwp_bind. iApply hwp_bind.
      assert (length (la ++ (km, vm) :: t) - (B + 1) = length t) as -> by solve_len.
      iApply (hwp_new_edge with "Hnew"); [done|solve_len|]. iIntros "Hnew".
      iApply (hwp_leaf_insert_fit with "Hnew"); [done|solve_len|]. iIntros "Hnew". rewrite set_kvs_leaf //.
      iApply hwp_ret. iApply ("HQ" $! _ km vm (Root_ q 0) la (t ++ (k, v) :: kvs2) with "[] [Hn Hnew]").
      * iPureIntro. by rewrite -assoc_L.
      * iDestruct (leaf_has_here _ _ (length t) k v with "Hnew") as "Hnew"; [done|apply lookup_middle..|].
        iDestruct (leaf_has_frame with "Hnew Hn") as "H". iSplit; [|iDestruct "H" as "[_ $]"]. iDestruct "H" as "[[Hnew Hn] _]".
        iSplitL "Hn"; (iSplit; [iPureIntro; solve_len|done]).
Qed.

(** ** Internal nodes *)

Lemma split_length {T} (l : list T) a b : length l = a + b → ∃ l1 l2, l = l1 ++ l2 ∧ length l1 = a ∧ length l2 = b.
Proof.
  intros H. exists (take a l), (skipn a l). rewrite take_drop length_take length_drop. split_and!; (done || lia).
Qed.

Lemma set_kvs_inner par pi kvs1 kvs2 es i k v : i = length kvs1 →
  let n := inner_node par pi (kvs1 ++ kvs2) es in
  set_kvs (slice_insert (keys n) i k) (slice_insert (vals n) i v) n = inner_node par pi (kvs1 ++ (k, v) :: kvs2) es.
Proof.
  intros ->. unfold set_kvs, inner_node. cbn. rewrite !fmap_app.
  by rewrite !slice_insert_app ?length_fmap.
Qed.

Lemma set_edges_inner par pi kvs cs1 cs2 i e L : i = length cs1 →
  set_edges (slice_insert (cs1 ++ cs2).*1 i e) (inner_node par pi kvs (cs1 ++ cs2).*1) =
  inner_node par pi kvs (cs1 ++ (e, L) :: cs2).*1.
Proof. intros ->. unfold set_edges. cbn. by rewrite !fmap_app slice_insert_app ?length_fmap. Qed.

Lemma lookup_children cs1 cs2 j : (cs1 ++ cs2).*1 !! (length cs1 + j) = cs2.*1 !! j.
Proof. rewrite fmap_app lookup_app_r length_fmap; [|lia]. f_equal. lia. Qed.

Lemma hwp_internal_insert_fit h q par pi kvs1 kvs2 cs1 cs2 e LR k v Q :
  (STATIC_END <= q)%Z → length cs1 = S (length kvs1) → length cs2 = length kvs2 →
  length kvs1 + length kvs2 < CAPACITY →
  q ↦ inner_node par pi (kvs1 ++ kvs2) (cs1 ++ cs2).*1 -∗ children h q 0 (cs1 ++ cs2) -∗
  (∃ par pi, tree_at h 4 e par pi LR) -∗
  (q ↦ inner_node par pi (kvs1 ++ (k, v) :: kvs2) (cs1 ++ (e, LR) :: cs2).*1 -∗
     children h q 0 (cs1 ++ (e, LR) :: cs2) -∗ Q tt) -∗
  hwp (internal_insert_fit (Handle_ (NodeRef_ (S h) q) (length kvs1)) k v (Root_ e h) : M unit) Q.
Proof.
  iIntros (Hq H1 H2 Hc) "Hn Hcs He HQ". unfold internal_insert_fit. simpl_node.
  iApply hwp_bind. iApply (hwp_len with "Hn"); [done|]. iIntros "Hn".
  iApply hwp_bind. iApply hwp_debug_assert; [solve_len|].
  iApply hwp_bind. iApply hwp_debug_assert; [solve_len|].
  iApply hwp_bind. iApply (hwp_leaf_insert_fit with "Hn"); [done|solve_len|]. iIntros "Hn". rewrite set_kvs_inner //.
  iApply hwp_bind. iApply (hwp_load with "Hn"). iIntros "Hn". iApply hwp_bind. iApply hwp_edges_of; [done|].
  iApply hwp_bind. iApply (hwp_update with "Hn"); [done|]. rewrite (set_edges_inner _ _ _ _ _ _ _ LR); [|lia]. iIntros "Hn".
  iApply hwp_bind. iApply (hwp_len with "Hn"); [done|]. iIntros "Hn".
  rewrite children_app. iDestruct "Hcs" as "[Hcs1 Hcs2]". iDestruct (children_orphans with "Hcs2") as "Hcs2".
  iApply (hwp_correct_links _ _ _ _ ((e, LR) :: cs2) with "Hn [He Hcs2]"); [done|done|solve_len|solve_len| | |].
  - intros j Hj. replace (length kvs1 + 1 + j) with (length cs1 + j) by lia. apply lookup_children.
  - rewrite orphans_cons. iFrame.
  - iIntros "Hn Hcs2". iApply ("HQ" with "Hn"). rewrite children_app. iFrame.
    by replace (0 + length cs1) with (length kvs1 + 1) by lia.
Qed.

Lemma hwp_internal_split h q par pi kvs1 k v kvs2 cs1 cs2 Q :
  (STATIC_END <= q)%Z → length cs1 = S (length kvs1) → length cs2 = S (length kvs2) →
  q ↦ inner_node par pi (kvs1 ++ (k, v) :: kvs2) (cs1 ++ cs2).*1 -∗ children h q 0 (cs1 ++ cs2) -∗
  ((∀ q', ⌜STATIC_END <= q'⌝%Z → q ↦ inner_node par pi kvs1 cs1.*1 -∗ children h q 0 cs1 -∗
      q' ↦ inner_node None None kvs2 cs2.*1 -∗ children h q' 0 cs2 -∗
      Q (Ok (NodeRef_ (S h) q, k, v, Root_ q' (S h)))) ∧
   (q ↦ inner_node par pi (kvs1 ++ (k, v) :: kvs2) (cs1 ++ cs2).*1 -∗ children h q 0 (cs1 ++ cs2) -∗ Q (Err AllocErr_))) -∗
  hwp (internal_split (Handle_ (NodeRef_ (S h) q) (length kvs1)) : M _) Q.
Proof.
  iIntros (Hq H1 H2) "Hn Hcs HQ". unfold internal_split. simpl_node.
  iApply hwp_try. iApply hwp_box_new.
  iSplit; [|iDestruct "HQ" as "[_ HQ]"; iApply ("HQ" with "Hn Hcs")]. iDestruct "HQ" as "[HQ _]".
  iIntros (q') "%Hq' Hq'". iApply hwp_bind. iApply (hwp_load with "Hn"). iIntros "Hn".
  do 2 (iApply hwp_bind; iApply hwp_get_unchecked; [apply lookup_middle|]).
  iApply hwp_bind. iApply hwp_edges_of; [done|].
  iApply hwp_bind. iApply (hwp_update with "Hq'"); [done|]. iIntros "Hq'".
  iApply hwp_bind. iApply (hwp_update with "Hn"); [done|]. iIntros "Hn". simpl_node. cbn [inner_node].
  rewrite !take_middle !drop_middle !Nat.add_1_r -H1 !fmap_app take_app_length' ?drop_app_length' ?length_fmap //.
  rewrite children_app. iDestruct "Hcs" as "[Hcs1 Hcs2]". iDestruct (children_orphans with "Hcs2") as "Hcs2".
  iApply hwp_bind. iApply (hwp_correct_links _ _ (inner_node None None kvs2 cs2.*1) _ cs2 with "Hq' Hcs2");
    [done|done|solve_len|solve_len|done|].
  iIntros "Hq' Hcs2". iApply hwp_ret. iApply ("HQ" $! q' Hq' with "Hn Hcs1 Hq' Hcs2").
Qed.

Lemma hwp_internal_insert h le q par pi kvs1 kvs2 cs1 cs2 e LR k v Q :
  (STATIC_END <= q)%Z → length cs1 = S (length kvs1) → length cs2 = length kvs2 →
  le ≤ length (kvs1 ++ kvs2) ≤ CAPACITY →
  q ↦ inner_node par pi (kvs1 ++ kvs2) (cs1 ++ cs2).*1 -∗ children h q 0 (cs1 ++ cs2) -∗
  (∃ par pi, tree_at h 4 e par pi LR) -∗
  ((∀ kv, tree_at (S h) le q par pi (inter (cs1 ++ (e, LR) :: cs2).*2 (kvs1 ++ (k, v) :: kvs2)) -∗ Q (Ok (Fit kv))) ∧
   (∀ k' v' right LL' LR', ⌜inter (cs1 ++ (e, LR) :: cs2).*2 (kvs1 ++ (k, v) :: kvs2) = LL' ++ (k', v') :: LR' ∧
        root_height right = S h⌝ →
      tree_at (S h) 4 q par pi LL' -∗ tree_at (S h) 4 (root_node right) None None LR' -∗
      Q (Ok (Split (NodeRef_ (S h) q) k' v' right))) ∧
   (q ↦ inner_node par pi (kvs1 ++ kvs2) (cs1 ++ cs2).*1 -∗ children h q 0 (cs1 ++ cs2) -∗
      (∃ par pi, tree_at h 4 e par pi LR) -∗ Q (Err AllocErr_))) -∗
  hwp (internal_insert (Handle_ (NodeRef_ (S h) q) (length kvs1)) k v (Root_ e h) : M _) Q.
Proof.
  iIntros (Hq H1 H2 Hle) "Hn Hcs He HQ". unfold internal_insert. simpl_node.
  iApply hwp_bind. iApply hwp_debug_assert; [solve_len|].
  iApply hwp_bind. iApply (hwp_len with "Hn"); [done|]. iIntros "Hn". cbn [keys inner_node]. rewrite length_fmap.
  destruct (length (kvs1 ++ kvs2) <? CAPACITY) eqn:E.
  - apply Nat.ltb_lt in E. iApply hwp_bind.
    iApply (hwp_internal_insert_fit with "Hn Hcs He"); [done|done|done|solve_len|]. iIntros "Hn Hcs".
    iApply hwp_bind. iApply (hwp_new_kv with "Hn"); [done|solve_len|]. iIntros "Hn". iApply hwp_ret.
    iDestruct "HQ" as "[HQ _]". iApply "HQ". iApply tree_inner; [solve_len|done|solve_len|]. iFrame.
  - apply Nat.ltb_ge in E. destruct (split_full kvs1 kvs2) as (la & [km vm] & lb & Heq & Ha & Hb & Hcase); [lia|].
    iApply hwp_bind. iApply (hwp_new_kv with "Hn"); [done|cbn; rewrite length_fmap; unfold CAPACITY, B in *; lia|].
    iIntros "Hn". rewrite Heq -Ha.
    destruct Hcase as [(Hi & t & -> & ->)|(Hi & t & -> & ->)].
    + destruct (split_length cs2 (length t) (S (length lb))) as (ca & cb & -> & Hca & Hcb); [solve_len|].
      rewrite assoc_L. iApply hwp_try. iApply (hwp_internal_split with "Hn Hcs"); [done|solve_len|done|].
      iSplit; [|iIntros "Hn Hcs"; iDestruct "HQ" as "[_ [_ HQ]]"; iApply ("HQ" with "Hn Hcs He")].
      iIntros (q') "%Hq' Hn Hcs Hn' Hcs'". iDestruct "HQ" as "[_ [HQ _]]".
      rewrite (leb_correct _ (length (kvs1 ++ t))); [|solve_len]. iApply hwp_bind. iApply hwp_bind.
      iApply (hwp_new_edge with "Hn"); [done|solve_len|]. iIntros "Hn".
      iApply (hwp_internal_insert_fit with "Hn Hcs He"); [done|done|done|solve_len|]. iIntros "Hn Hcs".
      iApply hwp_ret.
      iApply ("HQ" $! km vm (Root_ q' (S h)) _ (inter cb.*2 lb) with "[] [Hn Hcs] [Hn' Hcs']").
      2: { iApply tree_inner; [..|by iFrame]; solve_len. }
      2: { iApply tree_inner; [..|by iFrame]; solve_len. }
      iPureIntro. split; [|done]. rewrite -inter_split; [|solve_len|by destruct cb].
      by rewrite -fmap_app -!app_assoc.
    + destruct (split_length cs1 (S (length la)) (S (length t))) as (ca & cb & -> & Hca & Hcb); [solve_len|].
      rewrite -assoc_L. iApply hwp_try. iApply (hwp_internal_split with "Hn Hcs"); [done|solve_len|solve_len|].
      iSplit; [|iIntros "Hn Hcs"; iDestruct "HQ" as "[_ [_ HQ]]"; iApply ("HQ" with "Hn Hcs He")].
      iIntros (q') "%Hq' Hn Hcs Hn' Hcs'". iDestruct "HQ" as "[_ [HQ _]]".
      rewrite (leb_correct_conv _ (length (la ++ (km, vm) :: t))); [|solve_len]. iApply hwp_bind. iApply hwp_bind.
      assert (length (la ++ (km, vm) :: t) - (length la + 1) = length t) as -> by solve_len.
      iApply (hwp_new_edge with "Hn'"); [done|solve_len|]. iIntros "Hn'".
      iApply (hwp_internal_insert_fit with "Hn' Hcs' He"); [done|done|done|solve_len|]. iIntros "Hn' Hcs'".
      iApply hwp_ret.
      iApply ("HQ" $! km vm (Root_ q' (S h)) (inter ca.*2 la) _ with "[] [Hn Hcs] [Hn' Hcs']").
      2: { iApply tree_inner; [..|by iFrame]; solve_len. }
      2: { iApply tree_inner; [..|by iFrame]; solve_len. }
      iPureIntro. split; [|done]. rewrite -inter_split; [|solve_len|by destruct cb].
      by rewrite -fmap_app -!app_assoc.
Qed.

(** Climbing from a tree. *)
Lemma hwp_ascend_tree h le p par pi L Q : (par = None ∨ ∃ i, pi = Some i) →
  tree_at h le p par pi L -∗
  (tree_at h le p par pi L -∗ Q (match par, pi with
                                 | Some q, Some i => Ok (Handle_ (NodeRef_ (S h) q) i)
                                 | _, _ => Err (NodeRef_ h p)
                                 end)) -∗ hwp (ascend (NodeRef_ h p) : M _) Q.
Proof.
  iIntros (Hpar) "Ht HQ". iDestruct (tree_link with "Ht") as (m (Hp & <- & <-)) "[Hm Hclose]".
  iApply (hwp_ascend with "Hm"); [done|done|]. iIntros "Hm". iApply "HQ". iApply "Hclose".
  by destruct m.
Qed.

Lemma tree_static h le p par pi L : tree_at h le p par pi L ⊢ ⌜STATIC_END <= p⌝%Z.
Proof. destruct h; cbn; [iIntros "[% _]"|iIntros "(%kvs & %cs & % & _)"]; iPureIntro; naive_solver. Qed.
End trees.
