(* ===== verification/Kids.v ===== *)
(** * Kids: nodes over subtrees of any kind

    On the way of a split or of a join, the subtrees along one border are not the
    trees of [NodeSpec]: their nodes may have any number of keys.  Here the steps on
    nodes are specified for subtrees of which only the link of the top node matters. *)

From S2P Require Import Prelude HeapLogic Node NodeSpec.
From iris.proofmode Require Import proofmode.
From iris.prelude Require Import options.

#[local] Open Scope nat_scope.

Section kids.
Context {K V A : Type} `{!GlobalAlloc NodeLayout A}.
#[local] Abbreviation N := (Node K V).
#[local] Abbreviation M := (M (store N A)).
#[local] Abbreviation prop := (hProp N).
#[local] Notation "p ↦ n" := (points_to p n) (at level 20) : bi_scope.
Implicit Types (L : list (K * V)) (kvs : list (K * V)) (es : list Z).

(** A subtree: its top node, and what is there for each link of it. *)
Record kid := Kid { kid_at : Z; kid_tree : option Z → option nat → prop }.
Definition linkable (k : kid) : Prop := ∀ par pi, kid_tree k par pi ⊢
  ∃ n, kid_at k ↦ n ∗ ∀ par' pi', kid_at k ↦ set_link par' pi' n -∗ kid_tree k par' pi'.

Definition kids (q : Z) (i : nat) (ks : list kid) : prop := [∗ list] j ↦ k ∈ ks, kid_tree k (Some q) (Some (i + j)).
Definition loose (ks : list kid) : prop := [∗ list] k ∈ ks, ∃ par pi, kid_tree k par pi.

Lemma kids_nil q i : kids q i [] ⊣⊢ emp.
Proof. done. Qed.
Lemma kids_app q i ks1 ks2 : kids q i (ks1 ++ ks2) ⊣⊢ kids q i ks1 ∗ kids q (i + length ks1) ks2.
Proof.
  rewrite /kids big_sepL_app. apply bi.sep_proper; [done|]. apply big_sepL_proper.
  intros j k _. by rewrite assoc_L.
Qed.
Lemma kids_cons q i k ks : kids q i (k :: ks) ⊣⊢ kid_tree k (Some q) (Some i) ∗ kids q (S i) ks.
Proof.
  rewrite /kids /= Nat.add_0_r. apply bi.sep_proper; [done|]. apply big_sepL_proper.
  intros j k' _. by rewrite Nat.add_succ_r.
Qed.
Lemma kids_focus q ks1 k ks2 : kids q 0 (ks1 ++ k :: ks2) ⊣⊢
  kids q 0 ks1 ∗ kid_tree k (Some q) (Some (length ks1)) ∗ kids q (S (length ks1)) ks2.
Proof. by rewrite kids_app kids_cons. Qed.

Lemma kids_loose q i ks : kids q i ks ⊢ loose ks.
Proof. apply big_sepL_mono. iIntros (j k _) "H". by iExists _, _. Qed.
Lemma loose_app ks1 ks2 : loose (ks1 ++ ks2) ⊣⊢ loose ks1 ∗ loose ks2.
Proof. apply big_sepL_app. Qed.
Lemma loose_cons k ks : loose (k :: ks) ⊣⊢ (∃ par pi, kid_tree k par pi) ∗ loose ks.
Proof. done. Qed.

#[local] Arguments kids : simpl never.
#[local] Arguments loose : simpl never.

(** Linking a subtree, and several. *)
Lemma hwp_link_kid hq q n es i k Q : linkable k → edges n = Some es → es !! i = Some (kid_at k) →
  q ↦ n -∗ (∃ par pi, kid_tree k par pi) -∗ (q ↦ n -∗ kid_tree k (Some q) (Some i) -∗ Q tt) -∗
  hwp (correct_parent_link (Handle_ (NodeRef_ hq q) i) : M unit) Q.
Proof.
  iIntros (Hk He Hi) "Hq (%par & %pi & Ht) HQ". iApply hwp_bind.
  iApply (hwp_descend with "Hq"); [done..|]. iIntros "Hq".
  iDestruct (Hk with "Ht") as (m) "[Hm Hclose]".
  iApply (hwp_update with "Hm"); [done|]. iIntros "Hm". iApply ("HQ" with "Hq"). by iApply "Hclose".
Qed.

Lemma hwp_link_kids hq q n es ks i e Q : Forall linkable ks → (STATIC_END <= q)%Z → edges n = Some es →
  i + length ks ≤ S (length (keys n)) → e = i + length ks →
  (∀ j, j < length ks → es !! (i + j) = (kid_at <$> ks) !! j) →
  q ↦ n -∗ loose ks -∗ (q ↦ n -∗ kids q i ks -∗ Q tt) -∗
  hwp (correct_childrens_parent_links (NodeRef_ hq q) i e : M unit) Q.
Proof.
  intros Hks Hq He Hlen -> Hes. unfold correct_childrens_parent_links.
  replace (i + length ks - i) with (length ks) by lia.
  revert i Hlen Hes Q. induction Hks as [|k ks Hk Hks IH]; intros i Hlen Hes Q; iIntros "Hn Ho HQ".
  - iApply hwp_ret. by iApply ("HQ" with "Hn").
  - cbn in *. rewrite loose_cons. iDestruct "Ho" as "[Hc Ho]". iApply hwp_bind. iApply hwp_bind.
    iApply (hwp_new_edge with "Hn"); [done|lia|]. iIntros "Hn".
    iApply (hwp_link_kid with "Hn Hc"); [done|exact He| |].
    { pose proof (Hes 0 ltac:(lia)) as H0. rewrite Nat.add_0_r in H0. exact H0. }
    iIntros "Hn Hc". iApply (IH with "Hn Ho"); [lia| |].
    { intros j Hj. rewrite Nat.add_succ_comm. apply (Hes (S j)). lia. }
    iIntros "Hn Ho". iApply ("HQ" with "Hn"). rewrite kids_cons. iFrame.
Qed.

(** ** Nodes over subtrees *)

Definition top_of h par pi kvs es : N := match h with O => leaf_node par pi kvs | S _ => inner_node par pi kvs es end.
Definition fits h kvs (ks : list kid) : Prop := match h with O => ks = [] | S _ => length ks = S (length kvs) end.
Definition node_at h p par pi kvs ks : prop :=
  ⌜fits h kvs ks ∧ length kvs ≤ CAPACITY ∧ (STATIC_END <= p)%Z ∧ Forall linkable ks⌝ ∧
  p ↦ top_of h par pi kvs (kid_at <$> ks) ∗ kids p 0 ks.

Lemma keys_of h par pi kvs es : keys (top_of h par pi kvs es) = kvs.*1.
Proof. by destruct h. Qed.
Lemma vals_of h par pi kvs es : vals (top_of h par pi kvs es) = kvs.*2.
Proof. by destruct h. Qed.
Lemma set_kvs_of h par pi kvs es kvs' : set_kvs kvs'.*1 kvs'.*2 (top_of h par pi kvs es) = top_of h par pi kvs' es.
Proof. by destruct h. Qed.

Lemma hwp_len_at h h' p par pi kvs ks Q :
  node_at h p par pi kvs ks -∗ (node_at h p par pi kvs ks -∗ Q (length kvs)) -∗ hwp (len (NodeRef_ h' p) : M nat) Q.
Proof.
  iIntros "[%H [Hn Hks]] HQ". destruct H as (Hf & Hc & Hp & Hl).
  iApply (hwp_len with "Hn"); [done|]. iIntros "Hn". rewrite keys_of length_fmap. iApply "HQ". iSplit; [done|]. iFrame.
Qed.

Lemma lookup_left {T} (l1 : list T) a l2 i : i = length l1 → (l1 ++ a :: l2) !! i = Some a.
Proof. intros ->. by apply list_lookup_middle. Qed.
Lemma lookup_right {T} (l1 : list T) a b l2 i : i = length l1 → (l1 ++ a :: b :: l2) !! (i + 1) = Some b.
Proof. intros ->. rewrite cons_middle assoc_L. apply list_lookup_middle. by rewrite length_app. Qed.

(** A key of a node and the two subtrees around it. *)
Definition around h q par pi kvs1 kv kvs2 (es1 : list Z) ka a ksa kb b ksb (es2 : list Z) : prop :=
  ⌜length es1 = length kvs1 ∧ length es2 = length kvs2 ∧ (STATIC_END <= q)%Z⌝ ∧
  q ↦ inner_node par pi (kvs1 ++ kv :: kvs2) (es1 ++ a :: b :: es2) ∗
  node_at h a (Some q) (Some (length kvs1)) ka ksa ∗ node_at h b (Some q) (Some (S (length kvs1))) kb ksb.

Section around.
Context (h : nat) (q : Z) (par : option Z) (pi : option nat) (kvs1 : list (K * V)) (kv : K * V) (kvs2 : list (K * V)).
Context (es1 : list Z) (ka : list (K * V)) (a : Z) (ksa : list kid) (kb : list (K * V)) (b : Z) (ksb : list kid) (es2 : list Z).
#[local] Abbreviation both := (around h q par pi kvs1 kv kvs2 es1 ka a ksa kb b ksb es2).

Lemma hwp_around_edge i Q : i ≤ length kvs1 + 1 →
  both -∗ (both -∗ Q (Handle_ (NodeRef_ (S h) q) i)) -∗ hwp (new_edge (NodeRef_ (S h) q) i : M _) Q.
Proof.
  iIntros (Hi) "[%H [Hn Hab]] HQ". destruct H as (H1 & H2 & Hq).
  iApply (hwp_new_edge with "Hn"); [done|solve_len|]. iIntros "Hn". iApply "HQ". iSplit; [done|]. iFrame.
Qed.
Lemma hwp_around_left Q :
  both -∗ (both -∗ Q (NodeRef_ h a)) -∗ hwp (descend (Handle_ (NodeRef_ (S h) q) (length kvs1)) : M _) Q.
Proof.
  iIntros "[%H [Hn Hab]] HQ". destruct H as (H1 & H2 & Hq).
  iApply (hwp_descend with "Hn"); [done|by apply lookup_left|]. iIntros "Hn". rewrite /= Nat.sub_0_r.
  iApply "HQ". iSplit; [done|]. iFrame.
Qed.
Lemma hwp_around_right Q :
  both -∗ (both -∗ Q (NodeRef_ h b)) -∗ hwp (descend (Handle_ (NodeRef_ (S h) q) (length kvs1 + 1)) : M _) Q.
Proof.
  iIntros "[%H [Hn Hab]] HQ". destruct H as (H1 & H2 & Hq).
  iApply (hwp_descend with "Hn"); [done|by apply lookup_right|]. iIntros "Hn". rewrite /= Nat.sub_0_r.
  iApply "HQ". iSplit; [done|]. iFrame.
Qed.
Lemma hwp_around_left_len Q : both -∗ (both -∗ Q (length ka)) -∗ hwp (len (NodeRef_ h a) : M _) Q.
Proof.
  iIntros "[%H (Hn & Ha & Hb)] HQ". iApply (hwp_len_at with "Ha"). iIntros "Ha". iApply "HQ". iSplit; [done|]. iFrame.
Qed.
Lemma hwp_around_right_len Q : both -∗ (both -∗ Q (length kb)) -∗ hwp (len (NodeRef_ h b) : M _) Q.
Proof.
  iIntros "[%H (Hn & Ha & Hb)] HQ". iApply (hwp_len_at with "Hb"). iIntros "Hb". iApply "HQ". iSplit; [done|]. iFrame.
Qed.

(** The first steps of moving between the two. *)
Lemma hwp_around_both (k : NodeRef → nat → NodeRef → nat → M unit) Q :
  both -∗ (both -∗ hwp (k (NodeRef_ h a) (length ka) (NodeRef_ h b) (length kb)) Q) -∗
  hwp (e ← left_edge (Handle_ (NodeRef_ (S h) q) (length kvs1)); l ← descend e; ll ← len l;
       e ← right_edge (Handle_ (NodeRef_ (S h) q) (length kvs1)); r ← descend e; rl ← len r; k l ll r rl) Q.
Proof.
  iIntros "Hp HQ".
  iApply hwp_bind. iApply (hwp_around_edge with "Hp"); [cbn; lia|]. iIntros "Hp".
  iApply hwp_bind. iApply (hwp_around_left with "Hp"). iIntros "Hp".
  iApply hwp_bind. iApply (hwp_around_left_len with "Hp"). iIntros "Hp".
  iApply hwp_bind. iApply (hwp_around_edge with "Hp"); [cbn; lia|]. iIntros "Hp".
  iApply hwp_bind. iApply (hwp_around_right with "Hp"). iIntros "Hp".
  iApply hwp_bind. iApply (hwp_around_right_len with "Hp"). iIntros "Hp". by iApply "HQ".
Qed.

Lemma hwp_can_merge_around Q : both -∗ (both -∗ Q (length ka + length kb + 1 <=? CAPACITY)) -∗
  hwp (can_merge (Handle_ (NodeRef_ (S h) q) (length kvs1)) : M _) Q.
Proof.
  iIntros "Hp HQ". unfold can_merge, child_len.
  iApply hwp_bind. iApply (hwp_around_edge with "Hp"); [cbn; lia|]. iIntros "Hp".
  iApply hwp_bind. iApply hwp_bind. iApply (hwp_around_left with "Hp"). iIntros "Hp".
  iApply (hwp_around_left_len with "Hp"). iIntros "Hp".
  iApply hwp_bind. iApply (hwp_around_edge with "Hp"); [cbn; lia|]. iIntros "Hp".
  iApply hwp_bind. iApply hwp_bind. iApply (hwp_around_right with "Hp"). iIntros "Hp".
  iApply (hwp_around_right_len with "Hp"). iIntros "Hp". iApply hwp_ret. by iApply "HQ".
Qed.
End around.

Lemma remove_pair par pi kvs1 (kv : K * V) kvs2 es1 a b es2 : length es1 = length kvs1 →
  let n := inner_node par pi (kvs1 ++ kv :: kvs2) (es1 ++ a :: b :: es2) in
  set_edges (slice_remove (es1 ++ a :: b :: es2) (length kvs1 + 1))
    (set_kvs (slice_remove (keys n) (length kvs1)) (slice_remove (vals n) (length kvs1)) n) =
  inner_node par pi (kvs1 ++ kvs2) (es1 ++ a :: es2).
Proof.
  intros H. unfold set_edges, set_kvs, inner_node. cbn.
  assert (slice_remove (es1 ++ a :: b :: es2) (length kvs1 + 1) = es1 ++ a :: es2) as ->.
  { rewrite (cons_middle a) (cons_middle a _ es2) !app_assoc. apply slice_remove_app. by rewrite length_app H. }
  by rewrite !fmap_app !fmap_cons !slice_remove_app ?length_fmap.
Qed.

(** The second half of [merge]: the edges of the right child, and the end of it. *)
Lemma hwp_merge_kids_edges h a par pi ka kv kb ksa b parb pib ksb Q :
  fits h ka ksa → fits h kb ksb → (STATIC_END <= a)%Z → length ka + length kb + 1 ≤ CAPACITY →
  Forall linkable ksa → Forall linkable ksb →
  a ↦ top_of h par pi (ka ++ kv :: kb) (kid_at <$> ksa) -∗ kids a 0 ksa -∗
  b ↦ top_of h parb pib kb (kid_at <$> ksb) -∗ kids b 0 ksb -∗
  (node_at h a par pi (ka ++ kv :: kb) (ksa ++ ksb) -∗ Q tt) -∗
  hwp (if 1 <? S h then
         lm ← load a;
         les ← edges_of lm;
         res ← edges_of (top_of h parb pib kb (kid_at <$> ksb));
         _ ← update a (set_edges (les ++ res));
         _ ← correct_childrens_parent_links (NodeRef_ h a) (length ka + 1) (length ka + length kb + 2);
         dealloc b InternalLayout
       else dealloc b LeafLayout : M unit) Q.
Proof.
  iIntros (Ha Hb Hp Hc Hla Hlb) "Ha Hka Hb Hkb HQ".
  assert (length (ka ++ kv :: kb) ≤ CAPACITY ∧ Forall linkable (ksa ++ ksb)) as [Hcap Hl]
    by (split; [solve_len|by apply Forall_app]).
  destruct h as [|h]; cbn [Nat.ltb Nat.leb top_of fits] in *.
  - subst ksa ksb. iApply (hwp_dealloc with "Hb"); [done|]. iDestruct "Hkb" as "_". iApply "HQ". iSplit; [done|]. iFrame.
  - iApply hwp_bind. iApply (hwp_load with "Ha"). iIntros "Ha".
    do 2 (iApply hwp_bind; iApply hwp_edges_of; [done|]).
    iApply hwp_bind. iApply (hwp_update with "Ha"); [done|]. iIntros "Ha". iDestruct (kids_loose with "Hkb") as "Hkb".
    iApply hwp_bind. iApply (hwp_link_kids _ _ _ ((kid_at <$> ksa) ++ (kid_at <$> ksb)) ksb with "Ha Hkb");
      [done|done|done|solve_len|solve_len| |].
    { intros j Hj. rewrite lookup_app_r length_fmap; [f_equal|]; lia. }
    iIntros "Ha Hkb". iApply (hwp_dealloc with "Hb"); [done|]. iApply "HQ".
    iSplit; [iPureIntro; split_and!; [cbn; solve_len|done..]|]. rewrite fmap_app kids_app Ha Nat.add_1_r. iFrame.
Qed.

Lemma hwp_merge_kids h q par pi kvs1 k v kvs2 es1 ka a ksa kb b ksb ks2 Q : length ka + length kb + 1 ≤ CAPACITY →
  length kvs1 + S (length kvs2) ≤ CAPACITY → Forall linkable ks2 →
  around h q par pi kvs1 (k, v) kvs2 es1 ka a ksa kb b ksb (kid_at <$> ks2) -∗ kids q (S (S (length kvs1))) ks2 -∗
  (q ↦ inner_node par pi (kvs1 ++ kvs2) (es1 ++ a :: (kid_at <$> ks2)) -∗
     node_at h a (Some q) (Some (length kvs1)) (ka ++ (k, v) :: kb) (ksa ++ ksb) -∗
     kids q (S (length kvs1)) ks2 -∗ Q (Handle_ (NodeRef_ (S h) q) (length kvs1))) -∗
  hwp (Node.merge (Handle_ (NodeRef_ (S h) q) (length kvs1)) : M _) Q.
Proof.
  iIntros (Hab Hcap Hl2) "Hp Hks2 HQ". unfold Node.merge. cbv zeta. cbn [hnode idx].
  iApply hwp_bind. iApply (hwp_around_edge with "Hp"); [cbn; lia|]. iIntros "Hp".
  iApply hwp_bind. iApply (hwp_around_left with "Hp"). iIntros "Hp".
  iApply hwp_bind. iApply (hwp_around_left_len with "Hp"). iIntros "Hp".
  iApply hwp_bind. iApply (hwp_around_edge with "Hp"); [cbn; lia|]. iIntros "Hp".
  iApply hwp_bind. iApply (hwp_around_right with "Hp"). iIntros "Hp".
  iApply hwp_bind. iApply (hwp_around_right_len with "Hp"). iIntros "Hp".
  iApply hwp_bind. iApply hwp_debug_assert; [by apply Nat.leb_le|].
  iDestruct "Hp" as "[%H (Hn & [%Ha [Ha Hka]] & [%Hb [Hb Hkb]])]". destruct H as (H1 & H2 & Hq). rewrite length_fmap in H2.
  destruct Ha as (Hfa & _ & Hpa & Hla). destruct Hb as (Hfb & _ & Hpb & Hlb). cbn [node height].
  iApply hwp_bind. iApply (hwp_load with "Hn"). iIntros "Hn".
  iApply hwp_bind. iApply (hwp_load with "Hb"). iIntros "Hb".
  do 2 (iApply hwp_bind; iApply hwp_get_unchecked; [apply lookup_middle|]).
  iApply hwp_bind. iApply hwp_edges_of; [done|].
  iApply hwp_bind. iApply (hwp_update with "Ha"); [done|]. iIntros "Ha".
  rewrite !keys_of !vals_of. cbn [fst snd].
  assert (set_kvs (ka.*1 ++ k :: kb.*1) (ka.*2 ++ v :: kb.*2) (top_of h (Some q) (Some (length kvs1)) ka (kid_at <$> ksa)) =
    top_of h (Some q) (Some (length kvs1)) (ka ++ (k, v) :: kb) (kid_at <$> ksa)) as ->.
  { rewrite -(set_kvs_of h _ _ ka _ (ka ++ (k, v) :: kb)). by rewrite !fmap_app. }
  iApply hwp_bind. iApply (hwp_update with "Hn"); [done|]. iIntros "Hn". rewrite remove_pair //.
  iDestruct (kids_loose with "Hks2") as "Hks2".
  iApply hwp_bind. iApply (hwp_link_kids _ _ _ (es1 ++ a :: (kid_at <$> ks2)) ks2 with "Hn Hks2");
    [done|done|done|solve_len|solve_len| |].
  { intros j Hj. rewrite (cons_middle a) app_assoc lookup_app_r; [f_equal|]; solve_len. }
  iIntros "Hn Hks2". iApply hwp_bind.
  iApply (hwp_merge_kids_edges with "Ha Hka Hb Hkb"); [done..|]. iIntros "Ha".
  iApply (hwp_new_edge with "Hn"); [done|solve_len|]. iIntros "Hn". rewrite (Nat.add_1_r (length kvs1)).
  iApply ("HQ" with "Hn Ha Hks2").
Qed.

(** A root without keys is given back; its subtree becomes the root. *)
Lemma hwp_pop_kid h q pi k Q : linkable k → (STATIC_END <= q)%Z →
  q ↦ inner_node None pi [] [kid_at k] -∗ kids q 0 [k] -∗
  (∀ pi', kid_tree k None pi' -∗ Q (Root_ (kid_at k) h)) -∗ hwp (pop_level (Root_ q (S h)) : M _) Q.
Proof.
  iIntros (Hk Hq) "Hn Hks HQ". rewrite kids_cons kids_nil. iDestruct "Hks" as "[Ht _]".
  iApply hwp_bind. iApply hwp_debug_assert; [done|]. iApply hwp_bind.
  iApply (hwp_new_edge with "Hn"); [done|solve_len|]. iIntros "Hn".
  iApply hwp_bind. iApply (hwp_descend with "Hn"); [done|done|]. iIntros "Hn".
  iDestruct (Hk with "Ht") as (n) "[Ht Hclose]".
  iApply hwp_bind. iApply (hwp_update with "Ht"); [done|]. iIntros "Ht".
  iApply hwp_bind. iApply (hwp_dealloc with "Hn"); [done|]. iApply hwp_ret. cbn. rewrite Nat.sub_0_r.
  iApply "HQ". by iApply ("Hclose" $! None (parent_idx n)).
Qed.

(** ** A new level *)

Lemma hwp_push_kid h k pi Q : linkable k → (STATIC_END <= kid_at k)%Z →
  kid_tree k None pi -∗
  ((∀ q, ⌜STATIC_END <= q⌝%Z → q ↦ inner_node None None [] [kid_at k] -∗ kids q 0 [k] -∗
      Q (Root_ q (S h), Ok (NodeRef_ (S h) q))) ∧
   (kid_tree k None pi -∗ Q (Root_ (kid_at k) h, Err AllocErr_))) -∗
  hwp (push_level (Root_ (kid_at k) h) : M _) Q.
Proof.
  iIntros (Hk Hs) "Ht HQ". unfold push_level, root_is_shared_root. simpl_node. rewrite not_shared //.
  iApply hwp_bind. iApply hwp_debug_assert; [done|]. iApply hwp_bind. iApply hwp_box_new. iSplit.
  - iIntros (q) "%Hq Hq". iDestruct "HQ" as "[HQ _]".
    iApply hwp_bind. iApply (hwp_update with "Hq"); [done|]. iIntros "Hq".
    iApply hwp_bind. iApply (hwp_new_edge with "Hq"); [done|solve_len|]. iIntros "Hq".
    iApply hwp_bind. iApply (hwp_link_kid with "Hq [Ht]"); [done|done|done|by iExists _, _|].
    iIntros "Hq Ht". iApply hwp_ret. rewrite Nat.add_1_r. iApply ("HQ" $! q Hq with "Hq"). rewrite kids_cons kids_nil. by iFrame.
  - iDestruct "HQ" as "[_ HQ]". iApply hwp_ret. by iApply "HQ".
Qed.

Lemma hwp_internal_push_kid h q par pi kvs es e k v Q :
  (STATIC_END <= q)%Z → length es = S (length kvs) → length kvs < CAPACITY → linkable e →
  q ↦ inner_node par pi kvs es -∗ (∃ par pi, kid_tree e par pi) -∗
  (q ↦ inner_node par pi (kvs ++ [(k, v)]) (es ++ [kid_at e]) -∗ kids q (S (length kvs)) [e] -∗ Q tt) -∗
  hwp (internal_push (NodeRef_ (S h) q) k v (Root_ (kid_at e) h) : M unit) Q.
Proof.
  iIntros (Hq H1 Hc He) "Hn Hk HQ". unfold internal_push. simpl_node.
  iApply hwp_bind. iApply hwp_debug_assert; [solve_len|].
  iApply hwp_bind. iApply (hwp_len with "Hn"); [done|]. iIntros "Hn".
  iApply hwp_bind. iApply hwp_debug_assert; [solve_len|].
  iApply hwp_bind. iApply (hwp_load with "Hn"). iIntros "Hn". iApply hwp_bind. iApply hwp_edges_of; [done|].
  iApply hwp_bind. iApply (hwp_update with "Hn"); [done|]. iIntros "Hn".
  assert (set_edges (es ++ [kid_at e]) (set_kvs (keys (inner_node par pi kvs es) ++ [k])
            (vals (inner_node par pi kvs es) ++ [v]) (inner_node par pi kvs es)) =
          inner_node par pi (kvs ++ [(k, v)]) (es ++ [kid_at e])) as ->.
  { unfold inner_node, set_edges, set_kvs. cbn. by rewrite !fmap_app. }
  cbn [keys inner_node]. rewrite length_fmap Nat.add_1_r.
  iApply hwp_bind. iApply (hwp_new_edge with "Hn"); [done|solve_len|]. iIntros "Hn".
  iApply (hwp_link_kid with "Hn Hk"); [done|done|by apply list_lookup_middle|].
  iIntros "Hn Hk". iApply ("HQ" with "Hn"). rewrite kids_cons kids_nil. by iFrame.
Qed.

(** ** The trees of [NodeSpec] as subtrees *)

Definition tree_kid h lo (c : Z * list (K * V)) : kid := Kid c.1 (λ par pi, tree_at h lo c.1 par pi c.2).

Lemma tree_linkable h lo c : linkable (tree_kid h lo c).
Proof.
  intros par pi. cbn. iIntros "Ht". iDestruct (tree_link with "Ht") as (n _) "[Hn Hclose]". iExists n. iFrame.
Qed.
Lemma trees_linkable h lo (cs : list (Z * list (K * V))) : Forall linkable (tree_kid h lo <$> cs).
Proof. apply Forall_fmap, Forall_true. intros c. apply tree_linkable. Qed.
Lemma kids_at h lo (cs : list (Z * list (K * V))) : kid_at <$> (tree_kid h lo <$> cs) = cs.*1.
Proof. by rewrite -list_fmap_compose. Qed.
Lemma kids_children h p i cs : kids p i (tree_kid h 4 <$> cs) ⊣⊢ children h p i cs.
Proof. by rewrite /kids /children big_sepL_fmap. Qed.

Lemma hwp_push_level h p pi L Q :
  tree_at h 4 p None pi L -∗
  ((∀ q, ⌜STATIC_END <= q⌝%Z → q ↦ inner_node None None [] [p] -∗ children h q 0 [(p, L)] -∗
      Q (Root_ q (S h), Ok (NodeRef_ (S h) q))) ∧
   (tree_at h 4 p None pi L -∗ Q (Root_ p h, Err AllocErr_))) -∗
  hwp (push_level (Root_ p h) : M _) Q.
Proof.
  iIntros "Ht". iDestruct (tree_static with "Ht") as %Hs. setoid_rewrite <-kids_children.
  iApply (hwp_push_kid _ (tree_kid h 4 (p, L)) with "Ht"); [apply tree_linkable|done].
Qed.

Lemma hwp_internal_push h q par pi kvs cs e L k v Q :
  (STATIC_END <= q)%Z → length cs = S (length kvs) → length kvs < CAPACITY →
  q ↦ inner_node par pi kvs cs.*1 -∗ children h q 0 cs -∗ (∃ par pi, tree_at h 4 e par pi L) -∗
  (q ↦ inner_node par pi (kvs ++ [(k, v)]) (cs ++ [(e, L)]).*1 -∗ children h q 0 (cs ++ [(e, L)]) -∗ Q tt) -∗
  hwp (internal_push (NodeRef_ (S h) q) k v (Root_ e h) : M unit) Q.
Proof.
  iIntros (Hq H1 Hc) "Hn Hcs He HQ".
  iApply (hwp_internal_push_kid _ _ _ _ _ _ (tree_kid h 4 (e, L)) with "Hn He"); [done|solve_len|done|apply tree_linkable|].
  iIntros "Hn He". rewrite fmap_app children_app -H1. iApply ("HQ" with "Hn"). rewrite -!kids_children. iFrame.
Qed.
End kids.
