(* ===== verification/BTreeSpec.v ===== *)
(** * BTreeSpec: the B-tree map implements a sorted list of entries

    [map_at m L]: the map [m] holds the entries [L], in order, and nothing else of
    the heap.  Searching splits that list at the key; insertion and removal change it
    there, whatever the nodes have to do for it. *)

From S2P Require Import Prelude HeapLogic Node BTree Readonly Keeps NodeSpec Kids.
From stdpp Require Import sorting.
From iris.proofmode Require Import proofmode.
From iris.prelude Require Import options.

#[local] Open Scope nat_scope.

#[local] Instance ord_eq_dec {K} `{!Ord K} : EqDecision K.
Proof.
  intros x y. destruct (cmp x y) eqn:E; [left; by apply cmp_eq|right..];
    intros ->; rewrite (proj2 (cmp_eq y y) eq_refl) in E; done.
Defined.

Section order.
Context {K V : Type} `{!Ord K}.
Implicit Types (L : list (K * V)) (k : K).

Definition klt (x y : K) : Prop := cmp x y = Lt.
Definition sorted L : Prop := StronglySorted klt L.*1.
Definition below k L : Prop := Forall (λ kv, klt kv.1 k) L.
Definition above k L : Prop := Forall (λ kv, klt k kv.1) L.

#[export] Instance klt_trans : Transitive klt.
Proof. intros x y z. apply cmp_trans. Qed.

Lemma klt_gt x y : klt x y ↔ cmp y x = Gt.
Proof. unfold klt. rewrite (cmp_antisym x y). by destruct (cmp x y). Qed.

Lemma klt_irrefl x : ¬ klt x x.
Proof. unfold klt. rewrite (proj2 (cmp_eq x x) eq_refl). done. Qed.

Lemma sorted_app L1 L2 : sorted (L1 ++ L2) ↔ (∀ x y, x ∈ L1.*1 → y ∈ L2.*1 → klt x y) ∧ sorted L1 ∧ sorted L2.
Proof. unfold sorted. rewrite fmap_app. apply StronglySorted_app. Qed.

Lemma sorted_mid L1 L L2 : sorted (L1 ++ L ++ L2) → sorted L.
Proof. intros (_ & _ & H)%sorted_app. by apply sorted_app in H as (_ & H & _). Qed.
Lemma sorted_suffix L1 L2 : sorted (L1 ++ L2) → sorted L2.
Proof. by intros (_ & _ & H)%sorted_app. Qed.

Lemma below_app k L1 L2 : below k (L1 ++ L2) ↔ below k L1 ∧ below k L2.
Proof. apply Forall_app. Qed.
Lemma above_app k L1 L2 : above k (L1 ++ L2) ↔ above k L1 ∧ above k L2.
Proof. apply Forall_app. Qed.

(** What is left of a key that is below [k] is below [k]; and the other way round. *)
Lemma sorted_below k kv L1 L2 : sorted (L1 ++ kv :: L2) → klt kv.1 k → below k (L1 ++ [kv]).
Proof.
  intros (H & _ & _)%sorted_app Hk. apply below_app. split; [|by apply Forall_singleton].
  apply Forall_forall. intros x Hx. etrans; [apply H|exact Hk]; [|left].
  by apply list_elem_of_fmap_2.
Qed.

Lemma sorted_above k kv L1 L2 : sorted (L1 ++ kv :: L2) → klt k kv.1 → above k (kv :: L2).
Proof.
  intros (_ & _ & H)%sorted_app Hk. constructor; [done|]. apply StronglySorted_cons in H as [H _].
  apply Forall_forall. intros x Hx. etrans; [exact Hk|]. rewrite Forall_forall in H. apply H.
  by apply list_elem_of_fmap_2.
Qed.

Lemma lefts_below k Ls kvs : sorted (lefts Ls kvs) → below k kvs → below k (lefts Ls kvs).
Proof.
  revert kvs. induction Ls as [|L Ls IH]; intros [|kv kvs]; cbn; [constructor..|].
  intros Hs [Hkv Hk]%Forall_cons. pose proof (sorted_below k _ _ _ Hs Hkv) as Hb.
  rewrite cons_middle assoc_L in Hs |- *. apply below_app. split; [done|]. apply IH; [|done].
  by apply sorted_app in Hs as (_ & _ & ?).
Qed.

(** The search in one node. *)
Lemma search_keys_spec key ks : ∀ i, ∃ ks1 ks2, ks = ks1 ++ ks2 ∧ Forall (λ k, klt k key) ks1 ∧
  search_keys i ks key = (i + length ks1, match ks2 with k :: _ => bool_decide (k = key) | [] => false end) ∧
  (match ks2 with k :: _ => k = key ∨ klt key k | [] => True end).
Proof.
  induction ks as [|k ks IH]; intros i; cbn.
  - exists [], []. split_and!; [done..|by rewrite Nat.add_0_r|done].
  - destruct (cmp key k) eqn:E.
    + exists [], (k :: ks). apply cmp_eq in E as ->. rewrite bool_decide_true // Nat.add_0_r. by split_and!; [..|left].
    + exists [], (k :: ks). rewrite bool_decide_false ?Nat.add_0_r; [by split_and!; [..|right]|].
      intros ->. by apply klt_irrefl in E.
    + destruct (IH (S i)) as (ks1 & ks2 & -> & Hf & -> & Hd). exists (k :: ks1), ks2.
      split_and!; [done|constructor; [by apply klt_gt|done]| |done]. cbn. f_equal. lia.
Qed.
End order.

Section search_kvs.
Context {K V : Type} `{!Ord K}.

Lemma search_kvs_spec key (kvs : list (K * V)) : ∃ kvs1 kvs2, kvs = kvs1 ++ kvs2 ∧ below key kvs1 ∧
  ((∃ v kvs2', kvs2 = (key, v) :: kvs2' ∧ search_keys 0 kvs.*1 key = (length kvs1, true)) ∨
   (match kvs2 with kv :: _ => klt key kv.1 | [] => True end ∧ search_keys 0 kvs.*1 key = (length kvs1, false))).
Proof.
  destruct (search_keys_spec key kvs.*1 0) as (ks1 & ks2 & Heq & Hb & Hs & Hd).
  apply fmap_app_inv in Heq as (kvs1 & kvs2 & -> & -> & ->). exists kvs1, kvs2.
  rewrite length_fmap in Hs. split_and!; [done|by apply Forall_fmap in Hb|].
  destruct kvs2 as [|[k v] kvs2]; cbn in *; [by right|].
  destruct (decide (k = key)) as [->|Hne].
  - left. exists v, kvs2. by rewrite Hs bool_decide_true.
  - right. rewrite Hs bool_decide_false //. by destruct Hd.
Qed.
End search_kvs.

Section btree.
Context {K V A : Type} `{!Ord K, !GlobalAlloc NodeLayout A}.
#[local] Abbreviation N := (Node K V).
#[local] Abbreviation M := (M (store N A)).
#[local] Notation "p ↦ n" := (points_to p n) (at level 20) : bi_scope.
Implicit Types (L : list (K * V)) (kvs : list (K * V)) (cs : list (Z * list (K * V))).

(** The place of a key in the tree of [r], in a leaf or above: before it are [L1],
    behind it [L2]. *)
Definition found_leaf (r : Root) (hd : Handle) (k : K) (v : V) L1 L2 : hProp N :=
  ∃ n q par pi A B kvs1 kvs2,
     ⌜hd = Handle_ (NodeRef_ 0 q) (length kvs1) ∧ L1 = A ++ kvs1 ∧ L2 = kvs2 ++ B⌝ ∧
     ctx_at n 0 q par pi r A B ∗ tree_at 0 (least n 0) q par pi (kvs1 ++ (k, v) :: kvs2).
Definition found_inner (r : Root) (hd : Handle) (k : K) (v : V) L1 L2 : hProp N :=
  ∃ n h q par pi A B kvs1 kvs2 cs1 c c' cs2,
     ⌜hd = Handle_ (NodeRef_ (S h) q) (length kvs1) ∧ length cs1 = length kvs1 ∧ length cs2 = length kvs2 ∧
      least n (S h) ≤ S (length kvs1 + length kvs2) ≤ CAPACITY ∧ (STATIC_END <= q)%Z ∧
      L1 = A ++ lefts cs1.*2 kvs1 ++ c.2 ∧ L2 = c'.2 ++ rights kvs2 cs2.*2 ++ B⌝ ∧
     ctx_at n (S h) q par pi r A B ∗ q ↦ inner_node par pi (kvs1 ++ (k, v) :: kvs2) (cs1 ++ c :: c' :: cs2).*1 ∗
     children h q 0 (cs1 ++ c :: c' :: cs2).
Definition found_at (r : Root) (hd : Handle) (k : K) (v : V) L1 L2 : hProp N :=
  found_leaf r hd k v L1 L2 ∨ found_inner r hd k v L1 L2.

(** The place in a leaf of a key that is not there. *)
Definition godown_at (r : Root) (hd : Handle) L1 L2 : hProp N :=
  ∃ n q par pi A B kvs1 kvs2,
     ⌜hd = Handle_ (NodeRef_ 0 q) (length kvs1) ∧ L1 = A ++ kvs1 ∧ L2 = kvs2 ++ B⌝ ∧
     ctx_at n 0 q par pi r A B ∗ tree_at 0 (least n 0) q par pi (kvs1 ++ kvs2).

Lemma found_close r hd k v L1 L2 : found_at r hd k v L1 L2 ⊢ root_at r (L1 ++ (k, v) :: L2).
Proof.
  iIntros "[H|H]".
  - iDestruct "H" as (n q par pi A' B' kvs1 kvs2 (-> & -> & ->)) "H".
    replace ((A' ++ kvs1) ++ (k, v) :: kvs2 ++ B') with (A' ++ (kvs1 ++ (k, v) :: kvs2) ++ B') by by rewrite -!app_assoc.
    by iApply ctx_plug.
  - iDestruct "H" as (n h q par pi A' B' kvs1 kvs2 cs1 c c' cs2 (-> & H1 & H2 & Hle & Hq & -> & ->)) "(Hc & Hn & Hcs)".
    assert ((A' ++ lefts cs1.*2 kvs1 ++ c.2) ++ (k, v) :: c'.2 ++ rights kvs2 cs2.*2 ++ B' =
      A' ++ inter (cs1 ++ c :: c' :: cs2).*2 (kvs1 ++ (k, v) :: kvs2) ++ B') as ->.
    { rewrite fmap_app !fmap_cons inter_kv ?length_fmap //. rewrite -!app_assoc /=. by rewrite -!app_assoc. }
    iApply ctx_plug. iFrame "Hc". iApply tree_inner; [solve_len|done|solve_len|]. iFrame.
Qed.

Lemma godown_close r hd L1 L2 : godown_at r hd L1 L2 ⊢ root_at r (L1 ++ L2).
Proof.
  iIntros "H". iDestruct "H" as (n q par pi A' B' kvs1 kvs2 (-> & -> & ->)) "H".
  replace ((A' ++ kvs1) ++ kvs2 ++ B') with (A' ++ (kvs1 ++ kvs2) ++ B') by by rewrite -!app_assoc.
  by iApply ctx_plug.
Qed.

(** The key and value of a place, which can be read and replaced. *)
Lemma found_open r hd k v L1 L2 : found_at r hd k v L1 L2 ⊢
  ∃ n, ⌜(STATIC_END <= node (hnode hd))%Z ∧ keys n !! idx hd = Some k ∧ vals n !! idx hd = Some v⌝ ∧
    node (hnode hd) ↦ n ∗
    ∀ k' v', node (hnode hd) ↦ set_kvs (<[idx hd := k']> (keys n)) (<[idx hd := v']> (vals n)) n -∗
      found_at r hd k' v' L1 L2.
Proof.
  iIntros "[H|H]".
  - iDestruct "H" as (n q par pi A' B' kvs1 kvs2 (-> & -> & ->)) "[Hc Ht]". cbn [tree_at].
    iDestruct "Ht" as ([Hl Hq]) "Hn". iExists _. iSplit; [|iFrame "Hn"].
    { iPureIntro. cbn. split_and!; [done|apply lookup_middle..]. }
    iIntros (k' v') "Hn". iLeft. iExists n, q, par, pi, A', B', kvs1, kvs2. iSplit; [done|]. iFrame "Hc".
    iSplit; [iPureIntro; solve_len|]. cbn [idx hnode node leaf_node]. by rewrite set_kvs_middle.
  - iDestruct "H" as (n h q par pi A' B' kvs1 kvs2 cs1 c c' cs2 (-> & H1 & H2 & Hle & Hq & -> & ->)) "(Hc & Hn & Hcs)".
    iExists _. iSplit; [|iFrame "Hn"].
    { iPureIntro. cbn. split_and!; [done|apply lookup_middle..]. }
    iIntros (k' v') "Hn". iRight. iExists n, h, q, par, pi, A', B', kvs1, kvs2, cs1, c, c', cs2.
    iSplit; [done|]. iFrame "Hc Hcs". cbn [idx hnode node inner_node]. by rewrite set_kvs_middle.
Qed.

(** ** Searching *)

Lemma hwp_search_node h p n kvs key Q : (STATIC_END <= p)%Z → keys n = kvs.*1 →
  p ↦ n -∗
  (∀ kvs1 kvs2, ⌜kvs = kvs1 ++ kvs2 ∧ below key kvs1⌝ → p ↦ n -∗
     ((∀ v kvs2', ⌜kvs2 = (key, v) :: kvs2'⌝ → Q (Found (Handle_ (NodeRef_ h p) (length kvs1)))) ∧
      (⌜match kvs2 with kv :: _ => klt key kv.1 | [] => True end⌝ → Q (GoDown (Handle_ (NodeRef_ h p) (length kvs1)))))) -∗
  hwp (search_node (NodeRef_ h p) key : M _) Q.
Proof.
  iIntros (Hp Hk) "Hn HQ". destruct (search_kvs_spec key kvs) as (kvs1 & kvs2 & -> & Hb & Hcase).
  iApply hwp_bind. iApply hwp_bind. iApply hwp_bind. iApply (hwp_as_header with "Hn"); [done|]. iIntros "Hn".
  iApply hwp_ret. iApply hwp_ret. rewrite Hk.
  assert (length (keys n) = length kvs1 + length kvs2) as Hl by by rewrite Hk length_fmap length_app.
  destruct Hcase as [(v & kvs2' & -> & ->)|(Hd & ->)]; iApply hwp_bind.
  - iApply (hwp_new_kv with "Hn"); [done|solve_len|]. iIntros "Hn". iApply hwp_ret.
    iDestruct ("HQ" $! kvs1 _ (conj eq_refl Hb) with "Hn") as "[HQ _]". by iApply ("HQ" $! v kvs2').
  - iApply (hwp_new_edge with "Hn"); [done|solve_len|]. iIntros "Hn". iApply hwp_ret.
    iDestruct ("HQ" $! kvs1 kvs2 (conj eq_refl Hb) with "Hn") as "[_ HQ]". by iApply "HQ".
Qed.

Lemma rights_above key kvs Ls : sorted (rights kvs Ls) → match kvs with kv :: _ => klt key kv.1 | [] => True end →
  above key (rights kvs Ls).
Proof. destruct kvs as [|kv kvs], Ls as [|L Ls]; cbn; try by constructor. intros Hs Hd. by apply (sorted_above _ _ []). Qed.

(** The search splits the entries of the whole tree at the key. *)
Lemma hwp_search_tree key r W Q h : ∀ fuel n p par pi L1 L L2, h < fuel → W = L1 ++ L ++ L2 → sorted W →
  below key L1 → above key L2 →
  ctx_at n h p par pi r L1 L2 -∗ tree_at h (least n h) p par pi L -∗
  ((∀ hd v W1 W2, ⌜W = W1 ++ (key, v) :: W2⌝ → found_at r hd key v W1 W2 -∗ Q (Found hd)) ∧
   (∀ hd W1 W2, ⌜W = W1 ++ W2 ∧ below key W1 ∧ above key W2⌝ → godown_at r hd W1 W2 -∗ Q (GoDown hd))) -∗
  hwp (search_tree_loop fuel (NodeRef_ h p) key : M _) Q.
Proof.
  induction h as [|h IH]; intros [|fuel] n p par pi L1 L L2 Hf HW Hs Hb Ha; [lia| |lia|]; cbn [search_tree_loop];
    iIntros "Hc Ht HQ"; iApply hwp_bind.
  - cbn [tree_at]. iDestruct "Ht" as ([Hl Hp]) "Hn". iApply (hwp_search_node with "Hn"); [done|done|].
    iIntros (kvs1 kvs2) "%Hk Hn". destruct Hk as [-> Hbk]. subst W. iSplit.
    + iIntros (v kvs2') "->". iApply hwp_ret. iDestruct "HQ" as "[HQ _]".
      iApply ("HQ" $! _ v (L1 ++ kvs1) (kvs2' ++ L2)).
      { iPureIntro. by rewrite -!app_assoc. }
      iLeft. iExists n, p, par, pi, L1, L2, kvs1, kvs2'. iSplit; [done|]. iFrame "Hc". by iSplit.
    + iIntros "%Hd". iApply hwp_ret. iDestruct "HQ" as "[_ HQ]".
      iApply ("HQ" $! _ (L1 ++ kvs1) (kvs2 ++ L2)).
      { iPureIntro. rewrite -!app_assoc. split_and!; [done|by apply below_app|]. apply above_app. split; [|done].
        apply sorted_mid, sorted_suffix in Hs.
        destruct kvs2 as [|kv kvs2]; [constructor|]. by apply (sorted_above _ _ []). }
      iExists n, p, par, pi, L1, L2, kvs1, kvs2. iSplit; [done|]. iFrame "Hc". by iSplit.
  - iDestruct (tree_inner_inv with "Ht") as (kvs cs (Hl & Hp & Hcs & ->)) "[Hn Hcs]". iApply (hwp_search_node with "Hn"); [done|done|].
    iIntros (kvs1 kvs2) "%Hk Hn". destruct Hk as [-> Hbk].
    destruct (split_length cs (length kvs1) (S (length kvs2))) as (cs1 & [|c cs2] & -> & H1 & [=H2]); [solve_len|].
    rewrite fmap_app fmap_cons inter_focus ?length_fmap // in HW. subst W. iSplit.
    + iIntros (v kvs2') "->". destruct cs2 as [|c' cs2]; [done|]. iApply hwp_ret. iDestruct "HQ" as "[HQ _]".
      iApply ("HQ" $! _ v (L1 ++ lefts cs1.*2 kvs1 ++ c.2) (c'.2 ++ rights kvs2' cs2.*2 ++ L2)).
      { iPureIntro. rewrite -!app_assoc /=. by rewrite -!app_assoc. }
      iRight. iExists n, h, p, par, pi, L1, L2, kvs1, kvs2', cs1, c, c', cs2. cbn in H2. injection H2 as H2.
      iSplit; [iPureIntro; split_and!; (done || solve_len)|]. iFrame.
    + iIntros "%Hd". cbn [force_handle hnode force height]. iApply hwp_bind.
      iApply (hwp_descend with "Hn"); [done|rewrite -H1; apply lookup_middle|]. iIntros "Hn". cbn [height].
      rewrite children_app children_cons. iDestruct "Hcs" as "(Hcs1 & Ht & Hcs2)".
      replace (S h - 1) with h by lia. destruct c as [e Le]. cbn [fst snd].
      apply sorted_mid in Hs as Hm.
      iApply (IH _ (S n) e _ _ (L1 ++ lefts cs1.*2 kvs1) Le (rights kvs2 cs2.*2 ++ L2) with "[Hn Hcs1 Hcs2 Hc] Ht HQ");
        [lia|by rewrite -!app_assoc|done| | |].
      * apply below_app. split; [done|]. apply lefts_below; [|done]. by apply sorted_app in Hm as (_ & ? & _).
      * apply above_app. split; [|done]. apply rights_above; [|done]. by do 2 apply sorted_suffix in Hm.
      * cbn [ctx_at]. iExists p, par, pi, kvs1, kvs2, cs1, cs2, L1, L2.
        iSplit; [iPureIntro; split_and!; (done || solve_len)|].
        rewrite fmap_app fmap_cons /=. iFrame.
Qed.

(** ** Inserting *)

(** What a failed climb leaves: the entry that was climbing and those of the tree
    behind it are not in the map any more, and the nodes of that tree are leaked. *)
Definition damaged (r : Root) W : hProp N :=
  ∃ W1 k v lost W2, ⌜W = W1 ++ (k, v) :: lost ++ W2⌝ ∧ root_at r (W1 ++ W2) ∗
    ∃ h e par pi, tree_at h 4 e par pi lost.

(** At the root, the tree grows by a level. *)
Lemma hwp_insert_grow fuel x h p pi LL k v e LR Q :
  tree_at h 4 p None pi LL -∗ (∃ par pi, tree_at h 4 e par pi LR) -∗
  ((∀ r', root_at r' (LL ++ (k, v) :: LR) -∗ Q (r', Ok tt)) ∧
   (damaged (Root_ p h) (LL ++ (k, v) :: LR) -∗ Q (Root_ p h, Err AllocErr_))) -∗
  hwp (insert_loop fuel (Root_ p h) (Err x) k v (Root_ e h) : M _) Q.
Proof.
  iIntros "Ht He HQ".
  assert (insert_loop fuel (Root_ p h) (Err x) k v (Root_ e h) =
    ('(r, top) ← push_level (Root_ p h);
     match top with
     | Err e => mret (r, Err e)
     | Ok top => _ ← internal_push top k v (Root_ e h); mret (r, Ok tt)
     end) :> M _) as -> by by destruct fuel.
  iApply hwp_bind. iApply (hwp_push_level with "Ht"). iSplit.
  - iIntros (q) "%Hq Hq Hcs". iDestruct "HQ" as "[HQ _]". iApply hwp_bind.
    iApply (hwp_internal_push _ _ _ _ [] [(p, LL)] with "Hq Hcs He"); [done|done|solve_len|].
    iIntros "Hq Hcs". iApply hwp_ret. iApply "HQ". iExists None.
    iDestruct (tree_inner _ 1 with "[$Hq $Hcs]") as "Ht"; [solve_len|done|done|]. cbn. by rewrite app_nil_r.
  - iIntros "Ht". iDestruct "HQ" as "[_ HQ]". iApply hwp_ret. iApply "HQ".
    iExists LL, k, v, LR, []. rewrite !app_nil_r. iSplit; [done|].
    iSplitL "Ht"; [iExists pi; iApply (tree_weaken with "Ht"); destruct h; cbn; lia|].
    iDestruct "He" as (par' pi') "He". by iExists h, e, par', pi'.
Qed.

Lemma hwp_insert_loop W Q n : ∀ fuel h r p par pi L1 LL k v e LR L2, n ≤ fuel →
  W = L1 ++ LL ++ (k, v) :: LR ++ L2 →
  ctx_at n h p par pi r L1 L2 -∗ tree_at h 4 p par pi LL -∗ (∃ par pi, tree_at h 4 e par pi LR) -∗
  ((∀ r', root_at r' W -∗ Q (r', Ok tt)) ∧ (damaged r W -∗ Q (r, Err AllocErr_))) -∗
  hwp (cur_parent ← ascend (NodeRef_ h p); insert_loop fuel r cur_parent k v (Root_ e h) : M _) Q.
Proof.
  induction n as [|n IH]; intros fuel h r p par pi L1 LL k v e LR L2 Hf HW; iIntros "Hc Ht He HQ";
    iApply hwp_bind; cbn [ctx_at].
  - iDestruct "Hc" as ((-> & -> & -> & ->)) "_". rewrite app_nil_r /= in HW. subst W.
    iApply (hwp_ascend_tree with "Ht"); [by left|]. iIntros "Ht". by iApply (hwp_insert_grow with "Ht He").
  - destruct fuel as [|fuel]; [lia|].
    iDestruct "Hc" as (q qpar qpi kvs1 kvs2 cs1 cs2 A' B' (-> & -> & H1 & H2 & Hle & Hq & -> & ->)) "(Hn & Hcs1 & Hcs2 & Hc)".
    iApply (hwp_ascend_tree with "Ht"); [by right; eexists|]. iIntros "Ht". cbn [insert_loop]. rewrite H1.
    assert (inter ((cs1 ++ [(p, LL)]) ++ (e, LR) :: cs2).*2 (kvs1 ++ (k, v) :: kvs2) =
      lefts cs1.*2 kvs1 ++ LL ++ (k, v) :: LR ++ rights kvs2 cs2.*2) as Hi.
    { by rewrite -app_assoc fmap_app !fmap_cons inter_kv ?length_fmap. }
    iApply hwp_bind. rewrite -(fmap_cons fst (p, LL)) -fmap_app cons_middle app_assoc.
    iApply (hwp_internal_insert _ (least n (S h)) with "Hn [Hcs1 Ht Hcs2] He"); [done|solve_len|done|solve_len| |].
    { rewrite -app_assoc children_focus H1. iFrame. }
    iSplit; [|iSplit].
    + iIntros (kv) "Ht". iApply hwp_ret. iDestruct "HQ" as "[HQ _]". iApply "HQ".
      iDestruct (ctx_plug with "[$Hc $Ht]") as "Hr". rewrite Hi HW -!app_assoc /= -app_assoc. iFrame.
    + iIntros (k' v' right_tree LL' LR') "%Heq Ht He". destruct Heq as [Heq Hh].
      destruct right_tree as [e' h']. cbn in Hh. subst h'.
      iApply (IH with "Hc Ht [He] HQ"); [lia| |by iExists _, _].
      rewrite Hi in Heq. trans (A' ++ (LL' ++ (k', v') :: LR') ++ B').
      * rewrite HW -Heq -!app_assoc /=. by rewrite -!app_assoc.
      * by rewrite -!app_assoc.
    + iIntros "Hn Hcs He". iApply hwp_ret. iDestruct "HQ" as "[_ HQ]". iApply "HQ".
      iExists (A' ++ lefts cs1.*2 kvs1 ++ LL), k, v, LR, (rights kvs2 cs2.*2 ++ B'). iSplit; [iPureIntro; by rewrite HW -!app_assoc|].
      iSplitR "He"; [|iDestruct "He" as (par' pi') "He"; by iExists h, e, par', pi'].
      iDestruct (tree_inner _ (least n (S h)) with "[$Hn $Hcs]") as "Ht"; [solve_len|done|solve_len|].
      iDestruct (ctx_plug with "[$Hc $Ht]") as "Hr".
      rewrite -app_assoc fmap_app fmap_cons inter_focus ?length_fmap // -!app_assoc. iFrame.
Qed.

(** ** The operations of the map *)

(** The map has the entries [L]; [n] is its count, which a failed insertion leaves
    too large. *)
Definition counted n L : Prop := sorted L ∧ length L ≤ n.
Definition map_at (m : BTreeMap) n L : hProp N :=
  ⌜length_ m = n ∧ counted n L⌝ ∧ ((⌜root m = shared_empty_root ∧ L = [] ∧ n = 0⌝ ∧ emp) ∨ root_at (root m) L).

Lemma map_at_root m n L : length_ m = n → counted n L → root_at (root m) L ⊢ map_at m n L.
Proof. iIntros (Hn Hs) "H". iSplit; [done|]. by iRight. Qed.

Lemma ctx_height n h p par pi r L1 L2 : ctx_at n h p par pi r L1 L2 ⊢ ⌜root_height r = (n + h)%nat⌝.
Proof.
  revert h p par pi L1 L2. induction n as [|n IH]; intros h p par pi L1 L2; cbn [ctx_at].
  - iIntros "[%H _]". iPureIntro. by destruct H as (_ & -> & _).
  - iIntros "(%q & %qpar & %qpi & %kvs1 & %kvs2 & %cs1 & %cs2 & %A' & %B' & _ & _ & _ & _ & Hc)".
    iDestruct (IH with "Hc") as %->. iPureIntro. lia.
Qed.

(** A place behind the smaller and before the greater keys keeps the order. *)
Lemma counted_insert n k v L1 L2 : counted n (L1 ++ L2) → below k L1 → above k L2 →
  counted (n + 1) (L1 ++ (k, v) :: L2).
Proof.
  intros [(H & H1 & H2)%sorted_app Hl] Hb Ha. split; [|solve_len]. apply sorted_app. split_and!; [|done|].
  - intros x y Hx [->|Hy]%elem_of_cons; [|by apply H]. cbn.
    apply list_elem_of_fmap in Hx as (kv & -> & Hx). unfold below in Hb. rewrite Forall_forall in Hb. by apply Hb.
  - unfold sorted. cbn. constructor; [done|]. by apply Forall_fmap.
Qed.

Lemma counted_replace n k v v' L1 L2 : counted n (L1 ++ (k, v) :: L2) → counted n (L1 ++ (k, v') :: L2).
Proof. intros [Hs Hl]. split; [|solve_len]. unfold sorted in *. by rewrite !fmap_app in Hs |- *. Qed.

Lemma counted_remove n n' L1 L L2 : counted n (L1 ++ L ++ L2) → n ≤ n' + length L → counted n' (L1 ++ L2).
Proof.
  intros [(H & H1 & (_ & _ & H2)%sorted_app)%sorted_app Hl] Hn. split; [|solve_len].
  apply sorted_app. split_and!; [|done..].
  intros x y Hx Hy. apply H; [done|]. rewrite fmap_app. by apply elem_of_app; right.
Qed.

(** Searching the root: the shared empty root is searched like a leaf. *)
Lemma hwp_search_root m n L key Q :
  map_at m n L -∗
  ((∀ hd v L1 L2, ⌜L = L1 ++ (key, v) :: L2 ∧ counted n L ∧ length_ m = n⌝ → found_at (root m) hd key v L1 L2 -∗ Q (Found hd)) ∧
   (∀ hd L1 L2, ⌜L = L1 ++ L2 ∧ below key L1 ∧ above key L2 ∧ counted n L ∧ length_ m = n⌝ →
      ((⌜root m = shared_empty_root ∧ L = [] ∧ n = 0⌝ ∧ emp) ∨ godown_at (root m) hd L1 L2) -∗ Q (GoDown hd))) -∗
  hwp (search_tree (root_ref (root m)) key : M _) Q.
Proof.
  iIntros "[[%Hn %Hs] [H|H]] HQ".
  - iDestruct "H" as ((Hr & -> & Hz)) "_". iApply (hwp_ext (mret (GoDown (Handle_ (root_ref (root m)) 0)))).
    { intros s. by rewrite Hr. }
    iApply hwp_ret. iDestruct "HQ" as "[_ HQ]". iApply ("HQ" $! _ [] []); [|by iLeft].
    iPureIntro. split_and!; [done|constructor|constructor|done..].
  - iDestruct "H" as (pi) "Ht".
    iApply (hwp_search_tree key (root m) L _ _ _ 0 _ _ _ [] L [] with "[] Ht"); cbn [root_ref height];
      [lia|by rewrite app_nil_r|apply Hs|constructor|constructor| |].
    + iSplit; [|done]. iPureIntro. split_and!; [done| |done..]. by destruct (root m).
    + iSplit.
      * iIntros (hd v L1 L2) "-> H". iDestruct "HQ" as "[HQ _]". by iApply ("HQ" with "[] H").
      * iIntros (hd L1 L2) "%H Hg". destruct H as (-> & Hb & Ha). iDestruct "HQ" as "[_ HQ]".
        iApply ("HQ" with "[]"); [done|]. by iRight.
Qed.

Lemma hwp_found_kv m n hd key v L1 L2 Q : length_ m = n → counted n (L1 ++ (key, v) :: L2) →
  found_at (root m) hd key v L1 L2 -∗ (map_at m n (L1 ++ (key, v) :: L2) -∗ Q (key, v)) -∗ hwp (into_kv hd : M _) Q.
Proof.
  iIntros (Hn Hs) "Hf HQ". iDestruct (found_open with "Hf") as (nd (Hp & Hk & Hv)) "[Hnd Hclose]".
  destruct hd as [[h p] i]. cbn [hnode node idx] in *.
  iApply (hwp_into_kv with "Hnd"); [done..|]. iIntros "Hnd". iApply "HQ".
  iApply map_at_root; [done..|]. iApply found_close. iApply "Hclose".
  rewrite !list_insert_id //. by destruct nd.
Qed.

Lemma godown_map_at m n hd L1 L2 : length_ m = n → counted n (L1 ++ L2) →
  ((⌜root m = shared_empty_root ∧ L1 ++ L2 = [] ∧ n = 0⌝ ∧ emp) ∨ godown_at (root m) hd L1 L2) ⊢ map_at m n (L1 ++ L2).
Proof.
  iIntros (Hn Hs) "Hg". iSplit; [done|]. iDestruct "Hg" as "[Hg|Hg]"; [by iLeft|iRight]. by iApply godown_close.
Qed.

(** Looking a key up: [get], [get_key_value]. *)
Lemma hwp_look_up {B} m n L key (kf : K * V → B) (none : B) Q :
  map_at m n L -∗
  ((∀ v L1 L2, ⌜L = L1 ++ (key, v) :: L2⌝ → map_at m n L -∗ Q (kf (key, v))) ∧
   (∀ L1 L2, ⌜L = L1 ++ L2 ∧ below key L1 ∧ above key L2⌝ → map_at m n L -∗ Q none)) -∗
  hwp (r ← search_tree (root_ref (root m)) key;
       match r with Found h => kv ← into_kv h; mret (kf kv) | GoDown _ => mret none end : M _) Q.
Proof.
  iIntros "Hm HQ". iApply hwp_bind. iApply (hwp_search_root with "Hm"). iSplit.
  - iIntros (hd v L1 L2) "%H Hf". destruct H as (-> & Hs & Hn). iDestruct "HQ" as "[HQ _]". iApply hwp_bind.
    iApply (hwp_found_kv with "Hf"); [done..|]. iIntros "Hm". iApply hwp_ret. by iApply ("HQ" with "[//]").
  - iIntros (hd L1 L2) "%H Hg". destruct H as (-> & Hb & Ha & Hs & Hn). iDestruct "HQ" as "[_ HQ]".
    iApply hwp_ret. iApply ("HQ" with "[//]"). by iApply (godown_map_at with "Hg").
Qed.

Lemma hwp_vacant_insert m hd key value L1 L2 Q :
  godown_at (root m) hd L1 L2 -∗
  ((∀ r' ptr, root_at r' (L1 ++ (key, value) :: L2) ∧ leaf_has ptr key value -∗ Q (BTreeMap_ r' (length_ m + 1), Ok ptr)) ∧
   (root_at (root m) (L1 ++ L2) -∗ Q (BTreeMap_ (root m) (length_ m + 1), Err AllocErr_)) ∧
   (damaged (root m) (L1 ++ (key, value) :: L2) -∗ Q (BTreeMap_ (root m) (length_ m + 1), Err AllocErr_))) -∗
  hwp (vacant_insert m hd key value : M _) Q.
Proof.
  iIntros "Hg HQ". iDestruct "Hg" as (n q par pi A' B' kvs1 kvs2 (-> & -> & ->)) "[Hc Ht]".
  assert (∀ l : list (K * V), (A' ++ kvs1) ++ l ++ kvs2 ++ B' = A' ++ (kvs1 ++ l ++ kvs2) ++ B') as Hassoc.
  { intros l. by rewrite -!app_assoc. }
  pose proof (Hassoc [(key, value)] : _ ++ (key, value) :: _ = _) as Hfit. cbn [app] in Hfit.
  unfold vacant_insert. cbn [root length_]. iApply hwp_bind. iApply (hwp_leaf_insert with "Ht"). iSplit; [|iSplit].
  - iIntros "[%Hl Hn]". destruct Hl as [Hl Hq]. iApply hwp_bind.
    iApply (hwp_into_kv with "Hn"); [done|apply lookup_middle..|]. iIntros "Hn".
    iApply hwp_ret. iDestruct "HQ" as "[HQ _]". iApply "HQ". rewrite Hfit.
    iDestruct (leaf_has_here _ _ (length kvs1) key value with "Hn") as "Hn"; [done|apply lookup_middle..|].
    iDestruct (leaf_has_frame with "Hn Hc") as "H". iSplit; [|iDestruct "H" as "[_ $]"]. iDestruct "H" as "[[Hn Hc] _]".
    iApply ctx_plug. iFrame "Hc". by iSplit.
  - iIntros (ptr k' v' [e h'] LL LR) "%H Ht". destruct H as [Heq Hh]. cbn [root_node root_height] in *. subst h'.
    iDestruct (leaf_has_frame with "Ht Hc") as "Ht". iApply hwp_assoc.
    iApply (hwp_wand with "[Ht]"); [iApply (hwp_keeps _ _ (λ '(r', res), match res with
      | Ok _ => root_at r' ((A' ++ kvs1) ++ (key, value) :: kvs2 ++ B')
      | Err _ => ⌜r' = root m⌝ ∧ damaged (root m) ((A' ++ kvs1) ++ (key, value) :: kvs2 ++ B')
      end)%I with "Ht"); [solve_keeps|]|].
    + iIntros "[[Ht He] Hc]". iDestruct (ctx_height with "Hc") as %Hh.
      iApply (hwp_insert_loop ((A' ++ kvs1) ++ (key, value) :: kvs2 ++ B') _ n with "Hc Ht [He]"); [lia| |by iExists _, _|].
      { rewrite Hfit Heq. by rewrite -!app_assoc. }
      iSplit; [by iIntros (r') "Hr"|]. iIntros "Hr". by iSplit.
    + iIntros ([r' [[]|[]]]) "H"; iApply hwp_ret.
      * iDestruct "HQ" as "[HQ _]". by iApply "HQ".
      * iDestruct "H" as "[[-> H] _]". iDestruct "HQ" as "[_ [_ HQ]]". by iApply "HQ".
  - iIntros "Ht". iApply hwp_ret. iDestruct "HQ" as "[_ [HQ _]]". iApply "HQ".
    rewrite (Hassoc []). iApply ctx_plug. iFrame.
Qed.

(** [entry]: the root becomes a node of the map; then the place of the key. *)
Lemma hwp_entry m n L key Q :
  map_at m n L -∗
  ((∀ m' hd v L1 L2, ⌜L = L1 ++ (key, v) :: L2 ∧ counted n L ∧ length_ m' = n⌝ → found_at (root m') hd key v L1 L2 -∗
      Q (m', Ok (Occupied hd))) ∧
   (∀ m' hd L1 L2, ⌜L = L1 ++ L2 ∧ below key L1 ∧ above key L2 ∧ counted n L ∧ length_ m' = n⌝ →
      godown_at (root m') hd L1 L2 -∗ Q (m', Ok (Vacant key hd))) ∧
   (⌜L = []⌝ → map_at m n L -∗ Q (m, Err AllocErr_))) -∗
  hwp (entry m key : M _) Q.
Proof.
  iIntros "Hm HQ".
  assert (∀ m0, map_at m0 n L ∧ ⌜root m0 ≠ shared_empty_root⌝ -∗
    ((∀ m' hd v L1 L2, ⌜L = L1 ++ (key, v) :: L2 ∧ counted n L ∧ length_ m' = n⌝ → found_at (root m') hd key v L1 L2 -∗
        Q (m', Ok (Occupied hd))) ∧
     (∀ m' hd L1 L2, ⌜L = L1 ++ L2 ∧ below key L1 ∧ above key L2 ∧ counted n L ∧ length_ m' = n⌝ →
        godown_at (root m') hd L1 L2 -∗ Q (m', Ok (Vacant key hd)))) -∗
    hwp (r ← search_tree (root_ref (root m0)) key;
         match r with
         | Found h => mret (m0, Ok (Occupied h))
         | GoDown h => mret (m0, Ok (Vacant key h))
         end : M _) Q) as Hsearch.
  { intros m0. iIntros "[Hm %Hne] HQ". iApply hwp_bind. iApply (hwp_search_root with "Hm"). iSplit.
    - iIntros (hd v L1 L2) "H Hf". iApply hwp_ret. iDestruct "HQ" as "[HQ _]". by iApply ("HQ" with "H").
    - iIntros (hd L1 L2) "H Hg". iApply hwp_ret. iDestruct "HQ" as "[_ HQ]". iApply ("HQ" with "H").
      iDestruct "Hg" as "[[%Hg _]|Hg]"; [|done]. by destruct Hg. }
  unfold entry, ensure_root_is_owned. iDestruct "Hm" as "[[%Hn %Hs] [H|H]]".
  - iDestruct "H" as ((Hr & -> & Hz)) "_". rewrite Hr. cbn [root_is_shared_root shared_empty_root root_node].
    rewrite /root_is_shared_root bool_decide_true //. iApply hwp_bind. iApply hwp_bind. iApply hwp_try.
    iApply hwp_box_new. iSplit.
    + iIntros (p) "%Hp Hp". do 2 iApply hwp_ret. iApply (Hsearch with "[Hp]").
      * iSplit.
        -- iApply map_at_root; [done..|]. iExists None. cbn [root root_height root_node least tree_at]. iSplit; [iPureIntro; solve_len|done].
        -- iPureIntro. cbn. unfold shared_empty_root, EMPTY_ROOT_NODE, STATIC_END in *. intros [=]. lia.
      * iSplit; [iDestruct "HQ" as "[HQ _]"|iDestruct "HQ" as "[_ [HQ _]]"]; done.
    + do 2 iApply hwp_ret. iDestruct "HQ" as "[_ [_ HQ]]". iApply ("HQ" with "[//]").
      iSplit; [done|]. iLeft. by iSplit.
  - iDestruct "H" as (pi) "Ht". iDestruct (tree_static with "Ht") as %Hp.
    rewrite /root_is_shared_root not_shared //. iApply hwp_bind. iApply hwp_ret. iApply (Hsearch with "[Ht]").
    + iSplit; [iApply map_at_root; [done..|by iExists pi]|]. iPureIntro. intros Hr. rewrite Hr in Hp. done.
    + iSplit; [iDestruct "HQ" as "[HQ _]"|iDestruct "HQ" as "[_ [HQ _]]"]; done.
Qed.

(** An insertion puts the entry at its place; or it fails before it has changed
    more than the count, or has lost a part of the entries. *)
Lemma hwp_insert m n L key value Q :
  map_at m n L -∗
  ((∀ (m' : BTreeMap) v L1 L2, ⌜L = L1 ++ (key, v) :: L2⌝ → map_at m' n (L1 ++ (key, value) :: L2) -∗ Q (m', Ok (Some v))) ∧
   (∀ m' L1 L2, ⌜L = L1 ++ L2 ∧ below key L1 ∧ above key L2⌝ → map_at m' (n + 1) (L1 ++ (key, value) :: L2) -∗
      Q (m', Ok None)) ∧
   (∀ m' (n' : nat) L1 L2, ⌜L = L1 ++ L2 ∧ below key L1 ∧ above key L2 ∧
        (n' = (n + 1)%nat ∨ m' = m ∧ n' = n ∧ L = [])⌝ → map_at m' n' L -∗ Q (m', Err AllocErr_)) ∧
   (∀ m' L1 L2 W1 k v lost W2, ⌜L = L1 ++ L2 ∧ below key L1 ∧ above key L2 ∧
        L1 ++ (key, value) :: L2 = W1 ++ (k, v) :: lost ++ W2⌝ →
      map_at m' (n + 1) (W1 ++ W2) -∗ (∃ h e par pi, tree_at h 4 e par pi lost) -∗ Q (m', Err AllocErr_))) -∗
  hwp (BTree.insert m key value : M _) Q.
Proof.
  iIntros "Hm HQ". iApply hwp_bind. iApply (hwp_entry with "Hm"). iSplit; [|iSplit].
  - iIntros (m' hd v L1 L2) "%H Hf". destruct H as (-> & Hs & Hn). iDestruct "HQ" as "[HQ _]". iApply hwp_bind.
    iDestruct (found_open with "Hf") as (nd (Hp & Hk & Hv)) "[Hnd Hclose]".
    destruct hd as [[h p] i]. cbn [hnode node idx] in *. iApply hwp_bind.
    iApply (hwp_into_kv with "Hnd"); [done..|]. iIntros "Hnd". iApply hwp_bind.
    iApply (hwp_update with "Hnd"); [done|]. iIntros "Hnd". do 2 iApply hwp_ret. iApply ("HQ" with "[//]").
    iApply map_at_root; [done|by eapply counted_replace|]. iApply found_close. iApply "Hclose".
    by rewrite (list_insert_id (keys nd)).
  - iIntros (m' hd L1 L2) "%H Hg". destruct H as (-> & Hb & Ha & Hs & <-). iApply hwp_bind.
    pose proof (counted_insert _ _ value _ _ Hs Hb Ha) as Hs'.
    iApply (hwp_vacant_insert with "Hg"). iSplit; [|iSplit].
    + iIntros (r' ptr) "[Hr _]". iApply hwp_ret. iDestruct "HQ" as "[_ [HQ _]]". iApply ("HQ" with "[//]").
      by iApply map_at_root.
    + iIntros "Hr". iApply hwp_ret. iDestruct "HQ" as "[_ [_ [HQ _]]]". iApply ("HQ" $! _ (length_ m' + 1) L1 L2); [iPureIntro; by eauto|].
      iApply map_at_root; [done|destruct Hs; split; [done|lia]|done].
    + iIntros "Hd". iApply hwp_ret. iDestruct "HQ" as "[_ [_ [_ HQ]]]".
      iDestruct "Hd" as (W1 k v lost W2 HW) "[Hr Hlost]".
      iApply ("HQ" $! _ L1 L2 W1 k v lost W2 with "[//] [Hr] Hlost").
      iApply map_at_root; [done| |done]. rewrite HW in Hs'. eapply (counted_remove _ _ W1 ((k, v) :: lost)); [exact Hs'|lia].
  - iIntros "-> Hm". iApply hwp_ret. iDestruct "HQ" as "[_ [_ [HQ _]]]". iApply ("HQ" $! m n [] []); [|done].
    iPureIntro. split_and!; [done|constructor|constructor|by right].
Qed.
End btree.
