(* ===== verification/Rebalance.v ===== *)
(** * Rebalance: removing from nodes, merging and stealing

    [sized h m p par pi L]: at [p] is a tree as in [NodeSpec] whose top node has
    exactly [m] keys.  Around a key of a node the entries stay the same whether its
    two children are merged or one steals from the other. *)

From S2P Require Import Prelude HeapLogic Node NodeSpec Kids.
From iris.proofmode Require Import proofmode.
From iris.prelude Require Import options.

#[local] Open Scope nat_scope.

Section sized.
Context {K V A : Type} `{!GlobalAlloc NodeLayout A}.
#[local] Abbreviation N := (Node K V).
#[local] Abbreviation M := (M (store N A)).
#[local] Abbreviation prop := (hProp N).
#[local] Notation "p ↦ n" := (points_to p n) (at level 20) : bi_scope.
Implicit Types (L : list (K * V)) (kvs : list (K * V)) (cs : list (Z * list (K * V))).

(** The top node of a tree of height [h], and what is below it. *)
Definition top_node h par pi kvs cs : N :=
  match h with O => leaf_node par pi kvs | S _ => inner_node par pi kvs cs.*1 end.
Definition below_at h p cs : prop := match h with O => emp | S h => children h p 0 cs end.
Definition shape h kvs cs : Prop := match h with O => cs = [] | S _ => length cs = S (length kvs) end.
Definition entries h kvs cs : list (K * V) := match h with O => kvs | S _ => inter cs.*2 kvs end.

Definition sized h m p par pi L : prop :=
  ∃ kvs cs, ⌜shape h kvs cs ∧ length kvs = m ∧ m ≤ CAPACITY ∧ (STATIC_END <= p)%Z ∧ L = entries h kvs cs⌝ ∧
    p ↦ top_node h par pi kvs cs ∗ below_at h p cs.

Lemma tree_sized h le p par pi L : tree_at h le p par pi L ⊢ ∃ m, ⌜le ≤ m⌝ ∧ sized h m p par pi L.
Proof.
  destruct h as [|h].
  - cbn [tree_at]. iIntros "[%H Hn]". destruct H as [[Hl Hu] Hp]. iExists (length L). iSplit; [done|].
    iExists L, []. iSplit; [done|]. iFrame.
  - iIntros "H". iDestruct (tree_inner_inv with "H") as (kvs cs ([Hl Hu] & Hp & Hcs & ->)) "[Hn Hcs]".
    iExists (length kvs). iSplit; [done|]. iExists kvs, cs. iSplit; [done|]. iFrame.
Qed.

Lemma sized_tree h le m p par pi L : le ≤ m → sized h m p par pi L ⊢ tree_at h le p par pi L.
Proof.
  iIntros (Hle) "(%kvs & %cs & %H & Hn & Hcs)". destruct H as (Hs & <- & Hc & Hp & ->).
  destruct h as [|h]; cbn in *.
  - subst cs. iSplit; [done|]. iFrame.
  - iExists kvs, cs. iSplit; [done|]. iFrame.
Qed.

Lemma sized_static h m p par pi L : sized h m p par pi L ⊢ ⌜(STATIC_END <= p)%Z ∧ m ≤ CAPACITY⌝.
Proof. iIntros "(%kvs & %cs & %H & _)". iPureIntro. naive_solver. Qed.

Lemma keys_top h par pi kvs cs : keys (top_node h par pi kvs cs) = kvs.*1.
Proof. by destruct h. Qed.
Lemma vals_top h par pi kvs cs : vals (top_node h par pi kvs cs) = kvs.*2.
Proof. by destruct h. Qed.

Lemma set_kvs_top h par pi kvs cs kvs' :
  set_kvs kvs'.*1 kvs'.*2 (top_node h par pi kvs cs) = top_node h par pi kvs' cs.
Proof. by destruct h. Qed.

Lemma entries_split h kvs1 kv kvs2 cs1 cs2 : shape h kvs1 cs1 → shape h kvs2 cs2 →
  entries h (kvs1 ++ kv :: kvs2) (cs1 ++ cs2) = entries h kvs1 cs1 ++ kv :: entries h kvs2 cs2.
Proof.
  destruct h as [|h]; cbn; [done|]. intros H1 H2. rewrite fmap_app inter_split ?length_fmap //. by destruct cs2.
Qed.

Lemma hwp_len_sized h h' m p par pi L Q :
  sized h m p par pi L -∗ (sized h m p par pi L -∗ Q m) -∗ hwp (len (NodeRef_ h' p) : M nat) Q.
Proof.
  iIntros "(%kvs & %cs & %H & Hn & Hcs) HQ". destruct H as (Hs & Hm & Hc & Hp & HL).
  iApply (hwp_len with "Hn"); [done|]. iIntros "Hn". rewrite keys_top length_fmap Hm. iApply "HQ".
  iExists kvs, cs. iSplit; [done|]. iFrame.
Qed.

(** [remove] of the key at an index of a leaf. *)
Lemma hwp_leaf_remove p par pi kvs1 k v kvs2 Q : (STATIC_END <= p)%Z → length kvs1 + length kvs2 < CAPACITY →
  p ↦ leaf_node par pi (kvs1 ++ (k, v) :: kvs2) -∗
  (sized 0 (length kvs1 + length kvs2) p par pi (kvs1 ++ kvs2) -∗
     Q (Handle_ (NodeRef_ 0 p) (length kvs1), k, v)) -∗
  hwp (leaf_remove (Handle_ (NodeRef_ 0 p) (length kvs1)) : M _) Q.
Proof.
  iIntros (Hp Hc) "Hn HQ". unfold leaf_remove, is_shared_root. simpl_node. rewrite not_shared //.
  iApply hwp_bind. iApply hwp_debug_assert; [done|]. iApply hwp_bind. iApply (hwp_load with "Hn"). iIntros "Hn".
  do 2 (iApply hwp_bind; iApply hwp_get_unchecked; [apply lookup_middle|]).
  iApply hwp_bind. iApply (hwp_update with "Hn"); [done|]. iIntros "Hn".
  assert (set_kvs (slice_remove (keys (leaf_node par pi (kvs1 ++ (k, v) :: kvs2))) (length kvs1))
            (slice_remove (vals (leaf_node par pi (kvs1 ++ (k, v) :: kvs2))) (length kvs1))
            (leaf_node par pi (kvs1 ++ (k, v) :: kvs2)) = leaf_node par pi (kvs1 ++ kvs2)) as ->.
  { unfold leaf_node, set_kvs. cbn. by rewrite !fmap_app !fmap_cons !slice_remove_app ?length_fmap. }
  iApply hwp_bind. iApply (hwp_new_edge with "Hn"); [done|solve_len|]. iIntros "Hn". iApply hwp_ret.
  iApply "HQ". iExists (kvs1 ++ kvs2), []. iSplit; [iPureIntro; cbn; split_and!; (done || solve_len)|]. by iFrame.
Qed.
End sized.

Section siblings.
Context {K V A : Type} `{!GlobalAlloc NodeLayout A}.
#[local] Abbreviation N := (Node K V).
#[local] Abbreviation M := (M (store N A)).
#[local] Abbreviation prop := (hProp N).
#[local] Notation "p ↦ n" := (points_to p n) (at level 20) : bi_scope.
Implicit Types (L : list (K * V)) (kvs : list (K * V)) (cs : list (Z * list (K * V))).

(** A node [q] with the children [a] and [b] around the key behind [kvs1]. *)
Definition pair_at h q par pi kvs1 kv kvs2 (es1 : list Z) ma a La mb b Lb (es2 : list Z) : prop :=
  ⌜length es1 = length kvs1 ∧ length es2 = length kvs2 ∧ (STATIC_END <= q)%Z⌝ ∧
  q ↦ inner_node par pi (kvs1 ++ kv :: kvs2) (es1 ++ a :: b :: es2) ∗
  sized h ma a (Some q) (Some (length kvs1)) La ∗
  sized h mb b (Some q) (Some (S (length kvs1))) Lb.

Lemma pair_lengths h q par pi kvs1 kv kvs2 es1 ma a La mb b Lb es2 :
  pair_at h q par pi kvs1 kv kvs2 es1 ma a La mb b Lb es2 ⊢
  ⌜length es1 = length kvs1 ∧ length es2 = length kvs2 ∧ (STATIC_END <= q)%Z⌝.
Proof. iIntros "[% _]". done. Qed.

(** The two children of a key and their sizes. *)
Section pair.
Context (h : nat) (q : Z) (par : option Z) (pi : option nat) (kvs1 : list (K * V)) (kv : K * V) (kvs2 : list (K * V)).
Context (es1 : list Z) (ma : nat) (a : Z) (La : list (K * V)) (mb : nat) (b : Z) (Lb : list (K * V)) (es2 : list Z).
#[local] Abbreviation pair := (pair_at h q par pi kvs1 kv kvs2 es1 ma a La mb b Lb es2).

Lemma hwp_pair_edge i Q : i ≤ length kvs1 + 1 →
  pair -∗ (pair -∗ Q (Handle_ (NodeRef_ (S h) q) i)) -∗ hwp (new_edge (NodeRef_ (S h) q) i : M _) Q.
Proof.
  iIntros (Hi) "[%H [Hn Hab]] HQ". destruct H as (H1 & H2 & Hq).
  iApply (hwp_new_edge with "Hn"); [done|solve_len|]. iIntros "Hn". iApply "HQ". iSplit; [done|]. iFrame.
Qed.

Lemma hwp_pair_left Q :
  pair -∗ (pair -∗ Q (NodeRef_ h a)) -∗ hwp (descend (Handle_ (NodeRef_ (S h) q) (length kvs1)) : M _) Q.
Proof.
  iIntros "[%H [Hn Hab]] HQ". destruct H as (H1 & H2 & Hq).
  iApply (hwp_descend with "Hn"); [done|by apply lookup_left|]. iIntros "Hn". rewrite /= Nat.sub_0_r.
  iApply "HQ". iSplit; [done|]. iFrame.
Qed.

Lemma hwp_pair_right Q :
  pair -∗ (pair -∗ Q (NodeRef_ h b)) -∗ hwp (descend (Handle_ (NodeRef_ (S h) q) (length kvs1 + 1)) : M _) Q.
Proof.
  iIntros "[%H [Hn Hab]] HQ". destruct H as (H1 & H2 & Hq).
  iApply (hwp_descend with "Hn"); [done|by apply lookup_right|]. iIntros "Hn". rewrite /= Nat.sub_0_r.
  iApply "HQ". iSplit; [done|]. iFrame.
Qed.

Lemma hwp_pair_left_len Q : pair -∗ (pair -∗ Q ma) -∗ hwp (len (NodeRef_ h a) : M _) Q.
Proof.
  iIntros "[%H (Hn & Ha & Hb)] HQ". iApply (hwp_len_sized with "Ha"). iIntros "Ha". iApply "HQ".
  iSplit; [done|]. iFrame.
Qed.

Lemma hwp_pair_right_len Q : pair -∗ (pair -∗ Q mb) -∗ hwp (len (NodeRef_ h b) : M _) Q.
Proof.
  iIntros "[%H (Hn & Ha & Hb)] HQ". iApply (hwp_len_sized with "Hb"). iIntros "Hb". iApply "HQ".
  iSplit; [done|]. iFrame.
Qed.

Lemma hwp_can_merge Q :
  pair -∗ (pair -∗ Q (ma + mb + 1 <=? CAPACITY)) -∗
  hwp (can_merge (Handle_ (NodeRef_ (S h) q) (length kvs1)) : M _) Q.
Proof.
  iIntros "Hp HQ".
  iApply hwp_bind. iApply (hwp_pair_edge with "Hp"); [cbn; lia|]. iIntros "Hp".
  iApply hwp_bind. iApply hwp_bind. iApply (hwp_pair_left with "Hp"). iIntros "Hp".
  iApply (hwp_pair_left_len with "Hp"). iIntros "Hp".
  iApply hwp_bind. iApply (hwp_pair_edge with "Hp"); [cbn; lia|]. iIntros "Hp".
  iApply hwp_bind. iApply hwp_bind. iApply (hwp_pair_right with "Hp"). iIntros "Hp".
  iApply (hwp_pair_right_len with "Hp"). iIntros "Hp".
  iApply hwp_ret. by iApply "HQ".
Qed.
End pair.

(** Such a node as a node over subtrees. *)
Lemma shape_fits h kvs cs : shape h kvs cs → fits h kvs (tree_kid (h - 1) 4 <$> cs).
Proof. destruct h; cbn; [by intros ->|by rewrite length_fmap]. Qed.

Lemma node_top h p par pi kvs cs : shape h kvs cs →
  p ↦ top_node h par pi kvs cs ∗ below_at h p cs ⊣⊢
  p ↦ top_of h par pi kvs (kid_at <$> (tree_kid (h - 1) 4 <$> cs)) ∗ kids p 0 (tree_kid (h - 1) 4 <$> cs).
Proof.
  destruct h as [|h]; cbn [shape top_node top_of below_at]; [intros ->; by rewrite kids_nil|intros _].
  by rewrite kids_at Nat.sub_succ Nat.sub_0_r kids_children.
Qed.

Lemma sized_node h m p par pi L : sized h m p par pi L ⊢ ∃ kvs cs,
  ⌜shape h kvs cs ∧ length kvs = m ∧ L = entries h kvs cs⌝ ∧ node_at h p par pi kvs (tree_kid (h - 1) 4 <$> cs).
Proof.
  iIntros "(%kvs & %cs & %H & H)". destruct H as (Hs & Hm & Hc & Hp & ->). iExists kvs, cs. iSplit; [done|].
  iSplit; [iPureIntro; split_and!; [by apply shape_fits|lia|done|apply trees_linkable]|]. by rewrite -node_top.
Qed.

Lemma node_at_sized h p par pi kvs cs : shape h kvs cs →
  node_at h p par pi kvs (tree_kid (h - 1) 4 <$> cs) ⊢ sized h (length kvs) p par pi (entries h kvs cs).
Proof.
  iIntros (Hs) "[%H H]". destruct H as (_ & Hc & Hp & _). iExists kvs, cs. iSplit; [done|]. by rewrite node_top.
Qed.

Lemma hwp_merge h q par pi kvs1 k v kvs2 es1 ma a La mb b Lb cs2 Q : ma + mb + 1 ≤ CAPACITY →
  length kvs1 + S (length kvs2) ≤ CAPACITY →
  pair_at h q par pi kvs1 (k, v) kvs2 es1 ma a La mb b Lb cs2.*1 -∗ children h q (S (S (length kvs1))) cs2 -∗
  (q ↦ inner_node par pi (kvs1 ++ kvs2) (es1 ++ a :: cs2.*1) -∗
     sized h (ma + mb + 1) a (Some q) (Some (length kvs1)) (La ++ (k, v) :: Lb) -∗
     children h q (S (length kvs1)) cs2 -∗ Q (Handle_ (NodeRef_ (S h) q) (length kvs1))) -∗
  hwp (Node.merge (Handle_ (NodeRef_ (S h) q) (length kvs1)) : M _) Q.
Proof.
  iIntros (Hab Hcap) "[%H (Hn & Ha & Hb)] Hcs2 HQ".
  iDestruct (sized_node with "Ha") as (ka ca (Hsa & <- & ->)) "Ha".
  iDestruct (sized_node with "Hb") as (kb cb (Hsb & <- & ->)) "Hb".
  rewrite -kids_children. iApply (hwp_merge_kids with "[Hn Ha Hb] Hcs2"); [done|done|apply trees_linkable|..].
  { rewrite kids_at. iSplit; [done|]. iFrame. }
  rewrite kids_at -fmap_app. iIntros "Hn Ha Hcs2". rewrite kids_children. iApply ("HQ" with "Hn [Ha] Hcs2").
  rewrite -entries_split //. assert (length ka + length kb + 1 = length (ka ++ (k, v) :: kb)) as -> by solve_len.
  iApply (node_at_sized with "Ha"). destruct h; cbn in *; [by subst|solve_len].
Qed.

(** ** Stealing *)

(** What comes along with a key that leaves a node: an edge, if it is internal. *)
Definition edge_at h (edge : option Root) Le : prop :=
  match h, edge with
  | O, None => ⌜Le = []⌝ ∧ emp
  | S h, Some r => ⌜root_height r = h⌝ ∧ ∃ par pi, tree_at h 4 (root_node r) par pi Le
  | _, _ => False
  end.

Lemma inter_snoc (c : Z * list (K * V)) cs kv kvs : length cs = S (length kvs) →
  inter (cs ++ [c]).*2 (kvs ++ [kv]) = inter cs.*2 kvs ++ kv :: c.2.
Proof. intros H. rewrite fmap_app inter_split ?length_fmap //. cbn. by rewrite app_nil_r. Qed.

Lemma inter_cons (c : Z * list (K * V)) cs kv kvs : length cs = S (length kvs) →
  inter (c :: cs).*2 (kv :: kvs) = c.2 ++ kv :: inter cs.*2 kvs.
Proof.
  intros H. pose proof (inter_split [c.2] cs.*2 [] kv kvs eq_refl) as Hs. cbn in *. rewrite app_nil_r in Hs.
  apply Hs. by destruct cs.
Qed.

Lemma tree_set_parent h le p par pi L Q :
  tree_at h le p par pi L -∗ (tree_at h le p None pi L -∗ Q tt) -∗ hwp (update p (set_parent None) : M unit) Q.
Proof.
  iIntros "Ht HQ". iDestruct (tree_link with "Ht") as (n (Hs & _ & <-)) "[Hn Hclose]".
  iApply (hwp_update with "Hn"); [done|]. iIntros "Hn". iApply "HQ". by iApply "Hclose".
Qed.

Lemma snoc_inv {T} (l : list T) n : length l = S n → ∃ l' x, l = l' ++ [x] ∧ length l' = n.
Proof. destruct l as [|x l _] using rev_ind; [done|]. rewrite length_app Nat.add_1_r. intros [=]. by exists l, x. Qed.

Lemma hwp_pop h m p par pi L Q :
  sized h (S m) p par pi L -∗
  (∀ k v edge L' Le, ⌜L = L' ++ (k, v) :: Le⌝ → sized h m p par pi L' -∗ edge_at h edge Le -∗ Q (k, v, edge)) -∗
  hwp (pop (NodeRef_ h p) : M _) Q.
Proof.
  iIntros "(%kvs & %cs & %H & Hn & Hcs) HQ". destruct H as (Hs & Hm & Hc & Hp & ->).
  apply snoc_inv in Hm as (kvs' & [k v] & -> & <-). unfold pop. cbn [node height].
  iApply hwp_bind. iApply (hwp_len with "Hn"); [done|]. iIntros "Hn". rewrite keys_top.
  assert (length (kvs' ++ [(k, v)]).*1 = S (length kvs')) as -> by solve_len. rewrite Nat.sub_succ Nat.sub_0_r.
  iApply hwp_bind. iApply hwp_debug_assert; [done|]. iApply hwp_bind. iApply (hwp_load with "Hn"). iIntros "Hn".
  rewrite keys_top vals_top. do 2 (iApply hwp_bind; iApply hwp_get_unchecked; [apply lookup_middle|]).
  destruct h as [|h]; cbn [force height shape top_node below_at entries] in *.
  - subst cs. iApply hwp_bind. iApply (hwp_update with "Hn"); [done|]. iIntros "Hn". iApply hwp_ret.
    iApply ("HQ" with "[//] [Hn] []"); [|by iSplit]. iExists kvs', [].
    iSplit; [iPureIntro; cbn; split_and!; (done || solve_len)|]. iSplitL; [|done].
    unfold leaf_node, set_kvs. cbn. by rewrite !take_middle.
  - apply snoc_inv in Hs as (cs' & [e Le] & -> & Hcs'). rewrite length_app Nat.add_1_r /= in Hcs'.
    iApply hwp_bind. iApply hwp_edges_of; [done|]. iApply hwp_bind. iApply hwp_get_unchecked.
    { rewrite Nat.add_1_r -Hcs'. apply lookup_middle. }
    rewrite children_app children_cons. iDestruct "Hcs" as "(Hcs & He & _)".
    iApply hwp_bind. iApply (tree_set_parent with "He"). iIntros "He".
    iApply hwp_bind. iApply (hwp_update with "Hn"); [done|]. iIntros "Hn". iApply hwp_ret.
    iApply ("HQ" $! k v _ (inter cs'.*2 kvs') Le with "[] [Hn Hcs] [He]").
    + iPureIntro. by apply (inter_snoc (e, Le)).
    + iExists kvs', cs'. iSplit; [iPureIntro; cbn; split_and!; (done || solve_len)|]. iFrame.
      unfold inner_node, set_kvs, set_edges. cbn. rewrite !take_middle -Hcs' take_middle. iFrame.
    + iSplit; [iPureIntro; cbn; lia|]. iExists None, _. iFrame.
Qed.

Lemma hwp_pop_front h m p par pi L Q :
  sized h (S m) p par pi L -∗
  (∀ k v edge L' Le, ⌜L = Le ++ (k, v) :: L'⌝ → sized h m p par pi L' -∗ edge_at h edge Le -∗ Q (k, v, edge)) -∗
  hwp (pop_front (NodeRef_ h p) : M _) Q.
Proof.
  iIntros "(%kvs & %cs & %H & Hn & Hcs) HQ". destruct H as (Hs & Hm & Hc & Hp & ->).
  destruct kvs as [|[k v] kvs]; [done|]. injection Hm as <-. unfold pop_front. cbn [node height].
  iApply hwp_bind. iApply (hwp_len with "Hn"); [done|]. iIntros "Hn".
  iApply hwp_bind. iApply hwp_debug_assert; [by rewrite keys_top|].
  iApply hwp_bind. iApply (hwp_load with "Hn"). iIntros "Hn". rewrite keys_top vals_top.
  do 2 (iApply hwp_bind; iApply hwp_get_unchecked; [done|]).
  iApply hwp_bind. iApply (hwp_update with "Hn"); [by destruct h|]. iIntros "Hn". rewrite keys_top vals_top.
  change (slice_remove ((k, v) :: kvs).*1 0) with kvs.*1. change (slice_remove ((k, v) :: kvs).*2 0) with kvs.*2.
  rewrite set_kvs_top.
  destruct h as [|h]; cbn [force height shape top_node below_at entries] in *.
  - subst cs. iApply hwp_ret. iApply ("HQ" $! k v None kvs [] with "[//] [Hn] []"); [|by iSplit]. iExists kvs, [].
    iSplit; [iPureIntro; cbn; split_and!; (done || solve_len)|]. by iFrame.
  - destruct cs as [|[e Le] cs]; [done|]. injection Hs as Hs. rewrite children_cons. iDestruct "Hcs" as "[He Hcs]".
    iApply hwp_bind. iApply hwp_edges_of; [done|]. iApply hwp_bind. iApply hwp_get_unchecked; [done|].
    iApply hwp_bind. iApply (hwp_update with "Hn"); [done|]. iIntros "Hn".
    iApply hwp_bind. iApply (tree_set_parent with "He"). iIntros "He". iDestruct (children_orphans with "Hcs") as "Hcs".
    iApply hwp_bind. iApply (hwp_correct_links _ _ _ cs.*1 cs h 0 with "Hn Hcs"); [done|done|solve_len|solve_len|done|].
    iIntros "Hn Hcs". iApply hwp_ret. iApply ("HQ" $! k v _ (inter cs.*2 kvs) Le with "[] [Hn Hcs] [He]").
    + iPureIntro. by apply (inter_cons (e, Le)).
    + iExists kvs, cs. iSplit; [iPureIntro; cbn; split_and!; (done || solve_len)|]. iFrame.
    + iSplit; [iPureIntro; cbn; lia|]. iExists None, _. iFrame.
Qed.

(** The second half of a steal: the key goes to the other child. *)
Lemma hwp_push_front h m p par pi L k v edge Le msg Q : m < CAPACITY →
  sized h m p par pi L -∗ edge_at h edge Le -∗ (sized h (S m) p par pi (Le ++ (k, v) :: L) -∗ Q tt) -∗
  hwp (match force (NodeRef_ h p) with
       | Leaf leaf => leaf_push_front leaf k v
       | Internal internal => edge ← expect edge msg; internal_push_front internal k v edge
       end : M unit) Q.
Proof.
  iIntros (Hlt) "(%kvs & %cs & %H & Hn & Hcs) He HQ". destruct H as (Hs & <- & Hc & Hp & ->).
  destruct h as [|h], edge as [[e h']|]; cbn [force height shape top_node below_at entries edge_at];
    [by iDestruct "He" as "[]"| | |by iDestruct "He" as "[]"]; cbn in Hs; try subst cs.
  - iDestruct "He" as (->) "_". unfold leaf_push_front, is_shared_root. cbn [node]. rewrite not_shared //.
    iApply hwp_bind. iApply (hwp_len with "Hn"); [done|]. iIntros "Hn".
    do 2 (iApply hwp_bind; iApply hwp_debug_assert; [solve_len|]).
    iApply (hwp_update with "Hn"); [done|]. iIntros "Hn". iApply "HQ". iExists ((k, v) :: kvs), [].
    iSplit; [iPureIntro; cbn; split_and!; (done || solve_len)|]. by iFrame.
  - iDestruct "He" as (Hh) "He". cbn in Hh. subst h'. iApply hwp_bind. iApply hwp_expect; [done|].
    unfold internal_push_front. simpl_node.
    iApply hwp_bind. iApply hwp_debug_assert; [solve_len|].
    iApply hwp_bind. iApply (hwp_len with "Hn"); [done|]. iIntros "Hn".
    iApply hwp_bind. iApply hwp_debug_assert; [solve_len|].
    iApply hwp_bind. iApply (hwp_load with "Hn"). iIntros "Hn". iApply hwp_bind. iApply hwp_edges_of; [done|].
    iApply hwp_bind. iApply (hwp_update with "Hn"); [done|]. iIntros "Hn".
    change (set_edges (slice_insert cs.*1 0 e)
      (set_kvs (slice_insert (keys (inner_node par pi kvs cs.*1)) 0 k) (slice_insert (vals (inner_node par pi kvs cs.*1)) 0 v)
         (inner_node par pi kvs cs.*1))) with (inner_node par pi ((k, v) :: kvs) ((e, Le) :: cs).*1).
    iApply hwp_bind. iApply (hwp_len with "Hn"); [done|]. iIntros "Hn". iDestruct (children_orphans with "Hcs") as "Hcs".
    iApply (hwp_correct_links _ _ _ ((e, Le) :: cs).*1 ((e, Le) :: cs) h 0 with "Hn [He Hcs]"); [done|done|solve_len|solve_len|done| |].
    { rewrite orphans_cons. iFrame. }
    iIntros "Hn Hcs". iApply "HQ". iExists ((k, v) :: kvs), ((e, Le) :: cs).
    iSplit; [iPureIntro; cbn [entries]; rewrite inter_cons //; cbn; split_and!; (done || solve_len)|]. iFrame.
Qed.

Lemma hwp_push h m p par pi L k v edge Le msg Q : m < CAPACITY →
  sized h m p par pi L -∗ edge_at h edge Le -∗ (sized h (S m) p par pi (L ++ (k, v) :: Le) -∗ Q tt) -∗
  hwp (match force (NodeRef_ h p) with
       | Leaf leaf => leaf_push leaf k v
       | Internal internal => edge ← expect edge msg; internal_push internal k v edge
       end : M unit) Q.
Proof.
  iIntros (Hlt) "(%kvs & %cs & %H & Hn & Hcs) He HQ". destruct H as (Hs & <- & Hc & Hp & ->).
  destruct h as [|h], edge as [[e h']|]; cbn [force height shape top_node below_at entries edge_at];
    [by iDestruct "He" as "[]"| | |by iDestruct "He" as "[]"]; cbn in Hs; try subst cs.
  - iDestruct "He" as (->) "_". unfold leaf_push, is_shared_root. cbn [node]. rewrite not_shared //.
    iApply hwp_bind. iApply (hwp_len with "Hn"); [done|]. iIntros "Hn".
    do 2 (iApply hwp_bind; iApply hwp_debug_assert; [solve_len|]).
    iApply (hwp_update with "Hn"); [done|]. iIntros "Hn". iApply "HQ". iExists (kvs ++ [(k, v)]), [].
    iSplit; [iPureIntro; cbn; split_and!; (done || solve_len)|]. iSplitL; [|done].
    rewrite -(set_kvs_top 0 par pi kvs [] (kvs ++ [(k, v)])) !fmap_app. iExact "Hn".
  - iDestruct "He" as (Hh) "He". cbn in Hh. subst h'. iApply hwp_bind. iApply hwp_expect; [done|].
    iApply (hwp_internal_push with "Hn Hcs He"); [done|done|done|]. iIntros "Hn Hcs". iApply "HQ".
    iExists (kvs ++ [(k, v)]), (cs ++ [(e, Le)]).
    iSplit; [iPureIntro; cbn [entries]; rewrite inter_snoc //; cbn; split_and!; (done || solve_len)|]. iFrame.
Qed.

(** [mem::replace] of an entry of a node. *)
Lemma hwp_replace_kv h q par pi kvs1 k v kvs2 es k' v' Q : (STATIC_END <= q)%Z →
  q ↦ Node_ par pi (kvs1 ++ (k, v) :: kvs2).*1 (kvs1 ++ (k, v) :: kvs2).*2 es -∗
  (q ↦ Node_ par pi (kvs1 ++ (k', v') :: kvs2).*1 (kvs1 ++ (k', v') :: kvs2).*2 es -∗ Q (k, v)) -∗
  hwp (replace_kv (Handle_ (NodeRef_ h q) (length kvs1)) k' v' : M _) Q.
Proof.
  iIntros (Hq) "Hn HQ". iApply hwp_bind. iApply (hwp_into_kv with "Hn"); [done|apply lookup_middle..|].
  iIntros "Hn". iApply hwp_bind. iApply (hwp_update with "Hn"); [done|]. cbn [idx]. rewrite set_kvs_middle.
  iIntros "Hn". iApply hwp_ret. by iApply "HQ".
Qed.

Section steal.
Context (h : nat) (q : Z) (par : option Z) (pi : option nat) (kvs1 : list (K * V)) (kv : K * V) (kvs2 : list (K * V)).
Context (es1 : list Z) (ma : nat) (a : Z) (La : list (K * V)) (mb : nat) (b : Z) (Lb : list (K * V)) (es2 : list Z).
#[local] Abbreviation pair := (pair_at h q par pi kvs1).

Lemma hwp_steal_left Q : mb < CAPACITY →
  pair kv kvs2 es1 (S ma) a La mb b Lb es2 -∗
  (∀ kv' La' Lb', ⌜La ++ kv :: Lb = La' ++ kv' :: Lb'⌝ → pair kv' kvs2 es1 ma a La' (S mb) b Lb' es2 -∗ Q tt) -∗
  hwp (steal_left (Handle_ (NodeRef_ (S h) q) (length kvs1)) : M _) Q.
Proof using All.
  destruct kv as [k v]. iIntros (Hmb) "Hp HQ".
  iApply hwp_bind. iApply (hwp_pair_edge with "Hp"); [cbn; lia|]. iIntros "Hp".
  iApply hwp_bind. iApply (hwp_pair_left with "Hp"). iIntros "[%H (Hn & Ha & Hb)]". pose proof H as (H1 & H2 & Hq).
  iApply hwp_bind. iApply (hwp_pop with "Ha"). iIntros (k' v' edge La' Le ->) "Ha He".
  iApply hwp_bind. iApply (hwp_replace_kv with "Hn"); [done|]. iIntros "Hn".
  iApply hwp_bind. iApply (hwp_pair_edge h q par pi kvs1 (k', v') with "[$Hn $Ha $Hb //]"); [cbn; lia|]. iIntros "Hp".
  iApply hwp_bind. iApply (hwp_pair_right with "Hp"). iIntros "[_ (Hn & Ha & Hb)]".
  iApply (hwp_push_front with "Hb He"); [done|]. iIntros "Hb".
  iApply ("HQ" $! (k', v') La' (Le ++ (k, v) :: Lb)); [iPureIntro; by rewrite -app_assoc|].
  iSplit; [done|]. iFrame.
Qed.

Lemma hwp_steal_right Q : ma < CAPACITY →
  pair kv kvs2 es1 ma a La (S mb) b Lb es2 -∗
  (∀ kv' La' Lb', ⌜La ++ kv :: Lb = La' ++ kv' :: Lb'⌝ → pair kv' kvs2 es1 (S ma) a La' mb b Lb' es2 -∗ Q tt) -∗
  hwp (steal_right (Handle_ (NodeRef_ (S h) q) (length kvs1)) : M _) Q.
Proof using All.
  destruct kv as [k v]. iIntros (Hma) "Hp HQ".
  iApply hwp_bind. iApply (hwp_pair_edge with "Hp"); [cbn; lia|]. iIntros "Hp".
  iApply hwp_bind. iApply (hwp_pair_right with "Hp"). iIntros "[%H (Hn & Ha & Hb)]". pose proof H as (H1 & H2 & Hq).
  iApply hwp_bind. iApply (hwp_pop_front with "Hb"). iIntros (k' v' edge Lb' Le ->) "Hb He".
  iApply hwp_bind. iApply (hwp_replace_kv with "Hn"); [done|]. iIntros "Hn".
  iApply hwp_bind. iApply (hwp_pair_edge h q par pi kvs1 (k', v') with "[$Hn $Ha $Hb //]"); [cbn; lia|]. iIntros "Hp".
  iApply hwp_bind. iApply (hwp_pair_left with "Hp"). iIntros "[_ (Hn & Ha & Hb)]".
  iApply (hwp_push with "Ha He"); [done|]. iIntros "Ha".
  iApply ("HQ" $! (k', v') (La ++ (k, v) :: Le) Lb'); [iPureIntro; by rewrite -app_assoc|].
  iSplit; [done|]. iFrame.
Qed.
End steal.
End siblings.
