(* ===== verification/BTreeRemove.v ===== *)
(** * BTreeRemove: removal from the B-tree map

    A node that has become too small is merged with a sibling or steals from one;
    a merge takes a key from the parent, which may then be too small itself.  A key
    of an internal node is replaced by the next greater one, from a leaf. *)

From S2P Require Import Prelude HeapLogic Node NodeSpec Kids BTree BTreeSpec Rebalance.
From iris.proofmode Require Import proofmode.
From iris.prelude Require Import options.

#[local] Open Scope nat_scope.

Section remove.
Context {K V A : Type} `{!Ord K, !GlobalAlloc NodeLayout A}.
#[local] Abbreviation N := (Node K V).
#[local] Abbreviation M := (M (store N A)).
#[local] Notation "p ↦ n" := (points_to p n) (at level 20) : bi_scope.
Implicit Types (L : list (K * V)) (kvs : list (K * V)) (cs : list (Z * list (K * V))).

Lemma node_sized h q par pi kvs cs L :
  length cs = S (length kvs) → length kvs ≤ CAPACITY → (STATIC_END <= q)%Z → L = inter cs.*2 kvs →
  q ↦ inner_node par pi kvs cs.*1 -∗ children h q 0 cs -∗ sized (S h) (length kvs) q par pi L.
Proof. iIntros (H1 H2 Hq ->) "Hn Hcs". iExists kvs, cs. iSplit; [done|]. iFrame. Qed.

Lemma hwp_ascend_sized h m p par pi L Q : (par = None ∨ ∃ i, pi = Some i) →
  sized h m p par pi L -∗
  (sized h m p par pi L -∗ Q (match par, pi with
                              | Some q, Some i => Ok (Handle_ (NodeRef_ (S h) q) i)
                              | _, _ => Err (NodeRef_ h p)
                              end)) -∗ hwp (ascend (NodeRef_ h p) : M _) Q.
Proof.
  iIntros (Hpar) "(%kvs & %cs & %H & Hn & Hcs) HQ". destruct H as (Hs & Hm & Hc & Hp & HL).
  assert (parent (top_node h par pi kvs cs) = par ∧ parent_idx (top_node h par pi kvs cs) = pi) as [E1 E2] by by destruct h.
  iApply (hwp_ascend with "Hn"); [done|by rewrite E1 E2|]. iIntros "Hn". rewrite E1 E2. iApply "HQ".
  iExists kvs, cs. iSplit; [done|]. iFrame.
Qed.

(** Merging or stealing around a key keeps the entries of the node. *)
Lemma hwp_fix_pair (is_left : bool) h q par pi kvs1 kv kvs2 cs1 ma a La mb b Lb cs2 Q :
  length kvs1 + S (length kvs2) ≤ CAPACITY →
  3 ≤ (if is_left then mb else ma) < 5 → 4 ≤ (if is_left then ma else mb) →
  let L := inter (cs1 ++ (a, La) :: (b, Lb) :: cs2).*2 (kvs1 ++ kv :: kvs2) in
  let handle := Handle_ (NodeRef_ (S h) q) (length kvs1) in
  children h q 0 cs1 -∗ pair_at h q par pi kvs1 kv kvs2 cs1.*1 ma a La mb b Lb cs2.*1 -∗
  children h q (S (S (length kvs1))) cs2 -∗
  ((sized (S h) (length kvs1 + length kvs2) q par pi L -∗ Q (Merged (NodeRef_ (S h) q))) ∧
   (sized (S h) (length kvs1 + S (length kvs2)) q par pi L -∗ Q (Stole (NodeRef_ (S h) q)))) -∗
  hwp (m ← can_merge handle;
       if m : bool then e ← Node.merge handle; mret (Merged (hnode e))
       else _ ← (if is_left then steal_left handle else steal_right handle); mret (Stole (hnode handle)) : M _) Q.
Proof.
  destruct kv as [k v]. iIntros (Hc Hsmall Hbig L handle) "Hcs1 Hp Hcs2 HQ".
  iDestruct (pair_lengths with "Hp") as %(H1 & H2 & Hq). rewrite !length_fmap in H1 H2.
  iApply hwp_bind. iApply (hwp_can_merge with "Hp"). iIntros "Hp".
  destruct (ma + mb + 1 <=? CAPACITY) eqn:E.
  - apply Nat.leb_le in E. iApply hwp_bind. iApply (hwp_merge with "Hp Hcs2"); [done|done|].
    iIntros "Hn Ha Hcs2". iApply hwp_ret. iDestruct "HQ" as "[HQ _]". iApply "HQ". rewrite -length_app.
    iApply (node_sized _ _ _ _ _ (cs1 ++ (a, La ++ (k, v) :: Lb) :: cs2) with "[Hn] [Hcs1 Ha Hcs2]");
      [solve_len|solve_len|done| |by rewrite fmap_app|].
    + unfold L. rewrite !fmap_app !fmap_cons inter_kv ?length_fmap //= inter_focus ?length_fmap //. by rewrite -!app_assoc.
    + rewrite children_focus H1. iFrame. iApply (sized_tree with "Ha"). destruct is_left; lia.
  - apply Nat.leb_gt in E. iDestruct "HQ" as "[_ HQ]". iApply hwp_bind.
    iAssert (∀ kv' La' ma' Lb' mb', ⌜La ++ (k, v) :: Lb = La' ++ kv' :: Lb' ∧ 4 ≤ ma' ∧ 4 ≤ mb'⌝ →
      pair_at h q par pi kvs1 kv' kvs2 cs1.*1 ma' a La' mb' b Lb' cs2.*1 -∗ hwp (mret (Stole (hnode handle))) Q)%I
      with "[Hcs1 Hcs2 HQ]" as "Hend".
    { iIntros (kv' La' ma' Lb' mb') "%Heq [_ (Hn & Ha & Hb)]". destruct Heq as (Heq & Ha4 & Hb4).
      iApply hwp_ret. iApply "HQ". change (S (length kvs2)) with (length (kv' :: kvs2)). rewrite -length_app.
      iApply (node_sized _ _ _ _ _ (cs1 ++ (a, La') :: (b, Lb') :: cs2) with "[Hn] [Hcs1 Ha Hb Hcs2]");
        [solve_len|solve_len|done| |by rewrite fmap_app|].
      - unfold L. rewrite !fmap_app !fmap_cons !inter_kv ?length_fmap //. f_equal. cbn [snd].
        by rewrite !app_comm_cons (app_assoc La) Heq -app_assoc.
      - rewrite children_focus children_cons H1. iFrame.
        iSplitL "Ha"; [by iApply (sized_tree with "Ha")|by iApply (sized_tree with "Hb")]. }
    destruct is_left.
    + destruct ma as [|ma]; [lia|]. iApply (hwp_steal_left with "Hp"); [unfold CAPACITY, B in *; lia|].
      iIntros (kv' La' Lb') "%Heq Hp". iApply ("Hend" with "[] Hp"). iPureIntro. unfold CAPACITY, B in *. split_and!; (done || lia).
    + destruct mb as [|mb]; [lia|]. iApply (hwp_steal_right with "Hp"); [unfold CAPACITY, B in *; lia|].
      iIntros (kv' La' Lb') "%Heq Hp". iApply ("Hend" with "[] Hp"). iPureIntro. unfold CAPACITY, B in *. split_and!; (done || lia).
Qed.

(** A node with too few keys, not the root: its parent, with the same entries. *)
Lemma hwp_handle_underfull n h m p par pi r L1 L L2 Q : 3 ≤ m < 5 →
  ctx_at (S n) h p par pi r L1 L2 -∗ sized h m p par pi L -∗
  (∀ q qpar qpi mq Lq L1' L2', ⌜L1 ++ L ++ L2 = L1' ++ Lq ++ L2'⌝ →
     ctx_at n (S h) q qpar qpi r L1' L2' -∗ sized (S h) mq q qpar qpi Lq -∗
     (⌜least n (S h) ≤ S mq⌝ → Q (Merged (NodeRef_ (S h) q))) ∧ (⌜least n (S h) ≤ mq⌝ → Q (Stole (NodeRef_ (S h) q)))) -∗
  hwp (handle_underfull_node (NodeRef_ h p) : M _) Q.
Proof.
  iIntros (Hm) "Hc Ht HQ". cbn [ctx_at].
  iDestruct "Hc" as (q qpar qpi kvs1 kvs2 cs1 cs2 A' B' (-> & -> & H1 & H2 & Hle & Hq & -> & ->)) "(Hn & Hcs1 & Hcs2 & Hc)".
  iApply hwp_bind. iApply (hwp_ascend_sized with "Ht"); [by right; eexists|]. iIntros "Ht".
  assert (1 ≤ least n (S h)) as Hl by (destruct n; cbn; lia).
  assert (∀ cs' kvs', inter cs'.*2 kvs' = lefts cs1.*2 kvs1 ++ L ++ rights kvs2 cs2.*2 →
    (A' ++ lefts cs1.*2 kvs1) ++ L ++ rights kvs2 cs2.*2 ++ B' = A' ++ inter cs'.*2 kvs' ++ B') as HL.
  { intros cs' kvs' ->. by rewrite -!app_assoc. }
  destruct cs1 as [|[a La] cs1 _] using rev_ind.
  - destruct kvs1; [|done]. destruct kvs2 as [|kv kvs2], cs2 as [|[b Lb] cs2]; cbn in Hle, H2; try lia. injection H2 as H2.
    iApply hwp_bind. iApply hwp_ret. iApply hwp_bind. iApply hwp_bind. iApply hwp_bind.
    iApply (hwp_len with "Hn"); [done|]. iIntros "Hn". cbn [idx length keys inner_node hnode].
    iApply hwp_bind. iApply (hwp_new_kv with "Hn"); [done|solve_len|]. iIntros "Hn". do 2 iApply hwp_ret.
    rewrite children_cons. iDestruct "Hcs2" as "[Hb Hcs2]". iDestruct (tree_sized with "Hb") as (mb Hmb) "Hb".
    iApply (hwp_fix_pair false h q qpar qpi [] kv kvs2 [] m p L mb b Lb cs2 with "Hcs1 [Hn Ht Hb] Hcs2");
      [cbn; lia|lia|lia|iSplit; [iPureIntro; solve_len|by iFrame]|].
    iSplit; iIntros "Hq"; iDestruct ("HQ" $! _ _ _ _ _ A' B' with "[] Hc Hq") as "HQ";
      try (iPureIntro; by apply (HL ((p, L) :: (b, Lb) :: cs2) (kv :: kvs2))).
    + iDestruct "HQ" as "[HQ _]". iApply "HQ". iPureIntro. cbn in *. lia.
    + iDestruct "HQ" as "[_ HQ]". iApply "HQ". iPureIntro. cbn in *. lia.
  - rewrite length_app Nat.add_1_r /= in H1. symmetry in H1. apply snoc_inv in H1 as (kvs1' & kv & -> & H1).
    rewrite length_app Nat.add_1_r /=.
    iApply hwp_bind. iApply hwp_bind. unfold left_kv. cbn [idx hnode Nat.ltb Nat.leb]. rewrite Nat.sub_succ Nat.sub_0_r.
    iApply (hwp_new_kv with "Hn"); [done|solve_len|]. iIntros "Hn".
    iApply hwp_ret. iApply hwp_bind. iApply hwp_ret.
    rewrite children_app children_cons. iDestruct "Hcs1" as "(Hcs1 & Ha & _)".
    iDestruct (tree_sized with "Ha") as (ma Hma) "Ha". iEval (rewrite -app_assoc fmap_app -app_assoc /=) in "Hn". rewrite -H1.
    iApply (hwp_fix_pair true h q qpar qpi kvs1' kv kvs2 cs1 ma a La m p L cs2 with "Hcs1 [Hn Ht Ha] Hcs2");
      [solve_len|lia|lia|iSplit; [iPureIntro; by rewrite !length_fmap|by iFrame]|].
    assert (inter (cs1 ++ (a, La) :: (p, L) :: cs2).*2 (kvs1' ++ kv :: kvs2) =
      lefts (cs1 ++ [(a, La)]).*2 (kvs1' ++ [kv]) ++ L ++ rights kvs2 cs2.*2) as Hi.
    { rewrite !fmap_app !fmap_cons inter_kv ?length_fmap // lefts_app ?length_fmap //= -!app_assoc. done. }
    iSplit; iIntros "Hq"; (iDestruct ("HQ" $! _ _ _ _ _ A' B' with "[] Hc Hq") as "HQ"; [iPureIntro; by apply HL|]).
    + iDestruct "HQ" as "[HQ _]". iApply "HQ". iPureIntro. solve_len.
    + iDestruct "HQ" as "[_ HQ]". iApply "HQ". iPureIntro. solve_len.
Qed.

(** The last merge leaves the root without keys: its child becomes the root. *)
Lemma hwp_pop_level h q pi L Q :
  sized (S h) 0 q None pi L -∗ (∀ r', root_at r' L -∗ Q r') -∗ hwp (pop_level (Root_ q (S h)) : M _) Q.
Proof.
  iIntros "(%kvs & %cs & %H & Hn & Hcs) HQ". destruct H as (Hs & Hm & _ & Hq & ->).
  destruct kvs; [|done]. destruct cs as [|c [|]]; [done| |done]. cbn [top_node below_at]. rewrite -kids_children.
  iApply (hwp_pop_kid _ _ _ (tree_kid h 4 c) with "Hn Hcs"); [apply tree_linkable|done|].
  iIntros (pi') "Hc". iApply "HQ". iExists pi'. cbn. rewrite app_nil_r. iApply (tree_weaken with "Hc"). destruct h; cbn; lia.
Qed.

(** The least number of keys of a node that may have lost one. *)
Definition least_after n h := match n with O => least 0 h | S _ => 3 end.

Lemma hwp_underfull_loop r Q n : ∀ fuel h m p par pi L1 L L2, n ≤ fuel → least_after n h ≤ m →
  ctx_at n h p par pi r L1 L2 -∗ sized h m p par pi L -∗ (∀ r', root_at r' (L1 ++ L ++ L2) -∗ Q r') -∗
  hwp (underfull_loop fuel r (NodeRef_ h p) : M _) Q.
Proof.
  induction n as [|n IH]; intros fuel h m p par pi L1 L L2 Hf Hm; iIntros "Hc Ht HQ".
  all: assert (∀ p0, underfull_loop fuel r p0 =
    (l ← len p0;
     if l <? CAPACITY / 2 then
       u ← handle_underfull_node p0;
       match u with
       | AtRoot => mret r
       | EmptyParent _ => panic "internal error: entered unreachable code"
       | Merged parent =>
           l ← len parent;
           if l =? 0 then pop_level r
           else match fuel with O => ub "still climbing" | S fuel => underfull_loop fuel r parent end
       | Stole _ => mret r
       end
     else mret r) :> M _) as -> by by destruct fuel.
  all: iApply hwp_bind; iApply (hwp_len_sized with "Ht"); iIntros "Ht".
  all: change (CAPACITY / 2) with 5; destruct (m <? 5) eqn:E; [apply Nat.ltb_lt in E|apply Nat.ltb_ge in E].
  - iDestruct "Hc" as ((-> & -> & -> & ->)) "_". iApply hwp_bind. iApply hwp_bind.
    iApply (hwp_ascend_sized with "Ht"); [by left|]. iIntros "Ht". iApply hwp_ret. iApply hwp_ret. iApply "HQ".
    rewrite app_nil_r. iExists pi. by iApply (sized_tree with "Ht").
  - iApply hwp_ret. iApply "HQ". iApply ctx_plug. iFrame. iApply (sized_tree with "Ht"). destruct h; cbn; lia.
  - cbn in Hm. iApply hwp_bind. iApply (hwp_handle_underfull with "Hc Ht"); [lia|].
    iIntros (q qpar qpi mq Lq L1' L2' ->) "Hc Hq". iSplit.
    + iIntros (Hle). iApply hwp_bind. iApply (hwp_len_sized with "Hq"). iIntros "Hq".
      destruct mq as [|mq]; cbn [Nat.eqb].
      * destruct n as [|n]; cbn in Hle; [|lia]. iDestruct "Hc" as ((-> & -> & -> & ->)) "_".
        iApply (hwp_pop_level with "Hq"). iIntros (r') "Hr". iApply "HQ". by rewrite app_nil_r.
      * destruct fuel as [|fuel]; [lia|]. iApply (IH with "Hc Hq HQ"); [lia|]. destruct n; cbn in *; lia.
    + iIntros (Hle). iApply hwp_ret. iApply "HQ". iApply ctx_plug. iFrame. by iApply (sized_tree with "Hq").
  - iApply hwp_ret. iApply "HQ". iApply ctx_plug. iFrame. iApply (sized_tree with "Ht"). cbn. lia.
Qed.

(** The way down to the first leaf: what is passed goes into a context, of any kind
    that can take a node whose first child is missing.  [lo n h] is the least number
    of keys of a node [n] levels below the root. *)
Definition takes (lo : nat → nat → nat) (C : nat → nat → Z → option Z → option nat → list (K * V) → hProp N) : Prop :=
  ∀ n h q qpar qpi kvs c cs L2,
    lo n (S h) ≤ length kvs ≤ CAPACITY → length cs = length kvs → (STATIC_END <= q)%Z →
    q ↦ inner_node qpar qpi kvs (c :: cs.*1) -∗ children h q 1 cs -∗ C n (S h) q qpar qpi L2 -∗
    C (S n) h c (Some q) (Some 0) (rights kvs cs.*2 ++ L2).

Definition takes_first := takes least.

Lemma hwp_first_leaf lo h : (∀ n h, lo (S n) h = 4) → ∀ fuel n p par pi L Q, h ≤ fuel →
  tree_at h (lo n h) p par pi L -∗
  (∀ t tpar tpi kvs rest, ⌜L = kvs ++ rest ∧ (STATIC_END <= t)%Z ∧ lo (n + h) 0 ≤ length kvs ≤ CAPACITY⌝ →
     t ↦ leaf_node tpar tpi kvs -∗
     (∀ C L2, ⌜takes lo C⌝ → C n h p par pi L2 -∗ C (n + h) 0 t tpar tpi (rest ++ L2)) -∗
     Q (Handle_ (NodeRef_ 0 t) 0)) -∗
  hwp (first_leaf_edge_loop fuel (NodeRef_ h p) : M _) Q.
Proof.
  intros Hlo. induction h as [|h IH]; intros fuel n p par pi L Q Hf; iIntros "Ht HQ".
  - cbn [tree_at]. iDestruct "Ht" as ([[Hl Hu] Hp]) "Hn".
    assert (first_leaf_edge_loop fuel (NodeRef_ 0 p) = (first_edge (NodeRef_ 0 p) : M _)) as -> by by destruct fuel.
    iApply (hwp_new_edge with "Hn"); [done|lia|]. iIntros "Hn". rewrite Nat.add_0_r.
    iApply ("HQ" $! p par pi L [] with "[] Hn"); [by rewrite app_nil_r|]. by iIntros (C L2 HC) "Hc".
  - destruct fuel as [|fuel]; [lia|].
    iDestruct (tree_inner_inv with "Ht") as (kvs cs ([Hl Hu] & Hp & Hcs & ->)) "[Hn Hcs]".
    destruct cs as [|[c Lc] cs]; [done|]. injection Hcs as Hcs. rewrite children_cons. iDestruct "Hcs" as "[Hc Hcs]".
    cbn [first_leaf_edge_loop force height]. iApply hwp_bind.
    iApply (hwp_new_edge with "Hn"); [done|lia|]. iIntros "Hn".
    iApply hwp_bind. iApply (hwp_descend with "Hn"); [done|done|]. iIntros "Hn". rewrite /= Nat.sub_0_r.
    iApply (IH fuel (S n) with "[Hc]"); [lia|by rewrite Hlo|]. rewrite Nat.add_succ_comm.
    iIntros (t tpar tpi kvs' rest (-> & Ht)) "Hleaf Hctx".
    iApply ("HQ" $! t tpar tpi kvs' (rest ++ rights kvs cs.*2) with "[] Hleaf").
    { iPureIntro. split; [|done]. by rewrite /= -!app_assoc. }
    iIntros (C L2 HC) "Hc". rewrite -app_assoc. iApply ("Hctx" with "[//]"). by iApply (HC with "Hn Hcs Hc").
Qed.
Definition hwp_first_leaf_edge h := hwp_first_leaf least h (λ n h, eq_refl).

Lemma ctx_at_takes_first r L1 : takes_first (λ n h p par pi L2, ctx_at n h p par pi r L1 L2).
Proof.
  intros n h q qpar qpi kvs c cs L2.
  iIntros (Hl Hcs Hq) "Hn Hcs Hc". cbn [ctx_at]. iExists q, qpar, qpi, [], kvs, [], cs, L1, L2.
  rewrite app_nil_r. iFrame. by iSplit; [|rewrite /children].
Qed.

Lemma hwp_remove_kv m hd k v L1 L2 Q : length_ m ≠ 0 →
  found_at (root m) hd k v L1 L2 -∗
  (∀ r', root_at r' (L1 ++ L2) -∗ Q (BTreeMap_ r' (length_ m - 1), (k, v))) -∗
  hwp (remove_kv m hd : M _) Q.
Proof.
  iIntros (Hlen) "Hf HQ". unfold remove_kv. rewrite (proj2 (Nat.eqb_neq _ _) Hlen).
  iApply hwp_bind. iApply hwp_ret. cbv zeta.
  iAssert (∀ n t tpar tpi m' A' L B', ⌜L1 ++ L2 = A' ++ L ++ B' ∧ least_after n 0 ≤ m'⌝ →
    ctx_at n 0 t tpar tpi (root m) A' B' -∗ sized 0 m' t tpar tpi L -∗
    hwp (r ← underfull_loop (root_height (root m)) (root m) (NodeRef_ 0 t); mret (BTreeMap_ r (length_ m - 1), (k, v))) Q)%I
    with "[HQ]" as "Hloop".
  { iIntros (n t tpar tpi m' A' L B') "%H Hc Ht". destruct H as [-> Hm']. iDestruct (ctx_height with "Hc") as %Hh.
    iApply hwp_bind. iApply (hwp_underfull_loop _ _ n with "Hc Ht"); [lia|done|].
    iIntros (r') "Hr". iApply hwp_ret. by iApply "HQ". }
  iDestruct "Hf" as "[Hf|Hf]"; iApply hwp_bind.
  - iDestruct "Hf" as (n q par pi A' B' kvs1 kvs2 (-> & -> & ->)) "[Hc Ht]".
    cbn [tree_at]. iDestruct "Ht" as ([[Hl Hu] Hq]) "Hn". rewrite length_app in Hl Hu. cbn [length] in Hl, Hu.
    cbn [force_handle force hnode height]. iApply hwp_bind.
    iApply (hwp_leaf_remove with "Hn"); [done|lia|]. iIntros "Ht". iApply hwp_ret.
    iApply ("Hloop" with "[] Hc Ht"). iPureIntro. split; [by rewrite -!app_assoc|]. destruct n; cbn in *; lia.
  - iDestruct "Hf" as (n h q par pi A' B' kvs1 kvs2 cs1 [c Lc] [e Le] cs2 (-> & H1 & H2 & Hle & Hq & -> & ->)) "(Hc & Hn & Hcs)".
    assert (length (kvs1 ++ (k, v) :: kvs2) = S (length kvs1 + length kvs2)) as Hk by solve_len.
    cbn [force_handle force hnode height]. iApply hwp_bind.
    iApply (hwp_new_edge with "Hn"); [done|cbn; rewrite length_fmap Hk; lia|]. iIntros "Hn".
    rewrite cons_middle app_assoc children_focus. iDestruct "Hcs" as "(Hcs1 & He & Hcs2)".
    iApply hwp_bind. iApply (hwp_descend with "Hn"); [done| |].
    { cbn [idx]. rewrite Nat.add_1_r -H1. rewrite -Nat.add_1_r fmap_app. replace (length cs1 + 1) with (length (cs1 ++ [(c, Lc)]).*1) by solve_len.
      by apply list_lookup_middle. }
    iIntros "Hn". rewrite /= Nat.sub_0_r. iApply hwp_bind.
    iApply (hwp_first_leaf_edge h _ (S n) with "He"); [done|].
    iIntros (t tpar tpi [|[kl vl] kvs] rest) "%HL Hleaf Hctx"; destruct HL as (-> & Ht & Hlk & Huk); [cbn in Hlk; lia|].
    cbn [length] in Hlk, Huk. replace (least (S n + h) 0) with 4 in Hlk by done.
    iApply hwp_bind. iApply hwp_bind. iApply (hwp_len with "Hleaf"); [done|]. iIntros "Hleaf".
    cbn [idx keys leaf_node fmap list_fmap length Nat.ltb Nat.leb]. iApply hwp_bind.
    iApply (hwp_new_kv with "Hleaf"); [done|cbn; lia|]. iIntros "Hleaf". iApply hwp_ret.
    iApply hwp_bind. iApply hwp_ret. iApply hwp_bind.
    iApply (hwp_leaf_remove _ _ _ [] with "Hleaf"); [done|solve_len|]. iIntros "Hleaf".
    iApply hwp_bind. iApply (hwp_replace_kv with "Hn"); [done|]. iIntros "Hn". iApply hwp_ret. cbn [hnode].
    iApply ("Hloop" $! (S n + h) t tpar tpi (length kvs) (A' ++ lefts (cs1 ++ [(c, Lc)]).*2 (kvs1 ++ [(kl, vl)])) kvs
      (rest ++ rights kvs2 cs2.*2 ++ B') with "[] [Hctx Hc Hcs1 Hcs2 Hn] Hleaf").
    + iPureIntro. split; [|cbn; lia]. rewrite fmap_app lefts_app ?length_fmap // -!app_assoc /=.
      done.
    + iApply ("Hctx" with "[]"); [iPureIntro; apply ctx_at_takes_first|].
      cbn [ctx_at]. iExists q, par, pi, (kvs1 ++ [(kl, vl)]), kvs2, (cs1 ++ [(c, Lc)]), cs2, A', B'.
      iSplit.
      { iPureIntro. split_and!; [done|done|solve_len|done|solve_len|solve_len|done|done|done]. }
      rewrite -(app_assoc kvs1) (fmap_app fst (cs1 ++ [(c, Lc)]) (_ :: cs2)). iFrame.
Qed.

Lemma hwp_remove m n L key Q :
  map_at m n L -∗
  ((∀ m' v L1 L2, ⌜L = L1 ++ (key, v) :: L2⌝ → map_at m' (n - 1) (L1 ++ L2) -∗ Q (m', Some v)) ∧
   (∀ L1 L2, ⌜L = L1 ++ L2 ∧ below key L1 ∧ above key L2⌝ → map_at m n L -∗ Q (m, None))) -∗
  hwp (BTree.remove m key : M _) Q.
Proof.
  iIntros "Hm HQ". iApply hwp_bind. iApply (hwp_search_root with "Hm"). iSplit.
  - iIntros (hd v L1 L2) "%H Hf". destruct H as (-> & Hs & <-). iDestruct "HQ" as "[HQ _]".
    iApply hwp_bind. iApply (hwp_remove_kv with "Hf").
    { destruct Hs as [_ Hl]. rewrite length_app in Hl. cbn in Hl. lia. }
    iIntros (r') "Hr". iApply hwp_ret. iApply ("HQ" with "[//]"). iApply map_at_root; [done| |done].
    eapply (counted_remove _ _ L1 [(key, v)]); [exact Hs|]. cbn. lia.
  - iIntros (hd L1 L2) "%H Hg". destruct H as (-> & Hb & Ha & Hs & Hn). iDestruct "HQ" as "[_ HQ]".
    iApply hwp_ret. iApply ("HQ" with "[//]"). by iApply (godown_map_at with "Hg").
Qed.
End remove.
