(* ===== verification/BTreeIter.v ===== *)
(** * BTreeIter: iterating over, and dropping, a B-tree map ([map.rs])

    An iterator is the edge of a leaf behind which it goes on, and a count of what
    is left.  The iterator by reference climbs over the parent pointers; the one by
    value gives each node back when it leaves it.  Climbing takes at most as many
    steps as the tree has levels: that is the fuel. *)

From S2P Require Import Prelude HeapLogic Node BTree Readonly NodeSpec BTreeSpec Rebalance BTreeRemove.
From iris.proofmode Require Import proofmode.
From iris.prelude Require Import options.

#[local] Open Scope nat_scope.

(** [Range], [Iter] and [IntoIter]: the edges in front and at the back, and the count
    of the latter two. *)
Record Range := Range_ { front : Handle; back : Handle }.
Record Iter := Iter_ { range : Range; iter_length : nat }.

Section iter.
Context {K V A : Type} `{!Ord K, !GlobalAlloc NodeLayout A}.
#[local] Abbreviation N := (Node K V).
#[local] Abbreviation M := (M (store N A)).

(** ** By reference *)

(** The loop of [Range::next_unchecked]. *)
Fixpoint next_loop (fuel : nat) (cur_handle : Handle) : M (Handle * (K * V)) :=
  kv ← right_kv cur_handle;
  match kv with
  | Ok kv =>
      ret ← into_kv kv;
      e ← right_edge kv; c ← descend e;
      front ← first_leaf_edge c;
      mret (front, ret)
  | Err last_edge =>
      next_level ← ascend (hnode last_edge);
      cur_handle ← unwrap_unchecked (ok_ next_level);
      match fuel with O => ub "still climbing" | S fuel => next_loop fuel cur_handle end
  end.

Definition next_unchecked (fuel : nat) (r : Range) : M (Range * (K * V)) :=
  kv ← right_kv (front r);
  match kv with
  | Ok kv =>
      ret ← into_kv kv;
      e ← right_edge kv;
      mret (Range_ e (back r), ret)
  | Err last_edge =>
      next_level ← ascend (hnode last_edge);
      cur_handle ← unwrap_unchecked (ok_ next_level);
      '(front, ret) ← next_loop fuel cur_handle;
      mret (Range_ front (back r), ret)
  end.

Definition iter (m : BTreeMap) : M Iter :=
  f ← first_leaf_edge (root_ref (root m));
  b ← last_leaf_edge (root_ref (root m));
  mret (Iter_ (Range_ f b) (length_ m)).

Definition iter_next (fuel : nat) (it : Iter) : M (Iter * option (K * V)) :=
  if iter_length it =? 0 then mret (it, None)
  else
    let n := iter_length it - 1 in
    '(r, kv) ← next_unchecked fuel (range it);
    mret (Iter_ r n, Some kv).

(** [for kv in map.iter()]: what the iterator yields. *)
Fixpoint iter_loop (turns fuel : nat) (it : Iter) : M (list (K * V)) :=
  '(it, kv) ← iter_next fuel it;
  match kv with
  | None => mret []
  | Some kv =>
      match turns with
      | O => ub "still iterating"
      | S turns => kvs ← iter_loop turns fuel it; mret (kv :: kvs)
      end
  end.
Definition map_entries (m : BTreeMap) : M (list (K * V)) :=
  it ← iter m; iter_loop (length_ m) (root_height (root m)) it.

(** ** By value *)

Definition into_iter (m : BTreeMap) : M Iter := iter m.

Fixpoint into_next_loop (fuel : nat) (cur_handle : Handle) : M (Handle * (K * V)) :=
  kv ← right_kv cur_handle;
  match kv with
  | Ok kv =>
      ret ← into_kv kv;
      e ← right_edge kv; c ← descend e;
      front ← first_leaf_edge c;
      mret (front, ret)
  | Err last_edge =>
      p ← deallocate_and_ascend_internal (hnode last_edge);
      cur_handle ← unwrap_unchecked p;
      match fuel with O => ub "still climbing" | S fuel => into_next_loop fuel cur_handle end
  end.

Definition into_next (fuel : nat) (it : Iter) : M (Iter * option (K * V)) :=
  if iter_length it =? 0 then mret (it, None)
  else
    let n := iter_length it - 1 in
    kv ← right_kv (front (range it));
    match kv with
    | Ok kv =>
        ret ← into_kv kv;
        e ← right_edge kv;
        mret (Iter_ (Range_ e (back (range it))) n, Some ret)
    | Err last_edge =>
        p ← deallocate_and_ascend_leaf (hnode last_edge);
        cur_handle ← unwrap_unchecked p;
        '(front, ret) ← into_next_loop fuel cur_handle;
        mret (Iter_ (Range_ front (back (range it))) n, Some ret)
    end.

(** [for_each]: what is yielded, and the iterator at the end. *)
Fixpoint into_loop (turns fuel : nat) (it : Iter) : M (Iter * list (K * V)) :=
  '(it, kv) ← into_next fuel it;
  match kv with
  | None => mret (it, [])
  | Some kv =>
      match turns with
      | O => ub "still iterating"
      | S turns => '(it, kvs) ← into_loop turns fuel it; mret (it, kv :: kvs)
      end
  end.

(** The loop of [IntoIter]'s [drop], over the nodes that are left. *)
Fixpoint free_loop (fuel : nat) (cur_node : NodeRef) : M unit :=
  p ← deallocate_and_ascend_internal cur_node;
  match p with
  | None => mret tt
  | Some parent => match fuel with O => ub "still climbing" | S fuel => free_loop fuel (hnode parent) end
  end.

(** [IntoIter]'s [drop]; the entries that are dropped are returned. *)
Definition IntoIter_drop (fuel : nat) (it : Iter) : M (list (K * V)) :=
  '(it, kvs) ← into_loop (iter_length it) fuel it;
  let leaf_node := hnode (front (range it)) in
  if is_shared_root leaf_node then mret kvs
  else
    p ← deallocate_and_ascend_leaf leaf_node;
    _ ← match p with None => mret tt | Some first_parent => free_loop fuel (hnode first_parent) end;
    mret kvs.

(** [drop] of the map, and [clear]. *)
Definition BTreeMap_drop (m : BTreeMap) : M (list (K * V)) :=
  it ← into_iter m; IntoIter_drop (root_height (root m)) it.
Definition clear (m : BTreeMap) : M (BTreeMap * list (K * V)) :=
  kvs ← BTreeMap_drop m; mret (BTreeMap_new, kvs).
End iter.

Section by_reference.
Context {K V A : Type} `{!Ord K, !GlobalAlloc NodeLayout A}.
#[local] Abbreviation N := (Node K V).
#[local] Abbreviation M := (M (store N A)).
#[local] Notation "p ↦ n" := (points_to p n) (at level 20) : bi_scope.
Implicit Types (L : list (K * V)) (kvs : list (K * V)) (cs : list (Z * list (K * V))).

Lemma hwp_last_leaf_edge h : ∀ fuel le p par pi L Q, h ≤ fuel →
  tree_at h le p par pi L -∗ (∀ hd, tree_at h le p par pi L -∗ Q hd) -∗
  hwp (last_leaf_edge_loop fuel (NodeRef_ h p) : M _) Q.
Proof.
  induction h as [|h IH]; intros fuel le p par pi L Q Hf; iIntros "Ht HQ".
  - cbn [tree_at]. iDestruct "Ht" as ([Hl Hp]) "Hn".
    assert (last_leaf_edge_loop fuel (NodeRef_ 0 p) = (last_edge (NodeRef_ 0 p) : M _)) as -> by by destruct fuel.
    iApply hwp_bind. iApply (hwp_len with "Hn"); [done|]. iIntros "Hn".
    iApply (hwp_new_edge with "Hn"); [done|done|]. iIntros "Hn". iApply "HQ". by iSplit.
  - destruct fuel as [|fuel]; [lia|].
    iDestruct (tree_inner_inv with "Ht") as (kvs cs (Hl & Hp & Hcs & ->)) "[Hn Hcs]".
    apply snoc_inv in Hcs as (cs' & [c Lc] & -> & Hcs). cbn [last_leaf_edge_loop force height]. iApply hwp_bind.
    iApply hwp_bind. iApply (hwp_len with "Hn"); [done|]. iIntros "Hn".
    iApply (hwp_new_edge with "Hn"); [done|done|]. iIntros "Hn".
    iApply hwp_bind. iApply (hwp_descend with "Hn"); [done| |].
    { cbn [keys inner_node]. rewrite length_fmap -Hcs. apply lookup_middle. }
    iIntros "Hn". rewrite /= Nat.sub_0_r children_focus. iDestruct "Hcs" as "(Hcs & Hc & H)".
    iApply (IH with "Hc"); [lia|]. iIntros (hd) "Hc". iApply "HQ".
    iApply tree_inner; [done|done|solve_len|]. rewrite children_focus. iFrame.
Qed.

Lemma inter_lefts (Ls : list (list (K * V))) kvs kv : length Ls = S (length kvs) →
  inter Ls kvs ++ [kv] = lefts Ls (kvs ++ [kv]).
Proof.
  intros H. apply snoc_inv in H as (Ls' & L & -> & H). rewrite -{1}(app_nil_r kvs) inter_focus // lefts_app //= app_nil_r.
  by rewrite -app_assoc.
Qed.

(** An edge of an internal node that has just been left upwards. *)
Definition inner_edge n h (r : Root) hd L1 L2 : hProp N :=
  ∃ q par pi A B kvs1 kvs2 cs1 cs2,
    ⌜hd = Handle_ (NodeRef_ (S h) q) (length kvs1) ∧ length cs1 = S (length kvs1) ∧ length cs2 = length kvs2 ∧
     least n (S h) ≤ length kvs1 + length kvs2 ≤ CAPACITY ∧ (STATIC_END <= q)%Z ∧
     L1 = A ++ inter cs1.*2 kvs1 ∧ L2 = rights kvs2 cs2.*2 ++ B⌝ ∧
    ctx_at n (S h) q par pi r A B ∗ q ↦ inner_node par pi (kvs1 ++ kvs2) (cs1 ++ cs2).*1 ∗
    children h q 0 (cs1 ++ cs2).

Lemma hwp_climb n h p par pi r L1 L L2 Q : L2 ≠ [] →
  ctx_at n h p par pi r L1 L2 -∗ tree_at h (least n h) p par pi L -∗
  (∀ n' hd, ⌜n = S n'⌝ → inner_edge n' h r hd (L1 ++ L) L2 -∗ Q hd) -∗
  hwp (next_level ← ascend (NodeRef_ h p); unwrap_unchecked (ok_ next_level) : M _) Q.
Proof.
  iIntros (HL2) "Hc Ht HQ". iApply hwp_bind. destruct n as [|n]; cbn [ctx_at].
  - by iDestruct "Hc" as ((-> & -> & -> & ->)) "_".
  - iDestruct "Hc" as (q qpar qpi kvs1 kvs2 cs1 cs2 A' B' (-> & -> & H1 & H2 & Hle & Hq & -> & ->)) "(Hn & Hcs1 & Hcs2 & Hc)".
    iApply (hwp_ascend_tree with "Ht"); [by right; eexists|]. iIntros "Ht". iApply hwp_expect; [done|].
    iApply ("HQ" $! n with "[//]"). iExists q, qpar, qpi, A', B', kvs1, kvs2, (cs1 ++ [(p, L)]), cs2.
    iSplit.
    { iPureIntro. rewrite H1. split_and!; try (done || solve_len).
      rewrite -app_assoc fmap_app. f_equal. rewrite -(app_nil_r kvs1) inter_focus ?length_fmap //=. by rewrite !app_nil_r. }
    rewrite -app_assoc children_focus fmap_app. iFrame.
Qed.

(** [right_kv] and the key there, in the node of an edge. *)
Lemma hwp_right_kv h q n i Q : (STATIC_END <= q)%Z →
  q ↦ n -∗ (q ↦ n -∗ Q (if i <? length (keys n) then Ok (Handle_ (NodeRef_ h q) i) else Err (Handle_ (NodeRef_ h q) i))) -∗
  hwp (right_kv (Handle_ (NodeRef_ h q) i) : M _) Q.
Proof.
  iIntros (Hq) "Hn HQ". iApply hwp_bind. iApply (hwp_len with "Hn"); [done|]. iIntros "Hn". cbn [idx hnode].
  destruct (i <? length (keys n)) eqn:E; [|iApply hwp_ret; by iApply "HQ"]. apply Nat.ltb_lt in E.
  iApply hwp_bind. iApply (hwp_new_kv with "Hn"); [done|done|]. iIntros "Hn". iApply hwp_ret. by iApply "HQ".
Qed.

(** Any loop that climbs to the next entry on the right, and what it does there. *)
Lemma hwp_right_loop {B} (loop : nat → Handle → M B) (body : Handle → M B) r k v L1 L2 Q :
  (∀ fuel hd, loop fuel hd =
    (kv ← right_kv hd;
     match kv with
     | Ok kv => body kv
     | Err last_edge =>
         next_level ← ascend (hnode last_edge);
         cur_handle ← unwrap_unchecked (ok_ next_level);
         match fuel with O => ub "still climbing" | S fuel => loop fuel cur_handle end
     end)) →
  ∀ n fuel h hd, n ≤ fuel →
  inner_edge n h r hd L1 ((k, v) :: L2) -∗ (∀ kv, found_inner r kv k v L1 L2 -∗ hwp (body kv) Q) -∗ hwp (loop fuel hd) Q.
Proof.
  intros Hloop. induction n as [n IH] using lt_wf_ind; intros fuel h hd Hf.
  iIntros "He HQ". iDestruct "He" as (q par pi A' B' kvs1 kvs2 cs1 cs2 (-> & H1 & H2 & Hle & Hq & -> & HL)) "(Hc & Hn & Hcs)".
  rewrite Hloop. iApply hwp_bind. iApply (hwp_right_kv with "Hn"); [done|]. iIntros "Hn". cbn [keys inner_node].
  rewrite length_fmap length_app. destruct kvs2 as [|kv kvs2].
  - destruct cs2; [|done]. cbn [rights app] in HL. cbn [length] in Hle. rewrite Nat.add_0_r in Hle. subst B'. rewrite (proj2 (Nat.ltb_ge _ _)); [|cbn; lia]. cbn [hnode].
    iApply hwp_assoc. rewrite !app_nil_r.
    iApply (hwp_climb with "Hc [Hn Hcs]"); [done|iApply (tree_inner _ _ _ _ _ kvs1 cs1); [done|done|done|iFrame]|].
    iIntros (n' hd ->) "He". destruct fuel as [|fuel]; [lia|]. iApply (IH with "He HQ"); lia.
  - destruct cs2 as [|c' cs2]; [done|]. injection H2 as H2. apply snoc_inv in H1 as (cs1' & c & -> & H1).
    cbn in HL. injection HL as <- ->. rewrite (proj2 (Nat.ltb_lt _ _)); [|cbn; lia]. rewrite -(app_assoc cs1'). cbn [app].
    iApply "HQ". iExists n, h, q, par, pi, A', B', kvs1, kvs2, cs1', c, c', cs2. iFrame.
    iPureIntro. split_and!; try (done || cbn [length] in Hle; lia).
    + f_equal. by rewrite -{1}(app_nil_r kvs1) fmap_app inter_focus ?length_fmap //= app_nil_r.
    + by rewrite -app_assoc.
Qed.

(** The same, from an edge of a leaf. *)
Lemma hwp_right_step {B C} (loop : nat → Handle → M B) (body : Handle → M B) (here : Handle → M C) (k' : B → M C) r k v L1 L2 hd fuel Q :
  (∀ fuel hd, loop fuel hd =
    (kv ← right_kv hd;
     match kv with
     | Ok kv => body kv
     | Err last_edge =>
         next_level ← ascend (hnode last_edge);
         cur_handle ← unwrap_unchecked (ok_ next_level);
         match fuel with O => ub "still climbing" | S fuel => loop fuel cur_handle end
     end)) →
  root_height r ≤ fuel → godown_at r hd L1 ((k, v) :: L2) -∗
  ((∀ kv, found_leaf r kv k v L1 L2 -∗ hwp (here kv) Q) ∧
   (∀ kv, found_inner r kv k v L1 L2 -∗ hwp (body kv) (λ x, hwp (k' x) Q))) -∗
  hwp (kv ← right_kv hd;
       match kv with
       | Ok kv => here kv
       | Err last_edge =>
           next_level ← ascend (hnode last_edge);
           cur_handle ← unwrap_unchecked (ok_ next_level);
           x ← loop fuel cur_handle; k' x
       end) Q.
Proof.
  iIntros (Hloop Hf) "Hg HQ". iDestruct "Hg" as (n q par pi A' B' kvs1 kvs2 (-> & -> & HL)) "[Hc Ht]".
  iDestruct (ctx_height with "Hc") as %Hh. cbn [tree_at]. iDestruct "Ht" as ([Hl Hq]) "Hn".
  iApply hwp_bind. iApply (hwp_right_kv with "Hn"); [done|]. iIntros "Hn". cbn [keys leaf_node].
  rewrite length_fmap length_app. destruct kvs2 as [|kv kvs2].
  - cbn in HL. subst B'. rewrite (proj2 (Nat.ltb_ge _ _)); [|cbn; lia]. cbn [hnode].
    iApply hwp_assoc. rewrite !app_nil_r.
    iApply (hwp_climb with "Hc [Hn]"); [done|by iSplit; [rewrite app_nil_r in Hl|]|].
    iIntros (n' hd ->) "He". iApply hwp_bind. iDestruct "HQ" as "[_ HQ]".
    iApply (hwp_right_loop loop body with "He HQ"); [exact Hloop|lia].
  - injection HL as <- ->. rewrite (proj2 (Nat.ltb_lt _ _)); [|cbn; lia]. iDestruct "HQ" as "[HQ _]". iApply "HQ".
    iExists n, q, par, pi, A', B', kvs1, kvs2. iSplit; [done|]. iFrame "Hc". by iSplit.
Qed.

(** The edge of a leaf behind an entry. *)
Lemma hwp_behind_leaf r kv k v L1 L2 Q :
  found_leaf r kv k v L1 L2 -∗ (∀ e, godown_at r e (L1 ++ [(k, v)]) L2 -∗ Q e) -∗ hwp (right_edge kv : M _) Q.
Proof.
  iIntros "H HQ". iDestruct "H" as (n q par pi A' B' kvs1 kvs2 (-> & -> & ->)) "[Hc Ht]". cbn [tree_at].
  iDestruct "Ht" as ([Hl Hq]) "Hn". iApply (hwp_new_edge with "Hn"); [done|cbn; solve_len|]. iIntros "Hn".
  iApply "HQ". iExists n, q, par, pi, A', B', (kvs1 ++ [(k, v)]), kvs2.
  iSplit; [iPureIntro; split_and!; [f_equal; solve_len|by rewrite app_assoc|done]|].
  iFrame "Hc". rewrite -app_assoc. by iSplit.
Qed.
Lemma hwp_behind_inner r kv k v L1 L2 Q :
  found_inner r kv k v L1 L2 -∗ (∀ e, godown_at r e (L1 ++ [(k, v)]) L2 -∗ Q e) -∗
  hwp (e ← right_edge kv; c ← descend e; first_leaf_edge c : M _) Q.
Proof.
  iIntros "H HQ". iDestruct "H" as (n h q par pi A' B' kvs1 kvs2 cs1 c [c' Lc] cs2 (-> & H1 & H2 & Hle & Hq & -> & ->)) "(Hc & Hn & Hcs)".
  iApply hwp_bind. iApply (hwp_new_edge with "Hn"); [done|cbn; solve_len|]. iIntros "Hn". cbn [idx hnode].
  iApply hwp_bind. iApply (hwp_descend with "Hn"); [done| |].
  { rewrite Nat.add_1_r -H1 cons_middle app_assoc -(last_length cs1 c). apply lookup_middle. }
  iIntros "Hn". rewrite /= Nat.sub_0_r cons_middle (app_assoc cs1) children_focus. iDestruct "Hcs" as "(Hcs1 & Ht & Hcs2)".
  cbn [fst snd]. iApply (hwp_first_leaf_edge h _ (S n) with "Ht"); [done|].
  iIntros (t tpar tpi kvs rest (-> & Ht & Hl)) "Hleaf Hctx". iApply "HQ".
  iExists (S n + h), t, tpar, tpi, (A' ++ lefts (cs1 ++ [c]).*2 (kvs1 ++ [(k, v)])), (rest ++ rights kvs2 cs2.*2 ++ B'), [], kvs.
  iSplit.
  { iPureIntro. rewrite app_nil_r -!app_assoc fmap_app lefts_app ?length_fmap //= app_nil_r. }
  iSplitR "Hleaf"; [|by iSplit].
  iApply ("Hctx" with "[]"); [iPureIntro; apply ctx_at_takes_first|]. cbn [ctx_at].
  iExists q, par, pi, (kvs1 ++ [(k, v)]), kvs2, (cs1 ++ [c]), cs2, A', B'.
  iSplit; [iPureIntro; split_and!; (done || solve_len)|].
  rewrite -(app_assoc kvs1) (fmap_app fst (cs1 ++ [c])). iFrame.
Qed.

(** Reading an entry. *)
Lemma hwp_found_read r kv k v L1 L2 : found_at r kv k v L1 L2 ⊢ hwp (into_kv kv : M _) (λ x, ⌜x = (k, v)⌝ ∧ True).
Proof.
  rewrite found_open. iIntros "(%n & %H & Hn & Hc)". destruct H as (Hp & Hk & Hv). destruct kv as [[h p] i]. cbn [hnode node idx] in *.
  iApply (hwp_into_kv with "Hn"); [done..|]. iIntros "Hn". iSplit; [done|]. iStopProof. apply bi.True_intro.
Qed.
Lemma hwp_read_leaf r kv k v L1 L2 Q : found_leaf r kv k v L1 L2 -∗ (found_leaf r kv k v L1 L2 -∗ Q (k, v)) -∗ hwp (into_kv kv : M _) Q.
Proof.
  iIntros "H HQ". iApply (hwp_look _ (found_leaf r kv k v L1 L2) (λ x, x = (k, v)) with "H"); [auto with readonly| |by iIntros (x ->)].
  rewrite -hwp_found_read. by iIntros "H"; iLeft.
Qed.
Lemma hwp_read_inner r kv k v L1 L2 Q : found_inner r kv k v L1 L2 -∗ (found_inner r kv k v L1 L2 -∗ Q (k, v)) -∗ hwp (into_kv kv : M _) Q.
Proof.
  iIntros "H HQ". iApply (hwp_look _ (found_inner r kv k v L1 L2) (λ x, x = (k, v)) with "H"); [auto with readonly| |by iIntros (x ->)].
  rewrite -hwp_found_read. by iIntros "H"; iRight.
Qed.

(** A step of the iterator reads the entry behind it and passes it. *)
Lemma hwp_next_unchecked r hd b kv L1 L2 fuel Q : root_height r ≤ fuel →
  godown_at r hd L1 (kv :: L2) -∗
  (∀ hd', godown_at r hd' (L1 ++ [kv]) L2 -∗ Q (Range_ hd' b, kv)) -∗
  hwp (next_unchecked fuel (Range_ hd b) : M _) Q.
Proof.
  destruct kv as [k v]. iIntros (Hf) "Hg HQ".
  iApply (hwp_right_step next_loop with "Hg"); [by intros [|] ?|done|]. iSplit; iIntros (kv) "H"; iApply hwp_bind.
  - iApply (hwp_read_leaf with "H"). iIntros "H". iApply hwp_bind. iApply (hwp_behind_leaf with "H").
    iIntros (e) "H". iApply hwp_ret. by iApply "HQ".
  - iApply (hwp_read_inner with "H"). iIntros "H". iApply hwp_regroup. iApply hwp_bind. iApply (hwp_behind_inner with "H").
    iIntros (e) "H". do 2 iApply hwp_ret. by iApply "HQ".
Qed.

(** Where iteration starts: in the first leaf, which is left of all the rest. *)
Definition first_at r (f : Handle) L : hProp N :=
  ∃ pi t tpar tpi kvs rest, ⌜L = kvs ++ rest ∧ f = Handle_ (NodeRef_ 0 t) 0 ∧ (STATIC_END <= t)%Z ∧
      least (root_height r) 0 ≤ length kvs ≤ CAPACITY⌝ ∧
    t ↦ leaf_node tpar tpi kvs ∗
    (∀ C L2, ⌜takes_first C⌝ → C 0 (root_height r) (root_node r) None pi L2 -∗
       C (root_height r) 0 t tpar tpi (rest ++ L2)).

Lemma hwp_iter m n L Q :
  map_at m n L -∗
  (∀ f b, ⌜length_ m = n ∧ counted n L⌝ →
     ((⌜L = [] ∧ root m = shared_empty_root ∧ n = 0 ∧ hnode f = root_ref (root m)⌝ ∧ emp) ∨ first_at (root m) f L) -∗
     Q (Iter_ (Range_ f b) n)) -∗
  hwp (iter m : M _) Q.
Proof.
  iIntros "[[%Hn %Hs] [H|H]] HQ".
  - iDestruct "H" as ((Hr & -> & Hz)) "_".
    iApply (hwp_ext (mret (Iter_ (Range_ (Handle_ (root_ref (root m)) 0) (Handle_ (root_ref (root m)) 0)) (length_ m)))).
    { intros s. by rewrite /iter Hr. }
    iApply hwp_ret. rewrite Hn. iApply "HQ"; [done|]. by iLeft; iSplit.
  - iDestruct "H" as (pi) "Ht". iApply hwp_swap; [apply readonly_first_leaf_edge|apply readonly_last_leaf_edge|].
    iApply hwp_bind. iApply (hwp_last_leaf_edge with "Ht"); [done|]. iIntros (b) "Ht".
    iApply hwp_bind. iApply (hwp_first_leaf_edge _ _ 0 with "Ht"); [done|].
    iIntros (t tpar tpi kvs rest (-> & Ht & Hl)) "Hleaf Hctx". iApply hwp_ret. rewrite Hn. iApply "HQ"; [done|].
    iRight. iExists pi, t, tpar, tpi, kvs, rest. iSplit; [done|]. iFrame.
Qed.

Lemma first_godown r f L : first_at r f L ⊢ godown_at r f [] L.
Proof.
  iIntros "(%pi & %t & %tpar & %tpi & %kvs & %rest & %H & Hn & Hctx)". destruct H as (-> & -> & Ht & Hl).
  iExists (root_height r), t, tpar, tpi, [], rest, [], kvs. iSplit; [done|]. iSplitR "Hn"; [|by iSplit].
  rewrite -{2}(app_nil_r rest). iApply ("Hctx" with "[]"); [iPureIntro; apply ctx_at_takes_first|].
  iSplit; [|done]. iPureIntro. by destruct r.
Qed.

(** Iteration yields the entries of the map in their order. *)
Lemma hwp_iter_loop r b fuel L2 : root_height r ≤ fuel → ∀ turns hd L1 Q, length L2 ≤ turns →
  godown_at r hd L1 L2 -∗ (root_at r (L1 ++ L2) -∗ Q L2) -∗
  hwp (iter_loop turns fuel (Iter_ (Range_ hd b) (length L2)) : M _) Q.
Proof.
  intros Hf. induction L2 as [|kv L2 IH]; intros turns hd L1 Q Ht; iIntros "Hg HQ".
  - iApply (hwp_ext (mret [])); [by intros s; destruct turns|].
    iApply hwp_ret. iApply "HQ". by iApply godown_close.
  - destruct turns as [|turns]; cbn in Ht; [lia|]. cbn [iter_loop]. iApply hwp_bind.
    iApply hwp_bind. cbn [range iter_length]. iApply (hwp_next_unchecked with "Hg"); [done|]. iIntros (hd') "Hg".
    iApply hwp_ret. cbn [length]. rewrite Nat.sub_succ Nat.sub_0_r. iApply hwp_bind.
    iApply (IH with "Hg"); [lia|]. rewrite -app_assoc. iIntros "Hr". iApply hwp_ret. by iApply "HQ".
Qed.

Lemma hwp_map_entries m L Q :
  map_at m (length L) L -∗ (map_at m (length L) L -∗ Q L) -∗ hwp (map_entries m : M _) Q.
Proof.
  iIntros "Hm HQ". iApply hwp_bind. iApply (hwp_iter with "Hm"). iIntros (f b) "%H Hf". destruct H as (Hn & Hs).
  iDestruct "Hf" as "[[%H _]|Hf]".
  - destruct H as (-> & Hr & Hz & _). rewrite Hn. iApply hwp_ret. iApply "HQ". iSplit; [done|]. by iLeft; iSplit.
  - iApply (hwp_iter_loop (root m) b _ L with "[Hf]"); [done|by rewrite Hn|by iApply first_godown|].
    iIntros "Hr". iApply "HQ". by iApply map_at_root.
Qed.
End by_reference.

(** ** By value: what is left of a tree whose nodes are given back from the left *)

Section by_value.
Context {K V A : Type} `{!Ord K, !GlobalAlloc NodeLayout A}.
#[local] Abbreviation N := (Node K V).
#[local] Abbreviation M := (M (store N A)).
#[local] Notation "p ↦ n" := (points_to p n) (at level 20) : bi_scope.
Implicit Types (L R : list (K * V)) (kvs : list (K * V)) (cs : list (Z * list (K * V))).

(** The nodes above, whose edges up to the one we came from dangle. *)
Fixpoint rest_at (n h : nat) (p : Z) (par : option Z) (pi : option nat) R : hProp N :=
  match n with
  | O => ⌜par = None ∧ R = []⌝ ∧ emp
  | S n => ∃ q qpar qpi kvs1 kvs2 es cs R',
      ⌜par = Some q ∧ pi = Some (length kvs1) ∧ length es = length kvs1 ∧ length cs = length kvs2 ∧
       (STATIC_END <= q)%Z ∧ length kvs1 + length kvs2 ≤ CAPACITY ∧ R = rights kvs2 cs.*2 ++ R'⌝ ∧
      q ↦ inner_node qpar qpi (kvs1 ++ kvs2) (es ++ p :: cs.*1) ∗
      children h q (S (length kvs1)) cs ∗ rest_at n (S h) q qpar qpi R'
  end.

Lemma rest_at_takes lo : takes lo rest_at.
Proof.
  intros n h q qpar qpi kvs c cs L2. iIntros (Hl Hcs Hq) "Hn Hcs Hc". cbn [rest_at].
  iExists q, qpar, qpi, [], kvs, [], cs, L2. iFrame. iPureIntro. split_and!; (done || cbn [length]; lia).
Qed.

(** An edge of a leaf, and of an internal node that has been left upwards. *)
Definition leaf_rest n (hd : Handle) R : hProp N :=
  ∃ q par pi kvs1 kvs2 R',
    ⌜hd = Handle_ (NodeRef_ 0 q) (length kvs1) ∧ R = kvs2 ++ R' ∧ (STATIC_END <= q)%Z⌝ ∧
    q ↦ leaf_node par pi (kvs1 ++ kvs2) ∗ rest_at n 0 q par pi R'.
Definition inner_rest n h (hd : Handle) R : hProp N :=
  ∃ q par pi kvs1 kvs2 es cs R',
    ⌜hd = Handle_ (NodeRef_ (S h) q) (length kvs1) ∧ length es = S (length kvs1) ∧ length cs = length kvs2 ∧
     (STATIC_END <= q)%Z ∧ length kvs1 + length kvs2 ≤ CAPACITY ∧ R = rights kvs2 cs.*2 ++ R'⌝ ∧
    q ↦ inner_node par pi (kvs1 ++ kvs2) (es ++ cs.*1) ∗ children h q (S (length kvs1)) cs ∗
    rest_at n (S h) q par pi R'.

(** Climbing out of a node of either kind, which is given back. *)
Lemma hwp_up n h p nd l par pi R Q : (STATIC_END <= p)%Z → parent nd = par → parent_idx nd = pi → layout_of nd = l →
  p ↦ nd -∗ rest_at n h p par pi R -∗
  ((⌜n = 0 ∧ R = []⌝ → Q None) ∧ (∀ n' hd, ⌜n = S n'⌝ → inner_rest n' h hd R -∗ Q (Some hd))) -∗
  hwp (ret ← ascend (NodeRef_ h p); _ ← dealloc p l; mret (ok_ ret) : M _) Q.
Proof.
  iIntros (Hp Hpar Hpi Hl) "Hn Hc HQ". iApply hwp_bind. destruct n as [|n]; cbn [rest_at].
  - iDestruct "Hc" as ((-> & ->)) "_". iApply (hwp_ascend with "Hn"); [done|by left|]. iIntros "Hn".
    iApply hwp_bind. iApply (hwp_dealloc with "Hn"); [done|]. iApply hwp_ret. rewrite Hpar.
    iDestruct "HQ" as "[HQ _]". by iApply "HQ".
  - iDestruct "Hc" as (q qpar qpi kvs1 kvs2 es cs R' (-> & -> & H1 & H2 & Hq & Hc & ->)) "(Hq & Hcs & Hc)".
    iApply (hwp_ascend with "Hn"); [done|by right; eexists|]. iIntros "Hn".
    iApply hwp_bind. iApply (hwp_dealloc with "Hn"); [done|]. iApply hwp_ret. rewrite Hpar Hpi.
    iDestruct "HQ" as "[_ HQ]". iApply ("HQ" $! n with "[//]").
    iExists q, qpar, qpi, kvs1, kvs2, (es ++ [p]), cs, R'. rewrite -app_assoc. iFrame.
    iPureIntro. split_and!; (done || solve_len).
Qed.

Lemma hwp_up_leaf n p kvs par pi R Q : (STATIC_END <= p)%Z →
  p ↦ leaf_node par pi kvs -∗ rest_at n 0 p par pi R -∗
  ((⌜n = 0 ∧ R = []⌝ → Q None) ∧ (∀ n' hd, ⌜n = S n'⌝ → inner_rest n' 0 hd R -∗ Q (Some hd))) -∗
  hwp (deallocate_and_ascend_leaf (NodeRef_ 0 p) : M _) Q.
Proof.
  iIntros (Hp) "Hn Hc HQ". unfold deallocate_and_ascend_leaf, is_shared_root. cbn [node]. rewrite not_shared //.
  iApply hwp_bind. iApply hwp_debug_assert; [done|]. by iApply (hwp_up with "Hn Hc HQ").
Qed.

Lemma hwp_up_inner n h p kvs es par pi R Q : (STATIC_END <= p)%Z →
  p ↦ inner_node par pi kvs es -∗ rest_at n (S h) p par pi R -∗
  ((⌜n = 0 ∧ R = []⌝ → Q None) ∧ (∀ n' hd, ⌜n = S n'⌝ → inner_rest n' (S h) hd R -∗ Q (Some hd))) -∗
  hwp (deallocate_and_ascend_internal (NodeRef_ (S h) p) : M _) Q.
Proof. iIntros (Hp) "Hn Hc HQ". by iApply (hwp_up with "Hn Hc HQ"). Qed.

Lemma hwp_into_next_loop n : ∀ fuel h hd kv R Q, n ≤ fuel →
  inner_rest n h hd (kv :: R) -∗ (∀ hd', leaf_rest (S n + h) hd' R -∗ Q (hd', kv)) -∗
  hwp (into_next_loop fuel hd : M _) Q.
Proof.
  induction n as [n IH] using lt_wf_ind; intros fuel h hd kv R Q Hf.
  iIntros "He HQ". iDestruct "He" as (q par pi kvs1 kvs2 es cs R' (-> & H1 & H2 & Hq & Hcap & HR)) "(Hn & Hcs & Hc)".
  assert (∀ hd, into_next_loop fuel hd = (kv ← right_kv hd;
    match kv with
    | Ok kv => ret ← into_kv kv; e ← right_edge kv; c ← descend e; front ← first_leaf_edge c; mret (front, ret)
    | Err last_edge =>
        p ← deallocate_and_ascend_internal (hnode last_edge);
        cur_handle ← unwrap_unchecked p;
        match fuel with O => ub "still climbing" | S fuel => into_next_loop fuel cur_handle end
    end) :> M _) as -> by by destruct fuel.
  iApply hwp_bind. iApply (hwp_right_kv with "Hn"); [done|]. iIntros "Hn". cbn [keys inner_node].
  rewrite length_fmap length_app. destruct kvs2 as [|[k v] kvs2].
  - destruct cs; [|done]. cbn [rights app] in HR. subst R'. rewrite (proj2 (Nat.ltb_ge _ _)); [|cbn; lia]. cbn [hnode].
    iApply hwp_bind. iApply (hwp_up_inner with "Hn Hc"); [done|]. iSplit; [iIntros ([_ [=]])|].
    iIntros (n' hd ->) "He". iApply hwp_bind. iApply hwp_expect; [done|]. destruct fuel as [|fuel]; [lia|].
    iApply (IH with "He"); [lia|lia|]. iIntros (hd') "Hl". iApply "HQ". rewrite /children /= Nat.add_succ_r. by iFrame.
  - destruct cs as [|[c Lc] cs]; [done|]. injection H2 as H2.
    assert (kv = (k, v) ∧ R = Lc ++ rights kvs2 cs.*2 ++ R') as [-> ->].
    { cbn in HR. injection HR as -> ->. by rewrite -app_assoc. }
    rewrite (proj2 (Nat.ltb_lt _ _)); [|cbn; lia].
    iApply hwp_bind. iApply (hwp_into_kv with "Hn"); [done|apply lookup_middle..|]. iIntros "Hn".
    iApply hwp_bind. iApply (hwp_new_edge with "Hn"); [done|cbn; solve_len|]. iIntros "Hn". cbn [idx hnode].
    iApply hwp_bind. iApply (hwp_descend with "Hn"); [done| |].
    { rewrite Nat.add_1_r -H1. by apply list_lookup_middle. }
    iIntros "Hn". rewrite /= Nat.sub_0_r children_cons. iDestruct "Hcs" as "(Ht & Hcs)".
    cbn [fst snd]. iApply hwp_bind. iApply (hwp_first_leaf_edge h _ (S n) with "Ht"); [done|].
    iIntros (t tpar tpi kvs rest (-> & Ht & Hl)) "Hleaf Hctx". iApply hwp_ret. iApply "HQ".
    iExists t, tpar, tpi, [], kvs, (rest ++ rights kvs2 cs.*2 ++ R').
    iSplit; [iPureIntro; by rewrite -app_assoc|]. iFrame "Hleaf".
    iApply ("Hctx" with "[]"); [iPureIntro; apply rest_at_takes|]. cbn [rest_at].
    iExists q, par, pi, (kvs1 ++ [(k, v)]), kvs2, es, cs, R'.
    rewrite length_app Nat.add_1_r -(app_assoc kvs1). iFrame. iPureIntro. split_and!; (done || solve_len).
Qed.

Lemma hwp_into_next n fuel hd b kv R l Q : n ≤ fuel →
  leaf_rest n hd (kv :: R) -∗ (∀ hd', leaf_rest n hd' R -∗ Q (Iter_ (Range_ hd' b) l, Some kv)) -∗
  hwp (into_next fuel (Iter_ (Range_ hd b) (S l)) : M _) Q.
Proof.
  iIntros (Hf) "Hl HQ". iDestruct "Hl" as (q par pi kvs1 kvs2 R' (-> & HR & Hq)) "[Hn Hc]".
  unfold into_next. cbn [iter_length Nat.eqb range front back]. rewrite Nat.sub_succ Nat.sub_0_r. cbv zeta.
  iApply hwp_bind. iApply (hwp_right_kv with "Hn"); [done|]. iIntros "Hn". cbn [keys leaf_node].
  rewrite length_fmap length_app. destruct kvs2 as [|[k v] kvs2].
  - cbn in HR. subst R'. rewrite (proj2 (Nat.ltb_ge _ _)); [|cbn; lia]. cbn [hnode].
    iApply hwp_bind. iApply (hwp_up_leaf with "Hn Hc"); [done|]. iSplit; [iIntros ([_ [=]])|].
    iIntros (n' hd ->) "He". iApply hwp_bind. iApply hwp_expect; [done|].
    iApply hwp_bind. iApply (hwp_into_next_loop with "He"); [lia|]. iIntros (hd') "Hl". iApply hwp_ret.
    rewrite Nat.add_0_r. by iApply "HQ".
  - injection HR as -> ->. rewrite (proj2 (Nat.ltb_lt _ _)); [|cbn; lia].
    iApply hwp_bind. iApply (hwp_into_kv with "Hn"); [done|apply lookup_middle..|]. iIntros "Hn".
    iApply hwp_bind. iApply (hwp_new_edge with "Hn"); [done|cbn; solve_len|]. iIntros "Hn". iApply hwp_ret.
    iApply "HQ". iExists q, par, pi, (kvs1 ++ [(k, v)]), kvs2, R'. rewrite -app_assoc. iFrame.
    iPureIntro. split_and!; [f_equal; solve_len|done..].
Qed.

Lemma hwp_into_loop n fuel b R : n ≤ fuel → ∀ hd Q,
  leaf_rest n hd R -∗ (∀ hd', leaf_rest n hd' [] -∗ Q (Iter_ (Range_ hd' b) 0, R)) -∗
  hwp (into_loop (length R) fuel (Iter_ (Range_ hd b) (length R)) : M _) Q.
Proof.
  intros Hf. induction R as [|kv R IH]; intros hd Q; iIntros "Hl HQ".
  - iApply (hwp_ext (mret (Iter_ (Range_ hd b) 0, []))); [done|]. iApply hwp_ret. by iApply "HQ".
  - cbn [length into_loop]. iApply hwp_bind. iApply (hwp_into_next with "Hl"); [done|]. iIntros (hd') "Hl".
    iApply hwp_bind. iApply (IH with "Hl"). iIntros (hd'') "Hl". iApply hwp_ret. by iApply "HQ".
Qed.

Lemma hwp_free_loop n : ∀ fuel h hd Q, n ≤ fuel →
  inner_rest n h hd [] -∗ Q tt -∗ hwp (free_loop fuel (hnode hd) : M unit) Q.
Proof.
  induction n as [n IH] using lt_wf_ind; intros fuel h hd Q Hf.
  iIntros "He HQ". iDestruct "He" as (q par pi kvs1 kvs2 es cs R' (-> & H1 & H2 & Hq & Hcap & HR)) "(Hn & Hcs & Hc)".
  destruct kvs2, cs; [|done..]. cbn in HR. subst R'.
  assert (∀ p, free_loop fuel p = (p ← deallocate_and_ascend_internal p;
    match p with
    | None => mret tt
    | Some parent => match fuel with O => ub "still climbing" | S fuel => free_loop fuel (hnode parent) end
    end) :> M _) as -> by by destruct fuel.
  iApply hwp_bind. cbn [hnode]. iApply (hwp_up_inner with "Hn Hc"); [done|]. rewrite /children /=. iSplit.
  - iIntros "_". by iApply hwp_ret.
  - iIntros (n' hd ->) "He". destruct fuel as [|fuel]; [lia|]. iApply (IH with "He HQ"); lia.
Qed.

(** Dropping the iterator drops every entry that is left once, in order, and gives
    every node that is left back. *)
Lemma hwp_into_drop n f b L fuel Q : n ≤ fuel →
  leaf_rest n f L -∗ Q L -∗ hwp (IntoIter_drop fuel (Iter_ (Range_ f b) (length L)) : M _) Q.
Proof.
  iIntros (Hf) "Hl HQ". iApply hwp_bind. iApply (hwp_into_loop with "Hl"); [done|].
  iIntros (hd') "Hl". cbn [front range].
  iDestruct "Hl" as (q par pi kvs1 kvs2 R' (-> & HR & Hq)) "[Hn Hc]". cbn [hnode]. unfold is_shared_root. cbn [node].
  rewrite not_shared //. destruct kvs2; [|done]. cbn in HR. subst R'.
  iApply hwp_bind. iApply (hwp_up_leaf with "Hn Hc"); [done|]. iSplit.
  - iIntros "_". iApply hwp_bind. do 2 iApply hwp_ret. done.
  - iIntros (n' hd Hn') "He". iApply hwp_bind. iApply (hwp_free_loop with "He"); [lia|]. by iApply hwp_ret.
Qed.

(** The iterator of a tree, whose root may have few keys. *)
Definition scant (n h : nat) : nat := match n with O => 0 | S _ => 4 end.
Lemma hwp_iter_rest m pi L Q :
  tree_at (root_height (root m)) 0 (root_node (root m)) None pi L -∗
  (∀ f b, leaf_rest (root_height (root m)) f L -∗ Q (Iter_ (Range_ f b) (length_ m))) -∗ hwp (iter m : M _) Q.
Proof.
  iIntros "Ht HQ". iApply hwp_swap; [apply readonly_first_leaf_edge|apply readonly_last_leaf_edge|].
  iApply hwp_bind. iApply (hwp_last_leaf_edge with "Ht"); [done|]. iIntros (b) "Ht".
  iApply hwp_bind. iApply (hwp_first_leaf scant _ (λ n h, eq_refl) _ 0 with "Ht"); [done|].
  iIntros (t tpar tpi kvs rest (-> & Ht & Hl)) "Hleaf Hctx". iApply hwp_ret. iApply "HQ".
  iExists t, tpar, tpi, [], kvs, rest. iSplit; [done|]. iFrame "Hleaf".
  rewrite -{2}(app_nil_r rest). iApply ("Hctx" with "[]"); [iPureIntro; apply rest_at_takes|]. by iSplit.
Qed.

Lemma hwp_drop_tree m pi L Q : length_ m = length L →
  tree_at (root_height (root m)) 0 (root_node (root m)) None pi L -∗ Q L -∗ hwp (BTreeMap_drop m : M _) Q.
Proof.
  iIntros (Hl) "Ht HQ". iApply hwp_bind. iApply (hwp_iter_rest with "Ht"). iIntros (f b) "Hf". rewrite Hl.
  by iApply (hwp_into_drop with "Hf").
Qed.

(** Dropping the map. *)
Lemma hwp_drop m L Q : map_at m (length L) L -∗ Q L -∗ hwp (BTreeMap_drop m : M _) Q.
Proof.
  iIntros "[[%Hn %Hs] [H|H]] HQ".
  - iDestruct "H" as ((Hr & -> & Hz)) "_". iApply (hwp_ext (mret [])); [|by iApply hwp_ret].
    intros s. destruct m as [r l]. cbn in *. by subst.
  - iDestruct "H" as (pi) "Ht". iApply (hwp_drop_tree with "[Ht] HQ"); [done|]. iApply (tree_weaken with "Ht"). lia.
Qed.
End by_value.
