(* ===== verification/BTreeBulk.v ===== *)
(** * BTreeBulk: splitting, joining and copying B-tree maps ([map.rs], [node.rs])

    [split_off] cuts a tree along a path and mends both borders; [append] builds a
    tree from the merged entries of two, level by level, and mends its right border;
    [clone] copies a tree.  Here are their definitions.  Loops that go down or up a
    tree have its height as fuel, loops over entries their number. *)

From S2P Require Import Prelude HeapLogic Node BTree BTreeIter.

#[local] Open Scope nat_scope.

(** [Clone] *)
Class Clone (T : Type) := clone : T → T.

(** A [Peekable<IntoIter>], with the height of the map it consumes, and [MergeIter]. *)
Record Peekable (K V : Type) := Peekable_ { pk_iter : Iter; pk_peeked : option (option (K * V)); pk_height : nat }.
Arguments Peekable_ {K V} _ _ _.
Arguments pk_iter {K V} _.
Arguments pk_peeked {K V} _.
Arguments pk_height {K V} _.
Record MergeIter (K V : Type) := MergeIter_ { left : Peekable K V; right : Peekable K V }.
Arguments MergeIter_ {K V} _ _.
Arguments left {K V} _.
Arguments right {K V} _.

Section bulk.
Context {K V A : Type} `{!Ord K, !GlobalAlloc NodeLayout A}.
#[local] Abbreviation N := (Node K V).
#[local] Abbreviation M := (M (store N A)).

(** ** Moving several entries at once *)

(** Both ends of the pointers of [move_kv] are in a node of the map. *)
Definition into_kv_pointers_mut (n : NodeRef) : M unit := debug_assert (negb (is_shared_root n)).

(** [bulk_steal_left]: the last [count] entries of the left child move to the right
    one, through the parent's; the edges of an internal node come along. *)
Definition bulk_steal_left (h : Handle) (count : nat) : M unit :=
  e ← left_edge h; left_node ← descend e; left_len ← len left_node;
  e ← right_edge h; right_node ← descend e; right_len ← len right_node;
  _ ← debug_assert (right_len + count <=? CAPACITY);
  _ ← debug_assert (count <=? left_len);
  let new_left_len := left_len - count in
  _ ← into_kv_pointers_mut left_node;
  _ ← into_kv_pointers_mut right_node;
  '(k, v) ← into_kv h;
  _ ← (if count =? 0 then panic "attempt to subtract with overflow" else mret tt);
  lm ← load (node left_node);
  k' ← get_unchecked (keys lm) new_left_len;
  v' ← get_unchecked (vals lm) new_left_len;
  _ ← update (node right_node) (λ n,
        set_kvs (drop (new_left_len + 1) (keys lm) ++ k :: keys n) (drop (new_left_len + 1) (vals lm) ++ v :: vals n) n);
  _ ← replace_kv h k' v';
  _ ← update (node left_node) (λ n, set_kvs (take new_left_len (keys n)) (take new_left_len (vals n)) n);
  match force left_node, force right_node with
  | Internal left_, Internal right_ =>
      les ← edges_of lm;
      rm ← load (node right_);
      res ← edges_of rm;
      _ ← update (node right_) (set_edges (drop (new_left_len + 1) les ++ res));
      _ ← update (node left_) (set_edges (take (new_left_len + 1) les));
      _ ← correct_childrens_parent_links right_ count (count + right_len + 1);
      correct_childrens_parent_links right_ 0 count
  | Leaf _, Leaf _ => mret tt
  | _, _ => panic "internal error: entered unreachable code"
  end.

Definition bulk_steal_right (h : Handle) (count : nat) : M unit :=
  e ← left_edge h; left_node ← descend e; left_len ← len left_node;
  e ← right_edge h; right_node ← descend e; right_len ← len right_node;
  _ ← debug_assert (left_len + count <=? CAPACITY);
  _ ← debug_assert (count <=? right_len);
  let new_right_len := right_len - count in
  _ ← into_kv_pointers_mut left_node;
  _ ← into_kv_pointers_mut right_node;
  '(k, v) ← into_kv h;
  _ ← (if count =? 0 then panic "attempt to subtract with overflow" else mret tt);
  rm ← load (node right_node);
  k' ← get_unchecked (keys rm) (count - 1);
  v' ← get_unchecked (vals rm) (count - 1);
  _ ← update (node left_node) (λ n,
        set_kvs (keys n ++ k :: take (count - 1) (keys rm)) (vals n ++ v :: take (count - 1) (vals rm)) n);
  _ ← replace_kv h k' v';
  _ ← update (node right_node) (λ n, set_kvs (drop count (keys n)) (drop count (vals n)) n);
  match force left_node, force right_node with
  | Internal left_, Internal right_ =>
      lm ← load (node left_);
      les ← edges_of lm;
      res ← edges_of rm;
      _ ← update (node left_) (set_edges (les ++ take count res));
      _ ← correct_childrens_parent_links left_ (left_len + 1) (left_len + 1 + count);
      _ ← update (node right_) (set_edges (drop count res));
      correct_childrens_parent_links right_ 0 (new_right_len + 1)
  | Leaf _, Leaf _ => mret tt
  | _, _ => panic "internal error: entered unreachable code"
  end.

(** [move_suffix]: what is behind an edge moves to an empty node; the first edge of
    that stays. *)
Definition move_suffix (h : Handle) (right_node : NodeRef) : M unit :=
  let left_new_len := idx h in
  let left_node := hnode h in
  l ← len left_node;
  let right_new_len := l - left_new_len in
  rl ← len right_node;
  _ ← debug_assert (rl =? 0);
  _ ← debug_assert (height left_node =? height right_node);
  _ ← into_kv_pointers_mut left_node;
  _ ← into_kv_pointers_mut right_node;
  lm ← load (node left_node);
  _ ← update (node right_node) (set_kvs (drop left_new_len (keys lm)) (drop left_new_len (vals lm)));
  _ ← update (node left_node) (set_kvs (take left_new_len (keys lm)) (take left_new_len (vals lm)));
  match force left_node, force right_node with
  | Internal left_, Internal right_ =>
      les ← edges_of lm;
      rm ← load (node right_);
      res ← edges_of rm;
      e ← get_unchecked res 0;
      _ ← update (node right_) (set_edges (e :: drop (left_new_len + 1) les));
      _ ← update (node left_) (set_edges (take (left_new_len + 1) les));
      correct_childrens_parent_links right_ 1 (1 + right_new_len)
  | Leaf _, Leaf _ => mret tt
  | _, _ => panic "internal error: entered unreachable code"
  end.

(** ** Mending the borders *)

(** [fix_top] *)
Fixpoint fix_top_loop (fuel : nat) (r : Root) : M Root :=
  l ← len (root_ref r);
  if (root_height r =? 0) || (0 <? l) then mret r
  else match fuel with O => ub "still popping" | S fuel => r ← pop_level r; fix_top_loop fuel r end.
Definition fix_top (r : Root) : M Root := fix_top_loop (root_height r) r.

(** The loops of [fix_right_border] and [fix_left_border]. *)
Fixpoint right_border_loop (fuel : nat) (cur_node : NodeRef) : M unit :=
  match force cur_node with
  | Leaf _ => mret tt
  | Internal n =>
      last ← last_kv n;
      m ← can_merge last;
      match fuel with
      | O => ub "still descending"
      | S fuel =>
          if m : bool then e ← merge last; c ← descend e; right_border_loop fuel c
          else
            e ← right_edge last; c ← descend e; right_len ← len c;
            _ ← (if right_len <? MIN_LEN + 1 then bulk_steal_left last (MIN_LEN + 1 - right_len) else mret tt);
            e ← right_edge last; c ← descend e; right_border_loop fuel c
      end
  end.
Definition fix_right_border (r : Root) : M Root :=
  r ← fix_top r; _ ← right_border_loop (root_height r) (root_ref r); fix_top r.

Fixpoint left_border_loop (fuel : nat) (cur_node : NodeRef) : M unit :=
  match force cur_node with
  | Leaf _ => mret tt
  | Internal n =>
      first ← first_kv n;
      m ← can_merge first;
      match fuel with
      | O => ub "still descending"
      | S fuel =>
          if m : bool then e ← merge first; c ← descend e; left_border_loop fuel c
          else
            e ← left_edge first; c ← descend e; left_len ← len c;
            _ ← (if left_len <? MIN_LEN + 1 then bulk_steal_right first (MIN_LEN + 1 - left_len) else mret tt);
            e ← left_edge first; c ← descend e; left_border_loop fuel c
      end
  end.
Definition fix_left_border (r : Root) : M Root :=
  r ← fix_top r; _ ← left_border_loop (root_height r) (root_ref r); fix_top r.

(** [fix_right_edge] *)
Fixpoint right_edge_loop (fuel : nat) (cur_node : NodeRef) : M unit :=
  match force cur_node with
  | Leaf _ => mret tt
  | Internal internal =>
      last ← last_edge internal;
      c ← descend last; right_child_len ← len c;
      last ← (if right_child_len <? MIN_LEN then
                l ← left_kv last;
                match l with
                | Ok kv => _ ← bulk_steal_left kv (MIN_LEN - right_child_len); right_edge kv
                | Err _ => panic "internal error: entered unreachable code"
                end
              else mret last);
      c ← descend last;
      match fuel with O => ub "still descending" | S fuel => right_edge_loop fuel c end
  end.
Definition fix_right_edge (r : Root) : M unit := right_edge_loop (root_height r) (root_ref r).

(** ** [recalc_length] *)

(** [dfs], and the loop over the edges of a node. *)
Fixpoint dfs_edges (dfs : NodeRef → M nat) (turns : nat) (edge : Handle) (res : nat) : M nat :=
  c ← descend edge; d ← dfs c;
  kv ← right_kv edge;
  match kv with
  | Ok kv =>
      edge ← right_edge kv;
      match turns with O => ub "still counting" | S turns => dfs_edges dfs turns edge (res + d) end
  | Err _ => mret (res + d)
  end.
Fixpoint dfs (fuel : nat) (n : NodeRef) : M nat :=
  res ← len n;
  match force n with
  | Leaf _ => mret res
  | Internal n =>
      match fuel with
      | O => ub "still descending"
      | S fuel => edge ← first_edge n; dfs_edges (dfs fuel) CAPACITY edge res
      end
  end.
Definition recalc_length (m : BTreeMap) : M BTreeMap :=
  l ← dfs (root_height (root m)) (root_ref (root m)); mret (BTreeMap_ (root m) l).

(** ** [split_off] *)

(** [for _ in 0..height { root.push_level()?; }] *)
Fixpoint push_levels (n : nat) (r : Root) : M (Root * result unit AllocErr) :=
  match n with
  | O => mret (r, Ok tt)
  | S n =>
      '(r, res) ← push_level r;
      match res with Err e => mret (r, Err e) | Ok _ => push_levels n r end
  end.

Fixpoint split_loop (fuel : nat) (left_node right_node : NodeRef) (key : K) : M unit :=
  r ← search_node left_node key;
  split_edge ← match r with Found handle => left_edge handle | GoDown handle => mret handle end;
  _ ← move_suffix split_edge right_node;
  match force_handle split_edge, force right_node with
  | Internal edge, Internal n =>
      match fuel with
      | O => ub "still descending"
      | S fuel =>
          left_node ← descend edge;
          e ← first_edge n; right_node ← descend e;
          split_loop fuel left_node right_node key
      end
  | Leaf _, Leaf _ => mret tt
  | _, _ => panic "internal error: entered unreachable code"
  end.

(** An error drops the half that has been begun. *)
Definition split_off (m : BTreeMap) (key : K) : M (BTreeMap * result BTreeMap AllocErr) :=
  if is_empty m then mret (m, Ok BTreeMap_new)
  else
    let total_num := map_len m in
    leaf ← new_leaf;
    match leaf with
    | Err e => _ ← BTreeMap_drop BTreeMap_new; mret (m, Err e)
    | Ok r =>
        '(r, res) ← push_levels (root_height (root m)) r;
        match res with
        | Err e => _ ← BTreeMap_drop (BTreeMap_ r 0); mret (m, Err e)
        | Ok _ =>
            _ ← split_loop (root_height (root m)) (root_ref (root m)) (root_ref r) key;
            l ← fix_right_border (root m);
            r ← fix_left_border r;
            if root_height l <? root_height r then
              m ← recalc_length (BTreeMap_ l (length_ m));
              _ ← (if total_num <? map_len m then panic "attempt to subtract with overflow" else mret tt);
              mret (m, Ok (BTreeMap_ r (total_num - map_len m)))
            else
              right ← recalc_length (BTreeMap_ r 0);
              _ ← (if total_num <? map_len right then panic "attempt to subtract with overflow" else mret tt);
              mret (BTreeMap_ l (total_num - map_len right), Ok right)
        end
    end.

(** ** [append] *)

(** [Peekable] over [IntoIter]. *)
Definition peekable (m : BTreeMap) (it : Iter) : Peekable K V := Peekable_ it None (root_height (root m)).
Definition peek (p : Peekable K V) : M (Peekable K V * option (K * V)) :=
  match pk_peeked p with
  | Some x => mret (p, x)
  | None => '(it, x) ← into_next (pk_height p) (pk_iter p); mret (Peekable_ it (Some x) (pk_height p), x)
  end.
Definition peekable_next (p : Peekable K V) : M (Peekable K V * option (K * V)) :=
  match pk_peeked p with
  | Some x => mret (Peekable_ (pk_iter p) None (pk_height p), x)
  | None => '(it, x) ← into_next (pk_height p) (pk_iter p); mret (Peekable_ it None (pk_height p), x)
  end.

(** What is dropped with it: the iterator's rest, and the entry that was peeked at. *)
Definition peekable_drop (p : Peekable K V) : M (list (K * V)) :=
  kvs ← IntoIter_drop (pk_height p) (pk_iter p);
  mret (match pk_peeked p with Some (Some kv) => kvs ++ [kv] | _ => kvs end).

(** [MergeIter::next] *)
Definition merge_next (it : MergeIter K V) : M (MergeIter K V * option (K * V)) :=
  '(l, lx) ← peek (left it);
  '(r, rx) ← peek (right it);
  let res := match lx, rx with
             | Some (left_key, _), Some (right_key, _) => Some (cmp left_key right_key)
             | Some _, None => Some Lt
             | None, Some _ => Some Gt
             | None, None => None
             end in
  match res with
  | None => mret (MergeIter_ l r, None)
  | Some Lt => '(l, x) ← peekable_next l; mret (MergeIter_ l r, x)
  | Some Gt => '(r, x) ← peekable_next r; mret (MergeIter_ l r, x)
  | Some Eq => '(l, _) ← peekable_next l; '(r, x) ← peekable_next r; mret (MergeIter_ l r, x)
  end.
Definition merge_drop (it : MergeIter K V) : M (list (K * V)) :=
  l ← peekable_drop (left it); r ← peekable_drop (right it); mret (l ++ r).

(** The way up to a node with room, or to a new root above the old one. *)
Fixpoint find_open (fuel : nat) (r : Root) (test_node : NodeRef) : M (Root * result NodeRef AllocErr) :=
  p ← ascend test_node;
  match p with
  | Ok parent =>
      let parent := hnode parent in
      l ← len parent;
      if l <? CAPACITY then mret (r, Ok parent)
      else match fuel with O => ub "still climbing" | S fuel => find_open fuel r parent end
  | Err _ => push_level r
  end.

(** One turn of [from_sorted_iter]: where the next entry goes. *)
Definition push_entry (r : Root) (cur_node : NodeRef) (key : K) (value : V) : M (Root * result NodeRef AllocErr) :=
  l ← len cur_node;
  if l <? CAPACITY then _ ← leaf_push cur_node key value; mret (r, Ok cur_node)
  else
    '(r, open_node) ← find_open (root_height r) r cur_node;
    match open_node with
    | Err e => mret (r, Err e)
    | Ok open_node =>
        let tree_height := height open_node - 1 in
        leaf ← new_leaf;
        match leaf with
        | Err e => mret (r, Err e)
        | Ok right_tree =>
            '(right_tree, res) ← push_levels tree_height right_tree;
            match res with
            | Err e => mret (r, Err e)
            | Ok _ =>
                _ ← internal_push open_node key value right_tree;
                e ← last_leaf_edge open_node;
                mret (r, Ok (hnode e))
            end
        end
    end.

(** [from_sorted_iter], over any iterator; it is dropped at the end. *)
Section from_sorted_iter.
Context {It : Type} (next : It → M (It * option (K * V))) (drop_iter : It → M (list (K * V))).

Fixpoint sorted_iter_loop (turns : nat) (m : BTreeMap) (cur_node : NodeRef) (it : It) : M (BTreeMap * result unit AllocErr) :=
  '(it, kv) ← next it;
  match kv with
  | None => _ ← drop_iter it; mret (m, Ok tt)
  | Some (key, value) =>
      '(r, cur) ← push_entry (root m) cur_node key value;
      match cur with
      | Err e => _ ← drop_iter it; mret (BTreeMap_ r (length_ m), Err e)
      | Ok cur_node =>
          let m := BTreeMap_ r (length_ m + 1) in
          match turns with O => ub "still pushing" | S turns => sorted_iter_loop turns m cur_node it end
      end
  end.

Definition from_sorted_iter (turns : nat) (m : BTreeMap) (it : It) : M (BTreeMap * result unit AllocErr) :=
  '(m, res) ← ensure_root_is_owned m;
  match res with
  | Err e => _ ← drop_iter it; mret (m, Err e)
  | Ok _ => e ← last_leaf_edge (root_ref (root m)); sorted_iter_loop turns m (hnode e) it
  end.
End from_sorted_iter.

(** [append]: both maps afterwards. *)
Definition append (m other : BTreeMap) : M (BTreeMap * BTreeMap * result unit AllocErr) :=
  if map_len other =? 0 then mret (m, other, Ok tt)
  else if map_len m =? 0 then mret (other, m, Ok tt)
  else
    self_iter ← into_iter m;
    other_iter ← into_iter other;
    let it := MergeIter_ (peekable m self_iter) (peekable other other_iter) in
    '(res_m, res) ← from_sorted_iter merge_next merge_drop (map_len m + map_len other) BTreeMap_new it;
    match res with
    | Err e => mret (res_m, BTreeMap_new, Err e)
    | Ok _ => _ ← fix_right_edge (root res_m); mret (res_m, BTreeMap_new, Ok tt)
    end.
End bulk.

(** ** [clone] *)

Section clone.
Context {K V A : Type} `{!Ord K, !GlobalAlloc NodeLayout A, !Clone K, !Clone V}.
#[local] Abbreviation N := (Node K V).
#[local] Abbreviation M := (M (store N A)).

(** The loops of [clone_subtree] over a leaf and over an internal node; the map that
    is being built is dropped when a part of it cannot be. *)
Fixpoint clone_leaf_loop (turns : nat) (out_tree : BTreeMap) (out_node : NodeRef) (in_edge : Handle) : M BTreeMap :=
  kv ← right_kv in_edge;
  match kv with
  | Err _ => mret out_tree
  | Ok kv =>
      '(k, v) ← into_kv kv;
      in_edge ← right_edge kv;
      _ ← leaf_push out_node (clone k) (clone v);
      let out_tree := BTreeMap_ (root out_tree) (length_ out_tree + 1) in
      match turns with O => ub "still copying" | S turns => clone_leaf_loop turns out_tree out_node in_edge end
  end.

Fixpoint clone_inner_loop (clone_subtree : NodeRef → M (result BTreeMap AllocErr)) (turns : nat) (out_tree : BTreeMap)
    (out_node : NodeRef) (in_edge : Handle) : M (result BTreeMap AllocErr) :=
  kv ← right_kv in_edge;
  match kv with
  | Err _ => mret (Ok out_tree)
  | Ok kv =>
      '(k, v) ← into_kv kv;
      in_edge ← right_edge kv;
      let k := clone k in
      let v := clone v in
      c ← descend in_edge;
      subtree ← clone_subtree c;
      match subtree with
      | Err e => _ ← BTreeMap_drop out_tree; mret (Err e)
      | Ok subtree =>
          _ ← internal_push out_node k v (root subtree);
          let out_tree := BTreeMap_ (root out_tree) (length_ out_tree + (1 + length_ subtree)) in
          match turns with O => ub "still copying" | S turns => clone_inner_loop clone_subtree turns out_tree out_node in_edge end
      end
  end.

Fixpoint clone_subtree (fuel : nat) (n : NodeRef) : M (result BTreeMap AllocErr) :=
  match force n with
  | Leaf leaf =>
      r ← new_leaf;
      match r with
      | Err e => mret (Err e)
      | Ok r =>
          in_edge ← first_edge leaf;
          m ← clone_leaf_loop CAPACITY (BTreeMap_ r 0) (root_ref r) in_edge;
          mret (Ok m)
      end
  | Internal internal =>
      match fuel with
      | O => ub "still descending"
      | S fuel =>
          e ← first_edge internal; c ← descend e;
          out_tree ← clone_subtree fuel c;
          match out_tree with
          | Err e => mret (Err e)
          | Ok out_tree =>
              '(r, out_node) ← push_level (root out_tree);
              match out_node with
              | Err e => _ ← BTreeMap_drop (BTreeMap_ r (length_ out_tree)); mret (Err e)
              | Ok out_node =>
                  in_edge ← first_edge internal;
                  clone_inner_loop (clone_subtree fuel) CAPACITY (BTreeMap_ r (length_ out_tree)) out_node in_edge
              end
          end
      end
  end.

(** [BTreeMap::clone] *)
Definition map_clone (m : BTreeMap) : M (result BTreeMap AllocErr) :=
  if map_len m =? 0 then mret (Ok BTreeMap_new) else clone_subtree (root_height (root m)) (root_ref (root m)).
End clone.

(** ** Concretely *)

Definition ten (n : Z) : Z := (n * 10)%Z.

#[local] Instance Z_Clone : Clone Z := λ x, x.

(** Building a map with the keys below [n], splitting it, putting it together again. *)
Definition build (from n : nat) : M (store (Node Z Z) bump) BTreeMap :=
  foldl (λ m i, m ← m; '(m, _) ← BTree.insert m (Z.of_nat i) (ten (Z.of_nat i)); mret m) (mret BTreeMap_new) (seq from n).
Definition run {B} (m : M (store (Node Z Z) bump) B) : option B :=
  match m (Store ∅ (Bump 16 [])) with Ret (b, _) => Some b | _ => None end.

Example split_and_append :
  run (m ← build 0 60;
       '(l, r) ← split_off m 23%Z;
       match r with
       | Ok r =>
           ls ← map_entries l; rs ← map_entries r;
           '(m, _, _) ← append l r;
           all ← map_entries m;
           mret (ls.*1, length_ l, rs.*1, length_ r, all.*1, length_ m)
       | Err _ => panic ""
       end) =
  Some (Z.of_nat <$> seq 0 23, 23, Z.of_nat <$> seq 23 37, 37, Z.of_nat <$> seq 0 60, 60).
Proof. by vm_compute. Qed.

Example clone_copies :
  run (m ← build 0 60; c ← map_clone m;
       match c with
       | Ok c => _ ← BTreeMap_drop m; kvs ← map_entries c; mret (kvs.*1, length_ c)
       | Err _ => panic ""
       end) = Some (Z.of_nat <$> seq 0 60, 60).
Proof. by vm_compute. Qed.
