(* ===== verification/BTreeMove.v ===== *)
(** * BTreeMove: moving several entries between nodes

    [bulk_steal_left], [bulk_steal_right] and [move_suffix] on nodes over any
    subtrees. *)

From S2P Require Import Prelude HeapLogic Node NodeSpec Kids BTree BTreeSpec Rebalance BTreeIter BTreeBulk.
From iris.proofmode Require Import proofmode.
From iris.prelude Require Import options.

#[local] Open Scope nat_scope.

Section bulk.
Context {K V A : Type} `{!GlobalAlloc NodeLayout A}.
#[local] Abbreviation N := (Node K V).
#[local] Abbreviation M := (M (store N A)).
#[local] Abbreviation prop := (hProp N).
#[local] Notation "p ↦ n" := (points_to p n) (at level 20) : bi_scope.
Implicit Types (L : list (K * V)) (kvs : list (K * V)) (es : list Z) (ks : list (kid (K := K) (V := V))).

Lemma hwp_kv_pointers h p Q : (STATIC_END <= p)%Z → Q tt ⊢ hwp (into_kv_pointers_mut (NodeRef_ h p) : M unit) Q.
Proof. intros Hp. unfold into_kv_pointers_mut, is_shared_root. cbn. rewrite not_shared //. by apply hwp_debug_assert. Qed.

Lemma drop_past {T} (l1 : list T) x l2 n : n = length l1 → drop (n + 1) (l1 ++ x :: l2) = l2.
Proof. intros ->. by rewrite Nat.add_1_r cons_middle app_assoc drop_app_length' // length_app Nat.add_1_r. Qed.
Lemma take_to {T} (l1 : list T) l2 n : n = length l1 → take n (l1 ++ l2) = l1.
Proof. intros ->. apply take_app_length. Qed.
Lemma drop_to {T} (l1 : list T) l2 n : n = length l1 → drop n (l1 ++ l2) = l2.
Proof. intros ->. apply drop_app_length. Qed.

(** The last [S (length ka2)] entries of the left node go to the right one. *)
Lemma hwp_bulk_steal_left h q par pi kvs1 k v kvs2 es1 ka1 k' v' ka2 a ks1 ks2 kb b ksb es2 Q :
  length kb + S (length ka2) ≤ CAPACITY → fits h ka1 ks1 → length ks2 = match h with O => 0 | S _ => S (length ka2) end →
  around h q par pi kvs1 (k, v) kvs2 es1 (ka1 ++ (k', v') :: ka2) a (ks1 ++ ks2) kb b ksb es2 -∗
  (around h q par pi kvs1 (k', v') kvs2 es1 ka1 a ks1 (ka2 ++ (k, v) :: kb) b (ks2 ++ ksb) es2 -∗ Q tt) -∗
  hwp (bulk_steal_left (Handle_ (NodeRef_ (S h) q) (length kvs1)) (S (length ka2)) : M unit) Q.
Proof.
  iIntros (Hcap Hfit1 Hlen2) "Hp HQ". iApply (hwp_around_both with "Hp"). iIntros "Hp".
  iApply hwp_bind. iApply hwp_debug_assert; [by apply Nat.leb_le|].
  iApply hwp_bind. iApply hwp_debug_assert; [solve_len|].
  assert (length (ka1 ++ (k', v') :: ka2) - S (length ka2) = length ka1) as -> by solve_len. cbv zeta.
  iDestruct "Hp" as "[%H (Hn & [%Ha [Ha Hka]] & [%Hb [Hb Hkb]])]". destruct H as (H1 & H2 & Hq).
  destruct Ha as (Hfa & Hca & Hpa & Hla). destruct Hb as (Hfb & Hcb & Hpb & Hlb). apply Forall_app in Hla as [Hl1 Hl2].
  do 2 (iApply hwp_bind; iApply hwp_kv_pointers; [done|]).
  iApply hwp_bind. iApply (hwp_into_kv with "Hn"); [done|apply lookup_middle..|]. iIntros "Hn". cbn [fst snd Nat.eqb].
  iApply hwp_bind. iApply hwp_ret. iApply hwp_bind. cbn [node]. iApply (hwp_load with "Ha"). iIntros "Ha".
  rewrite keys_of vals_of. do 2 (iApply hwp_bind; iApply hwp_get_unchecked; [apply lookup_middle|]).
  iApply hwp_bind. iApply (hwp_update with "Hb"); [by destruct h|]. iIntros "Hb". rewrite keys_of vals_of.
  assert (set_kvs (drop (length ka1 + 1) (ka1 ++ (k', v') :: ka2).*1 ++ k :: kb.*1)
            (drop (length ka1 + 1) (ka1 ++ (k', v') :: ka2).*2 ++ v :: kb.*2)
            (top_of h (Some q) (Some (S (length kvs1))) kb (kid_at <$> ksb)) =
          top_of h (Some q) (Some (S (length kvs1))) (ka2 ++ (k, v) :: kb) (kid_at <$> ksb)) as ->.
  { rewrite !fmap_app !fmap_cons !drop_past ?length_fmap //. rewrite -(set_kvs_of h _ _ kb _ (ka2 ++ (k, v) :: kb)).
    by rewrite !fmap_app !fmap_cons. }
  iApply hwp_bind. iApply (hwp_replace_kv with "Hn"); [done|]. iIntros "Hn".
  iApply hwp_bind. iApply (hwp_update with "Ha"); [by destruct h|]. iIntros "Ha". rewrite keys_of vals_of !take_middle set_kvs_of.
  rewrite kids_app. iDestruct "Hka" as "[Hk1 Hk2]".
  destruct h as [|h]; cbn [force height fits top_of node] in *.
  - subst ks1 ksb. destruct ks2; [|done]. iDestruct "Hk1" as "_". iDestruct "Hk2" as "_". iDestruct "Hkb" as "_". iApply hwp_ret. iApply "HQ".
    iSplit; [done|]. iFrame "Hn". iSplitL "Ha"; (iSplit; [iPureIntro; split_and!; (done || solve_len)|]); iFrame; by rewrite kids_nil.
  - iApply hwp_bind. iApply hwp_edges_of; [done|].
    iApply hwp_bind. iApply (hwp_load with "Hb"). iIntros "Hb". iApply hwp_bind. iApply hwp_edges_of; [done|].
    iApply hwp_bind. iApply (hwp_update with "Hb"); [done|]. iIntros "Hb".
    iApply hwp_bind. iApply (hwp_update with "Ha"); [done|]. iIntros "Ha".
    rewrite (fmap_app kid_at) Nat.add_1_r -Hfit1 (take_to (kid_at <$> ks1)) ?(drop_to (kid_at <$> ks1)) ?length_fmap //.
    iDestruct (kids_loose with "Hk2") as "Hk2". iDestruct (kids_loose with "Hkb") as "Hkb".
    iApply hwp_bind. iApply (hwp_link_kids _ _ _ ((kid_at <$> ks2) ++ (kid_at <$> ksb)) ksb with "Hb Hkb");
      [done|done|done|solve_len|solve_len| |].
    { intros j Hj. rewrite lookup_app_r length_fmap; [f_equal|]; lia. }
    iIntros "Hb Hkb".
    iApply (hwp_link_kids _ _ _ ((kid_at <$> ks2) ++ (kid_at <$> ksb)) ks2 with "Hb Hk2");
      [done|done|done|solve_len|solve_len| |].
    { intros j Hj. rewrite lookup_app_l ?length_fmap //. }
    iIntros "Hb Hk2". iApply "HQ". iSplit; [done|]. iFrame "Hn". iSplitL "Ha Hk1".
    + iSplit; [iPureIntro; split_and!; (done || solve_len)|]. iFrame.
    + iSplit; [iPureIntro; split_and!; [cbn; solve_len|solve_len|done|by apply Forall_app]|].
      rewrite kids_app fmap_app Hlen2. iFrame.
Qed.

(** The first [S (length kb1)] entries of the right node go to the left one. *)
Lemma hwp_bulk_steal_right h q par pi kvs1 k v kvs2 es1 ka a ksa kb1 k' v' kb2 b ks1 ks2 es2 Q :
  length ka + S (length kb1) ≤ CAPACITY → fits h kb2 ks2 → length ks1 = match h with O => 0 | S _ => S (length kb1) end →
  around h q par pi kvs1 (k, v) kvs2 es1 ka a ksa (kb1 ++ (k', v') :: kb2) b (ks1 ++ ks2) es2 -∗
  (around h q par pi kvs1 (k', v') kvs2 es1 (ka ++ (k, v) :: kb1) a (ksa ++ ks1) kb2 b ks2 es2 -∗ Q tt) -∗
  hwp (bulk_steal_right (Handle_ (NodeRef_ (S h) q) (length kvs1)) (S (length kb1)) : M unit) Q.
Proof.
  iIntros (Hcap Hfit2 Hlen1) "Hp HQ". iApply (hwp_around_both with "Hp"). iIntros "Hp".
  iApply hwp_bind. iApply hwp_debug_assert; [by apply Nat.leb_le|].
  iApply hwp_bind. iApply hwp_debug_assert; [solve_len|].
  assert (length (kb1 ++ (k', v') :: kb2) - S (length kb1) = length kb2) as -> by solve_len. cbv zeta.
  iDestruct "Hp" as "[%H (Hn & [%Ha [Ha Hka]] & [%Hb [Hb Hkb]])]". destruct H as (H1 & H2 & Hq).
  destruct Ha as (Hfa & Hca & Hpa & Hla). destruct Hb as (Hfb & Hcb & Hpb & Hlb). apply Forall_app in Hlb as [Hl1 Hl2].
  do 2 (iApply hwp_bind; iApply hwp_kv_pointers; [done|]).
  iApply hwp_bind. iApply (hwp_into_kv with "Hn"); [done|apply lookup_middle..|]. iIntros "Hn". cbn [fst snd Nat.eqb].
  iApply hwp_bind. iApply hwp_ret. iApply hwp_bind. cbn [node]. iApply (hwp_load with "Hb"). iIntros "Hb".
  rewrite Nat.sub_succ Nat.sub_0_r.
  rewrite keys_of vals_of. do 2 (iApply hwp_bind; iApply hwp_get_unchecked; [apply lookup_middle|]).
  iApply hwp_bind. iApply (hwp_update with "Ha"); [by destruct h|]. iIntros "Ha". rewrite keys_of vals_of !take_middle.
  assert (set_kvs (ka.*1 ++ k :: kb1.*1) (ka.*2 ++ v :: kb1.*2) (top_of h (Some q) (Some (length kvs1)) ka (kid_at <$> ksa)) =
          top_of h (Some q) (Some (length kvs1)) (ka ++ (k, v) :: kb1) (kid_at <$> ksa)) as ->.
  { rewrite -(set_kvs_of h _ _ ka _ (ka ++ (k, v) :: kb1)). by rewrite !fmap_app !fmap_cons. }
  iApply hwp_bind. iApply (hwp_replace_kv with "Hn"); [done|]. iIntros "Hn".
  iApply hwp_bind. iApply (hwp_update with "Hb"); [by destruct h|]. iIntros "Hb".
  rewrite keys_of vals_of -Nat.add_1_r !drop_middle set_kvs_of.
  rewrite kids_app. iDestruct "Hkb" as "[Hk1 Hk2]".
  destruct h as [|h]; cbn [force height fits top_of node] in *.
  - subst ks2 ksa. destruct ks1; [|done]. iDestruct "Hk1" as "_". iDestruct "Hk2" as "_". iDestruct "Hka" as "_". iApply hwp_ret. iApply "HQ".
    iSplit; [done|]. iFrame "Hn". iSplitL "Ha"; (iSplit; [iPureIntro; split_and!; (done || solve_len)|]); iFrame; by rewrite kids_nil.
  - iApply hwp_bind. iApply (hwp_load with "Ha"). iIntros "Ha".
    do 2 (iApply hwp_bind; iApply hwp_edges_of; [done|]).
    assert (length kb1 + 1 = length ks1) as -> by lia.
    rewrite (fmap_app kid_at) (take_to (kid_at <$> ks1)) ?(drop_to (kid_at <$> ks1)) ?length_fmap //.
    iApply hwp_bind. iApply (hwp_update with "Ha"); [done|]. iIntros "Ha".
    iDestruct (kids_loose with "Hk1") as "Hk1". iDestruct (kids_loose with "Hk2") as "Hk2".
    iApply hwp_bind. iApply (hwp_link_kids _ _ _ ((kid_at <$> ksa) ++ (kid_at <$> ks1)) ks1 with "Ha Hk1");
      [done|done|done|solve_len|solve_len| |].
    { intros j Hj. rewrite lookup_app_r length_fmap; [f_equal|]; lia. }
    iIntros "Ha Hk1".
    iApply hwp_bind. iApply (hwp_update with "Hb"); [done|]. iIntros "Hb".
    iApply (hwp_link_kids _ _ _ (kid_at <$> ks2) ks2 with "Hb Hk2"); [done|done|done|solve_len|solve_len|done|].
    iIntros "Hb Hk2". iApply "HQ". iSplit; [done|]. iFrame "Hn". iSplitR "Hb Hk2".
    + iSplit; [iPureIntro; split_and!; [cbn; solve_len|solve_len|done|by apply Forall_app]|].
      rewrite kids_app fmap_app Hfa Nat.add_1_r. iFrame.
    + iSplit; [iPureIntro; split_and!; (done || solve_len)|]. iFrame.
Qed.

(** What is behind an edge goes to an empty node. *)
Lemma hwp_move_suffix h p par pi kvs1 kvs2 ks1 ks2 q parq piq ksq Q : fits h kvs1 ks1 →
  length ksq = (match h with O => 0 | S _ => 1 end) →
  node_at h p par pi (kvs1 ++ kvs2) (ks1 ++ ks2) -∗ node_at h q parq piq [] ksq -∗
  (node_at h p par pi kvs1 ks1 -∗ node_at h q parq piq kvs2 (ksq ++ ks2) -∗ Q tt) -∗
  hwp (move_suffix (Handle_ (NodeRef_ h p) (length kvs1)) (NodeRef_ h q) : M unit) Q.
Proof.
  iIntros (Hf1 Hfq) "Hl Hr HQ". unfold move_suffix. cbn [hnode idx].
  iApply hwp_bind. iApply (hwp_len_at with "Hl"). iIntros "Hl".
  assert (length (kvs1 ++ kvs2) - length kvs1 = length kvs2) as -> by solve_len. cbv zeta.
  iApply hwp_bind. iApply (hwp_len_at with "Hr"). iIntros "Hr".
  iApply hwp_bind. iApply hwp_debug_assert; [done|]. iApply hwp_bind. iApply hwp_debug_assert; [by apply Nat.eqb_eq|].
  iDestruct "Hl" as "[%Hl [Hp Hkp]]". destruct Hl as (Hfl & Hcl & Hpl & Hll). apply Forall_app in Hll as [Hl1 Hl2].
  iDestruct "Hr" as "[%Hr [Hq Hkq]]". destruct Hr as (Hfr & Hcr & Hpr & Hlr).
  do 2 (iApply hwp_bind; iApply hwp_kv_pointers; [done|]).
  iApply hwp_bind. cbn [node]. iApply (hwp_load with "Hp"). iIntros "Hp". rewrite keys_of vals_of.
  iApply hwp_bind. iApply (hwp_update with "Hq"); [by destruct h|]. iIntros "Hq".
  iApply hwp_bind. iApply (hwp_update with "Hp"); [by destruct h|]. iIntros "Hp".
  rewrite !fmap_app !take_to ?drop_to ?length_fmap // !set_kvs_of.
  rewrite kids_app. iDestruct "Hkp" as "[Hk1 Hk2]".
  destruct h as [|h]; cbn [force height fits top_of node] in *.
  - subst ks1 ksq. destruct ks2; [|done]. iDestruct "Hk1" as "_". iDestruct "Hk2" as "_". iDestruct "Hkq" as "_". iApply hwp_ret.
    iApply ("HQ" with "[Hp] [Hq]"); (iSplit; [iPureIntro; split_and!; (done || solve_len)|]); iFrame; by rewrite kids_nil.
  - destruct ksq as [|kq [|]]; [done| |done].
    iApply hwp_bind. iApply hwp_edges_of; [done|].
    iApply hwp_bind. iApply (hwp_load with "Hq"). iIntros "Hq". iApply hwp_bind. iApply hwp_edges_of; [done|].
    iApply hwp_bind. iApply hwp_get_unchecked; [done|].
    iApply hwp_bind. iApply (hwp_update with "Hq"); [done|]. iIntros "Hq".
    iApply hwp_bind. iApply (hwp_update with "Hp"); [done|]. iIntros "Hp".
    rewrite Nat.add_1_r -Hf1 (take_to (kid_at <$> ks1)) ?(drop_to (kid_at <$> ks1)) ?length_fmap //.
    iDestruct (kids_loose with "Hk2") as "Hk2". assert (length ks2 = length kvs2) as Hlen2 by solve_len.
    iApply (hwp_link_kids _ _ _ (kid_at kq :: (kid_at <$> ks2)) ks2 with "Hq Hk2"); [done|done|done|solve_len|solve_len|done|].
    iIntros "Hq Hk2". iApply ("HQ" with "[Hp Hk1] [Hq Hkq Hk2]"); iSplit.
    + iPureIntro. split_and!; (done || solve_len).
    + iFrame.
    + iPureIntro. split_and!; [cbn; solve_len|solve_len|done|by apply Forall_app].
    + cbn [app]. rewrite !kids_cons. iDestruct "Hkq" as "[$ _]". iFrame.
Qed.
End bulk.
