(* ===== verification/BTreeBorder.v ===== *)
(** * BTreeBorder: mending the border of a tree

    [rrim] and [lrim] are trees whose nodes along the right or the left border may
    have any number of keys, as a split leaves them.  [fix_top] and the loops of
    [fix_right_border] and [fix_left_border] make them trees of [NodeSpec] with the
    same entries. *)

From S2P Require Import Prelude HeapLogic Node NodeSpec Kids BTree BTreeSpec Rebalance BTreeRemove BTreeIter BTreeBulk BTreeMove.
From iris.proofmode Require Import proofmode.
From iris.prelude Require Import options.

#[local] Open Scope nat_scope.

(** ** Trees with one loose border *)

Section rim.
Context {K V A : Type} `{!GlobalAlloc NodeLayout A}.
#[local] Abbreviation N := (Node K V).
#[local] Abbreviation M := (M (store N A)).
#[local] Abbreviation prop := (hProp N).
#[local] Abbreviation sub := (Z * list (K * V))%type.
#[local] Abbreviation kid := (kid (K := K) (V := V)).
#[local] Notation "p ↦ n" := (points_to p n) (at level 20) : bi_scope.
Implicit Types (L : list (K * V)) (kvs : list (K * V)) (es : list Z) (ks : list kid) (cs : list sub).

(** What stands beside the border: trees of [NodeSpec] whose nodes, all the way
    down, have at least [sib_least] keys. *)
Class Siblings := {
  sib : nat → sub → kid;
  sib_least : nat;
  sib_at h c : kid_at (sib h c) = c.1;
  sib_tree h c par pi : kid_tree (sib h c) par pi ⊢ tree_at h 4 c.1 par pi c.2;
  sib_open h c par pi : kid_tree (sib h c) par pi ⊢ ∃ kvs cs,
    ⌜shape h kvs cs ∧ sib_least ≤ length kvs ∧ c.2 = entries h kvs cs⌝ ∧ node_at h c.1 par pi kvs (sib (h - 1) <$> cs);
  sib_linkable h c : linkable (sib h c)
}.

(** Ordinary trees, and trees whose nodes are all full. *)
Definition trees : Siblings.
Proof.
  refine {| sib h c := tree_kid h 4 c; sib_least := 4 |}.
  - done.
  - intros h c par pi. done.
  - intros h c par pi. cbn. iIntros "Ht". iDestruct (tree_sized with "Ht") as (m Hm) "Ht".
    iDestruct (sized_node with "Ht") as (kvs cs (Hs & <- & HL)) "H". iExists kvs, cs. by iSplit.
  - intros h c. apply tree_linkable.
Defined.

Fixpoint dense (h : nat) (p : Z) (par : option Z) (pi : option nat) L : prop :=
  match h with
  | O => ⌜length L = CAPACITY ∧ (STATIC_END <= p)%Z⌝ ∧ p ↦ leaf_node par pi L
  | S h => ∃ kvs cs,
      ⌜length kvs = CAPACITY ∧ (STATIC_END <= p)%Z ∧ length cs = S (length kvs) ∧ L = inter cs.*2 kvs⌝ ∧
      p ↦ inner_node par pi kvs cs.*1 ∗
      [∗ list] i ↦ c ∈ cs, dense h c.1 (Some p) (Some i) c.2
  end.
Definition dense_kid h (c : sub) : kid := Kid c.1 (λ par pi, dense h c.1 par pi c.2).

Lemma dense_linkable h c : linkable (dense_kid h c).
Proof.
  intros par pi. destruct h as [|h]; cbn.
  - iIntros "[%H Hn]". iExists (leaf_node par pi c.2). iFrame. iIntros (par' pi') "Hn". by iSplit.
  - iIntros "(%kvs & %cs & %H & Hn & Hcs)". iExists (inner_node par pi kvs cs.*1). iFrame.
    iIntros (par' pi') "Hn". iExists kvs, cs. iSplit; [done|]. iFrame.
Qed.

Lemma dense_tree h le p par pi L : le ≤ CAPACITY → dense h p par pi L ⊢ tree_at h le p par pi L.
Proof.
  revert le p par pi L. induction h as [|h IH]; intros le p par pi L Hle; cbn.
  - iIntros "[%H Hn]". destruct H as [Hl Hp]. iSplit; [iPureIntro; split; [solve_len|done]|done].
  - iIntros "(%kvs & %cs & %H & Hn & Hcs)". destruct H as (Hl & Hp & Hcs & HL). iExists kvs, cs.
    iSplit; [iPureIntro; split_and!; (done || solve_len)|]. iFrame.
    iApply (big_sepL_mono with "Hcs"). intros i c _. apply IH. unfold CAPACITY, B. lia.
Qed.

Lemma dense_kids p i h cs : kids p i (dense_kid h <$> cs) ⊣⊢ [∗ list] j ↦ c ∈ cs, dense h c.1 (Some p) (Some (i + j)) c.2.
Proof. by rewrite /kids big_sepL_fmap. Qed.
Lemma dense_at h cs : kid_at <$> (dense_kid h <$> cs) = cs.*1.
Proof. by rewrite -list_fmap_compose. Qed.
Lemma denses_linkable h cs : Forall linkable (dense_kid h <$> cs).
Proof. apply Forall_fmap, Forall_true. intros c. apply dense_linkable. Qed.

Definition denses : Siblings.
Proof.
  refine {| sib h c := dense_kid h c; sib_least := CAPACITY |}.
  - done.
  - intros h c par pi. apply dense_tree. unfold CAPACITY, B. lia.
  - intros h c par pi. destruct h as [|h]; cbn.
    + iIntros "[%H Hn]". destruct H as [Hl Hp]. iExists c.2, []. iSplit; [iPureIntro; split_and!; [done|solve_len|done]|].
      iSplit; [iPureIntro; split_and!; [done|solve_len|done|constructor]|]. iFrame. by rewrite kids_nil.
    + iIntros "(%kvs & %cs & %H & Hn & Hcs)". destruct H as (Hl & Hp & Hcs & ->). iExists kvs, cs.
      iSplit; [iPureIntro; split_and!; [done|solve_len|done]|]. rewrite Nat.sub_0_r.
      iSplit; [iPureIntro; split_and!; [cbn; solve_len|solve_len|done|apply denses_linkable]|].
      rewrite dense_at dense_kids. iFrame.
  - intros h c. apply dense_linkable.
Defined.

Section siblings.
Context `{Sb : !Siblings}.

Lemma sibs_at h cs : kid_at <$> (sib h <$> cs) = cs.*1.
Proof. rewrite -list_fmap_compose. apply list_fmap_ext. intros i c _. apply sib_at. Qed.
Lemma sibs_linkable h cs : Forall linkable (sib h <$> cs).
Proof. apply Forall_fmap, Forall_true. intros c. apply sib_linkable. Qed.
Lemma sibs_trees p i h cs : kids p i (sib h <$> cs) ⊢ kids p i (tree_kid h 4 <$> cs).
Proof.
  rewrite /kids !big_sepL_fmap. apply big_sepL_mono. intros j c _. apply sib_tree.
Qed.

(** A node over siblings only is a tree. *)
Lemma sibs_node h le p par pi kvs cs : shape h kvs cs → le ≤ length kvs →
  node_at h p par pi kvs (sib (h - 1) <$> cs) ⊢ tree_at h le p par pi (entries h kvs cs).
Proof.
  iIntros (Hs Hle) "[%H [Hn Hks]]". destruct H as (Hf & Hc & Hp & _). rewrite sibs_at sibs_trees.
  iApply (sized_tree _ _ (length kvs)); [done|]. iApply node_at_sized; [done|].
  iSplit; [iPureIntro; split_and!; [by apply shape_fits|done|done|apply trees_linkable]|]. rewrite kids_at. iFrame.
Qed.

(** The right border loose, the top node with [m] keys. *)
Fixpoint rrim (h m : nat) (p : Z) (par : option Z) (pi : option nat) L : prop :=
  match h with
  | O => ⌜length L = m ∧ m ≤ CAPACITY ∧ (STATIC_END <= p)%Z⌝ ∧ p ↦ leaf_node par pi L
  | S h => ∃ kvs cs e m' Le,
      ⌜length kvs = m ∧ m ≤ CAPACITY ∧ (STATIC_END <= p)%Z ∧ length cs = m ∧ L = lefts cs.*2 kvs ++ Le⌝ ∧
      p ↦ inner_node par pi kvs (cs.*1 ++ [e]) ∗ kids p 0 (sib h <$> cs) ∗ rrim h m' e (Some p) (Some m) Le
  end.
Definition rrim_kid h m e Le : kid := Kid e (λ par pi, rrim h m e par pi Le).

Lemma rrim_linkable h m e Le : linkable (rrim_kid h m e Le).
Proof.
  intros par pi. destruct h as [|h]; cbn.
  - iIntros "[%H Hn]". iExists (leaf_node par pi Le). iFrame. iIntros (par' pi') "Hn". by iSplit.
  - iIntros "(%kvs & %cs & %e' & %m' & %Le' & %H & Hn & Hcs & Ht)". iExists _. iFrame "Hn".
    iIntros (par' pi') "Hn". iExists kvs, cs, e', m', Le'. iSplit; [done|]. iFrame.
Qed.

(** Such a node as a node over subtrees. *)
Definition rrim_parts h kvs ks L : Prop :=
  match h with
  | O => ks = [] ∧ L = kvs
  | S h => ∃ cs e m' Le, ks = (sib h <$> cs) ++ [rrim_kid h m' e Le] ∧ length cs = length kvs ∧ L = lefts cs.*2 kvs ++ Le
  end.

Lemma rrim_node h m p par pi L : rrim h m p par pi L ⊣⊢ ∃ kvs ks,
  ⌜length kvs = m ∧ rrim_parts h kvs ks L⌝ ∧ node_at h p par pi kvs ks.
Proof.
  destruct h as [|h]; cbn; apply (anti_symm _).
  - iIntros "[%H Hn]". destruct H as (Hl & Hc & Hp). iExists L, []. iSplit; [done|].
    iSplit; [iPureIntro; split_and!; [done|solve_len|done|constructor]|]. iFrame. by rewrite kids_nil.
  - iIntros "(%kvs & %ks & %H & %H' & Hn & Hks)". destruct H as (Hl & -> & ->). destruct H' as (_ & Hc & Hp & _).
    rewrite kids_nil. iDestruct "Hks" as "_". iSplit; [iPureIntro; split_and!; [done|solve_len|done]|]. done.
  - iIntros "(%kvs & %cs & %e & %m' & %Le & %H & Hn & Hcs & Ht)". destruct H as (Hl & Hc & Hp & Hcs & ->).
    iExists kvs, ((sib h <$> cs) ++ [rrim_kid h m' e Le]). iSplit; [iPureIntro; split; [done|]; exists cs, e, m', Le; split_and!; (done || solve_len)|].
    iSplit.
    { iPureIntro. split_and!; [cbn; solve_len|solve_len|done|]. apply Forall_app. split; [apply sibs_linkable|].
      apply Forall_singleton, rrim_linkable. }
    rewrite fmap_app sibs_at kids_app kids_cons kids_nil /= length_fmap Hcs. iFrame.
  - iIntros "(%kvs & %ks & %H & %H' & Hn & Hks)". destruct H as (Hl & cs & e & m' & Le & -> & Hcs & ->). destruct H' as (_ & Hc & Hp & _).
    iExists kvs, cs, e, m', Le. iSplit; [iPureIntro; split_and!; (done || solve_len)|].
    rewrite fmap_app sibs_at kids_app kids_cons /= length_fmap Hcs Hl. iDestruct "Hks" as "($ & $ & _)". iFrame.
Qed.

(** A sibling's node in front of it. *)
Lemma rrim_parts_app h ka ca kv kb ksb Lb : shape h ka ca → rrim_parts h kb ksb Lb →
  rrim_parts h (ka ++ kv :: kb) ((sib (h - 1) <$> ca) ++ ksb) (entries h ka ca ++ kv :: Lb).
Proof.
  destruct h as [|h]; cbn [rrim_parts shape entries].
  - by intros -> [-> ->].
  - intros Hca (cs & e & m' & Le & -> & Hcs & ->). rewrite Nat.sub_succ Nat.sub_0_r.
    exists (ca ++ cs), e, m', Le. split_and!; [by rewrite fmap_app app_assoc|solve_len|].
    rewrite (cons_middle kv ka kb) (app_assoc ka) fmap_app lefts_app; [|solve_len].
    rewrite -inter_lefts; [|by rewrite length_fmap]. by rewrite -!app_assoc.
Qed.

(** The last key of a node with a loose border, and what is around it. *)
Lemma rrim_last h m p par pi L : 1 ≤ m → rrim (S h) m p par pi L ⊢
  ∃ kvs1 kv cs1 ka a ca kb b ksb Lb,
    ⌜S (length kvs1) = m ∧ m ≤ CAPACITY ∧ (STATIC_END <= p)%Z ∧ length cs1 = length kvs1 ∧ shape h ka ca ∧ sib_least ≤ length ka ∧
     rrim_parts h kb ksb Lb ∧ L = lefts cs1.*2 kvs1 ++ entries h ka ca ++ kv :: Lb⌝ ∧
    around h p par pi kvs1 kv [] cs1.*1 ka a (sib (h - 1) <$> ca) kb b ksb [] ∗ kids p 0 (sib h <$> cs1).
Proof.
  iIntros (Hm) "(%kvs & %cs & %b & %mb & %Lb & %H & Hn & Hcs & Hb)". destruct H as (Hl & Hc & Hp & Hcs & ->).
  destruct kvs as [|kv kvs1 _] using rev_ind; [cbn in *; lia|]. destruct cs as [|c cs1 _] using rev_ind; [cbn in *; lia|].
  rewrite length_app in Hl. rewrite length_app in Hcs. cbn in Hl, Hcs.
  rewrite (fmap_app (sib h)) kids_app kids_cons kids_nil length_fmap. iDestruct "Hcs" as "(Hcs & Ha & _)".
  iDestruct (sib_open with "Ha") as (ka ca (Hs & Hka & HLa)) "Ha".
  iDestruct (rrim_node with "Hb") as (kb ksb (Hkb & Hpb)) "Hb".
  iExists kvs1, kv, cs1, ka, c.1, ca, kb, b, ksb, Lb. iSplit.
  { iPureIntro. split_and!; [lia|done|done|lia|done..|]. rewrite fmap_app lefts_app ?length_fmap; [|lia].
    by rewrite -HLa /= -!app_assoc. }
  iFrame "Hcs". iSplit; [iPureIntro; split_and!; [by rewrite length_fmap; lia|done..]|].
  rewrite fmap_app -app_assoc /=. replace (length cs1) with (length kvs1) by lia.
  replace m with (S (length kvs1)) by lia. iFrame.
Qed.
(** ** The left border loose *)

Fixpoint lrim (h m : nat) (p : Z) (par : option Z) (pi : option nat) L : prop :=
  match h with
  | O => ⌜length L = m ∧ m ≤ CAPACITY ∧ (STATIC_END <= p)%Z⌝ ∧ p ↦ leaf_node par pi L
  | S h => ∃ kvs cs e m' Le,
      ⌜length kvs = m ∧ m ≤ CAPACITY ∧ (STATIC_END <= p)%Z ∧ length cs = m ∧ L = Le ++ rights kvs cs.*2⌝ ∧
      p ↦ inner_node par pi kvs (e :: cs.*1) ∗ kids p 1 (sib h <$> cs) ∗ lrim h m' e (Some p) (Some 0) Le
  end.
Definition lrim_kid h m e Le : kid := Kid e (λ par pi, lrim h m e par pi Le).

Lemma lrim_linkable h m e Le : linkable (lrim_kid h m e Le).
Proof.
  intros par pi. destruct h as [|h]; cbn.
  - iIntros "[%H Hn]". iExists (leaf_node par pi Le). iFrame. iIntros (par' pi') "Hn". by iSplit.
  - iIntros "(%kvs & %cs & %e' & %m' & %Le' & %H & Hn & Hcs & Ht)". iExists _. iFrame "Hn".
    iIntros (par' pi') "Hn". iExists kvs, cs, e', m', Le'. iSplit; [done|]. iFrame.
Qed.

Definition lrim_parts h kvs ks L : Prop :=
  match h with
  | O => ks = [] ∧ L = kvs
  | S h => ∃ cs e m' Le, ks = lrim_kid h m' e Le :: (sib h <$> cs) ∧ length cs = length kvs ∧ L = Le ++ rights kvs cs.*2
  end.

Lemma lrim_node h m p par pi L : lrim h m p par pi L ⊣⊢ ∃ kvs ks,
  ⌜length kvs = m ∧ lrim_parts h kvs ks L⌝ ∧ node_at h p par pi kvs ks.
Proof.
  destruct h as [|h]; cbn; apply (anti_symm _).
  - iIntros "[%H Hn]". destruct H as (Hl & Hc & Hp). iExists L, []. iSplit; [done|].
    iSplit; [iPureIntro; split_and!; [done|solve_len|done|constructor]|]. iFrame. by rewrite kids_nil.
  - iIntros "(%kvs & %ks & %H & %H' & Hn & Hks)". destruct H as (Hl & -> & ->). destruct H' as (_ & Hc & Hp & _).
    rewrite kids_nil. iDestruct "Hks" as "_". iSplit; [iPureIntro; split_and!; [done|solve_len|done]|]. done.
  - iIntros "(%kvs & %cs & %e & %m' & %Le & %H & Hn & Hcs & Ht)". destruct H as (Hl & Hc & Hp & Hcs & ->).
    iExists kvs, (lrim_kid h m' e Le :: (sib h <$> cs)). iSplit; [iPureIntro; split; [done|]; exists cs, e, m', Le; split_and!; (done || solve_len)|].
    iSplit.
    { iPureIntro. split_and!; [cbn; solve_len|solve_len|done|]. constructor; [apply lrim_linkable|apply sibs_linkable]. }
    rewrite fmap_cons sibs_at kids_cons /=. iFrame.
  - iIntros "(%kvs & %ks & %H & %H' & Hn & Hks)". destruct H as (Hl & cs & e & m' & Le & -> & Hcs & ->). destruct H' as (_ & Hc & Hp & _).
    iExists kvs, cs, e, m', Le. iSplit; [iPureIntro; split_and!; (done || solve_len)|].
    rewrite fmap_cons sibs_at kids_cons /=. iDestruct "Hks" as "[$ $]". iFrame.
Qed.

Lemma lrim_parts_app h ka ksa La kv kb cb : lrim_parts h ka ksa La → shape h kb cb →
  lrim_parts h (ka ++ kv :: kb) (ksa ++ (sib (h - 1) <$> cb)) (La ++ kv :: entries h kb cb).
Proof.
  destruct h as [|h]; cbn [lrim_parts shape entries].
  - by intros [-> ->] ->.
  - intros (cs & e & m' & Le & -> & Hcs & ->) Hcb. rewrite Nat.sub_succ Nat.sub_0_r.
    exists (cs ++ cb), e, m', Le. split_and!; [by rewrite fmap_app|solve_len|].
    rewrite fmap_app rights_app; [|solve_len]. destruct cb as [|c cb]; [done|]. by rewrite -!app_assoc.
Qed.

(** The first key of a node with a loose border, and what is around it. *)
Lemma lrim_first h m p par pi L : 1 ≤ m → lrim (S h) m p par pi L ⊢
  ∃ kv kvs2 cs2 ka a ksa La kb b cb,
    ⌜S (length kvs2) = m ∧ m ≤ CAPACITY ∧ (STATIC_END <= p)%Z ∧ length cs2 = length kvs2 ∧ shape h kb cb ∧ sib_least ≤ length kb ∧
     lrim_parts h ka ksa La ∧ L = La ++ kv :: entries h kb cb ++ rights kvs2 cs2.*2⌝ ∧
    around h p par pi [] kv kvs2 [] ka a ksa kb b (sib (h - 1) <$> cb) (kid_at <$> (sib h <$> cs2)) ∗ kids p 2 (sib h <$> cs2).
Proof.
  iIntros (Hm) "(%kvs & %cs & %a & %ma & %La & %H & Hn & Hcs & Ha)". destruct H as (Hl & Hc & Hp & Hcs & ->).
  destruct kvs as [|kv kvs2]; [cbn in *; lia|]. destruct cs as [|c cs2]; [cbn in *; lia|]. cbn in Hl, Hcs.
  rewrite (fmap_cons (sib h)) kids_cons. iDestruct "Hcs" as "[Hb Hcs]".
  iDestruct (sib_open with "Hb") as (kb cb (Hs & Hkb & HLb)) "Hb".
  iDestruct (lrim_node with "Ha") as (ka ksa (Hka & Hpa)) "Ha".
  iExists kv, kvs2, cs2, ka, a, ksa, La, kb, c.1, cb. iSplit.
  { iPureIntro. split_and!; [lia|done|done|lia|done..|]. by rewrite -HLb. }
  iFrame "Hcs". iSplit; [iPureIntro; split_and!; [done|by rewrite !length_fmap; lia|done]|].
  rewrite sibs_at. iFrame.
Qed.
End siblings.

(** A node cut at one of its keys. *)
Lemma shape_split h (ka1 : list (K * V)) kv ka2 (ca : list sub) : shape h (ka1 ++ kv :: ka2) ca →
  ∃ ca1 ca2, ca = ca1 ++ ca2 ∧ shape h ka1 ca1 ∧ shape h ka2 ca2 ∧
    entries h (ka1 ++ kv :: ka2) ca = entries h ka1 ca1 ++ kv :: entries h ka2 ca2.
Proof.
  destruct h as [|h]; cbn [shape entries]; intros Hca.
  - subst. by exists [], [].
  - exists (take (S (length ka1)) ca), (drop (S (length ka1)) ca). rewrite length_app /= in Hca.
    split_and!; [by rewrite take_drop|rewrite length_take; lia|rewrite length_drop; lia|].
    rewrite -{1}(take_drop (S (length ka1)) ca) fmap_app inter_split //; [rewrite length_fmap length_take; lia|].
    intros H%fmap_nil_inv%(f_equal length). rewrite length_drop /= in H. lia.
Qed.
Lemma split_last {T} (l : list T) n : n < length l → ∃ l1 x l2, l = l1 ++ x :: l2 ∧ length l2 = n.
Proof.
  intros Hn. destruct (lookup_lt_is_Some_2 l (length l - S n) ltac:(lia)) as [x Hx].
  exists (take (length l - S n) l), x, (drop (S (length l - S n)) l). rewrite take_drop_middle // length_drop. split; [done|lia].
Qed.
Lemma shape_kids `{Sb : !Siblings} h kvs cs : shape h kvs cs → fits h kvs (sib (h - 1) <$> cs).
Proof. destruct h; cbn; [by intros ->|by rewrite length_fmap]. Qed.

(** A node over trees, the last one apart. *)
Lemma rim_close h le q par pi kvs cs e Le : length cs = length kvs → le ≤ length kvs ≤ CAPACITY → (STATIC_END <= q)%Z →
  q ↦ inner_node par pi kvs (cs.*1 ++ [e]) -∗ kids q 0 (tree_kid h 4 <$> cs) -∗ tree_at h 4 e (Some q) (Some (length kvs)) Le -∗
  tree_at (S h) le q par pi (lefts cs.*2 kvs ++ Le).
Proof.
  iIntros (Hcs Hle Hq) "Hn Hcs He". rewrite -[X in lefts _ X](app_nil_r kvs).
  iExists kvs, (cs ++ [(e, Le)]). iSplit.
  { iPureIntro. split_and!; [lia|lia|done|solve_len|]. rewrite fmap_app -{2}(app_nil_r kvs) inter_focus ?length_fmap //.
    by rewrite !app_nil_r. }
  rewrite fmap_app. iFrame "Hn". iApply big_sepL_app. rewrite kids_children. iFrame "Hcs". cbn. rewrite Hcs Nat.add_0_r. by iFrame.
Qed.

(** Going on in the last subtree. *)
Lemma hwp_last_child `{Sb : !Siblings} (go : NodeRef → M unit) h q par pi kvs1 kv cs1 ka a ca kb b ksb Lb le Q :
  length cs1 = length kvs1 → length kvs1 < CAPACITY → le ≤ S (length kvs1) → shape h ka ca → 4 ≤ length ka → rrim_parts h kb ksb Lb →
  around h q par pi kvs1 kv [] cs1.*1 ka a (sib (h - 1) <$> ca) kb b ksb [] -∗ kids q 0 (sib h <$> cs1) -∗
  (∀ Q', rrim h (length kb) b (Some q) (Some (S (length kvs1))) Lb -∗
     (tree_at h 4 b (Some q) (Some (S (length kvs1))) Lb -∗ Q' tt) -∗ hwp (go (NodeRef_ h b)) Q') -∗
  (tree_at (S h) le q par pi (lefts cs1.*2 kvs1 ++ entries h ka ca ++ kv :: Lb) -∗ Q tt) -∗
  hwp (c ← descend (Handle_ (NodeRef_ (S h) q) (length kvs1 + 1)); go c) Q.
Proof.
  iIntros (Hcs1 Hcap Hle Hca Hka Hkb) "Hp Hks Hgo HQ". iApply hwp_bind. iApply (hwp_around_right with "Hp").
  iIntros "[%H (Hn & Ha & Hb)]". destruct H as (_ & _ & Hq).
  iApply ("Hgo" with "[Hb]"); [iApply rrim_node; iExists _, _; iSplit; [done|iExact "Hb"]|].
  iIntros "Hb". iApply "HQ". iDestruct (sibs_node with "Ha") as "Ha"; [done|exact Hka|].
  assert (lefts cs1.*2 kvs1 ++ entries h ka ca ++ kv :: Lb = lefts (cs1 ++ [(a, entries h ka ca)]).*2 (kvs1 ++ [kv]) ++ Lb) as ->
    by (rewrite fmap_app lefts_app; [by rewrite /= -!app_assoc|solve_len]).
  iApply (rim_close with "[Hn] [Hks Ha] [Hb]"); [solve_len|solve_len|done| | |].
  - rewrite fmap_app -app_assoc. iExact "Hn".
  - rewrite sibs_trees (fmap_app (tree_kid h 4)) kids_app kids_cons kids_nil length_fmap Hcs1. iFrame.
  - by rewrite length_app Nat.add_1_r.
Qed.

(** ** Mending a right border *)

Lemma hwp_last_kv h q par pi kvs1 kv es1 ka a ksa kb b ksb Q :
  around h q par pi kvs1 kv [] es1 ka a ksa kb b ksb [] -∗
  (around h q par pi kvs1 kv [] es1 ka a ksa kb b ksb [] -∗ Q (Handle_ (NodeRef_ (S h) q) (length kvs1))) -∗
  hwp (last_kv (NodeRef_ (S h) q) : M _) Q.
Proof.
  iIntros "[%H [Hn Hab]] HQ". destruct H as (H1 & H2 & Hq).
  iApply hwp_bind. iApply (hwp_len with "Hn"); [done|]. iIntros "Hn".
  iApply hwp_bind. iApply hwp_debug_assert; [solve_len|].
  assert (length (keys (inner_node par pi (kvs1 ++ [kv]) (es1 ++ [a; b]))) - 1 = length kvs1) as -> by solve_len.
  iApply (hwp_new_kv with "Hn"); [done|solve_len|]. iIntros "Hn". iApply "HQ". iSplit; [done|]. iFrame.
Qed.

(** The same from the left. *)
Lemma split_first {T} (l : list T) n : n < length l → ∃ l1 x l2, l = l1 ++ x :: l2 ∧ length l1 = n.
Proof.
  intros Hn. destruct (lookup_lt_is_Some_2 l n Hn) as [x Hx].
  exists (take n l), x, (drop (S n) l). rewrite take_drop_middle // length_take. split; [done|lia].
Qed.

Lemma rim_close_left h le q par pi kvs cs e Le : length cs = length kvs → le ≤ length kvs ≤ CAPACITY → (STATIC_END <= q)%Z →
  q ↦ inner_node par pi kvs (e :: cs.*1) -∗ kids q 1 (tree_kid h 4 <$> cs) -∗ tree_at h 4 e (Some q) (Some 0) Le -∗
  tree_at (S h) le q par pi (Le ++ rights kvs cs.*2).
Proof.
  iIntros (Hcs Hle Hq) "Hn Hcs He". iExists kvs, ((e, Le) :: cs). iSplit; [iPureIntro; split_and!; (done || solve_len)|].
  iFrame "Hn". rewrite kids_children. cbn. by iFrame.
Qed.

Lemma hwp_first_kv h q par pi kv kvs2 ka a ksa kb b ksb es2 Q :
  around h q par pi [] kv kvs2 [] ka a ksa kb b ksb es2 -∗
  (around h q par pi [] kv kvs2 [] ka a ksa kb b ksb es2 -∗ Q (Handle_ (NodeRef_ (S h) q) 0)) -∗
  hwp (first_kv (NodeRef_ (S h) q) : M _) Q.
Proof.
  iIntros "[%H [Hn Hab]] HQ". destruct H as (H1 & H2 & Hq).
  iApply hwp_bind. iApply (hwp_len with "Hn"); [done|]. iIntros "Hn".
  iApply hwp_bind. iApply hwp_debug_assert; [done|].
  iApply (hwp_new_kv with "Hn"); [done|solve_len|]. iIntros "Hn". iApply "HQ". iSplit; [done|]. iFrame.
Qed.

(** Going on in the first subtree. *)
Lemma hwp_first_child `{Sb : !Siblings} (go : NodeRef → M unit) h q par pi kv kvs2 cs2 ka a ksa La kb b cb le Q :
  length cs2 = length kvs2 → length kvs2 < CAPACITY → le ≤ S (length kvs2) → shape h kb cb → 4 ≤ length kb → lrim_parts h ka ksa La →
  around h q par pi [] kv kvs2 [] ka a ksa kb b (sib (h - 1) <$> cb) (kid_at <$> (sib h <$> cs2)) -∗ kids q 2 (sib h <$> cs2) -∗
  (∀ Q', lrim h (length ka) a (Some q) (Some 0) La -∗
     (tree_at h 4 a (Some q) (Some 0) La -∗ Q' tt) -∗ hwp (go (NodeRef_ h a)) Q') -∗
  (tree_at (S h) le q par pi (La ++ kv :: entries h kb cb ++ rights kvs2 cs2.*2) -∗ Q tt) -∗
  hwp (c ← descend (Handle_ (NodeRef_ (S h) q) 0); go c) Q.
Proof.
  iIntros (Hcs2 Hcap Hle Hcb Hkb Hka) "Hp Hks Hgo HQ". iApply hwp_bind. iApply (hwp_around_left with "Hp").
  iIntros "[%H (Hn & Ha & Hb)]". destruct H as (_ & _ & Hq).
  iApply ("Hgo" with "[Ha]"); [iApply lrim_node; iExists _, _; iSplit; [done|iExact "Ha"]|].
  iIntros "Ha". iApply "HQ". iDestruct (sibs_node with "Hb") as "Hb"; [done|exact Hkb|].
  iApply (rim_close_left _ _ _ _ _ (kv :: kvs2) ((b, entries h kb cb) :: cs2) with "[Hn] [Hks Hb] Ha"); [solve_len|solve_len|done| |].
  - rewrite sibs_at. iExact "Hn".
  - rewrite sibs_trees (fmap_cons (tree_kid h 4)) kids_cons. iFrame.
Qed.

Section mend.
#[local] Existing Instance trees.

Lemma hwp_right_border h : ∀ fuel m p par pi L Q, h ≤ fuel → h = 0 ∨ 1 ≤ m → let b := match h with O => 0 | S _ => 1 end in
  rrim h m p par pi L -∗ (tree_at h (m - b) p par pi L -∗ Q tt) -∗
  hwp (right_border_loop fuel (NodeRef_ h p) : M unit) Q.
Proof.
  induction h as [|h IH]; intros fuel m p par pi L Q Hf Hm; cbn zeta; iIntros "Ht HQ".
  - unfold right_border_loop. destruct fuel; cbn; (iApply hwp_ret; iApply "HQ"; iDestruct "Ht" as "[%H Hn]"; iSplit; [|done]);
      iPureIntro; destruct H as (<- & ? & ?); (split; [solve_len|done]).
  - destruct fuel as [|fuel]; [lia|]. destruct Hm as [|Hm]; [done|]. cbn [right_border_loop force height].
    iDestruct (rrim_last with "Ht") as (kvs1 kv cs1 ka a ca kb b ksb Lb H) "[Hp Hks]"; [done|].
    destruct H as (<- & Hcap & Hp & Hcs1 & Hca & Hka & Hkb & ->). cbn in Hka.
    iApply hwp_bind. iApply (hwp_last_kv with "Hp"). iIntros "Hp".
    iApply hwp_bind. iApply (hwp_can_merge_around with "Hp"). iIntros "Hp". destruct (Nat.leb_spec (length ka + length kb + 1) CAPACITY) as [Hab|Hab].
    + destruct kv as [k v]. iApply hwp_bind. iApply (hwp_merge_kids _ _ _ _ _ _ _ [] _ _ _ _ _ _ _ [] with "Hp []"); [done|solve_len|done|by rewrite /kids|].
      iIntros "Hn Ha _". rewrite app_nil_r. iApply hwp_bind.
      iApply (hwp_descend with "Hn"); [done|by apply lookup_left; rewrite length_fmap|]. iIntros "Hn". replace (S h - 1) with h by lia.
      iApply (IH with "[Ha]"); [lia|right; exact (Nat.lt_0_succ (length ka + length kb))| |].
      * iApply rrim_node. iExists (ka ++ (k, v) :: kb), _. iSplit; [iPureIntro|iExact "Ha"]. split; [solve_len|].
        by apply rrim_parts_app.
      * iIntros "Ha". iApply "HQ". iApply (rim_close with "Hn Hks"); [done|solve_len|done|].
        iApply (tree_weaken with "Ha"). destruct h; lia.
    + iApply hwp_bind. iApply (hwp_around_edge with "Hp"); [cbn; lia|]. iIntros "Hp".
      iApply hwp_bind. iApply (hwp_around_right with "Hp"). iIntros "Hp".
      iApply hwp_bind. iApply (hwp_around_right_len with "Hp"). iIntros "Hp". iApply hwp_bind.
      destruct (Nat.ltb_spec (length kb) (MIN_LEN + 1)) as [Hkb6|Hkb6].
      * destruct (split_last ka (5 - length kb)) as (ka1 & [k' v'] & ka2 & -> & Hka2); [solve_len|].
        apply shape_split in Hca as (ca1 & ca2 & -> & Hca1 & Hca2 & ->). rewrite length_app /= in Hab.
        replace (MIN_LEN + 1 - length kb) with (S (length ka2)) by solve_len. rewrite fmap_app. destruct kv as [k v].
        iApply (hwp_bulk_steal_left with "Hp"); [solve_len|by apply shape_kids|destruct h; cbn in *; [by subst|solve_len]|]. iIntros "Hp".
        iApply hwp_bind. iApply (hwp_around_edge with "Hp"); [cbn; lia|]. iIntros "Hp". rewrite -app_assoc.
        iApply (hwp_last_child with "Hp Hks [] HQ"); [done|done|lia|done|solve_len|by apply rrim_parts_app|].
        iIntros (Q') "Hb Hback". iApply (IH with "Hb"); [lia|solve_len|]. iIntros "Hb". iApply "Hback".
        iApply (tree_weaken with "Hb"). destruct h; solve_len.
      * iApply hwp_ret. iApply hwp_bind. iApply (hwp_around_edge with "Hp"); [cbn; lia|]. iIntros "Hp".
        iApply (hwp_last_child with "Hp Hks [] HQ"); [done|done|lia|done|done|done|].
        iIntros (Q') "Hb Hback". iApply (IH with "Hb"); [lia|solve_len|]. iIntros "Hb". iApply "Hback".
        iApply (tree_weaken with "Hb"). destruct h; solve_len.
Qed.
(** ** Mending a left border *)

Lemma hwp_left_border h : ∀ fuel m p par pi L Q, h ≤ fuel → h = 0 ∨ 1 ≤ m → let b := match h with O => 0 | S _ => 1 end in
  lrim h m p par pi L -∗ (tree_at h (m - b) p par pi L -∗ Q tt) -∗
  hwp (left_border_loop fuel (NodeRef_ h p) : M unit) Q.
Proof.
  induction h as [|h IH]; intros fuel m p par pi L Q Hf Hm; cbn zeta; iIntros "Ht HQ".
  - unfold left_border_loop. destruct fuel; cbn; (iApply hwp_ret; iApply "HQ"; iDestruct "Ht" as "[%H Hn]"; iSplit; [|done]);
      iPureIntro; destruct H as (<- & ? & ?); (split; [solve_len|done]).
  - destruct fuel as [|fuel]; [lia|]. destruct Hm as [|Hm]; [done|]. cbn [left_border_loop force height].
    iDestruct (lrim_first with "Ht") as (kv kvs2 cs2 ka a ksa La kb b cb H) "[Hp Hks]"; [done|].
    destruct H as (<- & Hcap & Hp & Hcs2 & Hcb & Hkb & Hka & ->). cbn in Hkb.
    iApply hwp_bind. iApply (hwp_first_kv with "Hp"). iIntros "Hp".
    iApply hwp_bind. iApply (hwp_can_merge_around with "Hp"). iIntros "Hp". cbn [length]. destruct (Nat.leb_spec (length ka + length kb + 1) CAPACITY) as [Hab|Hab].
    + destruct kv as [k v]. iApply hwp_bind. iApply (hwp_merge_kids _ _ _ _ [] with "Hp Hks"); [done|solve_len|apply sibs_linkable|].
      iIntros "Hn Ha Hks". cbn [app length]. iApply hwp_bind.
      iApply (hwp_descend with "Hn"); [done|done|]. iIntros "Hn". replace (S h - 1) with h by lia.
      iApply (IH with "[Ha]"); [lia|right; exact (Nat.lt_0_succ (length ka + length kb))| |].
      * iApply lrim_node. iExists (ka ++ (k, v) :: kb), _. iSplit; [iPureIntro|iExact "Ha"]. split; [solve_len|].
        by apply lrim_parts_app.
      * iIntros "Ha". iApply "HQ". rewrite sibs_at. replace (La ++ (k, v) :: entries h kb cb ++ rights kvs2 cs2.*2) with
          ((La ++ (k, v) :: entries h kb cb) ++ rights kvs2 cs2.*2) by by rewrite -app_assoc.
        iApply (rim_close_left with "Hn Hks"); [done|solve_len|done|].
        iApply (tree_weaken with "Ha"). destruct h; lia.
    + iApply hwp_bind. iApply (hwp_around_edge with "Hp"); [cbn; lia|]. iIntros "Hp".
      iApply hwp_bind. iApply (hwp_around_left with "Hp"). iIntros "Hp".
      iApply hwp_bind. iApply (hwp_around_left_len with "Hp"). iIntros "Hp". iApply hwp_bind.
      destruct (Nat.ltb_spec (length ka) (MIN_LEN + 1)) as [Hka6|Hka6].
      * destruct (split_first kb (5 - length ka)) as (kb1 & [k' v'] & kb2 & -> & Hkb1); [solve_len|].
        apply shape_split in Hcb as (cb1 & cb2 & -> & Hcb1 & Hcb2 & ->). rewrite length_app /= in Hab.
        replace (MIN_LEN + 1 - length ka) with (S (length kb1)) by solve_len. rewrite (fmap_app (sib (h - 1))). destruct kv as [k v].
        iApply (hwp_bulk_steal_right _ _ _ _ [] with "Hp"); [solve_len|by apply shape_kids|destruct h; cbn in *; [by subst|solve_len]|]. iIntros "Hp".
        iApply hwp_bind. iApply (hwp_around_edge with "Hp"); [cbn; lia|]. iIntros "Hp".
        replace (La ++ (k, v) :: (entries h kb1 cb1 ++ (k', v') :: entries h kb2 cb2) ++ rights kvs2 cs2.*2) with
          ((La ++ (k, v) :: entries h kb1 cb1) ++ (k', v') :: entries h kb2 cb2 ++ rights kvs2 cs2.*2) by by rewrite -!app_assoc.
        iApply (hwp_first_child with "Hp Hks [] HQ"); [done|solve_len|lia|done|solve_len|by apply lrim_parts_app|].
        iIntros (Q') "Ha Hback". iApply (IH with "Ha"); [lia|solve_len|]. iIntros "Ha". iApply "Hback".
        iApply (tree_weaken with "Ha"). destruct h; solve_len.
      * iApply hwp_ret. iApply hwp_bind. iApply (hwp_around_edge with "Hp"); [cbn; lia|]. iIntros "Hp".
        iApply (hwp_first_child with "Hp Hks [] HQ"); [done|solve_len|lia|done|done|done|].
        iIntros (Q') "Ha Hback". iApply (IH with "Ha"); [lia|solve_len|]. iIntros "Ha". iApply "Hback".
        iApply (tree_weaken with "Ha"). destruct h; solve_len.
Qed.
(** ** Roots without keys *)

(** What [fix_top] works on: a tree of which the number of keys of the top node is
    known, and with it the only subtree of a node without keys. *)
Record poppable (P : nat → nat → Z → option nat → list (K * V) → prop) : Prop := {
  pop_node h m p pi L : P h m p pi L ⊢ ∃ kvs ks,
    ⌜length kvs = m⌝ ∧ node_at h p None pi kvs ks ∗ (node_at h p None pi kvs ks -∗ P h m p pi L);
  pop_top h p pi L : P (S h) 0 p pi L ⊢ ∃ k, ⌜linkable k ∧ (STATIC_END <= p)%Z⌝ ∧
    p ↦ inner_node None pi [] [kid_at k] ∗ kids p 0 [k] ∗ (∀ pi', kid_tree k None pi' -∗ ∃ m', P h m' (kid_at k) pi' L)
}.

Lemma hwp_fix_top P h : poppable P → ∀ fuel m p pi L Q, h ≤ fuel →
  P h m p pi L -∗ (∀ h' m' p' pi', ⌜h' = 0 ∨ 1 ≤ m'⌝ → P h' m' p' pi' L -∗ Q (Root_ p' h')) -∗
  hwp (fix_top_loop fuel (Root_ p h) : M _) Q.
Proof.
  intros HP. induction h as [|h IH]; intros fuel m p pi L Q Hf; iIntros "Ht HQ".
  all: iDestruct (pop_node _ HP with "Ht") as (kvs ks <-) "[Hn Hclose]"; destruct fuel as [|fuel]; [try lia|..]; cbn [fix_top_loop].
  all: iApply hwp_bind; iApply (hwp_len_at with "Hn"); iIntros "Hn"; iDestruct ("Hclose" with "Hn") as "Ht".
  1, 2: iApply hwp_ret; iApply ("HQ" with "[%] Ht"); by left.
  destruct kvs as [|kv kvs]; cbn [root_height Nat.eqb orb length Nat.ltb Nat.leb].
  - iDestruct (pop_top _ HP with "Ht") as (k [Hk Hp]) "(Hn & Hks & Hclose)". iApply hwp_bind.
    iApply (hwp_pop_kid with "Hn Hks"); [done..|]. iIntros (pi') "Hk". iDestruct ("Hclose" with "Hk") as (m') "Ht".
    iApply (IH with "Ht HQ"). lia.
  - iApply hwp_ret. iApply ("HQ" with "[%] Ht"). lia.
Qed.

Lemma rrim_poppable : poppable (λ h m p pi L, rrim h m p None pi L).
Proof.
  split; intros.
  - iIntros "Ht". iDestruct (rrim_node with "Ht") as (kvs ks [Hm Hks]) "Hn". iExists kvs, ks. iSplit; [done|]. iFrame "Hn".
    iIntros "Hn". iApply rrim_node. iExists kvs, ks. by iSplit.
  - iIntros "(%kvs & %cs & %e & %m & %Le & %H & Hn & Hcs & Ht)". destruct H as (Hl & Hc & Hp & Hcs & ->).
    destruct kvs, cs; try done. iExists (rrim_kid h m e Le). iSplit; [iPureIntro; split; [apply rrim_linkable|done]|].
    rewrite !kids_cons !kids_nil. iFrame. cbn. iIntros (pi') "Ht". iExists m. iFrame.
Qed.
Lemma lrim_poppable : poppable (λ h m p pi L, lrim h m p None pi L).
Proof.
  split; intros.
  - iIntros "Ht". iDestruct (lrim_node with "Ht") as (kvs ks [Hm Hks]) "Hn". iExists kvs, ks. iSplit; [done|]. iFrame "Hn".
    iIntros "Hn". iApply lrim_node. iExists kvs, ks. by iSplit.
  - iIntros "(%kvs & %cs & %e & %m & %Le & %H & Hn & Hcs & Ht)". destruct H as (Hl & Hc & Hp & Hcs & ->).
    destruct kvs, cs; try done. iExists (lrim_kid h m e Le). iSplit; [iPureIntro; split; [apply lrim_linkable|done]|].
    rewrite !kids_cons !kids_nil. iFrame. cbn. iIntros (pi') "Ht". iExists m. rewrite app_nil_r. iFrame.
Qed.
Lemma sized_poppable : poppable (λ h m p pi L, sized h m p None pi L).
Proof.
  split; intros.
  - iIntros "Ht". iDestruct (sized_node with "Ht") as (kvs cs (Hs & Hm & ->)) "Hn". iExists kvs, _. iSplit; [done|]. iFrame "Hn".
    iIntros "Hn". rewrite -Hm. by iApply node_at_sized.
  - iIntros "(%kvs & %cs & %H & Hn & Hcs)". destruct H as (Hs & Hm & _ & Hp & ->).
    destruct kvs; [|done]. destruct cs as [|c [|]]; [done| |done]. cbn [top_node below_at]. rewrite -kids_children.
    iExists (tree_kid h 4 c). iSplit; [iPureIntro; split; [apply tree_linkable|done]|]. iFrame. cbn.
    iIntros (pi') "Ht". rewrite app_nil_r. iDestruct (tree_sized with "Ht") as (m _) "Ht". by iExists m.
Qed.

(** [fix_top] on a tree makes it the tree of a root. *)
Lemma hwp_fix_top_tree fuel h le p pi L Q : h ≤ fuel →
  tree_at h le p None pi L -∗ (∀ r, root_at r L -∗ Q r) -∗ hwp (fix_top_loop fuel (Root_ p h) : M _) Q.
Proof.
  iIntros (Hf) "Ht HQ". iDestruct (tree_sized with "Ht") as (m _) "Ht".
  iApply (hwp_fix_top _ _ sized_poppable with "Ht"); [done|]. iIntros (h' m' p' pi') "%Hm Ht".
  iApply "HQ". iExists pi'. iApply (sized_tree with "Ht"). destruct h'; cbn; lia.
Qed.

Lemma hwp_fix_right_border h m p pi L Q :
  rrim h m p None pi L -∗ (∀ r, root_at r L -∗ Q r) -∗ hwp (fix_right_border (Root_ p h) : M _) Q.
Proof.
  iIntros "Ht HQ". iApply hwp_bind. iApply (hwp_fix_top _ _ rrim_poppable with "Ht"); [done|].
  iIntros (h' m' p' pi') "%Hm Ht". iApply hwp_bind.
  iApply (hwp_right_border with "Ht"); [done|done|]. iIntros "Ht". by iApply (hwp_fix_top_tree with "Ht").
Qed.
Lemma hwp_fix_left_border h m p pi L Q :
  lrim h m p None pi L -∗ (∀ r, root_at r L -∗ Q r) -∗ hwp (fix_left_border (Root_ p h) : M _) Q.
Proof.
  iIntros "Ht HQ". iApply hwp_bind. iApply (hwp_fix_top _ _ lrim_poppable with "Ht"); [done|].
  iIntros (h' m' p' pi') "%Hm Ht". iApply hwp_bind.
  iApply (hwp_left_border with "Ht"); [done|done|]. iIntros "Ht". by iApply (hwp_fix_top_tree with "Ht").
Qed.
End mend.
End rim.
