(* ===== verification/BTreeSplit.v ===== *)
(** * BTreeSplit: [split_off] of a B-tree map

    The loop of [split_off] cuts a tree along the path of a key; mending the borders
    of the two parts gives two trees.  The theorem says so of the finite maps that
    two B-tree maps represent. *)

From S2P Require Import Prelude HeapLogic Node Readonly NodeSpec Kids BTree BTreeSpec Rebalance BTreeRemove BTreeIter BTreeBulk BTreeMove BTreeBorder.
From stdpp Require Import sorting.
From iris.proofmode Require Import proofmode.
From iris.prelude Require Import options.

#[local] Open Scope nat_scope.

Section split.
Context {K V A : Type} `{!Ord K, !GlobalAlloc NodeLayout A}.
#[local] Abbreviation N := (Node K V).
#[local] Abbreviation M := (M (store N A)).
#[local] Abbreviation prop := (hProp N).
#[local] Abbreviation sub := (Z * list (K * V))%type.
#[local] Abbreviation kid := (kid (K := K) (V := V)).
#[local] Notation "p ↦ n" := (points_to p n) (at level 20) : bi_scope.
Implicit Types (L : list (K * V)) (kvs : list (K * V)) (es : list Z) (ks : list kid) (cs : list sub).
#[local] Existing Instance trees.

(** Keys that are not less than [key]. *)
Definition from (key : K) (kvs : list (K * V)) : Prop := Forall (λ kv, kv.1 = key ∨ klt key kv.1) kvs.

Lemma from_head key kvs : sorted kvs → match kvs with kv :: _ => kv.1 = key ∨ klt key kv.1 | [] => True end → from key kvs.
Proof.
  destruct kvs as [|kv kvs]; [by constructor|]. intros Hs [<-|Hd].
  - constructor; [by left|]. apply StronglySorted_cons in Hs as [Hs _]. change (Forall (klt kv.1) kvs.*1) in Hs.
    apply (proj1 (Forall_fmap fst _ kvs)) in Hs. eapply Forall_impl; [exact Hs|]. intros x Hx. by right.
  - eapply Forall_impl; [exact (sorted_above key kv [] kvs Hs Hd)|]. intros x Hx. by right.
Qed.
Lemma rights_from key kvs (Ls : list (list (K * V))) : sorted (rights kvs Ls) →
  match kvs with kv :: _ => kv.1 = key ∨ klt key kv.1 | [] => True end → from key (rights kvs Ls).
Proof. destruct kvs as [|kv kvs], Ls as [|L Ls]; cbn; try by constructor. intros Hs Hd. by apply from_head. Qed.

(** ** A path of nodes without keys *)

Fixpoint spine (h : nat) (q : Z) (par : option Z) (pi : option nat) : prop :=
  match h with
  | O => ⌜(STATIC_END <= q)%Z⌝ ∧ q ↦ leaf_node par pi []
  | S h => ∃ e, ⌜(STATIC_END <= q)%Z⌝ ∧ q ↦ inner_node par pi [] [e] ∗ spine h e (Some q) (Some 0)
  end.
Definition spine_kid h e : kid := Kid e (spine h e).

Lemma spine_linkable h e : linkable (spine_kid h e).
Proof.
  intros par pi. destruct h as [|h]; cbn.
  - iIntros "[%H Hn]". iExists (leaf_node par pi []). iFrame. iIntros (par' pi') "Hn". by iSplit.
  - iIntros "(%e' & %H & Hn & Ht)". iExists _. iFrame "Hn". iIntros (par' pi') "Hn". iExists e'. iSplit; [done|]. iFrame.
Qed.
Definition spine_parts h ks : Prop := match h with O => ks = [] | S h => ∃ e, ks = [spine_kid h e] end.
Lemma spine_node h q par pi : spine h q par pi ⊢ ∃ ks, ⌜spine_parts h ks⌝ ∧ node_at h q par pi [] ks.
Proof.
  destruct h as [|h]; cbn.
  - iIntros "[%H Hn]". iExists []. iSplit; [done|]. iSplit; [iPureIntro; split_and!; [done|solve_len|done|constructor]|].
    iFrame. by rewrite kids_nil.
  - iIntros "(%e & %H & Hn & Ht)". iExists [spine_kid h e]. iSplit; [iPureIntro; by eexists|].
    iSplit; [iPureIntro; split_and!; [done|solve_len|done|apply Forall_singleton, spine_linkable]|].
    rewrite kids_cons kids_nil. by iFrame.
Qed.

(** ** The loop *)

Lemma hwp_split_edge h p n kvs key (k : Handle → M unit) Q : (STATIC_END <= p)%Z → keys n = kvs.*1 →
  p ↦ n -∗
  (∀ kvs1 kvs2, ⌜kvs = kvs1 ++ kvs2 ∧ below key kvs1 ∧ match kvs2 with kv :: _ => kv.1 = key ∨ klt key kv.1 | [] => True end⌝ →
     p ↦ n -∗ hwp (k (Handle_ (NodeRef_ h p) (length kvs1))) Q) -∗
  hwp (r ← search_node (NodeRef_ h p) key;
       split_edge ← match r with Found handle => left_edge handle | GoDown handle => mret handle end; k split_edge) Q.
Proof.
  iIntros (Hp Hk) "Hn HQ". iApply hwp_bind. iApply (hwp_search_node with "Hn"); [done|done|].
  iIntros (kvs1 kvs2) "%H Hn". destruct H as [-> Hb]. iSplit.
  - iIntros (v kvs2') "->". iApply hwp_bind. iApply (hwp_new_edge with "Hn"); [done|rewrite Hk; solve_len|]. iIntros "Hn".
    iApply ("HQ" with "[%] Hn"). split_and!; [done..|by left].
  - iIntros "%Hd". iApply hwp_bind. iApply hwp_ret. iApply ("HQ" with "[%] Hn"). split_and!; [done..|].
    destruct kvs2; [done|by right].
Qed.

Lemma hwp_split_loop key h : ∀ fuel le p par pi L q parq piq Q, h ≤ fuel → sorted L →
  tree_at h le p par pi L -∗ spine h q parq piq -∗
  (∀ m L1 m' L2, ⌜L = L1 ++ L2 ∧ below key L1 ∧ from key L2⌝ → rrim h m p par pi L1 -∗ lrim h m' q parq piq L2 -∗ Q tt) -∗
  hwp (split_loop fuel (NodeRef_ h p) (NodeRef_ h q) key : M unit) Q.
Proof.
  induction h as [|h IH]; intros fuel le p par pi L q parq piq Q Hf Hs; iIntros "Ht Hq HQ".
  all: iDestruct (tree_sized with "Ht") as (m _) "Ht"; iDestruct (sized_node with "Ht") as (kvs cs (Hcs & <- & ->)) "[%H [Hn Hks]]".
  all: destruct H as (Hfit & Hcap & Hp & Hlink).
  - cbn in Hcs. subst cs. assert (split_loop fuel (NodeRef_ 0 p) (NodeRef_ 0 q) key = split_loop 0 (NodeRef_ 0 p) (NodeRef_ 0 q) key) as -> by by destruct fuel.
    iApply (hwp_split_edge with "Hn"); [done|done|]. iIntros (kvs1 kvs2) "%H Hn". destruct H as (-> & Hb & Hd).
    iDestruct (spine_node with "Hq") as (ks ->) "Hq". iApply hwp_bind.
    iApply (hwp_move_suffix 0 _ _ _ kvs1 kvs2 [] [] with "[Hn Hks] Hq"); [done|done|iSplit; [done|]; iFrame|].
    iIntros "Hl Hr". iApply hwp_ret. iApply ("HQ" with "[%] [Hl] [Hr]").
    + split_and!; [done|done|]. cbn in Hs. apply from_head; [by apply sorted_suffix in Hs|done].
    + iApply rrim_node. iExists kvs1, []. by iFrame.
    + iApply lrim_node. iExists kvs2, []. by iFrame.
  - destruct fuel as [|fuel]; [lia|].
    iApply (hwp_split_edge with "Hn"); [done|done|]. iIntros (kvs1 kvs2) "%H Hn". destruct H as (-> & Hb & Hd).
    cbn [shape entries] in *. destruct (split_length cs (length kvs1) (S (length kvs2))) as (cs1 & [|c cs2] & -> & H1 & [=H2]); [solve_len|].
    iDestruct (spine_node with "Hq") as (ks [e ->]) "Hq". iApply hwp_bind.
    rewrite (cons_middle c) (app_assoc cs1) (fmap_app (tree_kid _ 4)). replace (S h - 1) with h by lia.
    rewrite (cons_middle c) (app_assoc cs1) (fmap_app (tree_kid _ 4)) in Hlink. replace (S h - 1) with h in Hlink by lia.
    iApply (hwp_move_suffix (S h) _ _ _ kvs1 kvs2 (tree_kid h 4 <$> cs1 ++ [c]) (tree_kid h 4 <$> cs2) with "[Hn Hks] Hq"); [cbn; solve_len|done| |].
    { iSplit; [iPureIntro; split_and!; [cbn; solve_len|done..]|]. iFrame. }
    iIntros "[_ [Hn Hks]] [%Hr [Hq Hkq]]". destruct Hr as (_ & Hcr & Hqs & _). cbn [force_handle force height hnode].
    iEval (rewrite (fmap_app (tree_kid h 4)) kids_app !kids_cons kids_nil) in "Hks". iDestruct "Hks" as "(Hks1 & Hc & _)".
    iEval (cbn [app]; rewrite kids_cons) in "Hkq". iDestruct "Hkq" as "[He Hks2]". rewrite length_fmap Nat.add_0_l. cbn [kid_tree spine_kid tree_kid].
    iEval (rewrite kids_at fmap_app) in "Hn". iEval (rewrite fmap_app kids_at) in "Hq".
    iApply hwp_bind. iApply (hwp_descend with "Hn"); [done|rewrite -H1; apply list_lookup_middle; by rewrite length_fmap|]. iIntros "Hn".
    iApply hwp_bind. iApply (hwp_new_edge with "Hq"); [done|lia|]. iIntros "Hq".
    iApply hwp_bind. iApply (hwp_descend with "Hq"); [done|done|]. iIntros "Hq". replace (S h - 1) with h by lia.
    rewrite fmap_app fmap_cons inter_focus ?length_fmap // in Hs.
    iApply (IH with "Hc He"); [lia|by apply sorted_mid in Hs|].
    iIntros (m La m' Lb) "%HL Hl Hr". destruct HL as (HL & Hba & Hfb). rewrite HL in Hs.
    iApply ("HQ" $! (length kvs1) (lefts cs1.*2 kvs1 ++ La) (length kvs2) (Lb ++ rights kvs2 cs2.*2) with "[%] [Hn Hks1 Hl] [Hq Hks2 Hr]").
    + split_and!; [by rewrite -!app_assoc fmap_app inter_focus ?length_fmap // HL -!app_assoc| |].
      * apply below_app. split; [|done]. apply lefts_below; [|done]. by apply sorted_app in Hs as (_ & ? & _).
      * apply Forall_app. split; [done|]. apply rights_from; [|done]. by do 2 apply sorted_suffix in Hs.
    + iExists kvs1, cs1, c.1, m, La. iSplit; [iPureIntro; split_and!; (done || solve_len)|]. rewrite H1. iFrame.
    + iExists kvs2, cs2, e, m', Lb. iSplit; [iPureIntro; split_and!; (done || solve_len)|]. iFrame.
Qed.

(** ** The half that is begun: empty nodes *)

Lemma spine_static h q par pi : spine h q par pi ⊢ ⌜(STATIC_END <= q)%Z⌝.
Proof. destruct h; cbn; [by iIntros "[% _]"|by iIntros "(%e & % & _)"]. Qed.

Lemma hwp_push_levels n : ∀ h q pi Q,
  spine h q None pi -∗
  (∀ q' h' pi' (res : result unit AllocErr), ⌜match res with Ok _ => h' = (n + h)%nat | Err _ => True end⌝ → spine h' q' None pi' -∗ Q (Root_ q' h', res)) -∗
  hwp (push_levels n (Root_ q h) : M _) Q.
Proof.
  induction n as [|n IH]; intros h q pi Q; iIntros "Hs HQ"; cbn [push_levels].
  - iApply hwp_ret. by iApply ("HQ" with "[%] Hs").
  - iDestruct (spine_static with "Hs") as %Hq. iApply hwp_bind. iApply (hwp_push_kid _ (spine_kid h q) with "Hs"); [apply spine_linkable|done|].
    iSplit.
    + iIntros (q') "%Hq' Hn Hs". rewrite kids_cons kids_nil. iDestruct "Hs" as "[Hs _]". iApply (IH (S h) with "[Hn Hs]").
      * cbn. iExists q. iSplit; [done|]. iFrame.
      * by rewrite Nat.add_succ_r.
    + iIntros "Hs". iApply hwp_ret. by iApply ("HQ" with "[%] Hs").
Qed.

(** Dropping it gives its nodes back. *)
Lemma hwp_first_leaf_spine h : ∀ fuel n q par pi Q, h ≤ fuel →
  spine h q par pi -∗ rest_at n h q par pi [] -∗
  (∀ t tpar tpi, ⌜(STATIC_END <= t)%Z⌝ → t ↦ leaf_node tpar tpi [] -∗ rest_at (n + h) 0 t tpar tpi [] -∗ Q (Handle_ (NodeRef_ 0 t) 0)) -∗
  hwp (first_leaf_edge_loop fuel (NodeRef_ h q) : M _) Q.
Proof.
  induction h as [|h IH]; intros fuel n q par pi Q Hf; iIntros "Hs Hr HQ".
  - iDestruct "Hs" as "[%Hq Hn]".
    assert (first_leaf_edge_loop fuel (NodeRef_ 0 q) = (first_edge (NodeRef_ 0 q) : M _)) as -> by by destruct fuel.
    iApply (hwp_new_edge with "Hn"); [done|lia|]. iIntros "Hn". rewrite Nat.add_0_r. by iApply ("HQ" with "[%] Hn Hr").
  - destruct fuel as [|fuel]; [lia|]. iDestruct "Hs" as (e Hq) "[Hn Hs]".
    cbn [first_leaf_edge_loop force height]. iApply hwp_bind.
    iApply (hwp_new_edge with "Hn"); [done|lia|]. iIntros "Hn".
    iApply hwp_bind. iApply (hwp_descend with "Hn"); [done|done|]. iIntros "Hn". rewrite /= Nat.sub_0_r.
    iApply (IH fuel (S n) with "Hs [Hn Hr]"); [lia| |by rewrite Nat.add_succ_comm].
    cbn [rest_at]. iExists q, par, pi, [], [], [], [], []. iFrame. iSplit; [iPureIntro; split_and!; (done || solve_len)|].
    by rewrite /children.
Qed.
Lemma hwp_last_leaf_spine h : ∀ fuel q par pi Q, h ≤ fuel →
  spine h q par pi -∗ (∀ hd, spine h q par pi -∗ Q hd) -∗ hwp (last_leaf_edge_loop fuel (NodeRef_ h q) : M _) Q.
Proof.
  induction h as [|h IH]; intros fuel q par pi Q Hf; iIntros "Hs HQ".
  - iDestruct "Hs" as "[%Hq Hn]".
    assert (last_leaf_edge_loop fuel (NodeRef_ 0 q) = (last_edge (NodeRef_ 0 q) : M _)) as -> by by destruct fuel.
    iApply hwp_bind. iApply (hwp_len with "Hn"); [done|]. iIntros "Hn".
    iApply (hwp_new_edge with "Hn"); [done|done|]. iIntros "Hn". iApply "HQ". by iSplit.
  - destruct fuel as [|fuel]; [lia|]. iDestruct "Hs" as (e Hq) "[Hn Hs]". cbn [last_leaf_edge_loop force height]. iApply hwp_bind.
    iApply hwp_bind. iApply (hwp_len with "Hn"); [done|]. iIntros "Hn".
    iApply (hwp_new_edge with "Hn"); [done|done|]. iIntros "Hn".
    iApply hwp_bind. iApply (hwp_descend with "Hn"); [done|done|]. iIntros "Hn". rewrite /= Nat.sub_0_r.
    iApply (IH with "Hs"); [lia|]. iIntros (hd) "Hs". iApply "HQ". iExists e. iSplit; [done|]. iFrame.
Qed.
Lemma hwp_drop_spine h q pi Q : spine h q None pi -∗ Q [] -∗ hwp (BTreeMap_drop (BTreeMap_ (Root_ q h) 0) : M _) Q.
Proof.
  iIntros "Hs HQ". iApply hwp_bind. iApply hwp_swap; [apply readonly_first_leaf_edge|apply readonly_last_leaf_edge|].
  iApply hwp_bind. iApply (hwp_last_leaf_spine with "Hs"); [done|]. iIntros (b) "Hs".
  iApply hwp_bind. iApply (hwp_first_leaf_spine _ _ 0 with "Hs []"); [done|by iSplit|].
  iIntros (t tpar tpi) "%Ht Hn Hr". iApply hwp_ret. cbn [length_ root root_height].
  iApply (hwp_into_drop h _ _ [] with "[Hn Hr] HQ"); [done|]. iExists t, tpar, tpi, [], [], []. by iFrame.
Qed.

(** ** Counting *)

Fixpoint total (Ls : list (list (K * V))) : nat := match Ls with [] => 0 | L :: Ls => length L + total Ls end.
Lemma length_rights_total kvs Ls : length Ls = length kvs → length (rights kvs Ls) = length kvs + total Ls.
Proof.
  revert Ls. induction kvs as [|kv kvs IH]; intros [|L Ls] Hl; try done. injection Hl as Hl. cbn. rewrite length_app IH //. lia.
Qed.

Lemma hwp_dfs_edges h (count : NodeRef → M nat) q par pi kvs :
  (∀ c par pi Q, tree_at h 4 c.1 par pi c.2 -∗ (tree_at h 4 c.1 par pi c.2 -∗ Q (length c.2)) -∗ hwp (count (NodeRef_ h c.1)) Q) →
  (STATIC_END <= q)%Z → ∀ cs2 cs1 c turns res Q, length cs2 ≤ turns → length cs1 + length cs2 = length kvs →
  q ↦ inner_node par pi kvs (cs1 ++ c :: cs2).*1 -∗ children h q 0 (cs1 ++ c :: cs2) -∗
  (q ↦ inner_node par pi kvs (cs1 ++ c :: cs2).*1 -∗ children h q 0 (cs1 ++ c :: cs2) -∗ Q (res + (length c.2 + total cs2.*2))) -∗
  hwp (dfs_edges count turns (Handle_ (NodeRef_ (S h) q) (length cs1)) res) Q.
Proof.
  intros Hc Hq. induction cs2 as [|c2 cs2 IH]; intros cs1 c turns res Q Ht Hl; iIntros "Hn Hcs HQ".
  all: assert (∀ edge, dfs_edges count turns edge res =
    (c ← descend edge; d ← count c; kv ← right_kv edge;
     match kv with
     | Ok kv => edge ← right_edge kv; match turns with O => ub "still counting" | S turns => dfs_edges count turns edge (res + d) end
     | Err _ => mret (res + d)
     end)) as -> by by destruct turns.
  all: iApply hwp_bind; iApply (hwp_descend with "Hn"); [done|by apply lookup_middle|]; iIntros "Hn".
  all: rewrite /= Nat.sub_0_r; iDestruct (children_focus with "Hcs") as "(Hcs1 & Ht & Hcs2)".
  all: iApply hwp_bind; iApply (Hc with "Ht"); iIntros "Ht".
  all: iApply hwp_bind; iApply (hwp_right_kv with "Hn"); [done|]; iIntros "Hn"; cbn [keys inner_node]; rewrite length_fmap.
  - rewrite (proj2 (Nat.ltb_ge _ _)); [|cbn in *; lia]. iApply hwp_ret. rewrite Nat.add_0_r. iApply ("HQ" with "Hn").
    rewrite children_focus. iFrame.
  - rewrite (proj2 (Nat.ltb_lt _ _)); [|cbn in *; lia]. destruct turns as [|turns]; cbn in Ht, Hl; [lia|].
    iApply hwp_bind. iApply (hwp_new_edge with "Hn"); [done|cbn; solve_len|]. iIntros "Hn". cbn [idx hnode].
    replace (length cs1 + 1) with (length (cs1 ++ [c])) by (rewrite length_app; cbn; lia).
    iAssert (children h q 0 ((cs1 ++ [c]) ++ c2 :: cs2)) with "[Hcs1 Ht Hcs2]" as "Hcs".
    { rewrite -app_assoc children_focus. iFrame. }
    rewrite (cons_middle c) (app_assoc cs1). iApply (IH with "Hn Hcs"); [lia|rewrite length_app; cbn; lia|].
    iIntros "Hn Hcs". rewrite (Nat.add_assoc res) . cbn [total fmap list_fmap]. by iApply ("HQ" with "Hn").
Qed.

Lemma hwp_dfs h : ∀ fuel le p par pi L Q, h ≤ fuel →
  tree_at h le p par pi L -∗ (tree_at h le p par pi L -∗ Q (length L)) -∗ hwp (dfs fuel (NodeRef_ h p) : M _) Q.
Proof.
  induction h as [|h IH]; intros fuel le p par pi L Q Hf; iIntros "Ht HQ".
  - iDestruct "Ht" as "[%H Hn]". destruct H as [Hl Hp].
    assert (dfs fuel (NodeRef_ 0 p) = (res ← len (NodeRef_ 0 p); mret res : M _)) as -> by by destruct fuel.
    iApply hwp_bind. iApply (hwp_len with "Hn"); [done|]. iIntros "Hn". iApply hwp_ret.
    cbn [keys leaf_node]. rewrite length_fmap. iApply "HQ". by iSplit.
  - destruct fuel as [|fuel]; [lia|]. iDestruct (tree_inner_inv with "Ht") as (kvs cs (Hl & Hp & Hcs & ->)) "[Hn Hcs]".
    destruct cs as [|c cs]; [done|]. injection Hcs as Hcs. cbn [dfs force height].
    iApply hwp_bind. iApply (hwp_len with "Hn"); [done|]. iIntros "Hn".
    iApply hwp_bind. iApply (hwp_new_edge with "Hn"); [done|lia|]. iIntros "Hn".
    iApply (hwp_dfs_edges h _ p par pi kvs _ Hp cs [] c with "Hn Hcs"); [unfold CAPACITY, B in *; lia|done|].
    iIntros "Hn Hcs". cbn [keys inner_node fmap list_fmap inter]. rewrite length_fmap length_app length_rights_total ?length_fmap //.
    replace (length kvs + (length c.2 + total cs.*2)) with (length c.2 + (length kvs + total cs.*2)) by lia.
    iApply "HQ". iApply (tree_inner _ _ _ _ _ _ (c :: cs) with "[$Hn $Hcs]"); [done|done|by rewrite /= Hcs].
    Unshelve. iIntros (c' par' pi' Q') "Ht HQ". iApply (IH with "Ht HQ"). lia.
Qed.

Lemma hwp_recalc_length m L Q :
  root_at (root m) L -∗ (root_at (root m) L -∗ Q (BTreeMap_ (root m) (length L))) -∗ hwp (recalc_length m : M _) Q.
Proof.
  iIntros "(%pi & Ht) HQ". iApply hwp_bind. iApply (hwp_dfs with "Ht"); [done|]. iIntros "Ht". iApply hwp_ret.
  iApply "HQ". by iExists pi.
Qed.

(** ** [split_off] *)

Lemma map_at_new : ⊢ map_at BTreeMap_new 0 ([] : list (K * V)).
Proof. iSplit; [iPureIntro; split; [done|]; split; [constructor|done]|]. by iLeft. Qed.

Lemma hwp_split_off m n L key Q :
  map_at m n L -∗
  ((∀ (m1 m2 : BTreeMap) n1 n2 L1 L2, ⌜L = L1 ++ L2 ∧ below key L1 ∧ from key L2 ∧ (n1 + n2 = n)%nat ∧ (n1 = length L1 ∨ n2 = length L2)⌝ →
      map_at m1 n1 L1 -∗ map_at m2 n2 L2 -∗ Q (m1, Ok m2)) ∧
   (map_at m n L -∗ Q (m, Err AllocErr_))) -∗
  hwp (split_off m key : M _) Q.
Proof.
  iIntros "[[%Hn %Hs] H] HQ". unfold split_off, is_empty, map_len. rewrite Hn. destruct Hs as [Hs Hl].
  destruct (Nat.eqb_spec n 0) as [Hz|Hz].
  { destruct L; [|cbn in Hl; lia]. iApply hwp_ret. iDestruct "HQ" as "[HQ _]".
    iApply ("HQ" $! m BTreeMap_new n 0 [] [] with "[%] [H]"); [| |iApply map_at_new].
    - split_and!; [done|constructor|constructor|lia|by left].
    - iSplit; [iPureIntro; split; [done|]; by split|done]. }
  iDestruct "H" as "[[%H _]|H]"; [by destruct H as (_ & _ & ?)|]. iDestruct "H" as (pi) "Ht".
  iApply hwp_bind. iApply hwp_try. iApply hwp_box_new. iSplit.
  2: { iApply hwp_bind. iApply (hwp_drop _ [] with "[]"); [iApply map_at_new|]. iApply hwp_ret.
       iDestruct "HQ" as "[_ HQ]". iApply "HQ". iApply map_at_root; [done|by split|]. by iExists pi. }
  iIntros (q) "%Hq Hq". iApply hwp_ret. cbv zeta. iApply hwp_bind.
  iApply (hwp_push_levels _ 0 q None with "[Hq]"); [by iSplit|].
  iIntros (q' h' pi' [[]|e]) "%Hh Hspine"; cycle 1.
  { iApply hwp_bind. iApply (hwp_drop_spine with "Hspine"). iApply hwp_ret. destruct e.
    iDestruct "HQ" as "[_ HQ]". iApply "HQ". iApply map_at_root; [done|by split|]. by iExists pi. }
  rewrite Nat.add_0_r in Hh. subst h'. iApply hwp_bind.
  iApply (hwp_split_loop key with "Ht Hspine"); [done|done|]. iIntros (ml L1 mr L2) "%HL Hl Hr". destruct HL as (-> & Hb & Hf).
  destruct (root m) as [p h] eqn:Hroot. cbn [root_height root_node].
  iApply hwp_bind. iApply (hwp_fix_right_border with "Hl"). iIntros (l) "Hl".
  iApply hwp_bind. iApply (hwp_fix_left_border with "Hr"). iIntros (r) "Hr".
  rewrite length_app in Hl. iDestruct "HQ" as "[HQ _]".
  assert (sorted L1 ∧ sorted L2) as [Hs1 Hs2] by (by apply sorted_app in Hs as (_ & ? & ?)).
  destruct (root_height l <? root_height r); iApply hwp_bind.
  - iApply (hwp_recalc_length (BTreeMap_ _ _) with "Hl"). iIntros "Hl". cbn [length_ root]. rewrite (proj2 (Nat.ltb_ge _ _)); [|lia].
    iApply hwp_bind. iApply hwp_ret. iApply hwp_ret. iApply ("HQ" $! _ _ (length L1) (n - length L1) L1 L2 with "[%] [Hl] [Hr]").
    + split_and!; [done..|lia|by left].
    + iApply map_at_root; [done|by split|done].
    + iApply map_at_root; [done|split; [done|lia]|done].
  - iApply (hwp_recalc_length (BTreeMap_ _ _) with "Hr"). iIntros "Hr". cbn [length_ root]. rewrite (proj2 (Nat.ltb_ge _ _)); [|lia].
    iApply hwp_bind. iApply hwp_ret. iApply hwp_ret. iApply ("HQ" $! _ _ (n - length L2) (length L2) L1 L2 with "[%] [Hl] [Hr]").
    + split_and!; [done..|lia|by right].
    + iApply map_at_root; [done|split; [done|lia]|done].
    + iApply map_at_root; [done|by split|done].
Qed.
End split.
