(* ===== verification/BTreeClone.v ===== *)
(** * BTreeClone: [clone] of a B-tree map

    The copy has the nodes of the original, with its entries cloned; when a node
    cannot be had, what has been copied is dropped again. *)

From S2P Require Import Prelude HeapLogic Node NodeSpec Kids BTree BTreeSpec Rebalance BTreeRemove BTreeIter BTreeBulk.
From stdpp Require Import sorting.
From iris.proofmode Require Import proofmode.
From iris.prelude Require Import options.

#[local] Open Scope nat_scope.

Section clone.
Context {K V A : Type} `{!Ord K, !GlobalAlloc NodeLayout A, !Clone K, !Clone V}.
#[local] Abbreviation N := (Node K V).
#[local] Abbreviation M := (M (store N A)).
#[local] Abbreviation prop := (hProp N).
#[local] Abbreviation sub := (Z * list (K * V))%type.
#[local] Notation "p ↦ n" := (points_to p n) (at level 20) : bi_scope.
Implicit Types (L : list (K * V)) (kvs : list (K * V)) (es : list Z) (cs : list sub).

Definition clone_kv (kv : K * V) : K * V := (clone kv.1, clone kv.2).

#[local] Abbreviation clones := (fmap (M := list) clone_kv).

Lemma clones_inter (Ls : list (list (K * V))) kvs : length Ls = S (length kvs) →
  clones (inter Ls kvs) = inter (fmap (M := list) clones Ls) (clones kvs).
Proof.
  destruct Ls as [|L Ls]; [done|]. intros Hl. injection Hl as Hl. cbn. rewrite fmap_app. f_equal.
  revert kvs Hl. induction Ls as [|L1 Ls IH]; intros [|kv kvs] Hl; try done. injection Hl as Hl. cbn. rewrite fmap_app IH //.
Qed.

Lemma hwp_leaf_push h q par pi kvs k v Q : (STATIC_END <= q)%Z → length kvs < CAPACITY →
  q ↦ leaf_node par pi kvs -∗ (q ↦ leaf_node par pi (kvs ++ [(k, v)]) -∗ Q tt) -∗
  hwp (leaf_push (NodeRef_ h q) k v : M unit) Q.
Proof.
  iIntros (Hq Hc) "Hn HQ". unfold leaf_push, is_shared_root. cbn [node]. rewrite not_shared //.
  iApply hwp_bind. iApply (hwp_len with "Hn"); [done|]. iIntros "Hn".
  iApply hwp_bind. iApply hwp_debug_assert; [solve_len|]. iApply hwp_bind. iApply hwp_debug_assert; [done|].
  iApply (hwp_update with "Hn"); [done|]. iIntros "Hn". iApply "HQ".
  unfold leaf_node, set_kvs. cbn. by rewrite !fmap_app.
Qed.

(** The loop over a leaf. *)
Lemma hwp_clone_leaf_loop p par pi q pi' kvs2 : (STATIC_END <= p)%Z → (STATIC_END <= q)%Z →
  ∀ turns kvs1 n Q, length kvs2 ≤ turns → length (kvs1 ++ kvs2) ≤ CAPACITY →
  p ↦ leaf_node par pi (kvs1 ++ kvs2) -∗ q ↦ leaf_node None pi' (clones kvs1) -∗
  (p ↦ leaf_node par pi (kvs1 ++ kvs2) -∗ q ↦ leaf_node None pi' (clones (kvs1 ++ kvs2)) -∗
     Q (BTreeMap_ (Root_ q 0) (n + length kvs2))) -∗
  hwp (clone_leaf_loop turns (BTreeMap_ (Root_ q 0) n) (NodeRef_ 0 q) (Handle_ (NodeRef_ 0 p) (length kvs1)) : M _) Q.
Proof.
  intros Hp Hq. induction kvs2 as [|[k v] kvs2 IH]; intros turns kvs1 n Q Ht Hc; iIntros "Hp Hq HQ".
  all: assert (∀ out_tree in_edge, clone_leaf_loop turns out_tree (NodeRef_ 0 q) in_edge =
    (kv ← right_kv in_edge;
     match kv with
     | Err _ => mret out_tree
     | Ok kv =>
         '(k, v) ← into_kv kv; in_edge ← right_edge kv; _ ← leaf_push (NodeRef_ 0 q) (clone k) (clone v);
         let out_tree := BTreeMap_ (root out_tree) (length_ out_tree + 1) in
         match turns with O => ub "still copying" | S turns => clone_leaf_loop turns out_tree (NodeRef_ 0 q) in_edge end
     end :> M _)) as -> by by destruct turns.
  all: iApply hwp_bind; iApply (hwp_right_kv with "Hp"); [done|]; iIntros "Hp"; cbn [keys leaf_node]; rewrite length_fmap length_app.
  - rewrite (proj2 (Nat.ltb_ge _ _)); [|cbn; lia]. iApply hwp_ret. rewrite Nat.add_0_r !app_nil_r. iApply ("HQ" with "Hp Hq").
  - rewrite (proj2 (Nat.ltb_lt _ _)); [|cbn; lia]. destruct turns as [|turns]; [cbn in *; lia|].
    iApply hwp_bind. iApply (hwp_into_kv with "Hp"); [done|apply lookup_middle..|]. iIntros "Hp". cbn [fst snd].
    iApply hwp_bind. iApply (hwp_new_edge with "Hp"); [done|cbn; solve_len|]. iIntros "Hp". cbn [idx hnode].
    iApply hwp_bind. iApply (hwp_leaf_push with "Hq"); [done|solve_len|]. iIntros "Hq". cbv zeta. cbn [root length_].
    replace (length kvs1 + 1) with (length (kvs1 ++ [(k, v)])) by (rewrite length_app; done).
    rewrite (cons_middle (k, v)) (app_assoc kvs1) in Hc |- *. iApply (IH with "Hp [Hq]"); [cbn in Ht; lia|done| |].
    + by rewrite fmap_app.
    + cbn [length]. by replace (n + 1 + length kvs2) with (n + S (length kvs2)) by lia.
Qed.

(** What is copied: a tree, or nothing. *)
Definition copied h le p par pi L (Q : result BTreeMap AllocErr → prop) : prop :=
  ((∀ q pi', tree_at h le p par pi L -∗ tree_at h le q None pi' (clones L) -∗
      Q (Ok (BTreeMap_ (Root_ q h) (length L)))) ∧
   (tree_at h le p par pi L -∗ Q (Err AllocErr_))).

Lemma copied_done h le p par pi L q pi' Q :
  copied h le p par pi L Q -∗ tree_at h le p par pi L -∗ tree_at h le q None pi' (clones L) -∗
  Q (Ok (BTreeMap_ (Root_ q h) (length L))).
Proof. iIntros "[HQ _] Hp Hq". by iApply ("HQ" with "Hp Hq"). Qed.
Lemma copied_failed h le p par pi L Q : copied h le p par pi L Q -∗ tree_at h le p par pi L -∗ Q (Err AllocErr_).
Proof. iIntros "[_ HQ] Hp". by iApply "HQ". Qed.

(** The loop over an internal node. *)
Lemma hwp_clone_inner_loop h le p par pi kvs q pi' (copy : NodeRef → M (result BTreeMap AllocErr)) :
  (∀ c par pi Q, tree_at h 4 c.1 par pi c.2 -∗ copied h 4 c.1 par pi c.2 Q -∗ hwp (copy (NodeRef_ h c.1)) Q) →
  (STATIC_END <= p)%Z → (STATIC_END <= q)%Z → le ≤ length kvs ≤ CAPACITY →
  ∀ kvs2 kvs1 cs1 c cs2 cs' turns Q, kvs = kvs1 ++ kvs2 → length cs1 = length kvs1 → length cs2 = length kvs2 →
  length kvs2 ≤ turns → cs'.*2 = fmap clones (cs1 ++ [c]).*2 →
  p ↦ inner_node par pi kvs (cs1 ++ c :: cs2).*1 -∗ children h p 0 (cs1 ++ c :: cs2) -∗
  q ↦ inner_node None pi' (clones kvs1) cs'.*1 -∗ children h q 0 cs' -∗
  copied (S h) le p par pi (inter (cs1 ++ c :: cs2).*2 kvs) Q -∗
  hwp (clone_inner_loop copy turns (BTreeMap_ (Root_ q (S h)) (length (inter cs'.*2 (clones kvs1)))) (NodeRef_ (S h) q)
    (Handle_ (NodeRef_ (S h) p) (length kvs1)) : M _) Q.
Proof.
  intros Hcopy Hp Hq Hl. induction kvs2 as [|[k v] kvs2 IH]; intros kvs1 cs1 c cs2 cs' turns Q Hkvs H1 H2 Ht Hcs';
    iIntros "Hp Hcs Hq Hcs' HQ".
  all: assert (∀ out_tree in_edge, clone_inner_loop copy turns out_tree (NodeRef_ (S h) q) in_edge =
    (kv ← right_kv in_edge;
     match kv with
     | Err _ => mret (Ok out_tree)
     | Ok kv =>
         '(k, v) ← into_kv kv; in_edge ← right_edge kv;
         let k := clone k in let v := clone v in
         c ← descend in_edge; subtree ← copy c;
         match subtree with
         | Err e => _ ← BTreeMap_drop out_tree; mret (Err e)
         | Ok subtree =>
             _ ← internal_push (NodeRef_ (S h) q) k v (root subtree);
             let out_tree := BTreeMap_ (root out_tree) (length_ out_tree + (1 + length_ subtree)) in
             match turns with O => ub "still copying" | S turns => clone_inner_loop copy turns out_tree (NodeRef_ (S h) q) in_edge end
         end
     end :> M _)) as -> by by destruct turns.
  all: assert (length cs' = S (length kvs1)) as Hl' by
    (apply (f_equal length) in Hcs'; rewrite !length_fmap length_app in Hcs'; cbn in Hcs'; lia).
  all: iApply hwp_bind; iApply (hwp_right_kv with "Hp"); [done|]; iIntros "Hp"; cbn [keys inner_node]; rewrite length_fmap.
  all: pose proof (f_equal length Hkvs) as Hlk; rewrite length_app in Hlk; cbn in Hlk.
  - rewrite (proj2 (Nat.ltb_ge _ _)); [|cbn; lia]. iApply hwp_ret. destruct cs2; [|done]. rewrite app_nil_r in Hkvs. subst kvs1.
    rewrite Hcs' -clones_inter; [|rewrite length_fmap length_app; cbn; lia].
    rewrite length_fmap. iApply (copied_done with "HQ [Hp Hcs]").
    + iApply tree_inner; [done|done|solve_len|]. iFrame.
    + rewrite clones_inter; [|rewrite length_fmap length_app; cbn; lia]. rewrite -Hcs'. iApply tree_inner; [solve_len|done|solve_len|]. iFrame.
  - rewrite (proj2 (Nat.ltb_lt _ _)); [|cbn; lia]. destruct turns as [|turns]; [cbn in *; lia|]. destruct cs2 as [|c2 cs2]; [done|].
    iApply hwp_bind. iApply (hwp_into_kv with "Hp"); [done|subst kvs; apply lookup_middle..|]. iIntros "Hp". cbn [fst snd].
    iApply hwp_bind. iApply (hwp_new_edge with "Hp"); [done|subst kvs; cbn; solve_len|]. iIntros "Hp". cbn [idx hnode]. cbv zeta.
    iApply hwp_bind. iApply (hwp_descend with "Hp"); [done| |].
    { rewrite fmap_app !fmap_cons. apply lookup_right. by rewrite length_fmap H1. }
    iIntros "Hp". rewrite /= Nat.sub_0_r. iEval (rewrite (cons_middle c) (app_assoc cs1)) in "Hcs".
    iDestruct (children_focus with "Hcs") as "(Hcs1 & Hc & Hcs2)".
    iApply hwp_bind. iApply (Hcopy with "Hc"). iSplit.
    + iIntros (e epi) "Hc He". cbn [root length_].
      iApply hwp_bind. iApply (hwp_internal_push with "Hq Hcs' [He]"); [done|by rewrite length_fmap|solve_len|by iExists _, _|].
      iIntros "Hq Hcs'". cbv zeta. cbn [root length_].
      assert (length (inter cs'.*2 (clones kvs1)) + S (length c2.2) =
        length (inter (cs' ++ [(e, clones c2.2)]).*2 (clones (kvs1 ++ [(k, v)])))) as ->.
      { rewrite !fmap_app. cbn. rewrite inter_split ?length_fmap // length_app /= app_nil_r length_fmap. lia. }
      replace (length kvs1 + 1) with (length (kvs1 ++ [(k, v)])) by (rewrite length_app; done).
      rewrite (cons_middle c) (app_assoc cs1).
      iApply (IH _ _ c2 with "Hp [Hcs1 Hc Hcs2] [Hq] Hcs' HQ").
      * by rewrite -app_assoc.
      * rewrite !length_app. cbn. lia.
      * by injection H2.
      * cbn in Ht. lia.
      * rewrite !fmap_app Hcs' !fmap_app. done.
      * iApply children_focus. iFrame.
      * by rewrite (fmap_app clone_kv).
    + iIntros "Hc". iApply hwp_bind.
      iApply (hwp_drop_tree _ _ (inter cs'.*2 (clones kvs1)) with "[Hq Hcs']"); [done| |].
      * iApply tree_inner; [solve_len|done|solve_len|]. iFrame.
      * iApply hwp_ret. iApply (copied_failed with "HQ"). rewrite (cons_middle c) (app_assoc cs1).
        iApply tree_inner; [done|done|solve_len|]. iFrame "Hp". iApply children_focus. iFrame.
Qed.

Lemma hwp_clone_subtree h : ∀ fuel le p par pi L Q, h ≤ fuel →
  tree_at h le p par pi L -∗ copied h le p par pi L Q -∗ hwp (clone_subtree fuel (NodeRef_ h p) : M _) Q.
Proof.
  induction h as [|h IH]; intros fuel le p par pi L Q Hf; iIntros "Ht HQ".
  - cbn [tree_at]. iDestruct "Ht" as ([Hl Hp]) "Hn".
    assert (clone_subtree fuel (NodeRef_ 0 p) = (r ← new_leaf;
      match r with
      | Err e => mret (Err e)
      | Ok r => in_edge ← first_edge (NodeRef_ 0 p);
                m ← clone_leaf_loop CAPACITY (BTreeMap_ r 0) (root_ref r) in_edge; mret (Ok m)
      end) :> M _) as -> by by destruct fuel.
    iApply hwp_bind. iApply hwp_try. iApply hwp_box_new. iSplit.
    + iIntros (q) "%Hq Hq". iApply hwp_ret. iApply hwp_bind. iApply (hwp_new_edge with "Hn"); [done|lia|]. iIntros "Hn".
      iApply hwp_bind. iApply (hwp_clone_leaf_loop p par pi q None L Hp Hq _ [] 0 with "Hn Hq"); [solve_len|solve_len|]. iIntros "Hn Hq".
      iApply hwp_ret. iApply (copied_done with "HQ [Hn]"); [by iSplit|]. cbn [app]. iSplit; [iPureIntro; solve_len|done].
    + iApply hwp_ret. iApply (copied_failed with "HQ"). by iSplit.
  - destruct fuel as [|fuel]; [lia|]. iDestruct (tree_inner_inv with "Ht") as (kvs cs (Hl & Hp & Hcs & ->)) "[Hn Hcs]".
    destruct cs as [|c cs]; [done|]. injection Hcs as Hcs. cbn [clone_subtree force height].
    iApply hwp_bind. iApply (hwp_new_edge with "Hn"); [done|lia|]. iIntros "Hn".
    iApply hwp_bind. iApply (hwp_descend with "Hn"); [done|done|]. iIntros "Hn". replace (S h - 1) with h by lia.
    iDestruct (children_cons with "Hcs") as "[Hc Hcs]".
    iApply hwp_bind. iApply (IH with "Hc"); [lia|]. iSplit.
    + iIntros (e epi) "Hc He". cbn [root length_]. iDestruct (children_cons with "[$Hc $Hcs]") as "Hcs".
      iApply hwp_bind. iApply (hwp_push_level with "He"). iSplit.
      * iIntros (q) "%Hq Hq Hcs'". iApply hwp_bind. iApply (hwp_new_edge with "Hn"); [done|lia|]. iIntros "Hn".
        cbn [root length_].
        assert (length c.2 = length (inter [(e, clones c.2)].*2 (clones []))) as -> by (by rewrite /= app_nil_r length_fmap).
        iApply (hwp_clone_inner_loop h le p par pi kvs q None _ _ Hp Hq Hl kvs [] [] c cs [(e, clones c.2)] with "Hn Hcs Hq Hcs' HQ");
          [done|done|done|lia|done].
        Unshelve. intros c' par' pi' Q'. iIntros "Ht HQ". iApply (IH with "Ht HQ"). lia.
      * iIntros "He". iApply hwp_bind. iApply (hwp_drop_tree _ _ (clones c.2) with "[He]"); [by rewrite length_fmap| |].
        -- iApply (tree_weaken with "He"). lia.
        -- iApply hwp_ret. iApply (copied_failed with "HQ"). iApply (tree_inner _ _ _ _ _ _ (c :: cs)); [done|done|by rewrite /= Hcs|]. iFrame.
    + iIntros "Hc". iApply hwp_ret. iApply (copied_failed with "HQ").
      iApply (tree_inner _ _ _ _ _ _ (c :: cs)); [done|done|by rewrite /= Hcs|]. rewrite children_cons. iFrame.
Qed.

(** The original stays as it is; the copy has the right count. *)
Lemma hwp_clone m n L Q : sorted (clones L) →
  map_at m n L -∗
  ((∀ m', map_at m n L -∗ map_at m' (length L) (clones L) -∗ Q (Ok m')) ∧ (map_at m n L -∗ Q (Err AllocErr_))) -∗
  hwp (map_clone m : M _) Q.
Proof.
  iIntros (Hs') "[[%Hn %Hs] H] HQ". unfold map_clone, map_len. rewrite Hn. destruct Hs as [Hs Hl].
  destruct (Nat.eqb_spec n 0) as [Hz|Hz].
  - destruct L; [|cbn in Hl; lia]. iApply hwp_ret. iDestruct "HQ" as "[HQ _]". iApply ("HQ" with "[H]").
    + iSplit; [done|done].
    + iSplit; [done|]. by iLeft.
  - iDestruct "H" as "[[%H _]|H]"; [by destruct H as (_ & _ & ?)|]. iDestruct "H" as (pi) "Ht".
    iApply (hwp_clone_subtree with "Ht"); [done|]. iSplit.
    + iIntros (q pi') "Ht Hq". iDestruct "HQ" as "[HQ _]". iApply ("HQ" with "[Ht] [Hq]").
      * iApply map_at_root; [done|done|]. by iExists pi.
      * iApply map_at_root; [done|split; [done|by rewrite length_fmap]|]. by iExists pi'.
    + iIntros "Ht". iDestruct "HQ" as "[_ HQ]". iApply "HQ". iApply map_at_root; [done|done|]. by iExists pi.
Qed.
End clone.
