(* ===== verification/BTreeAppend.v ===== *)
(** * BTreeAppend: [append] of two B-tree maps

    [from_sorted_iter] fills nodes from the left, so that what stands left of its
    path to the last leaf is full; [fix_right_edge] then fills the nodes of that path
    from their neighbours.  The entries come from merging two iterators by value. *)

From S2P Require Import Prelude HeapLogic Node NodeSpec Kids BTree BTreeSpec Rebalance BTreeRemove BTreeIter.
From S2P Require Import BTreeBulk BTreeMove BTreeBorder BTreeSplit BTreeClone.
From stdpp Require Import sorting.
From iris.proofmode Require Import proofmode.
From iris.prelude Require Import options.

#[local] Open Scope nat_scope.

Section edge.
Context {K V A : Type} `{!GlobalAlloc NodeLayout A}.
#[local] Abbreviation N := (Node K V).
#[local] Abbreviation M := (M (store N A)).
#[local] Abbreviation prop := (hProp N).
#[local] Abbreviation sub := (Z * list (K * V))%type.
#[local] Notation "p ↦ n" := (points_to p n) (at level 20) : bi_scope.
Implicit Types (L : list (K * V)) (kvs : list (K * V)) (es : list Z) (cs : list sub).
#[local] Existing Instance denses.

(** ** [fix_right_edge] *)

Lemma hwp_last_edge h q par pi kvs1 kv es1 ka a ksa kb b ksb Q :
  around h q par pi kvs1 kv [] es1 ka a ksa kb b ksb [] -∗
  (around h q par pi kvs1 kv [] es1 ka a ksa kb b ksb [] -∗ Q (Handle_ (NodeRef_ (S h) q) (length kvs1 + 1))) -∗
  hwp (last_edge (NodeRef_ (S h) q) : M _) Q.
Proof.
  iIntros "[%H [Hn Hab]] HQ". destruct H as (H1 & H2 & Hq).
  iApply hwp_bind. iApply (hwp_len with "Hn"); [done|]. iIntros "Hn".
  assert (length (keys (inner_node par pi (kvs1 ++ [kv]) (es1 ++ [a; b]))) = length kvs1 + 1) as -> by solve_len.
  iApply (hwp_new_edge with "Hn"); [done|solve_len|]. iIntros "Hn". iApply "HQ". iSplit; [done|]. iFrame.
Qed.

Lemma hwp_around_left_kv h q par pi kvs1 kv es1 ka a ksa kb b ksb Q :
  around h q par pi kvs1 kv [] es1 ka a ksa kb b ksb [] -∗
  (around h q par pi kvs1 kv [] es1 ka a ksa kb b ksb [] -∗ Q (Ok (Handle_ (NodeRef_ (S h) q) (length kvs1)))) -∗
  hwp (left_kv (Handle_ (NodeRef_ (S h) q) (length kvs1 + 1)) : M _) Q.
Proof.
  iIntros "[%H [Hn Hab]] HQ". destruct H as (H1 & H2 & Hq). unfold left_kv. cbn [idx hnode].
  rewrite (proj2 (Nat.ltb_lt _ _)); [|lia]. rewrite Nat.add_sub.
  iApply hwp_bind. iApply (hwp_new_kv with "Hn"); [done|solve_len|]. iIntros "Hn". iApply hwp_ret. iApply "HQ".
  iSplit; [done|]. iFrame.
Qed.

Lemma hwp_right_edge h : ∀ fuel m le p par pi L Q, h ≤ fuel → h = 0 ∨ 1 ≤ m → le ≤ m →
  rrim h m p par pi L -∗ (tree_at h le p par pi L -∗ Q tt) -∗
  hwp (right_edge_loop fuel (NodeRef_ h p) : M unit) Q.
Proof.
  induction h as [|h IH]; intros fuel m le p par pi L Q Hf Hm Hle; iIntros "Ht HQ".
  - unfold right_edge_loop. destruct fuel; cbn; (iApply hwp_ret; iApply "HQ"; iDestruct "Ht" as "[%H Hn]"; iSplit; [|done]);
      iPureIntro; destruct H as (<- & ? & ?); (split; [solve_len|done]).
  - destruct Hm as [|Hm]; [done|]. destruct fuel as [|fuel]; [lia|]. cbn [right_edge_loop force height].
    iDestruct (rrim_last with "Ht") as (kvs1 kv cs1 ka a ca kb b ksb Lb H) "[Hp Hks]"; [done|].
    destruct H as (<- & Hcap & Hp & Hcs1 & Hca & Hka & Hkb & ->). cbn [sib_least denses] in Hka.
    iApply hwp_bind. iApply (hwp_last_edge with "Hp"). iIntros "Hp".
    iApply hwp_bind. iApply (hwp_around_right with "Hp"). iIntros "Hp".
    iApply hwp_bind. iApply (hwp_around_right_len with "Hp"). iIntros "Hp". iApply hwp_bind.
    destruct (Nat.ltb_spec (length kb) MIN_LEN) as [Hkb5|Hkb5].
    + iApply hwp_bind. iApply (hwp_around_left_kv with "Hp"). iIntros "Hp".
      destruct (split_last ka (4 - length kb)) as (ka1 & [k' v'] & ka2 & -> & Hka2); [solve_len|].
      apply shape_split in Hca as (ca1 & ca2 & -> & Hca1 & Hca2 & ->). rewrite length_app /= in Hka.
      replace (MIN_LEN - length kb) with (S (length ka2)) by solve_len. rewrite fmap_app. destruct kv as [k v].
      iApply hwp_bind. iApply (hwp_bulk_steal_left with "Hp"); [solve_len|by apply shape_kids|destruct h; cbn in *; [by subst|solve_len]|]. iIntros "Hp".
      iApply (hwp_around_edge with "Hp"); [cbn; lia|]. iIntros "Hp". rewrite -app_assoc.
      iApply (hwp_last_child with "Hp Hks [] HQ"); [done|done|lia|done|solve_len|by apply rrim_parts_app|].
      iIntros (Q') "Hb Hback". iApply (IH with "Hb Hback"); [lia|solve_len|solve_len].
    + iApply hwp_ret. iApply (hwp_last_child with "Hp Hks [] HQ"); [done|done|lia|done|solve_len|done|].
      iIntros (Q') "Hb Hback". iApply (IH with "Hb Hback"); [lia|solve_len|solve_len].
Qed.
End edge.

(** ** The tree that is being built *)

Section grow.
Context {K V A : Type} `{!Ord K, !GlobalAlloc NodeLayout A}.
#[local] Abbreviation N := (Node K V).
#[local] Abbreviation M := (M (store N A)).
#[local] Abbreviation prop := (hProp N).
#[local] Abbreviation sub := (Z * list (K * V))%type.
#[local] Notation "p ↦ n" := (points_to p n) (at level 20) : bi_scope.
Implicit Types (L : list (K * V)) (kvs : list (K * V)) (es : list Z) (cs : list sub).
#[local] Existing Instance denses.

(** The nodes above the last subtree of height [h]: what hangs from them left of it is full. *)
Fixpoint above_last (n h : nat) (p : Z) (par : option Z) (pi : option nat) (r : Root) L1 : prop :=
  match n with
  | O => ⌜par = None ∧ r = Root_ p h ∧ L1 = []⌝ ∧ emp
  | S n => ∃ q qpar qpi kvs cs L1',
      ⌜par = Some q ∧ pi = Some (length cs) ∧ length cs = length kvs ∧ 1 - n ≤ length kvs ≤ CAPACITY ∧
       (STATIC_END <= q)%Z ∧ L1 = L1' ++ lefts cs.*2 kvs⌝ ∧
      q ↦ inner_node qpar qpi kvs (cs.*1 ++ [p]) ∗ kids q 0 (sib h <$> cs) ∗ above_last n (S h) q qpar qpi r L1'
  end.

Lemma above_last_plug n : ∀ h m p par pi r L1 L,
  above_last n h p par pi r L1 -∗ rrim h m p par pi L -∗
  ∃ m' pi', ⌜n ≠ 0 ∨ h = 0 ∨ 1 ≤ m → root_height r = 0 ∨ 1 ≤ m'⌝ ∧ rrim (root_height r) m' (root_node r) None pi' (L1 ++ L).
Proof.
  induction n as [|n IH]; intros h m p par pi r L1 L; iIntros "Ha Ht".
  - iDestruct "Ha" as ((-> & -> & ->)) "_". iExists m, pi. iSplit; [iPureIntro; by intros [?|?]|done].
  - iDestruct "Ha" as (q qpar qpi kvs cs L1' (-> & -> & Hcs & Hl & Hq & ->)) "(Hn & Hks & Ha)".
    rewrite -app_assoc. iDestruct (IH _ (length kvs) with "Ha [Hn Hks Ht]") as (m' pi') "[%H Ht]".
    + iExists kvs, cs, p, m, L. iSplit; [iPureIntro; split_and!; (done || lia)|]. rewrite Hcs. iFrame.
    + iExists m', pi'. iSplit; [iPureIntro; intros _; apply H; lia|done].
Qed.

Lemma above_last_height n : ∀ h p par pi r L1, above_last n h p par pi r L1 ⊢ ⌜root_height r = (n + h)%nat⌝.
Proof.
  induction n as [|n IH]; intros h p par pi r L1; cbn [above_last].
  - iIntros "[%H _]". iPureIntro. by destruct H as (_ & -> & _).
  - iIntros "(%q & %qpar & %qpi & %kvs & %cs & %L1' & _ & _ & _ & Ha)".
    iDestruct (IH with "Ha") as %->. iPureIntro. lia.
Qed.

(** A full node under way is one more full subtree. *)
Lemma dense_close h q qpar qpi kvs cs p L : length cs = length kvs → length kvs = CAPACITY → (STATIC_END <= q)%Z →
  q ↦ inner_node qpar qpi kvs (cs.*1 ++ [p]) -∗ kids q 0 (sib h <$> cs) -∗ dense h p (Some q) (Some (length cs)) L -∗
  dense (S h) q qpar qpi (lefts cs.*2 kvs ++ L).
Proof.
  iIntros (Hcs Hk Hq) "Hn Hks Ht". iExists kvs, (cs ++ [(p, L)]). iSplit.
  { iPureIntro. split_and!; [done|done|solve_len|]. rewrite fmap_app -{2}(app_nil_r kvs) inter_focus ?length_fmap //. by rewrite !app_nil_r. }
  rewrite fmap_app. iFrame "Hn". iApply big_sepL_app. rewrite dense_kids. iFrame "Hks". cbn. rewrite Nat.add_0_r. by iFrame.
Qed.

Lemma hwp_ascend_dense h p par pi L Q : (par = None ∨ ∃ i, pi = Some i) →
  dense h p par pi L -∗
  (dense h p par pi L -∗ Q (match par, pi with
                            | Some q, Some i => Ok (Handle_ (NodeRef_ (S h) q) i)
                            | _, _ => Err (NodeRef_ h p)
                            end)) -∗ hwp (ascend (NodeRef_ h p) : M _) Q.
Proof.
  iIntros (Hpar) "Ht HQ". destruct h as [|h].
  - iDestruct "Ht" as "[%H Hn]". iApply (hwp_ascend with "Hn"); [by destruct H|done|]. iIntros "Hn". iApply "HQ". by iSplit.
  - iDestruct "Ht" as (kvs cs H) "[Hn Hcs]". iApply (hwp_ascend with "Hn"); [by destruct H as (_ & ? & _)|done|].
    iIntros "Hn". iApply "HQ". iExists kvs, cs. iSplit; [done|]. iFrame.
Qed.
Lemma dense_static h p par pi L : dense h p par pi L ⊢ ⌜(STATIC_END <= p)%Z⌝.
Proof. destruct h; cbn; [iIntros "[%H _]"|iIntros "(%kvs & %cs & %H & _)"]; iPureIntro; naive_solver. Qed.

(** The node that [find_open] finds. *)
Definition open_at r h q L : prop :=
  ∃ n qpar qpi kvs cs L1,
    ⌜length cs = S (length kvs) ∧ length kvs < CAPACITY ∧ (STATIC_END <= q)%Z ∧ L = L1 ++ inter cs.*2 kvs⌝ ∧
    q ↦ inner_node qpar qpi kvs cs.*1 ∗ kids q 0 (sib h <$> cs) ∗ above_last n (S h) q qpar qpi r L1.

Lemma hwp_find_open n : ∀ fuel h p par pi r L1 L Q, n ≤ fuel →
  above_last n h p par pi r L1 -∗ dense h p par pi L -∗
  ((∀ r' h' q, open_at r' h' q (L1 ++ L) -∗ Q (r', Ok (NodeRef_ (S h') q))) ∧
   (∀ pi', dense (root_height r) (root_node r) None pi' (L1 ++ L) -∗ Q (r, Err AllocErr_))) -∗
  hwp (find_open fuel r (NodeRef_ h p) : M _) Q.
Proof.
  induction n as [|n IH]; intros fuel h p par pi r L1 L Q Hf; iIntros "Ha Ht HQ".
  all: assert (find_open fuel r (NodeRef_ h p) = (p ← ascend (NodeRef_ h p);
    match p with
    | Ok parent =>
        let parent := hnode parent in
        l ← len parent;
        if l <? CAPACITY then mret (r, Ok parent)
        else match fuel with O => ub "still climbing" | S fuel => find_open fuel r parent end
    | Err _ => push_level r
    end) :> M _) as -> by by destruct fuel.
  all: iApply hwp_bind.
  - iDestruct "Ha" as ((-> & -> & ->)) "_". iApply (hwp_ascend_dense with "Ht"); [by left|]. iIntros "Ht". cbn [app].
    iDestruct (dense_static with "Ht") as %Hp.
    iApply (hwp_push_kid _ (dense_kid h (p, L)) with "Ht"); [apply dense_linkable|done|]. iSplit.
    + iIntros (q) "%Hq Hn Hks". iDestruct "HQ" as "[HQ _]". iApply "HQ".
      iExists 0, None, None, [], [(p, L)], []. iSplit; [iPureIntro; split_and!; [done|solve_len|done|by rewrite /= app_nil_r]|]. iFrame. by iSplit.
    + iIntros "Ht". iDestruct "HQ" as "[_ HQ]". by iApply ("HQ" $! pi).
  - iDestruct "Ha" as (q qpar qpi kvs cs L1' (-> & -> & Hcs & Hl & Hq & ->)) "(Hn & Hks & Ha)".
    iApply (hwp_ascend_dense with "Ht"); [by right; eexists|]. iIntros "Ht". cbv zeta. cbn [hnode].
    iApply hwp_bind. iApply (hwp_len with "Hn"); [done|]. iIntros "Hn". cbn [keys inner_node]. rewrite length_fmap -app_assoc.
    destruct (Nat.ltb_spec (length kvs) CAPACITY) as [Hc|Hc].
    + iApply hwp_ret. iDestruct "HQ" as "[HQ _]". iApply "HQ". iExists n, qpar, qpi, kvs, (cs ++ [(p, L)]), L1'. iSplit.
      { iPureIntro. split_and!; [solve_len|done|done|]. rewrite fmap_app -{2}(app_nil_r kvs) inter_focus ?length_fmap //. by rewrite !app_nil_r. }
      rewrite (fmap_app fst) (fmap_app (sib h)) kids_app kids_cons kids_nil length_fmap. iFrame.
    + destruct fuel as [|fuel]; [lia|]. iApply (IH with "Ha [Hn Hks Ht] HQ"); [lia|].
      iApply (dense_close with "Hn Hks Ht"); [done|lia|done].
Qed.

(** ** One entry more *)

Definition building r p L : prop :=
  ∃ n par pi kvs L1, ⌜L = L1 ++ kvs ∧ length kvs ≤ CAPACITY ∧ (STATIC_END <= p)%Z⌝ ∧
    p ↦ leaf_node par pi kvs ∗ above_last n 0 p par pi r L1.

(** What a failure leaves: a tree with a loose border, and perhaps nodes that are leaked. *)
Definition stuck r L : prop := ∃ m pi, rrim (root_height r) m (root_node r) None pi L ∗ ∃ G, G.

Lemma dense_rrim h p par pi L : dense h p par pi L ⊢ rrim h CAPACITY p par pi L.
Proof.
  revert p par pi L. induction h as [|h IH]; intros p par pi L.
  - iIntros "[%H Hn]". destruct H. by iSplit.
  - iIntros "(%kvs & %cs & %H & Hn & Hcs)". destruct H as (Hk & Hp & Hcs & ->).
    rewrite Hk in Hcs. destruct cs as [|c cs' _] using rev_ind; [done|]. rewrite length_app Nat.add_1_r in Hcs. injection Hcs as Hcs.
    iDestruct (big_sepL_snoc with "Hcs") as "[Hcs Hc]". iDestruct (IH with "Hc") as "Hc".
    iExists kvs, cs', c.1, CAPACITY, c.2. iSplit.
    { iPureIntro. split_and!; [done|done|done|done|]. rewrite fmap_app -{1}(app_nil_r kvs) inter_focus ?length_fmap; [by rewrite app_nil_r|lia]. }
    rewrite fmap_app dense_kids Hcs. iFrame.
Qed.

Lemma open_stuck r h q L : open_at r h q L ⊢ ∃ m pi, rrim (root_height r) m (root_node r) None pi L.
Proof.
  iIntros "(%n & %qpar & %qpi & %kvs & %cs & %L1 & %H & Hn & Hks & Ha)". destruct H as (Hcs & Hk & Hq & ->).
  destruct cs as [|c cs' _] using rev_ind; [done|]. rewrite length_app Nat.add_1_r in Hcs. injection Hcs as Hcs.
  rewrite (fmap_app (sib h)) kids_app kids_cons length_fmap. iDestruct "Hks" as "(Hks & Hc & _)". cbn [kid_tree sib denses dense_kid].
  iDestruct (dense_rrim with "Hc") as "Hc".
  iDestruct (above_last_plug with "Ha [Hn Hks Hc]") as (m pi) "[_ Ht]"; [|by iExists m, pi].
  iExists kvs, cs', c.1, CAPACITY, c.2. iSplit.
  { iPureIntro. split_and!; [done|lia|done|done|]. rewrite fmap_app -{1}(app_nil_r kvs) inter_focus ?length_fmap; [by rewrite app_nil_r|lia]. }
  rewrite fmap_app Hcs. iFrame.
Qed.

(** Down to the new last leaf. *)
Lemma hwp_last_leaf_open h : ∀ fuel n q par pi r L1 Q, h ≤ fuel →
  spine h q par pi -∗ above_last (S n) h q par pi r L1 -∗
  (∀ t n' tpar tpi, ⌜(STATIC_END <= t)%Z⌝ → t ↦ leaf_node tpar tpi [] -∗ above_last n' 0 t tpar tpi r L1 -∗ Q (Handle_ (NodeRef_ 0 t) 0)) -∗
  hwp (last_leaf_edge_loop fuel (NodeRef_ h q) : M _) Q.
Proof.
  induction h as [|h IH]; intros fuel n q par pi r L1 Q Hf; iIntros "Hs Ha HQ".
  - iDestruct "Hs" as "[%Hq Hn]".
    assert (last_leaf_edge_loop fuel (NodeRef_ 0 q) = (last_edge (NodeRef_ 0 q) : M _)) as -> by by destruct fuel.
    iApply hwp_bind. iApply (hwp_len with "Hn"); [done|]. iIntros "Hn".
    iApply (hwp_new_edge with "Hn"); [done|done|]. iIntros "Hn". by iApply ("HQ" with "[%] Hn Ha").
  - destruct fuel as [|fuel]; [lia|]. iDestruct "Hs" as (e Hq) "[Hn Hs]". cbn [last_leaf_edge_loop force height]. iApply hwp_bind.
    iApply hwp_bind. iApply (hwp_len with "Hn"); [done|]. iIntros "Hn".
    iApply (hwp_new_edge with "Hn"); [done|done|]. iIntros "Hn".
    iApply hwp_bind. iApply (hwp_descend with "Hn"); [done|done|]. iIntros "Hn". replace (S h - 1) with h by lia.
    iApply (IH _ (S n) with "Hs [Hn Ha] HQ"); [lia|].
    iExists q, par, pi, [], [], L1. rewrite kids_nil. iFrame. iSplit; [|done]. iPureIntro. split_and!; (done || solve_len || by rewrite app_nil_r).
Qed.

(** The open node gets the entry, and behind it a path to an empty leaf. *)
Lemma hwp_extend r h q L k v q2 pi2 Q :
  open_at r h q L -∗ spine h q2 None pi2 -∗
  (∀ p', building r p' (L ++ [(k, v)]) -∗ Q (r, Ok (NodeRef_ 0 p'))) -∗
  hwp (_ ← internal_push (NodeRef_ (S h) q) k v (Root_ q2 h); e ← last_leaf_edge (NodeRef_ (S h) q); mret (r, Ok (hnode e)) :
       M (Root * result NodeRef AllocErr)) Q.
Proof.
  iIntros "(%n & %qpar & %qpi & %kvs & %cs & %L1 & %H & Hn & Hks & Ha) Hs HQ". destruct H as (Hcs & Hk & Hq & ->).
  iApply hwp_bind. iApply (hwp_internal_push_kid _ _ _ _ _ _ (spine_kid h q2) with "Hn [Hs]"); [done|solve_len|done|apply spine_linkable|by iExists _, _|].
  iIntros "Hn Hs". rewrite kids_cons. iDestruct "Hs" as "[Hs _]". cbn [kid_tree kid_at spine_kid]. rewrite -Hcs.
  iApply hwp_bind. unfold last_leaf_edge. cbn [height last_leaf_edge_loop force].
  iApply hwp_bind. iApply hwp_bind. iApply (hwp_len with "Hn"); [done|]. iIntros "Hn".
  iApply (hwp_new_edge with "Hn"); [done|done|]. iIntros "Hn". cbn [keys inner_node]. rewrite length_fmap length_app Nat.add_1_r -Hcs.
  iApply hwp_bind. iApply (hwp_descend with "Hn"); [done|by apply list_lookup_middle; rewrite length_fmap|]. iIntros "Hn".
  replace (S h - 1) with h by lia.
  iApply (hwp_last_leaf_open h h n _ _ _ r (L1 ++ lefts cs.*2 (kvs ++ [(k, v)])) with "Hs [Hn Hks Ha]"); [done| |].
  - iExists q, qpar, qpi, (kvs ++ [(k, v)]), cs, L1. iFrame. iPureIntro. split_and!; (done || solve_len).
  - iIntros (t n' tpar tpi) "%Ht Hn Ha". iApply hwp_ret. cbn [hnode]. iApply "HQ". iExists n', tpar, tpi, [], _.
    iSplit; [iPureIntro; split_and!; [|solve_len|done]|iFrame]. rewrite app_nil_r -app_assoc inter_lefts // length_fmap //.
Qed.

Lemma hwp_push_entry r p L k v Q :
  building r p L -∗
  ((∀ r' p', building r' p' (L ++ [(k, v)]) -∗ Q (r', Ok (NodeRef_ 0 p'))) ∧
   (∀ r', stuck r' L -∗ Q (r', Err AllocErr_))) -∗
  hwp (push_entry r (NodeRef_ 0 p) k v : M _) Q.
Proof.
  iIntros "(%n & %par & %pi & %kvs & %L1 & %H & Hn & Ha) HQ". destruct H as (-> & Hk & Hp).
  iApply hwp_bind. iApply (hwp_len with "Hn"); [done|]. iIntros "Hn". cbn [keys leaf_node]. rewrite length_fmap.
  destruct (Nat.ltb_spec (length kvs) CAPACITY) as [Hc|Hc].
  - iApply hwp_bind. iApply (hwp_leaf_push with "Hn"); [done|done|]. iIntros "Hn". iApply hwp_ret.
    iDestruct "HQ" as "[HQ _]". iApply "HQ". iExists n, par, pi, _, L1.
    iSplit; [iPureIntro; split_and!; [by rewrite -app_assoc|solve_len|done]|iFrame].
  - iDestruct (above_last_height with "Ha") as %Hh. iApply hwp_bind.
    iApply (hwp_find_open n _ 0 p par pi r L1 kvs with "Ha [Hn]"); [lia|iSplit; [iPureIntro; split; [solve_len|done]|done]|]. iSplit.
    + iIntros (r' h q) "Hopen". cbn [height]. rewrite Nat.sub_succ Nat.sub_0_r. cbv zeta.
      iApply hwp_bind. iApply hwp_try. iApply hwp_box_new. iSplit.
      * iIntros (q2) "%Hq2 Hq2". iApply hwp_ret. iApply hwp_bind.
        iApply (hwp_push_levels h 0 q2 None with "[Hq2]"); [by iSplit|].
        iIntros (q' h' pi' [[]|[]]) "%Hh' Hs".
        -- rewrite Nat.add_0_r in Hh'. subst h'. iDestruct "HQ" as "[HQ _]". by iApply (hwp_extend with "Hopen Hs").
        -- iApply hwp_ret. iDestruct "HQ" as "[_ HQ]". iApply "HQ". iDestruct (open_stuck with "Hopen") as (m pi2) "Ht".
           iExists m, pi2. iFrame "Ht". iExists _. iExact "Hs".
      * iApply hwp_ret. iDestruct "HQ" as "[_ HQ]". iApply "HQ". iDestruct (open_stuck with "Hopen") as (m pi2) "Ht".
        iExists m, pi2. iFrame "Ht". by iExists emp%I.
    + iIntros (pi') "Ht". iApply hwp_ret. iDestruct "HQ" as "[_ HQ]". iApply "HQ". iExists CAPACITY, pi'. rewrite dense_rrim. iFrame. by iExists emp%I.
Qed.

(** ** [from_sorted_iter] *)

(** What is asked of the iterator: [yields it R], it yields [R] and then ends. *)
Record Yields {It : Type} (next : It → M (It * option (K * V))) (drop_iter : It → M (list (K * V)))
    (yields : It → list (K * V) → prop) : Prop := {
  next_some it kv R Q : yields it (kv :: R) -∗ (∀ it', yields it' R -∗ Q (it', Some kv)) -∗ hwp (next it) Q;
  next_none it Q : yields it [] -∗ (∀ it', yields it' [] -∗ Q (it', None)) -∗ hwp (next it) Q;
  drop_rest it R Q : yields it R -∗ (∀ kvs, Q kvs) -∗ hwp (drop_iter it) Q
}.

Section from_sorted_iter.
Context {It : Type} (next : It → M (It * option (K * V))) (drop_iter : It → M (list (K * V))).
Context (yields : It → list (K * V) → prop) (HI : Yields next drop_iter yields).

Lemma hwp_sorted_iter_loop R : ∀ turns m p it L Q, length R ≤ turns → length_ m = length L →
  building (root m) p L -∗ yields it R -∗
  ((∀ m' p', ⌜length_ m' = length (L ++ R)⌝ → building (root m') p' (L ++ R) -∗ Q (m', Ok tt)) ∧
   (∀ m' L1 L2, ⌜L ++ R = L1 ++ L2 ∧ length_ m' = length L1⌝ → stuck (root m') L1 -∗ Q (m', Err AllocErr_))) -∗
  hwp (sorted_iter_loop next drop_iter turns m (NodeRef_ 0 p) it) Q.
Proof using HI.
  induction R as [|[k v] R IH]; intros turns m p it L Q Ht Hm; iIntros "Hb Hi HQ".
  all: assert (sorted_iter_loop next drop_iter turns m (NodeRef_ 0 p) it = ('(it, kv) ← next it;
    match kv with
    | None => _ ← drop_iter it; mret (m, Ok tt)
    | Some (key, value) =>
        '(r, cur) ← push_entry (root m) (NodeRef_ 0 p) key value;
        match cur with
        | Err e => _ ← drop_iter it; mret (BTreeMap_ r (length_ m), Err e)
        | Ok cur_node =>
            let m := BTreeMap_ r (length_ m + 1) in
            match turns with O => ub "still pushing" | S turns => sorted_iter_loop next drop_iter turns m cur_node it end
        end
    end)) as -> by by destruct turns.
  all: iApply hwp_bind.
  - iApply (next_none _ _ _ HI with "Hi"). iIntros (it') "Hi". iApply hwp_bind. iApply (drop_rest _ _ _ HI with "Hi"). iIntros (kvs).
    iApply hwp_ret. iDestruct "HQ" as "[HQ _]". rewrite app_nil_r. by iApply ("HQ" with "[%] Hb").
  - iApply (next_some _ _ _ HI with "Hi"). iIntros (it') "Hi". iApply hwp_bind. iApply (hwp_push_entry with "Hb"). iSplit.
    + iIntros (r' p') "Hb". destruct turns as [|turns]; [cbn in Ht; lia|]. cbv zeta.
      iApply (IH _ (BTreeMap_ _ _) with "Hb Hi"); [cbn in Ht; lia|cbn; rewrite length_app Hm; done|]. by rewrite -app_assoc.
    + iIntros (r') "Hs". iApply hwp_bind. iApply (drop_rest _ _ _ HI with "Hi"). iIntros (kvs). iApply hwp_ret.
      iDestruct "HQ" as "[_ HQ]". by iApply ("HQ" $! (BTreeMap_ _ _) L ((k, v) :: R) with "[%] Hs").
Qed.

Lemma hwp_from_sorted_iter turns it R Q : length R ≤ turns →
  yields it R -∗
  ((∀ m' p', ⌜length_ m' = length R⌝ → building (root m') p' R -∗ Q (m', Ok tt)) ∧
   (∀ m' L1 L2, ⌜R = L1 ++ L2 ∧ length_ m' = length L1⌝ →
      ((⌜m' = BTreeMap_new ∧ L1 = []⌝ ∧ emp) ∨ stuck (root m') L1) -∗ Q (m', Err AllocErr_))) -∗
  hwp (from_sorted_iter next drop_iter turns BTreeMap_new it) Q.
Proof using HI.
  iIntros (Ht) "Hi HQ". unfold from_sorted_iter, ensure_root_is_owned, root_is_shared_root.
  cbn [root BTreeMap_new shared_empty_root root_node]. rewrite bool_decide_true //.
  iApply hwp_bind. iApply hwp_bind. iApply hwp_try. iApply hwp_box_new. iSplit.
  - iIntros (q) "%Hq Hn". do 2 iApply hwp_ret. cbn [root length_].
    iApply hwp_bind. unfold last_leaf_edge. cbn [root_ref root_height root_node height last_leaf_edge_loop].
    iApply hwp_bind. iApply (hwp_len with "Hn"); [done|]. iIntros "Hn".
    iApply (hwp_new_edge with "Hn"); [done|done|]. iIntros "Hn". cbn [hnode].
    iApply (hwp_sorted_iter_loop R _ _ q it [] with "[Hn] Hi"); [done|done| |].
    + iExists 0, None, None, [], []. iSplit; [iPureIntro; split_and!; [done|solve_len|done]|]. iFrame. by iSplit.
    + iSplit; [by iDestruct "HQ" as "[HQ _]"|]. iDestruct "HQ" as "[_ HQ]". iIntros (m' L1 L2) "%H Hs".
      iApply ("HQ" with "[//]"). by iRight.
  - iApply hwp_ret. iApply hwp_bind. iApply (drop_rest _ _ _ HI with "Hi"). iIntros (kvs). iApply hwp_ret.
    iDestruct "HQ" as "[_ HQ]". iApply ("HQ" $! BTreeMap_new [] R with "[//]"). by iLeft.
Qed.
End from_sorted_iter.

(** Filling the last nodes makes it the tree of a map. *)
Lemma hwp_fix_right_edge r p L Q : building r p L -∗ (root_at r L -∗ Q tt) -∗ hwp (fix_right_edge r : M unit) Q.
Proof.
  iIntros "(%n & %par & %pi & %kvs & %L1 & %H & Hn & Ha) HQ". destruct H as (-> & Hk & Hp).
  iDestruct (above_last_plug _ _ (length kvs) with "Ha [Hn]") as (m pi') "[%Hm Ht]"; [by iSplit|].
  iApply (hwp_right_edge _ _ m (least 0 (root_height r)) with "Ht"); [done|by apply Hm; right; left| |].
  - destruct (root_height r); cbn; [lia|]. destruct Hm as [?|?]; [by right; left|done|done].
  - iIntros "Ht". iApply "HQ". by iExists pi'.
Qed.
End grow.

(** ** Merging *)

Section merge.
Context {K V A : Type} `{!Ord K, !GlobalAlloc NodeLayout A}.
#[local] Abbreviation N := (Node K V).
#[local] Abbreviation M := (M (store N A)).
#[local] Abbreviation prop := (hProp N).
Implicit Types (L R : list (K * V)).

(** Two lists of entries in one; of equal keys, the second list's entry is taken. *)
Fixpoint merge_entries L : list (K * V) → list (K * V) :=
  match L with
  | [] => λ R, R
  | x :: L' => fix go R :=
      match R with
      | [] => x :: L'
      | y :: R' =>
          match cmp x.1 y.1 with
          | Lt => x :: merge_entries L' (y :: R')
          | Gt => y :: go R'
          | Eq => y :: merge_entries L' R'
          end
      end
  end.

Lemma merge_entries_nil L : merge_entries L [] = L.
Proof. by destruct L. Qed.
Lemma merge_entries_cons x L y R : merge_entries (x :: L) (y :: R) =
  match cmp x.1 y.1 with
  | Lt => x :: merge_entries L (y :: R)
  | Gt => y :: merge_entries (x :: L) R
  | Eq => y :: merge_entries L R
  end.
Proof. done. Qed.
Lemma merge_entries_ind (P : list (K * V) → list (K * V) → Prop) :
  (∀ R, P [] R) → (∀ L, P L []) →
  (∀ x L y R, P L (y :: R) → P (x :: L) R → P L R → P (x :: L) (y :: R)) → ∀ L R, P L R.
Proof.
  intros Hl Hr Hc. induction L as [|x L IHL]; [done|]. induction R as [|y R IHR]; [done|]. by apply Hc.
Qed.

Lemma length_merge L R : length (merge_entries L R) ≤ length L + length R.
Proof.
  pattern L, R. apply merge_entries_ind; clear; [done|intros L; rewrite merge_entries_nil; lia|].
  intros x L y R H1 H2 H3. rewrite merge_entries_cons. destruct (cmp x.1 y.1); cbn in *; lia.
Qed.
Lemma merge_keys L R k : k ∈ (merge_entries L R).*1 → k ∈ L.*1 ∨ k ∈ R.*1.
Proof.
  pattern L, R. apply merge_entries_ind; clear; [by right|intros L; rewrite merge_entries_nil; by left|].
  intros x L y R H1 H2 H3. rewrite merge_entries_cons.
  destruct (cmp x.1 y.1); cbn in *; rewrite !elem_of_cons in H1, H2, H3 |- *; tauto.
Qed.
Lemma sorted_cons kv L : sorted (kv :: L) ↔ (∀ k, k ∈ L.*1 → klt kv.1 k) ∧ sorted L.
Proof.
  change (kv :: L) with ([kv] ++ L). rewrite sorted_app. split.
  - intros (H & _ & Hs). split; [|done]. intros k Hk. apply H; [|done]. by apply list_elem_of_singleton.
  - intros [H Hs]. split_and!; [|constructor; constructor|done]. intros x y ->%list_elem_of_singleton. apply H.
Qed.
Lemma merge_sorted L R : sorted L → sorted R → sorted (merge_entries L R).
Proof.
  pattern L, R. apply merge_entries_ind; clear; [done|intros L; by rewrite merge_entries_nil|].
  intros x L y R H1 H2 H3 HxL HyR. pose proof HxL as [Hx HL]%sorted_cons. pose proof HyR as [Hy HR]%sorted_cons.
  rewrite merge_entries_cons.
  destruct (cmp x.1 y.1) eqn:E; apply sorted_cons; (split; [|auto]); intros k [Hk|Hk]%merge_keys; auto.
  - apply cmp_eq in E. rewrite -E. auto.
  - apply elem_of_cons in Hk as [->|Hk]; [done|]. etrans; [exact E|]. auto.
  - apply klt_gt in E. apply elem_of_cons in Hk as [->|Hk]; [done|]. etrans; [exact E|]. auto.
Qed.

(** ** The iterators *)

Definition rest_of (h : nat) (it : Iter) R : prop :=
  ∃ n, ⌜n ≤ h ∧ iter_length it = length R⌝ ∧ leaf_rest n (front (range it)) R.
Definition peek_at (p : Peekable K V) R : prop :=
  match pk_peeked p with
  | None => rest_of (pk_height p) (pk_iter p) R
  | Some x => ⌜x = head R⌝ ∧ rest_of (pk_height p) (pk_iter p) (tail R)
  end.
Definition merge_at (it : MergeIter K V) R : prop :=
  ∃ R1 R2, ⌜R = merge_entries R1 R2⌝ ∧ peek_at (left it) R1 ∗ peek_at (right it) R2.

Lemma hwp_into_step h it R Q : rest_of h it R -∗ (∀ it', rest_of h it' (tail R) -∗ Q (it', head R)) -∗
  hwp (into_next h it : M _) Q.
Proof.
  iIntros "(%n & %H & Hl) HQ". destruct H as [Hn Hit]. destruct it as [[f b] l]. cbn in Hit. subst l. destruct R as [|kv R].
  - iApply (hwp_ext (mret (Iter_ (Range_ f b) 0, None))); [done|]. iApply hwp_ret. iApply "HQ". iExists n. by iSplit.
  - iApply (hwp_into_next with "Hl"); [done|]. iIntros (hd') "Hl". iApply "HQ". iExists n. by iSplit.
Qed.
Lemma hwp_peek p R Q : peek_at p R -∗ (∀ p', peek_at p' R -∗ Q (p', head R)) -∗ hwp (peek p : M _) Q.
Proof.
  iIntros "Hp HQ". unfold peek, peek_at. destruct (pk_peeked p) as [x|] eqn:E.
  - iDestruct "Hp" as (->) "Hp". iApply hwp_ret. iApply "HQ". rewrite E. by iSplit.
  - iApply hwp_bind. iApply (hwp_into_step with "Hp"). iIntros (it') "Hp". iApply hwp_ret. iApply "HQ". cbn. by iSplit.
Qed.
Lemma hwp_peekable_next p R Q : peek_at p R -∗ (∀ p', peek_at p' (tail R) -∗ Q (p', head R)) -∗ hwp (peekable_next p : M _) Q.
Proof.
  iIntros "Hp HQ". unfold peekable_next, peek_at. destruct (pk_peeked p) as [x|] eqn:E.
  - iDestruct "Hp" as (->) "Hp". iApply hwp_ret. by iApply "HQ".
  - iApply hwp_bind. iApply (hwp_into_step with "Hp"). iIntros (it') "Hp". iApply hwp_ret. by iApply "HQ".
Qed.
Lemma hwp_rest_drop h it R Q : rest_of h it R -∗ (∀ kvs, Q kvs) -∗ hwp (IntoIter_drop h it : M _) Q.
Proof.
  iIntros "(%n & %H & Hl) HQ". destruct H as [Hn Hit]. destruct it as [[f b] l]. cbn in Hit. subst l.
  by iApply (hwp_into_drop with "Hl").
Qed.
Lemma hwp_peekable_drop p R Q : peek_at p R -∗ (∀ kvs, Q kvs) -∗ hwp (peekable_drop p : M _) Q.
Proof.
  iIntros "Hp HQ". iApply hwp_bind. iAssert (∃ R', rest_of (pk_height p) (pk_iter p) R')%I with "[Hp]" as (R') "Hp".
  { unfold peek_at. destruct (pk_peeked p); [iDestruct "Hp" as (_) "Hp"|]; by iExists _. }
  iApply (hwp_rest_drop with "Hp"). iIntros (kvs). by iApply hwp_ret.
Qed.

Lemma hwp_merge_next it R Q : merge_at it R -∗ (∀ it', merge_at it' (tail R) -∗ Q (it', head R)) -∗ hwp (merge_next it : M _) Q.
Proof.
  iIntros "(%R1 & %R2 & -> & Hl & Hr) HQ".
  iApply hwp_bind. iApply (hwp_peek with "Hl"). iIntros (l) "Hl".
  iApply hwp_bind. iApply (hwp_peek with "Hr"). iIntros (r) "Hr". cbv zeta.
  destruct R1 as [|[k1 v1] R1], R2 as [|[k2 v2] R2]; cbn [head].
  - iApply hwp_ret. iApply "HQ". iExists [], []. iSplit; [done|]. iFrame.
  - iApply hwp_bind. iApply (hwp_peekable_next with "Hr"). iIntros (r') "Hr". iApply hwp_ret. iApply "HQ".
    iExists [], R2. iSplit; [done|]. iFrame.
  - iApply hwp_bind. iApply (hwp_peekable_next with "Hl"). iIntros (l') "Hl". iApply hwp_ret. iApply "HQ".
    iExists R1, []. iSplit; [by rewrite !merge_entries_nil|]. iFrame.
  - rewrite merge_entries_cons. cbn [fst]. destruct (cmp k1 k2); cbn [head tail].
    + iApply hwp_bind. iApply (hwp_peekable_next with "Hl"). iIntros (l') "Hl".
      iApply hwp_bind. iApply (hwp_peekable_next with "Hr"). iIntros (r') "Hr". iApply hwp_ret. iApply "HQ".
      iExists R1, R2. iSplit; [done|]. iFrame.
    + iApply hwp_bind. iApply (hwp_peekable_next with "Hl"). iIntros (l') "Hl". iApply hwp_ret. iApply "HQ".
      iExists R1, ((k2, v2) :: R2). iSplit; [done|]. iFrame.
    + iApply hwp_bind. iApply (hwp_peekable_next with "Hr"). iIntros (r') "Hr". iApply hwp_ret. iApply "HQ".
      iExists ((k1, v1) :: R1), R2. iSplit; [done|]. iFrame.
Qed.

Lemma merge_yields : Yields merge_next merge_drop merge_at.
Proof.
  split.
  - intros it kv R Q. apply (hwp_merge_next it (kv :: R)).
  - intros it Q. apply (hwp_merge_next it []).
  - iIntros (it R Q) "(%R1 & %R2 & -> & Hl & Hr) HQ".
    iApply hwp_bind. iApply (hwp_peekable_drop with "Hl"). iIntros (kvs1).
    iApply hwp_bind. iApply (hwp_peekable_drop with "Hr"). iIntros (kvs2). by iApply hwp_ret.
Qed.

(** ** [append] *)

Lemma hwp_into_iter_rest m L Q : map_len m ≠ 0 → map_at m (length L) L -∗
  (∀ it, peek_at (peekable m it) L -∗ Q it) -∗ hwp (into_iter m : M _) Q.
Proof.
  iIntros (Hne) "[[%Hn %Hs] [H|H]] HQ".
  - iDestruct "H" as ((_ & _ & Hz)) "_". unfold map_len in Hne. congruence.
  - iDestruct "H" as (pi) "Ht". iApply (hwp_iter_rest with "[Ht]"); [iApply (tree_weaken with "Ht"); lia|].
    iIntros (f b) "Hl". iApply "HQ". iExists (root_height (root m)). by iSplit.
Qed.

Lemma hwp_append m1 m2 L1 L2 Q :
  map_at m1 (length L1) L1 -∗ map_at m2 (length L2) L2 -∗
  ((∀ m' e', map_at m' (length (merge_entries L1 L2)) (merge_entries L1 L2) -∗ map_at e' 0 [] -∗ Q (m', e', Ok tt)) ∧
   (∀ m' R1 R2, ⌜merge_entries L1 L2 = R1 ++ R2 ∧ length_ m' = length R1⌝ →
      ((⌜m' = BTreeMap_new ∧ R1 = []⌝ ∧ emp) ∨ stuck (root m') R1) -∗ Q (m', BTreeMap_new, Err AllocErr_))) -∗
  hwp (append m1 m2 : M _) Q.
Proof.
  iIntros "H1 H2 HQ". iAssert ⌜(length_ m1 = length L1 ∧ sorted L1) ∧ length_ m2 = length L2 ∧ sorted L2⌝%I as %[[Hl1 Hs1] [Hl2 Hs2]].
  { iDestruct "H1" as ((Hn1 & Hs1 & _)) "_". iDestruct "H2" as ((Hn2 & Hs2 & _)) "_". done. }
  unfold append. destruct (Nat.eqb_spec (map_len m2) 0) as [Hz2|Hz2]; [|destruct (Nat.eqb_spec (map_len m1) 0) as [Hz1|Hz1]].
  - iApply hwp_ret. iDestruct "HQ" as "[HQ _]". unfold map_len in *. destruct L2; [|cbn in *; lia].
    rewrite merge_entries_nil. iApply ("HQ" with "H1 H2").
  - iApply hwp_ret. iDestruct "HQ" as "[HQ _]". unfold map_len in *. destruct L1; [|cbn in *; lia]. iApply ("HQ" with "H2 H1").
  - iApply hwp_bind. iApply (hwp_into_iter_rest with "H1"); [done|]. iIntros (it1) "H1".
    iApply hwp_bind. iApply (hwp_into_iter_rest with "H2"); [done|]. iIntros (it2) "H2". cbv zeta.
    iApply hwp_bind. iApply (hwp_from_sorted_iter _ _ _ merge_yields _ _ (merge_entries L1 L2) with "[H1 H2]").
    + unfold map_len. rewrite Hl1 Hl2. apply length_merge.
    + iExists L1, L2. iSplit; [done|]. iFrame.
    + iSplit.
      * iIntros (m' p') "%Hl Hb". iDestruct "HQ" as "[HQ _]". iApply hwp_bind. iApply (hwp_fix_right_edge with "Hb"). iIntros "Hr".
        iApply hwp_ret. iApply ("HQ" with "[Hr]"); [|iApply map_at_new].
        iApply map_at_root; [done|split; [by apply merge_sorted|done]|done].
      * iIntros (m' R1 R2) "%H Hs". iApply hwp_ret. iDestruct "HQ" as "[_ HQ]". by iApply ("HQ" with "[%] Hs").
Qed.
End merge.
