(* ===== verification/BTreeRefine.v ===== *)
(** * BTreeRefine: the B-tree map implements a finite map

    The abstract state is a finite map; [is_map m n X F s] says that in the store [s]
    the map [m] holds [X], has the count [n], and that the rest of the heap is [F].
    Every operation of the nodes, down to the last pointer, is one of finite maps.  A
    failed allocation is the exception, and its damage is stated exactly. *)

From S2P Require Import Prelude HeapLogic Node BTree Readonly Keeps NodeSpec BTreeSpec Rebalance BTreeRemove BTreeIter.
From iris.proofmode Require Import proofmode.
From iris.prelude Require Import options.

#[local] Open Scope nat_scope.

(** ** Lists of entries as finite maps *)

Section entries.
Context {K V : Type} `{!EqDecision K, !Countable K, !Ord K}.
Implicit Types (L : list (K * V)).
#[local] Abbreviation to_map := (list_to_map (M := gmap K V)).

Lemma sorted_NoDup L : sorted L → NoDup L.*1.
Proof.
  unfold sorted. induction 1 as [|k ks Hs IH Hf]; constructor; [|done].
  intros Hin. rewrite Forall_forall in Hf. by apply (klt_irrefl k), Hf.
Qed.

Lemma sorted_absent k L1 L2 : below k L1 → above k L2 → k ∉ (L1 ++ L2).*1.
Proof.
  intros Hb Ha (kv & -> & [Hin|Hin]%elem_of_app)%list_elem_of_fmap.
  - unfold below in Hb. rewrite Forall_forall in Hb. by apply Hb, klt_irrefl in Hin.
  - unfold above in Ha. rewrite Forall_forall in Ha. by apply Ha, klt_irrefl in Hin.
Qed.

Lemma to_map_middle k v L1 L2 : NoDup (L1 ++ (k, v) :: L2).*1 →
  to_map (L1 ++ (k, v) :: L2) = <[k := v]> (to_map (L1 ++ L2)) ∧ to_map (L1 ++ L2) !! k = None.
Proof.
  intros H. assert (NoDup ((k, v) :: L1 ++ L2).*1) as H'.
  { rewrite fmap_cons fmap_app. rewrite fmap_app fmap_cons in H. by rewrite Permutation_middle. }
  split.
  - by rewrite (list_to_map_proper _ ((k, v) :: L1 ++ L2)); [|..|symmetry; apply Permutation_middle].
  - apply NoDup_cons in H' as [H' _]. by apply not_elem_of_list_to_map_1.
Qed.

Lemma to_map_absent k L1 L2 : below k L1 → above k L2 → to_map (L1 ++ L2) !! k = None.
Proof. intros Hb Ha. by apply not_elem_of_list_to_map_1, sorted_absent. Qed.

Lemma size_to_map L : NoDup L.*1 → size (to_map L) = length L.
Proof. apply map_size_list_to_map. Qed.

Lemma to_map_sub L1 L L2 : NoDup (L1 ++ L ++ L2).*1 → to_map (L1 ++ L2) ⊆ to_map (L1 ++ L ++ L2).
Proof.
  intros H. apply map_subseteq_spec. intros k v Hk. apply elem_of_list_to_map_2 in Hk.
  apply elem_of_list_to_map_1; [done|]. rewrite !elem_of_app in Hk |- *. tauto.
Qed.

Lemma length_rights (kvs : list (K * V)) Ls : length Ls = length kvs → length kvs ≤ length (rights kvs Ls).
Proof.
  revert Ls. induction kvs as [|kv kvs IH]; intros [|L Ls] [=]; cbn; [lia|]. rewrite length_app.
  specialize (IH Ls ltac:(done)). lia.
Qed.

Lemma tree_entries h le p par pi L :
  tree_at h le p par pi L ⊢ ⌜le ≤ length L⌝.
Proof.
  destruct h as [|h]; cbn.
  - iIntros "[% _]". iPureIntro. lia.
  - iIntros "(%kvs & %cs & %H & _)". iPureIntro. destruct H as (Hl & _ & Hcs & ->).
    destruct cs as [|c cs]; [done|]. injection Hcs as Hcs. cbn. rewrite length_app.
    assert (length kvs ≤ length (rights kvs cs.*2)) by (apply length_rights; by rewrite length_fmap). lia.
Qed.
End entries.

Section refine.
Context {K V A : Type} `{!EqDecision K, !Countable K, !Ord K, !GlobalAlloc NodeLayout A}.
#[local] Abbreviation N := (Node K V).
#[local] Abbreviation M := (M (store N A)).
Implicit Types (L : list (K * V)) (X : gmap K V) (F : hProp N) (s : store N A).

Definition is_map (m : BTreeMap) (n : nat) X F s : Prop :=
  ∃ L, X = list_to_map L ∧ holds (map_at m n L ∗ F)%I (cells s) ∧ al_inv (live (cells s)) (al s).

Lemma run_framed {B} (m : M B) P (Q : B → hProp N) F s :
  (P ⊢ hwp m Q) → holds (P ∗ F)%I (cells s) → al_inv (live (cells s)) (al s) →
  ∃ b s', m s = Ret (b, s') ∧ holds (Q b ∗ F)%I (cells s') ∧ al_inv (live (cells s')) (al s').
Proof.
  intros H HP Hi. apply (hwp_run m (P ∗ F)%I (λ b, Q b ∗ F)%I); [|done|done].
  iIntros "[HP HF]". iApply (hwp_wand with "[HP]"); [by iApply H|]. iIntros (b) "HQ". iFrame.
Qed.

(** An assertion about the heap with a pure part. *)
Lemma holds_pure (φ : Prop) P F (h : gmap Z N) : holds ((⌜φ⌝ ∧ P) ∗ F)%I h → φ ∧ holds (P ∗ F)%I h.
Proof. intros (h1 & h2 & -> & Hd & [Hφ HP] & HF). split; [done|]. by exists h1, h2. Qed.

Lemma map_at_counted m n L F (h : gmap Z N) : holds (map_at m n L ∗ F)%I h → length_ m = n ∧ sorted L ∧ length L ≤ n.
Proof. intros [[Hn [Hs Hl]] _]%holds_pure. done. Qed.

Lemma absent_from L key L1 L2 : L = L1 ++ L2 → below key L1 → above key L2 → (list_to_map L : gmap K V) !! key = None.
Proof. intros ->. apply to_map_absent. Qed.

(** [get] and [get_key_value] are the lookup of the map. *)
Lemma look_up_refines {B} m n X F s key (kf : K * V → B) none : is_map m n X F s →
  ∃ s', (r ← search_tree (root_ref (root m)) key;
         match r with Found h => kv ← into_kv h; mret (kf kv) | GoDown _ => mret none end : M _) s =
    Ret (match X !! key with Some v => kf (key, v) | None => none end, s') ∧ is_map m n X F s'.
Proof.
  intros (L & -> & Hm & Hi). pose proof (map_at_counted _ _ _ _ _ Hm) as (_ & Hs & _).
  set (X := list_to_map L : gmap K V).
  edestruct (run_framed (r ← search_tree (root_ref (root m)) key;
         match r with Found h => kv ← into_kv h; mret (kf kv) | GoDown _ => mret none end) (map_at m n L)
    (λ b, ⌜b = match X !! key with Some v => kf (key, v) | None => none end⌝ ∧ map_at m n L)%I F s)
    as (v & s' & Hrun & [-> Hh]%holds_pure & Hi'); [|done|done|].
  - iIntros "Hm". iApply (hwp_look_up with "Hm"). iSplit.
    + iIntros (v L1 L2 ->) "Hm". iSplit; [iPureIntro|done]. unfold X.
      destruct (to_map_middle key v L1 L2) as [-> _]; [by apply sorted_NoDup|]. by rewrite lookup_insert_eq.
    + iIntros (L1 L2 (HL & Hb & Ha)) "Hm". iSplit; [iPureIntro|done]. unfold X. by erewrite absent_from.
  - exists s'. split; [done|]. by exists L.
Qed.

Lemma get_refines m n X F s key : is_map m n X F s →
  ∃ s', get m key s = Ret (X !! key, s') ∧ is_map m n X F s'.
Proof.
  intros H. destruct (look_up_refines m n X F s key (λ kv, Some kv.2) None H) as (s' & Hrun & Hm).
  exists s'. split; [|done]. etrans; [exact Hrun|]. by destruct (X !! key).
Qed.

(** What an insertion leaves, as an assertion; first when an allocation has failed. *)
Definition not_inserted m n L key value m' : hProp N :=
  ∃ L1 L2, ⌜L = L1 ++ L2 ∧ below key L1 ∧ above key L2⌝ ∧
    ((∃ n', ⌜n' = (n + 1)%nat ∨ m' = m ∧ n' = n ∧ L = []⌝ ∧ map_at m' n' L) ∨
     (∃ W1 lost W2, ⌜L1 ++ (key, value) :: L2 = W1 ++ lost ++ W2 ∧ 5 ≤ length lost⌝ ∧
        map_at m' (n + 1) (W1 ++ W2) ∗ ∃ G, G)).
Definition inserted m n L key value : BTreeMap * result (option V) AllocErr → hProp N := λ '(m', res),
  match res with
  | Ok (Some v) => ∃ L1 L2, ⌜L = L1 ++ (key, v) :: L2⌝ ∧ map_at m' n (L1 ++ (key, value) :: L2)
  | Ok None => ∃ L1 L2, ⌜L = L1 ++ L2 ∧ below key L1 ∧ above key L2⌝ ∧ map_at m' (n + 1) (L1 ++ (key, value) :: L2)
  | Err _ => not_inserted m n L key value m'
  end%I.

Lemma lost_not_inserted m n key value m' L1 L2 W1 k v lost W2 : below key L1 → above key L2 →
  L1 ++ (key, value) :: L2 = W1 ++ (k, v) :: lost ++ W2 →
  map_at m' (n + 1) (W1 ++ W2) -∗ (∃ h e par pi, tree_at h 4 e par pi lost) -∗ not_inserted m n (L1 ++ L2) key value m'.
Proof.
  iIntros (Hb Ha HW) "Hm (%h & %e & %par & %pi & Ht)".
  iDestruct (tree_entries with "Ht") as %Hlost. iExists L1, L2. iSplit; [done|]. iRight.
  iExists W1, ((k, v) :: lost), W2. iSplit; [iPureIntro; split; [done|cbn; lia]|]. iFrame "Hm". iExists _. iExact "Ht".
Qed.

Lemma insert_inserted m n L key value : map_at m n L ⊢ hwp (BTree.insert m key value : M _) (inserted m n L key value).
Proof.
  iIntros "Hm". iApply (hwp_insert with "Hm"). iSplit; [|iSplit; [|iSplit]]; cbn [inserted].
  - iIntros (m' v L1 L2 ->) "Hm". iExists L1, L2. by iSplit.
  - iIntros (m' L1 L2 H) "Hm". iExists L1, L2. by iSplit.
  - iIntros (m' n' L1 L2 (HL & Hb & Ha & Hn')) "Hm". iExists L1, L2. iSplit; [done|]. iLeft. iExists n'. by iSplit.
  - iIntros (m' L1 L2 W1 k v lost W2 (-> & Hb & Ha & HW)) "Hm Ht". by iApply (lost_not_inserted with "Hm Ht").
Qed.

(** The same for a place that an entry of the map has found. *)
Lemma vacant_inserted m m' n hd key value L1 L2 : length_ m' = n → counted n (L1 ++ L2) → below key L1 → above key L2 →
  godown_at (root m') hd L1 L2 ⊢ hwp (vacant_insert m' hd key value : M _) (λ '(m'', res),
    match res with
    | Ok ptr => ∃ r', ⌜m'' = BTreeMap_ r' (n + 1)⌝ ∧ root_at r' (L1 ++ (key, value) :: L2) ∧ leaf_has ptr key value
    | Err _ => not_inserted m n (L1 ++ L2) key value m''
    end).
Proof.
  iIntros (<- Hs Hb Ha) "Hg". iApply (hwp_vacant_insert with "Hg"). iSplit; [|iSplit].
  - iIntros (r' ptr) "H". iExists r'. by iSplit.
  - iIntros "Hr". iExists L1, L2. iSplit; [done|]. iLeft. iExists _. iSplit; [by iPureIntro; left|].
    iApply map_at_root; [done|destruct Hs; split; [done|lia]|done].
  - iIntros "(%W1 & %k & %v & %lost & %W2 & %HW & Hr & Hlost)". iApply (lost_not_inserted with "[Hr] Hlost"); [done..|].
    pose proof (counted_insert _ _ value _ _ Hs Hb Ha) as Hs'. rewrite HW in Hs'.
    iApply map_at_root; [done| |done]. eapply (counted_remove _ _ W1 ((k, v) :: lost)); [exact Hs'|lia].
Qed.

(** What an insertion leaves whose allocation has failed: the key was not there, and
    either nothing has changed (no memory for the first node), or only the count is one
    too large (no memory for a leaf's upper half), or a climb was cut short: the map is
    well-formed with the entries that are left, at least four that were there are lost,
    with the nodes [G] that held them, and the count is again one too large. *)
Definition insert_failed m n X F key value m' s' : Prop :=
  X !! key = None ∧
  ((X = ∅ ∧ m' = m ∧ is_map m n X F s') ∨ is_map m' (n + 1) X F s' ∨
   ∃ X' G, is_map m' (n + 1) X' (G ∗ F)%I s' ∧ X' ⊆ <[key := value]> X ∧ size X' + 4 ≤ size X).

Lemma not_inserted_failed m n L F key value m' s' : counted n L →
  holds (not_inserted m n L key value m' ∗ F)%I (cells s') → al_inv (live (cells s')) (al s') →
  insert_failed m n (list_to_map L) F key value m' s'.
Proof.
  intros Hs (h1 & h2 & Hc & Hd & (L1 & L2 & (HL & Hb & Ha) & Hm') & HF) Hi'.
  split; [by eapply absent_from|]. destruct Hm' as [(n' & Hn' & Hm')|(W1 & lost & W2 & (HW & Hlost) & h11 & h12 & -> & Hd' & Hm' & G & HG)].
  - assert (holds (map_at m' n' L ∗ F)%I (cells s')) as Hh by (by rewrite Hc; exists h1, h2).
    destruct Hn' as [->|(-> & -> & ->)]; [right; left|left; split_and!; [done..|]]; eexists; done.
  - right. right. change (5 ≤ length lost) in Hlost. assert (sorted (L1 ++ (key, value) :: L2)) as Hs'.
    { subst L. by apply (counted_insert n key value). }
    pose proof (sorted_NoDup _ Hs') as Hnd. destruct (to_map_middle key value L1 L2 Hnd) as [Heq _].
    exists (list_to_map (W1 ++ W2)), G. split_and!.
    + exists (W1 ++ W2). split_and!; [done| |done]. rewrite Hc. apply map_disjoint_union_l in Hd as [Hd1 Hd2].
      exists h11, (h12 ∪ h2). rewrite assoc_L. split_and!; [done|by apply map_disjoint_union_r|done|by exists h12, h2].
    + rewrite HL -Heq HW. apply to_map_sub. by rewrite -HW.
    + rewrite HW in Hs' Hnd. rewrite !size_to_map; [|by apply sorted_NoDup; destruct Hs|].
      * apply (f_equal length) in HW. rewrite HL. rewrite !length_app in HW |- *. cbn in HW. lia.
      * apply sorted_NoDup. eapply (counted_remove _ (length (W1 ++ lost ++ W2)) W1 lost W2); [split; [exact Hs'|done]|lia].
Qed.

(** An insertion into the tree is one into the map, and yields the old value; or an
    allocation has failed. *)
Lemma insert_refines m n X F s key value : is_map m n X F s →
  ∃ m' res s', BTree.insert m key value s = Ret ((m', res), s') ∧
    match res with
    | Ok old => old = X !! key ∧ is_map m' (if old then n else n + 1) (<[key := value]> X) F s'
    | Err _ => insert_failed m n X F key value m' s'
    end.
Proof.
  intros (L & -> & Hm & Hi). pose proof (map_at_counted _ _ _ _ _ Hm) as (_ & Hs & Hlen).
  destruct (run_framed _ _ _ F s (insert_inserted m n L key value) Hm Hi) as ([m' res] & s' & Hrun & Hh & Hi').
  exists m', res, s'. split; [done|]. cbn [inserted] in Hh. destruct res as [[v|]|[]].
  - destruct Hh as (h1 & h2 & Hc & Hd & (L1 & L2 & -> & Hm') & HF).
    destruct (to_map_middle key v L1 L2) as [-> _]; [by apply sorted_NoDup|].
    rewrite lookup_insert_eq insert_insert_eq. split; [done|]. exists (L1 ++ (key, value) :: L2).
    assert (holds (map_at m' n (L1 ++ (key, value) :: L2) ∗ F)%I (cells s')) as Hh by (by rewrite Hc; exists h1, h2).
    split; [|done]. apply map_at_counted in Hh as (_ & Hs' & _). symmetry. by apply to_map_middle, sorted_NoDup.
  - destruct Hh as (h1 & h2 & Hc & Hd & (L1 & L2 & (-> & Hb & Ha) & Hm') & HF).
    split; [symmetry; by apply to_map_absent|]. exists (L1 ++ (key, value) :: L2).
    assert (holds (map_at m' (n + 1) (L1 ++ (key, value) :: L2) ∗ F)%I (cells s')) as Hh by (by rewrite Hc; exists h1, h2).
    split; [|done]. apply map_at_counted in Hh as (_ & Hs' & _). symmetry. by apply to_map_middle, sorted_NoDup.
  - by apply not_inserted_failed.
Qed.

(** Removing: the value that was there, the map without the key. *)
Lemma remove_refines m n X F s key : is_map m n X F s →
  ∃ m' s', BTree.remove m key s = Ret ((m', X !! key), s') ∧
    is_map m' (if X !! key then n - 1 else n) (delete key X) F s'.
Proof.
  intros (L & -> & Hm & Hi). pose proof (map_at_counted _ _ _ _ _ Hm) as (_ & Hs & _).
  set (X := list_to_map L : gmap K V).
  destruct (run_framed (BTree.remove m key) (map_at m n L)
    (λ '(m', v), ⌜v = X !! key⌝ ∧ ∃ L', ⌜delete key X = list_to_map L'⌝ ∧ map_at m' (if X !! key then n - 1 else n) L')%I F s)
    as ([m' v] & s' & Hrun & [-> Hh]%holds_pure & Hi'); [|done|done|].
  - iIntros "Hm". iApply (hwp_remove with "Hm"). iSplit.
    + iIntros (m' v L1 L2 ->) "Hm". destruct (to_map_middle key v L1 L2) as [HX HN]; [by apply sorted_NoDup|].
      unfold X. rewrite HX lookup_insert_eq. iSplit; [done|]. iExists (L1 ++ L2). iSplit; [|done].
      iPureIntro. by rewrite delete_insert_id.
    + iIntros (L1 L2 (HL & Hb & Ha)) "Hm". assert (X !! key = None) as HX by by eapply absent_from.
      rewrite HX. iSplit; [done|]. iExists L. iSplit; [|done]. iPureIntro. by apply delete_id.
  - exists m', s'. split; [done|]. destruct Hh as (h1 & h2 & Hc & Hd & (L' & HL' & Hm') & HF).
    exists L'. split_and!; [exact HL'| |done]. rewrite Hc. by exists h1, h2.
Qed.

(** A new map is empty. *)
Lemma new_is_map F s : holds F (cells s) → al_inv (live (cells s)) (al s) → is_map BTreeMap_new 0 ∅ F s.
Proof.
  intros HF Hi. exists []. split_and!; [done| |done]. exists ∅, (cells s).
  split_and!; [by rewrite left_id_L|apply map_disjoint_empty_l| |done].
  split; [split; [done|split; [constructor|done]]|]. by left.
Qed.

Lemma is_map_len m n X F s : is_map m n X F s → map_len m = n ∧ size X ≤ n.
Proof.
  intros (L & -> & Hm & _). apply map_at_counted in Hm as (Hn & Hs & Hl).
  split; [done|]. by rewrite size_to_map; [|apply sorted_NoDup].
Qed.

(** As long as the count is right, iterating yields exactly the entries, in order. *)
Theorem entries_sorted m X F s : is_map m (size X) X F s →
  ∃ L s', map_entries m s = Ret (L, s') ∧ sorted L ∧ X = list_to_map L ∧ is_map m (size X) X F s'.
Proof.
  intros (L & HX & Hm & Hi). pose proof (map_at_counted _ _ _ _ _ Hm) as (_ & Hs & _).
  assert (size X = length L) as Hn by (by rewrite HX size_to_map; [|apply sorted_NoDup]).
  destruct (run_framed (map_entries m) (map_at m (size X) L) (λ l, ⌜l = L⌝ ∧ map_at m (size X) L)%I F s)
    as (l & s' & Hrun & [-> Hh]%holds_pure & Hi'); [|done|done|].
  - rewrite Hn. iIntros "Hm". iApply (hwp_map_entries with "Hm"). iIntros "Hm". by iSplit.
  - exists L, s'. split_and!; [done..|]. by exists L.
Qed.

(** Dropping the map then drops every entry once and gives every node back. *)
Lemma drop_frees m X F s : is_map m (size X) X F s →
  ∃ L s', BTreeMap_drop m s = Ret (L, s') ∧ sorted L ∧ X = list_to_map L ∧
    holds F (cells s') ∧ al_inv (live (cells s')) (al s').
Proof.
  intros (L & HX & Hm & Hi). pose proof (map_at_counted _ _ _ _ _ Hm) as (_ & Hs & _).
  assert (size X = length L) as Hn by (by rewrite HX size_to_map; [|apply sorted_NoDup]).
  destruct (run_framed (BTreeMap_drop m) (map_at m (size X) L) (λ l, ⌜l = L⌝ ∧ emp)%I F s)
    as (l & s' & Hrun & [-> Hh]%holds_pure & Hi'); [|done|done|].
  - rewrite Hn. iIntros "Hm". iApply (hwp_drop with "Hm"). by iSplit.
  - exists L, s'. split_and!; [done..| |done].
    destruct Hh as (h1 & h2 & -> & Hd & Hemp & HF). change (h1 = ∅) in Hemp. subst h1. by rewrite left_id_L.
Qed.

(** ** Sequences of operations *)

Inductive op := Insert (k : K) (v : V) | Get (k : K) | Remove (k : K).

(** What an operation answers: whether an insertion succeeded, and a value. *)
Definition run_op (m : BTreeMap) (o : op) : M (BTreeMap * result (option V) AllocErr) :=
  match o with
  | Insert k v => BTree.insert m k v
  | Get k => v ← get m k; mret (m, Ok v)
  | Remove k => '(m, v) ← BTree.remove m k; mret (m, Ok v)
  end.
Fixpoint run_ops (m : BTreeMap) (os : list op) : M (BTreeMap * list (result (option V) AllocErr)) :=
  match os with
  | [] => mret (m, [])
  | o :: os => '(m, r) ← run_op m o; '(m, rs) ← run_ops m os; mret (m, r :: rs)
  end.

(** The same on finite maps. *)
Definition spec_op X (o : op) : gmap K V * option V :=
  match o with
  | Insert k v => (<[k := v]> X, X !! k)
  | Get k => (X, X !! k)
  | Remove k => (delete k X, X !! k)
  end.
Fixpoint spec_ops X (os : list op) : gmap K V * list (option V) :=
  match os with
  | [] => (X, [])
  | o :: os => let (X, r) := spec_op X o in let (X, rs) := spec_ops X os in (X, r :: rs)
  end.

Lemma run_op_refines m n X F s o : is_map m n X F s →
  ∃ m' r s', run_op m o s = Ret ((m', r), s') ∧
    (∃ n' X' F', is_map m' n' X' F' s') ∧
    (n = size X → is_ok r = true → r = Ok (spec_op X o).2 ∧ is_map m' (size (spec_op X o).1) (spec_op X o).1 F s').
Proof.
  intros Hm. destruct o as [k v|k|k]; cbn [run_op spec_op fst snd].
  - destruct (insert_refines m n X F s k v Hm) as (m' & r & s' & Hrun & H). exists m', r, s'. split; [done|].
    destruct r as [old|e].
    + destruct H as [-> Hm']. split; [by eauto|]. intros -> _. split; [done|].
      destruct (X !! k) eqn:E.
      * by rewrite map_size_insert_Some.
      * by rewrite map_size_insert_None // -Nat.add_1_r.
    + split; [|done]. destruct H as [_ [(_ & -> & H)|[H|(X' & G & H & _)]]]; do 3 eexists; exact H.
  - destruct (get_refines m n X F s k Hm) as (s' & Hrun & Hm'). exists m, (Ok (X !! k)), s'.
    split; [by cbv [mbind M_bind]; rewrite Hrun|]. split; [by eauto|]. by intros -> _.
  - destruct (remove_refines m n X F s k Hm) as (m' & s' & Hrun & Hm'). exists m', (Ok (X !! k)), s'.
    split; [by cbv [mbind M_bind]; rewrite Hrun|]. split; [by eauto|]. intros -> _. split; [done|].
    destruct (X !! k) eqn:E.
    + by rewrite fin_maps.map_size_delete_Some // -Nat.sub_1_r.
    + by rewrite fin_maps.map_size_delete_None.
Qed.

Lemma run_ops_refines os : ∀ m n X F s, is_map m n X F s →
  ∃ m' rs s', run_ops m os s = Ret ((m', rs), s') ∧
    (n = size X → Forall (λ r, is_ok r = true) rs →
       rs = Ok <$> (spec_ops X os).2 ∧ is_map m' (size (spec_ops X os).1) (spec_ops X os).1 F s').
Proof.
  induction os as [|o os IH]; intros m n X F s Hm; cbn [run_ops spec_ops].
  - exists m, [], s. split; [done|]. by intros ->.
  - destruct (run_op_refines m n X F s o Hm) as (m1 & r & s2 & Hr & (n' & X' & F' & Hm1) & Hok).
    destruct (decide (n = size X ∧ is_ok r = true)) as [[Hn Hr1]|Hbad].
    + destruct (Hok Hn Hr1) as [-> Hm1']. destruct (IH _ _ _ _ _ Hm1') as (m2 & rs & s3 & Hrs & Hspec).
      exists m2, (Ok (spec_op X o).2 :: rs), s3. split; [by cbv [mbind M_bind]; rewrite Hr Hrs|].
      destruct (spec_op X o) as [X1 r1]. cbn [fst snd] in *. destruct (spec_ops X1 os) as [X2 rs2]. cbn [fst snd] in *.
      intros _ [_ Hall]%Forall_cons. destruct (Hspec eq_refl Hall) as [-> ?]. by split.
    + destruct (IH _ _ _ _ _ Hm1) as (m2 & rs & s3 & Hrs & _).
      exists m2, (r :: rs), s3. split; [by cbv [mbind M_bind]; rewrite Hr Hrs|].
      intros Hn [? _]%Forall_cons. by destruct Hbad.
Qed.

(** C4: whatever the allocator answers, no sequence of operations panics or touches memory
    it should not.  When no insertion has failed, the answers are those of a finite
    map, the count is right, and dropping the map leaves the heap as it was. *)
Theorem operations_refine (os : list op) s : al_inv (live (cells s)) (al s) →
  ∃ m rs s', run_ops BTreeMap_new os s = Ret ((m, rs), s') ∧
    (Forall (λ r, is_ok r = true) rs →
       rs = Ok <$> (spec_ops ∅ os).2 ∧ map_len m = size (spec_ops ∅ os).1 ∧
       ∃ L s'', BTreeMap_drop m s' = Ret (L, s'') ∧ list_to_map L = (spec_ops ∅ os).1 ∧ cells s'' = cells s).
Proof.
  intros Hi. set (F := HProp (λ h, h = cells s) : hProp N).
  destruct (run_ops_refines os BTreeMap_new 0 ∅ F s (new_is_map F s eq_refl Hi)) as (m & rs & s' & Hrs & Hspec).
  exists m, rs, s'. split; [done|]. intros Hall. destruct (Hspec eq_refl Hall) as [Hrs' Hm].
  split; [done|]. split; [by apply is_map_len in Hm as [? _]|].
  destruct (drop_frees _ _ _ _ Hm) as (L & s'' & Hdrop & _ & HX & HF & _). by exists L, s''.
Qed.

Lemma run_is_map os s m rs s' : al_inv (live (cells s)) (al s) →
  run_ops BTreeMap_new os s = Ret ((m, rs), s') → forallb is_ok rs = true →
  is_map m (size (spec_ops ∅ os).1) (spec_ops ∅ os).1 (HProp (λ h, h = cells s)) s'.
Proof.
  intros Hi Hrun Hok. set (F := HProp (λ h, h = cells s) : hProp N).
  destruct (run_ops_refines os BTreeMap_new 0 ∅ F s (new_is_map F s eq_refl Hi)) as (m1 & rs1 & s1 & Hrs & Hspec).
  rewrite Hrun in Hrs. injection Hrs as <- <- <-. apply Hspec; [done|].
  apply Forall_forall. intros r Hr. rewrite forallb_forall in Hok. by apply Hok, list_elem_of_In.
Qed.

End refine.

(** ** Witnesses *)

Definition bump_store (answers : list bool) : store (Node Z Z) bump := Store ∅ (Bump 16 answers).

Lemma bump_store_inv bs : al_inv (live (L := NodeLayout) (cells (bump_store bs))) (al (bump_store bs)).
Proof. split; [done|]. intros p l H. cbn in H. by rewrite /live fmap_empty in H. Qed.

Definition fill (n : nat) : list (op (K := Z) (V := Z)) := (λ i, Insert (Z.of_nat i) (Z.of_nat i)) <$> seq 0 n.

(** The insertion of 11 into a map with the keys from 0 to 10, which are one full leaf. *)
Definition fill_then_insert (answers : list bool) :=
  ('(m, _) ← run_ops BTreeMap_new (fill 11); BTree.insert m 11%Z 11%Z) (bump_store answers).

Lemma operations_refine_witness : ∃ m rs s',
  run_ops BTreeMap_new (fill 40 ++ [Remove 7; Get 7; Get 8; Insert 8 80; Remove 20]%Z) (bump_store []) = Ret ((m, rs), s') ∧
  map_len m = 38 ∧ ∃ L s'', BTreeMap_drop m s' = Ret (L, s'') ∧ cells s'' = ∅.
Proof.
  destruct (operations_refine (fill 40 ++ [Remove 7; Get 7; Get 8; Insert 8 80; Remove 20]%Z) (bump_store []) (bump_store_inv []))
    as (m & rs & s' & Hrun & Hspec).
  exists m, rs, s'. split; [exact Hrun|]. destruct Hspec as (_ & -> & L & s'' & Hdrop & _ & Hc).
  - vm_compute in Hrun. injection Hrun as <- <- <-. repeat constructor.
  - split; [by vm_compute|]. exists L, s''. split; [exact Hdrop|exact Hc].
Defined.

Lemma entries_sorted_witness :
  match run_ops BTreeMap_new (fill 40 ++ [Remove 7]%Z) (bump_store []) with
  | Ret ((m, _), s) => ∃ L s', map_entries m s = Ret (L, s') ∧ sorted L
  | _ => False
  end.
Proof.
  destruct (run_ops BTreeMap_new (fill 40 ++ [Remove 7]%Z) (bump_store [])) as [[[m rs] s]|?|?] eqn:E; [|by vm_compute in E..].
  assert (forallb is_ok rs = true) as Hok by (vm_compute in E; by injection E as <- <- <-).
  destruct (entries_sorted m _ _ s (run_is_map _ (bump_store []) m rs s (bump_store_inv _) E Hok)) as (L & s' & Hrun & Hs & _).
  exists L, s'. split; [exact Hrun|exact Hs].
Defined.

(** Concretely: a failure to split the leaf leaves a count of 12 for 11 entries, so that
    dropping the map runs off its end; a failure to add a root loses the keys from 6 on. *)
Theorem failed_insertion_damages :
  (∃ m s, fill_then_insert [true; false] = Ret ((m, Err AllocErr_), s) ∧ map_len m = 12 ∧
     get m 10%Z s = Ret (Some 10%Z, s) ∧
     BTreeMap_drop m s = Panic "'unchecked' unwrap on None in BTreeMap") ∧
  (∃ m s, fill_then_insert [true; true; false] = Ret ((m, Err AllocErr_), s) ∧ map_len m = 12 ∧
     get m 5%Z s = Ret (Some 5%Z, s) ∧ get m 6%Z s = Ret (None, s) ∧ get m 10%Z s = Ret (None, s) ∧
     BTreeMap_drop m s = Panic "'unchecked' unwrap on None in BTreeMap").
Proof. split; eexists _, _; (split; [by vm_compute|]); split_and!; by vm_compute. Qed.
