(* ===== verification/BTreeRange.v ===== *)
(** * BTreeRange: ranges of keys, and iterating from the back ([map.rs])

    A range is a pair of edges of leaves, found by two searches that go down
    together; it is empty when they are the same edge.  Here are its definitions, what
    makes the comparison of edges right (every gap between two entries is one edge),
    and a step from the back.  Nothing of this writes to the heap. *)

From S2P Require Import Prelude HeapLogic Node BTree Readonly NodeSpec BTreeSpec Rebalance BTreeRemove BTreeIter.
From iris.proofmode Require Import proofmode.
From iris.prelude Require Import options.

#[local] Open Scope nat_scope.

(** [core::ops::Bound] *)
Inductive Bound (K : Type) := Included (k : K) | Excluded (k : K) | Unbounded.
Arguments Included {K} _.
Arguments Excluded {K} _.
Arguments Unbounded {K}.

(** [PartialEq] of handles *)
Definition handle_eq (a b : Handle) : bool :=
  bool_decide (node (hnode a) = node (hnode b)) && (idx a =? idx b).

Section range.
Context {K V A : Type} `{!Ord K, !GlobalAlloc NodeLayout A}.
#[local] Abbreviation M := (M (store (Node K V) A)).

(** ** Searching both ends *)

(** The first [match] of [range_search]: the bounds that are refused. *)
Definition check_bounds (lo hi : Bound K) : M unit :=
  let greater s e := match cmp s e with
                     | Gt => panic "range start is greater than range end in BTreeMap"
                     | _ => mret tt
                     end in
  match lo, hi with
  | Excluded s, Excluded e =>
      match cmp s e with
      | Eq => panic "range start and end are equal and excluded in BTreeMap"
      | _ => greater s e
      end
  | Included s, Included e | Included s, Excluded e | Excluded s, Included e => greater s e
  | _, _ => mret tt
  end.

(** [min_edge] and [max_edge], each with its flag. *)
Definition min_edge (n : NodeRef) (found : bool) (lo : Bound K) : M (nat * bool) :=
  match found, lo with
  | false, Included key => search_linear n key
  | false, Excluded key => '(i, eq) ← search_linear n key; mret (if eq : bool then (i + 1, true) else (i, false))
  | _, Unbounded => mret (0, found)
  | true, Included _ => ks ← node_keys n; mret (length ks, true)
  | true, Excluded _ => mret (0, true)
  end.
Definition max_edge (n : NodeRef) (found : bool) (hi : Bound K) : M (nat * bool) :=
  match found, hi with
  | false, Included key => '(i, eq) ← search_linear n key; mret (if eq : bool then (i + 1, true) else (i, false))
  | false, Excluded key => search_linear n key
  | _, Unbounded => ks ← node_keys n; mret (length ks, found)
  | true, Included _ => mret (0, true)
  | true, Excluded _ => ks ← node_keys n; mret (length ks, true)
  end.

Fixpoint range_loop (fuel : nat) (lo hi : Bound K) (min_node max_node : NodeRef)
    (min_found max_found diverged : bool) : M (Handle * Handle) :=
  '(min, min_found) ← min_edge min_node min_found lo;
  '(max, max_found) ← max_edge max_node max_found hi;
  diverged ← (if diverged then mret true
              else if max <? min then panic "Ord is ill-defined in BTreeMap range"
              else mret (negb (min =? max)));
  front ← new_edge min_node min;
  back ← new_edge max_node max;
  match force_handle front, force_handle back with
  | Leaf f, Leaf b => mret (f, b)
  | Internal min_int, Internal max_int =>
      match fuel with
      | O => ub "still descending"
      | S fuel =>
          min_node ← descend min_int; max_node ← descend max_int;
          range_loop fuel lo hi min_node max_node min_found max_found diverged
      end
  | _, _ => panic "internal error: entered unreachable code: BTreeMap has different depths"
  end.

Definition range_search (root1 root2 : NodeRef) (lo hi : Bound K) : M (Handle * Handle) :=
  _ ← check_bounds lo hi;
  range_loop (height root1) lo hi root1 root2 false false false.

(** [BTreeMap::range] *)
Definition map_range (m : BTreeMap) (lo hi : Bound K) : M Range :=
  '(f, b) ← range_search (root_ref (root m)) (root_ref (root m)) lo hi;
  mret (Range_ f b).

(** ** Stepping from either end *)

(** [Range::next] *)
Definition range_next (fuel : nat) (r : Range) : M (Range * option (K * V)) :=
  if handle_eq (front r) (back r) then mret (r, None)
  else '(r, kv) ← next_unchecked fuel r; mret (r, Some kv).

(** The loop of [Range::next_back_unchecked]. *)
Fixpoint next_back_loop (fuel : nat) (cur_handle : Handle) : M (Handle * (K * V)) :=
  kv ← left_kv cur_handle;
  match kv with
  | Ok kv =>
      ret ← into_kv kv;
      e ← left_edge kv; c ← descend e;
      back ← last_leaf_edge c;
      mret (back, ret)
  | Err last_edge =>
      next_level ← ascend (hnode last_edge);
      cur_handle ← unwrap_unchecked (ok_ next_level);
      match fuel with O => ub "still climbing" | S fuel => next_back_loop fuel cur_handle end
  end.

Definition next_back_unchecked (fuel : nat) (r : Range) : M (Range * (K * V)) :=
  kv ← left_kv (back r);
  match kv with
  | Ok kv =>
      ret ← into_kv kv;
      e ← left_edge kv;
      mret (Range_ (front r) e, ret)
  | Err last_edge =>
      next_level ← ascend (hnode last_edge);
      cur_handle ← unwrap_unchecked (ok_ next_level);
      '(back, ret) ← next_back_loop fuel cur_handle;
      mret (Range_ (front r) back, ret)
  end.

(** [Range::next_back] *)
Definition range_next_back (fuel : nat) (r : Range) : M (Range * option (K * V)) :=
  if handle_eq (front r) (back r) then mret (r, None)
  else '(r, kv) ← next_back_unchecked fuel r; mret (r, Some kv).

(** [Iter::next_back] *)
Definition iter_next_back (fuel : nat) (it : Iter) : M (Iter * option (K * V)) :=
  if iter_length it =? 0 then mret (it, None)
  else
    let n := iter_length it - 1 in
    '(r, kv) ← next_back_unchecked fuel (BTreeIter.range it);
    mret (Iter_ r n, Some kv).

(** [last], [size_hint] and [len] of the iterators that count. *)
Definition iter_last (fuel : nat) (it : Iter) : M (option (K * V)) := '(_, kv) ← iter_next_back fuel it; mret kv.
Definition size_hint (it : Iter) : nat * option nat := (iter_length it, Some (iter_length it)).
Definition iter_len (it : Iter) : nat := iter_length it.

(** [Keys] and [Values]: the iterator, and one half of what it yields. *)
Definition map_keys (m : BTreeMap) : M Iter := BTreeIter.iter m.
Definition keys_next (fuel : nat) (it : Iter) : M (Iter * option K) :=
  '(it, kv) ← iter_next fuel it; mret (it, fst <$> kv).
Definition keys_next_back (fuel : nat) (it : Iter) : M (Iter * option K) :=
  '(it, kv) ← iter_next_back fuel it; mret (it, fst <$> kv).
Definition map_values (m : BTreeMap) : M Iter := BTreeIter.iter m.
Definition values_next (fuel : nat) (it : Iter) : M (Iter * option V) :=
  '(it, kv) ← iter_next fuel it; mret (it, snd <$> kv).
Definition values_next_back (fuel : nat) (it : Iter) : M (Iter * option V) :=
  '(it, kv) ← iter_next_back fuel it; mret (it, snd <$> kv).
End range.

(** ** The edges of the leaves *)

Section gaps.
Context {K V A : Type} `{!GlobalAlloc NodeLayout A}.
#[local] Abbreviation N := (Node K V).
#[local] Notation "p ↦ n" := (points_to p n) (at level 20) : bi_scope.
Implicit Types (L : list (K * V)) (kvs : list (K * V)) (cs : list (Z * list (K * V))) (c hh : gmap Z N).

(** The edges of all leaves of a tree, in order. *)
Fixpoint gaps c (h : nat) (p : Z) : list Handle :=
  match c !! p with
  | None => []
  | Some n =>
      match h with
      | O => Handle_ (NodeRef_ 0 p) <$> seq 0 (S (length (keys n)))
      | S h => default [] (edges n) ≫= gaps c h
      end
  end.

Lemma holds_entails (P Q : hProp N) hh : (P ⊢ Q) → holds P hh → holds Q hh.
Proof. intros [H]. apply H. Qed.

Lemma holds_sep (P Q : hProp N) hh : holds (P ∗ Q)%I hh → ∃ h1 h2, h1 ⊆ hh ∧ h2 ⊆ hh ∧ h1 ##ₘ h2 ∧ holds P h1 ∧ holds Q h2.
Proof.
  intros (h1 & h2 & -> & Hd & HP & HQ). exists h1, h2.
  split_and!; [apply map_union_subseteq_l|by apply map_union_subseteq_r|done..].
Qed.

Lemma points_to_lookup p n hh c : holds (p ↦ n)%I hh → hh ⊆ c → c !! p = Some n ∧ hh !! p = Some n.
Proof.
  intros Hp Hc. change (hh = {[p := n]}) in Hp. subst hh.
  split; [|apply lookup_singleton_eq]. apply (lookup_weaken {[p := n]}); [apply lookup_singleton_eq|done].
Qed.

(** As many as there are gaps between the entries, all different, all in leaves in the
    part of the heap that is the tree's. *)
Definition edge_in hh (hd : Handle) : Prop :=
  ∃ n, hh !! node (hnode hd) = Some n ∧ edges n = None ∧ height (hnode hd) = 0 ∧ idx hd ≤ length (keys n).
Definition gaps_of (l : list Handle) (n : nat) hh : Prop :=
  length l = n ∧ NoDup l ∧ ∀ hd, hd ∈ l → edge_in hh hd.

Lemma edge_in_weaken hd hh c : edge_in hh hd → hh ⊆ c → edge_in c hd.
Proof. intros (n & Hn & H) Hc. exists n. split; [by eapply lookup_weaken|done]. Qed.

Lemma gaps_of_weaken l n hh c : gaps_of l n hh → hh ⊆ c → gaps_of l n c.
Proof. intros (Hl & Hn & Hin) Hc. split_and!; [done..|]. intros hd H%Hin. by eapply edge_in_weaken. Qed.

Lemma gaps_of_app l1 l2 n1 n2 h1 h2 c : gaps_of l1 n1 h1 → gaps_of l2 n2 h2 → h1 ##ₘ h2 → h1 ⊆ c → h2 ⊆ c →
  gaps_of (l1 ++ l2) (n1 + n2) c.
Proof.
  intros (H1 & Hn1 & Hin1) (H2 & Hn2 & Hin2) Hd Hc1 Hc2. split_and!.
  - rewrite length_app. lia.
  - apply NoDup_app. split_and!; [done| |done]. intros hd (x & Hx & _)%Hin1 (y & Hy & _)%Hin2. by eapply map_disjoint_spec.
  - intros hd [H%Hin1|H%Hin2]%elem_of_app; by eapply edge_in_weaken.
Qed.

(** The number of gaps in a list of subtrees. *)
Definition total (Ls : list (list (K * V))) : nat := sum_list ((λ L, S (length L)) <$> Ls).

Lemma total_app Ls1 Ls2 : total (Ls1 ++ Ls2) = total Ls1 + total Ls2.
Proof. unfold total. by rewrite fmap_app sum_list_with_app. Qed.

Lemma length_lefts Ls kvs : length Ls = length kvs → length (lefts Ls kvs) = total Ls.
Proof.
  revert kvs. induction Ls as [|L Ls IH]; intros [|kv kvs] [=]; [done|].
  cbn. by rewrite length_app /= IH // Nat.add_succ_r.
Qed.

Lemma length_inter Ls kvs : length Ls = S (length kvs) → S (length (inter Ls kvs)) = total Ls.
Proof.
  intros (Ls' & L & -> & H)%snoc_inv. rewrite -(app_nil_r kvs) inter_focus // !length_app length_lefts //.
  rewrite total_app /total /=. lia.
Qed.

Definition tree_gaps h : Prop := ∀ le p par pi L hh c,
  holds (tree_at h le p par pi L) hh → hh ⊆ c → gaps_of (gaps c h p) (S (length L)) hh.

Lemma children_gaps h : tree_gaps h → ∀ cs q i hh c,
  holds (children h q i cs) hh → hh ⊆ c → gaps_of (cs.*1 ≫= gaps c h) (total cs.*2) hh.
Proof.
  intros Hg. induction cs as [|[p L] cs IH]; intros q i hh c Hcs Hc.
  - split_and!; [done|constructor|]. by intros hd ?%elem_of_nil.
  - apply (holds_entails _ _ _ (bi.equiv_entails_1_1 _ _ (children_cons _ _ _ _ _))) in Hcs.
    apply holds_sep in Hcs as (h1 & h2 & H1 & H2 & Hd & Ht & Hcs).
    change (total (_ :: _).*2) with (S (length L) + total cs.*2). cbn [fmap list_fmap mbind list_bind fst].
    apply (gaps_of_app _ _ _ _ h1 h2); [|..|done|done|done].
    + eapply Hg; [exact Ht|by etrans].
    + eapply IH; [exact Hcs|by etrans].
Qed.

Lemma tree_has_gaps h : tree_gaps h.
Proof.
  induction h as [|h IH]; intros le p par pi L hh c Ht Hc; cbn [tree_at gaps] in *.
  - destruct Ht as [_ Hn]. destruct (points_to_lookup _ _ _ _ Hn Hc) as [-> Hp].
    split_and!.
    + by rewrite length_fmap length_seq /= length_fmap.
    + apply NoDup_fmap_2; [by intros i j [=]|apply NoDup_seq].
    + intros hd (i & -> & [_ Hi]%elem_of_seq)%list_elem_of_fmap. eexists. split_and!; [done..|]. cbn in *. lia.
  - apply (holds_entails _ _ _ (tree_inner_inv _ _ _ _ _ _)) in Ht.
    destruct Ht as (kvs & cs & (_ & _ & Hcs & ->) & Ht). apply holds_sep in Ht as (h1 & h2 & H1 & H2 & _ & Hn & Ht).
    destruct (points_to_lookup _ _ _ c Hn ltac:(by etrans)) as [-> _]. cbn [edges inner_node default].
    rewrite length_inter ?length_fmap //. eapply gaps_of_weaken; [|exact H2].
    eapply (children_gaps h IH); [exact Ht|by etrans].
Qed.

(** Those of a subtree are a part of those of the whole tree. *)
Lemma ctx_gaps n : ∀ h p par pi r L1 L2 hh c, holds (ctx_at n h p par pi r L1 L2) hh → hh ⊆ c →
  ∃ G1 G2, gaps c (root_height r) (root_node r) = G1 ++ gaps c h p ++ G2 ∧ length G1 = length L1.
Proof.
  induction n as [|n IH]; intros h p par pi r L1 L2 hh c Hctx Hc; cbn [ctx_at] in Hctx.
  - destruct Hctx as [(-> & -> & -> & ->) _]. exists [], []. by rewrite app_nil_r.
  - destruct Hctx as (q & qpar & qpi & kvs1 & kvs2 & cs1 & cs2 & A' & B' & (_ & _ & H1 & _ & _ & _ & -> & ->) & Hctx).
    apply holds_sep in Hctx as (h1 & h1' & Hs1 & Hs1' & _ & Hn & Hctx).
    apply holds_sep in Hctx as (h2 & h2' & Hs2 & Hs2' & _ & Hcs1 & Hctx).
    apply holds_sep in Hctx as (h3 & h3' & Hs3 & Hs3' & _ & _ & Hctx).
    assert (h1' ⊆ c) as Hc1 by by etrans. assert (h2' ⊆ c) as Hc2 by by etrans. assert (h3' ⊆ c) as Hc3 by by etrans.
    destruct (IH _ _ _ _ _ _ _ _ c Hctx Hc3) as (G1 & G2 & HG & HG1).
    destruct (points_to_lookup _ _ _ c Hn ltac:(by etrans)) as [Hq _].
    destruct (children_gaps h (tree_has_gaps h) _ _ _ _ c Hcs1 ltac:(by etrans)) as (Hl & _ & _).
    exists (G1 ++ (cs1.*1 ≫= gaps c h)), ((cs2.*1 ≫= gaps c h) ++ G2).
    split.
    + rewrite HG. cbn [gaps]. rewrite Hq. cbn [edges inner_node default]. rewrite bind_app /=. by rewrite -!app_assoc.
    + rewrite !length_app HG1 Hl length_lefts ?length_fmap //.
Qed.
End gaps.

Section places.
Context {K V A : Type} `{!Ord K, !GlobalAlloc NodeLayout A}.
#[local] Abbreviation N := (Node K V).
Implicit Types (L : list (K * V)).

(** The place behind [L1] is the edge with that number. *)
Lemma godown_gap r hd L1 L2 (hh c : gmap Z N) : holds (godown_at r hd L1 L2) hh → hh ⊆ c →
  gaps c (root_height r) (root_node r) !! length L1 = Some hd ∧ height (hnode hd) = 0.
Proof.
  intros (n & q & par & pi & A' & B' & kvs1 & kvs2 & (-> & -> & ->) & H) Hc. split; [|done].
  apply holds_sep in H as (h1 & h2 & Hc1 & Hc2 & _ & Hctx & [_ Hn]).
  destruct (ctx_gaps _ _ _ _ _ _ _ _ _ c Hctx) as (G1 & G2 & -> & HG); [by etrans|].
  destruct (points_to_lookup _ _ _ c Hn) as [Hq _]; [by etrans|]. cbn [gaps]. rewrite Hq.
  rewrite length_app -HG lookup_app_r; [|lia]. rewrite Nat.add_comm Nat.add_sub.
  assert (length (keys (leaf_node par pi (kvs1 ++ kvs2))) = length kvs1 + length kvs2) as -> by solve_len.
  rewrite lookup_app_l; [|rewrite length_fmap length_seq; lia].
  rewrite list_lookup_fmap lookup_seq_lt; [done|lia].
Qed.

(** Two places are the same edge exactly when they are the same gap. *)
Lemma same_place r f b L1 L2 L1' L2' (h1 h2 c : gmap Z N) :
  holds (godown_at r f L1 L2) h1 → h1 ⊆ c → holds (godown_at r b L1' L2') h2 → h2 ⊆ c →
  handle_eq f b = bool_decide (length L1 = length L1').
Proof.
  intros Hf Hc1 Hb Hc2. destruct (godown_gap _ _ _ _ _ _ Hf Hc1) as [Gf Lf].
  destruct (godown_gap _ _ _ _ _ _ Hb Hc2) as [Gb Lb].
  apply (holds_entails _ _ _ (godown_close _ _ _ _)) in Hf. destruct Hf as [pi Ht].
  destruct (tree_has_gaps _ _ _ _ _ _ _ c Ht Hc1) as (_ & Hnd & _). apply eq_true_iff_eq.
  rewrite bool_decide_eq_true. unfold handle_eq. rewrite andb_true_iff bool_decide_eq_true Nat.eqb_eq.
  destruct f as [[hf pf] jf], b as [[hb pb] jb]. cbn in *. subst hf hb. split.
  - intros [-> ->]. by eapply NoDup_lookup.
  - intros Heq. rewrite Heq Gb in Gf. by injection Gf as -> ->.
Qed.
End places.

(** ** A step from the back *)

Section back.
Context {K V A : Type} `{!Ord K, !GlobalAlloc NodeLayout A}.
#[local] Abbreviation N := (Node K V).
#[local] Abbreviation M := (M (store N A)).
#[local] Notation "p ↦ n" := (points_to p n) (at level 20) : bi_scope.
Implicit Types (L : list (K * V)) (kvs : list (K * V)) (cs : list (Z * list (K * V))).

Lemma ctx_at_takes_last n h q qpar qpi r kvs c cs L1 L2 :
  least n (S h) ≤ length kvs ≤ CAPACITY → length cs = length kvs → (STATIC_END <= q)%Z →
  q ↦ inner_node qpar qpi kvs (cs.*1 ++ [c]) -∗ children h q 0 cs -∗ ctx_at n (S h) q qpar qpi r L1 L2 -∗
  ctx_at (S n) h c (Some q) (Some (length cs)) r (L1 ++ lefts cs.*2 kvs) L2.
Proof.
  iIntros (Hl Hcs Hq) "Hn Hcs Hc". cbn [ctx_at]. iExists q, qpar, qpi, kvs, [], cs, [], L1, L2.
  rewrite app_nil_r. iFrame. iSplit; [|by rewrite /children]. iPureIntro. split_and!; (done || cbn [length]; lia).
Qed.

(** The way down to the last leaf. *)
Lemma hwp_last_leaf h r L2 : ∀ fuel n p par pi L1 L Q, h ≤ fuel →
  ctx_at n h p par pi r L1 L2 -∗ tree_at h (least n h) p par pi L -∗
  (∀ hd, godown_at r hd (L1 ++ L) L2 -∗ Q hd) -∗
  hwp (last_leaf_edge_loop fuel (NodeRef_ h p) : M _) Q.
Proof.
  induction h as [|h IH]; intros fuel n p par pi L1 L Q Hf; iIntros "Hc Ht HQ".
  - cbn [tree_at]. iDestruct "Ht" as ([Hl Hp]) "Hn".
    assert (last_leaf_edge_loop fuel (NodeRef_ 0 p) = (last_edge (NodeRef_ 0 p) : M _)) as -> by by destruct fuel.
    iApply hwp_bind. iApply (hwp_len with "Hn"); [done|]. iIntros "Hn".
    iApply (hwp_new_edge with "Hn"); [done|done|]. iIntros "Hn". iApply "HQ".
    iExists n, p, par, pi, L1, L2, L, []. cbn [keys leaf_node]. rewrite length_fmap app_nil_r. iFrame "Hc". by iFrame.
  - destruct fuel as [|fuel]; [lia|].
    iDestruct (tree_inner_inv with "Ht") as (kvs cs (Hl & Hp & Hcs & ->)) "[Hn Hcs]".
    apply snoc_inv in Hcs as (cs' & [c Lc] & -> & Hcs). cbn [last_leaf_edge_loop force height]. iApply hwp_bind.
    iApply hwp_bind. iApply (hwp_len with "Hn"); [done|]. iIntros "Hn".
    iApply (hwp_new_edge with "Hn"); [done|done|]. iIntros "Hn".
    iApply hwp_bind. iApply (hwp_descend with "Hn"); [done| |].
    { cbn [keys inner_node]. rewrite length_fmap -Hcs. apply lookup_middle. }
    iIntros "Hn". rewrite /= Nat.sub_0_r children_focus (fmap_app fst). iDestruct "Hcs" as "(Hcs & Ht & _)".
    iDestruct (ctx_at_takes_last with "Hn Hcs Hc") as "Hc"; [done|done|done|].
    iApply (IH with "Hc Ht"); [lia|]. iIntros (hd) "Hg". iApply "HQ".
    rewrite -(app_nil_r kvs) fmap_app inter_focus ?length_fmap //= !app_nil_r -app_assoc. iFrame.
Qed.

(** An edge of an internal node that has just been left upwards, to go on to its left. *)
Definition inner_edge_back n h (r : Root) hd L1 L2 : hProp N :=
  ∃ q par pi A B kvs1 kvs2 cs1 cs2,
    ⌜hd = Handle_ (NodeRef_ (S h) q) (length kvs1) ∧ length cs1 = length kvs1 ∧ length cs2 = S (length kvs2) ∧
     least n (S h) ≤ length kvs1 + length kvs2 ≤ CAPACITY ∧ (STATIC_END <= q)%Z ∧
     L1 = A ++ lefts cs1.*2 kvs1 ∧ L2 = inter cs2.*2 kvs2 ++ B⌝ ∧
    ctx_at n (S h) q par pi r A B ∗ q ↦ inner_node par pi (kvs1 ++ kvs2) (cs1 ++ cs2).*1 ∗
    children h q 0 (cs1 ++ cs2).

Lemma hwp_climb_back n h p par pi r L1 L L2 Q : L1 ≠ [] →
  ctx_at n h p par pi r L1 L2 -∗ tree_at h (least n h) p par pi L -∗
  (∀ n' hd, ⌜n = S n'⌝ → inner_edge_back n' h r hd L1 (L ++ L2) -∗ Q hd) -∗
  hwp (next_level ← ascend (NodeRef_ h p); unwrap_unchecked (ok_ next_level) : M _) Q.
Proof.
  iIntros (HL1) "Hc Ht HQ". iApply hwp_bind. destruct n as [|n]; cbn [ctx_at].
  - by iDestruct "Hc" as ((-> & -> & -> & ->)) "_".
  - iDestruct "Hc" as (q qpar qpi kvs1 kvs2 cs1 cs2 A' B' (-> & -> & H1 & H2 & Hle & Hq & -> & ->)) "(Hn & Hcs1 & Hcs2 & Hc)".
    iApply (hwp_ascend_tree with "Ht"); [by right; eexists|]. iIntros "Ht". iApply hwp_expect; [done|].
    iApply ("HQ" $! n with "[//]"). iExists q, qpar, qpi, A', B', kvs1, kvs2, cs1, ((p, L) :: cs2).
    iSplit; [iPureIntro; rewrite H1; split_and!; (done || solve_len || by rewrite /= -app_assoc)|].
    rewrite children_focus fmap_app. iFrame.
Qed.

(** [left_kv] of an edge. *)
Lemma hwp_left_kv h q n i Q : (STATIC_END <= q)%Z → i ≤ length (keys n) →
  q ↦ n -∗
  (q ↦ n -∗ Q (if 0 <? i then Ok (Handle_ (NodeRef_ h q) (i - 1)) else Err (Handle_ (NodeRef_ h q) i))) -∗
  hwp (left_kv (Handle_ (NodeRef_ h q) i) : M _) Q.
Proof.
  iIntros (Hq Hi) "Hn HQ". unfold left_kv. cbn [idx hnode].
  destruct (0 <? i) eqn:E; [|iApply hwp_ret; by iApply "HQ"]. apply Nat.ltb_lt in E.
  iApply hwp_bind. iApply (hwp_new_kv with "Hn"); [done|lia|]. iIntros "Hn". iApply hwp_ret. by iApply "HQ".
Qed.

Lemma app_snoc_eq {T} (l1 l2 : list T) x y : l1 ++ [x] = l2 ++ [y] → l1 = l2 ∧ x = y.
Proof. apply app_inj_tail. Qed.

(** Any loop that climbs to the next entry on the left, and what it does there. *)
Lemma hwp_left_loop {B} (loop : nat → Handle → M B) (body : Handle → M B) r k v L1 L2 Q :
  (∀ fuel hd, loop fuel hd =
    (kv ← left_kv hd;
     match kv with
     | Ok kv => body kv
     | Err last_edge =>
         next_level ← ascend (hnode last_edge);
         cur_handle ← unwrap_unchecked (ok_ next_level);
         match fuel with O => ub "still climbing" | S fuel => loop fuel cur_handle end
     end)) →
  ∀ n fuel h hd, n ≤ fuel →
  inner_edge_back n h r hd (L1 ++ [(k, v)]) L2 -∗ (∀ kv, found_inner r kv k v L1 L2 -∗ hwp (body kv) Q) -∗ hwp (loop fuel hd) Q.
Proof.
  intros Hloop. induction n as [n IH] using lt_wf_ind; intros fuel h hd Hf.
  iIntros "He HQ". iDestruct "He" as (q par pi A' B' kvs1 kvs2 cs1 cs2 (-> & H1 & H2 & Hle & Hq & HL & ->)) "(Hc & Hn & Hcs)".
  rewrite Hloop. iApply hwp_bind. iApply (hwp_left_kv with "Hn"); [done|solve_len|]. iIntros "Hn".
  destruct kvs1 as [|kv kvs1 _] using rev_ind.
  - destruct cs1; [|done]. cbn [lefts fmap list_fmap length] in *. rewrite app_nil_r in HL. subst A'. cbn [Nat.ltb Nat.leb hnode].
    iApply hwp_assoc. cbn [app].
    iApply (hwp_climb_back with "Hc [Hn Hcs]"); [by destruct L1|iApply (tree_inner _ _ _ _ _ kvs2 cs2); [done|done|done|iFrame]|].
    iIntros (n' hd ->) "He". destruct fuel as [|fuel]; [lia|]. iApply (IH with "He HQ"); lia.
  - rewrite length_app Nat.add_1_r in H1. apply snoc_inv in H1 as (cs1' & c & -> & H1).
    rewrite fmap_app lefts_app ?length_fmap //= in HL. rewrite (app_assoc c.2 []) app_nil_r in HL.
    assert (L1 = A' ++ lefts cs1'.*2 kvs1 ++ c.2 ∧ (k, v) = kv) as [-> <-].
    { apply app_snoc_eq. rewrite HL -!app_assoc. done. }
    destruct cs2 as [|c' cs2]; [done|]. injection H2 as H2.
    rewrite length_app Nat.add_1_r. cbn [Nat.ltb Nat.leb]. rewrite Nat.sub_succ Nat.sub_0_r.
    rewrite -!(app_assoc _ [_]). cbn [app].
    iApply "HQ". iExists n, h, q, par, pi, A', B', kvs1, kvs2, cs1', c, c', cs2. iFrame.
    iPureIntro. rewrite length_app in Hle. cbn [length] in Hle. split_and!; try (done || lia). by rewrite /= -app_assoc.
Qed.

(** The same, from an edge of a leaf. *)
Lemma hwp_left_step {B C} (loop : nat → Handle → M B) (body : Handle → M B) (here : Handle → M C) (k' : B → M C) r k v L1 L2 hd fuel Q :
  (∀ fuel hd, loop fuel hd =
    (kv ← left_kv hd;
     match kv with
     | Ok kv => body kv
     | Err last_edge =>
         next_level ← ascend (hnode last_edge);
         cur_handle ← unwrap_unchecked (ok_ next_level);
         match fuel with O => ub "still climbing" | S fuel => loop fuel cur_handle end
     end)) →
  root_height r ≤ fuel → godown_at r hd (L1 ++ [(k, v)]) L2 -∗
  ((∀ kv, found_leaf r kv k v L1 L2 -∗ hwp (here kv) Q) ∧
   (∀ kv, found_inner r kv k v L1 L2 -∗ hwp (body kv) (λ x, hwp (k' x) Q))) -∗
  hwp (kv ← left_kv hd;
       match kv with
       | Ok kv => here kv
       | Err last_edge =>
           next_level ← ascend (hnode last_edge);
           cur_handle ← unwrap_unchecked (ok_ next_level);
           x ← loop fuel cur_handle; k' x
       end) Q.
Proof.
  iIntros (Hloop Hf) "Hg HQ". iDestruct "Hg" as (n q par pi A' B' kvs1 kvs2 (-> & HL & ->)) "[Hc Ht]".
  iDestruct (ctx_height with "Hc") as %Hh. cbn [tree_at]. iDestruct "Ht" as ([Hl Hq]) "Hn".
  iApply hwp_bind. iApply (hwp_left_kv with "Hn"); [done|solve_len|]. iIntros "Hn".
  destruct kvs1 as [|kv kvs1 _] using rev_ind.
  - rewrite app_nil_r in HL. subst A'. cbn [length Nat.ltb Nat.leb hnode app].
    iApply hwp_assoc. iApply (hwp_climb_back with "Hc [Hn]"); [by destruct L1|by iSplit|].
    iIntros (n' hd ->) "He". iApply hwp_bind. iDestruct "HQ" as "[_ HQ]".
    iApply (hwp_left_loop loop body with "He HQ"); [exact Hloop|lia].
  - rewrite app_assoc in HL. apply app_snoc_eq in HL as [-> <-].
    rewrite length_app Nat.add_1_r. cbn [Nat.ltb Nat.leb]. rewrite Nat.sub_succ Nat.sub_0_r.
    rewrite -(app_assoc kvs1) in Hl |- *. cbn [app] in *. iDestruct "HQ" as "[HQ _]". iApply "HQ".
    iExists n, q, par, pi, A', B', kvs1, kvs2. iSplit; [done|]. iFrame "Hc". by iSplit.
Qed.

(** The edge of a leaf before an entry. *)
Lemma hwp_before_leaf r kv k v L1 L2 Q :
  found_leaf r kv k v L1 L2 -∗ (∀ e, godown_at r e L1 ((k, v) :: L2) -∗ Q e) -∗ hwp (left_edge kv : M _) Q.
Proof.
  iIntros "H HQ". iDestruct "H" as (n q par pi A' B' kvs1 kvs2 (-> & -> & ->)) "[Hc Ht]". cbn [tree_at].
  iDestruct "Ht" as ([Hl Hq]) "Hn". iApply (hwp_new_edge with "Hn"); [done|cbn; solve_len|]. iIntros "Hn".
  iApply "HQ". iExists n, q, par, pi, A', B', kvs1, ((k, v) :: kvs2). iSplit; [done|]. iFrame "Hc". by iSplit.
Qed.
Lemma hwp_before_inner r kv k v L1 L2 Q :
  found_inner r kv k v L1 L2 -∗ (∀ e, godown_at r e L1 ((k, v) :: L2) -∗ Q e) -∗
  hwp (e ← left_edge kv; c ← descend e; last_leaf_edge c : M _) Q.
Proof.
  iIntros "H HQ". iDestruct "H" as (n h q par pi A' B' kvs1 kvs2 cs1 [c Lc] c' cs2 (-> & H1 & H2 & Hle & Hq & -> & ->)) "(Hc & Hn & Hcs)".
  iApply hwp_bind. iApply (hwp_new_edge with "Hn"); [done|cbn; solve_len|]. iIntros "Hn". cbn [idx hnode].
  iApply hwp_bind. iApply (hwp_descend with "Hn"); [done| |].
  { rewrite -H1. apply lookup_middle. }
  iIntros "Hn". rewrite /= Nat.sub_0_r children_focus. iDestruct "Hcs" as "(Hcs1 & Ht & Hcs2)".
  iApply (hwp_last_leaf h r ((k, v) :: c'.2 ++ rights kvs2 cs2.*2 ++ B') _ (S n) with "[Hn Hcs1 Hcs2 Hc] Ht"); [done| |].
  { cbn [ctx_at]. iExists q, par, pi, kvs1, ((k, v) :: kvs2), cs1, (c' :: cs2), A', B'. rewrite fmap_app. iFrame.
    iPureIntro. split_and!; try (done || cbn [length] in *; lia). by rewrite /= -app_assoc. }
  iIntros (hd) "Hg". iApply "HQ". by rewrite -!app_assoc.
Qed.

(** A step from the back reads the entry before it and passes it. *)
Lemma hwp_next_back_unchecked r f hd kv L1 L2 fuel Q : root_height r ≤ fuel →
  godown_at r hd (L1 ++ [kv]) L2 -∗
  (∀ hd', godown_at r hd' L1 (kv :: L2) -∗ Q (Range_ f hd', kv)) -∗
  hwp (next_back_unchecked fuel (Range_ f hd) : M _) Q.
Proof.
  destruct kv as [k v]. iIntros (Hf) "Hg HQ".
  iApply (hwp_left_step next_back_loop with "Hg"); [by intros [|] ?|done|]. iSplit; iIntros (kv) "H"; iApply hwp_bind.
  - iApply (hwp_read_leaf with "H"). iIntros "H". iApply hwp_bind. iApply (hwp_before_leaf with "H").
    iIntros (e) "H". iApply hwp_ret. by iApply "HQ".
  - iApply (hwp_read_inner with "H"). iIntros "H". iApply hwp_regroup. iApply hwp_bind. iApply (hwp_before_inner with "H").
    iIntros (e) "H". do 2 iApply hwp_ret. by iApply "HQ".
Qed.
End back.

(** ** Nothing is written *)

Section readonly_steps.
Context {K V A : Type} `{!Ord K, !GlobalAlloc NodeLayout A}.
#[local] Abbreviation N := (Node K V).
#[local] Abbreviation M := (M (store N A)).

Lemma readonly_next_unchecked fuel r : readonly (next_unchecked fuel r : M _).
Proof.
  assert (∀ hd, readonly (next_loop fuel hd : M (Handle * (K * V)))) as Hloop.
  { induction fuel as [|fuel IH]; intros hd; cbn [next_loop]; unfold right_edge; solve_readonly. }
  unfold next_unchecked, right_edge. solve_readonly.
Qed.
Lemma readonly_next_back_unchecked fuel r : readonly (next_back_unchecked fuel r : M _).
Proof.
  assert (∀ hd, readonly (next_back_loop fuel hd : M (Handle * (K * V)))) as Hloop.
  { induction fuel as [|fuel IH]; intros hd; cbn [next_back_loop]; unfold left_edge; solve_readonly. }
  unfold next_back_unchecked, left_edge. solve_readonly.
Qed.

Lemma readonly_min_edge n found lo : readonly (min_edge n found lo : M _).
Proof. unfold min_edge. solve_readonly. Qed.
Lemma readonly_max_edge n found hi : readonly (max_edge n found hi : M _).
Proof. unfold max_edge. solve_readonly. Qed.
End readonly_steps.

#[export] Hint Resolve readonly_next_unchecked readonly_next_back_unchecked readonly_min_edge readonly_max_edge : readonly.
