(* ===== verification/BTreeInto.v ===== *)
(** * BTreeInto: the iterator by value, from both ends ([map.rs])

    [IntoIter] gives a node back as soon as one of its two edges has left it, so that
    what is left of the tree is cut on both sides: [part].  Taking from either end
    narrows it, and dropping the iterator drops the rest, and gives every node that is
    left back once. *)

From S2P Require Import Prelude HeapLogic Node BTree NodeSpec BTreeSpec Rebalance BTreeRemove BTreeIter BTreeRefine BTreeRange Deque.
From iris.proofmode Require Import proofmode.
From iris.prelude Require Import options.

#[local] Open Scope nat_scope.

Section into.
Context {K V A : Type} `{!Ord K, !GlobalAlloc NodeLayout A}.
#[local] Abbreviation N := (Node K V).
#[local] Abbreviation M := (M (store N A)).

(** The loop of [IntoIter::next_back], and [next_back]. *)
Fixpoint into_next_back_loop (fuel : nat) (cur_handle : Handle) : M (Handle * (K * V)) :=
  kv ← left_kv cur_handle;
  match kv with
  | Ok kv =>
      ret ← into_kv kv;
      e ← left_edge kv; c ← descend e;
      back ← last_leaf_edge c;
      mret (back, ret)
  | Err last_edge =>
      p ← deallocate_and_ascend_internal (hnode last_edge);
      cur_handle ← unwrap_unchecked p;
      match fuel with O => ub "still climbing" | S fuel => into_next_back_loop fuel cur_handle end
  end.

Definition into_next_back (fuel : nat) (it : Iter) : M (Iter * option (K * V)) :=
  if iter_length it =? 0 then mret (it, None)
  else
    let n := iter_length it - 1 in
    kv ← left_kv (back (range it));
    match kv with
    | Ok kv =>
        ret ← into_kv kv;
        e ← left_edge kv;
        mret (Iter_ (Range_ (front (range it)) e) n, Some ret)
    | Err last_edge =>
        p ← deallocate_and_ascend_leaf (hnode last_edge);
        cur_handle ← unwrap_unchecked p;
        '(back, ret) ← into_next_back_loop fuel cur_handle;
        mret (Iter_ (Range_ (front (range it)) back) n, Some ret)
    end.

(** From one edge to the next entry on its right, and on its left. *)
Definition take_front (fuel : nat) (hd : Handle) : M (Handle * (K * V)) :=
  kv ← right_kv hd;
  match kv with
  | Ok kv => ret ← into_kv kv; e ← right_edge kv; mret (e, ret)
  | Err last_edge =>
      p ← deallocate_and_ascend_leaf (hnode last_edge);
      cur_handle ← unwrap_unchecked p;
      into_next_loop fuel cur_handle
  end.
Definition take_back (fuel : nat) (hd : Handle) : M (Handle * (K * V)) :=
  kv ← left_kv hd;
  match kv with
  | Ok kv => ret ← into_kv kv; e ← left_edge kv; mret (e, ret)
  | Err last_edge =>
      p ← deallocate_and_ascend_leaf (hnode last_edge);
      cur_handle ← unwrap_unchecked p;
      into_next_back_loop fuel cur_handle
  end.
(** What [drop] does with the nodes. *)
Definition free_from (fuel : nat) (leaf_node : NodeRef) : M unit :=
  p ← deallocate_and_ascend_leaf leaf_node;
  match p with None => mret tt | Some first_parent => free_loop fuel (hnode first_parent) end.

Lemma into_next_take fuel f b n s : into_next fuel (Iter_ (Range_ f b) (S n)) s =
  ('(f, kv) ← take_front fuel f; mret (Iter_ (Range_ f b) n, Some kv)) s.
Proof.
  unfold into_next, take_front. cbn [iter_length Nat.eqb range front back]. rewrite Nat.sub_succ Nat.sub_0_r.
  unfold mbind, M_bind, mret, M_ret. by repeat (case_match; simplify_eq).
Qed.
Lemma into_next_back_take fuel f b n s : into_next_back fuel (Iter_ (Range_ f b) (S n)) s =
  ('(b, kv) ← take_back fuel b; mret (Iter_ (Range_ f b) n, Some kv)) s.
Proof.
  unfold into_next_back, take_back. cbn [iter_length Nat.eqb range front back]. rewrite Nat.sub_succ Nat.sub_0_r.
  unfold mbind, M_bind, mret, M_ret. by repeat (case_match; simplify_eq).
Qed.
End into.

(** ** A tree that is cut on both sides *)

Section parts.
Context {K V A : Type} `{!Ord K, !GlobalAlloc NodeLayout A}.
#[local] Abbreviation N := (Node K V).
#[local] Abbreviation M := (M (store N A)).
#[local] Notation "p ↦ n" := (points_to p n) (at level 20) : bi_scope.
Implicit Types (L R : list (K * V)) (kvs : list (K * V)) (cs : list (Z * list (K * V))).

(** The children that are left, the first one cut by [f] and the last one by [b]. *)
Fixpoint pieces (T : Z → option Z → option nat → option Handle → option Handle → list (K * V) → hProp N)
    (p : Z) (i : nat) (f b : option Handle) cs : hProp N :=
  match cs with
  | [] => emp
  | c :: cs => T c.1 (Some p) (Some i) f (match cs with [] => b | _ => None end) c.2 ∗ pieces T p (S i) None b cs
  end.

(** A tree of height [h] without what is left of the edge [f] and right of [b]. *)
Fixpoint part (h : nat) (p : Z) (par : option Z) (pi : option nat) (f b : option Handle) R : hProp N :=
  match h with
  | O => ∃ kvs1 kvs3,
      ⌜length (kvs1 ++ R ++ kvs3) ≤ CAPACITY ∧ (STATIC_END <= p)%Z ∧
       match f with Some f => f = Handle_ (NodeRef_ 0 p) (length kvs1) | None => kvs1 = [] end ∧
       match b with Some b => b = Handle_ (NodeRef_ 0 p) (length (kvs1 ++ R)) | None => kvs3 = [] end⌝ ∧
      p ↦ leaf_node par pi (kvs1 ++ R ++ kvs3)
  | S h => ∃ kvs1 kvs2 kvs3 es1 cs es3,
      ⌜length (kvs1 ++ kvs2 ++ kvs3) ≤ CAPACITY ∧ (STATIC_END <= p)%Z ∧
       length es1 = length kvs1 ∧ length cs = S (length kvs2) ∧ length es3 = length kvs3 ∧
       (f = None → kvs1 = []) ∧ (b = None → kvs3 = []) ∧ R = inter cs.*2 kvs2⌝ ∧
      p ↦ inner_node par pi (kvs1 ++ kvs2 ++ kvs3) (es1 ++ cs.*1 ++ es3) ∗
      pieces (part h) p (length es1) f b cs
  end.

Lemma part_inner_inv h p par pi f b R : part (S h) p par pi f b R ⊢ ∃ kvs1 kvs2 kvs3 es1 cs es3,
  ⌜length (kvs1 ++ kvs2 ++ kvs3) ≤ CAPACITY ∧ (STATIC_END <= p)%Z ∧
   length es1 = length kvs1 ∧ length cs = S (length kvs2) ∧ length es3 = length kvs3 ∧
   (f = None → kvs1 = []) ∧ (b = None → kvs3 = []) ∧ R = inter cs.*2 kvs2⌝ ∧
  p ↦ inner_node par pi (kvs1 ++ kvs2 ++ kvs3) (es1 ++ cs.*1 ++ es3) ∗ pieces (part h) p (length es1) f b cs.
Proof. done. Qed.
Lemma part_inner h p par pi f b kvs1 kvs2 kvs3 es1 cs es3 :
  length (kvs1 ++ kvs2 ++ kvs3) ≤ CAPACITY → (STATIC_END <= p)%Z →
  length es1 = length kvs1 → length cs = S (length kvs2) → length es3 = length kvs3 →
  (f = None → kvs1 = []) → (b = None → kvs3 = []) →
  p ↦ inner_node par pi (kvs1 ++ kvs2 ++ kvs3) (es1 ++ cs.*1 ++ es3) ∗ pieces (part h) p (length es1) f b cs ⊢
  part (S h) p par pi f b (inter cs.*2 kvs2).
Proof. intros. iIntros "[Hn Hcs]". iExists kvs1, kvs2, kvs3, es1, cs, es3. by iFrame. Qed.

Lemma pieces_snoc T p b cs c : ∀ i f, pieces T p i f b (cs ++ [c]) ⊣⊢
  pieces T p i f None cs ∗ T c.1 (Some p) (Some (i + length cs)) (match cs with [] => f | _ => None end) b c.2.
Proof.
  induction cs as [|c' cs IH]; intros i f; cbn [pieces app length]; [by rewrite Nat.add_0_r left_id right_id|].
  rewrite IH Nat.add_succ_r (assoc bi_sep). destruct cs; cbn [app]; [done|done].
Qed.

Lemma pieces_whole h p cs : ∀ i,
  (∀ p par pi L, tree_at h 4 p par pi L ⊢ part h p par pi None None L) →
  children h p i cs ⊢ pieces (part h) p i None None cs.
Proof.
  induction cs as [|c cs IH]; intros i Hh; [by iIntros "_"|]. rewrite children_cons. cbn [pieces].
  rewrite Hh IH //. by destruct cs.
Qed.
Lemma part_whole h : ∀ le p par pi L, tree_at h le p par pi L ⊢ part h p par pi None None L.
Proof.
  induction h as [|h IH]; intros le p par pi L; iIntros "Ht".
  - cbn [tree_at]. iDestruct "Ht" as ([Hl Hp]) "Hn". iExists [], []. rewrite /= app_nil_r. iFrame. iPureIntro. split_and!; (done || lia).
  - iDestruct (tree_inner_inv with "Ht") as (kvs cs (Hl & Hp & Hcs & ->)) "[Hn Hcs]".
    iExists [], kvs, [], [], cs, []. cbn [app length]. rewrite !app_nil_r pieces_whole; [|by intros; apply IH]. iFrame.
    iPureIntro. split_and!; (done || lia).
Qed.

(** Leaving a node upwards gives it back. *)
Lemma hwp_leave h p nd l Q : (STATIC_END <= p)%Z → (parent nd = None ∨ ∃ i, parent_idx nd = Some i) → layout_of nd = l →
  p ↦ nd -∗
  Q (match parent nd, parent_idx nd with Some q, Some i => Some (Handle_ (NodeRef_ (S h) q) i) | _, _ => None end) -∗
  hwp (ret ← ascend (NodeRef_ h p); _ ← dealloc p l; mret (ok_ ret) : M _) Q.
Proof.
  iIntros (Hp Hpi Hl) "Hn HQ". iApply hwp_bind. iApply (hwp_ascend with "Hn"); [done|done|]. iIntros "Hn".
  iApply hwp_bind. iApply (hwp_dealloc with "Hn"); [done|]. iApply hwp_ret. by destruct (parent nd), (parent_idx nd).
Qed.
Definition linked (par : option Z) (pi : option nat) : Prop := par = None ∨ ∃ i, pi = Some i.
Definition above (h : nat) (par : option Z) (pi : option nat) : option Handle :=
  match par, pi with Some q, Some i => Some (Handle_ (NodeRef_ (S h) q) i) | _, _ => None end.
Lemma hwp_leave_leaf p kvs par pi Q : (STATIC_END <= p)%Z → linked par pi →
  p ↦ leaf_node par pi kvs -∗ Q (above 0 par pi) -∗ hwp (deallocate_and_ascend_leaf (NodeRef_ 0 p) : M _) Q.
Proof.
  iIntros (Hp Hpi) "Hn HQ". unfold deallocate_and_ascend_leaf, is_shared_root. cbn [node]. rewrite not_shared //.
  iApply hwp_bind. iApply hwp_debug_assert; [done|]. by iApply (hwp_leave with "Hn HQ").
Qed.
Lemma hwp_leave_inner h p kvs es par pi Q : (STATIC_END <= p)%Z → linked par pi →
  p ↦ inner_node par pi kvs es -∗ Q (above (S h) par pi) -∗ hwp (deallocate_and_ascend_internal (NodeRef_ (S h) p) : M _) Q.
Proof. iIntros (Hp Hpi) "Hn HQ". by iApply (hwp_leave with "Hn HQ"). Qed.

(** *** From the front *)

Lemma hwp_front_edge h : ∀ fuel p par pi b L Q, h ≤ fuel →
  part h p par pi None b L -∗ (∀ f, part h p par pi (Some f) b L -∗ Q f) -∗
  hwp (first_leaf_edge_loop fuel (NodeRef_ h p) : M _) Q.
Proof.
  induction h as [|h IH]; intros fuel p par pi b L Q Hf; iIntros "Ht HQ".
  - iDestruct "Ht" as (kvs1 kvs3 (Hc & Hp & -> & Hb)) "Hn".
    assert (first_leaf_edge_loop fuel (NodeRef_ 0 p) = (first_edge (NodeRef_ 0 p) : M _)) as -> by by destruct fuel.
    iApply (hwp_new_edge with "Hn"); [done|lia|]. iIntros "Hn". iApply "HQ". iExists [], kvs3. by iFrame.
  - destruct fuel as [|fuel]; [lia|].
    iDestruct (part_inner_inv with "Ht") as (kvs1 kvs2 kvs3 es1 cs es3 (Hc & Hp & H1 & H2 & H3 & Hf1 & Hb & ->)) "[Hn Hcs]".
    pose proof (Hf1 eq_refl) as ->. destruct es1; [|done]. destruct cs as [|c cs]; [done|]. cbn [pieces]. iDestruct "Hcs" as "[Hk Hcs]".
    cbn [first_leaf_edge_loop force height]. iApply hwp_bind. iApply (hwp_new_edge with "Hn"); [done|lia|]. iIntros "Hn".
    iApply hwp_bind. iApply (hwp_descend with "Hn"); [done|done|]. iIntros "Hn". rewrite /= Nat.sub_0_r.
    iApply (IH with "Hk"); [lia|]. iIntros (f) "Hk". iApply "HQ".
    iApply (part_inner _ _ _ _ _ _ [] kvs2 kvs3 [] (c :: cs) es3); [done || intros [=]..|]. cbn [pieces]. iFrame.
Qed.

(** Nothing is left of a tree: it is given back up to its root, and the edge above it
    is next. *)
Lemma hwp_emptied_front h : ∀ fuel f q i p Q, h ≤ fuel →
  part h p (Some q) (Some i) (Some f) None [] -∗
  hwp (into_next_loop (fuel - h) (Handle_ (NodeRef_ (S h) q) i)) Q -∗ hwp (take_front fuel f : M _) Q.
Proof.
  induction h as [|h IH]; intros fuel f q i p Q Hf; iIntros "Ht HQ".
  - iDestruct "Ht" as (kvs1 kvs3 (Hc & Hp & -> & ->)) "Hn". rewrite !app_nil_r Nat.sub_0_r. iApply hwp_bind.
    iApply (hwp_right_kv with "Hn"); [done|]. iIntros "Hn". cbn [keys leaf_node]. rewrite length_fmap Nat.ltb_irrefl.
    iApply hwp_bind. cbn [hnode]. iApply (hwp_leave_leaf with "Hn"); [done|by right; eexists|]. iApply hwp_bind. by iApply hwp_expect.
  - iDestruct (part_inner_inv with "Ht") as (kvs1 kvs2 kvs3 es1 cs es3 (Hc & Hp & H1 & H2 & H3 & _ & Hb & HR)) "[Hn Hcs]".
    pose proof (Hb eq_refl) as ->. destruct es3; [|done]. destruct cs as [|[c Lc] cs]; [done|]. injection H2 as H2. cbn in HR. symmetry in HR. apply app_nil in HR as [-> HR].
    destruct kvs2 as [|kv kvs2]; [|by destruct cs]. destruct cs; [|done]. cbn [pieces fst snd]. iDestruct "Hcs" as "[Hk _]".
    iApply (IH with "Hk"); [lia|]. replace (fuel - h) with (S (fuel - S h)) by lia. cbn [into_next_loop].
    iApply hwp_bind. rewrite !app_nil_r. iApply (hwp_right_kv with "Hn"); [done|]. iIntros "Hn". cbn [keys inner_node].
    rewrite length_fmap H1 Nat.ltb_irrefl. iApply hwp_bind. cbn [hnode]. iApply (hwp_leave_inner with "Hn"); [done|by right; eexists|].
    iApply hwp_bind. by iApply hwp_expect.
Qed.

Lemma hwp_take_front h : ∀ fuel f p par pi b kv R Q, h ≤ fuel →
  part h p par pi (Some f) b (kv :: R) -∗ (∀ f, part h p par pi (Some f) b R -∗ Q (f, kv)) -∗
  hwp (take_front fuel f : M _) Q.
Proof.
  induction h as [|h IH]; intros fuel f p par pi b [k v] R Q Hf; iIntros "Ht HQ".
  - iDestruct "Ht" as (kvs1 kvs3 (Hc & Hp & -> & Hb)) "Hn". iApply hwp_bind.
    iApply (hwp_right_kv with "Hn"); [done|]. iIntros "Hn". cbn [keys leaf_node]. rewrite (proj2 (Nat.ltb_lt _ _)); [|cbn; solve_len].
    iApply hwp_bind. iApply (hwp_into_kv with "Hn"); [done|apply lookup_middle..|]. iIntros "Hn".
    iApply hwp_bind. iApply (hwp_new_edge with "Hn"); [done|cbn; solve_len|]. iIntros "Hn". iApply hwp_ret. iApply "HQ".
    iExists (kvs1 ++ [(k, v)]), kvs3. rewrite -!(app_assoc kvs1) /=. iFrame "Hn". iPureIntro.
    split_and!; [done|done|f_equal; solve_len|by destruct b|done].
  - iDestruct (part_inner_inv with "Ht") as (kvs1 kvs2 kvs3 es1 cs es3 (Hc & Hp & H1 & H2 & H3 & _ & Hb & HR)) "[Hn Hcs]".
    destruct cs as [|[c [|kv Lc]] cs]; [done| |].
    + injection H2 as H2. cbn in HR. destruct kvs2 as [|kv kvs2]; [done|]. destruct cs as [|[c' Lc'] cs]; [done|].
      cbn in HR. injection HR as <- ->. cbn [pieces fst snd]. iDestruct "Hcs" as "(Hk & Hk' & Hcs)".
      iApply (hwp_emptied_front with "Hk"); [lia|]. replace (fuel - h) with (S (fuel - S h)) by lia. cbn [into_next_loop].
      iApply hwp_bind. iApply (hwp_right_kv with "Hn"); [done|]. iIntros "Hn". cbn [keys inner_node].
      rewrite H1 (proj2 (Nat.ltb_lt _ _)); [|solve_len].
      iApply hwp_bind. iApply (hwp_into_kv with "Hn"); [done|apply lookup_middle..|]. iIntros "Hn".
      iApply hwp_bind. iApply (hwp_new_edge with "Hn"); [done|cbn; solve_len|]. iIntros "Hn". cbn [idx hnode].
      iApply hwp_bind. iApply (hwp_descend with "Hn"); [done| |].
      { rewrite Nat.add_1_r -H1 /= cons_middle app_assoc -(last_length es1 c). by apply list_lookup_middle. }
      iIntros "Hn". rewrite /= Nat.sub_0_r. iApply hwp_bind. iApply (hwp_front_edge with "Hk'"); [done|]. iIntros (f') "Hk".
      iApply hwp_ret. iApply "HQ".
      iApply (part_inner _ _ _ _ _ _ (kvs1 ++ [(k, v)]) kvs2 kvs3 (es1 ++ [c]) ((c', Lc') :: cs) es3); [solve_len|done|solve_len|done || intros [=]..|].
      rewrite -!app_assoc last_length H1. cbn [pieces fst snd]. iFrame.
    + cbn in HR. injection HR as <- ->. cbn [pieces fst snd]. iDestruct "Hcs" as "[Hk Hcs]".
      iApply (IH with "Hk"); [lia|]. iIntros (f') "Hk". iApply "HQ".
      iApply (part_inner _ _ _ _ _ _ kvs1 kvs2 kvs3 es1 ((c, Lc) :: cs) es3); [done || intros [=]..|]. cbn [pieces fst snd]. iFrame.
Qed.

(** *** From the back *)

Lemma hwp_back_edge h : ∀ fuel p par pi f L Q, h ≤ fuel →
  part h p par pi f None L -∗ (∀ b, part h p par pi f (Some b) L -∗ Q b) -∗
  hwp (last_leaf_edge_loop fuel (NodeRef_ h p) : M _) Q.
Proof.
  induction h as [|h IH]; intros fuel p par pi f L Q Hf; iIntros "Ht HQ".
  - iDestruct "Ht" as (kvs1 kvs3 (Hc & Hp & Hf1 & ->)) "Hn". rewrite app_nil_r.
    assert (last_leaf_edge_loop fuel (NodeRef_ 0 p) = (last_edge (NodeRef_ 0 p) : M _)) as -> by by destruct fuel.
    iApply hwp_bind. iApply (hwp_len with "Hn"); [done|]. iIntros "Hn". cbn [keys leaf_node]. rewrite length_fmap.
    iApply (hwp_new_edge with "Hn"); [done|cbn; solve_len|]. iIntros "Hn". iApply "HQ". iExists kvs1, []. rewrite app_nil_r in Hc |- *. by iFrame.
  - destruct fuel as [|fuel]; [lia|].
    iDestruct (part_inner_inv with "Ht") as (kvs1 kvs2 kvs3 es1 cs es3 (Hc & Hp & H1 & H2 & H3 & Hf1 & Hb & ->)) "[Hn Hcs]".
    pose proof (Hb eq_refl) as ->. destruct es3; [|done]. apply snoc_inv in H2 as (cs' & c & -> & H2).
    rewrite pieces_snoc. iDestruct "Hcs" as "[Hcs Hk]".
    cbn [last_leaf_edge_loop force height]. iApply hwp_bind. iApply hwp_bind. iApply (hwp_len with "Hn"); [done|]. iIntros "Hn".
    iApply (hwp_new_edge with "Hn"); [done|done|]. iIntros "Hn". cbn [keys inner_node].
    iApply hwp_bind. iApply (hwp_descend with "Hn"); [done| |].
    { rewrite length_fmap !app_nil_r fmap_app app_assoc. apply list_lookup_middle. solve_len. }
    iIntros "Hn". rewrite /= Nat.sub_0_r. iApply (IH with "Hk"); [lia|]. iIntros (b) "Hk". iApply "HQ".
    iApply (part_inner _ _ _ _ _ _ kvs1 kvs2 [] es1 (cs' ++ [c]) []); [done..|solve_len|done|done|done|]. rewrite pieces_snoc. iFrame.
Qed.

Lemma hwp_emptied_back h : ∀ fuel b q i p Q, h ≤ fuel →
  part h p (Some q) (Some i) None (Some b) [] -∗
  hwp (into_next_back_loop (fuel - h) (Handle_ (NodeRef_ (S h) q) i)) Q -∗ hwp (take_back fuel b : M _) Q.
Proof.
  induction h as [|h IH]; intros fuel b q i p Q Hf; iIntros "Ht HQ".
  - iDestruct "Ht" as (kvs1 kvs3 (Hc & Hp & -> & ->)) "Hn". rewrite Nat.sub_0_r. iApply hwp_bind.
    iApply (hwp_left_kv with "Hn"); [done|cbn; lia|]. iIntros "Hn". cbn [app length Nat.ltb Nat.leb].
    iApply hwp_bind. cbn [hnode]. iApply (hwp_leave_leaf with "Hn"); [done|by right; eexists|]. iApply hwp_bind. by iApply hwp_expect.
  - iDestruct (part_inner_inv with "Ht") as (kvs1 kvs2 kvs3 es1 cs es3 (Hc & Hp & H1 & H2 & H3 & Hf1 & _ & HR)) "[Hn Hcs]".
    pose proof (Hf1 eq_refl) as ->. destruct es1; [|done].
    destruct cs as [|[c Lc] cs]; [done|]. injection H2 as H2. cbn in HR. symmetry in HR. apply app_nil in HR as [-> HR].
    destruct kvs2 as [|kv kvs2]; [|by destruct cs]. destruct cs; [|done]. cbn [pieces fst snd]. iDestruct "Hcs" as "[Hk _]".
    iApply (IH with "Hk"); [lia|]. replace (fuel - h) with (S (fuel - S h)) by lia. cbn [into_next_back_loop].
    iApply hwp_bind. iApply (hwp_left_kv with "Hn"); [done|cbn; lia|]. iIntros "Hn". cbn [app length Nat.ltb Nat.leb].
    iApply hwp_bind. cbn [hnode]. iApply (hwp_leave_inner with "Hn"); [done|by right; eexists|].
    iApply hwp_bind. by iApply hwp_expect.
Qed.

Lemma inter_last (Ls : list (list (K * V))) L kvs : length Ls = length kvs → inter (Ls ++ [L]) kvs = lefts Ls kvs ++ L.
Proof. intros H. rewrite -{1}(app_nil_r kvs) inter_focus //. by rewrite app_nil_r. Qed.

Lemma hwp_take_back h : ∀ fuel b p par pi f kv R Q, h ≤ fuel →
  part h p par pi f (Some b) (R ++ [kv]) -∗ (∀ b, part h p par pi f (Some b) R -∗ Q (b, kv)) -∗
  hwp (take_back fuel b : M _) Q.
Proof.
  induction h as [|h IH]; intros fuel b p par pi f [k v] R Q Hf; iIntros "Ht HQ".
  - iDestruct "Ht" as (kvs1 kvs3 (Hc & Hp & Hf1 & ->)) "Hn". rewrite -(app_assoc R) !(app_assoc kvs1 R) last_length.
    iApply hwp_bind. iApply (hwp_left_kv with "Hn"); [done|cbn; solve_len|]. iIntros "Hn". rewrite /= Nat.sub_0_r.
    iApply hwp_bind. iApply (hwp_into_kv with "Hn"); [done|apply lookup_middle..|]. iIntros "Hn".
    iApply hwp_bind. iApply (hwp_new_edge with "Hn"); [done|cbn; solve_len|]. iIntros "Hn". iApply hwp_ret. iApply "HQ".
    iExists kvs1, ((k, v) :: kvs3). rewrite -(app_assoc kvs1). iFrame "Hn". iPureIntro.
    split_and!; [solve_len|done|done|done|done].
  - iDestruct (part_inner_inv with "Ht") as (kvs1 kvs2 kvs3 es1 cs es3 (Hc & Hp & H1 & H2 & H3 & Hf1 & _ & HR)) "[Hn Hcs]".
    apply snoc_inv in H2 as (cs' & [c Lc] & -> & H2). rewrite pieces_snoc. cbn [fst snd]. iDestruct "Hcs" as "[Hcs Hk]".
    rewrite fmap_app inter_last ?length_fmap // in HR. cbn [snd] in HR.
    destruct Lc as [|kv Lc _] using rev_ind.
    + rewrite app_nil_r in HR. destruct kvs2 as [|kv kvs2 _] using rev_ind; [by destruct cs', R|].
      rewrite length_app Nat.add_1_r in H2. apply snoc_inv in H2 as (cs & [c' Lc'] & -> & H2).
      rewrite -inter_lefts in HR; [|rewrite length_fmap length_app; cbn; lia]. apply app_inj_tail in HR as [-> <-].
      rewrite pieces_snoc. iDestruct "Hcs" as "[Hcs Hk']". cbn [fst snd].
      iAssert (part h c (Some p) (Some (length es1 + length (cs ++ [(c', Lc')]))) None (Some b) []) with "[Hk]" as "Hk"; [by destruct cs|].
      iApply (hwp_emptied_back with "Hk"); [lia|]. replace (fuel - h) with (S (fuel - S h)) by lia. cbn [into_next_back_loop].
      rewrite last_length Nat.add_succ_r.
      iApply hwp_bind. iApply (hwp_left_kv with "Hn"); [done|cbn; solve_len|]. iIntros "Hn". rewrite /= Nat.sub_0_r.
      rewrite -(app_assoc kvs2) (app_assoc kvs1) H1 H2 -length_app.
      iApply hwp_bind. iApply (hwp_into_kv with "Hn"); [done|apply lookup_middle..|]. iIntros "Hn".
      iApply hwp_bind. iApply (hwp_new_edge with "Hn"); [done|cbn; solve_len|]. iIntros "Hn". cbn [idx hnode].
      rewrite !(fmap_app fst) -!(app_assoc cs.*1) (app_assoc es1). cbn [fmap list_fmap fst app].
      iApply hwp_bind. iApply (hwp_descend with "Hn"); [done|by apply list_lookup_middle; solve_len|].
      iIntros "Hn". rewrite /= Nat.sub_0_r. iApply hwp_bind. iApply (hwp_back_edge with "Hk'"); [done|]. iIntros (b') "Hk".
      iApply hwp_ret. iApply "HQ".
      iApply (part_inner _ _ _ _ _ _ kvs1 kvs2 ((k, v) :: kvs3) es1 (cs ++ [(c', Lc')]) (c :: es3)); [solve_len|done|done|solve_len|solve_len|done|done|].
      rewrite pieces_snoc (fmap_app fst) -!app_assoc H1 H2 -length_app. cbn [fst snd]. iFrame.
    + rewrite app_assoc in HR. apply app_inj_tail in HR as [-> <-].
      iApply (IH with "Hk"); [lia|]. iIntros (b') "Hk". iApply "HQ".
      rewrite -inter_last ?length_fmap // -(fmap_app snd cs' [(c, Lc)]).
      iApply (part_inner _ _ _ _ _ _ kvs1 kvs2 kvs3 es1 (cs' ++ [(c, Lc)]) es3); [done|done|done|solve_len|done|done|done|].
      rewrite pieces_snoc !fmap_app. cbn [fst snd]. iFrame.
Qed.

(** *** Dropping the rest *)

Lemma hwp_free_from h : ∀ fuel f p par pi b Q, h ≤ fuel → linked par pi →
  part h p par pi (Some f) b [] -∗
  match par with None => Q tt | Some q => hwp (free_loop (fuel - h) (NodeRef_ (S h) q)) Q end -∗
  hwp (free_from fuel (hnode f) : M unit) Q.
Proof.
  induction h as [|h IH]; intros fuel f p par pi b Q Hf Hl; iIntros "Ht HQ".
  - iDestruct "Ht" as (kvs1 kvs3 (Hc & Hp & -> & Hb)) "Hn". iApply hwp_bind. cbn [hnode].
    iApply (hwp_leave_leaf with "Hn"); [done|done|]. rewrite Nat.sub_0_r.
    destruct par as [q|]; [destruct Hl as [|[i ->]]; [done|]; iApply "HQ"|by iApply hwp_ret].
  - iDestruct (part_inner_inv with "Ht") as (kvs1 kvs2 kvs3 es1 cs es3 (Hc & Hp & H1 & H2 & H3 & Hf1 & _ & HR)) "[Hn Hcs]".
    destruct cs as [|[c Lc] cs]; [done|]. injection H2 as H2. cbn in HR. symmetry in HR. apply app_nil in HR as [-> HR].
    destruct kvs2 as [|kv kvs2]; [|by destruct cs]. destruct cs; [|done]. cbn [pieces fst snd]. iDestruct "Hcs" as "[Hk _]".
    iApply (IH with "Hk"); [lia|by right; eexists|]. replace (fuel - h) with (S (fuel - S h)) by lia. cbn [free_loop].
    iApply hwp_bind. iApply (hwp_leave_inner with "Hn"); [done|done|].
    destruct par as [q|]; [destruct Hl as [|[i ->]]; [done|]; iApply "HQ"|by iApply hwp_ret].
Qed.

Lemma part_leaf h : ∀ p par pi f b R, part h p par pi (Some f) b R ⊢ ⌜is_shared_root (hnode f) = false⌝.
Proof.
  induction h as [|h IH]; intros p par pi f b R; iIntros "H".
  - iDestruct "H" as (kvs1 kvs3 (_ & Hp & -> & _)) "_". iPureIntro. by apply not_shared.
  - iDestruct (part_inner_inv with "H") as (kvs1 kvs2 kvs3 es1 cs es3 (_ & _ & _ & Hcs & _)) "[_ H]".
    destruct cs as [|c cs]; [done|]. cbn [pieces]. iDestruct "H" as "[H _]". iApply (IH with "H").
Qed.

(** *** The iterator of a map *)

Definition rest_part (m : BTreeMap) (it : Iter) R : hProp N :=
  (⌜R = [] ∧ iter_length it = 0 ∧ hnode (front (range it)) = root_ref shared_empty_root⌝ ∧ emp) ∨
  ∃ f b pi, ⌜it = Iter_ (Range_ f b) (length R)⌝ ∧ part (root_height (root m)) (root_node (root m)) None pi (Some f) (Some b) R.

Lemma hwp_into_iter m L Q : map_at m (length L) L -∗ (∀ it, rest_part m it L -∗ Q it) -∗ hwp (into_iter m : M _) Q.
Proof.
  iIntros "[[%Hn %Hs] [H|H]] HQ".
  - iDestruct "H" as ((Hr & -> & Hz)) "_".
    iApply (hwp_ext (mret (Iter_ (Range_ (Handle_ (root_ref (root m)) 0) (Handle_ (root_ref (root m)) 0)) (length_ m)))).
    { intros s. by rewrite /into_iter /BTreeIter.iter Hr. }
    iApply hwp_ret. iApply "HQ". iLeft. iSplit; [|done]. iPureIntro. by rewrite Hr.
  - iDestruct "H" as (pi) "Ht". rewrite part_whole. iApply hwp_bind. iApply (hwp_front_edge with "Ht"); [done|]. iIntros (f) "Ht".
    iApply hwp_bind. iApply (hwp_back_edge with "Ht"); [done|]. iIntros (b) "Ht". iApply hwp_ret. rewrite Hn. iApply "HQ".
    iRight. iExists f, b, pi. by iFrame.
Qed.

Lemma hwp_part_next m it R Q : rest_part m it R -∗ (∀ it, rest_part m it (tail R) -∗ Q (it, head R)) -∗
  hwp (into_next (root_height (root m)) it : M _) Q.
Proof.
  iIntros "[H|H] HQ".
  - iDestruct "H" as ((-> & Hl & Hf)) "_". unfold into_next. rewrite Hl. iApply hwp_ret. iApply "HQ". by iLeft; iSplit.
  - iDestruct "H" as (f b pi ->) "H". destruct R as [|kv R].
    + iApply hwp_ret. iApply "HQ". iRight. iExists f, b, pi. by iFrame.
    + iApply hwp_ext; [intros s; symmetry; apply into_next_take|]. iApply hwp_bind. iApply (hwp_take_front with "H"); [done|].
      iIntros (f') "H". iApply hwp_ret. iApply "HQ". iRight. iExists f', b, pi. by iFrame.
Qed.
Lemma hwp_part_next_back m it R Q : rest_part m it R -∗ (∀ it, rest_part m it (removelast R) -∗ Q (it, last R)) -∗
  hwp (into_next_back (root_height (root m)) it : M _) Q.
Proof.
  iIntros "[H|H] HQ".
  - iDestruct "H" as ((-> & Hl & Hf)) "_". unfold into_next_back. rewrite Hl. iApply hwp_ret. iApply "HQ". by iLeft; iSplit.
  - iDestruct "H" as (f b pi ->) "H". destruct R as [|kv R _] using rev_ind.
    + iApply hwp_ret. iApply "HQ". iRight. iExists f, b, pi. by iFrame.
    + rewrite removelast_last last_snoc length_app Nat.add_1_r.
      iApply hwp_ext; [intros s; symmetry; apply into_next_back_take|]. iApply hwp_bind. iApply (hwp_take_back with "H"); [done|].
      iIntros (b') "H". iApply hwp_ret. iApply "HQ". iRight. iExists f, b', pi. by iFrame.
Qed.

Lemma hwp_part_pulls m calls : ∀ it R Q, rest_part m it R -∗ (∀ it, rest_part m it (left_of calls R) -∗ Q (it, deque calls R)) -∗
  hwp (pulls (into_next (root_height (root m))) (into_next_back (root_height (root m))) calls it : M _) Q.
Proof.
  induction calls as [|[] calls IH]; intros it R Q; iIntros "H HQ"; cbn [pulls deque left_of].
  - iApply hwp_ret. by iApply "HQ".
  - iApply hwp_bind. iApply (hwp_part_next_back with "H"). iIntros (it') "H". iApply hwp_bind. iApply (IH with "H").
    iIntros (it'') "H". iApply hwp_ret. by iApply "HQ".
  - iApply hwp_bind. iApply (hwp_part_next with "H"). iIntros (it') "H". iApply hwp_bind. iApply (IH with "H").
    iIntros (it'') "H". iApply hwp_ret. by iApply "HQ".
Qed.

Lemma rest_part_length m it R : rest_part m it R ⊢ ⌜iter_length it = length R⌝.
Proof. iIntros "[H|H]"; [iDestruct "H" as ((-> & Hl & _)) "_"|iDestruct "H" as (f b pi ->) "_"]; done. Qed.

Lemma hwp_part_loop m R : ∀ it Q, rest_part m it R -∗ (∀ it, rest_part m it [] -∗ Q (it, R)) -∗
  hwp (into_loop (length R) (root_height (root m)) it : M _) Q.
Proof.
  induction R as [|kv R IH]; intros it Q; iIntros "H HQ"; cbn [length into_loop].
  all: iApply hwp_bind; iApply (hwp_part_next with "H"); iIntros (it') "H"; cbn [head tail].
  - iApply hwp_ret. by iApply "HQ".
  - iApply hwp_bind. iApply (IH with "H"). iIntros (it'') "H". iApply hwp_ret. by iApply "HQ".
Qed.

Lemma hwp_part_drop m it R Q : rest_part m it R -∗ Q R -∗ hwp (IntoIter_drop (root_height (root m)) it : M _) Q.
Proof.
  iIntros "H HQ". iDestruct (rest_part_length with "H") as %Hl. unfold IntoIter_drop. rewrite Hl.
  iApply hwp_bind. iApply (hwp_part_loop with "H"). iIntros (it') "[H|H]".
  - iDestruct "H" as ((_ & _ & ->)) "_". by iApply hwp_ret.
  - iDestruct "H" as (f b pi ->) "H". cbn [range front].
    iDestruct (part_leaf with "H") as %->.
    iApply hwp_assoc. iApply (hwp_free_from with "H"); [done|by left|]. by iApply hwp_ret.
Qed.
End parts.

(** ** Taking from both ends, and dropping the rest *)

Section drain.
Context {K V A : Type} `{!EqDecision K, !Countable K, !Ord K, !GlobalAlloc NodeLayout A}.
#[local] Abbreviation N := (Node K V).
#[local] Abbreviation M := (M (store N A)).

(** What the calls of [next] and [next_back] answer, and the entries that [drop] drops. *)
Definition drain (m : BTreeMap) (calls : list bool) : M (list (option (K * V)) * list (K * V)) :=
  it ← into_iter m;
  '(it, xs) ← pulls (into_next (root_height (root m))) (into_next_back (root_height (root m))) calls it;
  rest ← IntoIter_drop (root_height (root m)) it;
  mret (xs, rest).

Lemma hwp_drain m calls L Q : map_at m (length L) L -∗ Q (deque calls L, left_of calls L) -∗ hwp (drain m calls : M _) Q.
Proof.
  iIntros "Hm HQ". iApply hwp_bind. iApply (hwp_into_iter with "Hm"). iIntros (it) "H".
  iApply hwp_bind. iApply (hwp_part_pulls with "H"). iIntros (it') "H".
  iApply hwp_bind. iApply (hwp_part_drop with "H"). by iApply hwp_ret.
Qed.

Lemma drain_refines m (X : gmap K V) F (s : store N A) calls : is_map m (size X) X F s →
  ∃ L s', drain m calls s = Ret ((deque calls L, left_of calls L), s') ∧ sorted L ∧ X = list_to_map L ∧
    holds F (cells s') ∧ al_inv (live (cells s')) (al s').
Proof.
  intros (L & HX & Hm & Hi). pose proof (map_at_counted _ _ _ _ _ Hm) as (_ & Hs & _).
  assert (size X = length L) as Hn by (by rewrite HX size_to_map; [|apply sorted_NoDup]).
  destruct (run_framed (drain m calls) (map_at m (size X) L) (λ x, ⌜x = (deque calls L, left_of calls L)⌝ ∧ emp)%I F s)
    as (x & s' & Hrun & [-> Hh]%holds_pure & Hi'); [|done|done|].
  - rewrite Hn. iIntros "Hm". iApply (hwp_drain with "Hm"). by iSplit.
  - exists L, s'. split_and!; [done..| |done].
    destruct Hh as (h1 & h2 & -> & Hd & Hemp & HF). change (h1 = ∅) in Hemp. subst h1. by rewrite left_id_L.
Qed.
End drain.

(** Concretely: forty entries, taken from both ends across several nodes until the ends
    meet; no node is left behind. *)
Example drained :
  match run_ops BTreeMap_new (fill 40) (bump_store []) with
  | Ret ((m, _), s) =>
      match drain m (flat_map (λ _, [true; false; true]) (seq 0 12)) s with
      | Ret ((xs, rest), s') => (nth 2 xs None, nth 35 xs None, length rest, rest.*1, bool_decide (cells s' = ∅))
      | _ => (None, None, 0, [], false)
      end
  | _ => (None, None, 0, [], false)
  end = (Some (38, 38), Some (16, 16), 4%nat, [12; 13; 14; 15], true)%Z.
Proof. by vm_compute. Qed.
