(* ===== verification/BTreePlaces.v ===== *)
(** * BTreePlaces: references into a B-tree

    A reference to a value is a node and an index.  Whatever node of a tree it names,
    it is the place of one entry ([root_found]) or, for an edge of a leaf, of one gap
    between the entries ([root_gap]): this is what makes a pointer that outlives the
    step it came from ([out_ptr] of [VacantEntry::insert], the places handed out by a
    mutable iterator) good for reading and writing. *)

From S2P Require Import Prelude HeapLogic Node BTree Readonly NodeSpec BTreeSpec Rebalance BTreeRemove BTreeIter BTreeRange.
From iris.proofmode Require Import proofmode.
From iris.prelude Require Import options.

#[local] Open Scope nat_scope.

Section places.
Context {K V A : Type} `{!Ord K, !GlobalAlloc NodeLayout A}.
#[local] Abbreviation N := (Node K V).
#[local] Abbreviation M := (M (store N A)).
#[local] Notation "p ↦ n" := (points_to p n) (at level 20) : bi_scope.
Implicit Types (L W : list (K * V)) (kvs : list (K * V)) (cs : list (Z * list (K * V))) (P R : hProp N).

(** The node [n] at [q], somewhere in a part of the heap. *)
Definition has (q : Z) (n : N) : hProp N := HProp (λ h, h !! q = Some n).

Lemma has_sep P R q n : (P ∗ R) ∧ has q n ⊢ ((P ∧ has q n) ∗ R) ∨ (P ∗ (R ∧ has q n)).
Proof.
  split. intros h [(h1 & h2 & -> & Hd & HP & HR) Hq]. cbn in Hq.
  apply lookup_union_Some in Hq as [Hq|Hq]; [left|right|done]; exists h1, h2; by split_and!.
Qed.
Lemma has_points p n' q n : (p ↦ n') ∧ has q n ⊢ ⌜q = p ∧ n = n'⌝ ∧ p ↦ n'.
Proof. split. intros h [Hp Hq]. split; [|done]. cbn in *. subst h. by apply lookup_singleton_Some in Hq as [-> ->]. Qed.
Lemma has_emp q n : emp ∧ has q n ⊢ False.
Proof. split. intros h [-> Hq]. done. Qed.

Lemma children_has h q0 cs : ∀ i q n, children h q0 i cs ∧ has q n ⊢
  ∃ cs1 c cs2, ⌜cs = cs1 ++ c :: cs2⌝ ∧ children h q0 i cs1 ∗
    (tree_at h 4 c.1 (Some q0) (Some (i + length cs1)) c.2 ∧ has q n) ∗ children h q0 (S (i + length cs1)) cs2.
Proof.
  induction cs as [|c cs IH]; intros i q n.
  - rewrite /children /=. iIntros "H". by iDestruct (has_emp with "H") as %?.
  - rewrite children_cons has_sep. iIntros "[[Hc Hcs]|[Hc Hcs]]".
    + iExists [], c, cs. iSplit; [done|]. rewrite Nat.add_0_r. iFrame. by rewrite /children.
    + iDestruct (IH with "Hcs") as (cs1 c' cs2 ->) "(H1 & Ht & H2)". iExists (c :: cs1), c', cs2. iSplit; [done|].
      rewrite children_cons /= Nat.add_succ_r. iFrame.
Qed.

(** A node of a tree, with what is around it. *)
Definition node_in (r : Root) W q n : hProp N :=
  (∃ d par pi A' B' kvs, ⌜W = A' ++ kvs ++ B' ∧ n = leaf_node par pi kvs⌝ ∧
     ctx_at d 0 q par pi r A' B' ∗ tree_at 0 (least d 0) q par pi kvs) ∨
  (∃ d h par pi A' B' kvs cs,
     ⌜W = A' ++ inter cs.*2 kvs ++ B' ∧ n = inner_node par pi kvs cs.*1 ∧ length cs = S (length kvs) ∧
      least d (S h) ≤ length kvs ≤ CAPACITY ∧ (STATIC_END <= q)%Z⌝ ∧
     ctx_at d (S h) q par pi r A' B' ∗ q ↦ inner_node par pi kvs cs.*1 ∗ children h q 0 cs).

Lemma tree_has h : ∀ d p par pi r L1 L L2 q n,
  ctx_at d h p par pi r L1 L2 -∗ tree_at h (least d h) p par pi L ∧ has q n -∗ node_in r (L1 ++ L ++ L2) q n.
Proof.
  induction h as [|h IH]; intros d p par pi r L1 L L2 q n; iIntros "Hc Ht".
  - iAssert ⌜q = p ∧ n = leaf_node par pi L⌝%I as %[-> ->].
    { iAssert ((p ↦ leaf_node par pi L) ∧ has q n)%I with "[Ht]" as "H".
      { iSplit; [iDestruct "Ht" as "[[_ $] _]"|iDestruct "Ht" as "[_ $]"]. }
      by iDestruct (has_points with "H") as "[% _]". }
    iDestruct "Ht" as "[Ht _]". iLeft. iExists d, par, pi, L1, L2, L. iSplit; [done|]. iFrame.
  - iAssert (∃ kvs cs, ⌜least d (S h) ≤ length kvs ≤ CAPACITY ∧ (STATIC_END <= p)%Z ∧ length cs = S (length kvs) ∧ L = inter cs.*2 kvs⌝ ∧
      ((p ↦ inner_node par pi kvs cs.*1 ∗ children h p 0 cs) ∧ has q n))%I with "[Ht]" as (kvs cs (Hl & Hp & Hcs & ->)) "H".
    { rewrite tree_inner_inv bi.and_exist_r. iDestruct "Ht" as (kvs) "H". rewrite bi.and_exist_r. iDestruct "H" as (cs) "H".
      iExists kvs, cs. rewrite -assoc. iFrame. }
    rewrite has_sep. iDestruct "H" as "[[H Hcs]|[Hn H]]".
    + iDestruct (has_points with "H") as "[%H Hn]". destruct H as [-> ->]. iRight.
      iExists d, h, par, pi, L1, L2, kvs, cs. iSplit; [done|]. iFrame.
    + iDestruct (children_has with "H") as (cs1 [c Lc] cs2 ->) "(H1 & Ht & H2)". cbn [Nat.add fst snd].
      destruct (split_length kvs (length cs1) (length cs2)) as (kvs1 & kvs2 & -> & Hk1 & Hk2); [solve_len|].
      rewrite (fmap_app snd) fmap_cons inter_focus ?length_fmap //.
      iDestruct (IH (S d) c _ _ r (L1 ++ lefts cs1.*2 kvs1) Lc (rights kvs2 cs2.*2 ++ L2) q n with "[Hn H1 H2 Hc] Ht") as "H".
      { cbn [ctx_at]. iExists p, par, pi, kvs1, kvs2, cs1, cs2, L1, L2.
        iSplit; [iPureIntro; split_and!; (done || solve_len)|]. rewrite fmap_app. iFrame. }
      by rewrite -!app_assoc.
Qed.

Lemma root_has r W q n : root_at r W ∧ has q n ⊢ node_in r W q n.
Proof.
  iIntros "H". unfold root_at. rewrite bi.and_exist_r. iDestruct "H" as (pi) "H".
  iDestruct (tree_has _ 0 _ None pi r [] W [] with "[] H") as "H"; [|by rewrite app_nil_r].
  cbn [ctx_at]. iSplit; [|done]. iPureIntro. by destruct r.
Qed.

(** The place of an entry. *)
Lemma root_found r W q n i k v : keys n !! i = Some k → vals n !! i = Some v →
  root_at r W ∧ has q n ⊢ ∃ h W1 W2, ⌜W = W1 ++ (k, v) :: W2⌝ ∧ found_at r (Handle_ (NodeRef_ h q) i) k v W1 W2.
Proof.
  assert (∀ kvs, kvs.*1 !! i = Some k → kvs.*2 !! i = Some v →
    ∃ kvs1 kvs2, kvs = kvs1 ++ (k, v) :: kvs2 ∧ length kvs1 = i) as Hsplit.
  { intros kvs Hk Hv. rewrite !list_lookup_fmap in Hk, Hv. destruct (kvs !! i) as [[k' v']|] eqn:E; [|done].
    injection Hk as ->. injection Hv as ->. exists (take i kvs), (drop (S i) kvs). split.
    - symmetry. by apply take_drop_middle.
    - rewrite length_take. apply lookup_lt_Some in E. lia. }
  intros Hk Hv. rewrite root_has. iIntros "[H|H]".
  - iDestruct "H" as (d par pi A' B' kvs (-> & ->)) "[Hc Ht]". cbn in Hk, Hv.
    destruct (Hsplit kvs Hk Hv) as (kvs1 & kvs2 & -> & <-). iExists 0, (A' ++ kvs1), (kvs2 ++ B').
    iSplit; [iPureIntro; by rewrite -!app_assoc|]. iLeft. iExists d, q, par, pi, A', B', kvs1, kvs2. iSplit; [done|]. iFrame.
  - iDestruct "H" as (d h par pi A' B' kvs cs (-> & -> & Hcs & Hl & Hq)) "(Hc & Hn & Hcs)". cbn in Hk, Hv.
    destruct (Hsplit kvs Hk Hv) as (kvs1 & kvs2 & -> & <-).
    destruct (split_length cs (length kvs1) (2 + length kvs2)) as (cs1 & [|c [|c' cs2]] & -> & H1 & [=H2]); [solve_len|].
    rewrite (fmap_app snd) !fmap_cons inter_kv ?length_fmap //.
    iExists (S h), (A' ++ lefts cs1.*2 kvs1 ++ c.2), (c'.2 ++ rights kvs2 cs2.*2 ++ B').
    iSplit; [iPureIntro; by rewrite -!app_assoc /= -!app_assoc|]. iRight.
    iExists d, h, q, par, pi, A', B', kvs1, kvs2, cs1, c, c', cs2. iFrame.
    iPureIntro. rewrite length_app in Hl. cbn [length] in Hl. split_and!; (done || lia).
Qed.

(** An edge of a leaf. *)
Lemma root_gap r W q n i : edges n = None → i ≤ length (keys n) →
  root_at r W ∧ has q n ⊢ ∃ W1 W2, ⌜W = W1 ++ W2⌝ ∧ godown_at r (Handle_ (NodeRef_ 0 q) i) W1 W2.
Proof.
  intros He Hi. rewrite root_has. iIntros "[H|H]".
  - iDestruct "H" as (d par pi A' B' kvs (-> & ->)) "[Hc Ht]". cbn in Hi. rewrite length_fmap in Hi.
    iExists (A' ++ take i kvs), (drop i kvs ++ B'). iSplit; [iPureIntro; by rewrite -app_assoc (app_assoc (take i kvs)) take_drop|].
    iExists d, q, par, pi, A', B', (take i kvs), (drop i kvs). rewrite take_drop. iFrame.
    iPureIntro. split_and!; [|done..]. f_equal. rewrite length_take. lia.
  - iDestruct "H" as (d h par pi A' B' kvs cs (-> & -> & _)) "H". done.
Qed.

(** ** Edges of leaves as positions *)

(** The edge with number [i] in the tree of [r]. *)
Definition gap_at (c : gmap Z N) (r : Root) (i : nat) (hd : Handle) : Prop :=
  gaps c (root_height r) (root_node r) !! i = Some hd.

Lemma godown_gap_at r hd W1 W2 R (c : gmap Z N) : holds (godown_at r hd W1 W2 ∗ R)%I c → gap_at c r (length W1) hd.
Proof.
  intros H. apply holds_sep in H as (h1 & h2 & Hc & _ & _ & Hg & _). by destruct (godown_gap r hd W1 W2 h1 c Hg Hc).
Qed.

Lemma gap_at_godown r hd W1 W2 R (c : gmap Z N) : holds (root_at r (W1 ++ W2) ∗ R)%I c → gap_at c r (length W1) hd →
  holds (godown_at r hd W1 W2 ∗ R)%I c.
Proof.
  intros (h1 & h2 & -> & Hd & Hr & HR) Hg. exists h1, h2. split_and!; [done..| |done].
  assert (h1 ⊆ h1 ∪ h2) as Hc by apply map_union_subseteq_l. pose proof Hr as [pi Ht].
  destruct (tree_has_gaps _ _ _ _ _ _ _ (h1 ∪ h2) Ht Hc) as (_ & Hnd & Hin).
  destruct (Hin hd) as (n & Hn & He & Hh & Hi); [by eapply list_elem_of_lookup_2|].
  assert (holds (root_at r (W1 ++ W2) ∧ has (node (hnode hd)) n)%I h1) as Hhas by done.
  eapply holds_entails in Hhas; [|by apply (root_gap _ _ _ _ (idx hd))].
  destruct Hhas as (W1' & W2' & HW & Hgo). destruct hd as [[h p] i]. cbn in *. subst h.
  destruct (godown_gap _ _ _ _ _ (h1 ∪ h2) Hgo Hc) as [Hg' _].
  assert (length W1 = length W1') as Hl by (eapply NoDup_lookup; [exact Hnd|exact Hg|exact Hg']).
  by apply app_inj_1 in HW as [-> ->].
Qed.

Lemma gap_at_inj r W R (c : gmap Z N) i j hd hd' : holds (root_at r W ∗ R)%I c → gap_at c r i hd → gap_at c r j hd' →
  handle_eq hd hd' = bool_decide (i = j).
Proof.
  intros H Hi Hj. apply holds_sep in H as (h1 & h2 & Hc & _ & _ & [pi Ht] & _).
  destruct (tree_has_gaps _ _ _ _ _ _ _ c Ht Hc) as (_ & Hnd & Hin).
  destruct (Hin hd) as (_ & _ & _ & Hh & _); [by eapply list_elem_of_lookup_2|].
  destruct (Hin hd') as (_ & _ & _ & Hh' & _); [by eapply list_elem_of_lookup_2|].
  apply eq_true_iff_eq. unfold handle_eq. rewrite bool_decide_eq_true andb_true_iff bool_decide_eq_true Nat.eqb_eq.
  destruct hd as [[h p] a], hd' as [[h' p'] a']. cbn in *. subst h h'. split.
  - intros [-> ->]. by eapply NoDup_lookup.
  - intros ->. unfold gap_at in *. rewrite Hi in Hj. by injection Hj as -> ->.
Qed.

(** They depend on the shape of the nodes only. *)
Definition shape (n : N) : nat * option (list Z) := (length (keys n), edges n).
Lemma gaps_shape (c c' : gmap Z N) : shape <$> c = shape <$> c' → ∀ h p, gaps c h p = gaps c' h p.
Proof.
  intros H. assert (∀ p, shape <$> c !! p = shape <$> c' !! p) as Hp by (intros p; by rewrite -!lookup_fmap H).
  induction h as [|h IH]; intros p; specialize (Hp p); cbn [gaps]; destruct (c !! p) as [n|], (c' !! p) as [n'|]; try done;
    injection Hp as Hl He.
  - by rewrite Hl.
  - rewrite He. apply list_bind_ext; [apply IH|done].
Qed.
Lemma gap_at_shape (c c' : gmap Z N) r i hd : shape <$> c = shape <$> c' → gap_at c r i hd → gap_at c' r i hd.
Proof. unfold gap_at. intros H. by rewrite (gaps_shape c c' H). Qed.
End places.
