(* ===== verification/BTreeEntry.v ===== *)
(** * BTreeEntry: entries of a B-tree map, and sets in the shape of a map ([map.rs])

    [Entry] and its two halves: looking at a key once, and then changing, inserting or
    removing.  A reference to a value is its place, a node and an index; the one that
    [or_insert] returns may have been made before nodes were split, and is good
    nonetheless.  [Recover] is the interface of a set: a map to units whose keys can be
    looked at, taken and replaced. *)

From S2P Require Import Prelude HeapLogic Node BTree Readonly Keeps NodeSpec BTreeSpec Rebalance BTreeRemove BTreeIter.
From S2P Require Import BTreeRefine BTreeRange BTreePlaces.
From iris.proofmode Require Import proofmode.
From iris.prelude Require Import options.

#[local] Open Scope nat_scope.

(** [core::default::Default] *)
Class Default (V : Type) := default_value : V.

Section definitions.
Context {K V A : Type} `{!Ord K, !GlobalAlloc NodeLayout A}.
#[local] Abbreviation M := (M (store (Node K V) A)).

(** Reading and writing at a place. *)
Definition place_of (h : Handle) : Z * nat := (node (hnode h), idx h).
Definition place_read (p : Z * nat) : M V := n ← load p.1; get_unchecked (vals n) p.2.
Definition place_write (p : Z * nat) (v : V) : M unit := update p.1 (λ n, set_kvs (keys n) (<[p.2 := v]> (vals n)) n).

(** [OccupiedEntry]: [key], [get_mut], [into_mut], [remove_entry] and [remove]. *)
Definition occupied_key (h : Handle) : M K := kv ← into_kv h; mret kv.1.
Definition occupied_get_mut (h : Handle) : M (Z * nat) := _ ← into_kv h; mret (place_of h).
Definition into_mut (h : Handle) : M (Z * nat) := _ ← into_kv h; mret (place_of h).
Definition remove_entry (m : BTreeMap) (h : Handle) : M (BTreeMap * (K * V)) := remove_kv m h.
Definition occupied_remove (m : BTreeMap) (h : Handle) : M (BTreeMap * V) := '(m, kv) ← remove_kv m h; mret (m, kv.2).

(** [VacantEntry]: [key] and [into_key]; [Entry::key]. *)
Definition vacant_key (key : K) : K := key.
Definition into_key (key : K) : K := key.
Definition entry_key (e : Entry) : M K :=
  match e with Occupied h => occupied_key h | Vacant key _ => mret (vacant_key key) end.

(** [Entry]: [or_insert], [or_insert_with], [or_default] and [and_modify]. *)
Definition or_insert (m : BTreeMap) (e : Entry) (default : V) : M (BTreeMap * result (Z * nat) AllocErr) :=
  match e with
  | Occupied h => p ← into_mut h; mret (m, Ok p)
  | Vacant key h => vacant_insert m h key default
  end.
Definition or_insert_with (m : BTreeMap) (e : Entry) (default : unit → V) : M (BTreeMap * result (Z * nat) AllocErr) :=
  match e with
  | Occupied h => p ← into_mut h; mret (m, Ok p)
  | Vacant key h => vacant_insert m h key (default tt)
  end.
Definition or_default `{!Default V} (m : BTreeMap) (e : Entry) : M (BTreeMap * result (Z * nat) AllocErr) :=
  match e with
  | Occupied h => p ← into_mut h; mret (m, Ok p)
  | Vacant key h => vacant_insert m h key default_value
  end.
Definition and_modify (f : V → V) (e : Entry) : M (Entry (K := K)) :=
  match e with
  | Occupied h => p ← occupied_get_mut h; v ← place_read p; _ ← place_write p (f v); mret (Occupied h)
  | Vacant key h => mret (Vacant key h)
  end.

(** [BTreeMap]'s [Index] and [Default]. *)
Definition index (m : BTreeMap) (key : K) : M V := v ← get m key; expect v "no entry found for key".
Definition BTreeMap_default : BTreeMap := BTreeMap_new.

(** [map.entry(key)?.and_modify(f).or_insert(default)] *)
Definition entry_update (m : BTreeMap) (key : K) (f : V → V) (default : V) : M (BTreeMap * result (Z * nat) AllocErr) :=
  '(m, res) ← entry m key;
  match res with
  | Err e => mret (m, Err e)
  | Ok e => e ← and_modify f e; or_insert m e default
  end.
(** [map.entry(key)?], and the entry removed if there is one. *)
Definition entry_remove (m : BTreeMap) (key : K) : M (BTreeMap * result (option (K * V)) AllocErr) :=
  '(m, res) ← entry m key;
  match res with
  | Err e => mret (m, Err e)
  | Ok (Occupied h) => '(m, kv) ← remove_entry m h; mret (m, Ok (Some kv))
  | Ok (Vacant _ _) => mret (m, Ok None)
  end.
End definitions.

(** ** [Recover], for a map to units *)

Section recover.
Context {K A : Type} `{!Ord K, !GlobalAlloc NodeLayout A}.
#[local] Abbreviation M := (M (store (Node K unit) A)).

Definition recover_get (m : BTreeMap) (key : K) : M (option K) :=
  r ← search_tree (root_ref (root m)) key;
  match r with
  | Found h => kv ← into_kv h; mret (Some kv.1)
  | GoDown _ => mret None
  end.
Definition recover_take (m : BTreeMap) (key : K) : M (BTreeMap * option K) :=
  r ← search_tree (root_ref (root m)) key;
  match r with
  | Found h => '(m, kv) ← remove_kv m h; mret (m, Some kv.1)
  | GoDown _ => mret (m, None)
  end.
Definition recover_replace (m : BTreeMap) (key : K) : M (BTreeMap * result (option K) AllocErr) :=
  '(m, res) ← ensure_root_is_owned m;
  match res with
  | Err e => mret (m, Err e)
  | Ok _ =>
      r ← search_tree (root_ref (root m)) key;
      match r with
      | Found h => old ← into_kv h; _ ← replace_kv h key tt; mret (m, Ok (Some old.1))
      | GoDown h =>
          '(m, res) ← vacant_insert m h key tt;
          mret (m, match res with Ok _ => Ok None | Err e => Err e end)
      end
  end.
End recover.

(** ** Places are good for reading and writing *)

Section places.
Context {K V A : Type} `{!EqDecision K, !Countable K, !Ord K, !GlobalAlloc NodeLayout A}.
#[local] Abbreviation N := (Node K V).
#[local] Abbreviation M := (M (store N A)).
Implicit Types (L : list (K * V)) (X : gmap K V) (F : hProp N) (s : store N A).

(** The map has the entry of [key] at the place [p]. *)
Definition placed (m : BTreeMap) n (p : Z * nat) key v L1 L2 : hProp N :=
  ∃ h, ⌜length_ m = n ∧ counted n (L1 ++ (key, v) :: L2)⌝ ∧ found_at (root m) (Handle_ (NodeRef_ h p.1) p.2) key v L1 L2.

Lemma found_placed m n h key v L1 L2 : length_ m = n → counted n (L1 ++ (key, v) :: L2) →
  found_at (root m) h key v L1 L2 ⊢ placed m n (place_of h) key v L1 L2.
Proof. intros Hn Hs. destruct h as [[h p] i]. iIntros "H". iExists h. by iSplit. Qed.

(** A value put into a leaf is the one of the map's entry, however nodes have been
    split since. *)
Lemma leaf_placed m n p key v W : length_ m = n → counted n W → root_at (root m) W ∧ leaf_has p key v ⊢
  ∃ L1 L2, ⌜W = L1 ++ (key, v) :: L2⌝ ∧ placed m n p key v L1 L2.
Proof.
  intros Hn Hs. split. intros h [Hr (nd & Hnd & _ & Hk & Hv)].
  assert (holds (root_at (root m) W ∧ has p.1 nd)%I h) as Hh by done.
  eapply holds_entails in Hh; [|by apply (root_found _ _ _ _ _ _ _ Hk Hv)].
  destruct Hh as (hh & W1 & W2 & -> & Hf). exists W1, W2. split; [done|]. by exists hh.
Qed.

Lemma placed_map m n p key v L1 L2 : placed m n p key v L1 L2 ⊢ map_at m n (L1 ++ (key, v) :: L2).
Proof. iIntros "(%h & %H & Hf)". destruct H as [Hn Hs]. iApply map_at_root; [done..|]. by iApply found_close. Qed.

Lemma hwp_place_read m n p key v L1 L2 : placed m n p key v L1 L2 ⊢ hwp (place_read p : M V) (λ x, ⌜x = v⌝ ∧ placed m n p key v L1 L2).
Proof.
  iIntros "(%h & %H & Hf)". iDestruct (found_open with "Hf") as (nd (Hp & Hk & Hv)) "[Hn Hclose]". cbn [hnode node idx] in *.
  iApply hwp_bind. iApply (hwp_load with "Hn"). iIntros "Hn". iApply hwp_get_unchecked; [done|]. iSplit; [done|].
  iExists h. iSplit; [done|]. iApply "Hclose". rewrite !list_insert_id //. by destruct nd.
Qed.

Lemma hwp_place_write m n p key v u L1 L2 : placed m n p key v L1 L2 ⊢ hwp (place_write p u : M unit) (λ _, placed m n p key u L1 L2).
Proof.
  iIntros "(%h & %H & Hf)". destruct H as [Hn Hs]. iDestruct (found_open with "Hf") as (nd (Hp & Hk & Hv)) "[Hnd Hclose]".
  cbn [hnode node idx] in *. iApply (hwp_update with "Hnd"); [done|]. iIntros "Hnd".
  iExists h. iSplit; [iPureIntro; split; [done|by eapply counted_replace]|]. iApply "Hclose". by rewrite (list_insert_id (keys nd)).
Qed.

Lemma hwp_found_kv_read r h k v L1 L2 Q : found_at r h k v L1 L2 -∗ (found_at r h k v L1 L2 -∗ Q (k, v)) -∗ hwp (into_kv h : M _) Q.
Proof.
  iIntros "H HQ". iApply (hwp_look _ (found_at r h k v L1 L2) (λ x, x = (k, v)) with "H"); [auto with readonly| |by iIntros (x ->)].
  apply hwp_found_read.
Qed.

Lemma hwp_and_modify f (m : BTreeMap) n h key v L1 L2 Q : length_ m = n → counted n (L1 ++ (key, v) :: L2) →
  found_at (root m) h key v L1 L2 -∗ (found_at (root m) h key (f v) L1 L2 -∗ Q (Occupied h)) -∗
  hwp (and_modify f (Occupied h) : M _) Q.
Proof.
  iIntros (Hn Hs) "Hf HQ". iApply hwp_bind. iApply hwp_bind. iApply (hwp_found_kv_read with "Hf"). iIntros "Hf".
  iApply hwp_ret. iDestruct (found_open with "Hf") as (nd (Hp & Hk & Hv)) "[Hnd Hclose]".
  iApply hwp_bind. iApply hwp_bind. iApply (hwp_load with "Hnd"). iIntros "Hnd". iApply hwp_get_unchecked; [done|].
  iApply hwp_bind. iApply (hwp_update with "Hnd"); [done|]. iIntros "Hnd". iApply hwp_ret. iApply "HQ". iApply "Hclose".
  by rewrite (list_insert_id (keys nd)).
Qed.

(** What [entry(key)?.and_modify(f).or_insert(d)] leaves. *)
Definition entry_updated m n L key f d : BTreeMap * result (Z * nat) AllocErr → hProp N := λ '(m', res),
  match res with
  | Ok p =>
      (∃ L1 v L2, ⌜L = L1 ++ (key, v) :: L2⌝ ∧ placed m' n p key (f v) L1 L2) ∨
      (∃ L1 L2 W1 W2, ⌜L = L1 ++ L2 ∧ below key L1 ∧ above key L2 ∧ L1 ++ (key, d) :: L2 = W1 ++ (key, d) :: W2⌝ ∧
         placed m' (n + 1) p key d W1 W2)
  | Err _ => not_inserted m n L key d m'
  end%I.

Lemma hwp_entry_update m n L key f d : map_at m n L ⊢ hwp (entry_update m key f d : M _) (entry_updated m n L key f d).
Proof.
  iIntros "Hm". iApply hwp_bind. iApply (hwp_entry with "Hm"). iSplit; [|iSplit].
  - iIntros (m' h v L1 L2 (-> & Hs & Hn)) "Hf". iApply hwp_bind. iApply (hwp_and_modify with "Hf"); [done..|]. iIntros "Hf".
    iApply hwp_bind. iApply hwp_bind. iApply (hwp_found_kv_read with "Hf"). iIntros "Hf". do 2 iApply hwp_ret.
    iLeft. iExists L1, v, L2. iSplit; [done|]. iApply found_placed; [done|by eapply counted_replace|done].
  - iIntros (m' h L1 L2 (-> & Hb & Ha & Hs & Hn)) "Hg". iApply hwp_bind. iApply hwp_ret.
    iApply (hwp_wand with "[Hg]"); [by iApply (vacant_inserted m with "Hg")|]. iIntros ([m'' [p|e]]) "H"; [|done].
    iDestruct "H" as (r' ->) "H". iDestruct (leaf_placed (BTreeMap_ r' (n + 1)) (n + 1) with "H") as (W1 W2 HW) "H"; [done|by apply counted_insert|].
    iRight. iExists L1, L2, W1, W2. by iSplit.
  - iIntros (->) "Hm". iApply hwp_ret. iExists [], []. iSplit; [iPureIntro; split_and!; [done|constructor|constructor]|].
    iLeft. iExists n. iSplit; [iPureIntro; by right|done].
Qed.

(** A placed entry in a store: the map has it, and it can be read and written. *)
Lemma placed_good m n p key v L1 L2 F s : holds (placed m n p key v L1 L2 ∗ F)%I (cells s) → al_inv (live (cells s)) (al s) →
  let X := list_to_map (L1 ++ L2) : gmap K V in
  is_map m n (<[key := v]> X) F s ∧ place_read p s = Ret (v, s) ∧
  ∀ u, ∃ s', place_write p u s = Ret (tt, s') ∧ is_map m n (<[key := u]> X) F s'.
Proof.
  intros Hh Hi X. assert (∀ u s', holds (placed m n p key u L1 L2 ∗ F)%I (cells s') → al_inv (live (cells s')) (al s') →
    is_map m n (<[key := u]> X) F s') as Hmap.
  { intros u s' Hh' Hi'. assert (holds (map_at m n (L1 ++ (key, u) :: L2) ∗ F)%I (cells s')) as Hm.
    { eapply holds_entails; [|exact Hh']. rewrite placed_map. by iIntros "$". }
    pose proof (map_at_counted _ _ _ _ _ Hm) as (_ & Hs & _). exists (L1 ++ (key, u) :: L2). split; [|done].
    symmetry. by apply to_map_middle, sorted_NoDup. }
  split_and!; [by apply Hmap| |].
  - assert (readonly (place_read p : M V)) as Hro by (unfold place_read; solve_readonly).
    destruct (run_framed _ _ _ F s (hwp_place_read m n p key v L1 L2) Hh Hi) as (x & s' & Hrun & [-> _]%holds_pure & _).
    by pose proof (Hro _ _ _ Hrun) as ->.
  - intros u. destruct (run_framed _ _ _ F s (hwp_place_write m n p key v u L1 L2) Hh Hi) as ([] & s' & Hrun & Hh' & Hi').
    exists s'. split; [done|]. by apply Hmap.
Qed.

(** An entry is looked up once and changed, or inserted.  The reference that is
    returned is the place of its value, where it can be read and replaced. *)
Theorem entry_refines m n X F s key f d : is_map m n X F s →
  ∃ m' res s', entry_update m key f d s = Ret ((m', res), s') ∧
    match res with
    | Ok p =>
        let v := match X !! key with Some w => f w | None => d end in
        let n' := if X !! key then n else n + 1 in
        is_map m' n' (<[key := v]> X) F s' ∧ place_read p s' = Ret (v, s') ∧
        ∀ u, ∃ s'', place_write p u s' = Ret (tt, s'') ∧ is_map m' n' (<[key := u]> X) F s''
    | Err _ => insert_failed m n X F key d m' s'
    end.
Proof.
  intros (L & -> & Hm & Hi). pose proof (map_at_counted _ _ _ _ _ Hm) as (_ & Hs & Hlen).
  destruct (run_framed _ _ _ F s (hwp_entry_update m n L key f d) Hm Hi) as ([m' res] & s' & Hrun & Hh & Hi').
  exists m', res, s'. split; [done|]. cbn [entry_updated] in Hh. destruct res as [p|e]; [|by apply not_inserted_failed].
  destruct Hh as (h1 & h2 & Hc & Hd & [(L1 & v & L2 & HL & Hp)|(L1 & L2 & W1 & W2 & (-> & Hb & Ha & HW) & Hp)] & HF).
  - change (L = L1 ++ (key, v) :: L2) in HL. subst L. destruct (to_map_middle key v L1 L2) as [-> _]; [by apply sorted_NoDup|]. rewrite lookup_insert_eq.
    destruct (placed_good m' n p key (f v) L1 L2 F s') as (H1 & H2 & H3); [by exists h1, h2|done|].
    cbv zeta. split_and!; [by rewrite insert_insert_eq|done|]. intros u. rewrite insert_insert_eq. apply H3.
  - rewrite to_map_absent //. assert (list_to_map (L1 ++ L2) = (list_to_map (W1 ++ W2) : gmap K V)) as ->.
    { pose proof (counted_insert (length (L1 ++ L2)) key d L1 L2 (conj Hs (reflexivity _)) Hb Ha) as [Hs1 _].
      pose proof (sorted_NoDup _ Hs1) as H1. destruct (to_map_middle key d L1 L2 H1) as [E1 N1].
      rewrite HW in E1 H1. destruct (to_map_middle key d W1 W2 H1) as [E2 N2]. rewrite E2 in E1.
      by rewrite -(delete_insert_id (list_to_map (L1 ++ L2)) key d) // -E1 delete_insert_id. }
    apply placed_good; [by exists h1, h2|done].
Qed.

(** ** Removing what was found *)

(** What is left when the entry of [key] has been removed, or was not there. *)
Definition removed n L key m' (found : option (K * V)) : hProp N :=
  (∃ v L1 L2, ⌜L = L1 ++ (key, v) :: L2 ∧ found = Some (key, v)⌝ ∧ map_at m' (n - 1) (L1 ++ L2)) ∨
  (∃ L1 L2, ⌜L = L1 ++ L2 ∧ below key L1 ∧ above key L2 ∧ found = None⌝ ∧ map_at m' n L).

Lemma removed_map n L key m' found F s : counted n L → holds (removed n L key m' found ∗ F)%I (cells s) → al_inv (live (cells s)) (al s) →
  let X := list_to_map L : gmap K V in
  found = pair key <$> X !! key ∧ is_map m' (if X !! key then n - 1 else n) (delete key X) F s.
Proof.
  intros [Hs _] (h1 & h2 & Hc & Hd & H & HF) Hi X. subst X.
  assert (∀ n' L', holds (map_at m' n' L') h1 → is_map m' n' (list_to_map L') F s) as Hmap.
  { intros n' L' Hm. exists L'. split_and!; [done| |done]. rewrite Hc. by exists h1, h2. }
  destruct H as [(v & L1 & L2 & [HL ->] & Hm)|(L1 & L2 & (HL & Hb & Ha & ->) & Hm)]; subst L.
  - destruct (to_map_middle key v L1 L2) as [-> HN]; [by apply sorted_NoDup|]. rewrite lookup_insert_eq delete_insert_id //.
    split; [done|]. by apply Hmap.
  - rewrite to_map_absent // delete_id; [|by apply to_map_absent]. split; [done|]. by apply Hmap.
Qed.

Lemma hwp_remove_found m n hd key v L1 L2 : length_ m = n → counted n (L1 ++ (key, v) :: L2) →
  found_at (root m) hd key v L1 L2 ⊢ hwp (remove_kv m hd : M _) (λ '(m', kv), removed n (L1 ++ (key, v) :: L2) key m' (Some kv)).
Proof.
  iIntros (<- Hs) "Hf". iApply (hwp_remove_kv with "Hf").
  { destruct Hs as [_ Hl]. rewrite length_app in Hl. cbn in Hl. lia. }
  iIntros (r') "Hr". iLeft. iExists v, L1, L2. iSplit; [done|]. iApply map_at_root; [done| |done].
  eapply (counted_remove _ _ L1 [(key, v)]); [exact Hs|]. cbn. lia.
Qed.

(** [entry(key)?] and [remove_entry]: without memory for the root of an empty map, nothing
    has changed. *)
Theorem entry_remove_refines m n X F s key : is_map m n X F s →
  ∃ m' res s', entry_remove m key s = Ret ((m', res), s') ∧
    match res with
    | Ok found => found = pair key <$> X !! key ∧ is_map m' (if X !! key then n - 1 else n) (delete key X) F s'
    | Err _ => X = ∅ ∧ m' = m ∧ is_map m n X F s'
    end.
Proof.
  intros (L & -> & Hm & Hi). pose proof (map_at_counted _ _ _ _ _ Hm) as (_ & Hs & Hlen).
  destruct (run_framed (entry_remove m key) (map_at m n L) (λ '(m', res), match res with
    | Ok found => removed n L key m' found
    | Err _ => ⌜L = [] ∧ m' = m⌝ ∧ map_at m n L
    end)%I F s) as ([m' res] & s' & Hrun & Hh & Hi'); [|done|done|].
  - iIntros "Hm". iApply hwp_bind. iApply (hwp_entry with "Hm"). iSplit; [|iSplit].
    + iIntros (m' hd v L1 L2 (-> & Hs' & Hn)) "Hf". iApply hwp_bind.
      iApply (hwp_wand with "[Hf]"); [by iApply (hwp_remove_found with "Hf")|]. iIntros ([m'' kv]) "H". by iApply hwp_ret.
    + iIntros (m' hd L1 L2 (-> & Hb & Ha & Hs' & Hn)) "Hg". iApply hwp_ret. iRight. iExists L1, L2. iSplit; [done|].
      iApply map_at_root; [done..|]. by iApply godown_close.
    + iIntros (->) "Hm". iApply hwp_ret. by iSplit.
  - exists m', res, s'. split; [done|]. destruct res as [found|e]; [by apply removed_map|].
    apply holds_pure in Hh as [[-> ->] Hh]. split_and!; [done..|]. by exists [].
Qed.
End places.

(** ** Sets *)

Section recover_spec.
Context {K A : Type} `{!EqDecision K, !Countable K, !Ord K, !GlobalAlloc NodeLayout A}.
#[local] Abbreviation N := (Node K unit).
#[local] Abbreviation M := (M (store N A)).
Implicit Types (L : list (K * unit)) (X : gmap K unit) (F : hProp N) (s : store N A).

Lemma recover_replace_entry m key s : (recover_replace m key : M _) s =
  ('(m, res) ← entry m key;
   match res with
   | Err e => mret (m, Err e)
   | Ok (Occupied h) => old ← into_kv h; _ ← replace_kv h key tt; mret (m, Ok (Some old.1))
   | Ok (Vacant key h) =>
       '(m, res) ← vacant_insert m h key tt;
       mret (m, match res with Ok _ => Ok None | Err e => Err e end)
   end) s.
Proof.
  unfold recover_replace, entry, mbind, M_bind, mret, M_ret. destruct (ensure_root_is_owned m s) as [[[m' [[]|e]] s1]|?|?]; [|done..].
  by destruct (search_tree _ key s1) as [[[h|h] s2]|?|?].
Qed.

Lemma hwp_recover_replace m n L key : map_at m n L ⊢ hwp (recover_replace m key : M _) (λ '(m', res),
  match res with
  | Ok (Some old) => ∃ L1 L2, ⌜L = L1 ++ (key, tt) :: L2 ∧ old = key⌝ ∧ map_at m' n L
  | Ok None => ∃ L1 L2, ⌜L = L1 ++ L2 ∧ below key L1 ∧ above key L2⌝ ∧ map_at m' (n + 1) (L1 ++ (key, tt) :: L2)
  | Err _ => not_inserted m n L key tt m'
  end)%I.
Proof.
  iIntros "Hm". iApply (hwp_ext _ _ _ (λ s, eq_sym (recover_replace_entry m key s))). iApply hwp_bind. iApply (hwp_entry with "Hm").
  iSplit; [|iSplit].
  - iIntros (m' h [] L1 L2 (-> & Hs & Hn)) "Hf". iApply hwp_bind. iApply (hwp_found_kv_read with "Hf"). iIntros "Hf".
    iApply hwp_bind. iApply hwp_bind. iApply (hwp_found_kv_read with "Hf"). iIntros "Hf".
    iDestruct (found_open with "Hf") as (nd (Hp & Hk & Hv)) "[Hnd Hclose]". iApply hwp_bind.
    iApply (hwp_update with "Hnd"); [done|]. iIntros "Hnd". do 2 iApply hwp_ret. iExists L1, L2. iSplit; [done|].
    iApply map_at_root; [done..|]. iApply found_close. by iApply "Hclose".
  - iIntros (m' h L1 L2 (-> & Hb & Ha & Hs & Hn)) "Hg". iApply hwp_bind.
    iApply (hwp_wand with "[Hg]"); [by iApply (vacant_inserted m with "Hg")|]. iIntros ([m'' [p|e]]) "H"; iApply hwp_ret; [|done].
    iDestruct "H" as (r' ->) "[H _]". iExists L1, L2. iSplit; [done|]. iApply map_at_root; [done|by apply counted_insert|done].
  - iIntros (->) "Hm". iApply hwp_ret. iExists [], []. iSplit; [iPureIntro; split_and!; [done|constructor|constructor]|].
    iLeft. iExists n. iSplit; [iPureIntro; by right|done].
Qed.

(** A set: [get], [take] and [replace] look for a key, remove it and insert it, and yield
    the key that was there. *)
Theorem recover_refines m n X F s key : is_map m n X F s →
  let old := X !! key ≫= λ _, Some key in
  (∃ s', recover_get m key s = Ret (old, s') ∧ is_map m n X F s') ∧
  (∃ m' s', recover_take m key s = Ret ((m', old), s') ∧ is_map m' (if X !! key then n - 1 else n) (delete key X) F s') ∧
  (∃ m' res s', recover_replace m key s = Ret ((m', res), s') ∧
     match res with
     | Ok found => found = old ∧ is_map m' (if X !! key then n else n + 1) (<[key := tt]> X) F s'
     | Err _ => insert_failed m n X F key tt m' s'
     end).
Proof.
  intros Hm0. pose proof Hm0 as (L & -> & Hm & Hi). pose proof (map_at_counted _ _ _ _ _ Hm) as (_ & Hs & Hlen). cbv zeta. split_and!.
  - destruct (look_up_refines m n _ F s key (λ kv, Some kv.1) None Hm0) as (s' & Hrun & Hm').
    exists s'. split; [|done]. etrans; [exact Hrun|]. by destruct (list_to_map L !! key).
  - destruct (run_framed (recover_take m key) (map_at m n L) (λ '(m', found), ∃ kv, ⌜found = fst <$> kv⌝ ∧ removed n L key m' kv)%I F s)
      as ([m' found] & s' & Hrun & Hh & Hi'); [|done|done|].
    + iIntros "Hm". iApply hwp_bind. iApply (hwp_search_root with "Hm"). iSplit.
      * iIntros (hd [] L1 L2) "%H Hf". destruct H as (-> & Hs' & Hn). iApply hwp_bind.
        iApply (hwp_wand with "[Hf]"); [by iApply (hwp_remove_found with "Hf")|]. iIntros ([m'' kv]) "H". iApply hwp_ret.
        iExists (Some kv). by iSplit.
      * iIntros (hd L1 L2) "%H Hg". destruct H as (-> & Hb & Ha & Hs' & Hn). iApply hwp_ret. iExists None. iSplit; [done|].
        iRight. iExists L1, L2. iSplit; [done|]. by iApply (godown_map_at with "Hg").
    + destruct Hh as (h1 & h2 & Hc & Hd & (kv & -> & Hr) & HF).
      destruct (removed_map n L key m' kv F s') as [-> Hm']; [done|by exists h1, h2|done|].
      exists m', s'. split; [|done]. rewrite Hrun. by destruct (list_to_map L !! key).
  - destruct (run_framed _ _ _ F s (hwp_recover_replace m n L key) Hm Hi) as ([m' res] & s' & Hrun & Hh & Hi').
    exists m', res, s'. split; [done|]. destruct res as [[old|]|[]]; [..|by apply not_inserted_failed].
    + destruct Hh as (h1 & h2 & Hc & Hd & (L1 & L2 & [HL ->] & Hm') & HF). subst L.
      destruct (to_map_middle key () L1 L2) as [E _]; [by apply sorted_NoDup|]. rewrite E lookup_insert_eq insert_insert_eq -E.
      split; [done|]. eexists. split_and!; [done| |done]. rewrite Hc. by exists h1, h2.
    + destruct Hh as (h1 & h2 & Hc & Hd & (L1 & L2 & (HL & Hb & Ha) & Hm') & HF). subst L.
      rewrite to_map_absent //. split; [done|].
      assert (holds (map_at m' (n + 1) (L1 ++ (key, ()) :: L2) ∗ F)%I (cells s')) as Hh by (by rewrite Hc; exists h1, h2).
      pose proof (map_at_counted _ _ _ _ _ Hh) as (_ & Hs' & _). eexists. split_and!; [|exact Hh|done].
      symmetry. by apply to_map_middle, sorted_NoDup.
Qed.
End recover_spec.
