(* ===== verification/BTreeRangeSpec.v ===== *)
(** * BTreeRangeSpec: ranges and iterators of a B-tree map are double-ended queues

    A bound cuts the entries in two.  The search for both ends of a range keeps, on
    its way down, the part of the entries in which each cut lies.  A range then yields
    the entries between its cuts, from either end, in any order of calls, and an
    iterator all of them. *)

From S2P Require Import Prelude HeapLogic Node BTree Readonly NodeSpec BTreeSpec Rebalance BTreeRemove BTreeIter.
From S2P Require Import Deque BTreeRefine BTreeRange BTreeInto.
From stdpp Require Import sorting.
From iris.proofmode Require Import proofmode.
From iris.prelude Require Import options.

#[local] Open Scope nat_scope.

(** ** Cuts *)

Section cuts.
Context {K : Type} `{!Ord K}.

(** Before a key, behind it, or at an end. *)
Inductive cut := CutLt (k : K) | CutLe (k : K) | CutNone | CutAll.
Definition before (c : cut) (x : K) : bool :=
  match c with
  | CutLt k => match cmp x k with Lt => true | _ => false end
  | CutLe k => match cmp x k with Gt => false | _ => true end
  | CutNone => false
  | CutAll => true
  end.

Definition lo_cut (lo : Bound K) : cut :=
  match lo with Included k => CutLt k | Excluded k => CutLe k | Unbounded => CutNone end.
Definition hi_cut (hi : Bound K) : cut :=
  match hi with Included k => CutLe k | Excluded k => CutLt k | Unbounded => CutAll end.

(** [RangeBounds::contains] *)
Definition in_range (lo hi : Bound K) (x : K) : bool :=
  match lo with
  | Included k => match cmp k x with Gt => false | _ => true end
  | Excluded k => match cmp k x with Lt => true | _ => false end
  | Unbounded => true
  end &&
  match hi with
  | Included k => match cmp x k with Gt => false | _ => true end
  | Excluded k => match cmp x k with Lt => true | _ => false end
  | Unbounded => true
  end.

Lemma in_range_cuts lo hi x : in_range lo hi x = negb (before (lo_cut lo) x) && before (hi_cut hi) x.
Proof.
  unfold in_range. f_equal; [|by destruct hi].
  destruct lo as [k|k|]; cbn; [rewrite (cmp_antisym x k); by destruct (cmp x k)..|done].
Qed.

(** The bounds that are refused. *)
Definition range_error (lo hi : Bound K) : option string :=
  let greater s e := match cmp s e with Gt => Some "range start is greater than range end in BTreeMap" | _ => None end in
  match lo, hi with
  | Excluded s, Excluded e =>
      match cmp s e with
      | Eq => Some "range start and end are equal and excluded in BTreeMap"
      | _ => greater s e
      end
  | Included s, Included e | Included s, Excluded e | Excluded s, Included e => greater s e
  | _, _ => None
  end%string.

Lemma klt_cases x y : klt x y ∨ x = y ∨ klt y x.
Proof.
  unfold klt. rewrite (cmp_antisym x y). destruct (cmp x y) eqn:E; [right; left; by apply cmp_eq|by left|by right; right].
Qed.

Lemma before_lt k x : before (CutLt k) x = true ↔ klt x k.
Proof. unfold klt. cbn. by destruct (cmp x k). Qed.
Lemma before_le k x : before (CutLe k) x = true ↔ klt x k ∨ x = k.
Proof. rewrite -cmp_eq. unfold klt. cbn. destruct (cmp x k); naive_solver. Qed.

(** What is below a key that is before the cut is before it. *)
Lemma before_down c x y : klt x y → before c y = true → before c x = true.
Proof.
  destruct c as [k|k| |]; [..|done|done].
  - rewrite !before_lt. intros. by etrans.
  - rewrite !before_le. intros ? [?| ->]; left; [by etrans|done].
Qed.

(** The cuts of accepted bounds are in order. *)
Lemma cuts_ordered lo hi x : range_error lo hi = None → before (lo_cut lo) x = true → before (hi_cut hi) x = true.
Proof.
  assert (∀ s e, match cmp s e with Gt => Some "range start is greater than range end in BTreeMap"%string | _ => None end = None →
    klt s e ∨ s = e) as Hle.
  { intros s e H. rewrite -cmp_eq. unfold klt. destruct (cmp s e); [by right|by left|done]. }
  destruct lo as [s|s|], hi as [e|e|]; cbn [range_error lo_cut hi_cut]; try done; rewrite ?before_lt ?before_le; intros H Hx.
  - left. apply Hle in H as [?| ->]; [by etrans|done].
  - apply Hle in H as [?| ->]; [by etrans|done].
  - apply Hle in H as [?| ->]; [left|done]. destruct Hx as [?| ->]; [by etrans|done].
  - assert (klt s e) as Hse by (unfold klt; by destruct (cmp s e)). destruct Hx as [?| ->]; [by etrans|done].
Qed.
End cuts.
Arguments cut K : clear implicits.

Section cut_lists.
Context {K V : Type} `{!Ord K}.
Implicit Types (L : list (K * V)) (kvs : list (K * V)) (c : cut K).

Definition all_before c L : Prop := Forall (λ kv, before c kv.1 = true) L.
Definition none_before c L : Prop := Forall (λ kv, before c kv.1 = false) L.
Definition cuts c L1 L2 : Prop := all_before c L1 ∧ none_before c L2.

Lemma all_before_app c L1 L2 : all_before c (L1 ++ L2) ↔ all_before c L1 ∧ all_before c L2.
Proof. apply Forall_app. Qed.
Lemma none_before_app c L1 L2 : none_before c (L1 ++ L2) ↔ none_before c L1 ∧ none_before c L2.
Proof. apply Forall_app. Qed.

Lemma sorted_head kv L x : sorted (kv :: L) → x ∈ L → klt kv.1 x.1.
Proof.
  intros [H _]%StronglySorted_cons Hx. rewrite Forall_forall in H. apply H. by apply list_elem_of_fmap_2.
Qed.
Lemma sorted_last kv L x : sorted (L ++ [kv]) → x ∈ L → klt x.1 kv.1.
Proof. intros (H & _ & _)%sorted_app Hx. apply H; [by apply list_elem_of_fmap_2|left]. Qed.

Lemma all_before_snoc c L kv : sorted (L ++ [kv]) → before c kv.1 = true → all_before c (L ++ [kv]).
Proof.
  intros Hs Hkv. apply all_before_app. split; [|by apply Forall_singleton].
  apply Forall_forall. intros x Hx. eapply before_down; [by eapply sorted_last|done].
Qed.
Lemma none_before_cons c kv L : sorted (kv :: L) → before c kv.1 = false → none_before c (kv :: L).
Proof.
  intros Hs Hkv. constructor; [done|]. apply Forall_forall. intros x Hx.
  destruct (before c x.1) eqn:E; [|done]. rewrite (before_down c kv.1 x.1) in Hkv; [done| |done]. by eapply sorted_head.
Qed.

(** The keys of a node among the entries below it. *)
Lemma sublist_Forall (P : K * V → Prop) L L' : L' `sublist_of` L → Forall P L → Forall P L'.
Proof. induction 1 as [|x l1 l2 _ IH|x l1 l2 _ IH]; [done|intros [? ?]%Forall_cons; constructor; auto|intros [? ?]%Forall_cons; auto]. Qed.
Lemma sublist_sorted L L' : L' `sublist_of` L → sorted L → sorted L'.
Proof.
  induction 1 as [|x l1 l2 Hsub IH|x l1 l2 Hsub IH]; [done|intros [Hx H]%StronglySorted_cons..]; [|by apply IH].
  apply StronglySorted_cons. split; [|by apply IH]. apply Forall_fmap, (sublist_Forall (klt x.1 ∘ fst) l2); [done|]. by apply Forall_fmap.
Qed.
Lemma own_sublist kvs : ∀ Ls, length Ls = S (length kvs) → kvs `sublist_of` inter Ls kvs.
Proof.
  induction kvs as [|kv kvs IH]; intros [|L Ls] [=Hl]; [apply sublist_nil_l|].
  destruct Ls as [|L' Ls]; [done|]. cbn. apply sublist_inserts_l, sublist_skip. by apply (IH (L' :: Ls)).
Qed.

(** What is between and around the keys of a node is on the side of those keys. *)
Lemma lefts_all_before c kvs : ∀ Ls, sorted (lefts Ls kvs) → all_before c kvs → all_before c (lefts Ls kvs).
Proof.
  induction kvs as [|kv kvs IH]; intros [|L Ls]; cbn; [constructor..|]. intros Hs [Hkv Hk]%Forall_cons.
  rewrite cons_middle assoc_L in Hs |- *. apply all_before_app. split.
  - apply all_before_snoc; [|done]. by apply sorted_app in Hs as (_ & ? & _).
  - apply IH; [by apply sorted_app in Hs as (_ & _ & ?)|done].
Qed.
Lemma rights_none_before c kvs Ls : sorted (rights kvs Ls) → none_before c kvs → none_before c (rights kvs Ls).
Proof.
  destruct kvs as [|kv kvs], Ls as [|L Ls]; cbn; [constructor..|]. intros Hs [Hkv _]%Forall_cons.
  by apply none_before_cons.
Qed.

Lemma filter_in (P : K * V → Prop) `{!∀ x, Decision (P x)} L : Forall P L → filter P L = L.
Proof. induction 1 as [|x L Hx _ IH]; [done|]. by rewrite filter_cons_True // IH. Qed.
Lemma filter_out (P : K * V → Prop) `{!∀ x, Decision (P x)} L : Forall (λ x, ¬ P x) L → filter P L = [].
Proof. induction 1 as [|x L Hx _ IH]; [done|]. by rewrite filter_cons_False. Qed.

(** Two cuts in order leave the entries in the range between them. *)
Lemma cuts_between lo hi L1 L2 L1' L2' : range_error lo hi = None →
  L1 ++ L2 = L1' ++ L2' → cuts (lo_cut lo) L1 L2 → cuts (hi_cut hi) L1' L2' →
  L1' = L1 ++ filter (λ kv, in_range lo hi kv.1 = true) (L1 ++ L2) ∧
  L2 = filter (λ kv, in_range lo hi kv.1 = true) (L1 ++ L2) ++ L2'.
Proof.
  intros Hok Heq [Hl1 Hl2] [Hh1 Hh2].
  assert (∃ k, L1' = L1 ++ k ∧ L2 = k ++ L2') as (k & -> & ->).
  { apply app_eq_inv in Heq as [(k & -> & ->)|(k & -> & ->)]; [|by exists k].
    destruct k as [|x k]; [exists []; by rewrite !app_nil_r|].
    apply all_before_app in Hl1 as [_ [Hx _]%Forall_cons]. apply none_before_app in Hh2 as [[Hx' _]%Forall_cons _].
    by rewrite (cuts_ordered lo hi x.1) in Hx'. }
  apply all_before_app in Hh1 as [_ Hh1]. apply none_before_app in Hl2 as [Hl2 _].
  rewrite !filter_app (filter_out _ L1) ?(filter_in _ k) ?(filter_out _ L2') /= ?app_nil_r //.
  - eapply Forall_impl; [exact Hh2|]. intros x Hx. by rewrite in_range_cuts Hx andb_false_r.
  - apply Forall_forall. intros x Hx. unfold all_before, none_before in *. rewrite !Forall_forall in Hh1, Hl2.
    by rewrite in_range_cuts Hh1 ?Hl2.
  - eapply Forall_impl; [exact Hl1|]. intros x Hx. by rewrite in_range_cuts Hx.
Qed.

(** [i] is where the cut goes through the keys of a node. *)
Definition cut_index c (i : nat) (ks : list K) : Prop :=
  i ≤ length ks ∧ ∀ j k, ks !! j = Some k → before c k = bool_decide (j < i).

Lemma cut_index_app c kvs1 kvs2 : cuts c kvs1 kvs2 → cut_index c (length kvs1) (kvs1 ++ kvs2).*1.
Proof.
  intros [H1 H2]. split; [rewrite length_fmap length_app; lia|]. intros j k.
  intros ([k' v] & -> & Hj)%list_lookup_fmap_Some_1. cbn.
  apply lookup_app_Some in Hj as [Hj|[Hle Hj]].
  - rewrite bool_decide_true; [|by eapply lookup_lt_Some]. unfold all_before in H1.
    rewrite Forall_lookup in H1. by apply (H1 _ _ Hj).
  - rewrite bool_decide_false; [|lia]. unfold none_before in H2. rewrite Forall_lookup in H2. by apply (H2 _ _ Hj).
Qed.

Lemma cut_index_le lo hi i j ks : range_error lo hi = None →
  cut_index (lo_cut lo) i ks → cut_index (hi_cut hi) j ks → i ≤ j.
Proof.
  intros Hok [Hi Hlo] [Hj Hhi]. destruct (decide (i ≤ j)) as [|Hlt]; [done|].
  destruct (lookup_lt_is_Some_2 ks j) as [k Hk]; [lia|].
  specialize (Hlo _ _ Hk). specialize (Hhi _ _ Hk). rewrite bool_decide_true in Hlo; [|lia].
  rewrite bool_decide_false in Hhi; [|lia]. by rewrite (cuts_ordered lo hi k) in Hhi.
Qed.
End cut_lists.

(** ** The search in one node *)

Section edges.
Context {K V A : Type} `{!Ord K, !GlobalAlloc NodeLayout A}.
#[local] Abbreviation N := (Node K V).
#[local] Abbreviation M := (M (store N A)).
#[local] Notation "p ↦ n" := (points_to p n) (at level 20) : bi_scope.
Implicit Types (L : list (K * V)) (kvs : list (K * V)) (c : cut K) (s : store N A).

(** [min_edge] and [max_edge] differ in what they make of a bound. *)
Definition cut_edge (n : NodeRef) (found : bool) c : M (nat * bool) :=
  match found, c with
  | false, CutLt key => search_linear n key
  | false, CutLe key => '(i, eq) ← search_linear n key; mret (if eq : bool then (i + 1, true) else (i, false))
  | _, CutNone => mret (0, found)
  | _, CutAll => ks ← node_keys n; mret (length ks, found)
  | true, CutLt _ => ks ← node_keys n; mret (length ks, true)
  | true, CutLe _ => mret (0, true)
  end.

Lemma min_edge_cut n found lo : min_edge n found lo = cut_edge n found (lo_cut lo).
Proof. by destruct found, lo. Qed.
Lemma max_edge_cut n found hi : max_edge n found hi = cut_edge n found (hi_cut hi).
Proof. by destruct found, hi. Qed.
Lemma check_bounds_error lo hi : check_bounds lo hi = match range_error lo hi with Some msg => panic msg | None => mret tt end :> M unit.
Proof. destruct lo as [l|l|], hi as [h|h|]; cbn; try destruct (cmp l h); done. Qed.

(** Once the key has been found, the cut is at an end of everything below. *)
Definition at_end c (found : bool) L : Prop :=
  found = true → match c with CutLt _ => all_before c L | CutLe _ => none_before c L | _ => True end.

(** The cut goes through the keys of a node; behind the key that was found, or before it. *)
Definition just_found c kvs1 kvs2 : Prop :=
  match c with
  | CutLt k => ∃ v kvs, kvs2 = (k, v) :: kvs
  | CutLe k => ∃ v kvs, kvs1 = kvs ++ [(k, v)]
  | _ => True
  end.

Lemma before_own_lt (k : K) : before (CutLt k) k = false.
Proof. cbn. by rewrite (proj2 (cmp_eq k k)). Qed.
Lemma before_own_le (k : K) : before (CutLe k) k = true.
Proof. cbn. by rewrite (proj2 (cmp_eq k k)). Qed.

Lemma search_keys_cut key kvs : sorted kvs → ∃ kvs1 kvs2, kvs = kvs1 ++ kvs2 ∧
  ((∃ v kvs2', kvs2 = (key, v) :: kvs2' ∧ search_keys 0 kvs.*1 key = (length kvs1, true) ∧
     cuts (CutLt key) kvs1 kvs2 ∧ cuts (CutLe key) (kvs1 ++ [(key, v)]) kvs2') ∨
   (search_keys 0 kvs.*1 key = (length kvs1, false) ∧ cuts (CutLt key) kvs1 kvs2 ∧ cuts (CutLe key) kvs1 kvs2)).
Proof.
  intros Hs. destruct (search_kvs_spec key kvs) as (kvs1 & kvs2 & -> & Hb & Hcase). exists kvs1, kvs2. split; [done|].
  assert (all_before (CutLt key) kvs1 ∧ all_before (CutLe key) kvs1) as [Hlt Hle].
  { split; (eapply Forall_impl; [exact Hb|]); intros x Hx; [by apply before_lt|apply before_le; by left]. }
  pose proof (sorted_suffix _ _ Hs) as Hs2.
  destruct Hcase as [(v & kvs2' & -> & ->)|[Hd ->]]; [left|right].
  - exists v, kvs2'. split_and!; [done..| |].
    + split; [done|]. by apply none_before_cons; [|apply before_own_lt].
    + split; [apply all_before_app; split; [done|apply Forall_singleton; apply before_own_le]|].
      apply Forall_forall. intros x Hx. pose proof (sorted_head _ _ _ Hs2 Hx) as Hx'. cbn in Hx'.
      unfold klt in Hx'. cbn. by rewrite (cmp_antisym key x.1) Hx'.
  - assert (∀ c, c = CutLt key ∨ c = CutLe key → none_before c kvs2) as Hn; [|split_and!; [done|split..]; auto].
    intros c Hc. destruct kvs2 as [|kv kvs2]; [constructor|]. apply none_before_cons; [done|].
    unfold klt in Hd. destruct Hc as [->| ->]; cbn; by rewrite (cmp_antisym key kv.1) Hd.
Qed.

Lemma at_end_sub c found L1 L L2 : at_end c found (L1 ++ L ++ L2) → at_end c found L.
Proof.
  intros H Hf. specialize (H Hf). destruct c; [..|done|done].
  - apply all_before_app in H as [_ H]. by apply all_before_app in H as [H _].
  - apply none_before_app in H as [_ H]. by apply none_before_app in H as [H _].
Qed.

Lemma cut_edge_spec n found c kvs nd s : as_header n s = Ret (nd, s) → keys nd = kvs.*1 → sorted kvs → at_end c found kvs →
  ∃ kvs1 kvs2 found', kvs = kvs1 ++ kvs2 ∧ cut_edge n found c s = Ret ((length kvs1, found'), s) ∧
    cuts c kvs1 kvs2 ∧ (found' = true → found = true ∨ just_found c kvs1 kvs2).
Proof.
  intros Hn Hk Hs He.
  assert (node_keys n s = Ret (kvs.*1, s)) as Hkeys by (unfold node_keys, mbind, M_bind; by rewrite Hn Hk).
  assert (length kvs.*1 = length kvs) as Hlen by apply length_fmap.
  unfold cut_edge. destruct c as [key|key| |].
  - destruct found; [|destruct (search_keys_cut key kvs Hs) as (kvs1 & kvs2 & -> & [(v & kvs2' & -> & Hr & H1 & H2)|(Hr & H1 & H2)])].
    + exists kvs, [], true. rewrite app_nil_r. cbv [mbind M_bind]. rewrite Hkeys Hlen.
      split_and!; [done..|split; [by apply He|constructor]|by left].
    + exists kvs1, ((key, v) :: kvs2'), true. cbv [search_linear mbind M_bind]. rewrite Hkeys Hr.
      split_and!; [done..|]. right. by exists v, kvs2'.
    + exists kvs1, kvs2, false. cbv [search_linear mbind M_bind]. by rewrite Hkeys Hr.
  - destruct found; [|destruct (search_keys_cut key kvs Hs) as (kvs1 & kvs2 & -> & [(v & kvs2' & -> & Hr & H1 & H2)|(Hr & H1 & H2)])].
    + exists [], kvs, true. split_and!; [done..|split; [constructor|by apply He]|by left].
    + exists (kvs1 ++ [(key, v)]), kvs2', true. cbv [search_linear mbind M_bind]. rewrite Hkeys Hr length_app -app_assoc.
      split_and!; [done..|]. right. by exists v, kvs1.
    + exists kvs1, kvs2, false. cbv [search_linear mbind M_bind]. by rewrite Hkeys Hr.
  - exists [], kvs, found. split_and!; [done|by destruct found| |by right].
    split; [constructor|by apply Forall_forall].
  - exists kvs, [], found. rewrite app_nil_r. split_and!; [done| |split; [by apply Forall_forall|constructor]|by right].
    destruct found; cbv [mbind M_bind]; by rewrite Hkeys Hlen.
Qed.

(** Below the node: the child the cut goes through. *)
Lemma cut_child c found L1 (Ls1 : list (list (K * V))) kvs1 L Ls2 kvs2 L2 :
  length Ls1 = length kvs1 → length Ls2 = length kvs2 →
  sorted (lefts Ls1 kvs1 ++ L ++ rights kvs2 Ls2) → cuts c L1 L2 → cuts c kvs1 kvs2 →
  (found = true → at_end c true (lefts Ls1 kvs1 ++ L ++ rights kvs2 Ls2) ∨ just_found c kvs1 kvs2) →
  cuts c (L1 ++ lefts Ls1 kvs1) (rights kvs2 Ls2 ++ L2) ∧ at_end c found L.
Proof.
  intros H1 H2 Hs [Hc1 Hc2] [Hk1 Hk2] Hf. pose proof (proj1 (sorted_app _ _) Hs) as (_ & Hsl & Hsr).
  pose proof (proj1 (sorted_app _ _) Hsr) as (_ & _ & Hsr'). split.
  - split.
    + apply all_before_app. split; [done|by apply lefts_all_before].
    + apply none_before_app. split; [by apply rights_none_before|done].
  - intros Ht. destruct (Hf Ht) as [He|Hj]; [by apply at_end_sub in He; apply He|].
    destruct c as [k|k| |]; [..|done|done].
    + destruct Hj as (v & kvs & ->). destruct Ls2 as [|L' Ls2]; [done|]. cbn [rights] in Hsr.
      apply Forall_forall. intros x Hx. apply before_lt. rewrite cons_middle assoc_L in Hsr.
      apply sorted_app in Hsr as (_ & Hsr & _). by apply (sorted_last _ _ _ Hsr).
    + destruct Hj as (v & kvs & ->). rewrite length_app Nat.add_1_r in H1. apply snoc_inv in H1 as (Ls & L' & -> & H1).
      rewrite lefts_app //= -!app_assoc in Hs. do 2 apply sorted_suffix in Hs. cbn in Hs.
      apply Forall_forall. intros x Hx. destruct (before (CutLe k) x.1) eqn:E; [|done]. apply before_le in E.
      assert (klt k x.1) as Hk by (apply (sorted_head _ _ _ Hs), elem_of_app; by left).
      destruct E as [E|E]; [|rewrite E in Hk]; exfalso; [by apply (klt_irrefl k); etrans|by apply klt_irrefl in Hk].
Qed.

(** ** On the way down *)

Definition search_at (n h : nat) (p : Z) (r : Root) L1 L L2 : hProp N :=
  ∃ par pi, ctx_at n h p par pi r L1 L2 ∗ tree_at h (least n h) p par pi L.

Lemma as_header_lookup h p nd s : (STATIC_END <= p)%Z → cells s !! p = Some nd → as_header (NodeRef_ h p) s = Ret (nd, s).
Proof. intros Hp Hs. unfold as_header, load. cbn. by rewrite not_shared // Hs. Qed.

Lemma new_edge_lookup h p nd i s : (STATIC_END <= p)%Z → cells s !! p = Some nd → i ≤ length (keys nd) →
  new_edge (NodeRef_ h p) i s = Ret (Handle_ (NodeRef_ h p) i, s).
Proof.
  intros Hp Hs Hi. unfold new_edge, len, mbind, M_bind. rewrite (as_header_lookup _ _ nd) //=.
  by rewrite (proj2 (Nat.leb_le _ _) Hi).
Qed.

Lemma descend_lookup h p nd es i e s : cells s !! p = Some nd → edges nd = Some es → es !! i = Some e →
  descend (Handle_ (NodeRef_ (S h) p) i) s = Ret (NodeRef_ h e, s).
Proof.
  intros Hs He Hi. unfold descend, load, edges_of, get_unchecked, mbind, M_bind. cbn. by rewrite Hs /= He /= Hi /= Nat.sub_0_r.
Qed.

(** The node where the search is: a leaf, or an internal node with its children. *)
Lemma search_leaf n p r L1 L L2 : search_at n 0 p r L1 L L2 ⊢ ∃ par pi, ⌜STATIC_END <= p⌝%Z ∧ p ↦ leaf_node par pi L ∗
  (∀ kvs1 kvs2, ⌜L = kvs1 ++ kvs2⌝ → p ↦ leaf_node par pi L -∗
     godown_at r (Handle_ (NodeRef_ 0 p) (length kvs1)) (L1 ++ kvs1) (kvs2 ++ L2)).
Proof.
  iIntros "(%par & %pi & Hc & Ht)". cbn [tree_at]. iDestruct "Ht" as ([Hl Hp]) "Hn". iExists par, pi.
  iSplit; [done|]. iFrame "Hn". iIntros (kvs1 kvs2 ->) "Hn". iExists n, p, par, pi, L1, L2, kvs1, kvs2.
  iSplit; [done|]. iFrame "Hc". by iSplit.
Qed.

Lemma search_inner n h p r L1 L L2 : search_at n (S h) p r L1 L L2 ⊢ ∃ par pi kvs (cs : list (Z * list (K * V))),
  ⌜(STATIC_END <= p)%Z ∧ length cs = S (length kvs) ∧ L = inter cs.*2 kvs⌝ ∧ p ↦ inner_node par pi kvs cs.*1 ∗
  (∀ kvs1 kvs2 cs1 e Le cs2, ⌜kvs = kvs1 ++ kvs2 ∧ cs = cs1 ++ (e, Le) :: cs2 ∧ length cs1 = length kvs1⌝ →
     p ↦ inner_node par pi kvs cs.*1 -∗
     search_at (S n) h e r (L1 ++ lefts cs1.*2 kvs1) Le (rights kvs2 cs2.*2 ++ L2)).
Proof.
  iIntros "(%par & %pi & Hc & Ht)". iDestruct (tree_inner_inv with "Ht") as (kvs cs (Hl & Hp & Hcs & ->)) "[Hn Hcs]".
  iExists par, pi, kvs, cs. iSplit; [done|]. iFrame "Hn".
  iIntros (kvs1 kvs2 cs1 e Le cs2 (-> & -> & H1)) "Hn". rewrite children_focus. iDestruct "Hcs" as "(Hcs1 & Ht & Hcs2)".
  iExists (Some p), (Some (length cs1)). iFrame "Ht". cbn [ctx_at].
  iExists p, par, pi, kvs1, kvs2, cs1, cs2, L1, L2. rewrite fmap_app. iFrame.
  iPureIntro. split_and!; (done || solve_len).
Qed.

Lemma holds_node p (nd : N) P F s : holds ((p ↦ nd ∗ P) ∗ F)%I (cells s) → cells s !! p = Some nd.
Proof.
  intros H. apply holds_sep in H as (h1 & h2 & H1 & _ & _ & H & _). apply holds_sep in H as (h3 & h4 & H3 & _ & _ & Hn & _).
  eapply (proj1 (points_to_lookup p nd h3 _ Hn _)).
  Unshelve. by etrans.
Qed.

(** One step of the search for a cut. *)
Lemma edge_step W F r n h p c found L1 L L2 s : sorted W → W = L1 ++ L ++ L2 → cuts c L1 L2 → at_end c found L →
  holds (search_at n h p r L1 L L2 ∗ F)%I (cells s) →
  ∃ nd i found', cells s !! p = Some nd ∧ cut_edge (NodeRef_ h p) found c s = Ret ((i, found'), s) ∧
    new_edge (NodeRef_ h p) i s = Ret (Handle_ (NodeRef_ h p) i, s) ∧ cut_index c i (keys nd) ∧
    match h with
    | O => ∃ W1 W2, W = W1 ++ W2 ∧ cuts c W1 W2 ∧ holds (godown_at r (Handle_ (NodeRef_ 0 p) i) W1 W2 ∗ F)%I (cells s)
    | S h => ∃ e L1' L' L2', descend (Handle_ (NodeRef_ (S h) p) i) s = Ret (NodeRef_ h e, s) ∧
        W = L1' ++ L' ++ L2' ∧ cuts c L1' L2' ∧ at_end c found' L' ∧
        holds (search_at (S n) h e r L1' L' L2' ∗ F)%I (cells s)
    end.
Proof.
  intros Hs -> Hc He Hh. pose proof (sorted_mid _ _ _ Hs) as HsL. destruct h as [|h].
  - apply (holds_entails _ _ _ (bi.sep_mono_l _ _ _ (search_leaf _ _ _ _ _ _))) in Hh.
    destruct Hh as (h1 & h2 & Hcs & Hd & (par & pi & Hp & Hv) & HF).
    assert (holds ((p ↦ leaf_node par pi L ∗ _) ∗ F)%I (cells s)) as Hv' by (exists h1, h2; split_and!; [done|done|exact Hv|done]).
    pose proof (holds_node _ _ _ _ _ Hv') as Hlook.
    destruct (cut_edge_spec (NodeRef_ 0 p) found c L _ s (as_header_lookup _ _ _ _ Hp Hlook) eq_refl HsL He)
      as (kvs1 & kvs2 & found' & HL & Hrun & Hk & _).
    exists (leaf_node par pi L), (length kvs1), found'. split_and!; [done|done| |by rewrite HL; apply cut_index_app|].
    { apply (new_edge_lookup _ _ _ _ _ Hp Hlook). rewrite HL. solve_len. }
    exists (L1 ++ kvs1), (kvs2 ++ L2). split_and!; [by rewrite HL -!app_assoc| |].
    + destruct Hc, Hk. split; [by apply all_before_app|by apply none_before_app].
    + eapply holds_entails; [|exact Hv']. iIntros "[[Hn H] $]". by iApply ("H" with "[] Hn").
  - apply (holds_entails _ _ _ (bi.sep_mono_l _ _ _ (search_inner _ _ _ _ _ _ _))) in Hh.
    destruct Hh as (h1 & h2 & Hcs & Hd & (par & pi & kvs & cs & (Hp & Hl & ->) & Hv) & HF).
    assert (holds ((p ↦ inner_node par pi kvs cs.*1 ∗ _) ∗ F)%I (cells s)) as Hv' by (exists h1, h2; split_and!; [done|done|exact Hv|done]).
    pose proof (holds_node _ _ _ _ _ Hv') as Hlook.
    assert (kvs `sublist_of` inter cs.*2 kvs) as Hsub by (apply own_sublist; by rewrite length_fmap).
    assert (at_end c found kvs) as Hek.
    { intros Hf. specialize (He Hf). destruct c; [..|done|done]; by eapply sublist_Forall. }
    destruct (cut_edge_spec (NodeRef_ (S h) p) found c kvs _ s (as_header_lookup _ _ _ _ Hp Hlook) eq_refl
      (sublist_sorted _ _ Hsub HsL) Hek) as (kvs1 & kvs2 & found' & Hk & Hrun & Hck & Hj).
    exists (inner_node par pi kvs cs.*1), (length kvs1), found'. split_and!; [done|done| |by rewrite Hk; apply cut_index_app|].
    { apply (new_edge_lookup _ _ _ _ _ Hp Hlook). rewrite Hk. solve_len. }
    destruct (split_length cs (length kvs1) (S (length kvs2))) as (cs1 & [|[e Le] cs2] & Hcs' & H1 & [=H2]).
    { rewrite Hl Hk length_app. lia. }
    exists e, (L1 ++ lefts cs1.*2 kvs1), Le, (rights kvs2 cs2.*2 ++ L2).
    assert (inter cs.*2 kvs = lefts cs1.*2 kvs1 ++ Le ++ rights kvs2 cs2.*2) as Hi.
    { by rewrite Hcs' Hk fmap_app fmap_cons inter_focus ?length_fmap. }
    rewrite Hi in HsL He.
    destruct (cut_child c found' L1 cs1.*2 kvs1 Le cs2.*2 kvs2 L2) as [Hc' He'];
      [by rewrite length_fmap|by rewrite length_fmap|done|done|done| |].
    { intros [-> |?]%Hj; [by left|by right]. }
    split_and!; [|by rewrite Hi -!app_assoc|done|done|].
    + eapply descend_lookup; [exact Hlook|done|]. rewrite Hcs' -H1. apply lookup_middle.
    + eapply holds_entails; [|exact Hv']. iIntros "[[Hn H] $]". by iApply ("H" with "[] Hn").
Qed.

(** A cut that lies in the tree below a node, and one that has been found. *)
Definition cut_in W F r n h p c found s : Prop :=
  ∃ L1 L L2, W = L1 ++ L ++ L2 ∧ cuts c L1 L2 ∧ at_end c found L ∧ holds (search_at n h p r L1 L L2 ∗ F)%I (cells s).
Definition cut_found W F r c hd s : Prop :=
  ∃ W1 W2, W = W1 ++ W2 ∧ cuts c W1 W2 ∧ holds (godown_at r hd W1 W2 ∗ F)%I (cells s).

(** Both cuts go down together; until they part, they are in the same node. *)
Lemma range_loop_spec W F r lo hi s h : sorted W → range_error lo hi = None →
  ∀ fuel n p q min_found max_found (diverged : bool), h ≤ fuel → (diverged = false → p = q) →
  cut_in W F r n h p (lo_cut lo) min_found s → cut_in W F r n h q (hi_cut hi) max_found s →
  ∃ f b, range_loop fuel lo hi (NodeRef_ h p) (NodeRef_ h q) min_found max_found diverged s = Ret ((f, b), s) ∧
    cut_found W F r (lo_cut lo) f s ∧ cut_found W F r (hi_cut hi) b s.
Proof.
  intros Hs Hok. induction h as [|h IH];
    intros fuel n p q mf xf div Hf Hdiv (L1 & L & L2 & HW & Hc & He & Hv) (L1' & L' & L2' & HW' & Hc' & He' & Hv');
    destruct (edge_step W F r n _ p _ mf L1 L L2 s Hs HW Hc He Hv) as (nd & i & mf' & Hnd & Hi & Hni & Hci & Hmin);
    destruct (edge_step W F r n _ q _ xf L1' L' L2' s Hs HW' Hc' He' Hv') as (nd' & j & xf' & Hnd' & Hj & Hnj & Hcj & Hmax).
  all: assert (div = false → p = q ∧ i ≤ j) as Hle.
  1, 3: intros Hd; rewrite -(Hdiv Hd) Hnd in Hnd'; injection Hnd' as <-; split; [by apply Hdiv|by eapply cut_index_le].
  all: assert ((if div then mret true
                else if j <? i then panic "Ord is ill-defined in BTreeMap range"
                else mret (negb (i =? j)) : M bool) s = Ret (div || negb (i =? j), s)) as Hd.
  1, 3: destruct div; [done|]; destruct (Hle eq_refl) as [_ Hij]; by rewrite (proj2 (Nat.ltb_ge _ _) Hij).
  - exists (Handle_ (NodeRef_ 0 p) i), (Handle_ (NodeRef_ 0 q) j). split; [|done].
    destruct fuel; cbn [range_loop]; rewrite min_edge_cut max_edge_cut; unfold mbind, M_bind;
      by rewrite Hi Hj Hd Hni Hnj.
  - destruct fuel as [|fuel]; [lia|].
    destruct Hmin as (e & M1 & M & M2 & Hde & HM & HMc & HMe & HMv).
    destruct Hmax as (e' & M1' & M' & M2' & Hde' & HM' & HMc' & HMe' & HMv').
    destruct (IH fuel (S n) e e' mf' xf' (div || negb (i =? j))) as (f & b & Hrun & Hres).
    + lia.
    + intros [Hdf Hij]%orb_false_iff. apply negb_false_iff, Nat.eqb_eq in Hij as ->.
      destruct (Hle Hdf) as [-> _]. rewrite Hde in Hde'. by injection Hde'.
    + by exists M1, M, M2.
    + by exists M1', M', M2'.
    + exists f, b. split; [|done]. cbn [range_loop]. rewrite min_edge_cut max_edge_cut. unfold mbind, M_bind.
      by rewrite Hi Hj Hd Hni Hnj /= Hde Hde' Hrun.
Qed.
End edges.

(** ** Ranges as queues *)

Section queues.
Context {K V A : Type} `{!EqDecision K, !Countable K, !Ord K, !GlobalAlloc NodeLayout A}.
#[local] Abbreviation N := (Node K V).
#[local] Abbreviation M := (M (store N A)).
Implicit Types (L : list (K * V)) (X : gmap K V) (F : hProp N) (s : store N A).

(** The two edges in a tree with the entries [W], with the entries [L] between them. *)
Definition between F (r : Root) W (rg : Range) L s : Prop :=
  al_inv (live (cells s)) (al s) ∧
  ((W = [] ∧ L = [] ∧ handle_eq (front rg) (back rg) = true) ∨
   ∃ L1 L2, W = L1 ++ L ++ L2 ∧ holds (godown_at r (front rg) L1 (L ++ L2) ∗ F)%I (cells s) ∧
     holds (godown_at r (back rg) (L1 ++ L) L2 ∗ F)%I (cells s)).

(** What only reads keeps the store. *)
Lemma run_reading {B} (m : M B) P (Q : B → hProp N) F s : readonly m →
  (P ⊢ hwp m Q) → holds (P ∗ F)%I (cells s) → al_inv (live (cells s)) (al s) →
  ∃ b, m s = Ret (b, s) ∧ holds (Q b ∗ F)%I (cells s).
Proof.
  intros Hro H HP Hi. destruct (run_framed m P Q F s H HP Hi) as (b & s' & Hrun & HQ & _).
  pose proof (Hro _ _ _ Hrun) as ->. by exists b.
Qed.

Lemma between_eq F r W rg L s : between F r W rg L s → handle_eq (front rg) (back rg) = match L with [] => true | _ => false end.
Proof.
  intros [_ [(_ & -> & H)|(L1 & L2 & _ & Hf & Hb)]]; [done|].
  apply holds_sep in Hf as (h1 & h2 & H1 & _ & _ & Hf & _). apply holds_sep in Hb as (h3 & h4 & H3 & _ & _ & Hb & _).
  rewrite (same_place _ _ _ _ _ _ _ _ _ _ Hf H1 Hb H3) length_app.
  destruct L; [by rewrite bool_decide_true; [|cbn; lia]|by rewrite bool_decide_false; [|cbn; lia]].
Qed.

(** A step at either end, seen in a whole store. *)
Lemma step_front F r f b kv L1 L2 fuel s : root_height r ≤ fuel → al_inv (live (cells s)) (al s) →
  holds (godown_at r f L1 (kv :: L2) ∗ F)%I (cells s) →
  ∃ f', next_unchecked fuel (Range_ f b) s = Ret ((Range_ f' b, kv), s) ∧ holds (godown_at r f' (L1 ++ [kv]) L2 ∗ F)%I (cells s).
Proof.
  intros Hf Hi H. destruct (run_reading (next_unchecked fuel (Range_ f b)) (godown_at r f L1 (kv :: L2))
    (λ x, ∃ f', ⌜x = (Range_ f' b, kv)⌝ ∧ godown_at r f' (L1 ++ [kv]) L2)%I F s) as (x & Hrun & Hx);
    [apply readonly_next_unchecked| |done|done|].
  - iIntros "H". iApply (hwp_next_unchecked with "H"); [done|]. iIntros (f') "H". iExists f'. by iSplit.
  - destruct Hx as (h1 & h2 & Hc & Hd & (f' & -> & Hx) & HF). exists f'. split; [done|]. by exists h1, h2.
Qed.

Lemma step_back F r f b kv L1 L2 fuel s : root_height r ≤ fuel → al_inv (live (cells s)) (al s) →
  holds (godown_at r b (L1 ++ [kv]) L2 ∗ F)%I (cells s) →
  ∃ b', next_back_unchecked fuel (Range_ f b) s = Ret ((Range_ f b', kv), s) ∧ holds (godown_at r b' L1 (kv :: L2) ∗ F)%I (cells s).
Proof.
  intros Hf Hi H. destruct (run_reading (next_back_unchecked fuel (Range_ f b)) (godown_at r b (L1 ++ [kv]) L2)
    (λ x, ∃ b', ⌜x = (Range_ f b', kv)⌝ ∧ godown_at r b' L1 (kv :: L2))%I F s) as (x & Hrun & Hx);
    [apply readonly_next_back_unchecked| |done|done|].
  - iIntros "H". iApply (hwp_next_back_unchecked with "H"); [done|]. iIntros (b') "H". iExists b'. by iSplit.
  - destruct Hx as (h1 & h2 & Hc & Hd & (b' & -> & Hx) & HF). exists b'. split; [done|]. by exists h1, h2.
Qed.

Lemma between_front F r W rg kv L fuel s : root_height r ≤ fuel → between F r W rg (kv :: L) s →
  ∃ rg', next_unchecked fuel rg s = Ret ((rg', kv), s) ∧ between F r W rg' L s.
Proof.
  destruct rg as [f b]. intros Hf [Hi [(_ & [=] & _)|(L1 & L2 & -> & Hfr & Hbk)]]. cbn [front back] in *.
  destruct (step_front F r f b kv L1 (L ++ L2) fuel s Hf Hi Hfr) as (f' & Hrun & Hf').
  exists (Range_ f' b). split; [done|]. split; [done|]. right. exists (L1 ++ [kv]), L2.
  split; [by rewrite -app_assoc|]. split; [done|]. by rewrite -app_assoc.
Qed.

Lemma between_back F r W rg L kv fuel s : root_height r ≤ fuel → between F r W rg (L ++ [kv]) s →
  ∃ rg', next_back_unchecked fuel rg s = Ret ((rg', kv), s) ∧ between F r W rg' L s.
Proof.
  destruct rg as [f b]. intros Hf [Hi [(_ & H & _)|(L1 & L2 & -> & Hfr & Hbk)]]; [by destruct L|]. cbn [front back] in *.
  rewrite app_assoc in Hbk. destruct (step_back F r f b kv (L1 ++ L) L2 fuel s Hf Hi Hbk) as (b' & Hrun & Hb').
  exists (Range_ f b'). split; [done|]. split; [done|]. right. exists L1, (kv :: L2).
  split; [by rewrite -app_assoc|]. split; [|done]. by rewrite -app_assoc in Hfr.
Qed.

Lemma range_is_deque F r W fuel : root_height r ≤ fuel →
  deque_like (range_next fuel) (range_next_back fuel) (between F r W).
Proof.
  intros Hf. split; intros rg L s H; pose proof (between_eq _ _ _ _ _ _ H) as Heq.
  - unfold range_next. rewrite Heq. destruct L as [|kv L]; [by exists rg|].
    destruct (between_front F r W rg kv L fuel s Hf H) as (rg' & Hrun & H'). exists rg'. split; [|done].
    unfold mbind, M_bind. by rewrite Hrun.
  - unfold range_next_back. rewrite Heq. destruct L as [|kv L _] using rev_ind; [by exists rg|].
    destruct (between_back F r W rg L kv fuel s Hf H) as (rg' & Hrun & H'). exists rg'.
    rewrite last_snoc removelast_last. split; [|done]. destruct (L ++ [kv]) eqn:E; [by destruct L|].
    unfold mbind, M_bind. by rewrite Hrun.
Qed.

(** Iterators count what is left. *)
Definition iter_between F (r : Root) W (it : Iter) L s : Prop := iter_length it = length L ∧ between F r W (BTreeIter.range it) L s.

Lemma iter_is_deque F r W fuel : root_height r ≤ fuel →
  deque_like (iter_next fuel) (iter_next_back fuel) (iter_between F r W).
Proof.
  intros Hf. split; intros [rg n] L s [Hn H]; cbn [iter_length BTreeIter.range] in *; subst n.
  - unfold iter_next. cbn [iter_length]. destruct L as [|kv L]; [by exists (Iter_ rg 0)|].
    destruct (between_front F r W rg kv L fuel s Hf H) as (rg' & Hrun & H'). cbn [length Nat.eqb BTreeIter.range].
    rewrite Nat.sub_succ Nat.sub_0_r. exists (Iter_ rg' (length L)). split; [|done].
    cbv zeta. unfold mbind, M_bind. by rewrite Hrun.
  - unfold iter_next_back. cbn [iter_length]. destruct L as [|kv L _] using rev_ind; [by exists (Iter_ rg 0)|].
    destruct (between_back F r W rg L kv fuel s Hf H) as (rg' & Hrun & H').
    rewrite last_snoc removelast_last length_app Nat.add_1_r. cbn [Nat.eqb BTreeIter.range].
    rewrite Nat.sub_succ Nat.sub_0_r. exists (Iter_ rg' (length L)). split; [|done].
    cbv zeta. unfold mbind, M_bind. by rewrite Hrun.
Qed.

(** ** Ranges and iterators of a map *)

Lemma root_search r L : root_at r L ⊢ search_at 0 (root_height r) (root_node r) r [] L [].
Proof.
  iIntros "(%pi & Ht)". iExists None, pi. iFrame "Ht". cbn [ctx_at]. iSplit; [|done].
  iPureIntro. by destruct r.
Qed.

Lemma map_range_spec m n L F s lo hi : holds (map_at m n L ∗ F)%I (cells s) → al_inv (live (cells s)) (al s) →
  range_error lo hi = None → ∃ rg, map_range m lo hi s = Ret (rg, s) ∧
    between F (root m) L rg (filter (λ kv, in_range lo hi kv.1 = true) L) s.
Proof.
  intros Hm Hi Hok. pose proof (map_at_counted _ _ _ _ _ Hm) as (_ & Hs & _).
  unfold map_range, range_search. rewrite check_bounds_error Hok.
  destruct Hm as (h1 & h2 & Hc & Hd & [_ [[(Hr & -> & _) _]|Hroot]] & HF).
  - rewrite Hr. exists (Range_ (Handle_ (NodeRef_ 0 EMPTY_ROOT_NODE) 0) (Handle_ (NodeRef_ 0 EMPTY_ROOT_NODE) 0)).
    split; [by destruct lo, hi|]. split; [done|]. by left.
  - assert (holds (search_at 0 (root_height (root m)) (root_node (root m)) (root m) [] L [] ∗ F)%I (cells s)) as Hv.
    { exists h1, h2. split_and!; [done|done| |done]. by eapply holds_entails; [apply root_search|]. }
    destruct (range_loop_spec L F (root m) lo hi s (root_height (root m)) Hs Hok (root_height (root m)) 0
      (root_node (root m)) (root_node (root m)) false false false) as (f & b & Hrun & Hfr & Hbk); [done|done| | |].
    1, 2: exists [], L, []; rewrite app_nil_r; split_and!; [done|split; constructor|done|done].
    destruct Hfr as (W1 & W2 & HW & Hcut & Hfr). destruct Hbk as (W1' & W2' & HW' & Hcut' & Hbk).
    exists (Range_ f b). split; [unfold root_ref; cbv [mbind M_bind mret M_ret]; cbn [height]; by rewrite Hrun|]. split; [done|]. right.
    destruct (cuts_between lo hi W1 W2 W1' W2' Hok) as [H1 H2]; [by rewrite -HW|done|done|].
    exists W1, W2'. cbn [front back]. rewrite HW. rewrite -H2 -H1. by split_and!.
Qed.

Lemma hwp_first_place r L : root_at r L ⊢ hwp (first_leaf_edge (root_ref r) : M _) (λ f, godown_at r f [] L).
Proof.
  iIntros "(%pi & Ht)". iApply (hwp_first_leaf_edge _ _ 0 with "Ht"); [done|].
  iIntros (t tpar tpi kvs rest (-> & Ht & Hl)) "Hleaf Hctx". iApply first_godown.
  iExists pi, t, tpar, tpi, kvs, rest. iSplit; [done|]. iFrame.
Qed.

Lemma hwp_last_place r L : root_at r L ⊢ hwp (last_leaf_edge (root_ref r) : M _) (λ b, godown_at r b L []).
Proof.
  iIntros "(%pi & Ht)". iApply (hwp_last_leaf _ r [] _ 0 _ _ _ [] L with "[] Ht"); [done| |by iIntros (hd) "H"].
  cbn [ctx_at]. iSplit; [|done]. iPureIntro. by destruct r.
Qed.

Lemma map_iter_spec m L F s : holds (map_at m (length L) L ∗ F)%I (cells s) → al_inv (live (cells s)) (al s) →
  ∃ it, BTreeIter.iter m s = Ret (it, s) ∧ iter_between F (root m) L it L s.
Proof.
  intros Hm Hi. pose proof (map_at_counted _ _ _ _ _ Hm) as (Hn & _ & _).
  destruct Hm as (h1 & h2 & Hc & Hd & [_ [[(Hr & -> & _) _]|Hroot]] & HF); unfold BTreeIter.iter; rewrite Hn.
  - rewrite Hr. eexists. split; [done|]. split; [done|]. split; [done|]. by left.
  - assert (holds (root_at (root m) L ∗ F)%I (cells s)) as Hv by by exists h1, h2.
    destruct (run_reading _ _ _ F s (readonly_first_leaf_edge _) (hwp_first_place _ _) Hv Hi) as (f & Hf & Hfr).
    destruct (run_reading _ _ _ F s (readonly_last_leaf_edge _) (hwp_last_place _ _) Hv Hi) as (b & Hb & Hbk).
    exists (Iter_ (Range_ f b) (length L)). split; [unfold mbind, M_bind; by rewrite Hf Hb|].
    split; [done|]. split; [done|]. right. exists [], []. cbn [BTreeIter.range front back app]. by rewrite app_nil_r.
Qed.

(** The entries of a finite map in the order of their keys. *)
Definition entries_of X L : Prop := sorted L ∧ X = list_to_map L.

(** Iterators: all entries, as long as the count is right. *)
Lemma iter_spec m X F s : is_map m (size X) X F s →
  ∃ it L, BTreeIter.iter m s = Ret (it, s) ∧ entries_of X L ∧ length_ m = length L ∧ iter_between F (root m) L it L s.
Proof.
  intros (L & -> & Hm & Hi). pose proof (map_at_counted _ _ _ _ _ Hm) as (Hn & Hs & _).
  rewrite size_to_map in Hm Hn; [|by apply sorted_NoDup..].
  destruct (map_iter_spec m L F s Hm Hi) as (it & Hrun & Hit). by exists it, L.
Qed.

(** C27: Ranges and iterators are double-ended queues.  A range with its bounds in the wrong
    order is a panic; otherwise it yields the entries within the bounds in the order of
    their keys, and nothing else, from both ends, in whatever order they are asked for.
    So does an iterator with all entries, as long as the count is right.  Nothing
    changes.  The iterator by value answers the same; dropping it drops each entry that is
    left once and gives every node back, and leaves the rest of the heap as it was. *)
Theorem iterators_refine m n X F s lo hi (calls : list bool) : is_map m n X F s →
  match range_error lo hi with
  | Some msg => map_range m lo hi s = Panic msg
  | None => ∃ rg L rg', map_range m lo hi s = Ret (rg, s) ∧ entries_of X L ∧
      pulls (range_next (root_height (root m))) (range_next_back (root_height (root m))) calls rg s =
        Ret ((rg', deque calls (filter (λ kv, in_range lo hi kv.1 = true) L)), s)
  end ∧
  (n = size X → ∃ it L it', BTreeIter.iter m s = Ret (it, s) ∧ entries_of X L ∧ size_hint it = (n, Some n) ∧
     iter_last (root_height (root m)) it s = Ret (last L, s) ∧
     pulls (iter_next (root_height (root m))) (iter_next_back (root_height (root m))) calls it s =
       Ret ((it', deque calls L), s)) ∧
  (n = size X → ∃ L s', drain m calls s = Ret ((deque calls L, left_of calls L), s') ∧ entries_of X L ∧
     holds F (cells s') ∧ al_inv (live (cells s')) (al s')).
Proof.
  intros Hm. split_and!.
  - destruct (range_error lo hi) as [msg|] eqn:E; [unfold map_range, range_search; by rewrite check_bounds_error E|].
    destruct Hm as (L & -> & Hm & Hi). destruct (map_range_spec m n L F s lo hi Hm Hi E) as (rg & Hrun & Hrg).
    pose proof (map_at_counted _ _ _ _ _ Hm) as (_ & Hs & _).
    destruct (pulls_deque _ _ _ (range_is_deque F _ _ _ (reflexivity _)) calls _ _ _ Hrg) as (rg' & Hq).
    by exists rg, L, rg'.
  - intros ->. destruct (iter_spec m X F s Hm) as (it & L & Hrun & HL & Hlen & Hit).
    pose proof (iter_is_deque F (root m) L _ (reflexivity _)) as Hd. destruct (deque_next_back _ _ _ Hd _ _ _ Hit) as (it1 & Hback & _).
    assert (iter_length it = size X) as Hsize.
    { destruct Hit as [-> _]. destruct HL as [Hs ->]. by rewrite size_to_map; [|apply sorted_NoDup]. }
    destruct (pulls_deque _ _ _ (iter_is_deque F _ _ _ (reflexivity _)) calls _ _ _ Hit) as (it' & Hq).
    exists it, L, it'. split_and!; [done..|by unfold size_hint; rewrite Hsize| |done].
    by unfold iter_last, mbind, M_bind; rewrite Hback.
  - intros ->. destruct (drain_refines m X F s calls Hm) as (L & s' & Hrun & Hs & HX & Hh & Hi). by exists L, s'.
Qed.

Lemma loop_between F r W fuel s L : root_height r ≤ fuel → ∀ turns it, length L ≤ turns → iter_between F r W it L s →
  iter_loop turns fuel it s = Ret (L, s).
Proof.
  intros Hf. induction L as [|kv L IH]; intros turns it Ht H;
    destruct (deque_next _ _ _ (iter_is_deque F r W fuel Hf) _ _ _ H) as (it' & Hrun & H'); cbn [head tail] in *.
  - destruct turns; cbn [iter_loop]; unfold mbind, M_bind; by rewrite Hrun.
  - destruct turns as [|turns]; cbn in Ht; [lia|]. cbn [iter_loop]. unfold mbind, M_bind. rewrite Hrun.
    rewrite (IH turns it'); [done|lia|done].
Qed.

Lemma map_entries_spec m X F s : is_map m (size X) X F s → ∃ L, entries_of X L ∧ map_entries m s = Ret (L, s).
Proof.
  intros Hm. destruct (iter_spec m X F s Hm) as (it & L & Hrun & HL & Hlen & Hit). exists L. split; [done|].
  unfold map_entries, mbind, M_bind. rewrite Hrun. eapply loop_between; [done|by rewrite Hlen|exact Hit].
Qed.

(** A [for] loop over a range. *)
Fixpoint range_collect (turns fuel : nat) (rg : Range) : M (list (K * V)) :=
  '(rg, kv) ← range_next fuel rg;
  match kv with
  | None => mret []
  | Some kv =>
      match turns with
      | O => ub "still iterating"
      | S turns => kvs ← range_collect turns fuel rg; mret (kv :: kvs)
      end
  end.
Definition range_entries (m : BTreeMap) (lo hi : Bound K) : M (list (K * V)) :=
  rg ← map_range m lo hi; range_collect (length_ m) (root_height (root m)) rg.

Lemma collect_between F r W fuel s L : root_height r ≤ fuel → ∀ turns rg, length L ≤ turns → between F r W rg L s →
  range_collect turns fuel rg s = Ret (L, s).
Proof.
  intros Hf. induction L as [|kv L IH]; intros turns rg Ht H;
    destruct (deque_next _ _ _ (range_is_deque F r W fuel Hf) _ _ _ H) as (rg' & Hrun & H'); cbn [head tail] in *.
  - destruct turns; cbn [range_collect]; unfold mbind, M_bind; by rewrite Hrun.
  - destruct turns as [|turns]; cbn in Ht; [lia|]. cbn [range_collect]. unfold mbind, M_bind. rewrite Hrun.
    rewrite (IH turns rg'); [done|lia|done].
Qed.

Lemma range_entries_spec m n X F s lo hi : is_map m n X F s → range_error lo hi = None →
  ∃ L, entries_of X L ∧ range_entries m lo hi s = Ret (filter (λ kv, in_range lo hi kv.1 = true) L, s).
Proof.
  intros (L & -> & Hm & Hi) Hok. pose proof (map_at_counted _ _ _ _ _ Hm) as (Hn & Hs & Hl).
  destruct (map_range_spec m n L F s lo hi Hm Hi Hok) as (rg & Hrun & Hrg). exists L. split; [done|].
  unfold range_entries, mbind, M_bind. rewrite Hrun. eapply collect_between; [done| |exact Hrg].
  etrans; [apply length_filter|]. lia.
Qed.
End queues.

(** ** Witnesses *)

(** A map with the keys below 40 but 7. *)
Definition forty_store := run_ops BTreeMap_new (fill 40 ++ [Remove 7]%Z) (bump_store []).

Lemma iterators_refine_witness :
  match forty_store with
  | Ret ((m, _), s) =>
      (∃ rg L rg', map_range m (Included 5%Z) (Excluded 12%Z) s = Ret (rg, s) ∧ sorted L ∧
         pulls (range_next (root_height (root m))) (range_next_back (root_height (root m))) [false; true; true] rg s =
           Ret ((rg', deque [false; true; true] (filter (λ kv, in_range (Included 5%Z) (Excluded 12%Z) kv.1 = true) L)), s)) ∧
      (∃ it, BTreeIter.iter m s = Ret (it, s)) ∧
      ∃ L s', drain m [false; true; true] s = Ret ((deque [false; true; true] L, left_of [false; true; true] L), s') ∧ cells s' = ∅
  | _ => False
  end.
Proof.
  destruct forty_store as [[[m rs] s]|?|?] eqn:E; [|by vm_compute in E..]. unfold forty_store in E.
  assert (forallb is_ok rs = true) as Hok by (vm_compute in E; by injection E as <- <- <-).
  destruct (iterators_refine m _ _ _ s (Included 5%Z) (Excluded 12%Z) [false; true; true]
    (run_is_map _ (bump_store []) m rs s (bump_store_inv _) E Hok)) as ((rg & L & rg' & Hrun & (Hs & _) & Hq) & Hit & Hd).
  split; [exists rg, L, rg'; split; [exact Hrun|split; [exact Hs|exact Hq]]|].
  split; [destruct (Hit eq_refl) as (it & _ & _ & Hi & _); exists it; exact Hi|].
  destruct (Hd eq_refl) as (L' & s' & Hrun' & _ & Hc & _). exists L', s'. split; [exact Hrun'|exact Hc].
Defined.

(** Concretely, across several leaves. *)
Example range_of_forty :
  (match forty_store with
   | Ret ((m, _), s) =>
       match (rg ← map_range m (Excluded 4%Z) (Included 10%Z);
              pulls (range_next 1) (range_next_back 1) [false; true; false; true; false; true; false] rg) s with
       | Ret ((_, xs), _) => xs
       | _ => []
       end
   | _ => []
   end) = [Some (5, 5); Some (10, 10); Some (6, 6); Some (9, 9); Some (8, 8); None; None]%Z.
Proof. by vm_compute. Qed.
