(* ===== verification/BTreeMut.v ===== *)
(** * BTreeMut: iterating over a B-tree map to change its values ([map.rs])

    [IterMut], [RangeMut] and [ValuesMut] hand out places: a handle whose value may be
    read and replaced while the iteration goes on.  Nodes keep their shape when a
    value is replaced, so that the edges at both ends stay good; the entries handed
    out are those of the map in their order, from either end, each of them once. *)

From S2P Require Import Prelude HeapLogic Node BTree Readonly NodeSpec BTreeSpec Rebalance BTreeRemove BTreeIter.
From S2P Require Import BTreeRefine BTreeRange BTreePlaces Deque BTreeRangeSpec.
From iris.proofmode Require Import proofmode.
From iris.prelude Require Import options.

#[local] Open Scope nat_scope.

Section definitions.
Context {K V A : Type} `{!Ord K, !GlobalAlloc NodeLayout A}.
#[local] Abbreviation M := (M (store (Node K V) A)).

(** [BTreeMap::range_mut] *)
Definition range_mut (m : BTreeMap) (lo hi : Bound K) : M Range :=
  '(f, b) ← range_search (root_ref (root m)) (root_ref (root m)) lo hi;
  mret (Range_ f b).

(** [RangeMut::next_unchecked]: the edge is moved first, then the reference is made. *)
Fixpoint mut_next_loop (fuel : nat) (cur_handle : Handle) : M (Handle * Handle) :=
  kv ← right_kv cur_handle;
  match kv with
  | Ok kv =>
      e ← right_edge kv; c ← descend e;
      front ← first_leaf_edge c;
      _ ← into_kv kv;
      mret (front, kv)
  | Err last_edge =>
      next_level ← ascend (hnode last_edge);
      cur_handle ← unwrap_unchecked (ok_ next_level);
      match fuel with O => ub "still climbing" | S fuel => mut_next_loop fuel cur_handle end
  end.
Definition mut_next_unchecked (fuel : nat) (r : Range) : M (Range * Handle) :=
  kv ← right_kv (front r);
  match kv with
  | Ok kv =>
      e ← right_edge kv;
      _ ← into_kv kv;
      mret (Range_ e (back r), kv)
  | Err last_edge =>
      next_level ← ascend (hnode last_edge);
      cur_handle ← unwrap_unchecked (ok_ next_level);
      '(front, kv) ← mut_next_loop fuel cur_handle;
      mret (Range_ front (back r), kv)
  end.

(** [RangeMut::next_back_unchecked] *)
Fixpoint mut_next_back_loop (fuel : nat) (cur_handle : Handle) : M (Handle * Handle) :=
  kv ← left_kv cur_handle;
  match kv with
  | Ok kv =>
      e ← left_edge kv; c ← descend e;
      back ← last_leaf_edge c;
      _ ← into_kv kv;
      mret (back, kv)
  | Err last_edge =>
      next_level ← ascend (hnode last_edge);
      cur_handle ← unwrap_unchecked (ok_ next_level);
      match fuel with O => ub "still climbing" | S fuel => mut_next_back_loop fuel cur_handle end
  end.
Definition mut_next_back_unchecked (fuel : nat) (r : Range) : M (Range * Handle) :=
  kv ← left_kv (back r);
  match kv with
  | Ok kv =>
      e ← left_edge kv;
      _ ← into_kv kv;
      mret (Range_ (front r) e, kv)
  | Err last_edge =>
      next_level ← ascend (hnode last_edge);
      cur_handle ← unwrap_unchecked (ok_ next_level);
      '(back, kv) ← mut_next_back_loop fuel cur_handle;
      mret (Range_ (front r) back, kv)
  end.

(** [RangeMut]'s [next] and [next_back] *)
Definition range_mut_next (fuel : nat) (r : Range) : M (Range * option Handle) :=
  if handle_eq (front r) (back r) then mret (r, None)
  else '(r, kv) ← mut_next_unchecked fuel r; mret (r, Some kv).
Definition range_mut_next_back (fuel : nat) (r : Range) : M (Range * option Handle) :=
  if handle_eq (front r) (back r) then mret (r, None)
  else '(r, kv) ← mut_next_back_unchecked fuel r; mret (r, Some kv).

(** [BTreeMap::iter_mut]; [IterMut]'s [next] and [next_back] *)
Definition iter_mut (m : BTreeMap) : M Iter :=
  f ← first_leaf_edge (root_ref (root m));
  b ← last_leaf_edge (root_ref (root m));
  mret (Iter_ (Range_ f b) (length_ m)).
Definition iter_mut_next (fuel : nat) (it : Iter) : M (Iter * option Handle) :=
  if iter_length it =? 0 then mret (it, None)
  else
    let n := iter_length it - 1 in
    '(r, kv) ← mut_next_unchecked fuel (BTreeIter.range it);
    mret (Iter_ r n, Some kv).
Definition iter_mut_next_back (fuel : nat) (it : Iter) : M (Iter * option Handle) :=
  if iter_length it =? 0 then mret (it, None)
  else
    let n := iter_length it - 1 in
    '(r, kv) ← mut_next_back_unchecked fuel (BTreeIter.range it);
    mret (Iter_ r n, Some kv).

(** [BTreeMap::values_mut]; [ValuesMut]'s [next] and [next_back].  The reference to the
    value is the place. *)
Definition values_mut (m : BTreeMap) : M Iter := iter_mut m.
Definition values_mut_next (fuel : nat) (it : Iter) : M (Iter * option Handle) := iter_mut_next fuel it.
Definition values_mut_next_back (fuel : nat) (it : Iter) : M (Iter * option Handle) := iter_mut_next_back fuel it.

(** What a caller does with a place: the value is replaced. *)
Definition change (f : K → V → V) (kv : Handle) : M (K * V) :=
  '(k, v) ← into_kv kv; _ ← replace_val kv (f k v); mret (k, v).

(** A sequence of calls, [true] for one of [next_back], where the value of each place
    handed out is replaced; the answers have the values before. *)
Fixpoint pulls_mut {St : Type} (next next_back : St → M (St * option Handle)) (f : K → V → V) (calls : list bool) (st : St) :
    M (St * list (option (K * V))) :=
  match calls with
  | [] => mret (st, [])
  | b :: calls =>
      '(st, x) ← (if b : bool then next_back st else next st);
      y ← match x with Some kv => y ← change f kv; mret (Some y) | None => mret None end;
      '(st, ys) ← pulls_mut next next_back f calls st;
      mret (st, y :: ys)
  end.

(** [for (k, v) in map.iter_mut() { *v = f(k, *v) }] *)
Fixpoint for_each_mut (f : K → V → V) (turns fuel : nat) (it : Iter) : M unit :=
  '(it, kv) ← iter_mut_next fuel it;
  match kv with
  | None => mret tt
  | Some kv =>
      match turns with
      | O => ub "still iterating"
      | S turns => _ ← change f kv; for_each_mut f turns fuel it
      end
  end.
Definition map_for_each (f : K → V → V) (m : BTreeMap) : M unit :=
  it ← iter_mut m; for_each_mut f (length_ m) (root_height (root m)) it.
End definitions.

(** ** A step hands out the place of the entry it passes *)

Section steps.
Context {K V A : Type} `{!Ord K, !GlobalAlloc NodeLayout A}.
#[local] Abbreviation N := (Node K V).
#[local] Abbreviation M := (M (store N A)).
Implicit Types (L : list (K * V)) (P : hProp N).

Lemma readonly_mut_next_unchecked fuel r : readonly (mut_next_unchecked fuel r : M _).
Proof.
  assert (∀ hd, readonly (mut_next_loop fuel hd : M (Handle * Handle))) as Hloop.
  { induction fuel as [|fuel IH]; intros hd; cbn [mut_next_loop]; unfold right_edge; solve_readonly. }
  unfold mut_next_unchecked, right_edge. solve_readonly.
Qed.
Lemma readonly_mut_next_back_unchecked fuel r : readonly (mut_next_back_unchecked fuel r : M _).
Proof.
  assert (∀ hd, readonly (mut_next_back_loop fuel hd : M (Handle * Handle))) as Hloop.
  { induction fuel as [|fuel IH]; intros hd; cbn [mut_next_back_loop]; unfold left_edge; solve_readonly. }
  unfold mut_next_back_unchecked, left_edge. solve_readonly.
Qed.

(** Moving an edge past an entry, with a reference to the entry made after it. *)
Lemma hwp_pass {B} (m : M Handle) P (G : Handle → hProp N) r kv k v L1 L2 (k' : Handle → M B) Q :
  readonly m → (P ⊢ found_at r kv k v L1 L2) → (P ⊢ hwp m G) →
  P -∗ (∀ e, (found_at r kv k v L1 L2 ∧ G e) -∗ hwp (k' e) Q) -∗ hwp (e ← m; _ ← into_kv kv; k' e) Q.
Proof.
  intros Hro Hf Hm. iIntros "HP HQ". iApply hwp_bind. iApply (hwp_wand with "[HP]"); [by iApply (hwp_readonly m P G)|].
  iIntros (e) "H". rewrite {1}Hf. iApply hwp_bind.
  iApply (hwp_look (into_kv kv) (found_at r kv k v L1 L2 ∧ G e) (λ x, x = (k, v)) with "H"); [auto with readonly| |].
  - rewrite bi.and_elim_l. apply hwp_found_read.
  - iIntros (x ->) "H". by iApply "HQ".
Qed.

Lemma hwp_mut_next r hd b k v L1 L2 fuel Q : root_height r ≤ fuel →
  godown_at r hd L1 ((k, v) :: L2) -∗
  (∀ hd' kv, (found_at r kv k v L1 L2 ∧ godown_at r hd' (L1 ++ [(k, v)]) L2) -∗ Q (Range_ hd' b, kv)) -∗
  hwp (mut_next_unchecked fuel (Range_ hd b) : M _) Q.
Proof.
  iIntros (Hf) "Hg HQ".
  iApply (hwp_right_step mut_next_loop with "Hg"); [by intros [|] ?|done|]. iSplit; iIntros (kv) "H"; [|iApply hwp_regroup].
  - iApply (hwp_pass _ _ (λ e, godown_at r e (L1 ++ [(k, v)]) L2) r kv k v L1 L2 with "H").
    + unfold right_edge. solve_readonly.
    + by iIntros "H"; iLeft.
    + iIntros "H". iApply (hwp_behind_leaf with "H"). by iIntros (e) "H".
    + iIntros (e) "H". iApply hwp_ret. by iApply "HQ".
  - iApply (hwp_pass _ _ (λ e, godown_at r e (L1 ++ [(k, v)]) L2) r kv k v L1 L2 with "H").
    + unfold right_edge. solve_readonly.
    + by iIntros "H"; iRight.
    + iIntros "H". iApply (hwp_behind_inner with "H"). by iIntros (e) "H".
    + iIntros (e) "H". do 2 iApply hwp_ret. by iApply "HQ".
Qed.

Lemma hwp_mut_next_back r hd f k v L1 L2 fuel Q : root_height r ≤ fuel →
  godown_at r hd (L1 ++ [(k, v)]) L2 -∗
  (∀ hd' kv, (found_at r kv k v L1 L2 ∧ godown_at r hd' L1 ((k, v) :: L2)) -∗ Q (Range_ f hd', kv)) -∗
  hwp (mut_next_back_unchecked fuel (Range_ f hd) : M _) Q.
Proof.
  iIntros (Hf) "Hg HQ".
  iApply (hwp_left_step mut_next_back_loop with "Hg"); [by intros [|] ?|done|]. iSplit; iIntros (kv) "H"; [|iApply hwp_regroup].
  - iApply (hwp_pass _ _ (λ e, godown_at r e L1 ((k, v) :: L2)) r kv k v L1 L2 with "H").
    + unfold left_edge. solve_readonly.
    + by iIntros "H"; iLeft.
    + iIntros "H". iApply (hwp_before_leaf with "H"). by iIntros (e) "H".
    + iIntros (e) "H". iApply hwp_ret. by iApply "HQ".
  - iApply (hwp_pass _ _ (λ e, godown_at r e L1 ((k, v) :: L2)) r kv k v L1 L2 with "H").
    + unfold left_edge. solve_readonly.
    + by iIntros "H"; iRight.
    + iIntros "H". iApply (hwp_before_inner with "H"). by iIntros (e) "H".
    + iIntros (e) "H". do 2 iApply hwp_ret. by iApply "HQ".
Qed.
End steps.

(** ** A queue whose entries are changed as they are handed out *)

Section queue.
Context {K V A : Type} `{!EqDecision K, !Countable K, !Ord K, !GlobalAlloc NodeLayout A}.
#[local] Abbreviation N := (Node K V).
#[local] Abbreviation M := (M (store N A)).
Implicit Types (L : list (K * V)) (X : gmap K V) (F : hProp N) (s : store N A) (f : K → V → V).

(** Replacing a value keeps the shape of the nodes. *)
Lemma replace_val_shape kv v s x s' : replace_val kv v s = Ret (x, s') → shape <$> cells s' = shape <$> cells s.
Proof.
  unfold replace_val. unfold mbind, M_bind. destruct (into_kv kv s) as [[old s1]|?|?] eqn:E; [|done..].
  apply readonly_into_kv in E as ->. unfold update. destruct (cells s !! node (hnode kv)) as [n|] eqn:Hn; [|done].
  intros [= _ <-]. cbn [cells]. rewrite fmap_insert. apply insert_id. by rewrite lookup_fmap Hn.
Qed.

Lemma hwp_change f r kv k v L1 L2 : found_at r kv k v L1 L2 ⊢ hwp (change f kv : M _) (λ x, ⌜x = (k, v)⌝ ∧ found_at r kv k (f k v) L1 L2).
Proof.
  rewrite {1}found_open. iIntros "(%n & %H & Hn & Hclose)". destruct H as (Hp & Hk & Hv). destruct kv as [[h p] i]. cbn [hnode node idx] in *.
  iApply hwp_bind. iApply (hwp_into_kv with "Hn"); [done..|]. iIntros "Hn". cbn [fst snd]. iApply hwp_bind. iApply hwp_bind.
  iApply (hwp_into_kv with "Hn"); [done..|]. iIntros "Hn". iApply hwp_bind. iApply (hwp_update with "Hn"); [done|]. iIntros "Hn".
  do 2 iApply hwp_ret. iSplit; [done|]. iApply "Hclose". by rewrite (list_insert_id (keys n)).
Qed.
Lemma change_shape f kv s x s' : change f kv s = Ret (x, s') → shape <$> cells s' = shape <$> cells s.
Proof.
  unfold change. unfold mbind, M_bind. destruct (into_kv kv s) as [[[k v] s1]|?|?] eqn:E; [|done..].
  apply readonly_into_kv in E as ->. destruct (replace_val kv (f k v) s) as [[y s1]|?|?] eqn:E; [|done..].
  intros [= _ <-]. by eapply replace_val_shape.
Qed.

(** The edges of a tree with the entries [L1 ++ L ++ L2], with [L] between them. *)
Definition lies F (r : Root) L1 L L2 (rg : Range) s : Prop :=
  al_inv (live (cells s)) (al s) ∧ holds (root_at r (L1 ++ L ++ L2) ∗ F)%I (cells s) ∧
  gap_at (cells s) r (length L1) (front rg) ∧ gap_at (cells s) r (length (L1 ++ L)) (back rg).

Lemma lies_eq F r L1 L L2 rg s : lies F r L1 L L2 rg s → handle_eq (front rg) (back rg) = match L with [] => true | _ => false end.
Proof.
  intros (_ & Hr & Hf & Hb). rewrite (gap_at_inj _ _ _ _ _ _ _ _ Hr Hf Hb) length_app.
  destruct L; [by rewrite bool_decide_true; [|cbn; lia]|by rewrite bool_decide_false; [|cbn; lia]].
Qed.

(** A step at either end, and the change of what it hands out. *)
Lemma changed_lies f F r L1 k v L2 L1' L' L2' rg kv s :
  holds (found_at r kv k v L1 L2 ∗ F)%I (cells s) → al_inv (live (cells s)) (al s) → L1 ++ (k, f k v) :: L2 = L1' ++ L' ++ L2' →
  gap_at (cells s) r (length L1') (front rg) → gap_at (cells s) r (length (L1' ++ L')) (back rg) →
  ∃ s', change f kv s = Ret ((k, v), s') ∧ lies F r L1' L' L2' rg s'.
Proof.
  intros Hk Hi HL Hf Hb. destruct (run_framed _ _ _ F s (hwp_change f r kv k v L1 L2) Hk Hi) as (x & s' & Hrun & [-> Hh]%holds_pure & Hi').
  exists s'. split; [done|]. apply change_shape in Hrun. split; [done|]. split.
  - eapply holds_entails; [|exact Hh]. rewrite found_close HL. by iIntros "$".
  - split; by eapply gap_at_shape.
Qed.

Lemma lies_front f F r L1 k v L L2 rg fuel s : root_height r ≤ fuel → lies F r L1 ((k, v) :: L) L2 rg s →
  ∃ rg' kv s', mut_next_unchecked fuel rg s = Ret ((rg', kv), s) ∧ change f kv s = Ret ((k, v), s') ∧
    lies F r (L1 ++ [(k, f k v)]) L L2 rg' s'.
Proof.
  destruct rg as [hd b]. intros Hf (Hi & Hr & Hfr & Hb). cbn [front back] in *.
  pose proof (gap_at_godown _ _ _ _ _ _ Hr Hfr) as Hg.
  destruct (run_reading (mut_next_unchecked fuel (Range_ hd b)) (godown_at r hd L1 ((k, v) :: L ++ L2))
    (λ x, ∃ hd' kv, ⌜x = (Range_ hd' b, kv)⌝ ∧ (found_at r kv k v L1 (L ++ L2) ∧ godown_at r hd' (L1 ++ [(k, v)]) (L ++ L2)))%I F s)
    as (x & Hrun & Hx); [apply readonly_mut_next_unchecked| |done|done|].
  { iIntros "H". iApply (hwp_mut_next with "H"); [done|]. iIntros (hd' kv) "H". iExists hd', kv. by iSplit. }
  destruct Hx as (h1 & h2 & Hc & Hd & (hd' & kv & -> & Hk & Hg') & HF).
  assert (holds (godown_at r hd' (L1 ++ [(k, v)]) (L ++ L2) ∗ F)%I (cells s)) as Hgap%godown_gap_at by by exists h1, h2.
  destruct (changed_lies f F r L1 k v (L ++ L2) (L1 ++ [(k, f k v)]) L L2 (Range_ hd' b) kv s) as (s' & Hch & Hl); [|done| | | |].
  - by exists h1, h2.
  - by rewrite -app_assoc.
  - rewrite length_app in Hgap. by rewrite length_app.
  - rewrite length_app in Hb. by rewrite -app_assoc length_app.
  - by exists (Range_ hd' b), kv, s'.
Qed.

Lemma lies_back f F r L1 L k v L2 rg fuel s : root_height r ≤ fuel → lies F r L1 (L ++ [(k, v)]) L2 rg s →
  ∃ rg' kv s', mut_next_back_unchecked fuel rg s = Ret ((rg', kv), s) ∧ change f kv s = Ret ((k, v), s') ∧
    lies F r L1 L ((k, f k v) :: L2) rg' s'.
Proof.
  destruct rg as [a hd]. intros Hf (Hi & Hr & Ha & Hb). cbn [front back] in *. rewrite app_assoc in Hb.
  rewrite -(app_assoc L) app_assoc in Hr. cbn [app] in Hr.
  assert (holds (godown_at r hd ((L1 ++ L) ++ [(k, v)]) L2 ∗ F)%I (cells s)) as Hg.
  { apply gap_at_godown; [|done]. by rewrite -app_assoc. }
  destruct (run_reading (mut_next_back_unchecked fuel (Range_ a hd)) (godown_at r hd ((L1 ++ L) ++ [(k, v)]) L2)
    (λ x, ∃ hd' kv, ⌜x = (Range_ a hd', kv)⌝ ∧ (found_at r kv k v (L1 ++ L) L2 ∧ godown_at r hd' (L1 ++ L) ((k, v) :: L2)))%I F s)
    as (x & Hrun & Hx); [apply readonly_mut_next_back_unchecked| |done|done|].
  { iIntros "H". iApply (hwp_mut_next_back with "H"); [done|]. iIntros (hd' kv) "H". iExists hd', kv. by iSplit. }
  destruct Hx as (h1 & h2 & Hc & Hd & (hd' & kv & -> & Hk & Hg') & HF).
  assert (holds (godown_at r hd' (L1 ++ L) ((k, v) :: L2) ∗ F)%I (cells s)) as Hgap%godown_gap_at by by exists h1, h2.
  destruct (changed_lies f F r (L1 ++ L) k v L2 L1 L ((k, f k v) :: L2) (Range_ a hd') kv s) as (s' & Hch & Hl); [|done| |done|done|].
  - by exists h1, h2.
  - by rewrite -app_assoc.
  - by exists (Range_ a hd'), kv, s'.
Qed.

(** ** Queues of places *)

(** Like [deque_like], where every entry handed out is changed: [L] is still to come,
    [L1] and [L2] are around it. *)
Record mut_deque {St} f (next next_back : St → M (St * option Handle)) (R : St → list (K * V) → list (K * V) → list (K * V) → store N A → Prop) : Prop := {
  mut_none st L1 L2 s : R st L1 [] L2 s → next st s = Ret ((st, None), s) ∧ next_back st s = Ret ((st, None), s);
  mut_front st L1 k v L L2 s : R st L1 ((k, v) :: L) L2 s →
    ∃ st' kv s', next st s = Ret ((st', Some kv), s) ∧ change f kv s = Ret ((k, v), s') ∧ R st' (L1 ++ [(k, f k v)]) L L2 s';
  mut_back st L1 L k v L2 s : R st L1 (L ++ [(k, v)]) L2 s →
    ∃ st' kv s', next_back st s = Ret ((st', Some kv), s) ∧ change f kv s = Ret ((k, v), s') ∧ R st' L1 L ((k, f k v) :: L2) s'
}.

(** The entries [ys] changed. *)
Definition write_all f (ys : list (K * V)) X : gmap K V := foldl (λ X y, <[y.1 := f y.1 y.2]> X) X ys.

Lemma write_one f k v L1 L2 : sorted (L1 ++ (k, v) :: L2) →
  sorted (L1 ++ (k, f k v) :: L2) ∧ list_to_map (L1 ++ (k, f k v) :: L2) = <[k := f k v]> (list_to_map (L1 ++ (k, v) :: L2) : gmap K V).
Proof.
  intros Hs. assert (sorted (L1 ++ (k, f k v) :: L2)) as Hs' by (unfold sorted in *; by rewrite !fmap_app in Hs |- *).
  split; [done|]. pose proof (sorted_NoDup _ Hs) as H1. pose proof (sorted_NoDup _ Hs') as H2.
  destruct (to_map_middle k v L1 L2 H1) as [-> _]. destruct (to_map_middle k (f k v) L1 L2 H2) as [-> _]. by rewrite insert_insert_eq.
Qed.

Lemma pulls_mut_spec {St} f (next next_back : St → M (St * option Handle)) R : mut_deque f next next_back R →
  ∀ calls st L1 L L2 s, R st L1 L L2 s → sorted (L1 ++ L ++ L2) →
  ∃ st' s' L1' L' L2', pulls_mut next next_back f calls st s = Ret ((st', deque calls L), s') ∧ R st' L1' L' L2' s' ∧
    sorted (L1' ++ L' ++ L2') ∧ length (L1' ++ L' ++ L2') = length (L1 ++ L ++ L2) ∧
    list_to_map (L1' ++ L' ++ L2') = write_all f (omap id (deque calls L)) (list_to_map (L1 ++ L ++ L2)).
Proof.
  intros HR. induction calls as [|b calls IH]; intros st L1 L L2 s H Hs; cbn [pulls_mut deque]; [by exists st, s, L1, L, L2|].
  destruct b; [destruct L as [|[k v] L _] using rev_ind|destruct L as [|[k v] L]].
  - destruct (mut_none _ _ _ R HR _ _ _ _ H) as [_ Hrun]. destruct (IH _ _ _ _ _ H Hs) as (st' & s' & L1' & L' & L2' & Hrun' & H').
    exists st', s', L1', L', L2'. split; [by cbv [mbind M_bind mret M_ret]; rewrite Hrun Hrun'|done].
  - destruct (mut_back _ _ _ R HR _ _ _ _ _ _ _ H) as (st1 & kv & s1 & Hrun & Hch & H1).
    rewrite -(app_assoc L) app_assoc in Hs. destruct (write_one f _ _ _ _ Hs) as [Hs1 Hw]. rewrite -app_assoc in Hs1.
    destruct (IH _ _ _ _ _ H1 Hs1) as (st' & s' & L1' & L' & L2' & Hrun' & H' & Hs' & Hl & Hw').
    exists st', s', L1', L', L2'. rewrite last_snoc removelast_last.
    split_and!; [by cbv [mbind M_bind mret M_ret]; rewrite Hrun Hch Hrun'|done|done|rewrite Hl; solve_len|].
    rewrite Hw'. cbn. f_equal. by rewrite -!(app_assoc L) /= (app_assoc L1 L) Hw app_assoc.
  - destruct (mut_none _ _ _ R HR _ _ _ _ H) as [Hrun _]. destruct (IH _ _ _ _ _ H Hs) as (st' & s' & L1' & L' & L2' & Hrun' & H').
    exists st', s', L1', L', L2'. split; [by cbv [mbind M_bind mret M_ret]; rewrite Hrun Hrun'|done].
  - destruct (mut_front _ _ _ R HR _ _ _ _ _ _ _ H) as (st1 & kv & s1 & Hrun & Hch & H1).
    cbn [app] in Hs. destruct (write_one f _ _ _ _ Hs) as [Hs1 Hw].
    destruct (IH _ _ _ _ _ H1) as (st' & s' & L1' & L' & L2' & Hrun' & H' & Hs' & Hl & Hw'); [by rewrite -app_assoc|].
    exists st', s', L1', L', L2'. cbn [head tail].
    split_and!; [by cbv [mbind M_bind mret M_ret]; rewrite Hrun Hch Hrun'|done|done|rewrite Hl; solve_len|].
    rewrite Hw'. cbn. by rewrite -Hw -app_assoc.
Qed.

(** The two edges in a map: in the shared root there is nothing between them. *)
Definition lies_in F (m : BTreeMap) n (rg : Range) L1 L L2 s : Prop :=
  (L1 ++ L ++ L2 = [] ∧ handle_eq (front rg) (back rg) = true ∧ holds (map_at m n [] ∗ F)%I (cells s) ∧ al_inv (live (cells s)) (al s)) ∨
  lies F (root m) L1 L L2 rg s.

Lemma lies_in_map F m n rg L1 L L2 s : length_ m = n → counted n (L1 ++ L ++ L2) → lies_in F m n rg L1 L L2 s →
  holds (map_at m n (L1 ++ L ++ L2) ∗ F)%I (cells s) ∧ al_inv (live (cells s)) (al s).
Proof.
  intros Hn Hs [(-> & _ & H & Hi)|(Hi & H & _)]; [done|]. split; [|done].
  eapply holds_entails; [|exact H]. rewrite map_at_root //.
Qed.

Lemma between_lies F m n rg L W s : holds (map_at m n W ∗ F)%I (cells s) → BTreeRangeSpec.between F (root m) W rg L s →
  ∃ L1 L2, W = L1 ++ L ++ L2 ∧ lies_in F m n rg L1 L L2 s.
Proof.
  intros Hm [Hi [(-> & -> & He)|(L1 & L2 & -> & Hf & Hb)]].
  - exists [], []. split; [done|]. by left.
  - exists L1, L2. split; [done|]. right. split_and!; [done| |exact (godown_gap_at _ _ _ _ _ _ Hf)|exact (godown_gap_at _ _ _ _ _ _ Hb)].
    eapply holds_entails; [|exact Hf]. rewrite godown_close. by iIntros "$".
Qed.

Lemma range_mut_deque f F m n fuel : root_height (root m) ≤ fuel →
  mut_deque f (range_mut_next fuel) (range_mut_next_back fuel) (lies_in F m n).
Proof.
  intros Hf. split.
  - intros rg L1 L2 s H. assert (handle_eq (front rg) (back rg) = true) as He by (destruct H as [(_ & ? & _)|H]; [done|by apply lies_eq in H]).
    unfold range_mut_next, range_mut_next_back. by rewrite He.
  - intros rg L1 k v L L2 s [(H & _)|H]; [by destruct L1|]. unfold range_mut_next. rewrite (lies_eq _ _ _ _ _ _ _ H).
    destruct (lies_front f _ _ _ _ _ _ _ _ _ _ Hf H) as (rg' & kv & s' & Hrun & Hch & H').
    exists rg', kv, s'. split_and!; [by cbv [mbind M_bind]; rewrite Hrun|done|by right].
  - intros rg L1 L k v L2 s [(H & _)|H]; [by destruct L1, L|]. unfold range_mut_next_back. rewrite (lies_eq _ _ _ _ _ _ _ H).
    destruct (lies_back f _ _ _ _ _ _ _ _ _ _ Hf H) as (rg' & kv & s' & Hrun & Hch & H').
    exists rg', kv, s'. split_and!; [|done|by right]. destruct (L ++ [(k, v)]) eqn:E; [by destruct L|].
    by cbv [mbind M_bind]; rewrite Hrun.
Qed.

Lemma iter_mut_deque f F m n fuel : root_height (root m) ≤ fuel →
  mut_deque f (iter_mut_next fuel) (iter_mut_next_back fuel)
    (λ it L1 L L2 s, iter_length it = length L ∧ lies_in F m n (BTreeIter.range it) L1 L L2 s).
Proof.
  intros Hf. split.
  - intros [rg j] L1 L2 s [Hj H]. cbn in Hj. subst j. done.
  - intros [rg j] L1 k v L L2 s [Hj [(H & _)|H]]; [by destruct L1|]. cbn in Hj. subst j. unfold iter_mut_next. cbn [iter_length BTreeIter.range Nat.eqb] in *.
    destruct (lies_front f _ _ _ _ _ _ _ _ _ _ Hf H) as (rg' & kv & s' & Hrun & Hch & H').
    exists (Iter_ rg' (length L)), kv, s'. rewrite Nat.sub_succ Nat.sub_0_r. split_and!; [by cbv [mbind M_bind]; rewrite Hrun|done|done|by right].
  - intros [rg j] L1 L k v L2 s [Hj [(H & _)|H]]; [by destruct L1, L|]. cbn in Hj. rewrite length_app Nat.add_1_r in Hj. subst j.
    unfold iter_mut_next_back. cbn [iter_length BTreeIter.range Nat.eqb] in *.
    destruct (lies_back f _ _ _ _ _ _ _ _ _ _ Hf H) as (rg' & kv & s' & Hrun & Hch & H').
    exists (Iter_ rg' (length L)), kv, s'. rewrite Nat.sub_succ Nat.sub_0_r. split_and!; [by cbv [mbind M_bind]; rewrite Hrun|done|done|by right].
Qed.

(** ** Mutable ranges and iterators of a map *)

Lemma range_mut_eq m lo hi s : range_mut m lo hi s = (map_range m lo hi : M _) s.
Proof. done. Qed.

(** What a sequence of calls leaves: the same map but for the entries handed out. *)
Lemma pulls_mut_map {St} f (next next_back : St → M (St * option Handle)) (rg_of : St → Range) F m n calls st L1 L L2 s R :
  mut_deque f next next_back R → (∀ st L1 L L2 s, R st L1 L L2 s → lies_in F m n (rg_of st) L1 L L2 s) →
  R st L1 L L2 s → length_ m = n → counted n (L1 ++ L ++ L2) →
  ∃ st' s', pulls_mut next next_back f calls st s = Ret ((st', deque calls L), s') ∧
    is_map m n (write_all f (omap id (deque calls L)) (list_to_map (L1 ++ L ++ L2))) F s'.
Proof.
  intros HR Hl H Hn [Hs Hlen]. destruct (pulls_mut_spec f next next_back R HR calls st L1 L L2 s H Hs)
    as (st' & s' & L1' & L' & L2' & Hrun & H' & Hs' & Hlen' & Hw).
  exists st', s'. split; [done|]. exists (L1' ++ L' ++ L2'). split; [done|].
  eapply lies_in_map; [done|split; [done|lia]|]. by eapply Hl.
Qed.

(** Mutable ranges and iterators are double-ended queues of places: they hand out the
    entries that [iterators_refine] says, and replacing the value at each place replaces
    the values of these entries in the map and changes nothing else. *)
Theorem mutation_refines m n X F s f (calls : list bool) : is_map m n X F s →
  (∀ lo hi, match range_error lo hi with
     | Some msg => range_mut m lo hi s = Panic msg
     | None => ∃ rg L rg' s', range_mut m lo hi s = Ret (rg, s) ∧ entries_of X L ∧
         let ys := deque calls (filter (λ kv, in_range lo hi kv.1 = true) L) in
         pulls_mut (range_mut_next (root_height (root m))) (range_mut_next_back (root_height (root m))) f calls rg s = Ret ((rg', ys), s') ∧
         is_map m n (write_all f (omap id ys) X) F s'
     end) ∧
  (n = size X → ∃ it L it' s', iter_mut m s = Ret (it, s) ∧ entries_of X L ∧
     pulls_mut (iter_mut_next (root_height (root m))) (iter_mut_next_back (root_height (root m))) f calls it s =
       Ret ((it', deque calls L), s') ∧
     is_map m n (write_all f (omap id (deque calls L)) X) F s').
Proof.
  intros (W & -> & Hm & Hi). pose proof (map_at_counted _ _ _ _ _ Hm) as (Hn & Hs & Hl). split.
  - intros lo hi. rewrite range_mut_eq. destruct (range_error lo hi) as [msg|] eqn:E.
    { unfold map_range, range_search. by rewrite check_bounds_error E. }
    destruct (map_range_spec m n W F s lo hi Hm Hi E) as (rg & Hrun & Hrg).
    destruct (between_lies F m n rg _ W s Hm Hrg) as (L1 & L2 & HW & Hlies).
    destruct (pulls_mut_map f _ _ id F m n calls rg L1 _ L2 s _ (range_mut_deque f F m n _ (reflexivity _)) (λ _ _ _ _ _ H, H) Hlies)
      as (rg' & s' & Hp & Hm'); [done|by rewrite -HW|]. rewrite -HW in Hm'. by exists rg, W, rg', s'.
  - intros Hsize. rewrite size_to_map in Hsize; [|by apply sorted_NoDup]. subst n. rewrite Hsize in Hm |- *.
    destruct (map_iter_spec m W F s Hm Hi) as (it & Hrun & Hlen & Hit).
    destruct (between_lies F m _ _ _ W s Hm Hit) as (L1 & L2 & HW & Hlies).
    destruct (pulls_mut_map f _ _ BTreeIter.range F m (length W) calls it L1 _ L2 s _ (iter_mut_deque f F m _ _ (reflexivity _)) (λ _ _ _ _ _ H, proj2 H) (conj Hlen Hlies))
      as (it' & s' & Hp & Hm'); [by rewrite Hsize|by rewrite -HW|]. rewrite -HW in Hm'. by exists it, W, it', s'.
Qed.

(** A [for] loop over all of them. *)
Lemma change_all f L : NoDup L.*1 →
  list_to_map ((λ kv, (kv.1, f kv.1 kv.2)) <$> L) = map_imap (λ k v, Some (f k v)) (list_to_map L : gmap K V).
Proof.
  intros Hnd. apply map_eq. intros k. rewrite map_lookup_imap. apply option_eq. intros v.
  rewrite -elem_of_list_to_map; [|by rewrite -list_fmap_compose]. rewrite list_elem_of_fmap. split.
  - intros ([k' v'] & [= -> ->] & Hin). by rewrite (elem_of_list_to_map_1 L k' v').
  - destruct (list_to_map L !! k) as [w|] eqn:E; [|done]. intros [= <-]. exists (k, w). split; [done|].
    by apply elem_of_list_to_map_2 in E.
Qed.

Lemma for_each_mut_spec f F m n fuel : root_height (root m) ≤ fuel → ∀ L turns it L1 s, length L ≤ turns →
  iter_length it = length L → lies_in F m n (BTreeIter.range it) L1 L [] s →
  ∃ it' s', for_each_mut f turns fuel it s = Ret (tt, s') ∧ lies_in F m n it' (L1 ++ ((λ kv, (kv.1, f kv.1 kv.2)) <$> L)) [] [] s'.
Proof.
  intros Hf. induction L as [|[k v] L IH]; intros turns it L1 s Ht Hl H.
  - destruct (mut_none _ _ _ _ (iter_mut_deque f F m n fuel Hf) it L1 [] s (conj Hl H)) as [Hrun _].
    exists (BTreeIter.range it), s. rewrite app_nil_r. split; [|done]. destruct turns; cbn [for_each_mut]; cbv [mbind M_bind]; by rewrite Hrun.
  - destruct turns as [|turns]; cbn in Ht; [lia|].
    destruct (mut_front _ _ _ _ (iter_mut_deque f F m n fuel Hf) it L1 k v L [] s (conj Hl H)) as (it1 & kv & s1 & Hrun & Hch & Hl1 & H1).
    destruct (IH turns it1 (L1 ++ [(k, f k v)]) s1) as (it' & s' & Hrun' & H'); [lia|done|done|].
    exists it', s'. split; [cbn [for_each_mut]; cbv [mbind M_bind]; by rewrite Hrun Hch Hrun'|]. by rewrite -app_assoc in H'.
Qed.

Lemma map_size_imap_some f X : size (map_imap (λ k v, Some (f k v)) X) = size X.
Proof.
  rewrite -!size_dom. f_equal. apply set_eq. intros k. rewrite !elem_of_dom map_lookup_imap. destruct (X !! k); cbn; [|done].
  split; by eexists.
Qed.

Lemma map_for_each_refines f m X F s : is_map m (size X) X F s →
  ∃ s', map_for_each f m s = Ret (tt, s') ∧ is_map m (size X) (map_imap (λ k v, Some (f k v)) X) F s'.
Proof.
  intros (W & -> & Hm & Hi). pose proof (map_at_counted _ _ _ _ _ Hm) as (Hn & Hs & _).
  rewrite size_to_map in Hm Hn |- *; [|by apply sorted_NoDup..].
  destruct (map_iter_spec m W F s Hm Hi) as (it & Hrun & Hlen & Hit).
  assert (lies_in F m (length W) (BTreeIter.range it) [] W [] s) as Hlies.
  { destruct (between_lies F m _ _ _ W s Hm Hit) as (L1 & L2 & HW & Hlies).
    apply (f_equal length) in HW as Hl. rewrite !length_app in Hl. by destruct L1, L2; cbn in Hl; [rewrite app_nil_r in HW|lia..]. }
  destruct (for_each_mut_spec f F m (length W) _ (reflexivity _) W (length_ m) it [] s) as (it' & s' & Hrun' & H'); [by rewrite Hn|done..|].
  exists s'. split; [unfold map_for_each; change (iter_mut m) with (BTreeIter.iter m : M _); cbv [mbind M_bind]; by rewrite Hrun|].
  exists ((λ kv, (kv.1, f kv.1 kv.2)) <$> W). split; [by rewrite change_all; [|by apply sorted_NoDup]|].
  apply lies_in_map in H'; [by rewrite !app_nil_r in H'|done|]. rewrite !app_nil_r. cbn [app].
  split; [|by rewrite length_fmap]. unfold sorted. by rewrite -list_fmap_compose.
Qed.
End queue.
