(* ===== verification/BTreeCompare.v ===== *)
(** * BTreeCompare: equality, order and hash of B-tree maps ([map.rs])

    Each walks over both maps with their iterators and compares entry by entry.  Two
    maps are equal exactly when they hold the same finite map, however their nodes are
    laid out; the order is the lexicographic one of the sorted entries, and maps that
    it calls equal are. *)

From S2P Require Import Prelude HeapLogic Node BTree Readonly NodeSpec BTreeSpec BTreeIter BTreeRefine BTreeRange Deque BTreeRangeSpec.
From stdpp Require Import sorting.
From iris.proofmode Require Import proofmode.
From iris.prelude Require Import options.

#[local] Open Scope nat_scope.

Section definitions.
Context {K V A : Type} `{!EqDecision K, !EqDecision V, !Ord K, !GlobalAlloc NodeLayout A}.
#[local] Abbreviation M := (M (store (Node K V) A)).

(** [PartialEq::eq]: [self.iter().zip(other).all(|(a, b)| a == b)] after a look at the
    lengths. *)
Fixpoint zip_all (turns h1 h2 : nat) (it other : Iter) : M bool :=
  '(it, a) ← iter_next h1 it;
  match a with
  | None => mret true
  | Some a =>
      '(other, b) ← iter_next h2 other;
      match b with
      | None => mret true
      | Some b =>
          if decide (a = b) then match turns with O => ub "still comparing" | S turns => zip_all turns h1 h2 it other end
          else mret false
      end
  end.
Definition map_equal (m other : BTreeMap) : M bool :=
  if map_len m =? map_len other then
    it ← BTreeIter.iter m; it' ← BTreeIter.iter other;
    zip_all (map_len m) (root_height (root m)) (root_height (root other)) it it'
  else mret false.

(** [Iterator::cmp], with an order of the entries: [Ord::cmp] and [PartialOrd::partial_cmp]. *)
Fixpoint cmp_loop (cmp_kv : K * V → K * V → comparison) (turns h1 h2 : nat) (it other : Iter) : M comparison :=
  '(it, a) ← iter_next h1 it;
  match a with
  | None => '(other, b) ← iter_next h2 other; mret (match b with None => Eq | Some _ => Lt end)
  | Some a =>
      '(other, b) ← iter_next h2 other;
      match b with
      | None => mret Gt
      | Some b =>
          match cmp_kv a b with
          | Eq => match turns with O => ub "still comparing" | S turns => cmp_loop cmp_kv turns h1 h2 it other end
          | non_eq => mret non_eq
          end
      end
  end.
Definition pair_cmp `{!Ord V} (a b : K * V) : comparison :=
  match cmp a.1 b.1 with Eq => cmp a.2 b.2 | non_eq => non_eq end.
Definition map_cmp `{!Ord V} (m other : BTreeMap) : M comparison :=
  it ← BTreeIter.iter m; it' ← BTreeIter.iter other;
  cmp_loop pair_cmp (map_len m) (root_height (root m)) (root_height (root other)) it it'.
Definition map_partial_cmp `{!Ord V} (m other : BTreeMap) : M (option comparison) :=
  it ← BTreeIter.iter m; it' ← BTreeIter.iter other;
  c ← cmp_loop pair_cmp (map_len m) (root_height (root m)) (root_height (root other)) it it'; mret (Some c).

(** [Hash::hash], with what hashing an entry does to the hasher. *)
Fixpoint hash_loop {H} (hash : K * V → H → H) (turns h : nat) (it : Iter) (state : H) : M H :=
  '(it, elt) ← iter_next h it;
  match elt with
  | None => mret state
  | Some elt => match turns with O => ub "still hashing" | S turns => hash_loop hash turns h it (hash elt state) end
  end.
Definition map_hash {H} (hash : K * V → H → H) (m : BTreeMap) (state : H) : M H :=
  it ← BTreeIter.iter m; hash_loop hash (map_len m) (root_height (root m)) it state.
End definitions.

(** ** Lists of entries *)

Section lists.
Context {K V : Type} `{!EqDecision K, !EqDecision V, !Countable K, !Ord K}.
Implicit Types (L : list (K * V)).

Lemma sorted_entries L : sorted L → StronglySorted (λ a b, klt a.1 b.1) L.
Proof.
  unfold sorted. induction L as [|a L IH]; cbn; [constructor|]. intros [Hs Ha]%StronglySorted_inv.
  constructor; [by apply IH|]. by rewrite Forall_fmap in Ha.
Qed.

(** A finite map has one sorted list of entries. *)
Lemma sorted_unique L L' : sorted L → sorted L' → (list_to_map L : gmap K V) = list_to_map L' → L = L'.
Proof.
  intros Hs Hs' HX. apply (StronglySorted_unique_strong (λ a b, klt a.1 b.1)); [|by apply sorted_entries..|].
  - intros a b _ _ Hab Hba. exfalso. apply (klt_irrefl a.1). by etrans.
  - apply (list_to_map_inj (M := gmap K)); [by apply sorted_NoDup..|done].
Qed.

(** The lexicographic order of lists ([Iterator::cmp]). *)
Fixpoint lex_cmp {T} (c : T → T → comparison) (l l' : list T) : comparison :=
  match l, l' with
  | [], [] => Eq
  | [], _ :: _ => Lt
  | _ :: _, [] => Gt
  | a :: l, b :: l' => match c a b with Eq => lex_cmp c l l' | non_eq => non_eq end
  end.
Lemma lex_cmp_eq {T} (c : T → T → comparison) l l' : (∀ a b, c a b = Eq ↔ a = b) → lex_cmp c l l' = Eq ↔ l = l'.
Proof.
  intros Hc. revert l'. induction l as [|a l IH]; intros [|b l']; cbn; try done.
  destruct (c a b) eqn:E; [apply Hc in E as ->; rewrite IH; naive_solver|..]; (split; [done|]);
    intros [= -> ->]; by rewrite (proj2 (Hc b b)) in E.
Qed.
Lemma lex_cmp_antisym {T} (c : T → T → comparison) l l' : (∀ a b, c b a = CompOpp (c a b)) → lex_cmp c l' l = CompOpp (lex_cmp c l l').
Proof.
  intros Hc. revert l'. induction l as [|a l IH]; intros [|b l']; cbn; try done. rewrite (Hc a b). by destruct (c a b); cbn.
Qed.
End lists.

(** ** The comparisons *)

Section spec.
Context {K V A : Type} `{!EqDecision K, !EqDecision V, !Countable K, !Ord K, !GlobalAlloc NodeLayout A}.
#[local] Abbreviation N := (Node K V).
#[local] Abbreviation M := (M (store N A)).
Implicit Types (L : list (K * V)) (X Y : gmap K V) (F G : hProp N) (s : store N A).

Lemma pair_cmp_eq `{!Ord V} (a b : K * V) : pair_cmp a b = Eq ↔ a = b.
Proof.
  destruct a as [k v], b as [k' v']. unfold pair_cmp. cbn [fst snd]. destruct (cmp k k') eqn:E.
  - apply cmp_eq in E as ->. rewrite cmp_eq. naive_solver.
  - split; [done|]. intros [= -> ->]. by rewrite (proj2 (cmp_eq k' k') eq_refl) in E.
  - split; [done|]. intros [= -> ->]. by rewrite (proj2 (cmp_eq k' k') eq_refl) in E.
Qed.
Lemma pair_cmp_antisym `{!Ord V} (a b : K * V) : pair_cmp b a = CompOpp (pair_cmp a b).
Proof.
  destruct a as [k v], b as [k' v']. unfold pair_cmp. cbn [fst snd]. rewrite (cmp_antisym k k').
  destruct (cmp k k'); cbn; [apply cmp_antisym|done..].
Qed.

(** Two iterators, each over a map of its own. *)
Lemma zip_all_spec F G r r' W W' h1 h2 s : root_height r ≤ h1 → root_height r' ≤ h2 →
  ∀ L L' turns it it', length L ≤ turns → iter_between F r W it L s → iter_between G r' W' it' L' s → length L = length L' →
  zip_all turns h1 h2 it it' s = Ret (bool_decide (L = L'), s).
Proof.
  intros H1 H2. induction L as [|a L IH]; intros L' turns it it' Ht Hit Hit' Hl;
    destruct (deque_next _ _ _ (iter_is_deque F r W h1 H1) _ _ _ Hit) as (it1 & Hrun & Hit1); cbn [head tail] in *.
  - destruct L'; [|done]. rewrite bool_decide_true //. destruct turns; cbn [zip_all]; unfold mbind, M_bind; by rewrite Hrun.
  - destruct L' as [|b L']; [done|]. injection Hl as Hl.
    destruct (deque_next _ _ _ (iter_is_deque G r' W' h2 H2) _ _ _ Hit') as (it1' & Hrun' & Hit1'). cbn [head tail] in *.
    destruct turns as [|turns]; cbn in Ht; [lia|]. cbn [zip_all]. unfold mbind, M_bind. rewrite Hrun Hrun'.
    destruct (decide (a = b)) as [->|Hab].
    + rewrite (IH L' turns it1 it1'); [|lia|done..]. f_equal. f_equal. apply bool_decide_ext. naive_solver.
    + rewrite bool_decide_false; [done|]. naive_solver.
Qed.

Lemma cmp_loop_spec F G r r' W W' h1 h2 c s : root_height r ≤ h1 → root_height r' ≤ h2 →
  ∀ L L' turns it it', length L ≤ turns → iter_between F r W it L s → iter_between G r' W' it' L' s →
  cmp_loop c turns h1 h2 it it' s = Ret (lex_cmp c L L', s).
Proof.
  intros H1 H2. induction L as [|a L IH]; intros L' turns it it' Ht Hit Hit';
    destruct (deque_next _ _ _ (iter_is_deque F r W h1 H1) _ _ _ Hit) as (it1 & Hrun & Hit1);
    destruct (deque_next _ _ _ (iter_is_deque G r' W' h2 H2) _ _ _ Hit') as (it1' & Hrun' & Hit1'); cbn [head tail] in *.
  - destruct turns; cbn [cmp_loop]; unfold mbind, M_bind; rewrite Hrun Hrun'; by destruct L'.
  - destruct turns as [|turns]; cbn in Ht; [lia|]. cbn [cmp_loop]. unfold mbind, M_bind. rewrite Hrun Hrun'.
    destruct L' as [|b L']; [done|]. cbn [head lex_cmp]. destruct (c a b); [|done..]. apply IH; [lia|done..].
Qed.

Lemma hash_loop_spec {H} F r W h hash s : root_height r ≤ h → ∀ L turns it (st : H), length L ≤ turns → iter_between F r W it L s →
  hash_loop hash turns h it st s = Ret (foldl (λ st x, hash x st) st L, s).
Proof.
  intros Hh. induction L as [|a L IH]; intros turns it st Ht Hit;
    destruct (deque_next _ _ _ (iter_is_deque F r W h Hh) _ _ _ Hit) as (it1 & Hrun & Hit1); cbn [head tail] in *.
  - destruct turns; cbn [hash_loop]; unfold mbind, M_bind; by rewrite Hrun.
  - destruct turns as [|turns]; cbn in Ht; [lia|]. cbn [hash_loop foldl]. unfold mbind, M_bind. rewrite Hrun. apply IH; [lia|done].
Qed.

Lemma map_equal_refines m m' X Y F G s : is_map m (size X) X F s → is_map m' (size Y) Y G s →
  map_equal m m' s = Ret (bool_decide (X = Y), s).
Proof.
  intros Hm Hm'. destruct (iter_spec m X F s Hm) as (it & L & Hrun & [Hs HX] & Hlen & Hit).
  destruct (iter_spec m' Y G s Hm') as (it' & L' & Hrun' & [Hs' HY] & Hlen' & Hit').
  assert (X = Y ↔ L = L') as HL.
  { split; [|by intros ->; rewrite HX HY]. intros Heq. apply sorted_unique; [done..|]. by rewrite -HX -HY. }
  unfold map_equal, map_len. rewrite Hlen Hlen'. destruct (length L =? length L') eqn:E.
  - apply Nat.eqb_eq in E. unfold mbind, M_bind. rewrite Hrun Hrun'.
    rewrite (zip_all_spec F G (root m) (root m') L L' _ _ s (reflexivity _) (reflexivity _) L L' (length L) it it') //.
    f_equal. f_equal. by apply bool_decide_ext.
  - apply Nat.eqb_neq in E. rewrite bool_decide_false; [done|]. rewrite HL. by intros ->.
Qed.

(** Equality of maps is that of the finite maps; the order is the lexicographic order of
    their sorted entries and calls the same maps equal; the hash depends on the finite
    map only.  Nothing is written. *)
Theorem comparisons_refine `{!Ord V} {H} (hash : K * V → H → H) m m' X Y F G s :
  is_map m (size X) X F s → is_map m' (size Y) Y G s →
  map_equal m m' s = Ret (bool_decide (X = Y), s) ∧
  ∃ L L', entries_of X L ∧ entries_of Y L' ∧
    map_cmp m m' s = Ret (lex_cmp pair_cmp L L', s) ∧ map_partial_cmp m m' s = Ret (Some (lex_cmp pair_cmp L L'), s) ∧
    (lex_cmp pair_cmp L L' = Eq ↔ X = Y) ∧ lex_cmp pair_cmp L' L = CompOpp (lex_cmp pair_cmp L L') ∧
    ∀ st, map_hash hash m st s = Ret (foldl (λ st x, hash x st) st L, s).
Proof.
  intros Hm Hm'. split; [by eapply map_equal_refines|].
  destruct (iter_spec m X F s Hm) as (it & L & Hrun & [Hs HX] & Hlen & Hit).
  destruct (iter_spec m' Y G s Hm') as (it' & L' & Hrun' & [Hs' HY] & Hlen' & Hit').
  assert (map_len m = length L) as El by exact Hlen. exists L, L'.
  pose proof (cmp_loop_spec F G (root m) (root m') L L' _ _ pair_cmp s (reflexivity _) (reflexivity _) L L' (length L) it it' (reflexivity _) Hit Hit') as Hc.
  split_and!; [done..| | | | |].
  - unfold map_cmp. rewrite El. unfold mbind, M_bind. by rewrite Hrun Hrun' Hc.
  - unfold map_partial_cmp. rewrite El. unfold mbind, M_bind. by rewrite Hrun Hrun' Hc.
  - rewrite lex_cmp_eq; [|by apply pair_cmp_eq]. split; [by intros ->; rewrite HX HY|]. intros Heq. apply sorted_unique; [done..|]. by rewrite -HX -HY.
  - apply lex_cmp_antisym, pair_cmp_antisym.
  - intros st. unfold map_hash. rewrite El. unfold mbind, M_bind. rewrite Hrun.
    by apply (hash_loop_spec F (root m) L).
Qed.
End spec.
