(* ===== verification/BTreeMaps.v ===== *)
(** * BTreeMaps: several B-tree maps as finite maps

    [are_maps ms F s]: the maps of [ms] hold the finite maps listed with them, each in
    nodes of its own.  [split_off] cuts a finite map at a key, [append] is the union
    of two, [clone] a second one. *)

From S2P Require Import Prelude HeapLogic Node NodeSpec BTree BTreeSpec Rebalance BTreeRemove BTreeIter BTreeBulk.
From S2P Require Import BTreeSplit BTreeClone BTreeAppend BTreeRefine BTreeRange BTreeEntry BTreeRangeSpec BTreeMut BTreeCompare.
From stdpp Require Import sorting.
From iris.proofmode Require Import proofmode.
From iris.prelude Require Import options.

#[local] Open Scope nat_scope.

#[export] Instance klt_dec {K} `{!Ord K} (x y : K) : Decision (klt x y).
Proof. unfold klt. apply _. Defined.

(** ** Lists of entries as finite maps *)

Section entries.
Context {K V : Type} `{!EqDecision K, !Countable K, !Ord K}.
Implicit Types (L R : list (K * V)) (X : gmap K V).
#[local] Abbreviation to_map := (list_to_map (M := gmap K V)).

(** The keys below a key, and the others. *)
Definition below_key (key : K) X : gmap K V := filter (λ kv, klt kv.1 key) X.
Definition from_key (key : K) X : gmap K V := filter (λ kv, ¬ klt kv.1 key) X.

Lemma to_map_lookup L k v : NoDup L.*1 → to_map L !! k = Some v ↔ (k, v) ∈ L.
Proof. intros H. symmetry. by apply elem_of_list_to_map. Qed.

Lemma to_map_split key L1 L2 : sorted (L1 ++ L2) → below key L1 → from key L2 →
  to_map L1 = below_key key (to_map (L1 ++ L2)) ∧ to_map L2 = from_key key (to_map (L1 ++ L2)).
Proof.
  intros Hs Hb Hf. pose proof (sorted_NoDup _ Hs) as Hnd.
  apply sorted_app in Hs as (_ & H1%sorted_NoDup & H2%sorted_NoDup).
  unfold below, from in *. rewrite !Forall_forall in Hb Hf.
  split; apply map_eq; intros k; apply option_eq; intros v.
  all: rewrite map_lookup_filter_Some !to_map_lookup // elem_of_app /=.
  - split; [intros Hin; split; [by left|by apply (Hb (k, v))]|]. intros [[Hin|Hin] Hk]; [done|].
    destruct (Hf _ Hin) as [Hk'|Hk']; cbn in Hk'; [subst; by apply klt_irrefl in Hk|]. 
    exfalso. eapply klt_irrefl. by etrans.
  - split; [intros Hin; split; [by right|]|intros [[Hin|Hin] Hk]; [|done]].
    + intros Hk. destruct (Hf _ Hin) as [Hk'|Hk']; cbn in Hk'; [subst; by apply klt_irrefl in Hk|]. eapply klt_irrefl. by etrans.
    + by apply (Hb (k, v)) in Hin.
Qed.

Lemma to_map_below k L : (∀ k', k' ∈ L.*1 → klt k k') → to_map L !! k = None.
Proof. intros H. apply not_elem_of_list_to_map_1. intros Hin. by apply H, klt_irrefl in Hin. Qed.

Lemma to_map_merge L R : sorted L → sorted R → to_map (merge_entries L R) = to_map R ∪ to_map L.
Proof.
  pattern L, R. apply merge_entries_ind; clear.
  - intros R _ _. cbn. by rewrite right_id_L.
  - intros L _ _. rewrite merge_entries_nil. cbn. by rewrite left_id_L.
  - intros [x v] L [y w] R H1 H2 H3 HxL HyR. pose proof HxL as [Hx HL]%sorted_cons. pose proof HyR as [Hy HR]%sorted_cons.
    rewrite merge_entries_cons. cbn [fst snd] in *. destruct (cmp x y) eqn:E.
    + apply cmp_eq in E as ->. cbn. rewrite H3 // -insert_union_l. apply map_eq. intros k.
      destruct (decide (k = y)) as [->|Hk]; [by rewrite !lookup_insert_eq|].
      rewrite !lookup_insert_ne // !lookup_union. by rewrite lookup_insert_ne.
    + cbn. rewrite H1 // -insert_union_r // . apply (to_map_below x ((y, w) :: R)).
      intros k [->|Hk]%elem_of_cons; [done|]. etrans; [exact E|]. auto.
    + cbn. by rewrite H2 // -insert_union_l.
Qed.
End entries.

(** ** Several maps in one heap *)

Section maps.
Context {K V A : Type} `{!EqDecision K, !Countable K, !Ord K, !GlobalAlloc NodeLayout A}.
#[local] Abbreviation N := (Node K V).
#[local] Abbreviation M := (M (store N A)).
#[local] Abbreviation held := (BTreeMap * gmap K V)%type.
Implicit Types (L : list (K * V)) (X Y : gmap K V) (F : hProp N) (s : store N A) (st : list held).

Definition owns m n X : hProp N := ∃ L, ⌜X = list_to_map L⌝ ∧ map_at m n L.
Definition all_owned st : hProp N := [∗ list] x ∈ st, owns x.1 (size x.2) x.2.
Definition are_maps st F s : Prop := holds (all_owned st ∗ F)%I (cells s) ∧ al_inv (live (cells s)) (al s).

Lemma is_map_owns m n X F s : is_map m n X F s ↔ holds (owns m n X ∗ F)%I (cells s) ∧ al_inv (live (cells s)) (al s).
Proof.
  split.
  - intros (L & -> & (h1 & h2 & Hc & Hd & Hm & HF) & Hi). split; [|done]. exists h1, h2. split_and!; [done|done| |done]. by exists L.
  - intros ((h1 & h2 & Hc & Hd & (L & -> & Hm) & HF) & Hi). exists L. split_and!; [done| |done]. by exists h1, h2.
Qed.
Lemma holds_proper P Q (h : gmap Z N) : P ⊣⊢ Q → holds P h ↔ holds Q h.
Proof. intros H. split; intros Hh; by apply H. Qed.
Lemma are_maps_is_map m X st F s : are_maps ((m, X) :: st) F s ↔ is_map m (size X) X (all_owned st ∗ F)%I s.
Proof.
  rewrite is_map_owns /are_maps. apply and_iff_compat_r, holds_proper. rewrite /all_owned big_sepL_cons. cbn.
  by rewrite (assoc bi_sep).
Qed.
Lemma are_maps_perm st st' F s : st ≡ₚ st' → are_maps st F s ↔ are_maps st' F s.
Proof. intros H. apply and_iff_compat_r, holds_proper. by rewrite /all_owned H. Qed.
Lemma are_maps_nil F s : are_maps [] F s ↔ holds F (cells s) ∧ al_inv (live (cells s)) (al s).
Proof. apply and_iff_compat_r, holds_proper. by rewrite /all_owned /= left_id. Qed.
Lemma are_maps_frame st1 st2 F s : are_maps (st1 ++ st2) F s ↔ are_maps st1 (all_owned st2 ∗ F)%I s.
Proof. apply and_iff_compat_r, holds_proper. by rewrite /all_owned big_sepL_app (assoc bi_sep). Qed.

Lemma owns_intro m L : sorted L → map_at m (length L) L ⊢ owns m (size (list_to_map L : gmap K V)) (list_to_map L).
Proof. iIntros (Hs) "H". rewrite size_to_map; [|by apply sorted_NoDup]. iExists L. by iSplit. Qed.

(** Running with a part of the heap. *)
Lemma run_maps_framed {B} (m : M B) st (Q : B → hProp N) F s :
  (all_owned st ⊢ hwp m Q) → are_maps st F s →
  ∃ b s', m s = Ret (b, s') ∧ holds (Q b ∗ F)%I (cells s') ∧ al_inv (live (cells s')) (al s').
Proof. intros H [Hh Hi]. by apply (run_framed _ (all_owned st)). Qed.

Lemma all_owned_one m X : all_owned [(m, X)] ⊣⊢ owns m (size X) X.
Proof. by rewrite /all_owned /= right_id. Qed.
Lemma all_owned_two m X m' Y : all_owned [(m, X); (m', Y)] ⊣⊢ owns m (size X) X ∗ owns m' (size Y) Y.
Proof. by rewrite /all_owned /= right_id. Qed.
Lemma owns_elim m X : owns m (size X) X ⊢ ∃ L, ⌜X = list_to_map L ∧ sorted L⌝ ∧ map_at m (length L) L.
Proof.
  iIntros "(%L & -> & Hm)". iAssert ⌜sorted L⌝%I as %Hs; [iDestruct "Hm" as ((_ & Hs & _)) "_"; done|].
  rewrite size_to_map; [|by apply sorted_NoDup]. iExists L. by iSplit.
Qed.
Lemma is_map_one m X F s : is_map m (size X) X F s ↔ are_maps [(m, X)] F s.
Proof. rewrite is_map_owns. apply and_iff_compat_r, holds_proper. by rewrite all_owned_one. Qed.

(** What the bulk operations leave, as assertions. *)
Definition was_split m X key : BTreeMap * result BTreeMap AllocErr → hProp N := λ '(m', res),
  match res with
  | Ok r => all_owned [(m', below_key key X); (r, from_key key X)]
  | Err _ => ⌜m' = m⌝ ∧ all_owned [(m, X)]
  end%I.
Lemma split_off_owned m X key : all_owned [(m, X)] ⊢ hwp (split_off m key : M _) (was_split m X key).
Proof.
  rewrite all_owned_one owns_elim. iIntros "(%L & %H & Hm)". destruct H as [-> Hs].
  iApply (hwp_split_off with "Hm"). iSplit; cbn [was_split].
  - iIntros (m1 m2 n1 n2 L1 L2 (-> & Hb & Hf & Hn & Hn')) "H1 H2". rewrite all_owned_two.
    destruct (to_map_split key L1 L2 Hs Hb Hf) as [<- <-]. rewrite length_app in Hn.
    apply sorted_app in Hs as (_ & Hs1 & Hs2).
    replace n1 with (length L1) by lia. replace n2 with (length L2) by lia.
    rewrite (owns_intro m1) // (owns_intro m2) //. iFrame.
  - iIntros "Hm". iSplit; [done|]. rewrite all_owned_one. by iApply owns_intro.
Qed.

Definition was_cloned `{!Clone V} m X : result BTreeMap AllocErr → hProp N := λ res,
  match res with
  | Ok c => all_owned [(m, X); (c, clone <$> X)]
  | Err _ => all_owned [(m, X)]
  end.
Lemma clone_owned `{!Clone K, !Clone V} m X : (∀ k : K, clone k = k) →
  all_owned [(m, X)] ⊢ hwp (map_clone m : M _) (was_cloned m X).
Proof.
  intros Hk. rewrite all_owned_one owns_elim. iIntros "(%L & %H & Hm)". destruct H as [-> Hs].
  assert (clone_kv <$> L = prod_map id clone <$> L) as HL.
  { apply list_fmap_ext. intros i [k v] _. cbn. by rewrite /clone_kv /prod_map /= Hk. }
  assert ((clone_kv <$> L).*1 = L.*1) as Hkeys.
  { rewrite HL -list_fmap_compose. by apply list_fmap_ext. }
  iApply (hwp_clone with "Hm"); [by rewrite /sorted Hkeys|]. iSplit; cbn [was_cloned].
  - iIntros (c) "Hm Hc". rewrite all_owned_two -list_to_map_fmap -HL -(length_fmap clone_kv L).
    rewrite (owns_intro c) ?(owns_intro m) //; [|by rewrite /sorted Hkeys]. rewrite length_fmap (owns_intro m) //. iFrame.
  - iIntros "Hm". rewrite all_owned_one. by iApply owns_intro.
Qed.

Definition was_appended X Y : BTreeMap * BTreeMap * result unit AllocErr → hProp N := λ '(m', e', res),
  match res with
  | Ok _ => all_owned [(m', Y ∪ X); (e', ∅)]
  | Err _ => ∃ L1 L2, ⌜e' = BTreeMap_new ∧ sorted (L1 ++ L2) ∧ list_to_map (L1 ++ L2) = Y ∪ X ∧ map_len m' = length L1⌝ ∧
      ((⌜m' = BTreeMap_new ∧ L1 = []⌝ ∧ emp) ∨ stuck (root m') L1)
  end%I.
Lemma append_owned m1 m2 X Y : all_owned [(m1, X); (m2, Y)] ⊢ hwp (append m1 m2 : M _) (was_appended X Y).
Proof.
  rewrite all_owned_two !owns_elim. iIntros "[(%L1 & %H1 & H1) (%L2 & %H2 & H2)]". destruct H1 as [-> Hs1]. destruct H2 as [-> Hs2].
  pose proof (merge_sorted _ _ Hs1 Hs2) as Hs. pose proof (to_map_merge _ _ Hs1 Hs2) as HM.
  iApply (hwp_append with "H1 H2"). iSplit; cbn [was_appended].
  - iIntros (m' e') "Hm He". rewrite -HM all_owned_two. iSplitL "Hm"; [by iApply owns_intro|].
    iExists []. by iSplit.
  - iIntros (m' R1 R2 (HR & Hl)) "Hm". iExists R1, R2. rewrite -HR. iSplit; [done|]. done.
Qed.

(** ** [split_off], [append] and [clone] as operations of finite maps *)

(** Splitting at a key leaves the keys below it and moves the others, each half with
    the right count; a failed allocation leaves the map as it was. *)
Theorem split_off_refines m X F s key : is_map m (size X) X F s →
  ∃ m' res s', split_off m key s = Ret ((m', res), s') ∧
    match res with
    | Ok r => are_maps [(m', below_key key X); (r, from_key key X)] F s'
    | Err _ => m' = m ∧ is_map m (size X) X F s'
    end.
Proof.
  intros Hm%is_map_one.
  destruct (run_maps_framed (split_off m key) [(m, X)] (was_split m X key) F s) as ([m' res] & s' & Hrun & Hh & Hi);
    [apply split_off_owned|exact Hm|].
  exists m', res, s'. split; [done|]. destruct res; cbn [was_split] in Hh; [by split|].
  apply holds_pure in Hh as [-> Hh]. split; [done|]. by apply is_map_one.
Qed.

(** The union of both maps, where the second one is preferred, in the first one, and
    nothing in the second.  When an allocation fails, the first map has the smaller
    part of the entries, in a tree whose right border is not mended. *)
Theorem append_refines m1 m2 X Y F s : are_maps [(m1, X); (m2, Y)] F s →
  ∃ m' e' res s', append m1 m2 s = Ret ((m', e', res), s') ∧
    match res with
    | Ok _ => are_maps [(m', Y ∪ X); (e', ∅)] F s'
    | Err _ => ∃ L1 L2, e' = BTreeMap_new ∧ sorted (L1 ++ L2) ∧ list_to_map (L1 ++ L2) = Y ∪ X ∧ map_len m' = length L1 ∧
        holds (((⌜m' = BTreeMap_new ∧ L1 = []⌝ ∧ emp) ∨ stuck (root m') L1) ∗ F)%I (cells s')
    end.
Proof.
  intros Hm. destruct (run_maps_framed (append m1 m2) _ (was_appended X Y) F s (append_owned m1 m2 X Y) Hm)
    as ([[m' e'] res] & s' & Hrun & Hh & Hi).
  exists m', e', res, s'. split; [done|]. destruct res; cbn [was_appended] in Hh; [by split|].
  destruct Hh as (h1 & h2 & Hc & Hd & (L1 & L2 & (He & Hs & HX & Hl) & Hm') & HF).
  exists L1, L2. split_and!; [done..|]. by exists h1, h2.
Qed.

(** A copy with the same keys and the cloned values; without the nodes for it, nothing
    has changed. *)
Theorem clone_refines `{!Clone K, !Clone V} m X F s : (∀ k : K, clone k = k) → is_map m (size X) X F s →
  ∃ res s', map_clone m s = Ret (res, s') ∧
    match res with
    | Ok c => are_maps [(m, X); (c, clone <$> X)] F s'
    | Err _ => is_map m (size X) X F s'
    end.
Proof.
  intros Hk Hm%is_map_one.
  destruct (run_maps_framed (map_clone m) [(m, X)] (was_cloned m X) F s) as (res & s' & Hrun & Hh & Hi);
    [by apply clone_owned|exact Hm|].
  exists res, s'. split; [done|]. destruct res; cbn [was_cloned] in Hh; [by split|].
  by apply is_map_one.
Qed.

(** C26: a failed allocation.  An insertion fails as [insert_failed] says; a split and a copy
    change nothing; a join leaves the smaller part of the entries in the first map, with
    the right count, in a tree whose right border is not mended, and nothing in the second. *)
Theorem allocation_failures `{!Clone K, !Clone V} m X F s : (∀ k : K, clone k = k) → is_map m (size X) X F s →
  (∀ key value m' e s', BTree.insert m key value s = Ret ((m', Err e), s') → insert_failed m (size X) X F key value m' s') ∧
  (∀ key m' e s', split_off m key s = Ret ((m', Err e), s') → m' = m ∧ is_map m (size X) X F s') ∧
  (∀ e s', map_clone m s = Ret (Err e, s') → is_map m (size X) X F s') ∧
  (∀ m2 Y G m' e' e s', F = (all_owned [(m2, Y)] ∗ G)%I → append m m2 s = Ret ((m', e', Err e), s') →
     ∃ L1 L2, e' = BTreeMap_new ∧ sorted (L1 ++ L2) ∧ list_to_map (L1 ++ L2) = Y ∪ X ∧ map_len m' = length L1 ∧
       holds (((⌜m' = BTreeMap_new ∧ L1 = []⌝ ∧ emp) ∨ stuck (root m') L1) ∗ G)%I (cells s')).
Proof.
  intros Hk Hm. split_and!.
  - intros key value m' e s' Hrun. destruct (insert_refines _ _ _ _ _ key value Hm) as (m1 & res & s1 & Hrun' & H).
    rewrite Hrun in Hrun'. by injection Hrun' as <- <- <-.
  - intros key m' e s' Hrun. destruct (split_off_refines m X F s key Hm) as (m1 & res & s1 & Hrun' & H).
    rewrite Hrun in Hrun'. by injection Hrun' as <- <- <-.
  - intros e s' Hrun. destruct (clone_refines m X F s Hk Hm) as (res & s1 & Hrun' & H).
    rewrite Hrun in Hrun'. by injection Hrun' as <- <-.
  - intros m2 Y G m' e' e s' -> Hrun. destruct (append_refines m m2 X Y G s) as (m1 & e1 & res & s1 & Hrun' & H).
    { by apply (are_maps_frame [(m, X)] [(m2, Y)]), is_map_one. }
    rewrite Hrun in Hrun'. by injection Hrun' as <- <- <- <-.
Qed.

(** ** Sequences of operations on several maps *)

Lemma insert_pick {T} (l : list T) i : i < length l → ∃ rest, ∀ a, <[i := a]> l ≡ₚ a :: rest.
Proof.
  revert i. induction l as [|x l IH]; intros [|i] Hi; cbn in Hi; try lia.
  - by exists l.
  - destruct (IH i ltac:(lia)) as [rest H]. exists (x :: rest). intros a. cbn. rewrite H. apply Permutation_swap.
Qed.
Lemma insert_pick_two {T} (l : list T) i j : i < length l → j < length l → i ≠ j →
  ∃ rest, ∀ a b, <[j := b]> (<[i := a]> l) ≡ₚ a :: b :: rest.
Proof.
  revert i j. induction l as [|x l IH]; intros [|i] [|j] Hi Hj Hne; cbn in Hi, Hj; try lia.
  - destruct (insert_pick l j ltac:(lia)) as [rest H]. exists rest. intros a b. cbn. by rewrite H.
  - destruct (insert_pick l i ltac:(lia)) as [rest H]. exists rest. intros a b. cbn. rewrite H. apply Permutation_swap.
  - destruct (IH i j) as [rest H]; [lia..|]. exists (x :: rest). intros a b. cbn. rewrite H.
    by rewrite Permutation_swap (Permutation_swap x b).
Qed.

(** Operations on the [i]th map, and on two of them; a split and a copy add a map at
    the end.  [Update] looks at an entry once ([entry], [and_modify], [or_insert]), and its
    reply is the value at the place that is returned; [ForEach] is a loop over
    [iter_mut]; [Same] is [==]. *)
Inductive maps_op :=
| New | On (i : nat) (o : BTreeRefine.op (K := K) (V := V)) | Update (i : nat) (key : K) (f : V → V) (d : V)
| ForEach (i : nat) (f : K → V → V) | Same (i j : nat) | Split (i : nat) (key : K) | Append (i j : nat) | Copy (i : nat).
Inductive reply := Done | Value (v : option V) | Equal (b : bool).

Definition run_maps_op `{!Clone K, !Clone V, !EqDecision V} (ms : list BTreeMap) (o : maps_op) : M (list BTreeMap * result reply AllocErr) :=
  match o with
  | New => mret (ms ++ [BTreeMap_new], Ok Done)
  | On i o =>
      match ms !! i with
      | Some m => '(m, r) ← run_op m o; mret (<[i := m]> ms, map_ok Value r)
      | None => mret (ms, Ok Done)
      end
  | Update i key f d =>
      match ms !! i with
      | Some m =>
          '(m, r) ← entry_update m key f d;
          match r with
          | Ok p => v ← place_read p; mret (<[i := m]> ms, Ok (Value (Some v)))
          | Err e => mret (<[i := m]> ms, Err e)
          end
      | None => mret (ms, Ok Done)
      end
  | ForEach i f =>
      match ms !! i with
      | Some m => _ ← map_for_each f m; mret (ms, Ok Done)
      | None => mret (ms, Ok Done)
      end
  | Same i j =>
      match ms !! i, ms !! j with
      | Some m, Some other => b ← map_equal m other; mret (ms, Ok (Equal b))
      | _, _ => mret (ms, Ok Done)
      end
  | Split i key =>
      match ms !! i with
      | Some m =>
          '(m, r) ← split_off m key;
          match r with
          | Ok r => mret (<[i := m]> ms ++ [r], Ok Done)
          | Err e => mret (<[i := m]> ms, Err e)
          end
      | None => mret (ms, Ok Done)
      end
  | Append i j =>
      match ms !! i, ms !! j with
      | Some m, Some other =>
          if decide (i = j) then mret (ms, Ok Done)
          else
            '(m, other, r) ← append m other;
            mret (<[j := other]> (<[i := m]> ms), match r with Ok _ => Ok Done | Err e => Err e end)
      | _, _ => mret (ms, Ok Done)
      end
  | Copy i =>
      match ms !! i with
      | Some m =>
          r ← map_clone m;
          match r with
          | Ok c => mret (ms ++ [c], Ok Done)
          | Err e => mret (ms, Err e)
          end
      | None => mret (ms, Ok Done)
      end
  end.

(** They are run up to the first that fails. *)
Fixpoint run_maps `{!Clone K, !Clone V, !EqDecision V} (ms : list BTreeMap) (os : list maps_op) :
    M (list BTreeMap * result (list reply) AllocErr) :=
  match os with
  | [] => mret (ms, Ok [])
  | o :: os =>
      '(ms, r) ← run_maps_op ms o;
      match r with
      | Err e => mret (ms, Err e)
      | Ok v =>
          '(ms, rs) ← run_maps ms os;
          mret (ms, match rs with Ok vs => Ok (v :: vs) | Err e => Err e end)
      end
  end.

(** The same on finite maps. *)
Definition updated (X : gmap K V) (key : K) (f : V → V) (d : V) : V := match X !! key with Some w => f w | None => d end.
Definition spec_maps_op `{!Clone V, !EqDecision V} (Xs : list (gmap K V)) (o : maps_op) : list (gmap K V) * reply :=
  match o with
  | New => (Xs ++ [∅], Done)
  | On i o => match Xs !! i with Some X => (<[i := (spec_op X o).1]> Xs, Value (spec_op X o).2) | None => (Xs, Done) end
  | Update i key f d =>
      match Xs !! i with
      | Some X => (<[i := <[key := updated X key f d]> X]> Xs, Value (Some (updated X key f d)))
      | None => (Xs, Done)
      end
  | ForEach i f => match Xs !! i with Some X => (<[i := map_imap (λ k v, Some (f k v)) X]> Xs, Done) | None => (Xs, Done) end
  | Same i j => match Xs !! i, Xs !! j with Some X, Some Y => (Xs, Equal (bool_decide (X = Y))) | _, _ => (Xs, Done) end
  | Split i key => match Xs !! i with Some X => (<[i := below_key key X]> Xs ++ [from_key key X], Done) | None => (Xs, Done) end
  | Append i j =>
      match Xs !! i, Xs !! j with
      | Some X, Some Y => if decide (i = j) then (Xs, Done) else (<[j := ∅]> (<[i := Y ∪ X]> Xs), Done)
      | _, _ => (Xs, Done)
      end
  | Copy i => match Xs !! i with Some X => (Xs ++ [clone <$> X], Done) | None => (Xs, Done) end
  end.
Fixpoint spec_maps `{!Clone V, !EqDecision V} (Xs : list (gmap K V)) (os : list maps_op) : list (gmap K V) * list reply :=
  match os with
  | [] => (Xs, [])
  | o :: os => let (Xs, v) := spec_maps_op Xs o in let (Xs, vs) := spec_maps Xs os in (Xs, v :: vs)
  end.

(** Dropping all of them. *)
Fixpoint drop_maps (ms : list BTreeMap) : M unit :=
  match ms with [] => mret tt | m :: ms => _ ← BTreeMap_drop m; drop_maps ms end.

(** One map of several. *)
Lemma are_maps_pick st i m X F s : st !! i = Some (m, X) → are_maps st F s →
  ∃ rest, is_map m (size X) X (all_owned rest ∗ F)%I s ∧
    (∀ m' X' s', is_map m' (size X') X' (all_owned rest ∗ F)%I s' → are_maps (<[i := (m', X')]> st) F s') ∧
    (∀ m' X' m'' X'' s', are_maps [(m', X'); (m'', X'')] (all_owned rest ∗ F)%I s' → are_maps (<[i := (m', X')]> st ++ [(m'', X'')]) F s').
Proof.
  intros Hi Hst. destruct (insert_pick st i) as [rest H]; [by eapply lookup_lt_Some|]. exists rest.
  assert (st ≡ₚ (m, X) :: rest) as Hp by by rewrite -{1}(list_insert_id st i (m, X)).
  split_and!.
  - apply are_maps_is_map. by rewrite -(are_maps_perm _ _ _ _ Hp).
  - intros m' X' s' Hm'. apply (are_maps_perm _ _ _ _ (H _)). by apply are_maps_is_map.
  - intros m' X' m'' X'' s' Hm'. apply are_maps_frame in Hm'. eapply (are_maps_perm _ ([(m', X'); (m'', X'')] ++ rest)); [|exact Hm'].
    by rewrite H /= -Permutation_cons_append.
Qed.

(** What an operation should do: the maps and the reply are those of the finite maps. *)
Definition done_as `{!Clone V, !EqDecision V} st o F (x : list BTreeMap * result reply AllocErr) s : Prop :=
  match x.2 with
  | Ok v => v = (spec_maps_op st.*2 o).2 ∧ ∃ st', x.1 = st'.*1 ∧ st'.*2 = (spec_maps_op st.*2 o).1 ∧ are_maps st' F s
  | Err _ => True
  end.
Definition refined `{!Clone K, !Clone V, !EqDecision V} st o F s : Prop :=
  ∃ x s', run_maps_op st.*1 o s = Ret (x, s') ∧ done_as st o F x s'.

(** An operation on the [i]th map. *)
Lemma on_map_refined `{!Clone V, !EqDecision V} st i m X o F m' X' v s' : st !! i = Some (m, X) →
  spec_maps_op st.*2 o = (<[i := X']> st.*2, v) →
  (∀ st', st' = <[i := (m', X')]> st → are_maps st' F s') → done_as st o F (<[i := m']> st.*1, Ok v) s'.
Proof.
  intros Hi Ho Hst. unfold done_as. rewrite Ho. split; [done|]. exists (<[i := (m', X')]> st).
  rewrite !list_fmap_insert. split_and!; [done..|]. by apply Hst.
Qed.
Lemma nothing_refined `{!Clone V, !EqDecision V} st o F s : are_maps st F s → spec_maps_op st.*2 o = (st.*2, Done) →
  done_as st o F (st.*1, Ok Done) s.
Proof. intros Hst Ho. unfold done_as. rewrite Ho. split; [done|]. by exists st. Qed.

Section one_op.
Context `{!Clone K, !Clone V, !EqDecision V}.

Lemma new_refined st F s : are_maps st F s → refined st New F s.
Proof.
  intros Hst. eexists _, s. split; [done|]. split; [done|]. exists (st ++ [(BTreeMap_new, ∅)]). cbn.
  rewrite !fmap_app. split_and!; [done..|].
  apply (are_maps_perm _ ((BTreeMap_new, ∅) :: st)); [by rewrite -Permutation_cons_append|].
  apply are_maps_is_map. destruct Hst. by apply new_is_map.
Qed.

Lemma on_refined st i o F s : are_maps st F s → refined st (On i o) F s.
Proof.
  intros Hst. unfold refined. cbn [run_maps_op]. rewrite list_lookup_fmap. destruct (st !! i) as [[m X]|] eqn:E; cbn [fmap option_fmap option_map fst].
  2: { eexists _, s. split; [done|]. apply nothing_refined; [done|]. cbn. by rewrite list_lookup_fmap E. }
  destruct (are_maps_pick _ _ _ _ _ _ E Hst) as (rest & Hm & Hone & _).
  destruct (run_op_refines _ _ _ _ _ o Hm) as (m' & r & s' & Hrun & _ & Hok).
  eexists _, s'. split; [by cbv [mbind M_bind]; rewrite Hrun|]. destruct r as [v|]; [|done].
  destruct (Hok eq_refl eq_refl) as [[= ->] Hm']. eapply on_map_refined; [exact E|cbn; by rewrite list_lookup_fmap E|].
  intros st' ->. by apply Hone.
Qed.

Lemma update_refined st i key f d F s : are_maps st F s → refined st (Update i key f d) F s.
Proof.
  intros Hst. unfold refined. cbn [run_maps_op]. rewrite list_lookup_fmap. destruct (st !! i) as [[m X]|] eqn:E; cbn [fmap option_fmap option_map fst].
  2: { eexists _, s. split; [done|]. apply nothing_refined; [done|]. cbn. by rewrite list_lookup_fmap E. }
  destruct (are_maps_pick _ _ _ _ _ _ E Hst) as (rest & Hm & Hone & _).
  destruct (entry_refines _ _ _ _ _ key f d Hm) as (m' & r & s' & Hrun & Hr). destruct r as [p|e].
  - destruct Hr as (Hm' & Hread & _). eexists _, s'. split; [by cbv [mbind M_bind]; rewrite Hrun Hread|].
    eapply on_map_refined; [exact E|cbn; by rewrite list_lookup_fmap E|]. intros st' ->. apply Hone. cbv zeta in Hm'.
    replace (size (<[key := updated X key f d]> X)) with (if X !! key then size X else size X + 1); [exact Hm'|].
    rewrite map_size_insert. destruct (X !! key); cbn; lia.
  - eexists _, s'. by split; [cbv [mbind M_bind]; rewrite Hrun|].
Qed.

Lemma for_each_refined st i f F s : are_maps st F s → refined st (ForEach i f) F s.
Proof.
  intros Hst. unfold refined. cbn [run_maps_op]. rewrite list_lookup_fmap. destruct (st !! i) as [[m X]|] eqn:E; cbn [fmap option_fmap option_map fst].
  2: { eexists _, s. split; [done|]. apply nothing_refined; [done|]. cbn. by rewrite list_lookup_fmap E. }
  destruct (are_maps_pick _ _ _ _ _ _ E Hst) as (rest & Hm & Hone & _).
  destruct (map_for_each_refines f _ _ _ _ Hm) as (s' & Hrun & Hm').
  eexists _, s'. split; [by cbv [mbind M_bind]; rewrite Hrun|].
  rewrite -{1}(list_insert_id (st.*1) i m); [|by rewrite list_lookup_fmap E].
  eapply on_map_refined; [exact E|cbn; by rewrite list_lookup_fmap E|]. intros st' ->. apply Hone.
  by rewrite map_size_imap_some.
Qed.

Lemma same_refined st i j F s : are_maps st F s → refined st (Same i j) F s.
Proof.
  intros Hst. unfold refined. cbn [run_maps_op]. rewrite !list_lookup_fmap.
  destruct (st !! i) as [[m X]|] eqn:E1; cbn [fmap option_fmap option_map fst].
  2: { eexists _, s. split; [done|]. apply nothing_refined; [done|]. cbn. by rewrite list_lookup_fmap E1. }
  destruct (st !! j) as [[m2 Y]|] eqn:E2; cbn [fmap option_fmap option_map fst].
  2: { eexists _, s. split; [done|]. apply nothing_refined; [done|]. cbn. by rewrite !list_lookup_fmap E1 E2. }
  destruct (are_maps_pick _ _ _ _ _ _ E1 Hst) as (rest & Hm & _). destruct (are_maps_pick _ _ _ _ _ _ E2 Hst) as (rest2 & Hm2 & _).
  pose proof (map_equal_refines m m2 X Y _ _ s Hm Hm2) as Hrun.
  eexists _, s. split; [by cbv [mbind M_bind]; rewrite Hrun|]. unfold done_as. cbn. rewrite !list_lookup_fmap E1 E2. cbn.
  split; [done|]. by exists st.
Qed.

Lemma split_refined st i key F s : are_maps st F s → refined st (Split i key) F s.
Proof.
  intros Hst. unfold refined. cbn [run_maps_op]. rewrite list_lookup_fmap. destruct (st !! i) as [[m X]|] eqn:E; cbn [fmap option_fmap option_map fst].
  2: { eexists _, s. split; [done|]. apply nothing_refined; [done|]. cbn. by rewrite list_lookup_fmap E. }
  destruct (are_maps_pick _ _ _ _ _ _ E Hst) as (rest & Hm & _ & Htwo).
  destruct (run_maps_framed (split_off m key) [(m, X)] _ _ s (split_off_owned m X key) (proj1 (is_map_one _ _ _ _) Hm))
    as ([m' r] & s' & Hrun & Hh & Hi).
  destruct r as [r|e]; (eexists _, s'; split; [by cbv [mbind M_bind]; rewrite Hrun|]); [|done].
  unfold done_as. cbn. rewrite list_lookup_fmap E. cbn. split; [done|].
  exists (<[i := (m', below_key key X)]> st ++ [(r, from_key key X)]).
  rewrite !fmap_app !list_fmap_insert. split_and!; [done..|]. by apply Htwo.
Qed.

Lemma append_refined st i j F s : are_maps st F s → refined st (Append i j) F s.
Proof.
  intros Hst. unfold refined. cbn [run_maps_op]. rewrite !list_lookup_fmap.
  destruct (st !! i) as [[m X]|] eqn:E1; cbn [fmap option_fmap option_map fst].
  2: { eexists _, s. split; [done|]. apply nothing_refined; [done|]. cbn. by rewrite list_lookup_fmap E1. }
  destruct (st !! j) as [[m2 Y]|] eqn:E2; cbn [fmap option_fmap option_map fst].
  2: { eexists _, s. split; [done|]. apply nothing_refined; [done|]. cbn. by rewrite !list_lookup_fmap E1 E2. }
  destruct (decide (i = j)) as [->|Hij].
  { eexists _, s. split; [done|]. apply nothing_refined; [done|]. cbn. rewrite !list_lookup_fmap E2. cbn. by rewrite decide_True. }
  destruct (insert_pick_two st i j) as [rest H]; [by eapply lookup_lt_Some..|done|].
  assert (st ≡ₚ (m, X) :: (m2, Y) :: rest) as Hp.
  { by rewrite -(H (m, X) (m2, Y)) (list_insert_id st i (m, X)) // (list_insert_id st j (m2, Y)). }
  apply (are_maps_perm _ _ _ _ Hp) in Hst. apply (are_maps_frame [(m, X); (m2, Y)] rest) in Hst.
  destruct (run_maps_framed (append m m2) _ _ _ s (append_owned m m2 X Y) Hst) as ([[m' e'] r] & s' & Hrun & Hh & Hi).
  eexists _, s'. split; [by cbv [mbind M_bind]; rewrite Hrun|]. destruct r as [[]|]; [|done].
  unfold done_as. cbn. rewrite !list_lookup_fmap E1 E2. cbn. rewrite decide_False //. split; [done|].
  exists (<[j := (e', ∅)]> (<[i := (m', Y ∪ X)]> st)). rewrite !list_fmap_insert. split_and!; [done..|].
  apply (are_maps_perm _ _ _ _ (H _ _)). apply (are_maps_frame [_; _] rest). by split.
Qed.

Lemma copy_refined st i F s : (∀ k : K, clone k = k) → are_maps st F s → refined st (Copy i) F s.
Proof.
  intros Hk Hst. unfold refined. cbn [run_maps_op]. rewrite list_lookup_fmap. destruct (st !! i) as [[m X]|] eqn:E; cbn [fmap option_fmap option_map fst].
  2: { eexists _, s. split; [done|]. apply nothing_refined; [done|]. cbn. by rewrite list_lookup_fmap E. }
  destruct (are_maps_pick _ _ _ _ _ _ E Hst) as (rest & Hm & _ & Htwo).
  destruct (run_maps_framed (map_clone m) [(m, X)] _ _ s (clone_owned m X Hk) (proj1 (is_map_one _ _ _ _) Hm))
    as (r & s' & Hrun & Hh & Hi).
  destruct r as [c|e]; (eexists _, s'; split; [by cbv [mbind M_bind]; rewrite Hrun|]); [|done].
  unfold done_as. cbn. rewrite list_lookup_fmap E. cbn. split; [done|].
  exists (st ++ [(c, clone <$> X)]). rewrite !fmap_app. split_and!; [done..|].
  rewrite -(list_insert_id st i (m, X)) //. by apply Htwo.
Qed.

Lemma run_maps_op_refines st o F s : (∀ k : K, clone k = k) → are_maps st F s → refined st o F s.
Proof.
  intros Hk Hst. destruct o; [by apply new_refined|by apply on_refined|by apply update_refined|by apply for_each_refined|
    by apply same_refined|by apply split_refined|by apply append_refined|by apply copy_refined].
Qed.
End one_op.

Lemma run_maps_refines `{!Clone K, !Clone V, !EqDecision V} (Hk : ∀ k : K, clone k = k) os : ∀ st F s, are_maps st F s →
  ∃ ms r s', run_maps st.*1 os s = Ret ((ms, r), s') ∧
    match r with
    | Ok vs => vs = (spec_maps st.*2 os).2 ∧ ∃ st', ms = st'.*1 ∧ st'.*2 = (spec_maps st.*2 os).1 ∧ are_maps st' F s'
    | Err _ => True
    end.
Proof.
  induction os as [|o os IH]; intros st F s Hst; cbn [run_maps spec_maps].
  - eexists _, _, s. split; [done|]. split; [done|]. by exists st.
  - destruct (run_maps_op_refines st o F s Hk Hst) as ([ms r] & s1 & Hrun & Hr). unfold done_as in Hr. cbn [fst snd] in Hr.
    destruct r as [v|e]; [|by eexists _, _, s1; split; [by cbv [mbind M_bind]; rewrite Hrun|]].
    destruct Hr as (-> & st1 & -> & Hst1 & Hm). destruct (IH st1 F s1 Hm) as (ms & r & s2 & Hrun2 & Hr2). rewrite Hst1 in Hr2.
    eexists _, _, s2. split; [by cbv [mbind M_bind]; rewrite Hrun Hrun2|].
    destruct (spec_maps_op st.*2 o) as [Xs v]. cbn [fst snd] in *. destruct (spec_maps Xs os) as [Xs2 vs].
    destruct r as [vs'|e]; [|done]. cbn [fst snd] in *. destruct Hr2 as [-> Hr2]. by split.
Qed.

Lemma drop_maps_frees st : ∀ F s, are_maps st F s →
  ∃ s', drop_maps st.*1 s = Ret (tt, s') ∧ holds F (cells s') ∧ al_inv (live (cells s')) (al s').
Proof.
  induction st as [|[m X] st IH]; intros F s Hst; cbn [fmap list_fmap drop_maps fst].
  - exists s. split; [done|]. by apply are_maps_nil.
  - apply are_maps_is_map in Hst. destruct (drop_frees _ _ _ _ Hst) as (L & s1 & Hrun & _ & _ & Hh & Hi).
    destruct (IH F s1 (conj Hh Hi)) as (s2 & Hrun2 & H2). exists s2. split; [by cbv [mbind M_bind]; rewrite Hrun|done].
Qed.

(** C5: whatever is done to however many maps, up to the first allocation that fails
    nothing panics or touches memory it should not, the answers and the counts are those
    of finite maps, and dropping the maps leaves the heap as it was: insertions, removals
    and look-ups, entries changed in place, loops over all values, comparisons,
    [split_off], [append] and [clone] together. *)
Theorem collections_refine `{!Clone K, !Clone V, !EqDecision V} (os : list maps_op) s :
  (∀ k : K, clone k = k) → al_inv (live (cells s)) (al s) →
  ∃ ms r s', run_maps [] os s = Ret ((ms, r), s') ∧
    match r with
    | Ok vs =>
        let (Xs, vs') := spec_maps [] os in
        vs = vs' ∧ map_len <$> ms = size <$> Xs ∧
        (∀ i m X k, ms !! i = Some m → Xs !! i = Some X → ∃ s'', get m k s' = Ret (X !! k, s'')) ∧
        ∃ s'', drop_maps ms s' = Ret (tt, s'') ∧ cells s'' = cells s
    | Err _ => True
    end.
Proof.
  intros Hk Hi. set (F := HProp (λ h, h = cells s) : hProp N).
  destruct (run_maps_refines Hk os [] F s) as (ms & r & s' & Hrun & Hr); [by apply are_maps_nil|].
  exists ms, r, s'. split; [done|]. destruct r as [vs|]; [|done]. cbn [fmap list_fmap] in Hr.
  destruct (spec_maps [] os) as [Xs vs']. cbn [fst snd] in Hr. destruct Hr as (-> & st & -> & <- & Hst).
  split_and!; [done| | |].
  - rewrite -!list_fmap_compose. apply list_fmap_ext. intros i [m X] Hx. cbn.
    destruct (are_maps_pick _ _ _ _ _ _ Hx Hst) as (rest & Hm & _). by apply is_map_len in Hm as [? _].
  - intros i m X k. rewrite !list_lookup_fmap. destruct (st !! i) as [[m' X']|] eqn:E; [|done]. intros [= ->] [= ->].
    destruct (are_maps_pick _ _ _ _ _ _ E Hst) as (rest & Hm & _).
    destruct (get_refines _ _ _ _ _ k Hm) as (s'' & Hg & _). by exists s''.
  - destruct (drop_maps_frees _ _ _ Hst) as (s'' & Hd & Hc & _). by exists s''.
Qed.
End maps.

(** ** Witnesses *)

#[local] Instance Z_Clone : Clone Z := λ x, x.

Definition fill_in (i : nat) (ks : list Z) : list (maps_op (K := Z) (V := Z)) := (λ k : Z, On i (BTreeRefine.Insert k (k * 10)%Z)) <$> ks.
Definition keys_from (a n : nat) : list Z := Z.of_nat <$> seq a n.

(** Sixty entries, each increased by one; cut at 23; a copy of the upper part, compared and
    changed; the parts joined again. *)
Definition cut_and_join : list (maps_op (K := Z) (V := Z)) :=
  New :: fill_in 0 (keys_from 0 60) ++
  [ForEach 0 (λ _ v, v + 1)%Z; Split 0 23%Z; Copy 1; Same 1 2; On 2 (BTreeRefine.Insert 30%Z 7%Z); On 2 (BTreeRefine.Remove 31%Z);
   Update 2 70%Z (λ v, v) 5%Z; Update 2 70%Z (λ v, v * 2)%Z 0%Z; Append 0 2; Append 0 1].

Lemma collections_refine_witness : ∃ m0 m1 m2 vs s',
  run_maps [] cut_and_join (bump_store []) = Ret (([m0; m1; m2], Ok vs), s') ∧
  map_len <$> [m0; m1; m2] = [61; 0; 0] ∧ (∃ s'', get m0 30%Z s' = Ret (Some 301%Z, s'')) ∧
  ∃ s'', drop_maps [m0; m1; m2] s' = Ret (tt, s'') ∧ cells s'' = ∅.
Proof.
  destruct (collections_refine cut_and_join (bump_store []) (λ k, eq_refl) (bump_store_inv [])) as (ms & r & s' & Hrun & Hr).
  assert (∃ X, (spec_maps [] cut_and_join).1 !! 0 = Some X ∧ X !! 30%Z = Some 301%Z) as (X & HX & H30)
    by (eexists; split; by vm_compute).
  assert (size <$> (spec_maps [] cut_and_join).1 = [61; 0; 0]) as Hsize by by vm_compute.
  pose proof Hrun as Hms. vm_compute in Hms.
  destruct r as [vs|e]; [|done]. destruct (spec_maps [] cut_and_join) as [Xs vs']. destruct Hr as (-> & Hl & Hget & Hdrop).
  injection Hms as Hms _ _. subst ms. eexists _, _, _, vs', s'. split; [exact Hrun|]. split; [by rewrite Hl|]. split; [|exact Hdrop].
  by destruct (Hget 0 _ X 30%Z eq_refl HX) as [s'' ->]; exists s''; rewrite H30.
Defined.

Lemma allocation_failures_witness :
  let X := (spec_ops ∅ (fill 11)).1 in
  match run_ops BTreeMap_new (fill 11) (bump_store [true; false]) with
  | Ret ((m, _), s) =>
      match split_off m 5%Z s with
      | Ret ((m', Err _), s') => m' = m ∧ is_map m (size X) X (HProp (λ h, h = cells (bump_store [true; false]))) s'
      | _ => False
      end
  | _ => False
  end.
Proof.
  destruct (run_ops BTreeMap_new (fill 11) (bump_store [true; false])) as [[[m rs] s]|?|?] eqn:E; [|by vm_compute in E..].
  assert (forallb is_ok rs = true) as Hok by (vm_compute in E; by injection E as <- <- <-).
  pose proof (run_is_map (fill 11) (bump_store [true; false]) m rs s (bump_store_inv _) E Hok) as Hm.
  destruct (split_off m 5%Z s) as [[[m' [o|e]] s']|?|?] eqn:E2.
  2: { destruct (allocation_failures m _ _ s (λ k, eq_refl) Hm) as (_ & Hsplit & _). exact (Hsplit 5%Z m' e s' E2). }
  all: clear Hm; vm_compute in E; injection E as <- <- <-; by vm_compute in E2.
Defined.

(** Concretely: when [append] has added a root and then cannot have the leaf for it, the
    map has a root without keys; removing entries until its only child underflows panics. *)
Theorem failed_append_damages : ∃ m e s,
  run_maps [] (New :: fill_in 0 (keys_from 0 11) ++ New :: fill_in 1 (keys_from 11 3) ++ [Append 0 1])
    (bump_store [true; true; true; true; false]) = Ret (([m; e], Err AllocErr_), s) ∧
  map_len m = 11 ∧ run_ops m (BTreeRefine.Remove <$> keys_from 0 7) s = Panic "internal error: entered unreachable code".
Proof. eexists _, _, _. split; [by vm_compute|]. split; by vm_compute. Qed.
