(* ===== verification/Utf8.v ===== *)
(** * Utf8: byte strings and text ([kernel/src/util/mod.rs])

    [core::str::from_utf8] as the standard library defines it: the length of the
    valid prefix, and for a bad sequence its length, or none when the input ends
    inside a sequence that could still become valid.  [utf8_valid_parts] and
    [array_string] are built on it. *)

From S2P Require Import Prelude.

(** A byte string. *)
Abbreviation bytes := (list Z) (only parsing).

Definition is_continuation (b : Z) : bool := (0x80 <=? b) && (b <=? 0xbf).

(** The second bytes allowed after the first byte of a three or four byte
    sequence. *)
Definition second3 (first next : Z) : bool :=
  if first =? 0xe0 then (0xa0 <=? next) && (next <=? 0xbf)
  else if first =? 0xed then (0x80 <=? next) && (next <=? 0x9f)
  else is_continuation next.
Definition second4 (first next : Z) : bool :=
  if first =? 0xf0 then (0x90 <=? next) && (next <=? 0xbf)
  else if first =? 0xf4 then (0x80 <=? next) && (next <=? 0x8f)
  else is_continuation next.

(** The sequence at the start of a nonempty input: a character of [n] bytes, or an
    error with the [error_len] of [Utf8Error]. *)
Inductive sequence :=
| Char (n : nat)
| Bad (error_len : option nat).

(** [next!()]: the next byte satisfies [ok], or the error is [len]. *)
Definition next_byte (ok : Z -> bool) (len : nat) (bs : bytes) (k : bytes -> sequence) : sequence :=
  match bs with
  | [] => Bad None
  | b :: bs => if ok b then k bs else Bad (Some len)
  end.

Definition scan (first : Z) (rest : bytes) : sequence :=
  if first <? 0x80 then Char 1
  else if (0xc2 <=? first) && (first <=? 0xdf) then
    next_byte is_continuation 1 rest (fun _ => Char 2)
  else if (0xe0 <=? first) && (first <=? 0xef) then
    next_byte (second3 first) 1 rest (fun rest =>
    next_byte is_continuation 2 rest (fun _ => Char 3))
  else if (0xf0 <=? first) && (first <=? 0xf4) then
    next_byte (second4 first) 1 rest (fun rest =>
    next_byte is_continuation 2 rest (fun rest =>
    next_byte is_continuation 3 rest (fun _ => Char 4)))
  else Bad (Some 1%nat).

Record Utf8Error := Utf8Error_ { valid_up_to : nat; error_len : option nat }.

(** The scan from an offset; [fuel] bounds the number of characters. *)
Fixpoint validate (fuel offset : nat) (bs : bytes) : result unit Utf8Error :=
  match bs, fuel with
  | [], _ => Ok tt
  | _, O => Ok tt
  | b :: rest, S fuel =>
      match scan b rest with
      | Char n => validate fuel (offset + n) (skipn n bs)
      | Bad len => Err (Utf8Error_ offset len)
      end
  end.

(** [str::from_utf8]: every character takes at least a byte, so the length of the
    input is enough fuel. *)
Definition from_utf8 (bs : bytes) : result unit Utf8Error := validate (length bs) 0 bs.

(** ** util/mod.rs *)

(** One call of the closure of [utf8_valid_parts]: the next part and the index
    after it. *)
Definition next_part (buf : bytes) (idx : nat) : option (bytes * nat) :=
  let rest := skipn idx buf in
  match from_utf8 rest with
  | Ok _ => match rest with [] => None | _ => Some (rest, (idx + length rest)%nat) end
  | Err e =>
      Some (firstn (valid_up_to e) rest, (idx + (valid_up_to e + default 0 (error_len e)))%nat)
  end.

(** The parts the iterator yields; [None]: more than [fuel] calls. *)
Fixpoint parts_from (fuel : nat) (buf : bytes) (idx : nat) : option (list bytes) :=
  match fuel with
  | O => None
  | S fuel =>
      match next_part buf idx with
      | None => Some []
      | Some (part, idx) => cons part <$> parts_from fuel buf idx
      end
  end.

Definition utf8_valid_parts (fuel : nat) (buf : bytes) : option (list bytes) := parts_from fuel buf 0.

Inductive ArrayStringError :=
| TooLong
| Utf8 (e : Utf8Error).

(** [array_string] into a string of [capacity] bytes. *)
Definition array_string (capacity : nat) (buf : bytes) : result bytes ArrayStringError :=
  if decide (capacity < length buf)%nat then Err TooLong
  else map_err Utf8 (map_ok (fun _ => buf) (from_utf8 buf)).

(** ** Validation *)

Definition valid (bs : bytes) : Prop := from_utf8 bs = Ok tt.

Lemma scan_char first rest n : scan first rest = Char n -> (1 <= n <= S (length rest))%nat.
Proof.
  unfold scan, next_byte.
  repeat match goal with
  | |- context [if ?b then _ else _] => destruct b
  | |- context [match ?r with [] => _ | _ :: _ => _ end] => destruct r; cbn [length]
  end; intros [= <-]; lia.
Qed.

Lemma scan_bad first rest len : scan first rest = Bad (Some len) -> (1 <= len <= S (length rest))%nat.
Proof.
  unfold scan, next_byte.
  repeat match goal with
  | |- context [if ?b then _ else _] => destruct b
  | |- context [match ?r with [] => _ | _ :: _ => _ end] => destruct r; cbn [length]
  end; intros [= <-]; lia.
Qed.

(** A well-formed sequence is recognised whatever follows it. *)
Lemma scan_char_firstn first rest n more : scan first rest = Char n ->
  scan first (firstn (n - 1) rest ++ more) = Char n.
Proof.
  unfold scan, next_byte.
  repeat match goal with
  | |- context [if ?b then _ else _] => destruct b eqn:?
  | |- context [match ?r with [] => _ | _ :: _ => _ end] => is_var r; destruct r
  end; intros [= <-]; cbn; repeat match goal with H : ?b = true |- _ => rewrite H; clear H end; done.
Qed.

Lemma validate_fuel fuel fuel' offset bs :
  (length bs <= fuel)%nat -> (length bs <= fuel')%nat -> validate fuel offset bs = validate fuel' offset bs.
Proof.
  revert fuel' offset bs. induction fuel as [|fuel IH]; intros fuel' offset bs Hl Hl'.
  - destruct bs; [by destruct fuel'|cbn in Hl; lia].
  - destruct bs as [|b rest]; [by destruct fuel'|]. destruct fuel' as [|fuel']; [cbn in Hl'; lia|].
    cbn [validate]. destruct (scan b rest) as [n|len] eqn:Hs; [|done].
    pose proof (scan_char b rest n Hs). apply IH; rewrite length_skipn; cbn [length] in *; lia.
Qed.

Lemma validate_offset fuel o bs : validate fuel o bs =
  match validate fuel 0 bs with
  | Ok _ => Ok tt
  | Err e => Err (Utf8Error_ (o + valid_up_to e) (error_len e))
  end.
Proof.
  revert o bs. induction fuel as [|fuel IH]; intros o [|b rest]; cbn [validate]; try done.
  destruct (scan b rest) as [n|len]; [|by rewrite Nat.add_0_r].
  rewrite (IH (o + n)%nat), (IH (0 + n)%nat). destruct (validate fuel 0 _) as [|e]; [done|].
  cbn. by rewrite Nat.add_assoc.
Qed.

(** One character and a valid rest. *)
Lemma valid_char b rest n : scan b rest = Char n -> valid (skipn n (b :: rest)) <-> valid (b :: rest).
Proof.
  intros Hs. pose proof (scan_char b rest n Hs) as Hn. unfold valid, from_utf8. cbn [length validate].
  rewrite Hs, (validate_offset (length rest)).
  rewrite (validate_fuel (length rest) (length (skipn n (b :: rest)))); [|rewrite length_skipn; cbn; lia|lia].
  by destruct (validate (length (drop n (b :: rest))) 0 (drop n (b :: rest))) as [[]|].
Qed.

Lemma firstn_add {A} n m (l : list A) : firstn (n + m) l = firstn n l ++ firstn m (skipn n l).
Proof.
  revert l. induction n as [|n IH]; intros l; [done|]. destruct l; cbn; [by rewrite firstn_nil|].
  by rewrite IH.
Qed.

(** The valid prefix and what follows it. *)
Lemma validate_spec fuel bs :
  (length bs <= fuel)%nat ->
  match validate fuel 0 bs with
  | Ok _ => True
  | Err e => (valid_up_to e < length bs)%nat /\ valid (firstn (valid_up_to e) bs) /\
      exists b rest, skipn (valid_up_to e) bs = b :: rest /\ scan b rest = Bad (error_len e)
  end.
Proof.
  revert bs. induction fuel as [|fuel IH]; intros [|b rest] Hl; cbn [validate]; try done; try (cbn in Hl; lia).
  destruct (scan b rest) as [n|len] eqn:Hs.
  2:{ cbn. split_and!; [lia|done|]. by exists b, rest. }
  pose proof (scan_char b rest n Hs) as Hn. rewrite validate_offset.
  specialize (IH (skipn n (b :: rest))). rewrite length_skipn in IH. cbn [length] in *.
  destruct (validate fuel 0 (skipn n (b :: rest))) as [u|e]; [done|]. cbn [valid_up_to error_len].
  destruct IH as (Hlt & Hv & b' & r' & Hsk & Hb); [lia|]. split_and!; [lia| |].
  - rewrite firstn_add. destruct n as [|n]; [lia|]. cbn [firstn app Nat.add].
    pose proof (scan_char_firstn b rest (S n) (firstn (valid_up_to e) (skipn (S n) (b :: rest))) Hs) as Hs'.
    replace (S n - 1)%nat with n in Hs' by lia. apply (valid_char _ _ _ Hs').
    cbn [skipn]. rewrite skipn_app, length_take.
    rewrite (skipn_all2 (take n rest)) by (rewrite length_take; lia).
    replace (n - n `min` length rest)%nat with 0%nat by lia. exact Hv.
  - exists b', r'. split; [|done]. rewrite <- Hsk, drop_drop. f_equal; lia.
Qed.

Lemma from_utf8_spec bs :
  match from_utf8 bs with
  | Ok _ => True
  | Err e => (valid_up_to e < length bs)%nat /\ valid (firstn (valid_up_to e) bs) /\
      exists b rest, skipn (valid_up_to e) bs = b :: rest /\ scan b rest = Bad (error_len e)
  end.
Proof. by apply validate_spec. Qed.

(** ** The parts of a buffer *)

(** [buf] ends inside a character: some suffix of it is an incomplete sequence that
    the scan reaches. *)
Inductive truncated : bytes -> Prop :=
| truncated_here b rest : scan b rest = Bad None -> truncated (b :: rest)
| truncated_char b rest n : scan b rest = Char n -> truncated (skipn n (b :: rest)) -> truncated (b :: rest)
| truncated_bad b rest n : scan b rest = Bad (Some n) -> truncated (skipn n (b :: rest)) -> truncated (b :: rest).

Lemma from_utf8_cons b rest : from_utf8 (b :: rest) =
  match scan b rest with
  | Char n => match from_utf8 (skipn n (b :: rest)) with
      | Ok _ => Ok tt
      | Err e => Err (Utf8Error_ (n + valid_up_to e) (error_len e))
      end
  | Bad len => Err (Utf8Error_ 0 len)
  end.
Proof.
  unfold from_utf8. cbn [length validate]. destruct (scan b rest) as [n|len] eqn:Hs; [|done].
  pose proof (scan_char b rest n Hs) as Hn. rewrite validate_offset.
  by rewrite (validate_fuel (length rest) (length (skipn n (b :: rest)))) by (rewrite ?length_skipn; cbn; lia).
Qed.

(** Induction over the characters and bad sequences of a buffer. *)
Lemma bytes_sequence_ind (P : bytes -> Prop) :
  P [] ->
  (forall b rest n, scan b rest = Char n -> P (skipn n (b :: rest)) -> P (b :: rest)) ->
  (forall b rest n, scan b rest = Bad (Some n) -> P (skipn n (b :: rest)) -> P (b :: rest)) ->
  (forall b rest, scan b rest = Bad None -> P (b :: rest)) -> forall bs, P bs.
Proof.
  intros H0 Hc Hb Hn bs. remember (length bs) as k eqn:Hk. assert (length bs <= k)%nat as Hle by lia. clear Hk.
  revert bs Hle. induction k as [|k IH]; intros [|b rest] Hle; try done; try (cbn in Hle; lia).
  destruct (scan b rest) as [n|[n|]] eqn:Hs.
  - pose proof (scan_char b rest n Hs). apply (Hc b rest n Hs), IH. rewrite length_skipn. cbn in *. lia.
  - pose proof (scan_bad b rest n Hs). apply (Hb b rest n Hs), IH. rewrite length_skipn. cbn in *. lia.
  - by apply Hn.
Qed.

Lemma truncated_spec bs : truncated bs <->
  match from_utf8 bs with
  | Ok _ => False
  | Err e => match error_len e with
      | None => True
      | Some n => truncated (skipn (valid_up_to e + n) bs)
      end
  end.
Proof.
  induction bs as [|b rest n Hs IH|b rest n Hs IH|b rest Hs] using bytes_sequence_ind.
  - cbn. split; [|done]. by inversion 1.
  - rewrite from_utf8_cons, Hs. transitivity (truncated (skipn n (b :: rest))).
    + split; [|by apply truncated_char]. inversion 1; congruence.
    + rewrite IH. destruct (from_utf8 _) as [|e]; [done|]. cbn [error_len valid_up_to].
      destruct (error_len e) as [m|]; [|done]. rewrite drop_drop. by rewrite Nat.add_assoc.
  - rewrite from_utf8_cons, Hs. cbn. split; [|by apply truncated_bad]. inversion 1; congruence.
  - rewrite from_utf8_cons, Hs. cbn. split; [done|]. intros _. by apply truncated_here.
Qed.

(** The iterator on what is left of the buffer. *)
Fixpoint suffix_parts (fuel : nat) (rest : bytes) : option (list bytes) :=
  match fuel with
  | O => None
  | S fuel =>
      match from_utf8 rest with
      | Ok _ => match rest with [] => Some [] | _ => cons rest <$> suffix_parts fuel [] end
      | Err e => cons (firstn (valid_up_to e) rest) <$>
          suffix_parts fuel (skipn (valid_up_to e + default 0%nat (error_len e)) rest)
      end
  end.

Lemma parts_from_suffix fuel buf idx : parts_from fuel buf idx = suffix_parts fuel (skipn idx buf).
Proof.
  revert idx. induction fuel as [|fuel IH]; intros idx; [done|]. cbn [parts_from suffix_parts]. unfold next_part.
  destruct (from_utf8 (skipn idx buf)) as [u|e].
  - destruct (skipn idx buf) as [|b rest] eqn:Hr; [done|]. rewrite IH.
    replace (skipn (idx + length (b :: rest)) buf) with (@nil Z); [done|].
    rewrite <- drop_drop, Hr. symmetry. by apply skipn_all2.
  - by rewrite IH, drop_drop.
Qed.

(** [buf] is cut into [parts] with one ill-formed sequence after each of them,
    except after a nonempty last part. *)
Inductive cut : list bytes -> bytes -> Prop :=
| cut_nil : cut [] []
| cut_last p : p <> [] -> valid p -> cut [p] p
| cut_part p b bad rest ps : valid p -> scan b (bad ++ rest) = Bad (Some (S (length bad))) ->
    cut ps rest -> cut (p :: ps) (p ++ b :: bad ++ rest).

Lemma suffix_parts_truncated fuel rest : truncated rest -> suffix_parts fuel rest = None.
Proof.
  revert rest. induction fuel as [|fuel IH]; intros rest Ht; [done|]. cbn.
  pose proof (proj1 (truncated_spec rest) Ht) as H. destruct (from_utf8 rest) as [u|e] eqn:He; [done|].
  rewrite IH; [done|]. destruct (error_len e) as [n|] eqn:Hl; [done|]. cbn. rewrite Nat.add_0_r.
  pose proof (from_utf8_spec rest) as Hs. rewrite He in Hs. destruct Hs as (_ & _ & b & r & -> & Hb).
  rewrite Hl in Hb. by apply truncated_here.
Qed.

Lemma suffix_parts_cut fuel rest : ~ truncated rest -> (length rest < fuel)%nat ->
  exists ps, suffix_parts fuel rest = Some ps /\ cut ps rest.
Proof.
  revert rest. induction fuel as [|fuel IH]; intros rest Ht Hf; [lia|]. cbn.
  rewrite truncated_spec in Ht. pose proof (from_utf8_spec rest) as Hs.
  destruct (from_utf8 rest) as [[]|e] eqn:He.
  - destruct rest as [|b r]; [by exists []; split; [|constructor]|].
    destruct fuel as [|fuel]; [cbn in Hf; lia|]. exists [b :: r]. split; [done|]. by constructor.
  - destruct Hs as (Hlt & Hv & b & r & Hsk & Hb).
    destruct (error_len e) as [n|] eqn:Hl; [|done]. pose proof (scan_bad b r n Hb) as Hn.
    destruct (IH (skipn (valid_up_to e + n) rest) Ht) as (ps & Hps & Hc).
    { rewrite length_skipn. lia. }
    cbn [default from_option id]. rewrite Hps. eexists. split; [done|].
    assert (rest = firstn (valid_up_to e) rest ++ b :: firstn (n - 1) r ++ skipn (valid_up_to e + n) rest) as Hcut.
    { rewrite <- (take_drop (valid_up_to e) rest) at 1. f_equal.
      rewrite Hsk, <- drop_drop, Hsk. destruct n as [|n]; [lia|]. cbn [skipn].
      replace (S n - 1)%nat with n by lia. by rewrite take_drop. }
    rewrite Hcut at 2. constructor; [done| |done].
    assert (firstn (n - 1) r ++ skipn (valid_up_to e + n) rest = r) as ->.
    { rewrite <- drop_drop, Hsk. destruct n as [|n]; [lia|]. cbn [skipn].
      replace (S n - 1)%nat with n by lia. by rewrite take_drop. }
    rewrite Hb. rewrite length_take. f_equal. f_equal. lia.
Qed.

(** C36: [utf8_valid_parts] is right exactly on buffers that do not end inside a
    character.  On those it stops, having cut the buffer into its valid parts with
    one ill-formed sequence after each; on a buffer that does end inside a character
    the iterator never finishes: whoever consumes it, such as a write to the
    console, loops. *)
Theorem utf8_valid_parts_spec buf :
  (~ truncated buf -> exists ps, utf8_valid_parts (S (length buf)) buf = Some ps /\ cut ps buf) /\
  (truncated buf -> forall fuel, utf8_valid_parts fuel buf = None).
Proof.
  unfold utf8_valid_parts. split.
  - intros Ht. rewrite parts_from_suffix. apply suffix_parts_cut; [done|lia].
  - intros Ht fuel. rewrite parts_from_suffix. by apply suffix_parts_truncated.
Qed.

(** [a], a bad byte, [b], and the first byte of a two byte character. *)
Lemma utf8_valid_parts_spec_witness : utf8_valid_parts 1000 [0x61; 0xff; 0x62; 0xc3] = None.
Proof.
  apply (proj2 (utf8_valid_parts_spec [0x61; 0xff; 0x62; 0xc3])).
  eapply truncated_char; [reflexivity|]. eapply truncated_bad; [reflexivity|].
  eapply truncated_char; [reflexivity|]. apply truncated_here. reflexivity.
Defined.

Example parts_of_mixed : utf8_valid_parts 5 [0x61; 0xff; 0x62] = Some [[0x61]; [0x62]].
Proof. reflexivity. Qed.
