(* ===== verification/Console.v ===== *)
(** * Console: the text consoles ([kernel/src/console.rs], [kernel/src/console/vga.rs])

    [VgaText] draws glyphs into a window of video memory; [PortE9] is the port of
    the emulator.  Every access to video memory is checked against the size of the
    window: an access outside of it is undefined behaviour.

    The dimensions come from 16-bit fields and the cursor stays below them, so that
    no sum or product of them reaches 64 bits; the subtractions can underflow and
    are checked.  The boot font and the picture [blank] draws are bytes the code is
    given. *)

From S2P Require Import Prelude Sync Machine Phys Page Utf8.

Definition VRAM_SIZE : Z := 8 * 1024 * 1024.
Definition RED : Z := 0xed.
Definition GREEN : Z := 0xbd.
Definition BLUE : Z := 0xa6.
Definition CHAR_HEIGHT : Z := 16.
Definition CHAR_WIDTH : Z := 8.
Definition STRIDE : Z := 3.

Record VgaText := VgaText_ {
  vram : gmap Z Z;             (* what [vram] points to, by offset *)
  bios_font : list Z;
  width : Z; height : Z; pitch : Z;
  col : Z; row : Z
}.

Definition set_vram m (v : VgaText) := VgaText_ m (bios_font v) (width v) (height v) (pitch v) (col v) (row v).
Definition set_cursor c r (v : VgaText) := VgaText_ (vram v) (bios_font v) (width v) (height v) (pitch v) c r.

(** [0..n] as integers. *)
Definition range (n : Z) : list Z := Z.of_nat <$> seq 0 (Z.to_nat n).

Section vga.
Context (p : profile).

(** [ptr::write(vram.add(off), b)] *)
Definition vwrite (off b : Z) : M VgaText unit := fun v =>
  if (0 <=? off) && (off <? VRAM_SIZE) then Ret (tt, set_vram (<[off := b]> (vram v)) v)
  else UB "write outside of video memory".

Definition sub (a b : Z) : M VgaText Z := fun v => lift (u64_sub p a b) v.

(** A pixel of the background at [line + x * 3]. *)
Definition background (line x : Z) : M VgaText unit :=
  _ ← vwrite (line + x * 3 + 0) BLUE;
  _ ← vwrite (line + x * 3 + 1) GREEN;
  vwrite (line + x * 3 + 2) RED.

(** [ptr::copy(src, vram.add(dst), n)] with the source given by its bytes. *)
Definition copy_in (dst : Z) (src : list Z) : M VgaText unit :=
  for_each (fun ib => vwrite (dst + Z.of_nat ib.1) ib.2) (imap pair src).

(** The bytes at [off .. off + n] of the picture. *)
Definition crab_bytes (crab : list Z) (off n : nat) : M VgaText (list Z) :=
  if decide (off + n <= length crab)%nat then mret (take n (drop off crab))
  else ub "read outside of the picture".

Definition blank (crab : list Z) : M VgaText unit :=
  v ← gets id;
  _ ← for_each (fun y =>
        let line := y * pitch v in
        for_each (fun x => background line x) (range (width v))) (range (height v));
  let crab_header := 0x36 in
  let crab_width := 256 in
  let crab_height := 256 in
  for_each (fun y =>
    top ← sub (height v) crab_height;
    left ← sub (width v) crab_width;
    let line := (top + y) * pitch v + left * STRIDE in
    let crab_idx := y * crab_width * STRIDE + crab_header in
    bytes ← crab_bytes crab (Z.to_nat crab_idx) (Z.to_nat (crab_width * STRIDE));
    copy_in line bytes) (range crab_height).

Definition rows (v : VgaText) : Z := height v / CHAR_HEIGHT.
Definition cols : M VgaText Z :=
  v ← gets id;
  w ← sub (width v) 256;
  mret (w / CHAR_WIDTH).

(** [ptr::copy(vram.add(src), vram, count)], which allows the areas to overlap. *)
Definition move_up (src count : Z) : M VgaText unit := fun v =>
  if (0 <=? src) && (0 <=? count) && (src + count <=? VRAM_SIZE) then
    let m := vram v in
    Ret (tt, set_vram
      (foldr (fun i m' => <[i := default 0 (m !! (src + i))]> m') m (range count)) v)
  else UB "copy outside of video memory".

Definition newline : M VgaText unit :=
  _ ← modify (fun v => set_cursor 0 (row v + 1) v);
  v ← gets id;
  if row v =? rows v then
    n ← sub (rows v) 1;
    let count := pitch v * n * CHAR_HEIGHT in
    _ ← move_up (pitch v * CHAR_HEIGHT) count;
    _ ← for_each (fun y =>
          for_each (fun x => background (count + pitch v * y) x) (range (width v))) (range CHAR_HEIGHT);
    r ← sub (row v) 1;
    modify (set_cursor 0 r)
  else mret tt.

(** [self.bios_font[i]] *)
Definition font_at (i : Z) : M VgaText Z :=
  v ← gets id;
  match bios_font v !! Z.to_nat i with
  | Some g => mret g
  | None => panic "index out of bounds"
  end.

Definition write_cp437 (b : Z) : M VgaText unit :=
  v ← gets id;
  let pos := row v * CHAR_HEIGHT * pitch v + col v * CHAR_WIDTH * STRIDE in
  _ ← for_each (fun glyph_y =>
        glyph ← font_at (b * 16 + glyph_y);
        let pos := pos + glyph_y * pitch v in
        for_each (fun glyph_x =>
          let pos := pos + glyph_x * STRIDE in
          if negb (Z.land glyph (Z.shiftr 0x80 glyph_x) =? 0) then
            _ ← vwrite (pos + 0) 0;
            _ ← vwrite (pos + 1) 0;
            vwrite (pos + 2) 0
          else mret tt) (range CHAR_WIDTH)) (range CHAR_HEIGHT);
  _ ← modify (fun v => set_cursor (col v + 1) (row v) v);
  c ← gets col;
  n ← cols;
  if c =? n then newline else mret tt.

Definition update_cursor : M VgaText unit := mret tt.

(** [for c in s.chars()]: the first byte of each character of a valid string; a
    first byte below 128 is the character. *)
Fixpoint chars (fuel : nat) (s : bytes) : list Z :=
  match fuel, s with
  | S fuel, b :: rest =>
      match scan b rest with
      | Char n => b :: chars fuel (skipn n s)
      | Bad _ => []
      end
  | _, _ => []
  end.

Definition write_char (c : Z) : M VgaText unit :=
  if c =? 10 then newline
  else if c <? 128 then write_cp437 c
  else write_cp437 63.

Definition vga_write_str (s : bytes) : M VgaText unit :=
  _ ← for_each write_char (chars (length s) s);
  update_cursor.
End vga.

(** ** console.rs *)

Inductive Console :=
| PortE9
| Vga (v : VgaText).

(** The console and what has been sent to port [0xe9]. *)
Record consoles := Consoles { con_if : bool; CONSOLE : Mutex Console; e9 : list Z; con_build : profile }.

#[export] Instance consoles_HasCpu : HasCpu consoles :=
  Lens con_if (fun b s => Consoles b (CONSOLE s) (e9 s) (con_build s)).
#[export] Instance consoles_HasCpu_laws : LensLaws (cpu_if : lens consoles bool).
Proof. split; [done | by intros [] | done]. Qed.
Definition CONSOLE_l : lens consoles (Mutex Console) :=
  Lens CONSOLE (fun m s => Consoles (con_if s) m (e9 s) (con_build s)).

(** [PortE9::write_str] *)
Definition e9_write_str (s : bytes) : M consoles unit :=
  for_each (fun b => modify (fun c => Consoles (con_if c) (CONSOLE c) (b :: e9 c) (con_build c))) s.

(** [Console::write_str], through a guard of [CONSOLE]. *)
Definition write_str (s : bytes) : M consoles unit :=
  con ← deref CONSOLE_l;
  match con with
  | PortE9 => e9_write_str s
  | Vga v => fun c =>
      match vga_write_str (con_build c) s v with
      | Ret (_, v) => assign CONSOLE_l (Vga v) c
      | Panic e => Panic e
      | UB e => UB e
      end
  end.

(** [console::set] *)
Definition set_console (c : Console) : M consoles unit := with_lock CONSOLE_l (assign CONSOLE_l c).

(** [console::write_fmt]: [fmt::write] hands the pieces of the formatted text to
    [write_str]. *)
Definition write_fmt (pieces : list bytes) : M consoles unit :=
  with_lock CONSOLE_l (for_each write_str pieces).

(** [Itertools::intersperse] *)
Fixpoint intersperse (sep : bytes) (l : list bytes) : list bytes :=
  match l with
  | [] => []
  | [x] => [x]
  | x :: l => x :: sep :: intersperse sep l
  end.

(** The write of [vfs::File::Console]; a console that does not answer: [None]. *)
Definition console_write (fuel : nat) (buf : bytes) : M consoles (option Z) :=
  with_lock CONSOLE_l (
    match utf8_valid_parts fuel buf with
    | Some parts =>
        _ ← for_each write_str (intersperse [63] parts);
        mret (Some (Z.of_nat (length buf)))
    | None => mret None
    end).

(** ** Setting up the screen *)

(** The fields [console_init] uses of the mode information of the BIOS. *)
Record VbeModeInfo := Vbe { vbe_pitch : Z; vbe_x_res : Z; vbe_y_res : Z; vbe_phys_base : Z }.

(** The loop that maps the window at [virt]. *)
Definition map_window (phys_base virt : Z) : M machine unit :=
  for_each (fun i =>
    let off := i * PAGE_SIZE in
    phys ← Phys_new (phys_base + off);
    r ← map phys (virt + off) (Z.lor PRESENT WRITE);
    expect_ok r "page::map in console_init") (range (VRAM_SIZE / PAGE_SIZE)).

Definition first_lens {A B} : lens (A * B) A := Lens fst (fun a s => (a, s.2)).
Definition second_lens {A B} : lens (A * B) B := Lens snd (fun b s => (s.1, b)).

(** [window]: what the mapped pages hold; [virt]: the address of [VRAM]. *)
Definition console_init (info : VbeModeInfo) (font crab : list Z) (window : gmap Z Z) (virt : Z) :
  M (machine * consoles) unit :=
  _ ← zoom first_lens (map_window (vbe_phys_base info) virt);
  let vga := VgaText_ window (take 4096 font) (vbe_x_res info) (vbe_y_res info) (vbe_pitch info) 0 0 in
  zoom second_lens (fun c =>
    match blank (con_build c) crab vga with
    | Ret (_, vga) => set_console (Vga vga) c
    | Panic e => Panic e
    | UB e => UB e
    end).

(** ** Video memory is never left *)

Record vga_wf (v : VgaText) : Prop := {
  vw_width : 264 <= width v < 65536;
  vw_height : 16 <= height v < 65536;
  vw_pitch : 3 * width v <= pitch v < 65536;
  vw_size : height v * pitch v <= VRAM_SIZE;
  vw_font : length (bios_font v) = 4096%nat;
  vw_row : 0 <= row v < rows v;
  vw_col : 0 <= col v < (width v - 256) / CHAR_WIDTH
}.

(** The same console with other pixels. *)
Definition repainted (v v' : VgaText) : Prop := exists m, v' = set_vram m v.

Lemma elem_of_range n x : x ∈ range n <-> 0 <= x < n.
Proof.
  unfold range. rewrite list_elem_of_fmap. split.
  - intros (k & -> & Hk%elem_of_seq). lia.
  - intros H. exists (Z.to_nat x). rewrite elem_of_seq. lia.
Qed.

(** A loop that keeps [J], its body run on elements of the list. *)
Lemma wp_for_each_in {S A} (f : A -> M S unit) (xs : list A) (J : S -> Prop) s :
  J s -> (forall x s, x ∈ xs -> J s -> wp (f x) (fun _ => J) s) -> wp (for_each f xs) (fun _ => J) s.
Proof.
  intros HJ Hf.
  eapply wp_mono; [|apply (wp_for_each f xs (fun rest s => (forall x, x ∈ rest -> x ∈ xs) /\ J s))].
  - by intros u s' [_ H].
  - by split.
  - intros x rest s' [Hin HJ']. eapply wp_mono; [|apply Hf; [apply Hin; left|done]].
    intros u s'' H. split; [|done]. intros y Hy. apply Hin. by right.
Qed.

Lemma repainted_refl v : repainted v v.
Proof. exists (vram v). by destruct v. Qed.

Lemma vwrite_safe v0 off b v : 0 <= off < VRAM_SIZE -> repainted v0 v ->
  wp (vwrite off b) (fun _ => repainted v0) v.
Proof.
  intros Ho (m & ->). unfold wp, vwrite.
  rewrite (proj2 (Z.leb_le 0 off)), (proj2 (Z.ltb_lt off VRAM_SIZE)) by lia. cbn. by eexists.
Qed.

Lemma background_safe v0 line x v : 0 <= line + x * 3 -> line + x * 3 + 3 <= VRAM_SIZE -> repainted v0 v ->
  wp (background line x) (fun _ => repainted v0) v.
Proof.
  intros H0 H1 Hr. unfold background.
  wp_step. eapply wp_mono; [|apply (vwrite_safe v0); [lia|done]]. intros ? v1 H.
  wp_step. eapply wp_mono; [|apply (vwrite_safe v0); [lia|done]]. intros ? v2 H'.
  apply vwrite_safe; [lia|done].
Qed.

Section vga_safety.
Context (p : profile).

Lemma sub_run a b v : 0 <= b <= a -> a < 2 ^ 32 -> sub p a b v = Ret (a - b, v).
Proof. intros. unfold sub, lift, u64_sub. rewrite arith_exact; [done|]. u64. lia. Qed.

Lemma line_bound v y : vga_wf v -> 0 <= y < height v -> y * pitch v + 3 * width v <= VRAM_SIZE.
Proof.
  intros [Hw Hh Hp Hs _ _ _] Hy. assert ((y + 1) * pitch v <= height v * pitch v) by nia. lia.
Qed.

Lemma rows_height v : vga_wf v -> rows v * 16 <= height v /\ 1 <= rows v.
Proof. intros [_ Hh _ _ _ _ _]. unfold rows, CHAR_HEIGHT. zdiv. Qed.

Lemma move_up_safe v0 src count v : 0 <= src -> 0 <= count -> src + count <= VRAM_SIZE -> repainted v0 v ->
  wp (move_up src count) (fun _ => repainted v0) v.
Proof.
  intros Hs Hc Hb (m & ->). unfold wp, move_up.
  rewrite (proj2 (Z.leb_le 0 src)), (proj2 (Z.leb_le 0 count)), (proj2 (Z.leb_le _ VRAM_SIZE)) by lia.
  cbn. by eexists.
Qed.

(** A new line: column zero of the next row, or of the last one after a scroll. *)
Lemma newline_safe v0 v : vga_wf v0 -> (exists c r, repainted (set_cursor c r v0) v /\ 0 <= r < rows v0) ->
  wp (newline p) (fun _ v' => exists r', repainted (set_cursor 0 r' v0) v' /\ 0 <= r' < rows v0) v.
Proof.
  intros Hwf (c & r & (m & ->) & Hr). pose proof (rows_height v0 Hwf) as [Hrows H1].
  pose proof Hwf as [Hw Hh Hp Hs _ _ _].
  unfold newline. wp_steps. cbn [set_cursor set_vram row width height pitch bios_font id].
  change (rows _) with (rows v0). destruct (Z.eqb_spec (r + 1) (rows v0)) as [He|Hne].
  2:{ exists (r + 1). split; [by eexists|lia]. }
  wp_step. eapply wp_run; [apply sub_run; lia|].
  set (v1 := set_cursor 0 (r + 1) v0). set (count := pitch v0 * (rows v0 - 1) * CHAR_HEIGHT).
  assert (count + pitch v0 * 16 <= VRAM_SIZE) as Hcount by (unfold count, CHAR_HEIGHT; nia).
  assert (0 <= count) as Hc0 by (unfold count, CHAR_HEIGHT; nia).
  assert (pitch v0 * CHAR_HEIGHT + count <= VRAM_SIZE) as Hsrc by (unfold CHAR_HEIGHT; lia).
  wp_step. wp_call (move_up_safe v1); [|unfold CHAR_HEIGHT; lia|exact Hc0|exact Hsrc|by eexists].
  intros ? v2 Hv2. wp_step. wp_call (wp_for_each_in _ _ (repainted v1)); [|done|].
  - intros ? v3 (m3 & ->). wp_steps. cbn [row set_vram set_cursor]. eapply wp_run; [apply sub_run; lia|].
    wp_step. exists (r + 1 - 1). split; [by eexists|lia].
  - intros y v3 Hy%elem_of_range Hv3. apply wp_for_each_in; [done|].
    intros x v4 Hx%elem_of_range Hv4. apply background_safe; [| |done].
    + fold count. nia.
    + fold count. unfold CHAR_HEIGHT in Hy. nia.
Qed.
End vga_safety.

(** What [write_str] keeps: the window and the font are those of [v0] and the
    cursor is in the window. *)
Definition vga_kept (v0 v : VgaText) : Prop :=
  exists c r, repainted (set_cursor c r v0) v /\ 0 <= r < rows v0 /\ 0 <= c < (width v0 - 256) / CHAR_WIDTH.

Lemma vga_kept_wf v0 v : vga_wf v0 -> vga_kept v0 v -> vga_wf v.
Proof. intros [? ? ? ? ? ? ?] (c & r & (m & ->) & Hr & Hc). by split. Qed.

Section glyphs.
Context (p : profile).

Lemma newline_kept v0 v : vga_wf v0 -> (exists c r, repainted (set_cursor c r v0) v /\ 0 <= r < rows v0) ->
  wp (newline p) (fun _ => vga_kept v0) v.
Proof.
  intros Hwf H. wp_call (newline_safe p v0 v Hwf H). intros ? v' (r & Hr & Hb). exists 0, r.
  split_and!; [done|lia|lia|lia|]. destruct Hwf as [Hw _ _ _ _ _ _]. unfold CHAR_WIDTH. zdiv.
Qed.

(** A glyph at a cursor inside of the window. *)
Lemma glyph_bound v gy gx : vga_wf v -> 0 <= gy < 16 -> 0 <= gx < 8 ->
  let pos := row v * CHAR_HEIGHT * pitch v + col v * CHAR_WIDTH * STRIDE + gy * pitch v + gx * STRIDE in
  0 <= pos /\ pos + 3 <= VRAM_SIZE.
Proof.
  intros Hwf Hy Hx. pose proof (rows_height v Hwf) as [Hrh _]. pose proof Hwf as [Hw Hh Hp Hs _ Hr Hc].
  unfold CHAR_HEIGHT, CHAR_WIDTH, STRIDE in *. cbv zeta.
  assert ((row v * 16 + gy + 1) * pitch v <= height v * pitch v) by nia.
  assert (col v * 8 + gx + 1 <= width v - 256) by zdiv. nia.
Qed.

Lemma write_cp437_safe v0 b v : vga_wf v0 -> 0 <= b < 256 -> vga_kept v0 v ->
  wp (write_cp437 p b) (fun _ => vga_kept v0) v.
Proof.
  intros Hwf Hb Hk. pose proof (vga_kept_wf v0 v Hwf Hk) as Hwfv. destruct Hk as (c & r & (m & Hv) & Hr & Hc).
  unfold write_cp437. wp_steps. cbn [id].
  wp_call (wp_for_each_in _ _ (repainted v)); [|apply repainted_refl|].
  - intros ? v1 (m1 & ->). unfold cols. wp_steps.
    assert (0 <= 256 <= width v) by (destruct Hwfv; lia).
    eapply wp_run; [apply sub_run; cbn [width set_cursor set_vram id]; destruct Hwfv; lia|]. wp_steps.
    subst v. cbn [col row width set_cursor set_vram id].
    destruct (Z.eqb_spec (c + 1) ((width v0 - 256) / CHAR_WIDTH)) as [He|Hne].
    + apply newline_kept; [done|]. exists (c + 1), r. split; [by eexists|lia].
    + exists (c + 1), r. split_and!; [by eexists|lia|lia|lia|lia].
  - intros y v1 Hy%elem_of_range (m1 & ->). unfold font_at. wp_steps. cbn [bios_font set_vram id].
    destruct (bios_font v !! Z.to_nat (b * 16 + y)) as [g|] eqn:Hg.
    2:{ apply lookup_ge_None in Hg. destruct Hwfv. unfold CHAR_HEIGHT in Hy. lia. }
    wp_step. apply wp_for_each_in; [by eexists|]. intros x v2 Hx%elem_of_range Hv2. cbv zeta.
    pose proof (glyph_bound v y x Hwfv Hy Hx) as [Hlo Hhi].
    destruct (negb _); [|by wp_step].
    wp_step. wp_call (vwrite_safe v); [|lia|done]. intros ? v3 Hv3.
    wp_step. wp_call (vwrite_safe v); [|lia|done]. intros ? v4 Hv4.
    apply vwrite_safe; [lia|done].
Qed.
End glyphs.

Lemma chars_bytes fuel s : Forall (fun b => 0 <= b < 256) s -> Forall (fun b => 0 <= b < 256) (chars fuel s).
Proof.
  revert s. induction fuel as [|fuel IH]; intros [|b rest] Hs; try constructor. cbn.
  destruct (scan b rest) as [n|]; [|constructor]. pose proof Hs as [Hb _]%Forall_cons.
  constructor; [done|]. apply IH. by apply Forall_drop.
Qed.

(** C35: text output stays on the screen: on a well-formed console, whatever bytes
    are written and however often it scrolls, no access leaves video memory, nothing
    panics, and the cursor stays on the screen. *)
Theorem vga_write_safe p s v :
  vga_wf v -> Forall (fun b => 0 <= b < 256) s ->
  wp (vga_write_str p s) (fun _ v' => vga_wf v' /\ vga_kept v v') v.
Proof.
  intros Hwf Hs. unfold vga_write_str, update_cursor. wp_step.
  wp_call (wp_for_each_in _ _ (vga_kept v)).
  - intros ? v' Hk. wp_step. split; [by eapply vga_kept_wf|done].
  - exists (col v), (row v). split; [exists (vram v); by destruct v|by destruct Hwf].
  - intros c v' Hc Hk. pose proof (chars_bytes (length s) s Hs) as Hall.
    rewrite Forall_forall in Hall. specialize (Hall c Hc). unfold write_char.
    destruct (c =? 10); [|destruct (c <? 128)].
    + apply newline_kept; [done|]. destruct Hk as (c' & r' & ? & ? & ?). by exists c', r'.
    + by apply write_cp437_safe.
    + by apply write_cp437_safe.
Qed.

Definition example_vga : VgaText := VgaText_ ∅ (replicate 4096 255) 264 32 792 0 1.

Lemma example_vga_wf : vga_wf example_vga.
Proof. split; vm_compute; intuition discriminate. Qed.

Lemma vga_write_safe_witness :
  wp (vga_write_str Debug [0x61; 10; 0xc3; 0xa9]) (fun _ v' => vga_wf v') example_vga.
Proof.
  eapply wp_mono; [|apply (vga_write_safe Debug [0x61; 10; 0xc3; 0xa9] example_vga example_vga_wf)].
  - intros ? v' [H _]. exact H.
  - repeat constructor; lia.
Defined.

(** ** Scrolling *)

Lemma foldr_copy_lookup (m : gmap Z Z) src (l : list Z) off :
  NoDup l -> foldr (fun i m' => <[i := default 0 (m !! (src + i))]> m') m l !! off =
  if decide (off ∈ l) then Some (default 0 (m !! (src + off))) else m !! off.
Proof.
  induction l as [|i l IH]; intros Hn; [done|]. apply NoDup_cons in Hn as [Hi Hn]. cbn [foldr].
  destruct (decide (i = off)) as [->|Hne].
  - by rewrite lookup_insert_eq, decide_True by left.
  - rewrite lookup_insert_ne, IH by done. destruct (decide (off ∈ l)) as [Hin|Hin].
    + by rewrite decide_True by (by right).
    + rewrite decide_False; [done|]. by intros [->|?]%elem_of_cons.
Qed.

Section scroll.
Context (v0 : VgaText) (Hwf : vga_wf v0).

(** The first offset of the last text row. *)
Definition last_row : Z := pitch v0 * (rows v0 - 1) * CHAR_HEIGHT.

(** The pixel [x] of the line [y] of the last text row has the background colour. *)
Definition blank_pixel (v : VgaText) (y x : Z) : Prop :=
  let off := last_row + pitch v0 * y + x * 3 in
  vram v !! (off + 0) = Some BLUE /\ vram v !! (off + 1) = Some GREEN /\ vram v !! (off + 2) = Some RED.

Definition moved_up (v : VgaText) : Prop :=
  forall off, 0 <= off < last_row -> vram v !! off = Some (default 0 (vram v0 !! (pitch v0 * CHAR_HEIGHT + off))).

Lemma last_row_bounds : 0 <= last_row /\ last_row + pitch v0 * 16 <= VRAM_SIZE.
Proof using Hwf.
  pose proof (rows_height v0 Hwf) as [Hrows H1]. destruct Hwf as [Hw Hh Hp Hs _ _ _].
  unfold last_row, CHAR_HEIGHT. nia.
Qed.

Lemma vwrite_run off b v : 0 <= off < VRAM_SIZE -> vwrite off b v = Ret (tt, set_vram (<[off := b]> (vram v)) v).
Proof. intros Ho. unfold vwrite. by rewrite (proj2 (Z.leb_le 0 off)), (proj2 (Z.ltb_lt off VRAM_SIZE)) by lia. Qed.

(** A background pixel: what it writes, and that other blank pixels and everything
    above the last row stay. *)
Lemma background_blank y x v : 0 <= y < 16 -> 0 <= x < width v0 ->
  wp (background (last_row + pitch v0 * y) x) (fun _ v' =>
    (exists m, v' = set_vram m v) /\ blank_pixel v' y x /\
    (forall y' x', 0 <= y' < 16 -> 0 <= x' < width v0 -> blank_pixel v y' x' -> blank_pixel v' y' x') /\
    (moved_up v -> moved_up v')) v.
Proof using Hwf.
  intros Hy Hx. pose proof last_row_bounds as [Hl0 Hl]. pose proof Hwf as [Hw Hh Hp Hs _ _ _].
  set (off := last_row + pitch v0 * y + x * 3). unfold background. fold off.
  assert (0 <= off /\ off + 3 <= VRAM_SIZE) as [Ho0 Ho] by (unfold off; nia).
  wp_step. eapply wp_run; [apply vwrite_run; lia|]. wp_step. eapply wp_run; [apply vwrite_run; lia|].
  eapply wp_run; [apply vwrite_run; lia|]. split_and!.
  - by eexists.
  - unfold blank_pixel. fold off. cbn.
    rewrite !lookup_insert_ne, lookup_insert_eq by lia. rewrite lookup_insert_ne, lookup_insert_eq by lia.
    by rewrite lookup_insert_eq.
  - intros y' x' Hy' Hx'. unfold blank_pixel. set (off' := last_row + pitch v0 * y' + x' * 3). cbn.
    assert (off <> off' -> (off + 2 < off' \/ off' + 2 < off)) as Hsep.
    { unfold off, off'. intros Hne. destruct (decide (y = y')) as [->|Hyy]; [lia|].
      destruct (decide (y < y')); [left|right]; nia. }
    intros (H1 & H2 & H3). destruct (decide (off = off')) as [<-|Hne].
    + rewrite !lookup_insert_ne, lookup_insert_eq by lia. rewrite lookup_insert_ne, lookup_insert_eq by lia.
      by rewrite lookup_insert_eq.
    + rewrite !lookup_insert_ne by (specialize (Hsep Hne); lia). done.
  - intros Hm o Hr. cbn. rewrite !lookup_insert_ne by (unfold off; nia). by apply Hm.
Qed.

(** The loop that blanks the last row. *)
Lemma blank_row v : moved_up v ->
  wp (for_each (fun y => for_each (fun x => background (last_row + pitch v0 * y) x) (range (width v0))) (range CHAR_HEIGHT))
    (fun _ v' => (exists m, v' = set_vram m v) /\ moved_up v' /\
      forall y x, 0 <= y < 16 -> 0 <= x < width v0 -> blank_pixel v' y x) v.
Proof using Hwf.
  intros Hm. change CHAR_HEIGHT with 16.
  set (I := fun (rest : list Z) (v' : VgaText) => (forall y, y ∈ rest -> 0 <= y < 16) /\
    (exists m, v' = set_vram m v) /\ moved_up v' /\
    forall y x, 0 <= y < 16 -> y ∉ rest -> 0 <= x < width v0 -> blank_pixel v' y x).
  wp_call (wp_for_each _ _ I).
  - intros ? v' (_ & Hv & Hu & H). split_and!; [done|done|]. intros y x Hy Hx. apply H; [done| |done].
    apply not_elem_of_nil.
  - unfold I. split_and!; [by intros y Hy%elem_of_range| exists (vram v); by destruct v|done|].
    intros y x Hy Hn. by destruct Hn; apply elem_of_range.
  - intros y rest v1 (Hin & (m1 & ->) & Hu & Hb). assert (0 <= y < 16) as Hy by (apply Hin; left).
    set (J := fun (xs : list Z) (v' : VgaText) => (forall x, x ∈ xs -> 0 <= x < width v0) /\
      (exists m, v' = set_vram m v) /\ moved_up v' /\
      (forall y' x, 0 <= y' < 16 -> y' ∉ y :: rest -> 0 <= x < width v0 -> blank_pixel v' y' x) /\
      forall x, 0 <= x < width v0 -> x ∉ xs -> blank_pixel v' y x).
    wp_call (wp_for_each _ _ J).
    + intros ? v' (_ & Hv & Hu' & Hb' & Hrow). unfold I. split_and!; [intros z Hz; apply Hin; by right|done|done|].
      intros y' x Hy' Hn Hx. destruct (decide (y' = y)) as [->|Hne].
      * apply Hrow; [done|]. apply not_elem_of_nil.
      * apply Hb'; [done| |done]. by intros [?|?]%elem_of_cons.
    + unfold J. split_and!; [by intros x Hx%elem_of_range|by eexists|done|done|].
      intros x Hx Hn. by destruct Hn; apply elem_of_range.
    + intros x xs v2 (Hxin & (m2 & ->) & Hu2 & Hb2 & Hr2). assert (0 <= x < width v0) as Hx by (apply Hxin; left).
      wp_call (background_blank y x _ Hy Hx). intros ? v3 ((m3 & ->) & Hpx & Hkeep & Hmv). unfold J.
      split_and!; [intros z Hz; apply Hxin; by right|by eexists|by apply Hmv| |].
      * intros y' x' Hy' Hn Hx'. apply Hkeep; [done|done|]. by apply Hb2.
      * intros x' Hx' Hn. destruct (decide (x' = x)) as [->|Hne]; [done|]. apply Hkeep; [done|done|].
        apply Hr2; [done|]. by intros [?|?]%elem_of_cons.
Qed.
End scroll.

(** Scrolling is exact: a new line on the last row leaves the cursor at the start
    of that row, every byte above it is the byte one text row further down, and
    every pixel of the row is blank. *)
Theorem newline_scrolls p v :
  vga_wf v -> row v = rows v - 1 ->
  wp (newline p) (fun _ v' => row v' = row v /\ col v' = 0 /\ moved_up v v' /\
    forall y x, 0 <= y < 16 -> 0 <= x < width v -> blank_pixel v v' y x) v.
Proof.
  intros Hwf Hr. pose proof (rows_height v Hwf) as [Hrows H1]. pose proof (last_row_bounds v Hwf) as [Hl0 Hl].
  pose proof Hwf as [Hw Hh Hp Hs _ _ _].
  unfold newline. wp_steps. cbn [set_cursor row width height pitch id]. change (rows _) with (rows v).
  rewrite Hr, (proj2 (Z.eqb_eq _ _)) by lia. wp_step. eapply wp_run; [apply sub_run; lia|].
  cbn [pitch set_cursor set_vram id]. fold (last_row v). wp_step.
  set (v1 := set_cursor 0 _ v).
  assert (move_up (pitch v * CHAR_HEIGHT) (last_row v) v1 = Ret (tt, set_vram
    (foldr (fun i m' => <[i := default 0 (vram v !! (pitch v * CHAR_HEIGHT + i))]> m') (vram v) (range (last_row v))) v1)) as Hmv.
  { unfold move_up. rewrite !(proj2 (Z.leb_le _ _)) by (unfold CHAR_HEIGHT; lia). done. }
  eapply wp_run; [exact Hmv|]. wp_step. wp_call (blank_row v Hwf).
  - intros ? v2 ((m2 & ->) & Hu & Hb). wp_steps. cbn [row set_vram set_cursor].
    eapply wp_run; [apply sub_run; subst v1; cbn [row set_vram set_cursor]; lia|]. wp_step.
    split_and!; [cbn; lia|done|exact Hu|exact Hb].
  - intros off Ho. cbn. rewrite foldr_copy_lookup, decide_True; [done|by apply elem_of_range|].
    apply NoDup_fmap_2; [intros ? ? ?; lia|]. apply NoDup_seq.
Qed.

Lemma newline_scrolls_witness :
  wp (newline Debug) (fun _ v' => vram v' !! 0 = Some 7 /\ col v' = 0)
    (set_vram {[ 12672 := 7 ]} example_vga).
Proof.
  eapply wp_mono; [|apply (newline_scrolls Debug (set_vram {[ 12672 := 7 ]} example_vga))].
  - intros ? v' (_ & Hc & Hu & _). split; [|exact Hc]. apply (Hu 0). vm_compute. by split.
  - destruct example_vga_wf. by split.
  - reflexivity.
Defined.
