(* ===== verification/Ide.v ===== *)
(** * Ide: the ATA disk driver ([kernel/src/device/ide.rs])

    The driver talks to the disk through ports.  The disk is a parameter: a
    function that answers each port read given everything that has been read and
    written before; the state keeps that history.  A loop that waits for the disk
    may never end; [fuel] bounds its polls, and running out of it is undefined
    behaviour in the model, so that a result proved is a result reached. *)

From S2P Require Import Prelude Sync Utf8 Console.

Inductive Drive := A | B.

(** One port access, the most recent first in a history. *)
Inductive event :=
| In (port value : Z)
| Out (port value : Z).

(** [IdeChannel], with the interrupt flag and the ports behind it. *)
Record channel := Channel {
  ide_if : bool;
  chan_a : bool;
  chan_b : bool;
  io : Mutex unit;               (* [IdeIo] has no fields that change *)
  hist : list event
}.

#[export] Instance channel_HasCpu : HasCpu channel :=
  Lens ide_if (fun b s => Channel b (chan_a s) (chan_b s) (io s) (hist s)).
#[export] Instance channel_HasCpu_laws : LensLaws (cpu_if : lens channel bool).
Proof. split; [done | by intros [] | done]. Qed.
Definition io_l : lens channel (Mutex unit) :=
  Lens io (fun m s => Channel (ide_if s) (chan_a s) (chan_b s) m (hist s)).
Definition set_hist h (s : channel) := Channel (ide_if s) (chan_a s) (chan_b s) (io s) h.

Definition channel_new : channel := Channel true false false (Mutex_new tt) [].

(** [busyness] and [IdeChannel::open] *)
Definition busyness (drive : Drive) (s : channel) : bool :=
  match drive with A => chan_a s | B => chan_b s end.
Definition set_busyness (drive : Drive) (b : bool) (s : channel) : channel :=
  match drive with
  | A => Channel (ide_if s) b (chan_b s) (io s) (hist s)
  | B => Channel (ide_if s) (chan_a s) b (io s) (hist s)
  end.

Inductive DriveBusy := DriveBusy_.

(** An [IdeDrive] is its drive; the channel is the static one. *)
Definition open (drive : Drive) : M channel (result Drive DriveBusy) :=
  was ← gets (busyness drive);
  _ ← modify (set_busyness drive true);
  if was : bool then mret (Err DriveBusy_) else mret (Ok drive).

Definition drop_drive (drive : Drive) : M channel unit := modify (set_busyness drive false).

(** [AtaStatus], [AtaError] and [AtaCommand]. *)
Definition BUSY : Z := 0x80.
Definition DRIVE_READY : Z := 0x40.
Definition DATA_REQUEST_READY : Z := 0x08.
Definition ERROR : Z := 0x01.
Definition AtaStatus_all : Z := 0xff.
Definition AtaError_all : Z := 0xff.
Definition ReadPio : Z := 0x20.
Definition Identify : Z := 0xec.

Definition base : Z := 0x1f0.
Definition control_base : Z := 0x3f6.
Definition data : Z := base + 0.
Definition error_features : Z := base + 1.
Definition seccount0 : Z := base + 2.
Definition lba0 : Z := base + 3.
Definition lba1 : Z := base + 4.
Definition lba2 : Z := base + 5.
Definition device_select : Z := base + 6.
Definition command_status : Z := base + 7.
Definition alternate_status_control : Z := control_base + 2.

(** A sector is 512 bytes. *)
Definition SECTOR_BYTES : nat := 512.

Section ide.
Context `{Bitflags}.
Context (disk : list event -> Z -> Z).   (* history, port: the value read *)
Context (fuel : nat).

Definition read (port : Z) : M channel Z := fun s =>
  let v := disk (hist s) port in Ret (v, set_hist (In port v :: hist s) s).
Definition write (port v : Z) : M channel unit := modify (fun s => set_hist (Out port v :: hist s) s).

Definition wait : M channel unit := for_each (fun _ => _ ← read alternate_status_control; mret tt) (seq 0 4).

Definition status : M channel Z :=
  status_raw ← read command_status;
  mret (from_bits_truncate AtaStatus_all status_raw).

Definition error : M channel Z :=
  e ← read error_features;
  mret (from_bits_truncate AtaError_all e).

(** The loop of [wait_command]. *)
Fixpoint poll_status (n : nat) (required : Z) : M channel (result Z Z) :=
  match n with
  | O => ub "still waiting for the disk"
  | S n =>
      st ← status;
      if contains st BUSY then poll_status n required
      else if contains st ERROR then e ← error; mret (Err e)
      else if contains st required then mret (Ok st)
      else poll_status n required
  end.

Definition wait_command (required : Z) : M channel (result Z Z) :=
  _ ← wait;
  poll_status fuel required.

(** The bytes of [n] words read from the data port, low byte first. *)
Fixpoint read_words (n : nat) : M channel (list Z) :=
  match n with
  | O => mret []
  | S n =>
      w ← read data;
      rest ← read_words n;
      mret (Z.land (Z.shiftr w 0) 0xff :: Z.land (Z.shiftr w 8) 0xff :: rest)
  end.

Definition read_pio_data : M channel (list Z) := read_words 256.

(** [IdeDrive::select]: its guard is held by the caller. *)
Definition select (drive : Drive) : M channel unit :=
  _ ← write device_select (match drive with A => 0xe0 | B => 0xf0 end);
  wait.

Inductive DetectError :=
| NoDevice
| NotAta
| Ata (e : Z).

(** Swap the two bytes of each word in [20..96]. *)
Fixpoint swap_words (l : list Z) : list Z :=
  match l with a :: b :: l => b :: a :: swap_words l | l => l end.
Definition swap_identify (identify_data : list Z) : list Z :=
  take 20 identify_data ++ swap_words (take 76 (drop 20 identify_data)) ++ drop 96 identify_data.

(** Drop the spaces at the end. *)
Definition is_space (b : Z) : bool := b =? 32.
Fixpoint drop_leading (f : Z -> bool) (l : list Z) : list Z :=
  match l with b :: rest => if f b then drop_leading f rest else l | [] => [] end.
Definition trim_end (l : list Z) : list Z := rev (drop_leading is_space (rev l)).

Definition detect (drive : Drive) : M channel (result (list Z) DetectError) :=
  with_lock io_l (
    _ ← select drive;
    _ ← write seccount0 0;
    _ ← write lba0 0;
    _ ← write lba1 0;
    _ ← write lba2 0;
    _ ← wait;
    _ ← write command_status Identify;
    st ← wait_command DRIVE_READY;
    match st with
    | Err e => mret (Err (Ata e))
    | Ok st =>
        if st =? 0 then mret (Err NoDevice)
        else
          l1 ← read lba1;
          not_ata ← (if negb (l1 =? 0) then mret true else l2 ← read lba2; mret (negb (l2 =? 0)));
          if not_ata : bool then mret (Err NotAta)
          else
            identify_data ← read_pio_data;
            match array_string 40 (take 40 (drop 54 (swap_identify identify_data))) with
            | Ok model => mret (Ok (trim_end model))
            | Err _ => panic "IDE device model not UTF8"
            end
    end).

(** [lba.to_le_bytes()[i]] *)
Definition lba_byte (lba : Z) (i : Z) : Z := Z.land (Z.shiftr lba (8 * i)) 0xff.

(** One turn of the loop over the buffers for each of [n] sectors. *)
Fixpoint read_buffers (n : nat) : M channel (result (list (list Z)) Z) :=
  match n with
  | O => mret (Ok [])
  | S n =>
      _ ←? wait_command DATA_REQUEST_READY;
      buff ← read_pio_data;
      rest ←? read_buffers n;
      mret (Ok (buff :: rest))
  end.

(** [count]: the number of buffers; the result is what they hold afterwards. *)
Definition read_sectors (drive : Drive) (lba : Z) (count : nat) : M channel (result (list (list Z)) Z) :=
  if 0x00fffffe <? lba then panic "cannot read lba > 0x00ffffff currently"
  else if (255 <? Z.of_nat count) then panic "cannot read more than 255 sectors currently"
  else
    with_lock io_l (
      _ ← select drive;
      _ ←? wait_command 0;
      _ ← write error_features 0;
      _ ← write seccount0 (Z.of_nat count mod 256);
      _ ← write lba0 (lba_byte lba 0);
      _ ← write lba1 (lba_byte lba 1);
      _ ← write lba2 (lba_byte lba 2);
      _ ←? wait_command DRIVE_READY;
      _ ← write command_status ReadPio;
      read_buffers count).
End ide.

(** ** A working disk

    What the ATA documents say of reads in PIO mode, as far as the driver relies on
    it, told by the history of accesses: the registers hold what was last written
    to them; after a read command the data port yields the words of the sectors
    one after the other; a status is either busy, or has no error, says ready, and
    requests data while a transfer has words left; the disk is never busy for more
    than [latency] polls. *)

Fixpoint last_out (port : Z) (h : list event) : Z :=
  match h with
  | [] => 0
  | Out p v :: h => if p =? port then v else last_out port h
  | In _ _ :: h => last_out port h
  end.

(** The last read command: first sector, sectors, and words read since. *)
Fixpoint transfer (h : list event) : option (Z * Z * Z) :=
  match h with
  | [] => None
  | Out p v :: h =>
      if p =? command_status then
        if v =? ReadPio then
          Some (last_out lba0 h + 256 * last_out lba1 h + 65536 * last_out lba2 h, last_out seccount0 h, 0)
        else None
      else transfer h
  | In p _ :: h =>
      if p =? data then (fun t => (t.1.1, t.1.2, t.2 + 1)) <$> transfer h else transfer h
  end.

Definition word_at (sector : list Z) (i : Z) : Z :=
  nth (Z.to_nat (2 * i)) sector 0 + 256 * nth (Z.to_nat (2 * i + 1)) sector 0.

(** The history after [n] more polls of the status. *)
Fixpoint polled (disk : list event -> Z -> Z) (n : nat) (h : list event) : list event :=
  match n with O => h | S n => polled disk n (In command_status (disk h command_status) :: h) end.

Record AtaDisk (disk : list event -> Z -> Z) (latency : nat) (sectors : Z -> list Z) (size : Z) : Prop := {
  ata_sector : forall l, 0 <= l < size -> length (sectors l) = SECTOR_BYTES /\ Forall (fun b => 0 <= b < 256) (sectors l);
  ata_data : forall h l c w, transfer h = Some (l, c, w) -> last_out device_select h = 0xe0 ->
    0 <= l -> l + c <= size -> 0 <= w < 256 * c ->
    disk h data = word_at (sectors (l + w / 256)) (w mod 256);
  ata_status : forall h, Z.testbit (disk h command_status) 7 = true \/
    (Z.testbit (disk h command_status) 0 = false /\ Z.testbit (disk h command_status) 6 = true /\
     forall l c w, transfer h = Some (l, c, w) -> 0 <= w < 256 * c ->
       Z.testbit (disk h command_status) 3 = true);
  ata_latency : forall h, exists n, (n <= latency)%nat /\
    Z.testbit (disk (polled disk n h) command_status) 7 = false
}.

(** Only reads, none of them of data. *)
Definition quiet (h h' : list event) : Prop :=
  exists ins, h' = ins ++ h /\ Forall (fun e => match e with In p _ => p <> data | Out _ _ => False end) ins.

Lemma quiet_refl h : quiet h h.
Proof. by exists []. Qed.
Lemma quiet_trans h1 h2 h3 : quiet h1 h2 -> quiet h2 h3 -> quiet h1 h3.
Proof.
  intros (i1 & -> & H1) (i2 & -> & H2). exists (i2 ++ i1). split; [by rewrite app_assoc|].
  by apply Forall_app.
Qed.
Lemma quiet_in p v h : p <> data -> quiet h (In p v :: h).
Proof. intros Hp. exists [In p v]. split; [done|]. by constructor. Qed.

Lemma quiet_transfer h h' : quiet h h' -> transfer h' = transfer h.
Proof.
  intros (ins & -> & Hi). induction ins as [|[p v|p v] ins IH]; [done| |].
  - apply Forall_cons in Hi as [Hp Hi]. cbn [app transfer].
    rewrite (proj2 (Z.eqb_neq p data)) by done. auto.
  - apply Forall_cons in Hi as [[] _].
Qed.

Lemma quiet_last_out port h h' : quiet h h' -> last_out port h' = last_out port h.
Proof.
  intros (ins & -> & Hi). induction ins as [|[p v|p v] ins IH]; [done| |]; apply Forall_cons in Hi as [Hp Hi].
  - cbn. auto.
  - done.
Qed.

Section working.
Context (Bf : Bitflags) (BL : BitflagsLaws Bf).
Context (disk : list event -> Z -> Z) (latency : nat) (sectors : Z -> list Z) (size : Z).
Context (HD : AtaDisk disk latency sectors size) (fuel : nat) (Hfuel : (latency < fuel)%nat).

(** The channel with another history. *)
Abbreviation at_ s h := (set_hist h s) (only parsing).

Lemma wp_read port (Q : Z -> channel -> Prop) s :
  Q (disk (hist s) port) (set_hist (In port (disk (hist s) port) :: hist s) s) -> wp (read disk port) Q s.
Proof using All. done. Qed.

Lemma wait_quiet s : wp (wait disk) (fun _ s' => exists h, s' = set_hist h s /\ quiet (hist s) h) s.
Proof using All.
  unfold wait. eapply wp_mono; [|apply (wp_for_each_in _ _ (fun s' => exists h, s' = set_hist h s /\ quiet (hist s) h))].
  - done.
  - exists (hist s). split; [by destruct s|apply quiet_refl].
  - intros x s' _ (h & -> & Hq). wp_step. apply wp_read. wp_step. eexists. split; [done|]. cbn.
    eapply quiet_trans; [exact Hq|]. by apply quiet_in.
Qed.

Lemma contains_bit raw k : 0 <= k < 8 ->
  contains (from_bits_truncate AtaStatus_all raw) (2 ^ k) = Z.testbit raw k.
Proof using All.
  intros Hk. rewrite contains_spec, from_bits_truncate_spec. unfold AtaStatus_all.
  destruct (Z.eqb_spec (Z.land (Z.land raw 255) (2 ^ k)) (2 ^ k)) as [He|He].
  - symmetry. assert (Z.testbit (Z.land (Z.land raw 255) (2 ^ k)) k = true) as Ht
      by (rewrite He; apply Z.pow2_bits_true; lia).
    rewrite !Z.land_spec in Ht. by apply andb_true_iff in Ht as [[Ht _]%andb_true_iff _].
  - symmetry. apply not_true_iff_false. intros Ht. apply He. apply Z.bits_inj'. intros i Hi.
    rewrite !Z.land_spec. destruct (decide (i = k)) as [->|Hne].
    + rewrite Z.pow2_bits_true, Ht by lia. change 255 with (Z.ones 8). rewrite Z.ones_spec_low by lia. done.
    + rewrite Z.pow2_bits_false by done. apply andb_false_r.
Qed.

Lemma contains_empty st : contains st 0 = true.
Proof using All. rewrite contains_spec. by rewrite Z.land_0_r. Qed.

(** What the driver waits for and a working disk grants. *)
Definition granted (required : Z) (h : list event) : Prop :=
  required = 0 \/ required = DRIVE_READY \/
  (required = DATA_REQUEST_READY /\ exists l c w, transfer h = Some (l, c, w) /\ 0 <= w < 256 * c).

Lemma granted_quiet required h h' : quiet h h' -> granted required h -> granted required h'.
Proof using All.
  intros Hq [?|[?|(? & l & c & w & Ht & Hw)]]; [by left|by right; left|right; right].
  split; [done|]. exists l, c, w. by rewrite (quiet_transfer _ _ Hq).
Qed.

Lemma poll_status_ok n required s :
  granted required (hist s) ->
  (exists m, (m < n)%nat /\ Z.testbit (disk (polled disk m (hist s)) command_status) 7 = false) ->
  wp (poll_status disk n required) (fun r s' => is_ok r = true /\ exists h, s' = set_hist h s /\ quiet (hist s) h) s.
Proof using All.
  revert s. induction n as [|n IH]; intros s Hg (m & Hm & Hb); [lia|]. cbn [poll_status].
  wp_step. unfold status. wp_step. apply wp_read. wp_step.
  set (raw := disk (hist s) command_status) in *. set (s1 := set_hist _ s).
  assert (quiet (hist s) (hist s1)) as Hq1 by (by apply quiet_in).
  change BUSY with (2 ^ 7). rewrite contains_bit by lia.
  destruct (ata_status _ _ _ _ HD (hist s)) as [Hbusy|(He & Hr & Hd)]; fold raw in Hbusy || fold raw in He, Hr, Hd.
  - rewrite Hbusy. destruct m as [|m].
    { cbn [polled] in Hb. fold raw in Hb. congruence. }
    wp_call (IH s1).
    + intros r s' [Hok (h & -> & Hq)]. split; [done|]. exists h. split; [done|]. by eapply quiet_trans.
    + by eapply granted_quiet.
    + exists m. split; [lia|exact Hb].
  - assert (forall r, wp (mret (Ok r : result Z Z)) (fun r s' => is_ok r = true /\
      exists h, s' = set_hist h s /\ quiet (hist s) h) s1) as Hdone.
    { intros r. wp_step. split; [done|]. by eexists. }
    destruct (Z.testbit raw 7) eqn:H7.
    + destruct m as [|m].
      { cbn [polled] in Hb. fold raw in Hb. congruence. }
      wp_call (IH s1).
      * intros r s' [Hok (h & -> & Hq)]. split; [done|]. exists h. split; [done|]. by eapply quiet_trans.
      * by eapply granted_quiet.
      * exists m. split; [lia|exact Hb].
    + change ERROR with (2 ^ 0). rewrite contains_bit, He by lia.
      destruct Hg as [-> |[-> |(-> & l & c & w & Ht & Hw)]].
      * by rewrite contains_empty.
      * change DRIVE_READY with (2 ^ 6). by rewrite contains_bit, Hr by lia.
      * change DATA_REQUEST_READY with (2 ^ 3). rewrite contains_bit, (Hd l c w) by (done || lia). done.
Qed.

Lemma wait_command_ok required s : granted required (hist s) ->
  wp (wait_command disk fuel required)
    (fun r s' => is_ok r = true /\ exists h, s' = set_hist h s /\ quiet (hist s) h) s.
Proof using All.
  intros Hg. unfold wait_command. wp_step. wp_call (wait_quiet s). intros ? s1 (h & -> & Hq).
  destruct (ata_latency _ _ _ _ HD h) as (m & Hm & Hb).
  wp_call (poll_status_ok fuel required (set_hist h s)).
  - intros r s' [Hok (h' & -> & Hq')]. split; [done|]. exists h'. split; [done|]. by eapply quiet_trans.
  - by eapply granted_quiet.
  - exists m. split; [lia|exact Hb].
Qed.

(** The two bytes of a word. *)
Lemma word_bytes lo hi : 0 <= lo < 256 -> 0 <= hi < 256 ->
  Z.land (Z.shiftr (lo + 256 * hi) 0) 0xff = lo /\ Z.land (Z.shiftr (lo + 256 * hi) 8) 0xff = hi.
Proof using All.
  intros Hl Hh. change 0xff with (Z.ones 8). rewrite !Z.land_ones, Z.shiftr_0_r, Z.shiftr_div_pow2 by lia.
  change (2 ^ 8) with 256. split; zdiv.
Qed.

Definition transferring (l c w : Z) (h : list event) : Prop :=
  transfer h = Some (l, c, w) /\ last_out device_select h = 0xe0.

Lemma transferring_quiet l c w h h' : quiet h h' -> transferring l c w h -> transferring l c w h'.
Proof using All. intros Hq [Ht Hs]. split; [by rewrite (quiet_transfer _ _ Hq)|by rewrite (quiet_last_out _ _ _ Hq)]. Qed.

Lemma read_words_ok n l c k i s :
  transferring l c (256 * k + i) (hist s) -> 0 <= l -> l + c <= size -> 0 <= k < c -> 0 <= i ->
  i + Z.of_nat n <= 256 ->
  wp (read_words disk n) (fun r s' => r = take (2 * n) (drop (Z.to_nat (2 * i)) (sectors (l + k))) /\
    exists h, s' = set_hist h s /\ transferring l c (256 * k + i + Z.of_nat n) h) s.
Proof using All.
  revert i s. induction n as [|n IH]; intros i s [Ht Hs] Hl Hlc Hk Hi Hn; cbn [read_words].
  - wp_step. split; [done|]. exists (hist s). split; [by destruct s|]. by rewrite Z.add_0_r.
  - wp_step. apply wp_read. set (w := disk (hist s) data).
    assert (w = word_at (sectors (l + k)) i) as Hw.
    { unfold w. rewrite (ata_data _ _ _ _ HD _ _ _ _ Ht) by (done || lia).
      f_equal; [f_equal; zdiv|zdiv]. }
    destruct (ata_sector _ _ _ _ HD (l + k)) as [Hlen Hb]; [lia|]. unfold SECTOR_BYTES in Hlen.
    set (sec := sectors (l + k)) in *.
    destruct (sec !! Z.to_nat (2 * i)) as [lo|] eqn:Hlo; [|apply lookup_ge_None in Hlo; lia].
    destruct (sec !! Z.to_nat (2 * i + 1)) as [hi|] eqn:Hhi; [|apply lookup_ge_None in Hhi; lia].
    pose proof (proj1 (Forall_lookup _ _) Hb _ _ Hlo) as Hlo'. pose proof (proj1 (Forall_lookup _ _) Hb _ _ Hhi) as Hhi'.
    cbv beta in Hlo', Hhi'.
    unfold word_at in Hw. rewrite (nth_lookup_Some _ _ _ _ Hlo), (nth_lookup_Some _ _ _ _ Hhi) in Hw.
    destruct (word_bytes lo hi Hlo' Hhi') as [B0 B1].
    wp_step. wp_call (IH (i + 1)); [|split|lia..].
    + intros r s' (-> & h & -> & Ht'). wp_step. rewrite Hw, B0, B1. split.
      * replace (2 * S n)%nat with (S (S (2 * n))) by lia.
        rewrite (drop_S _ _ _ Hlo). cbn [firstn].
        replace (S (Z.to_nat (2 * i))) with (Z.to_nat (2 * i + 1)) by lia.
        rewrite (drop_S _ _ _ Hhi). cbn [firstn].
        by replace (S (Z.to_nat (2 * i + 1))) with (Z.to_nat (2 * (i + 1))) by lia.
      * exists h. split; [done|]. by replace (256 * k + i + Z.of_nat (S n)) with (256 * k + (i + 1) + Z.of_nat n) by lia.
    + cbn [hist set_hist]. cbn [transfer]. rewrite Ht. cbn. by rewrite Z.add_assoc.
    + exact Hs.
Qed.

Lemma read_buffers_ok n l c k s :
  transferring l c (256 * k) (hist s) -> 0 <= l -> l + c <= size -> 0 <= k -> k + Z.of_nat n = c ->
  wp (read_buffers disk fuel n) (fun r s' => r = Ok ((fun i => sectors (l + k + Z.of_nat i)) <$> seq 0 n) /\
    exists h, s' = set_hist h s) s.
Proof using All.
  revert k s. induction n as [|n IH]; intros k s Ht Hl Hlc Hk Hn; cbn [read_buffers].
  - wp_step. split; [done|]. exists (hist s). by destruct s.
  - wp_step. wp_call (wait_command_ok DATA_REQUEST_READY s).
    2:{ right; right. split; [done|]. exists l, c, (256 * k). split; [apply Ht|lia]. }
    intros r s1 [Hok (h & -> & Hq)]. destruct r as [st|]; [|done]. unfold read_pio_data.
    wp_step. wp_call (read_words_ok 256 l c k 0); [|rewrite Z.add_0_r; by eapply transferring_quiet|lia..].
    intros r s2 (-> & h' & -> & Ht'). wp_step. wp_call (IH (k + 1)); [| |lia..].
    + intros r s3 (-> & h3 & ->). wp_step. split; [|by eexists]. f_equal. cbn [seq fmap list_fmap].
      destruct (ata_sector _ _ _ _ HD (l + k)) as [Hlen _]; [lia|].
      f_equal.
      * rewrite Z.add_0_r. change (Z.to_nat (2 * 0)) with 0%nat. cbn [skipn]. apply firstn_all2.
        rewrite Hlen. unfold SECTOR_BYTES. lia.
      * rewrite <- fmap_S_seq, <- list_fmap_compose. apply list_fmap_ext. intros j x _. unfold compose. f_equal. lia.
    + cbn [hist set_hist]. by replace (256 * (k + 1)) with (256 * k + 0 + Z.of_nat 256) by lia.
Qed.

Lemma lba_bytes lba : 0 <= lba < 2 ^ 24 ->
  lba_byte lba 0 + 256 * lba_byte lba 1 + 65536 * lba_byte lba 2 = lba.
Proof using All.
  intros Hl. unfold lba_byte. change 0xff with (Z.ones 8).
  change (8 * 0) with 0. change (8 * 1) with 8. change (8 * 2) with 16.
  rewrite Z.shiftr_0_r, !Z.shiftr_div_pow2, !Z.land_ones by lia.
  change (2 ^ 24) with 16777216 in Hl. change (2 ^ 16) with 65536. change (2 ^ 8) with 256. zdiv.
Qed.

Lemma wp_write port v (Q : unit -> channel -> Prop) s :
  Q tt (set_hist (Out port v :: hist s) s) -> wp (write port v) Q s.
Proof using All. done. Qed.

Lemma select_ok s :
  wp (select disk A) (fun _ s' => exists h, s' = set_hist h s /\ quiet (Out device_select 0xe0 :: hist s) h) s.
Proof using All.
  unfold select. wp_step. apply wp_write. eapply wp_mono; [|apply wait_quiet].
  intros ? s' (h & -> & Hq). by exists h.
Qed.

(** The registers as [read_sectors] leaves them before it gives the command. *)
Lemma command_transfer lba count h1 h2 :
  0 <= lba < 2 ^ 24 -> 0 <= count < 256 ->
  last_out device_select h1 = 0xe0 ->
  quiet (Out lba2 (lba_byte lba 2) :: Out lba1 (lba_byte lba 1) :: Out lba0 (lba_byte lba 0) ::
         Out seccount0 (count mod 256) :: Out error_features 0 :: h1) h2 ->
  transferring lba count 0 (Out command_status ReadPio :: h2).
Proof using All.
  intros Hl Hc Hs Hq. split.
  - cbn [transfer]. rewrite !Z.eqb_refl, !(quiet_last_out _ _ _ Hq).
    transitivity (Some (lba_byte lba 0 + 256 * lba_byte lba 1 + 65536 * lba_byte lba 2, count mod 256, 0));
      [reflexivity|]. rewrite lba_bytes, Z.mod_small by lia. done.
  - change (last_out device_select (Out command_status ReadPio :: h2)) with (last_out device_select h2).
    rewrite (quiet_last_out _ _ _ Hq). exact Hs.
Qed.

Lemma read_sectors_body lba count s :
  0 <= lba -> lba + Z.of_nat count <= size -> lba <= 0x00fffffe -> (count <= 255)%nat ->
  wp (_ ← select disk A;
      _ ←? wait_command disk fuel 0;
      _ ← write error_features 0;
      _ ← write seccount0 (Z.of_nat count mod 256);
      _ ← write lba0 (lba_byte lba 0);
      _ ← write lba1 (lba_byte lba 1);
      _ ← write lba2 (lba_byte lba 2);
      _ ←? wait_command disk fuel DRIVE_READY;
      _ ← write command_status ReadPio;
      read_buffers disk fuel count)
    (fun r s' => r = Ok ((fun i => sectors (lba + Z.of_nat i)) <$> seq 0 count) /\ exists h, s' = set_hist h s) s.
Proof using All.
  intros Hl Hs Hmax Hc. wp_step. wp_call select_ok. intros ? s1 (h1 & -> & Hq1).
  wp_step. wp_call wait_command_ok; [|by left]. intros r s2 [Hok (h2 & -> & Hq2)]. destruct r; [|done].
  do 5 (wp_step; apply wp_write).
  wp_step. wp_call wait_command_ok; [|right; by left]. intros r s3 [Hok' (h3 & -> & Hq3)]. destruct r; [|done].
  wp_step. apply wp_write.
  wp_call (read_buffers_ok count lba (Z.of_nat count) 0); [| |lia..].
  - intros r s4 (-> & h4 & ->). split; [|by eexists]. f_equal. apply list_fmap_ext. intros j x _. f_equal. lia.
  - cbn [hist set_hist]. eapply (command_transfer _ _ h2); [lia|lia| |exact Hq3].
    rewrite (quiet_last_out _ _ _ Hq2), (quiet_last_out _ _ _ Hq1). done.
Qed.

Lemma read_sectors_ok lba count s :
  locked (io s) = false ->
  0 <= lba -> lba + Z.of_nat count <= size -> lba <= 0x00fffffe -> (count <= 255)%nat ->
  exists h, read_sectors disk fuel A lba count s =
    Ret (Ok ((fun i => sectors (lba + Z.of_nat i)) <$> seq 0 count), set_hist h s).
Proof using All.
  intros Hio Hl Hs Hmax Hc.
  assert (wp (read_sectors disk fuel A lba count)
    (fun r s' => r = Ok ((fun i => sectors (lba + Z.of_nat i)) <$> seq 0 count) /\ exists h, s' = set_hist h s) s) as H.
  { unfold read_sectors. rewrite (proj2 (Z.ltb_ge _ _)) by lia. rewrite (proj2 (Z.ltb_ge _ _)) by lia.
    apply wp_locked; [done|]. eapply wp_mono; [|by apply read_sectors_body].
    intros r s' (-> & h & ->). split; [done|]. split; [done|]. exists h.
    destruct s as [i a b [v l] hs]. cbn in Hio. subst l. by destruct i. }
  apply wp_iff in H as (r & s' & E & -> & h & ->). by exists h.
Qed.

(** C18: on a disk that works (registers hold what is written, the data port yields
    the words of the sectors of the last read command in order, the status is busy
    for at most [latency] polls), [read_sectors] of at most 255 sectors inside the
    disk ends, without error or panic, with each buffer holding its sector, all
    512 bytes in order; the ports are released and nothing but the history of
    accesses changes. *)
Theorem read_sectors_disk lba count s :
  locked (io s) = false ->
  0 <= lba -> lba + Z.of_nat count <= size -> lba <= 0x00fffffe -> (count <= 255)%nat ->
  exists h, read_sectors disk fuel A lba count s =
    Ret (Ok ((fun i => sectors (lba + Z.of_nat i)) <$> seq 0 count), set_hist h s).
Proof using All. apply read_sectors_ok. Qed.
End working.

(** A disk with given contents that is busy right after each register write. *)
Definition pio_disk (sectors : Z -> list Z) (h : list event) (port : Z) : Z :=
  if port =? command_status then
    match h with Out _ _ :: _ => 0x80 | _ => 0x48 end
  else if port =? data then
    match transfer h with
    | Some (l, c, w) => word_at (sectors (l + w / 256)) (w mod 256)
    | None => 0
    end
  else 0.

Lemma pio_disk_works sectors size :
  (forall l, 0 <= l < size -> length (sectors l) = SECTOR_BYTES /\ Forall (fun b => 0 <= b < 256) (sectors l)) ->
  AtaDisk (pio_disk sectors) 1 sectors size.
Proof.
  intros Hs. split.
  - exact Hs.
  - intros h l c w Ht _ _ _ _. unfold pio_disk. cbn -[word_at Z.div Z.modulo]. by rewrite Ht.
  - intros h. destruct h as [|[]]; cbn; auto.
  - intros h. destruct h as [|[p v|p v] h]; cbn.
    + by exists 0%nat; split; [lia|].
    + by exists 0%nat; split; [lia|].
    + by exists 1%nat; split; [lia|].
Qed.

Lemma Forall_repeat_byte (v : Z) n : 0 <= v < 256 -> Forall (fun b => 0 <= b < 256) (repeat v n).
Proof. intros Hv. apply Forall_forall. intros b Hb. apply list_elem_of_In, repeat_spec in Hb. by subst. Qed.

Definition disk_sectors (l : Z) : list Z := repeat (Z.land (l + 7) 255) 512.

Lemma disk_sectors_ok l : 0 <= l < 2 -> length (disk_sectors l) = SECTOR_BYTES /\
  Forall (fun b => 0 <= b < 256) (disk_sectors l).
Proof.
  intros Hl. split; [apply repeat_length|]. apply Forall_repeat_byte. change 255 with (Z.ones 8).
  rewrite Z.land_ones by lia. by apply Z.mod_pos_bound.
Qed.

Lemma read_sectors_disk_witness :
  exists h, read_sectors (H := bitflags_crate) (pio_disk disk_sectors) 2 A 0 2 channel_new =
    Ret (Ok [repeat 7 512; repeat 8 512], set_hist h channel_new).
Proof.
  destruct (read_sectors_disk bitflags_crate bitflags_crate_laws (pio_disk disk_sectors) 1 disk_sectors 2
    (pio_disk_works _ _ disk_sectors_ok) 2
    ltac:(lia) 0 2 channel_new eq_refl ltac:(lia) ltac:(lia) ltac:(lia) ltac:(lia)) as [h E].
  exists h. exact E.
Defined.
