(* ===== verification/Panic.v ===== *)
(** * Panic: the panic handler ([kernel/src/panic.rs])

    A panic elsewhere in the model is an outcome; this is what the kernel then
    does: it writes the message to the emulator's port, around the console and its
    mutex, and halts.  The formatted pieces of the message and the decimal digits of
    the line come from [core::fmt] and are arguments. *)

From S2P Require Import Prelude Sync Utf8 Console.

(** [PanicInfo]: the pieces of the formatted message, the file and the line. *)
Record PanicInfo := PanicInfo_ { message : option (list bytes); location : option (bytes * bytes) }.

(** A byte string from its characters. *)
Definition str (s : string) : bytes := (fun c => Z.of_N (Ascii.N_of_ascii c)) <$> String.list_ascii_of_string s.

Definition newline_str : bytes := [10].

Section panic_write.
Context {S : Type} (write_str : bytes -> M S unit).

Definition panic_write (info : PanicInfo) : M S unit :=
  _ ← write_str newline_str;
  _ ← match message info with
      | Some args =>
          _ ← write_str (str "*** PANIC: ");
          _ ← for_each write_str args;
          write_str newline_str
      | None => _ ← write_str (str "*** PANIC"); write_str newline_str
      end;
  _ ← match location info with
      | Some (file, line) =>
          _ ← write_str (str "    at ");
          _ ← write_str file;
          _ ← write_str (str ":");
          _ ← write_str line;
          write_str newline_str
      | None => mret tt
      end;
  write_str newline_str.
End panic_write.

(** The console's state and [PANICKING]. *)
Record panicking := Panicking { p_con : consoles; PANICKING : bool }.
Definition p_con_l : lens panicking consoles := Lens p_con (fun c s => Panicking c (PANICKING s)).
#[export] Instance panicking_HasCpu : HasCpu panicking :=
  Lens (fun s => con_if (p_con s)) (fun b s => Panicking (set cpu_if b (p_con s)) (PANICKING s)).

Definition failsafe_write (s : bytes) : M panicking unit := zoom p_con_l (e9_write_str s).

(** The text for a panic in the handler. *)
Definition RECURSIVE_PANIC : bytes :=
  newline_str ++ newline_str ++ str "*** PANIC while panicking, halt" ++ newline_str ++ newline_str.

(** The handler, until it halts with interrupts off. *)
Definition panic_handler (info : PanicInfo) : M panicking unit :=
  _ ← begin;
  recursive_panic ← gets PANICKING;
  _ ← modify (fun s => Panicking (p_con s) true);
  _ ← (if recursive_panic : bool then
         failsafe_write RECURSIVE_PANIC
       else panic_write failsafe_write info);
  cli.

(** [c_panic]: the length of a C string in memory, then the panic. *)
Fixpoint find_nul (fuel : nat) (mem : Z -> Z) (msg : Z) (idx : nat) : option nat :=
  match fuel with
  | O => None
  | Datatypes.S fuel => if mem (msg + Z.of_nat idx) =? 0 then Some idx else find_nul fuel mem msg (Datatypes.S idx)
  end.

Definition c_panic (fuel : nat) (mem : Z -> Z) (msg : Z) : M panicking unit :=
  match find_nul fuel mem msg 0 with
  | None => ub "no null terminator yet"
  | Some msg_len =>
      panic_handler (PanicInfo_ (Some [(fun i => mem (msg + Z.of_nat i)) <$> seq 0 msg_len]) None)
  end.

(** ** What reaches the port *)

Definition panic_text (info : PanicInfo) : bytes :=
  newline_str ++
  match message info with
  | Some args => str "*** PANIC: " ++ concat args ++ newline_str
  | None => str "*** PANIC" ++ newline_str
  end ++
  match location info with
  | Some (file, line) => str "    at " ++ file ++ str ":" ++ line ++ newline_str
  | None => []
  end ++ newline_str.

(** The state with more bytes sent to the port. *)
Definition sent (text : bytes) (s : panicking) : panicking :=
  Panicking (Consoles (con_if (p_con s)) (CONSOLE (p_con s)) (rev text ++ e9 (p_con s)) (con_build (p_con s))) (PANICKING s).

Lemma sent_nil s : sent [] s = s.
Proof. by destruct s as [[]]. Qed.
Lemma sent_app a b s : sent (a ++ b) s = sent b (sent a s).
Proof. unfold sent. cbn. by rewrite rev_app_distr, <- app_assoc. Qed.

Lemma e9_write_run text c :
  e9_write_str text c = Ret (tt, Consoles (con_if c) (CONSOLE c) (rev text ++ e9 c) (con_build c)).
Proof.
  revert c. induction text as [|b text IH]; intros c; [by destruct c|]. unfold e9_write_str in *. cbn [for_each].
  erewrite bind_run by reflexivity. rewrite IH. cbn. by rewrite <- app_assoc.
Qed.

Lemma failsafe_write_run text s : failsafe_write text s = Ret (tt, sent text s).
Proof. unfold failsafe_write, zoom. cbn [view p_con_l]. by rewrite e9_write_run. Qed.

Lemma for_each_write_run args s : for_each failsafe_write args s = Ret (tt, sent (concat args) s).
Proof.
  revert s. induction args as [|a args IH]; intros s; [by rewrite sent_nil|]. cbn [for_each concat].
  erewrite bind_run by apply failsafe_write_run. by rewrite IH, sent_app.
Qed.

Lemma panic_write_run info s : panic_write failsafe_write info s = Ret (tt, sent (panic_text info) s).
Proof.
  unfold panic_write, panic_text. rewrite !sent_app. erewrite bind_run by apply failsafe_write_run.
  erewrite bind_run; [erewrite bind_run; [apply failsafe_write_run|]|].
  - destruct (location info) as [[file line]|]; [|by rewrite sent_nil]. rewrite !sent_app.
    do 4 (erewrite bind_run by apply failsafe_write_run). apply failsafe_write_run.
  - destruct (message info) as [args|]; rewrite !sent_app; erewrite bind_run by apply failsafe_write_run.
    + erewrite bind_run by apply for_each_write_run. apply failsafe_write_run.
    + apply failsafe_write_run.
Qed.

(** The first panic, whatever state the console is in, even while its mutex is
    held or its screen is broken, sends exactly its message and location to the
    emulator's port and halts with interrupts off, and does not touch the console;
    a panic in the handler sends a fixed text instead, so that the handler never
    loops. *)
Theorem panic_reports info s :
  exists text, panic_handler info s =
    Ret (tt, Panicking (Consoles false (CONSOLE (p_con s)) (rev text ++ e9 (p_con s)) (con_build (p_con s))) true) /\
    text = (if PANICKING s then RECURSIVE_PANIC else panic_text info).
Proof.
  eexists. split; [|reflexivity]. unfold panic_handler. erewrite bind_run by apply begin_run.
  unfold gets, modify. do 2 (erewrite bind_run by reflexivity). cbn [PANICKING p_con set cpu_if panicking_HasCpu].
  assert (forall b s2, (if b : bool then failsafe_write RECURSIVE_PANIC else panic_write failsafe_write info) s2 =
    Ret (tt, sent (if b then RECURSIVE_PANIC else panic_text info) s2)) as H.
  { intros [] s2; [apply failsafe_write_run|apply panic_write_run]. }
  by erewrite bind_run by apply H.
Qed.
