(* ===== verification/Block.v ===== *)
(** * Block: the interface between disks, partitions and file systems

    A block device answers a read of consecutive sectors.  The disk of [Ide] and
    the partitions of [Mbr] implement it; [Fat] is proved against it. *)

From S2P Require Import Prelude.

(** [read_sectors(lba, buffs)] of a device handle [Dev]: the number of buffers, and
    what they hold afterwards. *)
Class BlockDevice (S Dev : Type) := {
  dev_read : Dev -> Z -> nat -> M S (result (list (list Z)) Z)
}.

(** A working device: a read inside it ends with the contents of the sectors, and
    leaves a state from which the next read works. *)
Class BlockDeviceLaws {S Dev : Type} (B : BlockDevice S Dev) (d : Dev) (sectors : Z -> list Z) (size : Z)
    (ready : S -> Prop) (touched : S -> S -> Prop) : Prop := {
  dev_sector : forall l, 0 <= l < size -> length (sectors l) = 512%nat /\ Forall (fun b => 0 <= b < 256) (sectors l);
  dev_reads : forall lba count s, ready s -> 0 <= lba -> (0 < count)%nat -> lba + Z.of_nat count <= size -> (count <= 255)%nat ->
    exists s', dev_read d lba count s = Ret (Ok ((fun i => sectors (lba + Z.of_nat i)) <$> seq 0 count), s') /\
      ready s' /\ touched s s';
  dev_touched :: PreOrder touched;
  dev_size : size <= 0x00ffffff
}.

(** ** Little-endian fields of a sector *)

Definition u8_at (sector : list Z) (i : nat) : Z := nth i sector 0.
Definition u16_at (sector : list Z) (i : nat) : Z := u8_at sector i + 256 * u8_at sector (i + 1).
Definition u32_at (sector : list Z) (i : nat) : Z := u16_at sector i + 65536 * u16_at sector (i + 2).

Definition le16 (v : Z) : list Z := [v mod 256; v / 256].
Definition le32 (v : Z) : list Z := le16 (v mod 65536) ++ le16 (v / 65536).

Section fields.
Context (pre post : list Z).

Lemma u8_at_app x i : i = length pre -> u8_at (pre ++ [x] ++ post) i = x.
Proof using Type. intros ->. unfold u8_at. by rewrite app_nth2, Nat.sub_diag by lia. Qed.

Lemma u16_at_app v i : i = length pre -> 0 <= v < 65536 -> u16_at (pre ++ le16 v ++ post) i = v.
Proof using Type.
  intros -> Hv. unfold u16_at, u8_at. rewrite (app_nth2 pre), (app_nth2 pre) by lia.
  replace (length pre - length pre)%nat with 0%nat by lia.
  replace (length pre + 1 - length pre)%nat with 1%nat by lia. change (v mod 256 + 256 * (v / 256) = v). zdiv.
Qed.
End fields.

Lemma u32_at_app pre post v i : i = length pre -> 0 <= v < 2 ^ 32 -> u32_at (pre ++ le32 v ++ post) i = v.
Proof.
  change (2 ^ 32) with 4294967296. intros -> Hv. unfold u32_at, le32. rewrite <- !app_assoc.
  rewrite u16_at_app by (done || zdiv).
  rewrite (app_assoc pre (le16 (v mod 65536)) (le16 (v / 65536) ++ post)).
  rewrite u16_at_app; [zdiv| |zdiv]. rewrite length_app. done.
Qed.

Lemma byte_at sector i : Forall (fun b => 0 <= b < 256) sector -> 0 <= u8_at sector i < 256.
Proof.
  intros H. unfold u8_at. destruct (nth_in_or_default i sector 0) as [Hi|Hi]; [|rewrite Hi; lia].
  rewrite Forall_forall in H. apply H. by apply list_elem_of_In.
Qed.
Lemma u16_at_range sector i : Forall (fun b => 0 <= b < 256) sector -> 0 <= u16_at sector i < 65536.
Proof.
  intros H. unfold u16_at. pose proof (byte_at sector i H). pose proof (byte_at sector (i + 1) H). lia.
Qed.

Definition are_bytes (l : list Z) : bool := forallb (fun b => (0 <=? b) && (b <? 256)) l.
Lemma are_bytes_ok l : are_bytes l = true -> Forall (fun b => 0 <= b < 256) l.
Proof.
  intros H. apply Forall_forall. intros x Hx%list_elem_of_In.
  unfold are_bytes in H. rewrite forallb_forall in H. apply H in Hx.
  apply andb_true_iff in Hx as [?%Z.leb_le ?%Z.ltb_lt]. lia.
Qed.
