(* ===== verification/Mbr.v ===== *)
(** * Mbr: the partition table ([kernel/src/device/mbr.rs])

    The boot sector's four entries, and reads relative to a partition.  The drive is
    any block device; an [Arc] of a drive, which nothing changes, is the drive. *)

From S2P Require Import Prelude Block Sync Ide.

Record MbrEntry := MbrEntry_ {
  status : Z; chs_first : Z * Z * Z; type_ : Z; chs_last : Z * Z * Z; entry_lba : Z; entry_sectors : Z
}.

Definition read_entry (sector : list Z) (i : nat) : MbrEntry :=
  MbrEntry_ (u8_at sector i) (u8_at sector (i + 1), u8_at sector (i + 2), u8_at sector (i + 3))
    (u8_at sector (i + 4)) (u8_at sector (i + 5), u8_at sector (i + 6), u8_at sector (i + 7))
    (u32_at sector (i + 8)) (u32_at sector (i + 12)).

(** [RawMbr]: the padding and the entries. *)
Definition PAD : nat := 0x1be.
Definition raw_entries (sector : list Z) : list MbrEntry :=
  (fun idx => read_entry sector (PAD + 16 * idx)) <$> seq 0 4.

Record Partition (Dev : Type) := Partition_ { drive : Dev; number : Z; lba : Z; sectors : Z }.
Arguments Partition_ {Dev} _ _ _ _.
Arguments drive {Dev} _.
Arguments number {Dev} _.
Arguments lba {Dev} _.
Arguments sectors {Dev} _.

Section mbr.
Context {S Dev : Type} {B : BlockDevice S Dev}.
Context (answer : M S bool) (drop_drive : Dev -> M S unit) (p : profile).

(** [Mbr::open]: a failed [Arc::new] drops the drive. *)
Definition Mbr_open (d : Dev) : M S (result Dev unit) :=
  ok ← answer;
  if ok : bool then mret (Ok d) else _ ← drop_drive d; mret (Err tt).

Definition part_of (d : Dev) (idx : nat) (part : MbrEntry) : option (Partition Dev) :=
  if negb (Z.land (status part) 0x80 =? 0) then
    Some (Partition_ d (Z.of_nat idx) (entry_lba part) (entry_sectors part))
  else None.

(** The buffer a read of one sector fills. *)
Definition single (buffs : list (list Z)) : list Z := default [] (head buffs).

Definition partitions (d : Dev) : M S (result (list (option (Partition Dev))) Z) :=
  buffs ←? dev_read d 0 1;
  let boot_sector := single buffs in
  mret (Ok (imap (part_of d) (raw_entries boot_sector))).

(** [Partition::read_sectors] *)
Definition part_read (part : Partition Dev) (l : Z) (count : nat) : M S (result (list (list Z)) Z) :=
  last ← lift (u64_add p l (Z.of_nat count));
  if sectors part <? last then panic "would read beyond partition"
  else
    l' ← lift (u64_add p l (lba part));
    dev_read (drive part) l' count.

(** A partition is a block device. *)
Definition partition_device : BlockDevice S (Partition Dev) := {| dev_read := part_read |}.

Context (d : Dev) (contents : Z -> list Z) (size : Z) (ready : S -> Prop) (touched : S -> S -> Prop).
Context {L : BlockDeviceLaws B d contents size ready touched}.

Lemma single_read l s : ready s -> 0 <= l < size ->
  exists s', dev_read d l 1 s = Ret (Ok [contents l], s') /\ ready s' /\ touched s s'.
Proof using L.
  intros Hr Hl. destruct (dev_reads l 1 s) as (s' & E & H); [done|lia|lia|lia|lia|].
  exists s'. split; [|done]. rewrite E. cbn. by rewrite Z.add_0_r.
Qed.

Lemma partition_ok (part : Partition Dev) :
  drive part = d -> 0 <= lba part -> 0 <= sectors part -> lba part + sectors part <= size ->
  BlockDeviceLaws partition_device part (fun l => contents (lba part + l)) (sectors part) ready touched.
Proof using L.
  intros Hd Hl Hs Hin. pose proof dev_size as Hsz. split.
  - intros l Hl'. apply dev_sector. lia.
  - intros l count s Hr H0 Hpos Hc Hn. cbn. unfold part_read, u64_add.
    erewrite bind_run; [|unfold lift; rewrite arith_exact by (u64; lia); reflexivity].
    rewrite (proj2 (Z.ltb_ge _ _)) by lia.
    erewrite bind_run; [|unfold lift; rewrite arith_exact by (u64; lia); reflexivity].
    rewrite Hd. destruct (dev_reads (l + lba part) count s) as (s' & E & H); [done|lia..|].
    exists s'. split; [|done]. rewrite E. do 3 f_equal. apply list_fmap_ext. intros i x _. f_equal. lia.
  - exact dev_touched.
  - lia.
Qed.

(** C33: a partition that lies inside a working device is itself a working device, of
    as many sectors as its table entry says, sector [l] of the partition being
    sector [lba + l] of the device. *)
Theorem partition_works (part : Partition Dev) :
  drive part = d -> 0 <= lba part -> 0 <= sectors part -> lba part + sectors part <= size ->
  BlockDeviceLaws partition_device part (fun l => contents (lba part + l)) (sectors part) ready touched.
Proof using L. apply partition_ok. Qed.
End mbr.

(** ** Reads stay inside *)

Section inside.
Context {S Dev : Type} {B : BlockDevice S Dev} (p : profile).

(** Whatever the device does, a read through a partition is either refused
    by a panic before the device is asked, exactly when its last sector is beyond
    the partition's end (in a debug build; nothing wraps around), or is the
    device's read of the sectors [lba + l ..] inside the partition. *)
Theorem partition_reads_inside (part : Partition Dev) l count s :
  0 <= l < u64_limit -> 0 <= lba part < 2 ^ 32 -> 0 <= sectors part < 2 ^ 32 ->
  part_read Debug part l count s =
    (if l + Z.of_nat count <=? sectors part then dev_read (drive part) (lba part + l) count s
     else if l + Z.of_nat count <? u64_limit then Panic "would read beyond partition"
     else Panic "attempt to add with overflow").
Proof using Type.
  change (2 ^ 32) with 4294967296. intros Hl Hb Hs. unfold part_read, u64_add.
  destruct (Z.leb_spec (l + Z.of_nat count) (sectors part)) as [Hle|Hgt].
  - erewrite bind_run; [|unfold lift; rewrite arith_exact by (u64; lia); reflexivity].
    rewrite (proj2 (Z.ltb_ge _ _)) by lia.
    erewrite bind_run; [|unfold lift; rewrite arith_exact by (u64; lia); reflexivity].
    by rewrite (Z.add_comm l).
  - destruct (Z.ltb_spec (l + Z.of_nat count) u64_limit) as [Hlt|Hov].
    + erewrite bind_run; [|unfold lift; rewrite arith_exact by (u64; lia); reflexivity].
      by rewrite (proj2 (Z.ltb_lt _ _)) by lia.
    + unfold mbind, M_bind, lift, arith. by rewrite bool_decide_false by lia.
Qed.
End inside.

(** ** The table's layout *)

Definition entry_bytes (e : MbrEntry) : list Z :=
  let '(a, b, c) := chs_first e in
  let '(x, y, z) := chs_last e in
  [status e; a; b; c; type_ e; x; y; z] ++ le32 (entry_lba e) ++ le32 (entry_sectors e).

Definition entry_ok (e : MbrEntry) : Prop := 0 <= entry_lba e < 2 ^ 32 /\ 0 <= entry_sectors e < 2 ^ 32.

Lemma length_entry_bytes e : length (entry_bytes e) = 16%nat.
Proof. by destruct e as [? [[] ?] ? [[] ?] ? ?]. Qed.

Lemma u8_at_shift pre l i : u8_at (pre ++ l) (length pre + i) = u8_at l i.
Proof. unfold u8_at. rewrite app_nth2 by lia. f_equal. lia. Qed.

Lemma read_entry_bytes pre e post : entry_ok e -> read_entry (pre ++ entry_bytes e ++ post) (length pre) = e.
Proof.
  intros [Hl Hs]. destruct e as [st [[a b] c] ty [[x y] z] l n]. cbn in Hl, Hs.
  unfold read_entry, entry_bytes. cbn [status chs_first type_ chs_last entry_lba entry_sectors].
  rewrite <- (Nat.add_0_r (length pre)) at 1. rewrite !u8_at_shift. f_equal.
  - rewrite <- app_assoc, app_assoc, <- app_assoc, app_assoc. apply u32_at_app; [|done].
    rewrite length_app. done.
  - rewrite <- !app_assoc.
    rewrite (app_assoc pre), (app_assoc (pre ++ _)). apply u32_at_app; [|done].
    rewrite !length_app. cbn. lia.
Qed.

Lemma read_entry_in sector i pre e post :
  sector = pre ++ entry_bytes e ++ post -> i = length pre -> entry_ok e -> read_entry sector i = e.
Proof. intros -> ->. apply read_entry_bytes. Qed.

Lemma raw_entries_bytes code e0 e1 e2 e3 signature : length code = 0x1be%nat ->
  entry_ok e0 -> entry_ok e1 -> entry_ok e2 -> entry_ok e3 ->
  raw_entries (code ++ entry_bytes e0 ++ entry_bytes e1 ++ entry_bytes e2 ++ entry_bytes e3 ++ signature) =
    [e0; e1; e2; e3].
Proof.
  intros Hc E0 E1 E2 E3. unfold raw_entries, PAD. cbn [seq fmap list_fmap].
  pose proof (length_entry_bytes e0). pose proof (length_entry_bytes e1). pose proof (length_entry_bytes e2).
  rewrite (read_entry_in _ _ code e0 (entry_bytes e1 ++ entry_bytes e2 ++ entry_bytes e3 ++ signature)) by (done || lia).
  rewrite (read_entry_in _ _ (code ++ entry_bytes e0) e1 (entry_bytes e2 ++ entry_bytes e3 ++ signature))
    by (done || (rewrite <- ?app_assoc, ?length_app; done || lia)).
  rewrite (read_entry_in _ _ (code ++ entry_bytes e0 ++ entry_bytes e1) e2 (entry_bytes e3 ++ signature))
    by (done || (rewrite <- ?app_assoc, ?length_app; done || lia)).
  rewrite (read_entry_in _ _ (code ++ entry_bytes e0 ++ entry_bytes e1 ++ entry_bytes e2) e3 signature)
    by (done || (rewrite <- ?app_assoc, ?length_app; done || lia)).
  done.
Qed.

Section table.
Context {S Dev : Type} {B : BlockDevice S Dev} {d : Dev} {contents : Z -> list Z} {size : Z}.
Context {ready : S -> Prop} {touched : S -> S -> Prop} {L : BlockDeviceLaws B d contents size ready touched}.

(** The partition an entry of the table describes: bit 7 of its status says whether it is
    one; the partition has the index of the entry, and its first sector and number of
    sectors. *)
Lemma part_of_entry (idx : nat) e : part_of d idx e =
  if Z.testbit (status e) 7 then Some (Partition_ d (Z.of_nat idx) (entry_lba e) (entry_sectors e)) else None.
Proof using Type.
  unfold part_of. change 0x80 with (2 ^ 7). rewrite land_pow2 by done. by destruct (Z.testbit _ _).
Qed.

(** C34: on a working device whose boot sector holds four table entries after [0x1be]
    bytes of code, [partitions] yields a table of four: at each index, if bit 7 of the
    entry's status is set, the partition of the device with that index as its number and
    the entry's first sector and number of sectors, and nothing otherwise. *)
Theorem partitions_roundtrip code (e0 e1 e2 e3 : MbrEntry) signature s :
  ready s -> 0 < size -> length code = 0x1be%nat ->
  contents 0 = code ++ entry_bytes e0 ++ entry_bytes e1 ++ entry_bytes e2 ++ entry_bytes e3 ++ signature ->
  entry_ok e0 -> entry_ok e1 -> entry_ok e2 -> entry_ok e3 ->
  exists parts s', partitions d s = Ret (Ok parts, s') /\ ready s' /\ touched s s' /\ length parts = 4%nat /\
    forall i e, [e0; e1; e2; e3] !! i = Some e ->
      (Z.testbit (status e) 7 = true -> exists part, parts !! i = Some (Some part) /\
         drive part = d /\ number part = Z.of_nat i /\ lba part = entry_lba e /\ sectors part = entry_sectors e) /\
      (Z.testbit (status e) 7 = false -> parts !! i = Some None).
Proof using L.
  intros Hr Hsz Hc H0 E0 E1 E2 E3.
  destruct (single_read d contents size ready touched 0 s Hr ltac:(lia)) as (s' & E & Hr' & Ht).
  exists (imap (part_of d) [e0; e1; e2; e3]), s'. split_and!; [|done..|].
  - unfold partitions. rewrite (try_run _ _ _ _ _ E). cbn [single head default from_option id].
    by rewrite H0, raw_entries_bytes.
  - intros i e Hi. assert (imap (part_of d) [e0; e1; e2; e3] !! i = Some (part_of d i e)) as -> by by rewrite list_lookup_imap, Hi.
    rewrite part_of_entry. split; intros ->; [|done]. by eexists.
Qed.
End table.

(** ** The disk is a block device *)

Section ide.
Context (Bf : Bitflags) (BL : BitflagsLaws Bf).
Context (disk : list event -> Z -> Z) (fuel : nat).

Definition ide_device : BlockDevice channel Drive := {| dev_read := Ide.read_sectors disk fuel |}.

(** A disk that works is a working block device. *)
Lemma ide_device_works latency contents size :
  AtaDisk disk latency contents size -> (latency < fuel)%nat -> size <= 0x00ffffff ->
  BlockDeviceLaws ide_device A contents size (fun s => locked (io s) = false)
    (fun s s' => exists h, s' = set_hist h s).
Proof using BL.
  intros HD Hf Hs. split.
  - intros l Hl. by apply (ata_sector _ _ _ _ HD).
  - intros l count s Hr H0 Hpos Hc Hn.
    destruct (read_sectors_ok Bf BL disk latency contents size HD fuel Hf l count s) as [h E]; [done|lia..|].
    exists (set_hist h s). split; [exact E|]. split; [done|]. by exists h.
  - split.
    + intros s. exists (hist s). by destruct s.
    + intros ? ? ? (h1 & ->) (h2 & ->). by exists h2.
  - done.
Qed.
End ide.

(** A disk of three sectors: a partition table whose first entry is an active
    partition of one sector, sector 1. *)
Definition example_entry : MbrEntry := MbrEntry_ 0x80 (0, 0, 0) 6 (0, 0, 0) 1 1.
Definition no_entry : MbrEntry := MbrEntry_ 0 (0, 0, 0) 0 (0, 0, 0) 0 0.
Definition example_boot : list Z :=
  repeat 0 0x1be ++ entry_bytes example_entry ++ entry_bytes no_entry ++ entry_bytes no_entry ++
  entry_bytes no_entry ++ [0x55; 0xaa].
Definition example_sectors (l : Z) : list Z := if l =? 0 then example_boot else repeat 5 512.

Lemma example_sectors_ok l : 0 <= l < 3 -> length (example_sectors l) = SECTOR_BYTES /\
  Forall (fun b => 0 <= b < 256) (example_sectors l).
Proof.
  intros Hl. unfold example_sectors. destruct (Z.eqb_spec l 0).
  - split; [done|]. by apply are_bytes_ok.
  - split; [apply repeat_length|]. by apply Forall_repeat_byte.
Qed.

Definition example_device : BlockDevice channel Drive := ide_device bitflags_crate (pio_disk example_sectors) 2.

Lemma example_works : BlockDeviceLaws example_device A example_sectors 3 (fun s => locked (io s) = false)
  (fun s s' => exists h, s' = set_hist h s).
Proof.
  apply (ide_device_works bitflags_crate bitflags_crate_laws _ 2 1); [|lia|lia].
  apply pio_disk_works, example_sectors_ok.
Qed.

Lemma partition_works_witness :
  BlockDeviceLaws (partition_device (B := example_device) Debug) (Partition_ A 0 1 1)
    (fun l => example_sectors (1 + l)) 1 (fun s => locked (io s) = false) (fun s s' => exists h, s' = set_hist h s).
Proof.
  apply (partition_works (B := example_device) Debug A example_sectors 3 _ _ (L := example_works) (Partition_ A 0 1 1));
    cbn; lia || done.
Defined.

Lemma partition_reads_inside_witness :
  part_read (B := example_device) Debug (Partition_ A 0 1 1) 1 1 channel_new = Panic "would read beyond partition".
Proof. apply (partition_reads_inside (B := example_device) (Partition_ A 0 1 1) 1 1 channel_new); cbn; u64; lia. Defined.

(** A table whose third entry is an active partition of two sectors from sector 1, and
    whose last has a status without the active bit. *)
Definition table_boot : list Z :=
  repeat 0 0x1be ++ entry_bytes no_entry ++ entry_bytes no_entry ++
  entry_bytes (MbrEntry_ 0x80 (0, 0, 0) 6 (0, 0, 0) 1 2) ++ entry_bytes (MbrEntry_ 0x7f (0, 0, 0) 6 (0, 0, 0) 2 1) ++ [0x55; 0xaa].
Definition table_sectors (l : Z) : list Z := if l =? 0 then table_boot else repeat 5 512.

Lemma table_sectors_ok l : 0 <= l < 3 -> length (table_sectors l) = SECTOR_BYTES /\
  Forall (fun b => 0 <= b < 256) (table_sectors l).
Proof.
  intros Hl. unfold table_sectors. destruct (Z.eqb_spec l 0).
  - split; [done|]. by apply are_bytes_ok.
  - split; [apply repeat_length|]. by apply Forall_repeat_byte.
Qed.

Lemma table_works : BlockDeviceLaws (ide_device bitflags_crate (pio_disk table_sectors) 2) A table_sectors 3
  (fun s => locked (io s) = false) (fun s s' => exists h, s' = set_hist h s).
Proof.
  apply (ide_device_works bitflags_crate bitflags_crate_laws _ 2 1); [|lia|lia].
  apply pio_disk_works, table_sectors_ok.
Qed.

Lemma partitions_roundtrip_witness :
  exists parts s', partitions (B := ide_device bitflags_crate (pio_disk table_sectors) 2) A channel_new = Ret (Ok parts, s') /\
    parts !! 2%nat = Some (Some (Partition_ A 2 1 2)) /\ parts !! 3%nat = Some None.
Proof.
  destruct (partitions_roundtrip (L := table_works) (repeat 0 0x1be) no_entry no_entry
    (MbrEntry_ 0x80 (0, 0, 0) 6 (0, 0, 0) 1 2) (MbrEntry_ 0x7f (0, 0, 0) 6 (0, 0, 0) 2 1)
    [0x55; 0xaa] channel_new) as (parts & s' & E & _ & _ & _ & H); [done|done|done|done|split; cbn; lia..|].
  exists parts, s'. split; [exact E|]. split.
  - destruct (H 2%nat _ eq_refl) as [Ha _]. destruct (Ha eq_refl) as ([? ? ? ?] & Hp & Hd & Hn & Hl & Hs).
    cbn in Hd, Hn, Hl, Hs. by rewrite Hp, Hd, Hn, Hl, Hs.
  - by apply (H 3%nat _ eq_refl).
Defined.
