(* ===== verification/Stream.v ===== *)
(** * Stream: the streams of the [futures] crate

    [kernel/src/fs/fat16.rs] builds directory listings from stream combinators of a
    third-party crate.  They are an interface here: an abstract type of streams,
    its combinators, and the equations of [next] the crate documents.  A stream is
    pulled: nothing runs before [next].  [n] bounds the elements a [next] skips;
    beyond it the result is [ub], so that a proved result is a reached one.  Streams
    that are flattened are always made by [iter]: they are lists. *)

From S2P Require Import Prelude.

Class Streams (S : Type) := {
  Stream : Type -> Type;
  next : forall {A}, nat -> Stream A -> M S (option (A * Stream A));
  iter : forall {A}, list A -> Stream A;
  unfold : forall {X A : Type}, X -> (X -> M S (option (A * X))) -> Stream A;
  smap : forall {A B}, (A -> B) -> Stream A -> Stream B;
  (** [try_flatten], with what is left of the current inner stream *)
  try_flatten : forall {A E}, list A -> Stream (result (list A) E) -> Stream (result A E);
  and_then : forall {A B E}, (A -> M S (result B E)) -> Stream (result A E) -> Stream (result B E);
  try_filter : forall {A E}, (A -> M S bool) -> Stream (result A E) -> Stream (result A E);
  take_while : forall {A}, (A -> bool) -> Stream A -> Stream A
}.

(** [try_next] *)
Definition try_next {S A E} `{Streams S} (n : nat) (st : Stream (result A E)) : M S (result (option A) E) :=
  r ← next n st;
  mret match r with
       | None => Ok None
       | Some (Ok a, _) => Ok (Some a)
       | Some (Err e, _) => Err e
       end.

Class StreamsLaws {S : Type} (C : Streams S) : Prop := {
  next_iter : forall A n (l : list A) s, next n (iter l) s =
    Ret (match l with [] => None | a :: l => Some (a, iter l) end, s);
  next_unfold : forall X A n (x : X) (f : X -> M S (option (A * X))) s, next n (unfold x f) s =
    (r ← f x; mret match r with None => None | Some (a, x) => Some (a, unfold x f) end) s;
  next_smap : forall A B n (f : A -> B) st s, next n (smap f st) s =
    (r ← next n st; mret match r with None => None | Some (a, st) => Some (f a, smap f st) end) s;
  next_flatten_cons : forall A E n (a : A) l (st : Stream (result (list A) E)) s,
    next n (try_flatten (a :: l) st) s = Ret (Some (Ok a, try_flatten l st), s);
  next_flatten_nil : forall A E n (st : Stream (result (list A) E)) s,
    next (Datatypes.S n) (try_flatten [] st) s =
    (r ← next n st;
     match r with
     | None => mret None
     | Some (Err e, st) => mret (Some (Err e, try_flatten [] st))
     | Some (Ok l, st) => next n (try_flatten l st)
     end) s;
  next_and_then : forall A B E n (f : A -> M S (result B E)) (st : Stream (result A E)) s,
    next n (and_then f st) s =
    (r ← next n st;
     match r with
     | None => mret None
     | Some (Err e, st) => mret (Some (Err e, and_then f st))
     | Some (Ok a, st) => b ← f a; mret (Some (b, and_then f st))
     end) s;
  next_try_filter : forall A E n (f : A -> M S bool) (st : Stream (result A E)) s,
    next (Datatypes.S n) (try_filter f st) s =
    (r ← next n st;
     match r with
     | None => mret None
     | Some (Err e, st) => mret (Some (Err e, try_filter f st))
     | Some (Ok a, st) => b ← f a; if b : bool then mret (Some (Ok a, try_filter f st)) else next n (try_filter f st)
     end) s;
  next_take_while : forall A n (f : A -> bool) st s, next n (take_while f st) s =
    (r ← next n st;
     mret match r with None => None | Some (a, st) => if f a then Some (a, take_while f st) else None end) s
}.

(** ** An implementation: pullers *)

Record puller (S A : Type) := Puller {
  mstate : Type;
  mcur : mstate;
  mstep : nat -> mstate -> M S (option (A * mstate))
}.
Arguments Puller {S A} _ _ _.

Section machines.
Context {S : Type}.

Definition m_next {A} (n : nat) (m : puller S A) : M S (option (A * puller S A)) :=
  r ← mstep _ _ m n (mcur _ _ m);
  mret match r with None => None | Some (a, x) => Some (a, Puller (mstate _ _ m) x (mstep _ _ m)) end.

Definition pull_part {A E X} (step : nat -> X -> M S (option (result (list A) E * X))) :=
  fix go (n : nat) (x : X) : M S (option (result A E * (list A * X))) :=
    match n with
    | O => ub "stream: too many empty parts"
    | Datatypes.S n =>
        r ← step n x;
        match r with
        | None => mret None
        | Some (Err e, x) => mret (Some (Err e, ([], x)))
        | Some (Ok [], x) => go n x
        | Some (Ok (a :: l), x) => mret (Some (Ok a, (l, x)))
        end
    end.

Definition flatten_step {A E X} (step : nat -> X -> M S (option (result (list A) E * X))) (n : nat)
    (x : list A * X) : M S (option (result A E * (list A * X))) :=
  match x.1 with
  | a :: l => mret (Some (Ok a, (l, x.2)))
  | [] => pull_part step n x.2
  end.

Definition filter_step {A E X} (f : A -> M S bool) (step : nat -> X -> M S (option (result A E * X))) :=
  fix go (n : nat) (x : X) : M S (option (result A E * X)) :=
    match n with
    | O => ub "stream: too many elements filtered out"
    | Datatypes.S n =>
        r ← step n x;
        match r with
        | None => mret None
        | Some (Err e, x) => mret (Some (Err e, x))
        | Some (Ok a, x) => b ← f a; if b : bool then mret (Some (Ok a, x)) else go n x
        end
    end.

Definition machines : Streams S := {|
  Stream := puller S;
  next _ := m_next;
  iter _ l := Puller _ l (fun _ l => mret match l with [] => None | a :: l => Some (a, l) end);
  unfold _ _ x f := Puller _ x (fun _ => f);
  smap _ _ f m := Puller _ (mcur _ _ m) (fun n x =>
    r ← mstep _ _ m n x; mret match r with None => None | Some (a, x) => Some (f a, x) end);
  try_flatten _ _ l m := Puller _ (l, mcur _ _ m) (flatten_step (mstep _ _ m));
  and_then _ _ _ f m := Puller _ (mcur _ _ m) (fun n x =>
    r ← mstep _ _ m n x;
    match r with
    | None => mret None
    | Some (Err e, x) => mret (Some (Err e, x))
    | Some (Ok a, x) => b ← f a; mret (Some (b, x))
    end);
  try_filter _ _ f m := Puller _ (mcur _ _ m) (filter_step f (mstep _ _ m));
  take_while _ f m := Puller _ (mcur _ _ m) (fun n x =>
    r ← mstep _ _ m n x; mret match r with None => None | Some (a, x) => if f a then Some (a, x) else None end)
|}.

(** Case analysis on the outcome of the inner stream's step. *)
#[local] Ltac step_cases :=
  cbn; unfold m_next, mbind, M_bind, mret, M_ret; cbn;
  match goal with
  | |- context [mstep ?a ?b ?m ?n ?x ?s] => destruct (mstep a b m n x s) as [[[[? ?]|] ?]| |]
  end; cbn; try done.

Lemma machines_laws : StreamsLaws machines.
Proof.
  split.
  - intros A n [|a l] s; reflexivity.
  - intros. cbn. unfold m_next, mbind, M_bind. cbn. by destruct (f x s) as [[[[? ?]|] ?]| |].
  - intros. step_cases.
  - reflexivity.
  - intros. step_cases. by destruct r as [[]|].
  - intros. step_cases. destruct r as [a|e]; [|done]. by destruct (f a s0) as [[]| |].
  - intros. step_cases. destruct r as [a|e]; [|done]. by destruct (f a s0) as [[[] ?]| |].
  - intros. step_cases. by destruct (f a).
Qed.
End machines.

(** ** Streams that end

    [yields n st xs]: from any [ready] state, each [next] with at least [n] turns
    gives the next element of [xs], then the end. *)

Section yields.
Context {S : Type} {C : Streams S} {CL : StreamsLaws C}.
Context (ready : S -> Prop) (touched : S -> S -> Prop) {HT : PreOrder touched}.

(** A computation whose result is known from any ready state. *)
Definition gives {A} (m : M S A) (a : A) : Prop :=
  forall s, ready s -> exists s', m s = Ret (a, s') /\ ready s' /\ touched s s'.

Lemma gives_ret {A} (a : A) : gives (mret a) a.
Proof using HT. intros s Hs. by exists s. Qed.

Lemma gives_bind {A D} (m : M S A) (k : A -> M S D) a d :
  gives m a -> gives (k a) d -> gives (m ≫= k) d.
Proof using HT.
  intros Hm Hk s Hs. destruct (Hm s Hs) as (s1 & E1 & H1 & T1). destruct (Hk s1 H1) as (s2 & E2 & H2 & T2).
  exists s2. split; [by rewrite (bind_run _ _ _ _ _ E1)|]. split; [done|]. by etransitivity.
Qed.

Lemma gives_ext {A} (m m' : M S A) a : (forall s, m s = m' s) -> gives m' a -> gives m a.
Proof using Type. intros He Hm s Hs. rewrite He. by apply Hm. Qed.

Inductive yields {A E} (n : nat) : Stream (result A E) -> list A -> Prop :=
| yields_end st : (forall m, (n <= m)%nat -> gives (next m st) None) -> yields n st []
| yields_item st a st' xs : (forall m, (n <= m)%nat -> gives (next m st) (Some (Ok a, st'))) ->
    yields n st' xs -> yields n st (a :: xs).

Lemma yields_more {A E} n n' (st : Stream (result A E)) xs : (n <= n')%nat -> yields n st xs -> yields n' st xs.
Proof using Type.
  intros Hn. induction 1 as [st H|st a st' xs H Hy IH]; econstructor; [| |done]; intros m Hm; apply H; lia.
Qed.

Lemma yields_iter {A E} (xs : list A) : yields 0 (iter (Ok (E := E) <$> xs)) xs.
Proof using CL HT.
  induction xs as [|x xs IH]; econstructor; [| |exact IH]; intros m _;
    (eapply gives_ext; [intros; apply next_iter|apply gives_ret]).
Qed.

Lemma yields_map_err {A E E'} n (f : E -> E') (st : Stream (result A E)) xs :
  yields n st xs -> yields n (smap (map_err f) st) xs.
Proof using CL HT.
  induction 1 as [st H|st a st' xs H Hy IH]; econstructor; [| |exact IH]; intros m Hm;
    (eapply gives_ext; [intros; apply next_smap|]); (eapply gives_bind; [by apply H|apply gives_ret]).
Qed.

Lemma yields_and_then {A D E} n (f : A -> M S (result D E)) (g : A -> D) (st : Stream (result A E)) xs :
  yields n st xs -> (forall x, x ∈ xs -> gives (f x) (Ok (g x))) -> yields n (and_then f st) (g <$> xs).
Proof using CL HT.
  induction 1 as [st H|st a st' xs H Hy IH]; intros Hf.
  - apply yields_end. intros m Hm. eapply gives_ext; [intros; apply next_and_then|].
    eapply gives_bind; [by apply H|]. apply gives_ret.
  - eapply yields_item; [|apply IH; intros; apply Hf; by right]. intros m Hm.
    eapply gives_ext; [intros; apply next_and_then|]. eapply gives_bind; [by apply H|]. cbv beta iota.
    eapply gives_bind; [apply Hf; by left|apply gives_ret].
Qed.

Lemma yields_flatten {A E} n (st : Stream (result (list A) E)) ls : yields n st ls ->
  forall l, yields (n + length ls + 1) (try_flatten l st) (l ++ concat ls).
Proof using CL HT.
  intros Hy. induction Hy as [st H|st l' st' ls H Hy IH]; intros l.
  - induction l as [|a l IHl].
    + apply yields_end. intros [|m] Hm; [lia|]. eapply gives_ext; [intros; apply next_flatten_nil|].
      eapply gives_bind; [apply H; cbn in *; lia|apply gives_ret].
    + eapply yields_item; [|exact IHl]. intros m Hm. eapply gives_ext; [intros; apply next_flatten_cons|].
      apply gives_ret.
  - induction l as [|a l IHl].
    2:{ eapply yields_item; [|exact IHl]. intros m Hm. eapply gives_ext; [intros; apply next_flatten_cons|].
        apply gives_ret. }
    cbn [concat app length].
    assert (forall k, (n + length ls + 1 <= k)%nat -> forall o, gives (next k (try_flatten l' st')) o ->
      gives (next (Datatypes.S k) (try_flatten [] st)) o) as Hstep.
    { intros k Hk o Ho. eapply gives_ext; [intros; apply next_flatten_nil|].
      eapply gives_bind; [apply H; lia|exact Ho]. }
    specialize (IH l'). inversion IH as [? He Hn Hx|? a st2 xs He Hy2 Hn Hx].
    + apply yields_end. intros [|m] Hm; [lia|]. apply Hstep; [lia|]. apply He. lia.
    + eapply yields_item.
      * intros [|m] Hm; [lia|]. apply Hstep; [lia|]. apply He. lia.
      * eapply yields_more; [|exact Hy2]. lia.
Qed.

Lemma yields_filter {A E} n (f : A -> M S bool) (g : A -> bool) (st : Stream (result A E)) xs :
  yields n st xs -> (forall x, x ∈ xs -> gives (f x) (g x)) ->
  yields (n + length xs + 1) (try_filter f st) (List.filter g xs).
Proof using CL HT.
  induction 1 as [st H|st a st' xs H Hy IH]; intros Hf.
  - apply yields_end. intros [|m] Hm; [lia|]. eapply gives_ext; [intros; apply next_try_filter|].
    eapply gives_bind; [apply H; cbn in *; lia|apply gives_ret].
  - specialize (IH (fun x Hx => Hf x (list_elem_of_further _ _ _ Hx))). cbn [List.filter length].
    pose proof (Hf a (list_elem_of_here _ _)) as Ha. destruct (g a).
    + eapply yields_item; [|eapply yields_more; [|exact IH]; lia]. intros [|m] Hm; [lia|].
      eapply gives_ext; [intros; apply next_try_filter|]. eapply gives_bind; [apply H; lia|]. cbv beta iota.
      eapply gives_bind; [exact Ha|apply gives_ret].
    + assert (forall k, (n + length xs + 1 <= k)%nat -> forall o, gives (next k (try_filter f st')) o ->
        gives (next (Datatypes.S k) (try_filter f st)) o) as Hstep.
      { intros k Hk o Ho. eapply gives_ext; [intros; apply next_try_filter|].
        eapply gives_bind; [apply H; lia|]. cbv beta iota. eapply gives_bind; [exact Ha|exact Ho]. }
      inversion IH as [? He Hn Hx|? b st2 ys He Hy2 Hn Hx].
      * apply yields_end. intros [|m] Hm; [lia|]. apply Hstep; [lia|]. apply He. lia.
      * eapply yields_item; [|eapply yields_more; [|exact Hy2]; lia].
        intros [|m] Hm; [lia|]. apply Hstep; [lia|]. apply He. lia.
Qed.

(** The longest prefix that satisfies a predicate. *)
Fixpoint prefix_while {A} (g : A -> bool) (xs : list A) : list A :=
  match xs with x :: xs => if g x then x :: prefix_while g xs else [] | [] => [] end.

Lemma prefix_while_length {A} (g : A -> bool) xs : (length (prefix_while g xs) <= length xs)%nat.
Proof using Type. induction xs as [|x xs IH]; cbn; [lia|]. destruct (g x); cbn; lia. Qed.

Lemma yields_take_while {A E} n (f : result A E -> bool) (st : Stream (result A E)) xs :
  yields n st xs -> yields n (take_while f st) (prefix_while (fun x => f (Ok x)) xs).
Proof using CL HT.
  induction 1 as [st H|st a st' xs H Hy IH]; cbn [prefix_while].
  - apply yields_end. intros m Hm. eapply gives_ext; [intros; apply next_take_while|].
    eapply gives_bind; [by apply H|apply gives_ret].
  - destruct (f (Ok a)) eqn:Hf.
    + eapply yields_item; [|exact IH]. intros m Hm. eapply gives_ext; [intros; apply next_take_while|].
      eapply gives_bind; [by apply H|]. cbv beta iota. rewrite Hf. apply gives_ret.
    + apply yields_end. intros m Hm. eapply gives_ext; [intros; apply next_take_while|].
      eapply gives_bind; [by apply H|]. cbv beta iota. rewrite Hf. apply gives_ret.
Qed.

Lemma try_next_yields {A E} n m (st : Stream (result A E)) xs :
  yields n st xs -> (n <= m)%nat -> gives (try_next m st) (Ok (head xs)).
Proof using HT.
  intros Hy Hm. unfold try_next. destruct Hy as [st H|st a st' xs H Hy];
    (eapply gives_bind; [by apply H|apply gives_ret]).
Qed.
End yields.
