(* ===== verification/Fat.v ===== *)
(** * Fat: the FAT16 file system ([kernel/src/fs/fat16.rs])

    Directories, files and the cluster chains behind them, over a block device and
    the stream combinators of [Stream].  What an [Arc] shares here never changes
    after it is made, so an [Arc] is its value, and [answer] says whether its
    allocation succeeds.  A file keeps its position in an asynchronous mutex. *)

From S2P Require Import Prelude Interface Utf8 Block Stream.

Definition DIR_ENTRY_SIZE : Z := 32.
Definition SECTOR_SIZE : Z := 512.

(** ** On-disk structures *)

Record BiosParameterBlock := Bpb {
  jmp : list Z; oem : list Z;
  bytes_per_sector : Z; bpb_sectors_per_cluster : Z; reserved_sector_count : Z; fat_count : Z;
  root_directory_entry_count : Z; total_sector_count : Z; media_descriptor_type : Z; sectors_per_fat : Z
}.

(** The [transmute] of a sector. *)
Definition decode_bpb (b : list Z) : BiosParameterBlock :=
  Bpb (take 3 b) (take 8 (drop 3 b)) (u16_at b 0xb) (u8_at b 0xd) (u16_at b 0xe) (u8_at b 0x10)
    (u16_at b 0x11) (u16_at b 0x13) (u8_at b 0x15) (u16_at b 0x16).

(** The fields are 8 and 16 bits wide: none of these overflows 64 bits. *)
Definition first_fat_sector (bpb : BiosParameterBlock) : Z := reserved_sector_count bpb.
Definition fat_sector_count (bpb : BiosParameterBlock) : Z := sectors_per_fat bpb.
Definition all_fats_sector_count bpb : Z := fat_count bpb * fat_sector_count bpb.
Definition first_root_dir_sector bpb : Z := first_fat_sector bpb + all_fats_sector_count bpb.
Definition root_dir_sector_count bpb : Z := root_directory_entry_count bpb * DIR_ENTRY_SIZE / SECTOR_SIZE.
Definition sectors_per_cluster (bpb : BiosParameterBlock) : Z := bpb_sectors_per_cluster bpb.

(** Clusters count from 2. *)
Definition first_cluster_sector (p : profile) bpb (cluster_number : Z) : outcome Z :=
  let clusters_base := first_root_dir_sector bpb + root_dir_sector_count bpb in
  cluster_number ← u64_sub p cluster_number 2;
  sectors ← u64_mul p cluster_number (sectors_per_cluster bpb);
  u64_add p clusters_base sectors.

Definition zrange (first count : Z) : list Z := (fun i => first + Z.of_nat i) <$> seq 0 (Z.to_nat count).

Definition cluster_sectors (p : profile) bpb (cluster_number : Z) : outcome (list Z) :=
  first ← first_cluster_sector p bpb cluster_number;
  last ← u64_add p first (sectors_per_cluster bpb);
  mret (zrange first (last - first)).

Record RawDirEntry := RawDirEntry_ {
  basename : list Z; extension : list Z; raw_attributes : Z; reserved : Z; create_tenths : Z;
  create_time : Z; create_date : Z; access_date : Z; cluster_hi : Z;
  modify_time : Z; modify_date : Z; cluster_lo : Z; size : Z
}.

Definition decode_entry (b : list Z) : RawDirEntry :=
  RawDirEntry_ (take 8 b) (take 3 (drop 8 b)) (u8_at b 11) (u8_at b 12) (u8_at b 13)
    (u16_at b 14) (u16_at b 16) (u16_at b 18) (u16_at b 20) (u16_at b 22) (u16_at b 24) (u16_at b 26) (u32_at b 28).

Definition raw_entries_of (buff : list Z) : list RawDirEntry :=
  (fun i => decode_entry (take 32 (drop (32 * i) buff))) <$> seq 0 16.

(** [Attributes] *)
Definition DIRECTORY : Z := 0x10.
Definition Attributes_all : Z := 0x3f.

Definition to_ascii_lowercase (b : Z) : Z := if (65 <=? b) && (b <=? 90) then b + 32 else b.

(** [while filename.last() == Some(&b' ') { filename.pop(); }] *)
Fixpoint skip_spaces (l : list Z) : list Z :=
  match l with b :: rest => if b =? 32 then skip_spaces rest else l | [] => [] end.
Definition trim_spaces (l : list Z) : list Z := rev (skip_spaces (rev l)).

Definition filename (e : RawDirEntry) : list Z :=
  let filename := trim_spaces (to_ascii_lowercase <$> basename e) in
  if negb (u8_at (extension e) 0 =? 32) then
    trim_spaces (filename ++ [46] ++ (to_ascii_lowercase <$> extension e))
  else filename.

Definition first_cluster (e : RawDirEntry) : Z := Z.lor (cluster_lo e) (Z.shiftl (cluster_hi e) 16).

(** ** Errors *)

Inductive FatError :=
| FatMemoryExhausted
| FatAta (e : Z).

Definition SysError_from_FatError (e : FatError) : SysError :=
  match e with FatMemoryExhausted => MemoryExhausted | FatAta _ => IoError end.

(** ** Open directories and files *)

Record Filesystem (Part : Type) := Filesystem_ { part : Part; bpb : BiosParameterBlock }.
Arguments Filesystem_ {Part} _ _.
Arguments part {Part} _.
Arguments bpb {Part} _.

(** [DirEntry] with the fields of its [DirEntryShared]. *)
#[warnings="-register-all"]
Inductive DirEntry (Part : Type) :=
| DirEntry_ (fs : Filesystem Part) (parent : option (DirEntry Part)) (dirent : RawDirEntry).
Arguments DirEntry_ {Part} _ _ _.

Definition entry_fs {Part} (d : DirEntry Part) : Filesystem Part := let 'DirEntry_ fs _ _ := d in fs.
Definition dirent {Part} (d : DirEntry Part) : RawDirEntry := let 'DirEntry_ _ _ e := d in e.
Definition name {Part} (d : DirEntry Part) : list Z := filename (dirent d).

Inductive DirectoryKind (Part : Type) :=
| Root
| Sub (d : DirEntry Part).
Arguments Root {Part}.
Arguments Sub {Part} _.

Record Directory (Part : Type) := Directory_ { dir_fs : Filesystem Part; kind : DirectoryKind Part }.
Arguments Directory_ {Part} _ _.
Arguments dir_fs {Part} _.
Arguments kind {Part} _.

Record Seek := Seek_ { cluster : option Z; sector : Z; offset : Z }.

(** An [AsyncMutex] and the wakers waiting on it. *)
Record AsyncCell (W A : Type) := AsyncCell_ { held : bool; waiting : list W; inner : A }.
Arguments AsyncCell_ {W A} _ _ _.
Arguments held {W A} _.
Arguments waiting {W A} _.
Arguments inner {W A} _.

Record File (Part W : Type) := File_ { file_fs : Filesystem Part; file_dirent : DirEntry Part; seek : AsyncCell W Seek }.
Arguments File_ {Part W} _ _ _.
Arguments file_fs {Part W} _.
Arguments file_dirent {Part W} _.
Arguments seek {Part W} _.

Inductive Open (Part W : Type) :=
| OpenFile (f : File Part W)
| OpenDir (d : Directory Part).
Arguments OpenFile {Part W} _.
Arguments OpenDir {Part W} _.

(** ** Operations *)

Section fat.
Context {S Part W : Type} {B : BlockDevice S Part} {C : Streams S} {Bf : Bitflags}.
Context (answer : M S bool) (p : profile).
Context (waker : W) (wake : W -> M S unit).       (* of the task that polls *)
Context (fuel : nat).                             (* for the streams *)

(** One sector. *)
Definition read_sector (fs : Filesystem Part) (l : Z) : M S (result (list Z) Z) :=
  buffs ←? dev_read (part fs) l 1;
  mret (Ok (default [] (head buffs))).

(** [BiosParameterBlock::read], [Fat16::open] and [Fat16::root] *)
Definition bpb_read (pt : Part) : M S (result BiosParameterBlock Z) :=
  buffs ←? dev_read pt 0 1;
  mret (Ok (decode_bpb (default [] (head buffs)))).

Definition Fat16_open (pt : Part) : M S (result (Filesystem Part) FatError) :=
  b ← bpb_read pt;
  match b with
  | Err e => mret (Err (FatAta e))
  | Ok b => ok ← answer; if ok : bool then mret (Ok (Filesystem_ pt b)) else mret (Err FatMemoryExhausted)
  end.

Definition root (fs : Filesystem Part) : Directory Part := Directory_ fs Root.

Definition next_cluster (fs : Filesystem Part) (cluster : Z) : M S (result (option Z) Z) :=
  let FAT_ENTRY_SIZE := 2 in
  let max_cluster := fat_sector_count (bpb fs) * SECTOR_SIZE / FAT_ENTRY_SIZE in
  if max_cluster <=? cluster then panic "cluster out of bounds"
  else
    let fat_entry_offset := cluster * FAT_ENTRY_SIZE in
    let fat_sector := first_fat_sector (bpb fs) + fat_entry_offset / SECTOR_SIZE in
    let sector_offset := fat_entry_offset mod SECTOR_SIZE in
    buff ←? read_sector fs fat_sector;
    let next := u16_at buff (Z.to_nat sector_offset) in
    if 0xfff8 <=? next then mret (Ok None)
    else if next =? 0xfff7 then panic "bad cluster in chain! what do here?"
    else mret (Ok (Some next)).

(** The stream ends when there is no next cluster: [transpose()?] returns [None]
    before the cluster at hand is yielded. *)
Definition cluster_chain (fs : Filesystem Part) (start : Z) : Stream (result Z Z) :=
  unfold (Some start) (fun cluster =>
    match cluster with
    | Some cluster =>
        r ← next_cluster fs cluster;
        match r with
        | Ok None => mret None
        | Ok (Some next) => mret (Some (Ok cluster, Some next))
        | Err e => mret (Some (Err e, None))
        end
    | None => mret None
    end).

(** The sectors of each cluster are computed when it is pulled. *)
Definition sector_chain (fs : Filesystem Part) (start : Z) : Stream (result Z Z) :=
  try_flatten [] (and_then (fun cluster =>
      sectors ← lift (cluster_sectors p (bpb fs) cluster); mret (Ok sectors))
    (cluster_chain fs start)).

Definition directory_sectors (d : Directory Part) : Stream (result Z Z) :=
  match kind d with
  | Root =>
      let b := bpb (dir_fs d) in
      iter (Ok <$> zrange (first_root_dir_sector b) (root_dir_sector_count b))
  | Sub e => sector_chain (dir_fs d) (first_cluster (dirent e))
  end.

Definition read_raw_entries_from_sector (fs : Filesystem Part) (l : Z) : M S (result (list RawDirEntry) FatError) :=
  buff ← read_sector fs l;
  mret (map_ok raw_entries_of (map_err FatAta buff)).

Definition read_entries (d : Directory Part) : Stream (result RawDirEntry FatError) :=
  let fs := dir_fs d in
  let raw := try_flatten [] (and_then (read_raw_entries_from_sector fs)
               (smap (map_err FatAta) (directory_sectors d))) in
  let kept := try_filter (fun entry => mret (negb (u8_at (basename entry) 0 =? 0xef))) raw in
  take_while (fun entry => match entry with
                           | Ok e => negb (u8_at (basename e) 0 =? 0)
                           | Err _ => true
                           end) kept.

Definition DirEntry_new (fs : Filesystem Part) (parent : option (DirEntry Part)) (e : RawDirEntry) :
  M S (result (DirEntry Part) FatError) :=
  ok ← answer;
  mret (if ok : bool then Ok (DirEntry_ fs parent e) else Err FatMemoryExhausted).

Definition entries (d : Directory Part) : Stream (result (DirEntry Part) FatError) :=
  and_then (fun e =>
      let parent := match kind d with Root => None | Sub dirent => Some dirent end in
      DirEntry_new (dir_fs d) parent e)
    (read_entries d).

Definition is_named (wanted : list Z) (e : DirEntry Part) : M S bool :=
  let entry_name := name e in
  _ ← expect_ok (from_utf8 entry_name) "utf8";
  _ ← expect_ok (from_utf8 wanted) "utf8";
  mret (bool_decide (entry_name = wanted)).

Definition entry (d : Directory Part) (wanted : list Z) : M S (result (option (DirEntry Part)) FatError) :=
  try_next fuel (try_filter (is_named wanted) (entries d)).

Definition is_dir (e : DirEntry Part) : bool :=
  contains (from_bits_truncate Attributes_all (raw_attributes (dirent e))) DIRECTORY.

(** [DirEntry::open]: never an error. *)
Definition open (e : DirEntry Part) : Open Part W :=
  let fs := entry_fs e in
  if is_dir e then OpenDir (Directory_ fs (Sub e))
  else OpenFile (File_ fs e (AsyncCell_ false [] (Seek_ (Some (first_cluster (dirent e))) 0 0))).

(** *** Reading a file *)

(** The two conditions at the head of the loop. *)
Definition step_offset (sk : Seek) : Seek :=
  if offset sk =? SECTOR_SIZE then Seek_ (cluster sk) (sector sk + 1) 0 else sk.

Definition step_sector (fs : Filesystem Part) (sk : Seek) : M S (Seek * result unit Z) :=
  if sector sk =? sectors_per_cluster (bpb fs) then
    match cluster sk with
    | None => mret (Seek_ None 0 (offset sk), Ok tt)
    | Some c =>
        r ← next_cluster fs c;
        match r with
        | Ok next => mret (Seek_ next 0 (offset sk), Ok tt)
        | Err e => mret (Seek_ (Some c) 0 (offset sk), Err e)
        end
    end
  else mret (sk, Ok tt).

(** The loop on what is left of the buffer, [len] bytes: the position it leaves,
    the bytes it has stored, and its result.  Every turn stores a byte, so [len]
    turns are enough. *)
Fixpoint read_loop (turns : nat) (fs : Filesystem Part) (sk : Seek) (len : Z) :
  M S (Seek * list Z * result unit FatError) :=
  if len <=? 0 then mret (sk, [], Ok tt)
  else
    match turns with
    | O => ub "read: out of turns"
    | Datatypes.S turns =>
        let sk := step_offset sk in
        sr ← step_sector fs sk;
        match sr with
        | (sk, Err e) => mret (sk, [], Err (FatAta e))
        | (sk, Ok _) =>
            match cluster sk with
            | None => mret (sk, [], Ok tt)                   (* EOF *)
            | Some c =>
                first ← lift (first_cluster_sector p (bpb fs) c);
                l ← lift (u64_add p first (sector sk));
                r ← read_sector fs l;
                match r with
                | Err e => mret (sk, [], Err (FatAta e))
                | Ok sector_buff =>
                    byte_count ← (avail ← lift (u64_sub p SECTOR_SIZE (offset sk)); mret (Z.min avail len));
                    let bytes := take (Z.to_nat byte_count) (drop (Z.to_nat (offset sk)) sector_buff) in
                    rest ← read_loop turns fs (Seek_ (cluster sk) (sector sk) (offset sk + byte_count))
                             (len - byte_count);
                    mret (rest.1.1, bytes ++ rest.1.2, rest.2)
                end
            end
        end
    end.

(** [File::read] into a buffer of [len] bytes: the file afterwards, the bytes
    stored at the start of the buffer, and the number of bytes read or the error.  The
    waker is pushed before the flag is tried; a flag held by another reader means
    waiting. *)
Definition File_read (f : File Part W) (len : Z) : M S (File Part W * list Z * result Z FatError) :=
  ok ← answer;
  if ok : bool then
    if held (seek f) then ub "waiting for another reader of the file"
    else
      r ← read_loop (Z.to_nat len) (file_fs f) (inner (seek f)) len;
      let wakers := waker :: waiting (seek f) in
      _ ← for_each wake wakers;
      mret (File_ (file_fs f) (file_dirent f) (AsyncCell_ false [] r.1.1), r.1.2,
            map_ok (fun _ => Z.of_nat (length r.1.2)) r.2)
  else mret (f, [], Err FatMemoryExhausted).
End fat.

(** ** Sectors, links and chains of a working volume *)

Lemma zrange_S first count : 0 <= count -> zrange first (count + 1) = first :: zrange (first + 1) count.
Proof.
  intros Hc. unfold zrange. replace (Z.to_nat (count + 1)) with (Datatypes.S (Z.to_nat count)) by lia.
  cbn [seq fmap list_fmap]. rewrite Z.add_0_r. f_equal. rewrite <- fmap_S_seq, <- list_fmap_compose.
  apply list_fmap_ext. intros i x _. unfold compose. lia.
Qed.

Lemma zrange_drop first count i : 0 <= i <= count ->
  drop (Z.to_nat i) (zrange first count) = zrange (first + i) (count - i).
Proof.
  intros Hi. unfold zrange. rewrite <- fmap_drop, skipn_seq.
  replace (Z.to_nat count - Z.to_nat i)%nat with (Z.to_nat (count - i)) by lia.
  replace (0 + Z.to_nat i)%nat with (Z.to_nat i + 0)%nat by lia.
  rewrite <- fmap_add_seq, <- list_fmap_compose. apply list_fmap_ext. intros j x _. unfold compose. lia.
Qed.

Lemma length_zrange first count : length (zrange first count) = Z.to_nat count.
Proof. unfold zrange. by rewrite length_fmap, length_seq. Qed.

Lemma zrange_nil first : zrange first 0 = [].
Proof. done. Qed.

Section volume.
Context {S Part : Type} {B : BlockDevice S Part} (p : profile).
Context (fs : Filesystem Part) (sect : Z -> list Z) (dsize : Z) (ready : S -> Prop) (touched : S -> S -> Prop).
Context {L : BlockDeviceLaws B (part fs) sect dsize ready touched}.
#[local] Abbreviation b := (bpb fs) (only parsing).

(** The geometry of the volume fits the partition. *)
Record geometry : Prop := {
  geo_reserved : 0 <= reserved_sector_count b;
  geo_fats : 0 <= fat_count b < 256;
  geo_fat : 0 <= sectors_per_fat b < 65536;
  geo_fat_inside : reserved_sector_count b + sectors_per_fat b <= dsize;
  geo_root : 0 <= root_directory_entry_count b < 65536;
  geo_cluster : 0 < bpb_sectors_per_cluster b < 256
}.
Context (G : geometry).

Definition clusters_base : Z := first_root_dir_sector b + root_dir_sector_count b.
Definition cluster_first (c : Z) : Z := clusters_base + (c - 2) * sectors_per_cluster b.

(** The entry of a cluster in the first FAT. *)
Definition link (c : Z) : Z := u16_at (sect (first_fat_sector b + c * 2 / 512)) (Z.to_nat (c * 2 mod 512)).
Definition linked (c : Z) : option Z := if 0xfff8 <=? link c then None else Some (link c).

(** A cluster in the FAT whose entry is not the bad-cluster mark. *)
Definition in_fat (c : Z) : Prop := 0 <= c < fat_sector_count b * 256 /\ link c <> 0xfff7.

(** A chain of clusters with their sectors on the partition. *)
Inductive chain : option Z -> list Z -> Prop :=
| chain_end : chain None []
| chain_link c cs : in_fat c -> 2 <= c -> cluster_first c + sectors_per_cluster b <= dsize ->
    chain (linked c) cs -> chain (Some c) (c :: cs).

Definition chain_sectors (cs : list Z) : list Z :=
  cs ≫= (fun c => zrange (cluster_first c) (sectors_per_cluster b)).

Definition data (ls : list Z) : list Z := ls ≫= sect.

Lemma read_sector_run l s : ready s -> 0 <= l < dsize ->
  wp (read_sector fs l) (fun r s' => r = Ok (sect l) /\ ready s' /\ touched s s') s.
Proof using All.
  intros Hr Hl. unfold read_sector. wp_step.
  destruct (dev_reads l 1 s) as (s' & E & H1 & H2); [done|lia|lia|lia|lia|].
  eapply wp_run; [exact E|]. cbv beta iota. wp_step. cbn. by rewrite Z.add_0_r.
Qed.

Lemma next_cluster_run c s : ready s -> in_fat c ->
  wp (next_cluster fs c) (fun r s' => r = Ok (linked c) /\ ready s' /\ touched s s') s.
Proof using All.
  intros Hr [Hc Hb]. destruct G. unfold fat_sector_count in Hc. unfold next_cluster, fat_sector_count, SECTOR_SIZE.
  replace (sectors_per_fat b * 512 / 2) with (sectors_per_fat b * 256) by zdiv.
  rewrite (proj2 (Z.leb_gt _ _)) by lia. cbv zeta. wp_step.
  wp_call (read_sector_run (first_fat_sector b + c * 2 / 512) s Hr); [|unfold first_fat_sector; zdiv].
  intros r s' (-> & H). fold (link c).
  unfold linked. destruct (0xfff8 <=? link c); [by wp_step|].
  rewrite (proj2 (Z.eqb_neq _ _)) by done. by wp_step.
Qed.

Lemma base_nonneg : 0 <= clusters_base < 2 ^ 40.
Proof using All.
  destruct G. unfold clusters_base, first_root_dir_sector, first_fat_sector, all_fats_sector_count,
    fat_sector_count, root_dir_sector_count, DIR_ENTRY_SIZE, SECTOR_SIZE.
  pose proof (dev_size : dsize <= 0x00ffffff). change (2 ^ 40) with 1099511627776. 
  assert (0 <= fat_count b * sectors_per_fat b <= 255 * 65535) by nia. zdiv.
Qed.

Lemma first_cluster_sector_run c : 2 <= c < 2 ^ 24 -> first_cluster_sector p b c = Ret (cluster_first c).
Proof using All.
  change (2 ^ 24) with 16777216. intros Hc. pose proof base_nonneg as Hb. change (2 ^ 40) with 1099511627776 in Hb.
  destruct G as [_ _ _ _ _ Hk]. unfold first_cluster_sector, u64_sub, u64_mul, u64_add, sectors_per_cluster.
  rewrite arith_exact by (u64; lia). cbn [mbind outcome_bind].
  assert (0 <= (c - 2) * bpb_sectors_per_cluster b <= 16777216 * 256) by nia.
  rewrite arith_exact by (u64; lia). cbn [mbind outcome_bind].
  rewrite arith_exact; [done|]. fold clusters_base. u64. lia.
Qed.

(** *** Positions in a chain *)

(** The sectors from the position on, and what is left to read. *)
Definition sectors_left (sk : Seek) (cs : list Z) : list Z := drop (Z.to_nat (sector sk)) (chain_sectors cs).
Definition bytes_left (sk : Seek) (cs : list Z) : list Z :=
  drop (Z.to_nat (offset sk)) (data (sectors_left sk cs)).

Definition seek_ok (sk : Seek) (cs : list Z) : Prop :=
  chain (cluster sk) cs /\ 0 <= sector sk < sectors_per_cluster b /\ 0 <= offset sk <= 512.

Lemma chain_sectors_cons c cs :
  chain_sectors (c :: cs) = zrange (cluster_first c) (sectors_per_cluster b) ++ chain_sectors cs.
Proof using Type. done. Qed.

Lemma chain_cons c cs : chain (Some c) cs -> exists cs', cs = c :: cs' /\ in_fat c /\ 2 <= c /\
  cluster_first c + sectors_per_cluster b <= dsize /\ chain (linked c) cs'.
Proof using Type. inversion 1; subst. eauto 10. Qed.

Lemma chain_None cs : chain None cs -> cs = [].
Proof using Type. by inversion 1. Qed.

Lemma cluster_small c : in_fat c -> c < 2 ^ 24.
Proof using All.
  intros [Hc _]. destruct G as [_ _ Hf _ _ _]. unfold fat_sector_count in Hc. change (2 ^ 24) with 16777216. lia.
Qed.

Lemma cluster_first_nonneg c : 2 <= c -> 0 <= cluster_first c.
Proof using All.
  intros Hc. pose proof base_nonneg. destruct G as [_ _ _ _ _ Hk]. unfold cluster_first, sectors_per_cluster. nia.
Qed.

(** The sectors of a chain, from a sector of its first cluster on. *)
Lemma sectors_left_cons c cs i o : 0 <= i < sectors_per_cluster b ->
  sectors_left (Seek_ (Some c) i o) (c :: cs) =
    (cluster_first c + i) :: (if i + 1 =? sectors_per_cluster b then chain_sectors cs
                              else sectors_left (Seek_ (Some c) (i + 1) 0) (c :: cs)).
Proof using Type.
  intros Hi. unfold sectors_left. cbn [sector]. rewrite chain_sectors_cons.
  rewrite drop_app_le by (rewrite length_zrange; lia). rewrite zrange_drop by lia.
  replace (sectors_per_cluster b - i) with ((sectors_per_cluster b - (i + 1)) + 1) by lia.
  rewrite zrange_S by lia. cbn [app]. f_equal.
  destruct (Z.eqb_spec (i + 1) (sectors_per_cluster b)) as [He|Hne].
  - by replace (sectors_per_cluster b - (i + 1)) with 0 by lia.
  - rewrite drop_app_le by (rewrite length_zrange; lia). rewrite zrange_drop by lia. by rewrite Z.add_assoc.
Qed.

Lemma sector_in c i : 2 <= c -> cluster_first c + sectors_per_cluster b <= dsize ->
  0 <= i < sectors_per_cluster b -> 0 <= cluster_first c + i < dsize.
Proof using All. intros Hc Hin Hi. pose proof (cluster_first_nonneg c Hc). lia. Qed.

Lemma data_cons l ls : data (l :: ls) = sect l ++ data ls.
Proof using Type. done. Qed.

Lemma length_sect l : 0 <= l < dsize -> length (sect l) = 512%nat.
Proof using All. intros Hl. by apply dev_sector. Qed.

Lemma bytes_left_end sk : bytes_left sk [] = [].
Proof using Type. unfold bytes_left, sectors_left. cbn. rewrite drop_nil. cbn. by rewrite drop_nil. Qed.

(** The head of the loop: the position it leaves is inside a sector, or at the end. *)
Lemma head_run sk cs s : ready s -> seek_ok sk cs ->
  wp (step_sector fs (step_offset sk)) (fun r s' => exists cs', r.2 = Ok tt /\ seek_ok r.1 cs' /\
    (cluster r.1 <> None -> offset r.1 < 512) /\
    bytes_left r.1 cs' = bytes_left sk cs /\ ready s' /\ touched s s') s.
Proof using All.
  intros Hr (Hc & Hs & Ho). pose proof (dev_touched : PreOrder touched).
  unfold step_offset, SECTOR_SIZE. destruct (Z.eqb_spec (offset sk) 512) as [He|Hne].
  2:{ unfold step_sector. rewrite (proj2 (Z.eqb_neq _ _)) by lia. wp_step. exists cs. cbn.
      split; [done|]. split; [done|]. split; [lia|]. done. }
  destruct sk as [[c|] i o]; cbn in *; subst o.
  2:{ apply chain_None in Hc as ->. unfold step_sector. cbn. destruct (Z.eqb_spec (i + 1) (sectors_per_cluster b)).
      - wp_step. exists []. cbn. split; [done|]. split; [split; [constructor|cbn; lia]|]. split; [done|].
        split; [|done]. by rewrite !bytes_left_end.
      - wp_step. exists []. cbn. split; [done|]. split; [split; [constructor|cbn; lia]|]. split; [done|].
        split; [|done]. by rewrite !bytes_left_end. }
  apply chain_cons in Hc as (cs' & -> & Hf & H2 & Hin & Hch).
  assert (bytes_left (Seek_ (Some c) i 512) (c :: cs') =
    data (if i + 1 =? sectors_per_cluster b then chain_sectors cs' else sectors_left (Seek_ (Some c) (i + 1) 0) (c :: cs'))) as Hb.
  { unfold bytes_left. rewrite sectors_left_cons by lia. cbn [offset]. rewrite data_cons.
    rewrite drop_app_length'; [done|]. rewrite length_sect by (by apply sector_in). done. }
  rewrite Hb. clear Hb. unfold step_sector. cbn [sector cluster offset].
  destruct (Z.eqb_spec (i + 1) (sectors_per_cluster b)).
  - wp_step. wp_call (next_cluster_run c s Hr Hf). intros r s' (-> & Hr' & Ht). wp_step. cbn [fst snd].
    exists cs'. split; [done|]. split; [split; [done|cbn; lia]|]. split; [cbn; lia|]. done.
  - wp_step. cbn [fst snd]. exists (c :: cs'). split; [done|].
    split; [split; [by constructor|cbn; lia]|]. split; [cbn; lia|]. done.
Qed.

(** What a turn of the loop takes from the position it is at. *)
Lemma bytes_left_split c cs i o k : 2 <= c -> cluster_first c + sectors_per_cluster b <= dsize ->
  0 <= i < sectors_per_cluster b -> 0 <= o -> 0 <= k <= 512 - o ->
  take (Z.to_nat k) (drop (Z.to_nat o) (sect (cluster_first c + i))) =
    take (Z.to_nat k) (bytes_left (Seek_ (Some c) i o) (c :: cs)) /\
  bytes_left (Seek_ (Some c) i (o + k)) (c :: cs) = drop (Z.to_nat k) (bytes_left (Seek_ (Some c) i o) (c :: cs)).
Proof using All.
  intros H2 Hin Hi Ho Hk. unfold bytes_left. cbn [offset].
  change (sectors_left (Seek_ (Some c) i (o + k)) (c :: cs)) with (sectors_left (Seek_ (Some c) i o) (c :: cs)).
  rewrite sectors_left_cons by lia. rewrite data_cons.
  pose proof (length_sect _ (sector_in c i H2 Hin Hi)) as Hlen. split.
  - rewrite drop_app_le by lia. rewrite take_app_le; [done|]. rewrite length_drop. lia.
  - rewrite drop_drop. f_equal. lia.
Qed.

Lemma read_loop_spec turns sk cs len s : ready s -> seek_ok sk cs -> 0 <= len <= Z.of_nat turns ->
  wp (read_loop p turns fs sk len) (fun r s' => exists cs', r.2 = Ok tt /\
    r.1.2 = take (Z.to_nat len) (bytes_left sk cs) /\ seek_ok r.1.1 cs' /\
    bytes_left r.1.1 cs' = drop (Z.to_nat len) (bytes_left sk cs) /\ ready s' /\ touched s s') s.
Proof using All.
  pose proof (dev_touched : PreOrder touched).
  revert sk cs len s. induction turns as [|turns IH]; intros sk cs len s Hr Hk Hlen; cbn [read_loop].
  all: destruct (Z.leb_spec len 0);
    [wp_step; exists cs; replace (Z.to_nat len) with 0%nat by lia; by rewrite drop_0, take_0|].
  { lia. }
  wp_step. wp_call (head_run sk cs s Hr Hk). intros [sk1 r1] s1 (cs1 & Hok & Hk1 & Hoff & Hb & Hr1 & Ht1).
  cbn [fst snd] in *. subst r1. rewrite <- Hb. clear Hb Hk sk cs. destruct sk1 as [[c|] i o]; cbn [cluster].
  2:{ wp_step. exists cs1. destruct Hk1 as (Hc & ? & ?). apply chain_None in Hc as ->. cbn.
      rewrite !bytes_left_end, drop_nil, firstn_nil.
      split; [done|]. split; [done|]. split; [split; [constructor|done]|]. done. }
  destruct Hk1 as (Hc & Hi & Ho). apply chain_cons in Hc as (cs & -> & Hf & H2 & Hin & Hch). cbn [sector offset] in *.
  pose proof (sector_in c i H2 Hin Hi). pose proof (cluster_small c Hf).
  assert (dsize <= 0x00ffffff) by exact dev_size. specialize (Hoff ltac:(done)).
  wp_step. eapply wp_run; [unfold lift; by rewrite first_cluster_sector_run by lia|].
  wp_step. eapply wp_run; [unfold lift, u64_add; by rewrite arith_exact by (u64; lia)|].
  wp_step. wp_call (read_sector_run (cluster_first c + i) s1 Hr1); [|lia].
  intros r s2 (-> & Hr2 & Ht2). wp_step. wp_step. unfold SECTOR_SIZE.
  eapply wp_run; [unfold lift, u64_sub; by rewrite arith_exact by (u64; lia)|]. wp_step. cbn [sector offset].
  set (k := Z.min (512 - o) len). destruct (bytes_left_split c cs i o k) as [Htake Hdrop]; [done..|lia|lia|].
  wp_step. wp_call (IH (Seek_ (Some c) i (o + k)) (c :: cs)); [|done| |lia].
  2:{ split; [by constructor|cbn; lia]. }
  intros [[sk' bs] r'] s3 (cs' & Hok & Hbs & Hk' & Hb' & Hr3 & Ht3). cbn [fst snd] in *. subst r' bs.
  wp_step. exists cs'. cbn [fst snd]. rewrite Hb', Hdrop, Htake, !drop_drop.
  replace (Z.to_nat k + Z.to_nat (len - k))%nat with (Z.to_nat len) by lia.
  split; [done|]. split.
  { replace (Z.to_nat len) with (Z.to_nat k + Z.to_nat (len - k))%nat by lia. by rewrite take_take_drop. }
  split; [done|]. split; [done|]. split; [done|]. by do 2 (etransitivity; [eassumption|]).
Qed.
End volume.

(** ** A directory on the disk

    The form FAT gives a directory entry, and the names it stands for. *)

Definition encode_entry (e : RawDirEntry) : list Z :=
  basename e ++ extension e ++ [raw_attributes e; reserved e; create_tenths e] ++
  le16 (create_time e) ++ le16 (create_date e) ++ le16 (access_date e) ++ le16 (cluster_hi e) ++
  le16 (modify_time e) ++ le16 (modify_date e) ++ le16 (cluster_lo e) ++ le32 (size e).

Record entry_wf (e : RawDirEntry) : Prop := {
  wf_base : length (basename e) = 8%nat;
  wf_ext : length (extension e) = 3%nat;
  wf_fields : Forall (fun v => 0 <= v < 65536)
    [create_time e; create_date e; access_date e; cluster_hi e; modify_time e; modify_date e; cluster_lo e];
  wf_size : 0 <= size e < 2 ^ 32
}.

(** The sector [l] holds the sixteen entries [es]. *)
Definition holds_entries (sect : Z -> list Z) (l : Z) (es : list RawDirEntry) : Prop :=
  length es = 16%nat /\ Forall entry_wf es /\ sect l = concat (encode_entry <$> es).

(** The first byte of an entry on the disk: 0 ends the directory; [0xef] is taken for the
    mark of a deleted entry. *)
Definition ends (e : RawDirEntry) : Prop := head (encode_entry e) = Some 0.
Definition deleted (e : RawDirEntry) : Prop := head (encode_entry e) = Some 0xef.

(** [n] is the name of an entry: the base name without the spaces it is padded with and,
    unless the extension begins with a space, a dot and the extension without its padding,
    in lower case. *)
Definition name_of (e : RawDirEntry) (n : list Z) : Prop :=
  exists base i, basename e = base ++ repeat 32 i /\ last base <> Some 32 /\
    (head (extension e) = Some 32 /\ n = to_ascii_lowercase <$> base \/
     head (extension e) <> Some 32 /\ exists ext j, extension e = ext ++ repeat 32 j /\ last ext <> Some 32 /\
       n = (to_ascii_lowercase <$> base) ++ [46] ++ (to_ascii_lowercase <$> ext)).

Lemma fst8 {A} (l : list A) : length l = 8%nat -> exists a b c d e f g h, l = [a; b; c; d; e; f; g; h].
Proof. intros H. do 9 (destruct l as [|? l]; try discriminate H). repeat eexists. Qed.
Lemma fst3 {A} (l : list A) : length l = 3%nat -> exists a b c, l = [a; b; c].
Proof. intros H. do 4 (destruct l as [|? l]; try discriminate H). repeat eexists. Qed.

Lemma u16_le16 lo hi v : 0 <= v < 65536 -> lo = v mod 256 -> hi = v / 256 -> lo + 256 * hi = v.
Proof. intros Hv -> ->. zdiv. Qed.

Lemma decode_encode e : entry_wf e -> decode_entry (encode_entry e) = e.
Proof.
  intros [Hb Hx Hf Hs]. destruct e as [bn ex ra re ct tm dt ad ch mt md cl sz]. cbn in *.
  destruct (fst8 _ Hb) as (b0 & b1 & b2 & b3 & b4 & b5 & b6 & b7 & ->), (fst3 _ Hx) as (x0 & x1 & x2 & ->).
  repeat (apply Forall_cons in Hf as [? Hf]). unfold decode_entry, encode_entry. cbn -[Z.modulo Z.div Z.add Z.mul].
  f_equal; try (by eapply u16_le16). unfold u32_at, u16_at, u8_at. cbn -[Z.modulo Z.div Z.add Z.mul].
  change (2 ^ 32) with 4294967296 in Hs. zdiv.
Qed.

Lemma length_encode e : entry_wf e -> length (encode_entry e) = 32%nat.
Proof. intros [Hb Hx _ _]. unfold encode_entry, le32, le16. rewrite !length_app, Hb, Hx. done. Qed.

Lemma entries_decode es k : Forall entry_wf es -> (length es = k)%nat ->
  (fun i => decode_entry (take 32 (drop (32 * i) (concat (encode_entry <$> es))))) <$> seq 0 k = es.
Proof.
  revert k. induction es as [|e es IH]; intros k Hwf <-; [done|]. apply Forall_cons in Hwf as [He Hes].
  cbn [length seq fmap list_fmap concat]. pose proof (length_encode e He) as Hl. f_equal.
  - rewrite drop_0, take_app_length' by done. by apply decode_encode.
  - rewrite <- fmap_S_seq, <- list_fmap_compose. rewrite <- (IH _ Hes eq_refl) at 2.
    apply list_fmap_ext. intros _ i _. unfold compose. replace (32 * Datatypes.S i)%nat with (32 + 32 * i)%nat by lia.
    rewrite <- drop_drop, drop_app_length' by done. done.
Qed.

Lemma sector_entries sect l es : holds_entries sect l es -> raw_entries_of (sect l) = es.
Proof. intros (Hl & Hwf & ->). by apply entries_decode. Qed.

Lemma lower_space c : to_ascii_lowercase c = 32 <-> c = 32.
Proof. unfold to_ascii_lowercase. destruct (Z.leb_spec 65 c), (Z.leb_spec c 90); cbn; lia. Qed.

Lemma length_skip_spaces l : (length (skip_spaces l) <= length l)%nat.
Proof. induction l as [|c l IH]; cbn; [lia|]. destruct (c =? 32); cbn; lia. Qed.
Lemma length_trim_spaces l : (length (trim_spaces l) <= length l)%nat.
Proof. unfold trim_spaces. rewrite length_rev. etransitivity; [apply length_skip_spaces|]. by rewrite length_rev. Qed.

Lemma trim_spaces_no_trailing l : last (trim_spaces l) <> Some 32.
Proof.
  unfold trim_spaces. induction (rev l) as [|c r IH]; [done|]. cbn [skip_spaces].
  destruct (Z.eqb_spec c 32); [done|]. cbn [rev]. rewrite last_snoc. congruence.
Qed.

Lemma trim_spaces_app l c : c <> 32 -> trim_spaces (l ++ [c]) = l ++ [c].
Proof.
  intros Hc. unfold trim_spaces. rewrite rev_app_distr. cbn [rev app skip_spaces].
  rewrite (proj2 (Z.eqb_neq _ _)) by done. cbn [rev]. by rewrite rev_involutive.
Qed.

(** Trimming: what is left is the unique prefix that is followed by spaces only and does not
    end in one. *)
Lemma trim_spaces_padded p k : last p <> Some 32 -> trim_spaces (p ++ repeat 32 k) = p.
Proof.
  intros Hp. unfold trim_spaces. rewrite rev_app_distr, rev_repeat.
  assert (skip_spaces (repeat 32 k ++ rev p) = rev p) as ->; [|apply rev_involutive].
  induction k as [|k IH]; [|done]. cbn [repeat app].
  destruct p as [|c p _] using rev_ind; [done|]. rewrite rev_app_distr. cbn [rev app skip_spaces].
  rewrite last_snoc in Hp. rewrite (proj2 (Z.eqb_neq _ _)) by congruence. done.
Qed.
Lemma padded l : exists p k, l = p ++ repeat 32 k /\ last p <> Some 32.
Proof.
  induction l as [|c l IH] using rev_ind; [by exists [], 0%nat|]. destruct (decide (c = 32)) as [->|Hc].
  - destruct IH as (p & k & -> & Hp). exists p, (S k). split; [|done].
    rewrite <- app_assoc. f_equal. by rewrite <- repeat_cons.
  - exists (l ++ [c]), 0%nat. rewrite app_nil_r, last_snoc. split; [done|congruence].
Qed.
Lemma lower_repeat k : to_ascii_lowercase <$> repeat 32 k = repeat 32 k.
Proof. induction k as [|k IH]; [done|]. cbn. by rewrite IH. Qed.
Lemma lower_last l : last l <> Some 32 -> last (to_ascii_lowercase <$> l) <> Some 32.
Proof. rewrite fmap_last. destruct (last l) as [c|]; [|done]. intros Hl [= Hc]. apply Hl. f_equal. by apply lower_space. Qed.

(** The code's name of an entry is the name of the entry. *)
Lemma filename_name e n : filename e = n <-> name_of e n.
Proof.
  assert (forall base i, basename e = base ++ repeat 32 i -> last base <> Some 32 ->
    trim_spaces (to_ascii_lowercase <$> basename e) = to_ascii_lowercase <$> base) as Hbase.
  { intros base i -> Hl. rewrite fmap_app, lower_repeat. apply trim_spaces_padded. by apply lower_last. }
  assert (u8_at (extension e) 0 = 32 <-> head (extension e) = Some 32) as Hhd.
  { unfold u8_at. destruct (extension e); cbn; [done|]. split; congruence. }
  assert (forall base ext j, extension e = ext ++ repeat 32 j -> last ext <> Some 32 ->
    trim_spaces ((to_ascii_lowercase <$> base) ++ [46] ++ (to_ascii_lowercase <$> extension e)) =
    (to_ascii_lowercase <$> base) ++ [46] ++ (to_ascii_lowercase <$> ext)) as Hext.
  { intros base ext j -> Hl. rewrite fmap_app, lower_repeat, !app_assoc, <- (app_assoc _ [46]). rewrite <- app_assoc.
    rewrite (app_assoc _ (_ ++ _)). apply trim_spaces_padded. rewrite app_assoc. apply lower_last in Hl. revert Hl.
    destruct (to_ascii_lowercase <$> ext) as [|c l _] using rev_ind; intros Hl; [by rewrite app_nil_r, last_snoc|].
    rewrite app_assoc, last_snoc. by rewrite last_snoc in Hl. }
  unfold filename. split.
  - intros <-. destruct (padded (basename e)) as (base & i & Hb & Hl). exists base, i. split; [done|]. split; [done|].
    rewrite (Hbase base i) by done. destruct (Z.eqb_spec (u8_at (extension e) 0) 32) as [Hu|Hu]; cbn [negb].
    + left. split; [by apply Hhd|done].
    + right. split; [by intros ?%Hhd|]. destruct (padded (extension e)) as (ext & j & Hx & Hlx). exists ext, j.
      split; [done|]. split; [done|]. by eapply Hext.
  - intros (base & i & Hb & Hl & Hx). rewrite (Hbase base i) by done. destruct Hx as [[Hh ->]|(Hh & ext & j & He & Hlx & ->)].
    + by rewrite (proj2 Hhd Hh).
    + rewrite (proj2 (Z.eqb_neq _ _)) by (by intros ?%Hhd). by eapply Hext.
Qed.

(** *** Searching a list of entries *)

Section search.
Context {A : Type} (live not_end g : A -> bool) (Hlive : forall x, live x = false -> not_end x = true).

(** [x] is reached in [l] after [before]: nothing up to it ends the list. *)
Definition reached (l before : list A) (x : A) : Prop :=
  exists after, l = before ++ x :: after /\ forall y, y ∈ before ++ [x] -> not_end y = true.

Lemma reached_cons y l before x : not_end y = true -> reached l before x -> reached (y :: l) (y :: before) x.
Proof using Type. intros Hy (after & -> & H). exists after. split; [done|]. by intros z [->|Hz]%elem_of_cons; [|apply H]. Qed.

Lemma reached_inv y l before x : reached (y :: l) before x ->
  (before = [] /\ x = y /\ not_end y = true) \/ exists b, before = y :: b /\ not_end y = true /\ reached l b x.
Proof using Type.
  intros (after & Heq & H). destruct before as [|z b]; cbn in Heq; injection Heq as <- Hl.
  - left. split; [done|]. split; [done|]. apply H. left.
  - right. exists b. split; [done|]. split; [apply H; left|]. exists after. split; [done|]. intros w Hw. apply H. by right.
Qed.

Lemma elem_of_listed l x : x ∈ prefix_while not_end (List.filter live l) -> exists before, reached l before x /\ live x = true.
Proof using Hlive.
  induction l as [|y l IH]; cbn; [by intros ?%elem_of_nil|]. destruct (live y) eqn:Hy; cbn.
  - destruct (not_end y) eqn:Hn; [|by intros ?%elem_of_nil]. intros [->|Hx]%elem_of_cons.
    + exists []. split; [|done]. exists l. split; [done|]. by intros z ->%list_elem_of_singleton.
    + destruct (IH Hx) as (b & Hr & Hl). exists (y :: b). split; [by apply reached_cons|done].
  - intros Hx. destruct (IH Hx) as (b & Hr & Hl). exists (y :: b). split; [|done]. apply reached_cons; [by apply Hlive|done].
Qed.

Lemma find_listed l : match List.find g (prefix_while not_end (List.filter live l)) with
  | Some x => exists before, reached l before x /\ live x = true /\ g x = true /\
      forall y, y ∈ before -> live y = false \/ g y = false
  | None => forall before x, reached l before x -> live x = false \/ g x = false
  end.
Proof using Hlive.
  induction l as [|y l IH]; cbn.
  { intros before x (after & H & _). by destruct before. }
  destruct (live y) eqn:Hy; cbn.
  - destruct (not_end y) eqn:Hn; cbn.
    + destruct (g y) eqn:Hg.
      * exists []. split; [|by split_and!; [..|intros z ?%elem_of_nil]]. exists l. split; [done|]. by intros z ->%list_elem_of_singleton.
      * destruct (List.find g _) as [x|].
        -- destruct IH as (b & Hr & Hx & Hgx & Hb). exists (y :: b). split_and!; [by apply reached_cons|done..|].
           intros z [->|Hz]%elem_of_cons; [by right|by apply Hb].
        -- intros before x [(-> & -> & _)|(b & -> & _ & Hr)]%reached_inv; [by right|by eapply IH].
    + intros before x [(_ & _ & ?)|(b & _ & ? & _)]%reached_inv; congruence.
  - destruct (List.find g _) as [x|].
    + destruct IH as (b & Hr & Hx & Hgx & Hb). exists (y :: b). split_and!; [apply reached_cons; [by apply Hlive|done]|done..|].
      intros z [->|Hz]%elem_of_cons; [by left|by apply Hb].
    + intros before x [(-> & -> & _)|(b & -> & _ & Hr)]%reached_inv; [by left|by eapply IH].
Qed.
End search.

(** ** What a directory holds *)

Section directory.
Context {S Part : Type} {B : BlockDevice S Part} {C : Streams S} {CL : StreamsLaws C}.
Context (answer : M S bool) (p : profile) (fuel : nat).
Context (fs : Filesystem Part) (sect : Z -> list Z) (dsize : Z) (ready : S -> Prop) (touched : S -> S -> Prop).
Context {L : BlockDeviceLaws B (part fs) sect dsize ready touched} (G : geometry fs dsize).
Context (Hanswer : gives ready touched answer true).      (* allocations succeed *)
#[local] Abbreviation b := (bpb fs) (only parsing).
#[local] Instance touched_preorder : PreOrder touched := dev_touched.

(** The entries up to the end mark, without the deleted ones. *)
Definition live (e : RawDirEntry) : bool := negb (u8_at (basename e) 0 =? 0xef).
Definition not_end (e : RawDirEntry) : bool := negb (u8_at (basename e) 0 =? 0).
Definition listed (ls : list Z) : list RawDirEntry :=
  prefix_while not_end (List.filter live (concat (raw_entries_of <$> (sect <$> ls)))).

Definition parent_of (d : Directory Part) : option (DirEntry Part) :=
  match kind d with Root => None | Sub e => Some e end.
Definition listing (d : Directory Part) (ls : list Z) : list (DirEntry Part) :=
  DirEntry_ (dir_fs d) (parent_of d) <$> listed ls.

(** The sectors the code reads the entries of a directory from: all of the root
    directory; for another one, those of every cluster of its chain but the last. *)
Inductive read_from (d : Directory Part) : list Z -> Prop :=
| read_root : kind d = Root -> read_from d (zrange (first_root_dir_sector b) (root_dir_sector_count b))
| read_sub e cs : kind d = Sub e -> chain fs sect dsize (Some (first_cluster (dirent e))) cs ->
    read_from d (chain_sectors fs (removelast cs)).

Lemma wp_gives {A} (m : M S A) a :
  (forall s, ready s -> wp m (fun r s' => r = a /\ ready s' /\ touched s s') s) -> gives ready touched m a.
Proof using All.
  intros H s Hs. specialize (H s Hs). apply wp_iff in H as (r & s' & E & -> & H). by exists s'.
Qed.

Lemma read_sector_gives l : 0 <= l < dsize -> gives ready touched (read_sector fs l) (Ok (sect l)).
Proof using All. intros Hl. apply wp_gives. intros s Hs. by eapply read_sector_run. Qed.

Lemma cluster_chain_yields c cs : chain fs sect dsize (Some c) cs ->
  yields ready touched 0 (cluster_chain fs c) (removelast cs).
Proof using All.
  intros Hc. remember (Some c) as o eqn:Ho. revert c Ho. induction Hc as [|c0 cs Hf H2 Hin Hch IH]; [done|].
  intros c [= <-].
  assert (gives ready touched (next_cluster fs c0) (Ok (linked fs sect c0))) as Hn.
  { apply wp_gives. intros s Hs. by eapply (next_cluster_run p fs sect dsize). }
  destruct (linked fs sect c0) as [c'|] eqn:Hl.
  - assert (exists c2 cs', cs = c2 :: cs') as (c2 & cs' & ->) by (inversion Hch; subst; eauto).
    change (removelast (c0 :: c2 :: cs')) with (c0 :: removelast (c2 :: cs')).
    eapply yields_item; [|by apply IH]. intros m _. eapply (gives_ext ready touched); [intros; apply next_unfold|].
    cbv beta iota. eapply (gives_bind ready touched); [eapply (gives_bind ready touched); [exact Hn|apply (gives_ret ready touched)]|apply (gives_ret ready touched)].
  - inversion Hch; subst. cbn. apply yields_end. intros m _. eapply (gives_ext ready touched); [intros; apply next_unfold|].
    cbv beta iota. eapply (gives_bind ready touched); [eapply (gives_bind ready touched); [exact Hn|apply (gives_ret ready touched)]|apply (gives_ret ready touched)].
Qed.

Lemma chain_in o cs c : chain fs sect dsize o cs -> c ∈ cs ->
  in_fat fs sect c /\ 2 <= c /\ cluster_first fs c + sectors_per_cluster b <= dsize.
Proof using All.
  induction 1 as [|c0 cs Hf H2 Hin Hch IH]; [by intros ?%not_elem_of_nil|].
  intros [->|H]%elem_of_cons; [done|by apply IH].
Qed.

Lemma removelast_in {A} (x : A) l : x ∈ removelast l -> x ∈ l.
Proof using All.
  induction l as [|y [|z l] IH]; [done|by intros ?%not_elem_of_nil|].
  change (removelast (y :: z :: l)) with (y :: removelast (z :: l)).
  intros [->|H]%elem_of_cons; [by left|right; by apply IH].
Qed.

Lemma cluster_sectors_run c : in_fat fs sect c -> 2 <= c -> cluster_first fs c + sectors_per_cluster b <= dsize ->
  cluster_sectors p b c = Ret (zrange (cluster_first fs c) (sectors_per_cluster b)).
Proof using All.
  intros Hf H2 Hin. pose proof (cluster_small p fs sect dsize ready touched G c Hf) as Hs.
  unfold cluster_sectors. rewrite (first_cluster_sector_run p fs sect dsize ready touched G) by done.
  cbn [mbind outcome_bind].
  pose proof (cluster_first_nonneg p fs sect dsize ready touched G c H2).
  assert (dsize <= 0x00ffffff) by exact dev_size. destruct G as [_ _ _ _ _ Hk]. unfold sectors_per_cluster in *.
  unfold u64_add. rewrite arith_exact by (u64; lia). cbn [mbind outcome_bind].
  do 2 f_equal. lia.
Qed.

Lemma chain_sectors_concat cs :
  chain_sectors fs cs = concat ((fun c => zrange (cluster_first fs c) (sectors_per_cluster b)) <$> cs).
Proof using All. induction cs as [|c cs IH]; [done|]. cbn. by rewrite <- IH. Qed.

Lemma length_removelast_le {A} (l : list A) : (length (removelast l) <= length l)%nat.
Proof using All.
  induction l as [|x [|y l] IH]; [cbn; lia..|]. change (removelast (x :: y :: l)) with (x :: removelast (y :: l)).
  cbn [length] in *. lia.
Qed.

Lemma sector_chain_yields c cs : chain fs sect dsize (Some c) cs ->
  yields ready touched (length cs + 1) (sector_chain p fs c) (chain_sectors fs (removelast cs)).
Proof using All.
  intros Hc. pose proof (cluster_chain_yields c cs Hc) as Hy. unfold sector_chain.
  eapply (yields_and_then ready touched 0 _ (fun c => zrange (cluster_first fs c) (sectors_per_cluster b))) in Hy.
  - apply (yields_flatten ready touched) with (l := []) in Hy. rewrite length_fmap in Hy. cbn [app] in Hy.
    rewrite chain_sectors_concat. eapply yields_more; [|exact Hy].
    pose proof (length_removelast_le cs). lia.
  - intros x Hx%removelast_in. destruct (chain_in _ _ _ Hc Hx) as (Hf & H2 & Hin).
    eapply (gives_bind ready touched); [|apply (gives_ret ready touched)]. apply wp_gives. intros s Hs. unfold wp, lift.
    by rewrite cluster_sectors_run.
Qed.

Lemma raw_entries_yield d n ls : dir_fs d = fs ->
  yields ready touched n (directory_sectors p d) ls -> (forall l, l ∈ ls -> 0 <= l < dsize) ->
  yields ready touched (n + length ls + 1 + 16 * length ls + 1) (read_entries p d) (listed ls).
Proof using All.
  intros Hd Hy Hls. unfold read_entries, listed. rewrite Hd.
  apply (yields_map_err ready touched _ FatAta) in Hy.
  eapply (yields_and_then ready touched _ (read_raw_entries_from_sector fs) (fun l => raw_entries_of (sect l))) in Hy.
  2:{ intros l Hl. eapply (gives_bind ready touched); [apply read_sector_gives; by apply Hls|apply (gives_ret ready touched)]. }
  apply (yields_flatten ready touched) with (l := []) in Hy. rewrite length_fmap in Hy. cbn [app] in Hy.
  eapply (yields_filter ready touched _ (fun e => mret (live e)) live) in Hy.
  2:{ intros e _. apply (gives_ret ready touched). }
  eapply (yields_take_while ready touched) in Hy. rewrite <- list_fmap_compose.
  eapply yields_more; [|exact Hy].
  assert (length (concat ((fun l => raw_entries_of (sect l)) <$> ls)) = 16 * length ls)%nat as ->; [|lia].
  clear. induction ls as [|l ls IH]; [done|]. cbn [fmap list_fmap concat].
  rewrite length_app, IH. unfold raw_entries_of. rewrite length_fmap, length_seq. cbn [length]. lia.
Qed.

Lemma entries_yield d n ls : dir_fs d = fs ->
  yields ready touched n (directory_sectors p d) ls -> (forall l, l ∈ ls -> 0 <= l < dsize) ->
  yields ready touched (n + length ls + 1 + 16 * length ls + 1) (entries answer p d) (listing d ls).
Proof using All.
  intros Hd Hy Hls. apply (yields_and_then ready touched); [by apply raw_entries_yield|].
  intros e _. eapply (gives_bind ready touched); [exact Hanswer|]. apply (gives_ret ready touched).
Qed.

Lemma chain_sectors_in cs l : l ∈ chain_sectors fs cs ->
  exists c, c ∈ cs /\ cluster_first fs c <= l < cluster_first fs c + sectors_per_cluster b.
Proof using All.
  unfold chain_sectors. intros (c & Hl & Hc)%list_elem_of_bind. exists c. split; [done|].
  unfold zrange in Hl. apply list_elem_of_fmap in Hl as (i & -> & Hi%elem_of_seq). lia.
Qed.

(** The number of sectors a chain's listing is read from. *)
Lemma length_chain_sectors cs :
  length (chain_sectors fs cs) = (Z.to_nat (sectors_per_cluster b) * length cs)%nat.
Proof using All.
  induction cs as [|c cs IH]; [cbn; lia|]. rewrite chain_sectors_cons, length_app, length_zrange, IH. cbn [length]. lia.
Qed.

Context (root_inside : first_root_dir_sector b + root_dir_sector_count b <= dsize).

Lemma read_from_yields d ls : read_from d ls -> dir_fs d = fs ->
  yields ready touched (length ls + 2) (directory_sectors p d) ls /\ forall l, l ∈ ls -> 0 <= l < dsize.
Proof using All.
  intros Hr Hd. unfold directory_sectors. rewrite Hd. destruct Hr as [Hk|e cs Hk Hc]; rewrite Hk.
  - split; [eapply yields_more; [|apply (yields_iter ready touched)]; lia|]. intros l Hl.
    unfold zrange in Hl. apply list_elem_of_fmap in Hl as (i & -> & Hi%elem_of_seq).
    destruct G. unfold first_root_dir_sector, first_fat_sector, all_fats_sector_count, fat_sector_count in *. nia.
  - split.
    + eapply yields_more; [|by apply sector_chain_yields]. rewrite length_chain_sectors.
      destruct G as [_ _ _ _ _ Hk']. unfold sectors_per_cluster.
      assert (length cs <= length (removelast cs) + 1)%nat.
      { clear. induction cs as [|x [|y l] IH]; [cbn; lia..|].
        change (removelast (x :: y :: l)) with (x :: removelast (y :: l)). cbn [length] in *. lia. }
      nia.
    + intros l (c & Hcl%removelast_in & Hl)%chain_sectors_in.
      destruct (chain_in _ _ _ Hc Hcl) as (_ & H2 & Hin).
      pose proof (cluster_first_nonneg p fs sect dsize ready touched G c H2). lia.
Qed.

Lemma head_filter {A} (g : A -> bool) (l : list A) : head (List.filter g l) = List.find g l.
Proof using All. induction l as [|x l IH]; [done|]. cbn. by destruct (g x). Qed.

Lemma entry_search d ls wanted : dir_fs d = fs -> read_from d ls ->
  (34 * length ls + 8 <= fuel)%nat ->
  from_utf8 wanted = Ok tt -> (forall e, e ∈ listing d ls -> from_utf8 (name e) = Ok tt) ->
  gives ready touched (entry answer p fuel d wanted)
    (Ok (List.find (fun e => bool_decide (name e = wanted)) (listing d ls))).
Proof using All.
  intros Hd Hr Hfuel Hw Hnames. destruct (read_from_yields d ls Hr Hd) as [Hy Hin].
  apply entries_yield in Hy; [|done..]. unfold entry.
  eapply (yields_filter ready touched _ (is_named wanted) (fun e => bool_decide (name e = wanted))) in Hy.
  2:{ intros e He. unfold is_named. rewrite Hnames, Hw by done.
      do 2 (eapply (gives_bind ready touched); [apply (gives_ret ready touched)|]). apply (gives_ret ready touched). }
  rewrite <- head_filter. eapply (try_next_yields ready touched); [exact Hy|].
  assert (length (listing d ls) <= 16 * length ls)%nat; [|lia]. unfold listing, listed. rewrite length_fmap.
  etransitivity; [apply prefix_while_length|]. etransitivity; [apply filter_length_le|].
  clear. induction ls as [|l ls IH]; [done|]. cbn [fmap list_fmap concat].
  rewrite length_app. unfold raw_entries_of at 1. rewrite length_fmap, length_seq. cbn [length]. lia.
Qed.

(** The entries the sectors of a directory hold. *)
Lemma entries_of_sectors ls ess : Forall2 (holds_entries sect) ls ess ->
  concat (raw_entries_of <$> (sect <$> ls)) = concat ess.
Proof using Type. induction 1 as [|l es ls ess H _ IH]; [done|].
  change (raw_entries_of (sect l) ++ concat (raw_entries_of <$> (sect <$> ls)) = es ++ concat ess). by rewrite (sector_entries _ _ _ H), IH.
Qed.

Lemma entry_marks e : entry_wf e -> (live e = false <-> deleted e) /\ (not_end e = true <-> ~ ends e).
Proof using Type.
  intros [Hb _ _ _]. unfold live, not_end, deleted, ends, encode_entry. destruct (basename e) as [|c l]; [done|].
  unfold u8_at. cbn. split; split; intros H; zcases; cbn in *; try congruence; try done.
Qed.

(** [e] is an entry of the directory, after [before]: no entry up to it has the end mark. *)
Definition listed_after (recs before : list RawDirEntry) (e : RawDirEntry) : Prop :=
  exists after, recs = before ++ e :: after /\ forall x, x ∈ before ++ [e] -> ~ ends x.

Lemma listed_reached recs before e : Forall entry_wf recs -> reached not_end recs before e <-> listed_after recs before e.
Proof using All.
  intros Hwf. split; intros (after & Heq & H); exists after; (split; [done|]); intros x Hx.
  - apply entry_marks; [|by apply H]. rewrite Forall_forall in Hwf. apply Hwf. rewrite Heq. set_solver.
  - apply entry_marks; [|by apply H]. rewrite Forall_forall in Hwf. apply Hwf. rewrite Heq. set_solver.
Qed.

Lemma find_listing d ls wanted : List.find (fun e => bool_decide (name e = wanted)) (listing d ls) =
  DirEntry_ (dir_fs d) (parent_of d) <$> List.find (fun e => bool_decide (filename e = wanted)) (listed ls).
Proof using All.
  unfold listing. induction (listed ls) as [|e l IH]; [done|]. cbn. unfold name at 1. cbn.
  destruct (bool_decide (filename e = wanted)); [done|exact IH].
Qed.

(** C19: looking a name up in a directory whose sectors can be read and hold the entries
    [ess], sixteen to a sector in the form FAT gives them, while allocations succeed, ends,
    and finds the first entry of that name: an entry with no end mark up to it, not marked
    deleted, whose padded base name and extension make up the name in lower case, and no
    such entry before it; or it ends with none, and there is no such entry.  All sectors
    of the root directory are searched; of a subdirectory all those of every cluster of
    its chain but the last ([read_from]).  Names that are not UTF-8 are excluded: the code
    panics on them. *)
Theorem entry_finds_first d ls ess wanted : dir_fs d = fs -> read_from d ls -> Forall2 (holds_entries sect) ls ess ->
  (34 * length ls + 8 <= fuel)%nat -> from_utf8 wanted = Ok tt ->
  (forall before e n, listed_after (concat ess) before e -> ~ deleted e -> name_of e n -> from_utf8 n = Ok tt) ->
  exists found, gives ready touched (entry answer p fuel d wanted) (Ok found) /\
    match found with
    | Some x => exists before e, x = DirEntry_ fs (parent_of d) e /\ listed_after (concat ess) before e /\
        ~ deleted e /\ name_of e wanted /\ forall y, y ∈ before -> deleted y \/ ~ name_of y wanted
    | None => forall before e, listed_after (concat ess) before e -> deleted e \/ ~ name_of e wanted
    end.
Proof using All.
  intros Hd Hr Hes Hfuel Hw Hnames. set (recs := concat ess) in *.
  assert (Forall entry_wf recs) as Hwf.
  { unfold recs. clear -Hes. induction Hes as [|l es ls ess (_ & H & _) _ IH]; [constructor|]. cbn. by apply Forall_app. }
  assert (forall x, x ∈ recs -> entry_wf x) as Hwf' by (by apply Forall_forall).
  assert (listed ls = prefix_while not_end (List.filter live recs)) as Hls by (unfold listed; by rewrite (entries_of_sectors ls ess Hes)).
  assert (forall x, live x = false -> not_end x = true) as Hln.
  { unfold live, not_end. intros x. zcases; cbn; congruence. }
  assert (forall before e, listed_after recs before e -> e ∈ recs /\ forall y, y ∈ before -> y ∈ recs) as Hin.
  { intros before e (after & -> & _). set_solver. }
  eexists. split.
  - apply (entry_search d ls); [done..|]. intros x (e & -> & He)%list_elem_of_fmap. rewrite Hls in He.
    destruct (elem_of_listed live not_end Hln recs e He) as (b & Hre%listed_reached & Hlv); [|done].
    apply (Hnames b e); [done| |by apply filename_name].
    intros Hdl. apply (proj1 (entry_marks e (Hwf' e (proj1 (Hin b e Hre))))) in Hdl. congruence.
  - rewrite find_listing, Hls.
    pose proof (find_listed live not_end (fun e => bool_decide (filename e = wanted)) Hln recs) as H.
    destruct (List.find _ _) as [e|]; cbn.
    + destruct H as (b & Hre%listed_reached & Hlv & Hg%bool_decide_eq_true & Hb); [|done]. exists b, e.
      destruct (Hin b e Hre) as [He Hbs]. split_and!; [by rewrite Hd|done| |by apply filename_name|].
      * intros Hdl. apply (proj1 (entry_marks e (Hwf' e He))) in Hdl. congruence.
      * intros y Hy. destruct (Hb y Hy) as [?|Hn%bool_decide_eq_false]; [left|right; by rewrite <- filename_name].
        by apply (proj1 (entry_marks y (Hwf' y (Hbs y Hy)))).
    + intros b e Hl. destruct (Hin b e Hl) as [He _]. apply listed_reached in Hl; [|done].
      destruct (H b e Hl) as [?|Hn%bool_decide_eq_false]; [left|right; by rewrite <- filename_name].
      by apply (proj1 (entry_marks e (Hwf' e He))).
Qed.

(** A directory that is not the root and fills one cluster, with no next one,
    looks empty: whatever its cluster holds, no name is found in it. *)
Theorem one_cluster_directory_empty e c wanted d : d = Directory_ fs (Sub e) ->
  chain fs sect dsize (Some (first_cluster (dirent e))) [c] ->
  (8 <= fuel)%nat -> from_utf8 wanted = Ok tt ->
  gives ready touched (entry answer p fuel d wanted) (Ok None).
Proof using All.
  intros -> Hc Hfuel Hw. apply (entry_search (Directory_ fs (Sub e)) []); [done| |cbn; lia|done|].
  - exact (read_sub (Directory_ fs (Sub e)) e [c] eq_refl Hc).
  - intros x Hx. by apply not_elem_of_nil in Hx.
Qed.
End directory.

(** ** A file as a stream of bytes

    The abstract file: the bytes still to come.  A read takes them from the front. *)

Section reading.
Context {S Part W : Type} {B : BlockDevice S Part}.
Context (answer : M S bool) (p : profile) (waker : W) (wake : W -> M S unit).
Context (fs : Filesystem Part) (sect : Z -> list Z) (dsize : Z) (ready : S -> Prop) (touched : S -> S -> Prop).
Context {L : BlockDeviceLaws B (part fs) sect dsize ready touched} (G : geometry fs dsize).
Context (Hwake : forall w, gives ready touched (wake w) tt).
#[local] Instance touched_pre : PreOrder touched := dev_touched.

(** [f] is open on [fs] and [rest] is what is left of its clusters. *)
Definition file_holds (f : File Part W) (rest : list Z) : Prop :=
  file_fs f = fs /\ held (seek f) = false /\
  exists cs, seek_ok fs sect dsize (inner (seek f)) cs /\ bytes_left fs sect (inner (seek f)) cs = rest.

Lemma for_each_wake ws : gives ready touched (for_each wake ws) tt.
Proof using All.
  induction ws as [|w ws IH]; [apply (gives_ret ready touched)|].
  eapply (gives_bind ready touched); [apply Hwake|exact IH].
Qed.

Lemma File_read_ok f rest len s s0 : file_holds f rest -> 0 <= len ->
  answer s = Ret (true, s0) -> ready s0 -> touched s s0 ->
  exists f' s', File_read answer p waker wake f len s =
      Ret ((f', take (Z.to_nat len) rest, Ok (Z.min len (Z.of_nat (length rest)))), s') /\
    file_holds f' (drop (Z.to_nat len) rest) /\ file_dirent f' = file_dirent f /\ ready s' /\ touched s s'.
Proof using All.
  intros (Hf & Hh & cs & Hk & Hrest) Hlen Ha Hr0 Ht0.
  assert (wp (File_read answer p waker wake f len) (fun r s' =>
    r.1.2 = take (Z.to_nat len) rest /\ r.2 = Ok (Z.min len (Z.of_nat (length rest))) /\
    file_holds r.1.1 (drop (Z.to_nat len) rest) /\ file_dirent r.1.1 = file_dirent f /\ ready s' /\ touched s s') s) as H.
  { unfold File_read. wp_step. eapply wp_run; [exact Ha|]. rewrite Hh, Hf. wp_step.
    wp_call (read_loop_spec p fs sect dsize ready touched G (Z.to_nat len) (inner (seek f)) cs len s0 Hr0 Hk); [|lia].
    intros [[sk bs] r] s1 (cs' & Hok & Hbs & Hk' & Hb' & Hr1 & Ht1). cbn [fst snd] in *. subst r bs.
    destruct (for_each_wake (waker :: waiting (seek f)) s1 Hr1) as (s2 & E & Hr2 & Ht2).
    wp_step. eapply wp_run; [exact E|]. wp_step. cbn [fst snd map_ok]. rewrite Hrest in *.
    split; [done|]. split; [f_equal; rewrite length_take; lia|].
    split; [split; [done|]; split; [done|]; by exists cs'|]. split; [done|]. split; [done|].
    by do 2 (etransitivity; [eassumption|]). }
  apply wp_iff in H as ([[f' bs] r] & s' & E & Hbs & Hres & H). cbn [fst snd] in *. subst. by exists f', s'.
Qed.

(** C11: reading [len] bytes from a file whose clusters still hold the bytes [rest]
    ends, with the first [len] bytes of [rest] (all of it, if it is shorter) at the
    start of the buffer and their number as result, and leaves a file that holds the
    others, unlocked, whatever mixture of clusters, sectors and offsets the bytes
    span; only the device and the tasks that are woken are touched. *)
Theorem File_read_refines f rest len s s0 : file_holds f rest -> 0 <= len ->
  answer s = Ret (true, s0) -> ready s0 -> touched s s0 ->
  exists f' s', File_read answer p waker wake f len s =
      Ret ((f', take (Z.to_nat len) rest, Ok (Z.min len (Z.of_nat (length rest)))), s') /\
    file_holds f' (drop (Z.to_nat len) rest) /\ file_dirent f' = file_dirent f /\ ready s' /\ touched s s'.
Proof using All. apply File_read_ok. Qed.

Context {Bf : Bitflags}.

(** Opening a file whose first cluster starts a chain. *)
Lemma open_holds e cs : is_dir e = false -> entry_fs e = fs ->
  chain fs sect dsize (Some (first_cluster (dirent e))) cs ->
  exists f, open e = OpenFile f /\ file_holds f (data sect (chain_sectors fs cs)) /\ file_dirent f = e.
Proof using All.
  intros Hd Hf Hc. unfold open. rewrite Hd. eexists. split; [reflexivity|]. split; [|done].
  split; [done|]. split; [done|]. exists cs. split; [|done].
  split; [done|]. destruct G as [_ _ _ _ _ Hk]. unfold sectors_per_cluster. cbn. lia.
Qed.
End reading.

(** ** Names and failures *)

(** The name of a directory entry fits the 12 bytes of the array it is built
    in (8 of base name, a dot, 3 of extension), so that no push panics, and it
    never ends in a space. *)
Theorem filename_fits e : length (basename e) = 8%nat -> length (extension e) = 3%nat ->
  (length (filename e) <= 12)%nat /\ last (filename e) <> Some 32.
Proof.
  intros Hb He. unfold filename. destruct (negb _).
  - split; [|apply trim_spaces_no_trailing]. etransitivity; [apply length_trim_spaces|].
    rewrite !length_app, !length_fmap, He. cbn [length].
    pose proof (length_trim_spaces (to_ascii_lowercase <$> basename e)) as Hl. rewrite length_fmap, Hb in Hl. lia.
  - split; [|apply trim_spaces_no_trailing]. etransitivity; [apply length_trim_spaces|]. rewrite length_fmap, Hb. lia.
Qed.

Section failures.
Context {S Part W : Type} {B : BlockDevice S Part} {Bf : Bitflags}.
Context (answer : M S bool) (waker : W) (wake : W -> M S unit).

(** An empty file, whose entry has first cluster 0, opens, but reading from it
    panics in a debug build, whatever its size field says: the cluster number is
    taken off 2 without a check. *)
Theorem empty_file_panics (e : DirEntry Part) len s s0 :
  is_dir e = false -> cluster_lo (dirent e) = 0 -> cluster_hi (dirent e) = 0 ->
  0 < bpb_sectors_per_cluster (bpb (entry_fs e)) -> 0 < len -> answer s = Ret (true, s0) ->
  exists f, open e = OpenFile f /\
    File_read answer Debug waker wake f len s = Panic "attempt to subtract with overflow".
Proof using Type.
  intros Hd Hlo Hhi Hk Hlen Ha. unfold open. rewrite Hd. eexists. split; [reflexivity|].
  unfold File_read. rewrite (bind_run _ _ _ _ _ Ha). cbn [seek held inner file_fs].
  unfold first_cluster. rewrite Hlo, Hhi. change (Z.lor 0 (Z.shiftl 0 16)) with 0.
  destruct (Z.to_nat len) as [|n] eqn:Hn; [lia|]. cbn [read_loop].
  rewrite (proj2 (Z.leb_gt _ _)) by done. unfold step_offset. cbn [offset]. change (0 =? SECTOR_SIZE) with false. cbv beta iota zeta.
  unfold step_sector, sectors_per_cluster. cbn [sector].
  rewrite (proj2 (Z.eqb_neq _ _)) by lia. done.
Qed.
End failures.

(** ** A small volume

    A reserved sector, one FAT of one sector, a root directory of one sector, clusters
    of one sector.  Cluster 2 is followed by cluster 3; the root directory holds a
    deleted entry and the file A.TXT in these clusters. *)

Definition mem_device (sect : Z -> list Z) : BlockDevice unit unit :=
  {| dev_read _ l n := mret (Ok ((fun i => sect (l + Z.of_nat i)) <$> seq 0 n)) |}.

Lemma mem_device_works sect dsize : dsize <= 0x00ffffff ->
  (forall l, 0 <= l < dsize -> length (sect l) = 512%nat /\ Forall (fun b => 0 <= b < 256) (sect l)) ->
  BlockDeviceLaws (mem_device sect) tt sect dsize (fun _ => True) (fun _ _ => True).
Proof. intros Hd Hs. split; [done| |by split|done]. intros l n s _ _ _ _ _. by exists s. Qed.

Definition example_bpb : BiosParameterBlock := Bpb [] [] 512 1 1 1 16 8 0xf8 1.
Definition raw_name (deleted : bool) (cl : Z) : list Z :=
  [if deleted then 0xef else 65; 32; 32; 32; 32; 32; 32; 32; 84; 88; 84] ++ repeat 0 15 ++ le16 cl ++ [0; 4; 0; 0].
Definition example_volume (l : Z) : list Z :=
  if l =? 1 then [0xf8; 0xff; 0xff; 0xff; 3; 0; 0xff; 0xff] ++ repeat 0 504
  else if l =? 2 then raw_name true 7 ++ raw_name false 2 ++ repeat 0 448
  else repeat (Z.land l 255) 512.

Definition example_fs : Filesystem unit := Filesystem_ tt example_bpb.

Lemma example_volume_ok l : 0 <= l < 8 ->
  length (example_volume l) = 512%nat /\ Forall (fun b => 0 <= b < 256) (example_volume l).
Proof.
  intros Hl. unfold example_volume. destruct (l =? 1); [by split; [|apply are_bytes_ok]|].
  destruct (l =? 2); [by split; [|apply are_bytes_ok]|]. split; [apply repeat_length|].
  apply Forall_forall. intros x Hx. apply list_elem_of_In, repeat_spec in Hx. subst.
  change 255 with (Z.ones 8). rewrite Z.land_ones by lia. by apply Z.mod_pos_bound.
Qed.

Lemma example_laws : BlockDeviceLaws (mem_device example_volume) (part example_fs) example_volume 8
  (fun _ => True) (fun _ _ => True).
Proof. apply mem_device_works; [lia|exact example_volume_ok]. Qed.

Lemma example_geometry : geometry example_fs 8.
Proof. split; cbn; lia. Qed.

Lemma example_chain : chain example_fs example_volume 8 (Some 2) [2; 3].
Proof.
  apply chain_link; [split; [cbn; lia|by vm_compute]|lia|by vm_compute|].
  change (linked example_fs example_volume 2) with (Some 3).
  apply chain_link; [split; [cbn; lia|by vm_compute]|lia|by vm_compute|].
  change (linked example_fs example_volume 3) with (@None Z). constructor.
Qed.

Definition example_raw : RawDirEntry := decode_entry (raw_name false 2).
Definition example_file : File unit unit :=
  File_ example_fs (DirEntry_ example_fs None example_raw) (AsyncCell_ false [] (Seek_ (Some 2) 0 500)).

(** Reading 600 bytes from byte 500: 12 of the first cluster, then the second, then
    the end of the file. *)
Lemma File_read_refines_witness :
  exists f' s', File_read (B := mem_device example_volume) (mret true) Debug tt (fun _ => mret tt) example_file 600 tt =
    Ret ((f', repeat 3 12 ++ repeat 4 512, Ok 524), s') /\ held (seek f') = false.
Proof.
  destruct (File_read_refines (B := mem_device example_volume) (mret true) Debug tt (fun _ => mret tt) example_fs
    example_volume 8 (fun _ => True) (fun _ _ => True) (L := example_laws) example_geometry
    (fun _ s _ => ex_intro _ s (conj eq_refl (conj I I))) example_file (repeat 3 12 ++ repeat 4 512) 600 tt tt)
    as (f' & s' & E & H & _); [|done..|].
  - split; [done|]. split; [done|]. exists [2; 3]. split; [split; [exact example_chain|cbn; lia]|by vm_compute].
  - exists f', s'. split; [exact E|]. by destruct H as (_ & ? & _).
Defined.

Lemma filename_fits_witness : (length (filename example_raw) <= 12)%nat /\ last (filename example_raw) <> Some 32.
Proof. apply (filename_fits example_raw); done. Defined.

(** The root directory: a deleted entry A.TXT, the file A.TXT, and the end. *)
Definition zero_raw : RawDirEntry := RawDirEntry_ (repeat 0 8) (repeat 0 3) 0 0 0 0 0 0 0 0 0 0 0.
Definition example_entries : list RawDirEntry := decode_entry (raw_name true 7) :: example_raw :: repeat zero_raw 14.

Lemma example_entries_held : Forall2 (holds_entries example_volume) [2] [example_entries].
Proof.
  repeat constructor; try done; cbn; try lia.
Qed.

(** The name is a.txt, in lower case. *)
Lemma entry_finds_first_witness :
  gives (fun _ => True) (fun _ _ => True)
    (entry (B := mem_device example_volume) (C := machines) (mret true) Debug 100 (root example_fs) [97; 46; 116; 120; 116])
    (Ok (Some (DirEntry_ example_fs None example_raw))).
Proof.
  assert (name_of example_raw [97; 46; 116; 120; 116]) as Hname by (by apply filename_name).
  destruct (entry_finds_first (B := mem_device example_volume) (C := machines) (CL := machines_laws) (mret true) Debug 100
    example_fs example_volume 8 (fun _ => True) (fun _ _ => True) (L := example_laws) example_geometry
    (fun s _ => ex_intro _ s (conj eq_refl (conj I I))) ltac:(by vm_compute) (root example_fs) [2] [example_entries] [97; 46; 116; 120; 116])
    as (found & Hg & Hf); [done|exact (read_root example_fs example_volume 8 (root example_fs) eq_refl)|exact example_entries_held
    |cbn; lia|by vm_compute| |].
  - intros before e n (after & Heq & Hne) Hdl <-%filename_name. destruct before as [|e0 before]; injection Heq as <- Heq; [by destruct Hdl|].
    destruct before as [|e1 before]; injection Heq as <- Heq; [by vm_compute|]. exfalso. 
    destruct before as [|e2 before]; injection Heq as <- Heq; apply (Hne zero_raw); [set_solver|done|set_solver|done].
  - assert (listed_after (concat [example_entries]) [decode_entry (raw_name true 7)] example_raw) as Hl.
    { exists (repeat zero_raw 14). split; [done|]. by intros x [->| ->%list_elem_of_singleton]%elem_of_cons. }
    destruct found as [x|]; [|by destruct (Hf _ _ Hl)].
    destruct Hf as (before & e & -> & (after & Heq & Hne) & Hdl & Hn & Hb).
    destruct before as [|e0 before]; injection Heq as <- Heq; [by destruct Hdl|].
    destruct before as [|e1 before]; injection Heq as <- Heq; [exact Hg|]. exfalso.
    destruct (Hb example_raw) as [?|?]; [right; left|done|done].
Defined.

Definition empty_raw : RawDirEntry := decode_entry (raw_name false 0).
Lemma empty_file_panics_witness :
  exists f, open (W := unit) (Bf := bitflags_crate) (DirEntry_ example_fs None empty_raw) = OpenFile f /\
    File_read (B := mem_device example_volume) (mret true) Debug tt (fun _ => mret tt) f 1 tt =
      Panic "attempt to subtract with overflow".
Proof.
  apply (empty_file_panics (B := mem_device example_volume) (Bf := bitflags_crate) (mret true) tt (fun _ => mret tt)
    (DirEntry_ example_fs None empty_raw) 1 tt tt); by vm_compute.
Defined.

(** The directory in cluster 3, the last of its chain. *)
Definition example_dir : DirEntry unit := DirEntry_ example_fs None (decode_entry (raw_name false 3)).

Lemma example_chain3 : chain example_fs example_volume 8 (Some 3) [3].
Proof.
  apply chain_link; [split; [cbn; lia|by vm_compute]|lia|by vm_compute|].
  change (linked example_fs example_volume 3) with (@None Z). constructor.
Qed.

Lemma one_cluster_directory_empty_witness :
  gives (fun _ => True) (fun _ _ => True)
    (entry (B := mem_device example_volume) (C := machines) (mret true) Debug 8 (Directory_ example_fs (Sub example_dir)) [97])
    (Ok None).
Proof.
  apply (one_cluster_directory_empty (B := mem_device example_volume) (C := machines) (CL := machines_laws) (mret true)
    Debug 8 example_fs example_volume 8 (fun _ => True) (fun _ _ => True) (L := example_laws) example_geometry
    (fun s _ => ex_intro _ s (conj eq_refl (conj I I))) ltac:(by vm_compute) example_dir 3);
    [done|exact example_chain3|lia|by vm_compute].
Defined.
