(* ===== verification/Device.v ===== *)
(** * Device: the timer and the keyboard ([kernel/src/device/pit.rs],
      [kernel/src/device/keyboard.rs])

    The keyboard's interrupt handler puts scancodes in a bounded queue, a mutex
    around the deque of a third-party crate (an interface with its documented
    behaviour); a reader takes them out.  What is printed on overflow is not
    modelled. *)

From S2P Require Import Prelude Sync.

(** ** The [arraydeque] crate, with saturating behaviour *)

Class ArrayDeque := {
  deque : Type;
  deque_new : deque;
  push_back : Z -> deque -> result deque Z;        (* an error gives the element back *)
  pop_front : deque -> option Z * deque
}.

Definition CAPACITY : nat := 32.

(** [elements]: from the front to the back. *)
Class ArrayDequeLaws (D : ArrayDeque) (elements : deque -> list Z) : Prop := {
  elements_new : elements deque_new = [];
  push_back_ok : forall x d, (length (elements d) < CAPACITY)%nat ->
    exists d', push_back x d = Ok d' /\ elements d' = elements d ++ [x];
  push_back_full : forall x d, length (elements d) = CAPACITY -> push_back x d = Err x;
  pop_front_elements : forall d, (pop_front d).1 = head (elements d) /\ elements (pop_front d).2 = tail (elements d)
}.

(** A list serves. *)
Definition list_deque : ArrayDeque := {|
  deque := list Z;
  deque_new := [];
  push_back x d := if (length d <? CAPACITY)%nat then Ok (d ++ [x]) else Err x;
  pop_front d := (head d, tail d)
|}.

Lemma list_deque_laws : ArrayDequeLaws list_deque (fun d => d).
Proof.
  split.
  - done.
  - intros x d H. cbn [push_back list_deque]. rewrite (proj2 (Nat.ltb_lt _ _)) by done. eauto.
  - intros x d H. cbn [push_back list_deque]. by rewrite H.
  - done.
Qed.

(** ** pit.rs *)

Definition PIT_FREQ : Z := 1193182.

(** The ports written, the most recent first, behind the interrupt flag. *)
Record pit := Pit { pit_if : bool; pit_out : list (Z * Z) }.
#[export] Instance pit_HasCpu : HasCpu pit := Lens pit_if (fun b s => Pit b (pit_out s)).

Definition pit_write (port v : Z) : M pit unit := modify (fun s => Pit (pit_if s) ((port, v) :: pit_out s)).

Definition set_frequency (hz : Z) : M pit unit :=
  q ← (if hz =? 0 then panic "attempt to divide by zero" else mret (PIT_FREQ / hz));
  let divisor := Z.min q 65535 in
  section (
    _ ← pit_write 0x40 (Z.land (Z.shiftr divisor 0) 0xff);
    pit_write 0x40 (Z.land (Z.shiftr divisor 8) 0xff)).

Definition pit_init : M pit unit :=
  section (_ ← pit_write 0x43 0x34; set_frequency 20).

(** ** keyboard.rs *)

Section keyboard.
Context {D : ArrayDeque}.

Record keyboard := Keyboard { kbd_if : bool; BUFF : Mutex (option deque) }.
#[export] Instance keyboard_HasCpu : HasCpu keyboard := Lens kbd_if (fun b s => Keyboard b (BUFF s)).
#[export] Instance keyboard_HasCpu_laws : LensLaws (cpu_if : lens keyboard bool).
Proof. split; [done | by intros [] | done]. Qed.
Definition BUFF_l : lens keyboard (Mutex (option deque)) := Lens BUFF (fun m s => Keyboard (kbd_if s) m).

Definition keyboard_new : keyboard := Keyboard true (Mutex_new None).

Definition keyboard_init : M keyboard unit := with_lock BUFF_l (assign BUFF_l (Some deque_new)).

(** A poll of the future of [read_scancode]; [None]: pending. *)
Definition read_scancode_poll : M keyboard (option Z) :=
  with_lock BUFF_l (
    buff ← deref BUFF_l;
    buff ← expect buff "keyboard to be initialized";
    _ ← assign BUFF_l (Some (pop_front buff).2);
    mret (pop_front buff).1).

(** [raw_scancode]: what the port reads. *)
Definition keyboard_interrupt (raw_scancode : Z) : M keyboard unit :=
  with_lock BUFF_l (
    buff ← deref BUFF_l;
    match buff with
    | Some buff =>
        match push_back raw_scancode buff with
        | Ok buff => assign BUFF_l (Some buff)
        | Err _ => mret tt                        (* "keyboard buffer overflow!" *)
        end
    | None => mret tt
    end).

(** ** The keyboard as a bounded queue *)

Inductive kbd_event :=
| Key (scancode : Z)
| Poll_.

(** The answers of the polls of a sequence of events. *)
Fixpoint kbd_run (evs : list kbd_event) : M keyboard (list (option Z)) :=
  match evs with
  | [] => mret []
  | Key c :: evs => _ ← keyboard_interrupt c; kbd_run evs
  | Poll_ :: evs => r ← read_scancode_poll; rs ← kbd_run evs; mret (r :: rs)
  end.

(** The specification: a queue of at most 32 scancodes. *)
Definition enqueue (c : Z) (q : list Z) : list Z := if (length q <? CAPACITY)%nat then q ++ [c] else q.
Fixpoint queue_run (evs : list kbd_event) (q : list Z) : list (option Z) * list Z :=
  match evs with
  | [] => ([], q)
  | Key c :: evs => queue_run evs (enqueue c q)
  | Poll_ :: evs => let r := queue_run evs (tail q) in (head q :: r.1, r.2)
  end.

Context (elements : deque -> list Z) {DL : ArrayDequeLaws D elements}.

(** The keyboard is initialised, unlocked, and its queue is [q]. *)
Definition holds (s : keyboard) (q : list Z) : Prop :=
  locked (BUFF s) = false /\ (length q <= CAPACITY)%nat /\ exists d, value (BUFF s) = Some d /\ elements d = q.

Lemma keyboard_init_holds s : locked (BUFF s) = false ->
  exists s', keyboard_init s = Ret (tt, s') /\ holds s' [] /\ kbd_if s' = kbd_if s.
Proof using DL.
  intros Hl. assert (wp keyboard_init (fun _ s' => holds s' [] /\ kbd_if s' = kbd_if s) s) as H.
  { unfold keyboard_init. apply wp_locked; [done|]. unfold assign. wp_step. cbn. split; [done|]. split; [|done].
    split; [done|]. split; [cbn; lia|]. exists deque_new. split; [done|]. apply elements_new. }
  apply wp_iff in H as ([] & s' & E & H). by exists s'.
Qed.

Lemma keyboard_interrupt_holds c s q : holds s q ->
  wp (keyboard_interrupt c) (fun _ s' => holds s' (enqueue c q) /\
    kbd_if s' = kbd_if s) s.
Proof using DL.
  intros (Hl & Hq & d & Hd & He). unfold keyboard_interrupt. apply wp_locked; [done|].
  unfold deref, assign. wp_steps. cbn [value BUFF_l view set BUFF]. cbn. rewrite Hd. unfold enqueue.
  destruct (Nat.ltb_spec (length q) CAPACITY) as [Hlt|Hge].
  - destruct (push_back_ok c d) as (d' & E & He'); [by rewrite He|]. rewrite E. wp_step. cbn [kbd_if].
    split; [done|]. split; [|done]. split; [done|].
 split; [rewrite length_app; cbn; lia|].
    exists d'. by rewrite He', He.
  - rewrite push_back_full by (rewrite He; lia). wp_step. split; [done|]. split; [|done].
    split; [done|]. split; [done|]. by exists d.
Qed.

Lemma read_scancode_holds s q : holds s q ->
  wp read_scancode_poll (fun r s' => r = head q /\ holds s' (tail q) /\ kbd_if s' = kbd_if s) s.
Proof using DL.
  intros (Hl & Hq & d & Hd & He). unfold read_scancode_poll. apply wp_locked; [done|].
  unfold deref, assign. wp_steps. cbn. rewrite Hd. unfold expect. wp_steps. cbn.
  destruct (pop_front_elements d) as [Hh Ht]. rewrite Hh, He. split; [done|]. split; [done|]. split; [|done].
  split; [done|]. split; [destruct q; cbn in *; lia|]. exists (pop_front d).2. by rewrite Ht, He.
Qed.

(** C28: for every sequence of keyboard interrupts and polls of [read_scancode] after
    the initialisation, the answers of the polls are those of a first-in first-out
    queue of 32 places that drops what arrives when it is full; nothing panics, and
    the queue's mutex is free again and the interrupt flag as before at the end. *)
Theorem keyboard_is_queue evs s : locked (BUFF s) = false ->
  exists s1 s', keyboard_init s = Ret (tt, s1) /\
    kbd_run evs s1 = Ret ((queue_run evs []).1, s') /\ holds s' (queue_run evs []).2 /\ kbd_if s' = kbd_if s.
Proof using DL.
  intros Hl. destruct (keyboard_init_holds s Hl) as (s1 & E & Hh & Hif). exists s1.
  assert (forall q s1, holds s1 q -> wp (kbd_run evs) (fun r s' => r = (queue_run evs q).1 /\
    holds s' (queue_run evs q).2 /\ kbd_if s' = kbd_if s1) s1) as H.
  { clear Hl E Hh Hif. clear s s1. induction evs as [|[c|] evs IH]; intros q s1 Hh; cbn [kbd_run queue_run].
    - wp_step. done.
    - wp_step. wp_call (keyboard_interrupt_holds c s1 q Hh). intros ? s2 [Hh2 Hif2].
      wp_call (IH _ s2 Hh2). intros r s3 (-> & ? & ?). split; [done|]. split; [done|]. congruence.
    - wp_step. wp_call (read_scancode_holds s1 q Hh). intros r s2 (-> & Hh2 & Hif2).
      wp_step. wp_call (IH _ s2 Hh2). intros rs s3 (-> & ? & ?). wp_step. cbn.
      split; [done|]. split; [done|]. congruence. }
  specialize (H [] s1 Hh). apply wp_iff in H as (r & s' & E' & -> & H & Hif'). exists s'.
  split; [done|]. split; [done|]. split; [done|]. congruence.
Qed.
End keyboard.

(** Two keys, three polls. *)
Lemma keyboard_is_queue_witness :
  exists s1 s', keyboard_init (D := list_deque) keyboard_new = Ret (tt, s1) /\
    kbd_run (D := list_deque) [Key 30; Key 31; Poll_; Poll_; Poll_] s1 = Ret ([Some 30; Some 31; None], s') /\
    holds (D := list_deque) (fun d => d) s' [] /\ kbd_if s' = true.
Proof.
  apply (keyboard_is_queue (D := list_deque) (fun d => d) (DL := list_deque_laws)
    [Key 30; Key 31; Poll_; Poll_; Poll_] keyboard_new). done.
Defined.

(** The two bytes written make up the divisor. *)
Lemma pit_divisor hz s : 0 < hz ->
  exists lo hi, set_frequency hz s = Ret (tt, Pit (pit_if s) ((0x40, hi) :: (0x40, lo) :: pit_out s)) /\
    lo + 256 * hi = Z.min (PIT_FREQ / hz) 65535.
Proof.
  intros Hhz. unfold set_frequency. rewrite (proj2 (Z.eqb_neq _ _)) by lia.
  assert (0 <= PIT_FREQ / hz) by (apply Z.div_pos; unfold PIT_FREQ; lia).
  set (d := Z.min (PIT_FREQ / hz) 65535).
  exists (Z.land (Z.shiftr d 0) 0xff), (Z.land (Z.shiftr d 8) 0xff). split.
  - by destruct s as [[] o].
  - change 0xff with (Z.ones 8). rewrite !Z.land_ones, Z.shiftr_0_r, Z.shiftr_div_pow2 by lia.
    change (2 ^ 8) with 256. zdiv.
Qed.
