(* ===== verification/Vfs.v ===== *)
(** * Vfs: paths and files ([kernel/src/fs/vfs.rs])

    Opening a path walks the directories of the [Fat] file system; a file is the
    console or something open on that file system.  The console and the keyboard
    behind the console file are an interface. *)

From S2P Require Import Prelude Interface Sync Utf8 Block Stream Fat.

(** What the console file needs of the console and the keyboard. *)
Class Terminal (S : Type) := {
  term_write : list Z -> M S (result Z SysError);     (* all the bytes, or an error *)
  term_poll : M S (option Z)                          (* a scancode, or not yet *)
}.

Inductive OpenError :=
| NotFound
| OpenFat (e : FatError).

Definition SysError_from_OpenError (e : OpenError) : SysError :=
  match e with NotFound => NoFile | OpenFat e => SysError_from_FatError e end.

(** [path.split(|b| *b == b'/')]: never empty. *)
Fixpoint split_path (path : list Z) : list (list Z) :=
  match path with
  | [] => [[]]
  | c :: path =>
      if c =? 47 then [] :: split_path path
      else match split_path path with
           | seg :: segs => (c :: seg) :: segs
           | [] => [[c]]
           end
  end.

Inductive VfsFile (Part W : Type) :=
| Console
| FatFile (o : Open Part W).
Arguments Console {Part W}.
Arguments FatFile {Part W} _.

Section vfs.
Context {S Part W : Type} {B : BlockDevice S Part} {C : Streams S} {Bf : Bitflags} {T : Terminal S}.
Context (answer : M S bool) (p : profile) (waker : W) (wake : W -> M S unit) (fuel : nat).

(** The loop over the segments. *)
Fixpoint walk_path (container : Directory Part) (segments : list (list Z)) :
  M S (result (VfsFile Part W) OpenError) :=
  match segments with
  | [] => mret (Ok (FatFile (OpenDir container)))
  | segment :: segments =>
      match segment with
      | [] => walk_path container segments
      | _ =>
          r ← entry answer p fuel container segment;
          match r with
          | Err e => mret (Err (OpenFat e))
          | Ok None => mret (Err NotFound)
          | Ok (Some e) =>
              match open e with
              | OpenDir dir => walk_path dir segments
              | OpenFile file =>
                  match segments with
                  | [] => mret (Ok (FatFile (OpenFile file)))
                  | _ => mret (Err NotFound)
                  end
              end
          end
      end
  end.

(** [Filesystem::open] *)
Definition vfs_open (fs : Filesystem Part) (path : list Z) : M S (result (VfsFile Part W) OpenError) :=
  let container := root fs in
  match split_path path with
  | [] :: segments => walk_path container segments
  | _ => mret (Err NotFound)
  end.

(** A poll of [File::read]: the file, the bytes stored and the result; [None]:
    pending. *)
Definition vfs_read (f : VfsFile Part W) (len : Z) : M S (option (VfsFile Part W * list Z * result Z SysError)) :=
  match f with
  | Console =>
      if len =? 0 then mret (Some (f, [], Ok 0))
      else
        scancode ← term_poll;
        match scancode with
        | None => mret None
        | Some scancode => mret (Some (f, [scancode], Ok 1))
        end
  | FatFile (OpenFile file) =>
      r ← File_read answer p waker wake file len;
      mret (Some (FatFile (OpenFile r.1.1), r.1.2, map_err SysError_from_FatError r.2))
  | FatFile (OpenDir _) => mret (Some (f, [], Err InvalidOperation))
  end.

(** [File::write] *)
Definition vfs_write (f : VfsFile Part W) (buf : list Z) : M S (result Z SysError) :=
  match f with
  | Console => term_write buf
  | FatFile _ => panic "explicit panic"
  end.

(** ** Resolving names

    The specification: the names of a path are its nonempty segments; each is
    looked up in the directory the names before it lead to. *)

Context (look : Directory Part -> list Z -> option (DirEntry Part)).

Definition is_name (seg : list Z) : bool := negb (bool_decide (seg = [])).
Definition names (segs : list (list Z)) : list (list Z) := List.filter is_name segs.

Fixpoint resolve (d : Directory Part) (ns : list (list Z)) : option (Open Part W) :=
  match ns with
  | [] => Some (OpenDir d)
  | n :: ns =>
      e ← look d n;
      match open e with
      | OpenDir d => resolve d ns
      | OpenFile f => match ns with [] => Some (OpenFile f) | _ => None end
      end
  end.

Definition target (d : Directory Part) (segs : list (list Z)) : result (VfsFile Part W) OpenError :=
  match resolve d (names segs) with
  | Some (OpenDir d) => Ok (FatFile (OpenDir d))
  | Some (OpenFile f) =>
      (* a file's name is the last segment *)
      if bool_decide (last segs = Some []) then Err NotFound else Ok (FatFile (OpenFile f))
  | None => Err NotFound
  end.

Context (ready : S -> Prop) (touched : S -> S -> Prop) {HT : PreOrder touched}.

(** The lookups on the way of [ns] from [d] are those of [look]. *)
Fixpoint looked_up (d : Directory Part) (ns : list (list Z)) : Prop :=
  match ns with
  | [] => True
  | n :: ns =>
      gives ready touched (entry answer p fuel d n) (Ok (look d n)) /\
      match look d n with
      | Some e => match open (W := W) e with OpenDir d => looked_up d ns | OpenFile _ => True end
      | None => True
      end
  end.

Lemma last_cons_ne {A} (x : A) l : l <> [] -> last (x :: l) = last l.
Proof using Type. by destruct l. Qed.

Lemma names_cons_nil segs : names ([] :: segs) = names segs.
Proof using Type. done. Qed.
Lemma names_cons c seg segs : names ((c :: seg) :: segs) = (c :: seg) :: names segs.
Proof using Type. done. Qed.

Lemma resolve_dir_file segs : names segs = [] -> segs <> [] -> last segs = Some [].
Proof using Type.
  induction segs as [|[|c seg] segs IH]; [done| |done]. rewrite names_cons_nil. intros Hn _.
  destruct segs as [|s segs]; [done|]. rewrite last_cons_ne by done. by apply IH.
Qed.

Lemma walk_path_target segs d :
  looked_up d (names segs) -> gives ready touched (walk_path d segs) (target d segs).
Proof using HT.
  revert d. induction segs as [|[|c seg] segs IH]; intros d Hl; cbn [walk_path].
  - apply (gives_ret ready touched).
  - unfold target. rewrite names_cons_nil in *. destruct segs as [|s segs].
    + apply (gives_ret ready touched).
    + rewrite last_cons_ne by done. by apply IH.
  - rewrite names_cons in Hl. unfold target. rewrite names_cons. cbn [resolve].
    eapply (gives_bind ready touched); [apply Hl|]. cbv beta iota. destruct Hl as [_ Hl].
    destruct (look d (c :: seg)) as [e|]; [|apply (gives_ret ready touched)]. cbn [mbind option_bind].
    destruct (open e) as [f|d'] eqn:Ho.
    + destruct segs as [|s segs].
      * cbn. apply (gives_ret ready touched).
      * rewrite last_cons_ne by done. destruct (names (s :: segs)) as [|n ns] eqn:Hn.
        -- rewrite (resolve_dir_file _ Hn) by done. rewrite bool_decide_true by done. apply (gives_ret ready touched).
        -- apply (gives_ret ready touched).
    + assert (gives ready touched (walk_path d' segs) (target d' segs)) as H.
      { by apply IH. }
      unfold target in H. destruct segs as [|s segs].
      * exact H.
      * by rewrite last_cons_ne.
Qed.

Lemma split_path_nonempty path : split_path path <> [].
Proof using Type. destruct path as [|c path]; [done|]. cbn. destruct (c =? 47); [done|]. by destruct (split_path path). Qed.

(** C20: as long as the lookups of the names of a path give what [look] says in the
    directories they lead to, opening it gives what its names resolve to: repeated slashes change
    nothing, a slash at the end is accepted after a directory but not after a file, a
    file in the middle of a path is not found, and neither is a nonempty path that
    does not start with a slash.  The empty path opens the root directory. *)
Theorem vfs_open_resolves fs path :
  looked_up (root fs) (names (split_path path)) ->
  gives ready touched (vfs_open fs path)
    (match path with
     | [] => Ok (FatFile (OpenDir (root fs)))
     | 47 :: path => target (root fs) (split_path path)
     | _ => Err NotFound
     end).
Proof using HT.
  intros Hl. unfold vfs_open. destruct path as [|c path]; [apply (gives_ret ready touched)|].
  cbn [split_path] in *. destruct (Z.eqb_spec c 47) as [->|Hne].
  - apply walk_path_target. exact Hl.
  - assert (match c with 47 => target (root fs) (split_path path) | _ => Err NotFound end = Err NotFound) as ->.
    { destruct c as [|q|]; try done. do 6 (destruct q as [q|q|]; try done). }
    destruct (split_path path); apply (gives_ret ready touched).
Qed.
End vfs.

(** The file A.TXT of the example volume, under its names. *)
Definition example_look (d : Directory unit) (n : list Z) : option (DirEntry unit) :=
  if bool_decide (n = [97; 46; 116; 120; 116]) then Some (DirEntry_ example_fs None example_raw) else None.

Lemma vfs_open_resolves_witness :
  gives (fun _ => True) (fun _ _ => True)
    (vfs_open (B := mem_device example_volume) (C := machines) (Bf := bitflags_crate) (W := unit) (mret true) Debug 100
       example_fs [47; 47; 97; 46; 116; 120; 116])
    (Ok (FatFile (OpenFile (File_ example_fs (DirEntry_ example_fs None example_raw)
       (AsyncCell_ false [] (Seek_ (Some 2) 0 0)))))).
Proof.
  apply (vfs_open_resolves (B := mem_device example_volume) (C := machines) (Bf := bitflags_crate) (W := unit)
    (mret true) Debug 100 example_look (fun _ => True) (fun _ _ => True) example_fs [47; 47; 97; 46; 116; 120; 116]).
  split; [|done]. intros []. exists tt. by vm_compute.
Defined.
