(* ===== verification/Interrupt.v ===== *)
(** * Interrupt: vectors and trap frames ([kernel/src/interrupt.rs])

    The interrupt numbers the [interrupts!] macro defines, with its two
    conversions, and the frame the entry stubs build.  Handling an interrupt is
    modelled in [Kernel]. *)

From S2P Require Import Prelude.

Definition IRQ_BASE : Z := 0x20.

Inductive Interrupt :=
| DivideByZero | Debug_ | Nmi | Breakpoint | Overflow | BoundRangeExceeded
| InvalidOpcode | DeviceNotAvailable | DoubleFault | InvalidTss
| SegmentNotPresent | StackSegmentFault | GeneralProtectionFault | PageFault
| X87Exception | AlignmentCheck | MachineCheck | SimdException
| VirtualizationException | SecurityException | Syscall_
| Irq (irq : Z) | Other (vector : Z).

#[export] Instance Interrupt_eq_dec : EqDecision Interrupt.
Proof. solve_decision. Defined.

(** [From<u8> for Interrupt] *)
Definition Interrupt_from (vector : Z) : Interrupt :=
  match vector with
  | 0x00 => DivideByZero
  | 0x01 => Debug_
  | 0x02 => Nmi
  | 0x03 => Breakpoint
  | 0x04 => Overflow
  | 0x05 => BoundRangeExceeded
  | 0x06 => InvalidOpcode
  | 0x07 => DeviceNotAvailable
  | 0x08 => DoubleFault
  | 0x0a => InvalidTss
  | 0x0b => SegmentNotPresent
  | 0x0c => StackSegmentFault
  | 0x0d => GeneralProtectionFault
  | 0x0e => PageFault
  | 0x10 => X87Exception
  | 0x11 => AlignmentCheck
  | 0x12 => MachineCheck
  | 0x13 => SimdException
  | 0x14 => VirtualizationException
  | 0x1e => SecurityException
  | 0x7f => Syscall_
  | _ =>
      if (IRQ_BASE <=? vector) && (vector <? IRQ_BASE + 0x10) then Irq (vector - IRQ_BASE)
      else Other vector
  end.

(** [Into<u8> for Interrupt] *)
Definition Interrupt_into (i : Interrupt) : Z :=
  match i with
  | DivideByZero => 0x00
  | Debug_ => 0x01
  | Nmi => 0x02
  | Breakpoint => 0x03
  | Overflow => 0x04
  | BoundRangeExceeded => 0x05
  | InvalidOpcode => 0x06
  | DeviceNotAvailable => 0x07
  | DoubleFault => 0x08
  | InvalidTss => 0x0a
  | SegmentNotPresent => 0x0b
  | StackSegmentFault => 0x0c
  | GeneralProtectionFault => 0x0d
  | PageFault => 0x0e
  | X87Exception => 0x10
  | AlignmentCheck => 0x11
  | MachineCheck => 0x12
  | SimdException => 0x13
  | VirtualizationException => 0x14
  | SecurityException => 0x1e
  | Syscall_ => 0x7f
  | Irq irq => irq + IRQ_BASE
  | Other vector => vector
  end.

Record Registers := Regs {
  r15 : Z; r14 : Z; r13 : Z; r12 : Z; r11 : Z; r10 : Z; r9 : Z; r8 : Z;
  rdi : Z; rsi : Z; rbp : Z; rbx : Z; rdx : Z; rcx : Z; rax : Z
}.

Definition Registers_default : Registers := Regs 0 0 0 0 0 0 0 0 0 0 0 0 0 0 0.

Definition set_rax (v : Z) (r : Registers) : Registers :=
  Regs (r15 r) (r14 r) (r13 r) (r12 r) (r11 r) (r10 r) (r9 r) (r8 r)
    (rdi r) (rsi r) (rbp r) (rbx r) (rdx r) (rcx r) v.

Record TrapFrame := TrapFrame_ {
  regs : Registers;
  interrupt_vector : Z;
  error_code : Z;
  rip : Z;
  cs : Z;
  rflags : Z;
  rsp : Z;
  ss : Z
}.

Definition set_regs (r : Registers) (f : TrapFrame) : TrapFrame :=
  TrapFrame_ r (interrupt_vector f) (error_code f) (rip f) (cs f) (rflags f) (rsp f) (ss f).

Definition SEG_UCODE : Z := 0x1b.
Definition SEG_UDATA : Z := 0x23.

(** [RFlags::INTERRUPT_FLAG] of the processor. *)
Definition INTERRUPT_FLAG : Z := Z.shiftl 1 9.

(** [TrapFrame::new] *)
Definition TrapFrame_new (rip rsp : Z) : TrapFrame :=
  TrapFrame_ Registers_default 0 0 rip SEG_UCODE INTERRUPT_FLAG rsp SEG_UDATA.

Inductive TrapOrigin := User | Kernel.

Definition interrupt_of (f : TrapFrame) : Interrupt :=
  Interrupt_from (interrupt_vector f `mod` 256).

Definition origin (f : TrapFrame) : outcome TrapOrigin :=
  match Z.land (cs f) 3 with
  | 0 => Ret Kernel
  | 3 => Ret User
  | _ => Panic "unknown origin code segment"
  end.

(** A byte is one of the 256 vectors. *)
Lemma byte_cases (f : Z -> bool) :
  forallb f (Z.of_nat <$> seq 0 256) = true -> forall v, 0 <= v < 256 -> f v = true.
Proof.
  intros H v Hv. rewrite forallb_forall in H. apply H, list_elem_of_In, list_elem_of_fmap.
  exists (Z.to_nat v). rewrite elem_of_seq. lia.
Qed.

Definition vector_ok (v : Z) : bool :=
  (Interrupt_into (Interrupt_from v) =? v) &&
  match Interrupt_from v with
  | Irq q => (0x20 <=? v) && (v <? 0x30) && (v =? q + 0x20)
  | Other w => (w =? v) && negb ((0x20 <=? v) && (v <? 0x30))
  | _ => negb ((0x20 <=? v) && (v <? 0x30))
  end.

(** The conversions between vectors and interrupts: every vector decodes to an
    interrupt that encodes back to it; the sixteen vectors from [IRQ_BASE] and no
    others decode to the IRQ lines; vectors the kernel does not define decode to
    [Other]. *)
Theorem interrupt_roundtrip v :
  0 <= v < 256 ->
  Interrupt_into (Interrupt_from v) = v /\
  (forall irq, Interrupt_from v = Irq irq <-> v = irq + IRQ_BASE /\ 0 <= irq < 16) /\
  (forall w, Interrupt_from v = Other w -> w = v).
Proof.
  intros Hv. assert (vector_ok v = true) as H by (apply byte_cases; [by vm_compute|done]).
  unfold vector_ok in H. apply andb_true_iff in H as [Hrt%Z.eqb_eq Hk].
  split_and!; [done| |].
  - intros irq. split.
    + intros Heq. rewrite Heq in Hk. unfold IRQ_BASE. lia.
    + unfold IRQ_BASE. intros [-> Hr]. destruct (Interrupt_from (irq + 32)); try lia. f_equal. lia.
  - intros w Heq. rewrite Heq in Hk. lia.
Qed.

Lemma interrupt_roundtrip_witness : Interrupt_into (Interrupt_from 0x21) = 0x21.
Proof. apply (proj1 (interrupt_roundtrip 0x21 ltac:(lia))). Defined.
