(* ===== verification/System.v ===== *)
(** * System: the state the object and task code works on

    The machine, the objects behind [Arc]s, and the static maps of
    [kernel/src/object.rs] and [kernel/src/task.rs].  Files ([F]) and the futures
    of tasks ([Fut]) are parameters.  The maps are the crate's [BTreeMap]s; every
    operation that may allocate takes one answer of the allocator. *)

From S2P Require Import Prelude Sync Machine Phys Arc Interrupt.

Abbreviation TaskId := Z (only parsing).
Abbreviation Handle := Z (only parsing).

Section types.
Context {F : Type}.

Inductive ObjectKind :=
| PageCtx_ (pml4 : Z)
| File_ (f : F).

(** [TaskState] *)
Inductive TaskState :=
| SyscallEntry (frame : TrapFrame)
| Wake
| Sleep
| User_ (frame : TrapFrame).

(** [Task]: a page context object and a filesystem, both [Arc]s. *)
Record Task := Task_ { page_ctx : Z; filesystem : option Z }.
End types.
Arguments ObjectKind : clear implicits.

Record sys (F Fut Fs Dev : Type) := Sys {
  smach : machine;
  sanswers : list bool;
  objs : gmap Z (Z * ObjectKind F);
  fss : gmap Z (Z * Fs);                                  (* [Arc<Filesystem>] *)
  futs : gmap Z (Z * Mutex Fut);                            (* [TaskFuture] *)
  TASK_HANDLES : EarlyInit (Mutex (gmap TaskId (gmap Handle Z)));
  TASKS : EarlyInit (Mutex (gmap TaskId Task));
  TASK_STATES : EarlyInit (Mutex (gmap TaskId TaskState));
  TASK_FUTURES : EarlyInit (Mutex (gmap TaskId Z));
  CURRENT_TASK : Mutex (option TaskId);
  NEXT_TASK_ID : Z;
  devs : Dev                                                (* console, keyboard, disk *)
}.
Arguments Sys {F Fut Fs Dev} _ _ _ _ _ _ _ _ _ _ _.
Arguments smach {F Fut Fs Dev} _.
Arguments sanswers {F Fut Fs Dev} _.
Arguments objs {F Fut Fs Dev} _.
Arguments fss {F Fut Fs Dev} _.
Arguments futs {F Fut Fs Dev} _.
Arguments TASK_HANDLES {F Fut Fs Dev} _.
Arguments TASKS {F Fut Fs Dev} _.
Arguments TASK_STATES {F Fut Fs Dev} _.
Arguments TASK_FUTURES {F Fut Fs Dev} _.
Arguments CURRENT_TASK {F Fut Fs Dev} _.
Arguments NEXT_TASK_ID {F Fut Fs Dev} _.
Arguments devs {F Fut Fs Dev} _.

Section lenses.
Context {F Fut Fs Dev : Type}.
Notation S := (sys F Fut Fs Dev).

Definition smach_lens : lens S machine :=
  Lens smach (fun x s => Sys x (sanswers s) (objs s) (fss s) (futs s) (TASK_HANDLES s) (TASKS s)
    (TASK_STATES s) (TASK_FUTURES s) (CURRENT_TASK s) (NEXT_TASK_ID s) (devs s)).
Definition set_answers (x : list bool) (s : S) : S :=
  Sys (smach s) x (objs s) (fss s) (futs s) (TASK_HANDLES s) (TASKS s)
    (TASK_STATES s) (TASK_FUTURES s) (CURRENT_TASK s) (NEXT_TASK_ID s) (devs s).
Definition objs_lens : lens S (gmap Z (Z * ObjectKind F)) :=
  Lens objs (fun x s => Sys (smach s) (sanswers s) x (fss s) (futs s) (TASK_HANDLES s) (TASKS s)
    (TASK_STATES s) (TASK_FUTURES s) (CURRENT_TASK s) (NEXT_TASK_ID s) (devs s)).
Definition fss_lens : lens S (gmap Z (Z * Fs)) :=
  Lens fss (fun x s => Sys (smach s) (sanswers s) (objs s) x (futs s) (TASK_HANDLES s) (TASKS s)
    (TASK_STATES s) (TASK_FUTURES s) (CURRENT_TASK s) (NEXT_TASK_ID s) (devs s)).

Definition futs_lens : lens S (gmap Z (Z * Mutex Fut)) :=
  Lens futs (fun x s => Sys (smach s) (sanswers s) (objs s) (fss s) x (TASK_HANDLES s) (TASKS s)
    (TASK_STATES s) (TASK_FUTURES s) (CURRENT_TASK s) (NEXT_TASK_ID s) (devs s)).

(** The cell of an [EarlyInit] map, locked only after it has been dereferenced. *)
Definition cell_view {A} (d : A) (e : EarlyInit (Mutex A)) : Mutex A := default (Mutex_new d) (cell e).
Definition cell_set {A} (m : Mutex A) (e : EarlyInit (Mutex A)) : EarlyInit (Mutex A) :=
  EI (init e) (Some m).

Definition TASK_HANDLES_l : lens S (Mutex (gmap TaskId (gmap Handle Z))) :=
  Lens (fun s => cell_view ∅ (TASK_HANDLES s))
    (fun x s => Sys (smach s) (sanswers s) (objs s) (fss s) (futs s) (cell_set x (TASK_HANDLES s)) (TASKS s)
      (TASK_STATES s) (TASK_FUTURES s) (CURRENT_TASK s) (NEXT_TASK_ID s) (devs s)).
Definition TASKS_l : lens S (Mutex (gmap TaskId Task)) :=
  Lens (fun s => cell_view ∅ (TASKS s))
    (fun x s => Sys (smach s) (sanswers s) (objs s) (fss s) (futs s) (TASK_HANDLES s) (cell_set x (TASKS s))
      (TASK_STATES s) (TASK_FUTURES s) (CURRENT_TASK s) (NEXT_TASK_ID s) (devs s)).
Definition TASK_STATES_l : lens S (Mutex (gmap TaskId TaskState)) :=
  Lens (fun s => cell_view ∅ (TASK_STATES s))
    (fun x s => Sys (smach s) (sanswers s) (objs s) (fss s) (futs s) (TASK_HANDLES s) (TASKS s)
      (cell_set x (TASK_STATES s)) (TASK_FUTURES s) (CURRENT_TASK s) (NEXT_TASK_ID s) (devs s)).
Definition TASK_FUTURES_l : lens S (Mutex (gmap TaskId Z)) :=
  Lens (fun s => cell_view ∅ (TASK_FUTURES s))
    (fun x s => Sys (smach s) (sanswers s) (objs s) (fss s) (futs s) (TASK_HANDLES s) (TASKS s)
      (TASK_STATES s) (cell_set x (TASK_FUTURES s)) (CURRENT_TASK s) (NEXT_TASK_ID s) (devs s)).
Definition CURRENT_TASK_l : lens S (Mutex (option TaskId)) :=
  Lens CURRENT_TASK
    (fun x s => Sys (smach s) (sanswers s) (objs s) (fss s) (futs s) (TASK_HANDLES s) (TASKS s)
      (TASK_STATES s) (TASK_FUTURES s) x (NEXT_TASK_ID s) (devs s)).
Definition set_next_id (x : Z) (s : S) : S :=
  Sys (smach s) (sanswers s) (objs s) (fss s) (futs s) (TASK_HANDLES s) (TASKS s)
    (TASK_STATES s) (TASK_FUTURES s) (CURRENT_TASK s) x (devs s).

#[export] Instance sys_HasCpu : HasCpu S :=
  Lens (fun s => m_if (smach s)) (fun b s => set smach_lens (set_if b (smach s)) s).
#[export] Instance sys_HasCpu_laws : LensLaws (cpu_if : lens S bool).
Proof. split; [done | by intros [[]] | done]. Qed.

(** [MAP.lock()], through the [EarlyInit] cell: the scope of the guard. *)
Definition with_map {A B} (e : S -> EarlyInit (Mutex A)) (l : lens S (Mutex A)) (body : M S B) : M S B :=
  _ ← (fun s => lift (EarlyInit_deref (e s)) s);
  with_lock l body.

(** One answer of the allocator. *)
Definition answer : M S bool := fun s =>
  match sanswers s with
  | [] => Ret (false, s)
  | b :: bs => Ret (b, set_answers bs s)
  end.

(** [BTreeMap::insert], seen as an insertion into a finite map.  A key that is there
    only gets a new value.  A map with entries, but fewer than a leaf holds, is one
    leaf with a place left: nothing is allocated.  Any other insertion may ask for
    memory, which is one answer: that all the nodes it asked for were granted, or not.
    An empty map is as before when there is no memory for its root.  A larger map is
    not: the tree has counted the entry and may have lost others
    ([BTreeMaps.allocation_failures]).  What the kernel does from there on is not a
    matter of finite maps, and the model stops ([DAMAGED]).
    [KernelMaps.tree_insert_refines] justifies the three cases. *)
Definition DAMAGED : string := "a refused insertion has damaged a tree of eleven or more entries".
Definition leaf_capacity : nat := 11.
Definition has_place {V} (m : gmap Z V) : bool := bool_decide (0 < size m < leaf_capacity)%nat.

Definition is_empty {V} (m : gmap Z V) : bool := (size m =? 0)%nat.

Definition tree_insert {V} (m : gmap Z V) (k : Z) (v : V) : M S (result (gmap Z V) unit) :=
  match m !! k with
  | Some _ => mret (Ok (<[k := v]> m))
  | None =>
      if has_place m then mret (Ok (<[k := v]> m))
      else
        ok ← answer;
        if ok : bool then mret (Ok (<[k := v]> m))
        else if is_empty m then mret (Err tt)
        else ub DAMAGED
  end.

(** The same on a locked map, with the old value. *)
Definition map_insert {V} (l : lens S (Mutex (gmap Z V))) (k : Z) (v : V) : M S (result (option V) unit) :=
  m ← deref l;
  r ← tree_insert m k v;
  match r with
  | Ok m' => _ ← assign l m'; mret (Ok (m !! k))
  | Err _ => mret (Err tt)
  end.
End lenses.

(** ** Running a scope of a map's guard *)

Section with_map_rules.
Context {F Fut Fs Dev : Type}.
#[local] Abbreviation S := (sys F Fut Fs Dev).

Lemma wp_with_map {A B} (e : S -> EarlyInit (Mutex A)) (l : lens S (Mutex A))
    (body : M S B) (Q : B -> S -> Prop) s m :
  e s = EI SAFE (Some m) -> locked (view l (set cpu_if false s)) = false ->
  wp body (fun b s' =>
      let s'' := set l (MutexInner (value (view l s')) false) s' in
      view cpu_if s'' = false /\ Q b (set cpu_if (m_if (smach s)) s''))
     (set l (MutexInner (value (view l (set cpu_if false s))) true) (set cpu_if false s)) ->
  wp (with_map e l body) Q s.
Proof.
  intros He Hl H. unfold with_map. wp_step. eapply wp_run; [by rewrite He|].
  by apply wp_locked.
Qed.

(** A map that has been initialised and is not locked. *)
Definition free_map {A} (e : EarlyInit (Mutex A)) : Prop := exists a, e = EI SAFE (Some (Mutex_new a)).

Definition contents {A} (d : A) (e : EarlyInit (Mutex A)) : A := value (cell_view d e).

Lemma wp_answer (Q : bool -> S -> Prop) s :
  Q (match sanswers s with b :: _ => b | [] => false end) (set_answers (tail (sanswers s)) s) ->
  wp answer Q s.
Proof. unfold wp, answer. by destruct s as [m []]. Qed.
End with_map_rules.

(** ** Insertions *)

Section tree_inserts.
Context {F Fut Fs Dev : Type}.
#[local] Abbreviation S := (sys F Fut Fs Dev).

(** The answer to an insertion of a new key, and the state after it has been asked for. *)
Definition granted {V} (m : gmap Z V) (s : S) : bool :=
  has_place m || match sanswers s with b :: _ => b | [] => false end.
Definition asked {V} (m : gmap Z V) (s : S) : S :=
  set_answers (if has_place m then sanswers s else tail (sanswers s)) s.

Lemma asked_not_granted {V} (m : gmap Z V) (s : S) : granted m s = false ->
  asked m s = set_answers (tail (sanswers s)) s.
Proof. unfold granted, asked. by destruct (has_place m). Qed.

Lemma tree_insert_run {V} (m : gmap Z V) k v (s : S) : m !! k = None ->
  tree_insert m k v s =
  if granted m s then Ret (Ok (<[k := v]> m), asked m s)
  else if is_empty m then Ret (Err tt, asked m s)
  else UB DAMAGED.
Proof.
  intros Hk. unfold tree_insert, granted, asked. rewrite Hk. destruct (has_place m); [by destruct s|].
  cbn [orb]. destruct s as [mach [|[] ans]]; unfold mbind, M_bind, answer; cbn;
    by destruct (is_empty m).
Qed.

(** Few entries, or all the memory asked for: what keeps a map in one piece. *)
Definition few {V} (m : gmap Z V) : Prop := (size m < leaf_capacity)%nat.
#[export] Instance few_dec {V} (m : gmap Z V) : Decision (few m).
Proof. unfold few. apply _. Defined.

Definition all_granted (n : nat) (s : S) : Prop := take n (sanswers s) = replicate n true.
#[export] Instance all_granted_dec n (s : S) : Decision (all_granted n s).
Proof. unfold all_granted. apply _. Defined.

Lemma granted_all {V} (m : gmap Z V) n (s : S) : all_granted (1 + n) s -> granted m s = true.
Proof. unfold all_granted, granted. destruct (sanswers s) as [|[]]; [done| |done]. by rewrite orb_true_r. Qed.

Lemma asked_all {V} (m : gmap Z V) n (s : S) : all_granted (1 + n) s -> all_granted n (asked m s).
Proof.
  unfold all_granted, asked. cbn [sanswers set_answers]. destruct (has_place m); intros H.
  - apply (f_equal (take n)) in H. by rewrite take_take, take_replicate, Nat.min_l in H by lia.
  - destruct (sanswers s) as [|b ans]; [done|]. by injection H.
Qed.

Lemma few_empty {V} (m : gmap Z V) (s : S) : few m -> granted m s = false -> is_empty m = true.
Proof.
  unfold few, granted, has_place, is_empty. intros Hf. rewrite orb_false_iff, bool_decide_eq_false. intros [H _].
  apply Nat.eqb_eq. lia.
Qed.

Lemma is_empty_true {V} (m : gmap Z V) : is_empty m = true -> m = ∅.
Proof. intros H%Nat.eqb_eq. by apply map_size_empty_iff. Qed.

(** [m] does what [Q] says, unless it damages a tree, which only happens when [D]. *)
Definition wp_unless (D : Prop) {A} (m : M S A) (Q : A -> S -> Prop) (s : S) : Prop :=
  match m s with
  | Ret (a, s') => Q a s'
  | UB w => w = DAMAGED /\ D
  | Panic _ => False
  end.

Lemma wp_unless_wp (D : Prop) {A} (m : M S A) (Q : A -> S -> Prop) s : wp m Q s -> wp_unless D m Q s.
Proof. unfold wp, wp_unless. by destruct (m s) as [[]| |]. Qed.

Lemma wp_unless_not (D : Prop) {A} (m : M S A) (Q : A -> S -> Prop) s : ~ D -> wp_unless D m Q s -> wp m Q s.
Proof. unfold wp, wp_unless. destruct (m s) as [[]| |]; tauto. Qed.

Lemma wp_unless_run (D : Prop) {A B} (m : M S A) (k : A -> M S B) (Q : B -> S -> Prop) s a s' :
  m s = Ret (a, s') -> wp_unless D (k a) Q s' -> wp_unless D (m ≫= k) Q s.
Proof. intros H. unfold wp_unless, mbind, M_bind. by rewrite H. Qed.

Lemma wp_unless_bind (D : Prop) {A B} (m : M S A) (k : A -> M S B) (Q : B -> S -> Prop) s :
  wp_unless D m (fun a => wp_unless D (k a) Q) s -> wp_unless D (m ≫= k) Q s.
Proof. unfold wp_unless, mbind, M_bind. by destruct (m s) as [[]| |]. Qed.

Lemma wp_unless_mono (D : Prop) {A} (m : M S A) (Q Q' : A -> S -> Prop) s :
  (forall a s', Q a s' -> Q' a s') -> wp_unless D m Q s -> wp_unless D m Q' s.
Proof. unfold wp_unless. destruct (m s) as [[]| |]; naive_solver. Qed.

Lemma wp_unless_weaken (D D' : Prop) {A} (m : M S A) (Q : A -> S -> Prop) s :
  (D -> D') -> wp_unless D m Q s -> wp_unless D' m Q s.
Proof. unfold wp_unless. destruct (m s) as [[]| |]; tauto. Qed.

Lemma bind_ub {A B} (m : M S A) (k : A -> M S B) s w : m s = UB w -> (m ≫= k) s = UB w.
Proof. intros H. unfold mbind, M_bind. by rewrite H. Qed.

Lemma wp_unless_damaged (D : Prop) {A} (m : M S A) (Q : A -> S -> Prop) s : m s = UB DAMAGED -> D -> wp_unless D m Q s.
Proof. unfold wp_unless. by intros ->. Qed.
End tree_inserts.

(** ** The static maps as slots of the state

    A slot is a part of the state that is an [EarlyInit] map.  A scope of its
    guard, seen from outside, changes the contents of the slot and whatever else
    its body changes ([f]); the lock and the interrupt flag are as before. *)

Section slots.
Context {F Fut Fs Dev : Type}.
#[local] Abbreviation S := (sys F Fut Fs Dev).

Class Slot {A} (d : A) (e : S -> EarlyInit (Mutex A)) (l : lens S (Mutex A))
    (put : EarlyInit (Mutex A) -> S -> S) : Prop := {
  slot_view : forall s, view l s = cell_view d (e s);
  slot_set : forall m s, set l m s = put (cell_set m (e s)) s;
  slot_get_put : forall x s, e (put x s) = x;
  slot_put_put : forall x y s, put x (put y s) = put x s;
  slot_put_get : forall s, put (e s) s = s;
  slot_if : forall b s, put (e s) (set cpu_if b s) = set cpu_if b s;
  slot_get_if : forall b s, e (set cpu_if b s) = e s;
  slot_put_if : forall x b s, put x (set cpu_if b s) = set cpu_if b (put x s);
  slot_answers : forall x s, sanswers (put x s) = sanswers s;
  slot_set_answers : forall x bs s, set_answers bs (put x s) = put x (set_answers bs s)
}.

(** Changes that have nothing to do with a slot or the interrupt flag. *)
Class Commutes {A} (put : EarlyInit (Mutex A) -> S -> S) (f : S -> S) : Prop := {
  commutes_put : forall x s, f (put x s) = put x (f s);
  commutes_if : forall b s, f (set cpu_if b s) = set cpu_if b (f s)
}.

Lemma set_if_same (s : S) : set cpu_if (view cpu_if s) s = s.
Proof. apply set_view. Qed.

Section slot.
Context {A : Type} {d : A} {e : S -> EarlyInit (Mutex A)} {l : lens S (Mutex A)}.
Context {put : EarlyInit (Mutex A) -> S -> S} {HS : Slot d e l put}.

Definition held_map (m : A) (s : S) : S := put (EI SAFE (Some (MutexInner m true))) s.
Definition free_with (m : A) (s : S) : S := put (EI SAFE (Some (Mutex_new m))) s.

Lemma slot_deref m b s : e s = EI SAFE (Some (MutexInner m b)) -> deref l s = Ret (m, s).
Proof using HS. intros H. unfold deref, gets. by rewrite slot_view, H. Qed.

Lemma slot_deref_held m s : deref l (held_map m s) = Ret (m, held_map m s).
Proof using HS. by apply (slot_deref m true); unfold held_map; rewrite slot_get_put. Qed.

Lemma slot_assign_held m m' s : assign l m' (held_map m s) = Ret (tt, held_map m' s).
Proof using HS.
  unfold assign, modify, held_map. rewrite slot_set, slot_view, slot_get_put. cbn.
  by rewrite slot_put_put.
Qed.

Lemma slot_run {B} (body : M S B) (f : S -> S) `{!Commutes put f} s m m' b :
  e s = EI SAFE (Some (Mutex_new m)) ->
  body (held_map m (set cpu_if false s)) = Ret (b, held_map m' (f (set cpu_if false s))) ->
  with_map e l body s = Ret (b, free_with m' (f s)).
Proof using HS.
  intros He Hb. unfold with_map. erewrite bind_run; [|by rewrite He].
  unfold with_lock, lock. erewrite bind_run; [|].
  2:{ erewrite bind_run by apply begin_run. unfold gets.
      erewrite bind_run; [|reflexivity]. rewrite slot_view, slot_get_if, He.
      cbn [cell_view cell default from_option id locked Mutex_new].
      erewrite bind_run; [reflexivity|]. unfold set_locked, modify.
      rewrite slot_set, slot_view, slot_get_if, He.
      cbn [cell_view cell_set cell init default from_option id value Mutex_new]. reflexivity. }
  erewrite bind_run; [|exact Hb]. unfold drop_guard.
  erewrite bind_run; [reflexivity|]. erewrite bind_run; [|reflexivity].
  rewrite drop_critical_run. f_equal. f_equal.
  rewrite slot_set, slot_view. unfold held_map. rewrite slot_get_put.
  cbn [cell_view cell_set cell init default from_option id value].
  rewrite slot_put_put. unfold free_with, Mutex_new.
  pose proof (set_if_same s) as Hs. destruct (view cpu_if s).
  - by rewrite <- slot_put_if, <- commutes_if, set_set, Hs.
  - by rewrite Hs.
Qed.
End slot.

(** Insertions into a map that is held. *)
Lemma map_insert_run {V} (e : S -> EarlyInit (Mutex (gmap Z V))) (l : lens S (Mutex (gmap Z V))) put `{!Slot ∅ e l put}
    m k v s : m !! k = None ->
  map_insert l k v (held_map (put := put) m s) =
  if granted m s then Ret (Ok None, held_map (put := put) (<[k := v]> m) (asked m s))
  else if is_empty m then Ret (Err tt, held_map (put := put) m (asked m s))
  else UB DAMAGED.
Proof.
  intros Hk. unfold map_insert. erewrite bind_run by apply slot_deref_held.
  unfold mbind at 1, M_bind at 1. rewrite tree_insert_run by done. unfold granted, asked, held_map.
  rewrite !slot_answers, !slot_set_answers, Hk. destruct (has_place m || _).
  - by erewrite bind_run by apply slot_assign_held.
  - by destruct (is_empty m).
Qed.

(** A scope that damages a tree ends there. *)
Lemma with_map_ub {A B} (d : A) (e : S -> EarlyInit (Mutex A)) (l : lens S (Mutex A)) put `{!Slot d e l put}
    (body : M S B) s m w :
  e s = EI SAFE (Some (Mutex_new m)) -> body (held_map (put := put) m (set cpu_if false s)) = UB w ->
  with_map e l body s = UB w.
Proof.
  intros He Hb. unfold with_map. erewrite bind_run; [|by rewrite He].
  unfold with_lock, lock. erewrite bind_run; [|].
  2:{ erewrite bind_run by apply begin_run. unfold gets.
      erewrite bind_run; [|reflexivity]. rewrite slot_view, slot_get_if, He.
      cbn [cell_view cell default from_option id locked Mutex_new].
      erewrite bind_run; [reflexivity|]. unfold set_locked, modify.
      rewrite slot_set, slot_view, slot_get_if, He.
      cbn [cell_view cell_set cell init default from_option id value Mutex_new]. reflexivity. }
  by apply bind_ub.
Qed.

Definition put_handles (x : EarlyInit (Mutex (gmap TaskId (gmap Handle Z)))) (s : S) : S :=
  Sys (smach s) (sanswers s) (objs s) (fss s) (futs s) x (TASKS s) (TASK_STATES s) (TASK_FUTURES s)
    (CURRENT_TASK s) (NEXT_TASK_ID s) (devs s).
Definition put_tasks (x : EarlyInit (Mutex (gmap TaskId Task))) (s : S) : S :=
  Sys (smach s) (sanswers s) (objs s) (fss s) (futs s) (TASK_HANDLES s) x (TASK_STATES s)
    (TASK_FUTURES s) (CURRENT_TASK s) (NEXT_TASK_ID s) (devs s).
Definition put_states (x : EarlyInit (Mutex (gmap TaskId TaskState))) (s : S) : S :=
  Sys (smach s) (sanswers s) (objs s) (fss s) (futs s) (TASK_HANDLES s) (TASKS s) x
    (TASK_FUTURES s) (CURRENT_TASK s) (NEXT_TASK_ID s) (devs s).
Definition put_futures (x : EarlyInit (Mutex (gmap TaskId Z))) (s : S) : S :=
  Sys (smach s) (sanswers s) (objs s) (fss s) (futs s) (TASK_HANDLES s) (TASKS s) (TASK_STATES s)
    x (CURRENT_TASK s) (NEXT_TASK_ID s) (devs s).
Definition put_current (x : option TaskId) (s : S) : S := set CURRENT_TASK_l (Mutex_new x) s.
Definition put_objs (x : gmap Z (Z * ObjectKind F)) (s : S) : S := set objs_lens x s.
Definition put_fss (x : gmap Z (Z * Fs)) (s : S) : S := set fss_lens x s.
Definition put_futs (x : gmap Z (Z * Mutex Fut)) (s : S) : S := set futs_lens x s.

#[local] Ltac by_fields :=
  split; try (intros; reflexivity); by intros [].
#[export] Instance handles_slot : Slot ∅ TASK_HANDLES TASK_HANDLES_l put_handles.
Proof. by_fields. Qed.
#[export] Instance tasks_slot : Slot ∅ TASKS TASKS_l put_tasks.
Proof. by_fields. Qed.
#[export] Instance states_slot : Slot ∅ TASK_STATES TASK_STATES_l put_states.
Proof. by_fields. Qed.
#[export] Instance futures_slot : Slot ∅ TASK_FUTURES TASK_FUTURES_l put_futures.
Proof. by_fields. Qed.

(** A scope of the mutex of the current task. *)
Lemma current_run {B} (body : M S B) (c c' : option TaskId) (b : B) (s : S) :
  CURRENT_TASK s = Mutex_new c ->
  body (set CURRENT_TASK_l (MutexInner c true) (set cpu_if false s)) =
    Ret (b, set CURRENT_TASK_l (MutexInner c' true) (set cpu_if false s)) ->
  with_lock CURRENT_TASK_l body s = Ret (b, put_current c' s).
Proof.
  intros Hc Hb. unfold with_lock, lock. erewrite bind_run; [|].
  2:{ erewrite bind_run by apply begin_run. unfold gets.
      erewrite bind_run; [|reflexivity]. cbn. rewrite Hc. cbn. reflexivity. }
  erewrite bind_run; [|exact Hb]. erewrite bind_run; [reflexivity|].
  unfold drop_guard. erewrite bind_run; [|reflexivity]. rewrite drop_critical_run. pose proof (set_if_same s) as Hs.
  destruct s as [[] ? ? ? ? ? ? ? ? ? ? ?]. cbn in *. by destruct m_if.
Qed.
End slots.

(** Changes of one part commute with changes of the others. *)
#[export] Hint Extern 1 (Commutes _ _) => (split; reflexivity) : typeclass_instances.
