(* ===== verification/Object.v ===== *)
(** * Object: kernel objects and handles ([kernel/src/object.rs])

    Objects are reached through [Arc]s; each task has a table from handles to
    objects.  [drop_file] is the drop glue of a file. *)

From stdpp Require Import sorting.
From S2P Require Import Prelude Interface Sync Machine Phys Arc Interrupt System.

(** [BTreeMap::iter]: the entries in ascending order of their keys. *)
Definition key_le {V} (x y : Z * V) : Prop := x.1 <= y.1.
#[export] Instance key_le_dec {V} : RelDecision (@key_le V).
Proof. intros x y. unfold key_le. apply _. Defined.

Definition sorted {V} (m : gmap Z V) : list (Z * V) := merge_sort key_le (map_to_list m).

(** [keys().rev().nth(0)] *)
Definition last_key {V} (m : gmap Z V) : option Z := last (sorted m).*1.

Section object.
Context {F Fut Fs Dev : Type}.
#[local] Abbreviation S := (sys F Fut Fs Dev).
Context (drop_file : F -> M S unit).

(** ** Objects *)

(** The drop glue of [ObjectKind]; a [PageCtx] is its [Phys]. *)
Definition drop_object (k : ObjectKind F) : M S unit :=
  match k with
  | PageCtx_ pml4 => zoom smach_lens (drop_phys pml4)
  | File_ f => drop_file f
  end.

(** [Object::new] and [ObjectRef::new] *)
Definition Object_new (kind : ObjectKind F) : M S (result Z SysError) :=
  r ← Arc_new objs_lens answer drop_object kind;
  mret (map_err (fun _ => MemoryExhausted) r).

Definition clone_ref (ref : Z) : M S Z := Arc_clone objs_lens ref.
Definition drop_ref (ref : Z) : M S unit := Arc_drop objs_lens drop_object ref.

(** [ObjectKindT::as_ref] *)
Definition as_page_ctx (k : ObjectKind F) : result Z SysError :=
  match k with PageCtx_ a => Ok a | File_ _ => Err WrongObjectKind end.
Definition as_file (k : ObjectKind F) : result F SysError :=
  match k with File_ a => Ok a | PageCtx_ _ => Err WrongObjectKind end.

(** [downcast]: consumes the reference, and drops it on a mismatch. *)
Definition downcast {T} (as_kind : ObjectKind F -> result T SysError) (ref : Z) :
  M S (result Z SysError) :=
  k ← Arc_deref objs_lens ref;
  match as_kind k with
  | Ok _ => mret (Ok ref)
  | Err e => _ ← drop_ref ref; mret (Err e)
  end.

(** [ObjectRef::object] *)
Definition object {T} (as_kind : ObjectKind F -> result T SysError) (ref : Z) : M S T :=
  k ← Arc_deref objs_lens ref;
  expect_ok (as_kind k) "unexpected object kind".

(** ** Handles *)

Definition Handle_from_u64 (u : Z) : option Handle := if u =? 0 then None else Some u.
Definition Handle_into_u64 (h : Handle) : Z := h.

(** [object::init] *)
Definition object_init : M S unit := fun s =>
  match EarlyInit_set (TASK_HANDLES s) (Mutex_new ∅) with
  | Ret e => Ret (tt, Sys (smach s) (sanswers s) (objs s) (fss s) (futs s) e (TASKS s) (TASK_STATES s)
               (TASK_FUTURES s) (CURRENT_TASK s) (NEXT_TASK_ID s) (devs s))
  | Panic m => Panic m
  | UB m => UB m
  end.

Definition lock_handles {B} (body : M S B) : M S B := with_map TASK_HANDLES TASK_HANDLES_l body.

(** The handle after the highest one in use. *)
Definition next_handle (handles : gmap Handle Z) : M S Handle :=
  match last_key handles with
  | None => mret 1
  | Some h =>
      n ← (fun s => lift (u64_add (build (smach s)) h 1) s);
      if n =? 0 then panic "handle wrap around" else mret n
  end.

(** [put]; the boolean of the inner result says whether [object] is still owned by
    the caller when an error is returned. *)
Definition put (task_id : TaskId) (object : Z) : M S (result Handle SysError) :=
  r ← lock_handles (
    task_handles ← deref TASK_HANDLES_l;
    ready ← match task_handles !! task_id with
            | Some _ => mret (Ok None)
            | None => map_insert TASK_HANDLES_l task_id ∅
            end;
    match ready with
    | Err _ => mret (Err tt)
    | Ok _ =>
        task_handles ← deref TASK_HANDLES_l;
        handles ← expect (task_handles !! task_id) "should never fail";
        new_id ← next_handle handles;
        inserted ← tree_insert handles new_id object;
        match inserted with
        | Ok handles' =>
            _ ← assign TASK_HANDLES_l (<[task_id := handles']> task_handles);
            mret (Ok (Some new_id))
        | Err _ =>
            _ ← drop_ref object;
            mret (Ok None)
        end
    end);
  match r with
  | Ok (Some h) => mret (Ok h)
  | Ok None => mret (Err MemoryExhausted)
  | Err _ => _ ← drop_ref object; mret (Err MemoryExhausted)
  end.

Definition get (task_id : TaskId) (handle : Handle) : M S (option Z) :=
  lock_handles (
    task_handles ← deref TASK_HANDLES_l;
    match (task_handles !! task_id) ≫= (fun handles => handles !! handle) with
    | Some ref => ref ← clone_ref ref; mret (Some ref)
    | None => mret None
    end).

(** [release]: the reference moves to the caller. *)
Definition release (task_id : TaskId) (handle : Handle) : M S (option Z) :=
  lock_handles (
    task_handles ← deref TASK_HANDLES_l;
    match task_handles !! task_id with
    | None => mret None
    | Some handles =>
        _ ← assign TASK_HANDLES_l (<[task_id := delete handle handles]> task_handles);
        mret (handles !! handle)
    end).

Definition drop_all_for_task (task_id : TaskId) : M S unit :=
  lock_handles (
    task_handles ← deref TASK_HANDLES_l;
    _ ← assign TASK_HANDLES_l (delete task_id task_handles);
    match task_handles !! task_id with
    | Some handles => for_each (fun hr => drop_ref hr.2) (sorted handles)
    | None => mret tt
    end).
End object.

Lemma map_alter_Some {V} (f : V -> V) (m : gmap Z V) i x :
  m !! i = Some x -> alter f i m = <[i := f x]> m.
Proof.
  intros H. apply map_eq. intros j. destruct (decide (i = j)) as [->|Hj].
  - by rewrite lookup_alter_eq, H, lookup_insert_eq.
  - by rewrite lookup_alter_ne, lookup_insert_ne.
Qed.

Lemma map_alter_None {V} (f : V -> V) (m : gmap Z V) i : m !! i = None -> alter f i m = m.
Proof.
  intros H. apply map_eq. intros j. destruct (decide (i = j)) as [->|Hj].
  - by rewrite lookup_alter_eq, H.
  - by rewrite lookup_alter_ne.
Qed.

(** ** Ordered iteration *)

Lemma sorted_perm {V} (m : gmap Z V) : sorted m ≡ₚ map_to_list m.
Proof. apply merge_sort_Permutation. Qed.

Lemma elem_of_sorted {V} (m : gmap Z V) k v : (k, v) ∈ sorted m <-> m !! k = Some v.
Proof. rewrite sorted_perm. apply elem_of_map_to_list. Qed.

Lemma sorted_sorted {V} (m : gmap Z V) : StronglySorted key_le (sorted m).
Proof.
  apply Sorted_StronglySorted; [intros x y z; unfold key_le; lia|].
  apply Sorted_merge_sort. intros x y. unfold key_le. lia.
Qed.

Lemma StronglySorted_last {V} (l : list (Z * V)) x :
  StronglySorted key_le l -> last l = Some x -> forall y, y ∈ l -> key_le y x.
Proof.
  induction 1 as [|z l Hs IH Hall]; [done|]. intros Hl y Hy.
  destruct l as [|w l].
  - cbn in Hl. injection Hl as ->. apply list_elem_of_singleton in Hy as ->. unfold key_le. lia.
  - cbn in Hl. change (last (w :: l) = Some x) in Hl. apply elem_of_cons in Hy as [->|Hy].
    + rewrite Forall_forall in Hall. apply Hall. by apply last_Some_elem_of in Hl.
    + by apply IH.
Qed.

Lemma last_key_spec {V} (m : gmap Z V) :
  match last_key m with
  | Some h => is_Some (m !! h) /\ forall k v, m !! k = Some v -> k <= h
  | None => m = ∅
  end.
Proof.
  unfold last_key. rewrite fmap_last. destruct (last (sorted m)) as [[h v]|] eqn:Hl; cbn.
  - split.
    + exists v. apply elem_of_sorted. by apply last_Some_elem_of.
    + intros k w Hk%elem_of_sorted. exact (StronglySorted_last _ _ (sorted_sorted m) Hl _ Hk).
  - apply last_None in Hl. apply map_to_list_empty_iff. apply Permutation_nil_r.
    by rewrite <- sorted_perm, Hl.
Qed.

(** ** Handle tables *)

Section handles.
Context {F Fut Fs Dev : Type}.
#[local] Abbreviation S := (sys F Fut Fs Dev).
Context (drop_file : F -> M S unit).

(** The object behind a handle of a task. *)
Definition handle_at (s : S) (t : TaskId) (h : Handle) : option Z :=
  contents ∅ (TASK_HANDLES s) !! t ≫= (fun hs => hs !! h).

(** Everything but the handle tables, the allocator's answers and the objects. *)
Definition same_rest (s s' : S) : Prop :=
  smach s' = smach s /\ fss s' = fss s /\ futs s' = futs s /\ TASKS s' = TASKS s /\ TASK_STATES s' = TASK_STATES s /\
  TASK_FUTURES s' = TASK_FUTURES s /\ CURRENT_TASK s' = CURRENT_TASK s /\ NEXT_TASK_ID s' = NEXT_TASK_ID s.

Lemma wp_lock_handles {B} (body : M S B) (Q : B -> S -> Prop) s m :
  TASK_HANDLES s = EI SAFE (Some (Mutex_new m)) ->
  wp body (fun b s' => exists m', TASK_HANDLES s' = EI SAFE (Some (MutexInner m' true)) /\
      m_if (smach s') = false /\
      Q b (set cpu_if (m_if (smach s)) (put_handles (EI SAFE (Some (Mutex_new m'))) s')))
    (put_handles (EI SAFE (Some (MutexInner m true))) (set cpu_if false s)) ->
  wp (lock_handles body) Q s.
Proof.
  intros Hm H. unfold lock_handles. eapply wp_with_map; [exact Hm| |].
  - cbn. by rewrite Hm.
  - cbn. rewrite Hm. eapply wp_mono; [|exact H]. intros b s' (m' & Hm' & Hif & HQ).
    cbn. rewrite Hm'. by split.
Qed.

Lemma restore_if (s : S) m : TASK_HANDLES s = EI SAFE (Some (Mutex_new m)) ->
  set cpu_if (m_if (smach s))
    (put_handles (EI SAFE (Some (Mutex_new m))) (put_handles (EI SAFE (Some (MutexInner m true))) (set cpu_if false s))) = s.
Proof. destruct s as [[] ? ? ? ? ? ? ? ? ? ? ?]. cbn. by intros ->. Qed.

Lemma clone_ref_run ref n k (s : S) :
  objs s !! ref = Some (n, k) ->
  clone_ref ref s = Ret (ref, put_objs (<[ref := (wrap64 (n + 1), k)]> (objs s)) s).
Proof. intros H. unfold clone_ref, Arc_clone, as_ref, mbind, M_bind, gets. cbn. by rewrite H. Qed.

Lemma drop_ref_shared_run ref n k (s : S) :
  objs s !! ref = Some (n, k) -> 1 < n -> drop_ref drop_file ref s =
  Ret (tt, put_objs (<[ref := (wrap64 (n - 1), k)]> (objs s)) s).
Proof.
  intros H Hn. unfold drop_ref, Arc_drop, as_ref, mbind, M_bind, gets. cbn. rewrite H. cbn.
  rewrite (proj2 (Z.eqb_neq n 0)), (proj2 (Z.eqb_neq n 1)) by lia. done.
Qed.

Lemma deref_handles_run (s : S) m b :
  TASK_HANDLES s = EI SAFE (Some (MutexInner m b)) -> deref TASK_HANDLES_l s = Ret (m, s).
Proof. intros H. unfold deref, gets. cbn. by rewrite H. Qed.

Lemma assign_handles_run (s : S) m m' b :
  TASK_HANDLES s = EI SAFE (Some (MutexInner m b)) ->
  assign TASK_HANDLES_l m' s = Ret (tt, put_handles (EI SAFE (Some (MutexInner m' b))) s).
Proof. intros H. unfold assign, modify. cbn. by rewrite H. Qed.

Lemma get_run t h (s : S) m :
  TASK_HANDLES s = EI SAFE (Some (Mutex_new m)) ->
  (forall ref, m !! t ≫= (fun hs => hs !! h) = Some ref -> is_Some (objs s !! ref)) ->
  get t h s = Ret (match m !! t ≫= (fun hs => hs !! h) with
    | Some ref => match objs s !! ref with
      | Some (n, k) => (Some ref, put_objs (<[ref := (wrap64 (n + 1), k)]> (objs s)) s)
      | None => (None, s) end
    | None => (None, s) end).
Proof.
  intros Hm Hl. destruct (match m !! t ≫= (fun hs => hs !! h) with | Some _ => _ | None => _ end) as [a s'] eqn:E.
  apply wp_Q_run. unfold get. eapply wp_lock_handles; [exact Hm|]. wp_step.
  eapply wp_run; [by eapply deref_handles_run|].
  destruct (m !! t ≫= (fun hs => hs !! h)) as [ref|] eqn:Href.
  - destruct (Hl ref eq_refl) as [[n k] Hk]. rewrite Hk in E. injection E as <- <-.
    wp_step. eapply wp_run; [by apply clone_ref_run|]. wp_step. exists m. split_and!; [done|done|done|].
    destruct s as [[] ? ? ? ? ? ? ? ? ? ? ?]. cbn in *. by subst.
  - injection E as <- <-. wp_step. exists m. split_and!; [done|done|done|]. by apply restore_if.
Qed.

Lemma get_found_run t h (s : S) m ref n k :
  TASK_HANDLES s = EI SAFE (Some (Mutex_new m)) -> m !! t ≫= (fun hs => hs !! h) = Some ref ->
  objs s !! ref = Some (n, k) ->
  get t h s = Ret (Some ref, put_objs (<[ref := (wrap64 (n + 1), k)]> (objs s)) s).
Proof.
  intros Hm Hr Ho. rewrite (get_run _ _ _ m Hm); rewrite Hr; [by rewrite Ho|].
  intros ? [= <-]. eauto.
Qed.

Lemma release_run t h (s : S) m :
  TASK_HANDLES s = EI SAFE (Some (Mutex_new m)) ->
  release t h s = Ret (m !! t ≫= (fun hs => hs !! h),
    put_handles (EI SAFE (Some (Mutex_new (alter (delete h) t m)))) s).
Proof.
  intros Hm. apply wp_Q_run. unfold release. eapply wp_lock_handles; [exact Hm|]. wp_step.
  eapply wp_run; [by eapply deref_handles_run|].
  destruct (m !! t) as [hs|] eqn:Ht.
  - wp_step. eapply wp_run; [by eapply assign_handles_run|]. wp_step. exists (<[t := delete h hs]> m). split_and!; [done|done|done|].
    rewrite (map_alter_Some _ _ _ _ Ht).
    destruct s as [[] ? ? ? ? ? ? ? ? ? ? ?]. cbn in *. by subst.
  - wp_step. exists m. split_and!; [done|done|done|].
    rewrite (map_alter_None _ _ _ Ht).
    destruct s as [[] ? ? ? ? ? ? ? ? ? ? ?]. cbn in *. by subst.
Qed.

(** The handle [put] chooses. *)
Definition fresh_handle (hs : gmap Handle Z) : Z := match last_key hs with None => 1 | Some h => h + 1 end.

(** Handles are nonzero 64-bit numbers and the last one is not used up. *)
Definition table_wf (hs : gmap Handle Z) : Prop := forall h ref, hs !! h = Some ref -> 0 < h < u64_limit - 1.

Lemma fresh_handle_spec hs : table_wf hs ->
  0 < fresh_handle hs < u64_limit /\ forall h ref, hs !! h = Some ref -> h < fresh_handle hs.
Proof.
  intros Hwf. unfold fresh_handle. pose proof (last_key_spec hs) as H.
  destruct (last_key hs) as [h|].
  - destruct H as [[ref Hh] Hmax]. specialize (Hwf h ref Hh). split; [lia|].
    intros h' ref' Hh'. specialize (Hmax h' ref' Hh'). lia.
  - subst. split; [done|]. intros h ref. by rewrite lookup_empty.
Qed.

Lemma next_handle_run hs (s : S) : table_wf hs -> next_handle hs s = Ret (fresh_handle hs, s).
Proof.
  intros Hwf. pose proof (fresh_handle_spec hs Hwf) as [Hf _]. revert Hf.
  unfold next_handle, fresh_handle. destruct (last_key hs) as [h|]; [|done]. intros Hf.
  unfold mbind, M_bind, lift. unfold u64_add. rewrite arith_exact by (unfold in_u64; lia).
  by rewrite (proj2 (Z.eqb_neq (h + 1) 0)) by lia.
Qed.

(** [put] makes two insertions: a table for a task without one, and the entry. *)
Definition table_of (m : gmap TaskId (gmap Handle Z)) (t : TaskId) : gmap Handle Z := default ∅ (m !! t).
Definition with_table (m : gmap TaskId (gmap Handle Z)) (t : TaskId) : gmap TaskId (gmap Handle Z) := <[t := table_of m t]> m.
Definition table_granted (m : gmap TaskId (gmap Handle Z)) (t : TaskId) (s : S) : bool :=
  match m !! t with Some _ => true | None => granted m s end.
Definition table_asked (m : gmap TaskId (gmap Handle Z)) (t : TaskId) (s : S) : S :=
  match m !! t with Some _ => s | None => asked m s end.

(** [put]'s scope: the insertion of the table, and that of the entry. *)
Lemma put_table_run {B} t (s : S) m (k : result (option (gmap Handle Z)) unit -> M S B) :
  (ready ← match m !! t with
           | Some _ => mret (Ok None)
           | None => map_insert TASK_HANDLES_l t ∅
           end; k ready) (held_map (put := put_handles) m s) =
  if table_granted m t s then k (Ok None) (held_map (put := put_handles) (with_table m t) (table_asked m t s))
  else if is_empty m then k (Err tt) (held_map (put := put_handles) m (table_asked m t s))
  else UB DAMAGED.
Proof.
  unfold table_granted, table_asked, with_table, table_of. destruct (m !! t) as [hs|] eqn:Ht; cbn [default from_option id].
  - rewrite insert_id by done. reflexivity.
  - unfold mbind at 1, M_bind at 1. rewrite (map_insert_run TASK_HANDLES TASK_HANDLES_l put_handles) by done.
    destruct (granted m s); [reflexivity|]. by destruct (is_empty m).
Qed.

Definition put_entry (t : TaskId) (object : Z) : M S (result (option Handle) unit) :=
  task_handles ← deref TASK_HANDLES_l;
  handles ← expect (task_handles !! t) "should never fail";
  new_id ← next_handle handles;
  inserted ← tree_insert handles new_id object;
  match inserted with
  | Ok handles' =>
      _ ← assign TASK_HANDLES_l (<[t := handles']> task_handles);
      mret (Ok (Some new_id))
  | Err _ =>
      _ ← drop_ref drop_file object;
      mret (Ok None)
  end.

Lemma table_wf_fresh hs : table_wf hs -> hs !! fresh_handle hs = None.
Proof.
  intros Hwf. destruct (hs !! fresh_handle hs) as [r|] eqn:E; [|done].
  pose proof (proj2 (fresh_handle_spec hs Hwf) _ r E). lia.
Qed.

Lemma put_entry_run t ref (s : S) m n k : table_wf (table_of m t) -> objs s !! ref = Some (n, k) -> 1 < n < u64_limit ->
  let hs := table_of m t in
  put_entry t ref (held_map (put := put_handles) (with_table m t) s) =
  if granted hs s then
    Ret (Ok (Some (fresh_handle hs)),
      held_map (put := put_handles) (<[t := <[fresh_handle hs := ref]> hs]> m) (asked hs s))
  else if is_empty hs then
    Ret (Ok None, held_map (put := put_handles) (with_table m t) (put_objs (<[ref := (n - 1, k)]> (objs s)) (asked hs s)))
  else UB DAMAGED.
Proof.
  intros Hwf Hk Hn hs. unfold put_entry. erewrite bind_run by apply slot_deref_held.
  erewrite bind_run by (unfold with_table, expect; by rewrite lookup_insert_eq).
  erewrite bind_run by (by apply next_handle_run).
  unfold mbind at 1, M_bind at 1. rewrite tree_insert_run by (by apply table_wf_fresh).
  change (granted (table_of m t) (held_map (put := put_handles) ?x s)) with (granted hs s).
  fold hs. destruct (granted hs s); [|destruct (is_empty hs); [|done]].
  - erewrite bind_run; [|exact (slot_assign_held (with_table m t) _ (asked hs s))].
    unfold with_table. by rewrite insert_insert_eq.
  - erewrite bind_run; [reflexivity|]. etrans; [apply (drop_ref_shared_run ref n k); [exact Hk|lia]|].
    by rewrite wrap64_small by (unfold in_u64; lia).
Qed.

(** [put]: three outcomes, by what the allocator grants. *)
Definition put_done (m : gmap TaskId (gmap Handle Z)) (s : S) : S := put_handles (EI SAFE (Some (Mutex_new m))) s.

Lemma put_run t ref (s : S) m n k :
  TASK_HANDLES s = EI SAFE (Some (Mutex_new m)) -> table_wf (table_of m t) ->
  objs s !! ref = Some (n, k) -> 1 < n < u64_limit ->
  let hs := table_of m t in let s1 := table_asked m t s in
  put drop_file t ref s =
  if table_granted m t s then
    if granted hs s1 then
      Ret (Ok (fresh_handle hs), put_done (<[t := <[fresh_handle hs := ref]> hs]> m) (asked hs s1))
    else if is_empty hs then
      Ret (Err MemoryExhausted, put_done (with_table m t) (put_objs (<[ref := (n - 1, k)]> (objs s)) (asked hs s1)))
    else UB DAMAGED
  else if is_empty m then
    Ret (Err MemoryExhausted, put_done m (put_objs (<[ref := (n - 1, k)]> (objs s)) s1))
  else UB DAMAGED.
Proof.
  intros Hm Hwf Hk Hn hs s1.
  assert (table_granted m t (set cpu_if false s) = table_granted m t s) as Hg by (unfold table_granted; by destruct (m !! t)).
  assert (granted hs (table_asked m t (set cpu_if false s)) = granted hs s1) as Hg2
    by (unfold table_asked, s1; unfold table_asked; by destruct (m !! t)).
  assert (exists ans, s1 = set_answers ans s /\ table_asked m t (set cpu_if false s) = set_answers ans (set cpu_if false s))
    as (ans & Hs1 & Ht1).
  { unfold s1, table_asked. destruct (m !! t); [exists (sanswers s); by destruct s|eexists; done]. }
  pose (body := task_handles ← deref TASK_HANDLES_l;
    ready ← match task_handles !! t with
            | Some _ => mret (Ok None)
            | None => map_insert TASK_HANDLES_l t ∅
            end;
    match ready with Err _ => mret (Err tt) | Ok _ => put_entry t ref end).
  assert (body (held_map (put := put_handles) m (set cpu_if false s)) =
    if table_granted m t s then put_entry t ref (held_map (put := put_handles) (with_table m t) (set_answers ans (set cpu_if false s)))
    else if is_empty m then Ret (Err tt, held_map (put := put_handles) m (set_answers ans (set cpu_if false s)))
    else UB DAMAGED) as Hb.
  { unfold body. erewrite bind_run by apply slot_deref_held.
    rewrite (put_table_run t _ m (fun ready => match ready with Err _ => mret (Err tt) | Ok _ => put_entry t ref end)).
    by rewrite Hg, Ht1. }
  change (put drop_file t ref) with (r ← with_map TASK_HANDLES TASK_HANDLES_l body;
    match r with
    | Ok (Some h) => mret (Ok h)
    | Ok None => mret (Err MemoryExhausted)
    | Err _ => _ ← drop_ref drop_file ref; mret (Err MemoryExhausted)
    end).
  rewrite Ht1 in Hg2.
  destruct (table_granted m t s); [|destruct (is_empty m) eqn:He].
  - rewrite (put_entry_run _ _ _ m n k) in Hb by done. fold hs in Hb. rewrite Hg2 in Hb.
    destruct (granted hs s1); [|destruct (is_empty hs)].
    + erewrite bind_run; [|eapply (slot_run _ (fun s => asked hs (set_answers ans s)) s m); [exact Hm|exact Hb]].
      by rewrite Hs1.
    + erewrite bind_run; [|eapply (slot_run _ (fun s' => put_objs (<[ref := (n - 1, k)]> (objs s)) (asked hs (set_answers ans s'))) s m);
        [exact Hm|exact Hb]].
      by rewrite Hs1.
    + apply bind_ub. eapply (with_map_ub ∅ TASK_HANDLES TASK_HANDLES_l put_handles); [exact Hm|exact Hb].
  - erewrite bind_run; [|eapply (slot_run _ (fun s => set_answers ans s) s m m); [exact Hm|exact Hb]].
    cbv beta iota. erewrite bind_run; [|apply (drop_ref_shared_run ref n k); [exact Hk|lia]].
    by rewrite wrap64_small, Hs1 by (unfold in_u64; lia).
  - apply bind_ub. eapply (with_map_ub ∅ TASK_HANDLES TASK_HANDLES_l put_handles); [exact Hm|exact Hb].
Qed.
Lemma put_all_granted t (s : S) m : all_granted 2 s ->
  table_granted m t s = true /\ granted (table_of m t) (table_asked m t s) = true.
Proof.
  intros H. unfold table_granted, table_asked. destruct (m !! t).
  - split; [done|]. by eapply granted_all.
  - split; [by eapply granted_all|]. eapply (granted_all _ 0), asked_all, H.
Qed.

Lemma handle_at_table t (s : S) m h : TASK_HANDLES s = EI SAFE (Some (Mutex_new m)) ->
  handle_at s t h = table_of m t !! h.
Proof. intros Hm. unfold handle_at, contents, table_of. rewrite Hm. cbn. by destruct (m !! t). Qed.

(** The handles once a table has been put into the map. *)
Lemma handle_at_put t hs (s s' : S) m t' h : TASK_HANDLES s = EI SAFE (Some (Mutex_new m)) ->
  TASK_HANDLES s' = EI SAFE (Some (Mutex_new (<[t := hs]> m))) ->
  handle_at s' t' h = if decide (t' = t) then hs !! h else handle_at s t' h.
Proof.
  intros Hm Hm'. rewrite (handle_at_table _ s' _ _ Hm'), (handle_at_table _ s _ _ Hm). unfold table_of.
  destruct (decide (t' = t)) as [->|]; [by rewrite lookup_insert_eq|by rewrite lookup_insert_ne].
Qed.
(** A new entry in a task's table: looked up, and released again. *)
Lemma entry_life t h ref n k (s s1 : S) m : TASK_HANDLES s = EI SAFE (Some (Mutex_new m)) ->
  table_of m t !! h = None -> objs s !! ref = Some (n, k) -> 0 < n < u64_limit - 1 ->
  TASK_HANDLES s1 = EI SAFE (Some (Mutex_new (<[t := <[h := ref]> (table_of m t)]> m))) ->
  objs s1 = objs s -> same_rest s s1 ->
  (forall t' h', handle_at s1 t' h' = if decide (t' = t /\ h' = h) then Some ref else handle_at s t' h') /\
  wp (get t h) (fun r2 s2 => r2 = Some ref /\ s2 = put_objs (<[ref := (n + 1, k)]> (objs s)) s1) s1 /\
  wp (release t h) (fun r3 s3 => r3 = Some ref /\ objs s3 = objs s /\ same_rest s s3 /\
    forall t' h', handle_at s3 t' h' = handle_at s t' h') s1.
Proof.
  intros Hm Hfree Hk Hn Hm1 Ho Hsr. pose proof (fun h' => handle_at_table t s m h' Hm) as Hat. split_and!.
  - intros t' h'. rewrite (handle_at_put t _ s s1 m) by done. destruct (decide (t' = t)) as [->|Ht].
    + destruct (decide (h' = h)) as [->|Hne]; [rewrite lookup_insert_eq, decide_True by done; done|].
      rewrite lookup_insert_ne, decide_False by naive_solver. by rewrite Hat.
    + by rewrite decide_False by naive_solver.
  - rewrite <- Ho in Hk. eapply wp_run; [eapply get_found_run; [done| |exact Hk]|].
    + rewrite lookup_insert_eq. cbn. by rewrite lookup_insert_eq.
    + rewrite Ho. cbn. by rewrite wrap64_small by (unfold in_u64; lia).
  - eapply wp_run; [by eapply release_run|]. rewrite lookup_insert_eq. cbn.
    rewrite lookup_insert_eq. split_and!; [done|done|done|]. intros t' h'.
    rewrite (map_alter_Some _ _ _ (<[h := ref]> (table_of m t))), insert_insert_eq by apply lookup_insert_eq.
    rewrite (handle_at_put t (delete h (<[h := ref]> (table_of m t))) s _ m) by done.
    rewrite delete_insert_id by done. destruct (decide (t' = t)) as [->|]; [by rewrite Hat|done].
Qed.
End handles.

(** C23: the life of a handle, whatever the allocator answers.  [put] of an object the
    caller holds besides: if the result is a handle, it is new, nonzero, above all
    others and reaches exactly this object, all other handles are as before, [get]
    through it adds one reference to the object, and [release] removes exactly it
    and hands the reference back; if it is an error, it is [MemoryExhausted], every
    handle is as before and one reference has been dropped.  It is a handle if the two
    insertions get all the memory they ask for.  If they do not, and the map of the
    tables or the table of the task has eleven entries or more, the code may instead
    damage that tree, and the theorem says nothing further; with fewer it never does. *)
Theorem handle_lifecycle {F Fut Fs Dev} (drop_file : F -> M (sys F Fut Fs Dev) unit) t ref (s : sys F Fut Fs Dev) m n k :
  TASK_HANDLES s = EI SAFE (Some (Mutex_new m)) -> table_wf (table_of m t) ->
  objs s !! ref = Some (n, k) -> 1 < n < u64_limit - 1 ->
  wp_unless (~ all_granted 2 s /\ ~ (few m /\ few (table_of m t))) (put drop_file t ref) (fun r s1 => same_rest s s1 /\
    match r with
    | Err e => e = MemoryExhausted /\ ~ all_granted 2 s /\
        (forall t' h', handle_at s1 t' h' = handle_at s t' h') /\
        objs s1 = <[ref := (n - 1, k)]> (objs s)
    | Ok h =>
        0 < h < u64_limit /\ handle_at s t h = None /\
        (forall h' ref', handle_at s t h' = Some ref' -> h' < h) /\
        (forall t' h', handle_at s1 t' h' =
           if decide (t' = t /\ h' = h) then Some ref else handle_at s t' h') /\
        objs s1 = objs s /\
        wp (get t h) (fun r2 s2 => r2 = Some ref /\ s2 = put_objs (<[ref := (n + 1, k)]> (objs s)) s1) s1 /\
        wp (release t h) (fun r3 s3 => r3 = Some ref /\ objs s3 = objs s /\ same_rest s s3 /\
          forall t' h', handle_at s3 t' h' = handle_at s t' h') s1
    end) s.
Proof.
  intros Hm Hwf Hk Hn. pose proof (put_all_granted t s m) as Hall.
  pose proof (put_run drop_file t ref s m n k Hm Hwf Hk ltac:(lia)) as Hrun. cbn zeta in Hrun.
  set (hs := table_of m t) in *. set (s0 := table_asked m t s) in *. set (h := fresh_handle hs) in *.
  assert (exists ans, s0 = set_answers ans s) as [ans Hs0].
  { unfold s0, table_asked. destruct (m !! t); [exists (sanswers s); by destruct s|by eexists]. }
  assert (forall h', handle_at s t h' = hs !! h') as Hat by (intros; by apply handle_at_table).
  destruct (table_granted m t s) eqn:Hg1; [destruct (granted hs s0) eqn:Hg2; [|destruct (is_empty hs) eqn:He]|
    destruct (is_empty m) eqn:He].
  - apply wp_unless_wp. unfold wp. rewrite Hrun. rewrite Hs0. split; [done|].
    destruct (fresh_handle_spec hs Hwf) as [Hh Hmax]. fold h in Hh, Hmax.
    pose proof (table_wf_fresh hs Hwf) as Hfree. fold h in Hfree.
    edestruct (entry_life t h ref n k s (put_done (<[t := <[h := ref]> hs]> m) (asked hs (set_answers ans s))) m)
      as (Hnew & Hget & Hrel); [done..|exact Hk|lia|done|done|done|].
    rewrite Hat. split_and!; [lia|lia|done| |exact Hnew|done|exact Hget|exact Hrel].
    intros h' r. rewrite Hat. apply Hmax.
  - apply wp_unless_wp. unfold wp. rewrite Hrun, Hs0. split_and!; [done..| | |done].
    + intros Hg. by destruct (Hall Hg).
    + intros t' h'. rewrite (handle_at_put t hs s _ m) by done. destruct (decide (t' = t)) as [->|]; [by rewrite Hat|done].
  - apply wp_unless_damaged; [done|]. split; [intros Hg; by destruct (Hall Hg)|]. intros [_ Hf].
    by rewrite (few_empty _ _ Hf Hg2) in He.
  - apply wp_unless_wp. unfold wp. rewrite Hrun, Hs0. split_and!; [done..| | |done].
    + intros Hg. by destruct (Hall Hg).
    + intros t' h'. unfold handle_at. by rewrite Hm.
  - apply wp_unless_damaged; [done|]. split; [intros Hg; by destruct (Hall Hg)|]. intros [Hf _].
    unfold table_granted in Hg1. destruct (m !! t); [done|]. by rewrite (few_empty _ _ Hf Hg1) in He.
Qed.

Definition example_sys (ans : list bool) : sys Empty_set Empty_set unit unit :=
  Sys (Machine Debug true ∅ 0 0 EarlyInit_new EarlyInit_new false ∅ (Mutex_new None)) ans
    {[ 16 := (2, PageCtx_ 0x1000) ]} ∅ ∅ (EI SAFE (Some (Mutex_new {[ 1 := {[ 4 := 16 ]} ]})))
    EarlyInit_new EarlyInit_new EarlyInit_new (Mutex_new None) 2 tt.

Lemma handle_lifecycle_witness :
  wp (put (fun f : Empty_set => match f with end) 1 16)
    (fun r s1 => match r with Ok h => 4 < h /\ handle_at s1 1 h = Some 16 | Err e => e = MemoryExhausted end)
    (example_sys []).
Proof.
  eapply wp_mono; [|eapply (wp_unless_not (~ all_granted 2 (example_sys []) /\ _));
    [|apply (handle_lifecycle _ 1 16 (example_sys []) {[ 1 := {[ 4 := 16 ]} ]} 2 (PageCtx_ 0x1000))]];
    [| |done| |done|done].
  - intros [h|e] s1 [_ H]; [|apply H]. destruct H as (_ & _ & Hlt & Hall & _).
    split; [by apply (Hlt 4 16)|]. by rewrite Hall, decide_True.
  - intros [_ H]. apply H. by split; apply (bool_decide_unpack _); vm_compute.
  - intros h ref. change (table_of _ _) with ({[ 4 := 16 ]} : gmap Z Z). intros [<- _]%lookup_singleton_Some. done.
Defined.
