(* ===== verification/Task.v ===== *)
(** * Task: tasks and the scheduler ([kernel/src/task.rs])

    The task maps, spawning, the scheduler's choice of the next task and its
    switch loop, system call entry, wakers, and the future that runs a user
    task.  A task's future is behind [dyn Future]: [poll] and the drop glue of
    futures are parameters of the scheduler; [run_loop_poll] is the poll function
    of the futures user tasks have. *)

From stdpp Require Import sorting.
From S2P Require Import Prelude Interface Sync Machine Phys Page Arc Interrupt System Object.

(** [range(previous..)] without [previous], then [range(..=previous)] *)
Definition next_tasks {V} (previous : TaskId) (tasks : gmap TaskId V) : list TaskId :=
  filter (fun id => id <> previous) (filter (fun id => previous <= id) (sorted tasks).*1) ++
  filter (fun id => id <= previous) (sorted tasks).*1.

(** What the scheduler found to run. *)
Inductive WorkItem :=
| WKernel (future : Z)
| WUser (frame : TrapFrame).

Section task.
Context {F Fut Fs Dev : Type}.
#[local] Abbreviation S := (sys F Fut Fs Dev).
Context (drop_file : F -> M S unit).              (* drop glue of files *)
Context (drop_filesystem : Fs -> M S unit).     (* and of filesystems *)
Context (drop_future : Fut -> M S unit).          (* drop glue of a boxed future *)

(** [None]: ready; [Some f]: pending, the future's state is now [f]. *)
Context (poll : TaskId -> Fut -> M S (option Fut)).

(** [task::init] *)
Definition init_map {A} (e : EarlyInit (Mutex (gmap TaskId A))) : outcome (EarlyInit (Mutex (gmap TaskId A))) :=
  EarlyInit_set e (Mutex_new ∅).

Definition task_init : M S unit := fun s =>
  match init_map (TASKS s) with
  | Ret ts => match init_map (TASK_STATES s) with
    | Ret st => match init_map (TASK_FUTURES s) with
      | Ret tf => Ret (tt, Sys (smach s) (sanswers s) (objs s) (fss s) (futs s) (TASK_HANDLES s)
                    ts st tf (CURRENT_TASK s) (NEXT_TASK_ID s) (devs s))
      | Panic e => Panic e | UB e => UB e end
    | Panic e => Panic e | UB e => UB e end
  | Panic e => Panic e | UB e => UB e end.

Definition lock_tasks {B} (body : M S B) : M S B := with_map TASKS TASKS_l body.
Definition lock_states {B} (body : M S B) : M S B := with_map TASK_STATES TASK_STATES_l body.
Definition lock_futures {B} (body : M S B) : M S B := with_map TASK_FUTURES TASK_FUTURES_l body.
Definition lock_current {B} (body : M S B) : M S B := with_lock CURRENT_TASK_l body.

(** [NEXT_TASK_ID.fetch_add(1)] *)
Definition alloc_task_id : M S TaskId :=
  id ← gets NEXT_TASK_ID;
  _ ← modify (set_next_id (wrap64 (id + 1)));
  mret id.

(** ** Drop glue *)

Definition drop_fs (fs : Z) : M S unit := Arc_drop fss_lens drop_filesystem fs.
Definition drop_fs_opt (fs : option Z) : M S unit :=
  match fs with Some fs => drop_fs fs | None => mret tt end.
Definition drop_task (t : Task) : M S unit :=
  _ ← drop_ref drop_file (page_ctx t); drop_fs_opt (filesystem t).
Definition drop_task_future (f : Z) : M S unit :=
  Arc_drop futs_lens (fun m => drop_future (value m)) f.

(** [BTreeMap::remove] on a locked map. *)
Definition map_remove {V} (l : lens S (Mutex (gmap Z V))) (k : Z) : M S (option V) :=
  m ← deref l;
  _ ← assign l (delete k m);
  mret (m !! k).

(** Insert into a locked map; the value is dropped when the insertion fails, the
    value it replaces is dropped when it succeeds. *)
Definition insert_or_drop {V} (l : lens S (Mutex (gmap Z V))) (drop_value : V -> M S unit) (k : Z) (v : V) :
  M S (result unit unit) :=
  r ← map_insert l k v;
  match r with
  | Ok (Some old) => _ ← drop_value old; mret (Ok tt)
  | Ok None => mret (Ok tt)
  | Err _ => _ ← drop_value v; mret (Err tt)
  end.

Definition drop_opt {V} (drop_value : V -> M S unit) (o : option V) : M S unit :=
  match o with Some v => drop_value v | None => mret tt end.

(** ** spawn *)

(** The closure that inserts the parts of a task; what it has not consumed when
    it returns early is dropped. *)
Definition spawn_inserts (id : TaskId) (future : Fut) (task : Task) : M S (result unit unit) :=
  r ← lock_states (insert_or_drop TASK_STATES_l (fun _ => mret tt) id Wake);
  match r with
  | Err _ => _ ← drop_future future; _ ← drop_task task; mret (Err tt)
  | Ok _ =>
      r ← lock_futures (
        a ← Arc_new futs_lens answer (fun m => drop_future (value m)) (Mutex_new future);
        match a with
        | Err _ => mret (Err tt)
        | Ok a => insert_or_drop TASK_FUTURES_l drop_task_future id a
        end);
      match r with
      | Err _ => _ ← drop_task task; mret (Err tt)
      | Ok _ => lock_tasks (insert_or_drop TASKS_l drop_task id task)
      end
  end.

(** "roll back inserts if any error" *)
Definition rollback (id : TaskId) : M S unit :=
  _ ← lock_tasks (t ← map_remove TASKS_l id; drop_opt drop_task t);
  _ ← lock_futures (fu ← map_remove TASK_FUTURES_l id; drop_opt drop_task_future fu);
  _ ← lock_states (map_remove TASK_STATES_l id);
  mret tt.

Definition spawn (page_ctx : Z) (filesystem : option Z) (f : TaskId -> Fut) : M S (result TaskId SysError) :=
  id ← alloc_task_id;
  let future := f id in
  boxed ← answer;
  if boxed : bool then
    let task := Task_ page_ctx filesystem in
    r ← spawn_inserts id future task;
    match r with
    | Ok _ => mret (Ok id)
    | Err _ => _ ← rollback id; mret (Err MemoryExhausted)
    end
  else
    _ ← drop_future future;
    _ ← drop_fs_opt filesystem;
    _ ← drop_ref drop_file page_ctx;
    mret (Err MemoryExhausted).

(** ** The current task *)

Definition current : M S TaskId :=
  lock_current (c ← deref CURRENT_TASK_l; expect c "task::current called with no current task").

(** [TASKS.lock().get(&current()).expect(..)] *)
Definition current_entry (tasks : gmap TaskId Task) (msg : string) : M S (TaskId * Task) :=
  cur ← current;
  t ← expect (tasks !! cur) msg;
  mret (cur, t).

Definition get_page_ctx : M S Z :=
  lock_tasks (
    tasks ← deref TASKS_l;
    ct ← current_entry tasks "task::get_page_ctx called with no current task";
    clone_ref (page_ctx ct.2)).

Definition get_filesystem : M S (option Z) :=
  lock_tasks (
    tasks ← deref TASKS_l;
    ct ← current_entry tasks "task::get_filesystem called with no current task";
    match filesystem ct.2 with
    | Some fs => fs ← Arc_clone fss_lens fs; mret (Some fs)
    | None => mret None
    end).

Definition set_filesystem (fs : option Z) : M S unit :=
  lock_tasks (
    tasks ← deref TASKS_l;
    ct ← current_entry tasks "task::get_filesystem called with no current task";
    _ ← drop_fs_opt (filesystem ct.2);
    tasks ← deref TASKS_l;
    assign TASKS_l (<[ct.1 := Task_ (page_ctx ct.2) fs]> tasks)).

(** ** The scheduler *)

Definition save_current_task (frame : TrapFrame) : M S (option TaskId) :=
  cur ← lock_current (deref CURRENT_TASK_l);
  match cur with
  | None => mret None
  | Some cur =>
      lock_states (
        states ← deref TASK_STATES_l;
        state ← expect (states !! cur) "task id not in TASK_STATES";
        _ ← match state with
            | User_ _ => assign TASK_STATES_l (<[cur := User_ frame]> states)
            | _ => mret tt
            end;
        mret (Some cur))
  end.

(** The body of the loop over [next_tasks]: [None] is [continue]. *)
Definition work_item (id : TaskId) : M S (option WorkItem) :=
  lock_states (
    states ← deref TASK_STATES_l;
    state ← expect (states !! id) "id not in TASK_STATES";
    match state with
    | Sleep => mret None
    | SyscallEntry _ | Wake =>
        lock_futures (
          futures ← deref TASK_FUTURES_l;
          match futures !! id with
          | Some future => future ← Arc_clone futs_lens future; mret (Some (WKernel future))
          | None => panic "id not in TASK_FUTURES"
          end)
    | User_ task_frame => mret (Some (WUser task_frame))
    end).

Fixpoint first_work_item (ids : list TaskId) : M S (TaskId * WorkItem) :=
  match ids with
  | [] => panic "there should always be a task ready to run!"
  | id :: ids =>
      w ← work_item id;
      match w with Some w => mret (id, w) | None => first_work_item ids end
  end.

Definition find_next_work_item (previous_task_id : option TaskId) : M S (TaskId * WorkItem) :=
  lock_tasks (
    tasks ← deref TASKS_l;
    let previous_task_id := default 0 previous_task_id in
    first_work_item (next_tasks previous_task_id tasks)).

(** The mutex in the cell of a future; [d] is its content while it is polled. *)
Definition fut_at (ptr : Z) (d : Mutex Fut) : lens S (Mutex Fut) :=
  Lens (fun s => default d (snd <$> futs s !! ptr))
       (fun m s => set futs_lens (alter (fun c => (c.1, m)) ptr (futs s)) s).

(** [WorkItem::Kernel]: poll the future of a task with a waker for that task. *)
Definition run_kernel (task_id : TaskId) (future : Z) : M S unit :=
  d ← Arc_deref futs_lens future;
  _ ← with_lock (fut_at future d) (
        fut ← deref (fut_at future d);
        r ← poll task_id fut;
        match r with
        | None => panic "task finished!"
        | Some fut => assign (fut_at future d) fut
        end);
  drop_task_future future.

(** The start of an iteration of [switch]: make the task current, load its page
    context; the reference to the context is dropped at the end of the iteration. *)
Definition enter_task (task_id : TaskId) : M S Z :=
  _ ← lock_current (assign CURRENT_TASK_l (Some task_id));
  page_ctx ← lock_tasks (
    tasks ← deref TASKS_l;
    t ← expect (tasks !! task_id) "current task in TASKS";
    clone_ref (page_ctx t));
  pml4 ← object as_page_ctx page_ctx;
  _ ← zoom smach_lens (ctx ← Phys.clone pml4; set_ctx ctx);
  mret page_ctx.

(** The loop of [switch]; [None]: it needs more than [fuel] iterations. *)
Fixpoint switch_loop (fuel : nat) (previous_task_id : option TaskId) : M S (option TrapFrame) :=
  match fuel with
  | O => mret None
  | Datatypes.S fuel =>
      next ← find_next_work_item previous_task_id;
      page_ctx ← enter_task next.1;
      match next.2 with
      | WKernel future =>
          _ ← run_kernel next.1 future;
          _ ← drop_ref drop_file page_ctx;
          switch_loop fuel (Some next.1)
      | WUser task_frame =>
          _ ← drop_ref drop_file page_ctx;
          mret (Some task_frame)
      end
  end.

(** [switch] gets the interrupted frame and leaves the frame to return to. *)
Definition switch (fuel : nat) (frame : TrapFrame) : M S (option TrapFrame) :=
  previous_task_id ← save_current_task frame;
  switch_loop fuel previous_task_id.

Definition task_start (fuel : nat) : M S (option TrapFrame) := switch fuel (TrapFrame_new 0 0).

Definition enter_syscall (frame : TrapFrame) : M S unit :=
  current_task ← lock_current (
    c ← deref CURRENT_TASK_l; expect c "no current task for syscall entry");
  lock_states (
    states ← deref TASK_STATES_l;
    task_state ← expect (states !! current_task) "current task in TASK_STATES";
    match task_state with
    | User_ _ => assign TASK_STATES_l (<[current_task := SyscallEntry frame]> states)
    | _ => panic "syscall arrived from kernel context!"
    end).

Definition dispatch_syscall (fuel : nat) (frame : TrapFrame) : M S (option TrapFrame) :=
  _ ← enter_syscall frame; switch fuel frame.

(** ** Wakers: the data of a waker is a task id *)

Definition task_waker_clone (data : Z) : Z := data.

Definition task_waker_wake (data : Z) : M S unit :=
  lock_states (
    states ← deref TASK_STATES_l;
    match states !! data with
    | Some _ => assign TASK_STATES_l (<[data := Wake]> states)
    | None => mret tt
    end).

Definition task_waker_wake_by_ref (data : Z) : M S unit := task_waker_wake data.
Definition task_waker_drop (data : Z) : M S unit := mret tt.

(** ** The future of a user task *)

(** [TaskRun]; [setup] of an embryo makes one. *)
Record TaskRun := TaskRun_ { run_task_id : TaskId; trap_frame : TrapFrame }.
Definition setup (embryo : TaskId) (frame : TrapFrame) : TaskRun := TaskRun_ embryo frame.

(** [TaskRun::run] *)
Definition run (t : TaskRun) : M S unit :=
  lock_states (
    states ← deref TASK_STATES_l;
    _ ← expect (states !! run_task_id t) "id not in TASK_STATES";
    assign TASK_STATES_l (<[run_task_id t := User_ (trap_frame t)]> states)).

(** [TaskResume::poll]: ready, with the frame of the trap stored, or pending. *)
Definition resume_poll (t : TaskRun) : M S (option TaskRun) :=
  lock_states (
    states ← deref TASK_STATES_l;
    state ← expect (states !! run_task_id t) "id not in TASK_STATES";
    match state with
    | SyscallEntry frame => mret (Some (TaskRun_ (run_task_id t) frame))
    | Wake => mret None
    | User_ _ => mret None
    | Sleep => panic "task state should not be Sleep"
    end).
End task.

(** [run_loop] as a state machine: not started, waiting for a trap, or inside the
    dispatch of a system call, a future with states [D]. *)
Inductive RunLoop (D : Type) :=
| Begin (t : TaskRun)
| Resume (t : TaskRun)
| Dispatch (t : TaskRun) (d : D).
Arguments Begin {D} _.
Arguments Resume {D} _.
Arguments Dispatch {D} _ _.

(** A poll of a future with states [D]. *)
Inductive Poll (A D : Type) := Ready (a : A) | Pending (d : D).
Arguments Ready {A D} _.
Arguments Pending {A D} _.

Section run_loop.
Context {F Fut Fs Dev D : Type}.
#[local] Abbreviation S := (sys F Fut Fs Dev).
Context (dispatch : TrapFrame -> D) (dispatch_poll : TaskId -> D -> M S (Poll TrapFrame D)).

(** It never finishes; [None]: more than [fuel] changes of state in one poll. *)
Fixpoint run_loop_poll (fuel : nat) (waker : TaskId) (l : RunLoop D) : M S (option (RunLoop D)) :=
  match fuel with
  | O => mret None
  | Datatypes.S fuel =>
      match l with
      | Begin t => _ ← run t; run_loop_poll fuel waker (Resume t)
      | Resume t =>
          r ← resume_poll t;
          match r with
          | None => mret (Some (Resume t))
          | Some t => run_loop_poll fuel waker (Dispatch t (dispatch (trap_frame t)))
          end
      | Dispatch t d =>
          r ← dispatch_poll waker d;
          match r with
          | Ready frame => run_loop_poll fuel waker (Begin (TaskRun_ (run_task_id t) frame))
          | Pending d => mret (Some (Dispatch t d))
          end
      end
  end.
End run_loop.

(** ** Running the scheduler's scopes *)

Section runs.
Context {F Fut Fs Dev : Type}.
#[local] Abbreviation S := (sys F Fut Fs Dev).
Implicit Types (s : S) (states : gmap TaskId TaskState) (tasks : gmap TaskId Task).

Lemma free_same_states states s :
  TASK_STATES s = EI SAFE (Some (Mutex_new states)) -> free_with (put := put_states) states s = s.
Proof. intros H. unfold free_with. rewrite <- H. apply slot_put_get. Qed.
Lemma free_same_tasks tasks s :
  TASKS s = EI SAFE (Some (Mutex_new tasks)) -> free_with (put := put_tasks) tasks s = s.
Proof. intros H. unfold free_with. rewrite <- H. apply slot_put_get. Qed.
Lemma free_same_futures futures s :
  TASK_FUTURES s = EI SAFE (Some (Mutex_new futures)) -> free_with (put := put_futures) futures s = s.
Proof. intros H. unfold free_with. rewrite <- H. apply slot_put_get. Qed.

Lemma current_same c s : CURRENT_TASK s = Mutex_new c -> put_current c s = s.
Proof. destruct s. cbn. by intros ->. Qed.

Lemma current_expect_run c msg s : CURRENT_TASK s = Mutex_new (Some c) ->
  lock_current (c ← deref CURRENT_TASK_l; expect c msg) s = Ret (c, s).
Proof.
  intros H. unfold lock_current. erewrite (current_run _ (Some c) (Some c)); [|done|reflexivity].
  by rewrite current_same.
Qed.

(** The states after the frame of the interrupted task has been saved. *)
Definition saved (cur : TaskId) (frame : TrapFrame) states : gmap TaskId TaskState :=
  match states !! cur with
  | Some (User_ _) => <[cur := User_ frame]> states
  | _ => states
  end.

Lemma save_current_task_run cur frame states s :
  CURRENT_TASK s = Mutex_new (Some cur) -> TASK_STATES s = EI SAFE (Some (Mutex_new states)) ->
  is_Some (states !! cur) ->
  save_current_task frame s = Ret (Some cur, free_with (put := put_states) (saved cur frame states) s).
Proof.
  intros Hc Hst [st Hs]. unfold save_current_task. erewrite bind_run.
  2:{ unfold lock_current. eapply current_run; [exact Hc|reflexivity]. }
  rewrite (current_same _ _ Hc). cbn iota. unfold lock_states.
  eapply (slot_run _ id); [exact Hst|]. erewrite bind_run by apply slot_deref_held.
  unfold saved. rewrite Hs. erewrite bind_run by reflexivity.
  by destruct st.
Qed.

(** What [work_item] finds and does. *)
Definition futs_clone (future : Z) (s : S) : S :=
  put_futs (alter (fun c => (wrap64 (c.1 + 1), c.2)) future (futs s)) s.

Lemma Arc_clone_futs_run future n m s : futs s !! future = Some (n, m) ->
  Arc_clone futs_lens future s = Ret (future, futs_clone future s).
Proof.
  intros H. unfold Arc_clone, as_ref, mbind, M_bind, gets. cbn. rewrite H. cbn.
  unfold set_count, modify. cbn. unfold futs_clone. by rewrite (map_alter_Some _ _ _ _ H).
Qed.

Lemma work_item_sleep_run id states s :
  TASK_STATES s = EI SAFE (Some (Mutex_new states)) -> states !! id = Some Sleep ->
  work_item id s = Ret (None, s).
Proof.
  intros Hst Hs. unfold work_item, lock_states. rewrite (slot_run _ Datatypes.id s states states None Hst).
  - by rewrite free_same_states.
  - erewrite bind_run by apply slot_deref_held. rewrite Hs. reflexivity.
Qed.

Lemma work_item_user_run id frame states s :
  TASK_STATES s = EI SAFE (Some (Mutex_new states)) -> states !! id = Some (User_ frame) ->
  work_item id s = Ret (Some (WUser frame), s).
Proof.
  intros Hst Hs. unfold work_item, lock_states.
  rewrite (slot_run _ Datatypes.id s states states (Some (WUser frame)) Hst).
  - by rewrite free_same_states.
  - erewrite bind_run by apply slot_deref_held. rewrite Hs. reflexivity.
Qed.

Lemma work_item_kernel_run id st future n m states futures s :
  TASK_STATES s = EI SAFE (Some (Mutex_new states)) -> states !! id = Some st ->
  match st with SyscallEntry _ | Wake => True | _ => False end ->
  TASK_FUTURES s = EI SAFE (Some (Mutex_new futures)) -> futures !! id = Some future ->
  futs s !! future = Some (n, m) ->
  work_item id s = Ret (Some (WKernel future), futs_clone future s).
Proof.
  intros Hst Hs Hk Htf Hf Hn. unfold work_item, lock_states.
  rewrite (slot_run _ (futs_clone future) s states states (Some (WKernel future)) Hst).
  - by rewrite free_same_states.
  - erewrite bind_run by apply slot_deref_held. rewrite Hs. erewrite bind_run by reflexivity.
    assert (lock_futures (
          futures ← deref TASK_FUTURES_l;
          match futures !! id with
          | Some future => future ← Arc_clone futs_lens future; mret (Some (WKernel future))
          | None => panic "id not in TASK_FUTURES"
          end) (held_map (put := put_states) states (set cpu_if false s)) =
       Ret (Some (WKernel future), held_map (put := put_states) states (futs_clone future (set cpu_if false s)))) as H.
    { unfold lock_futures. erewrite (slot_run _ (futs_clone future) _ futures futures); [|exact Htf|].
      - f_equal. f_equal. destruct s; cbn in *; by subst.
      - erewrite bind_run by apply slot_deref_held. rewrite Hf.
        erewrite bind_run by (eapply Arc_clone_futs_run; exact Hn). reflexivity. }
    destruct st; done.
Qed.
End runs.

(** ** The scheduler's choice *)

(** A state that gives the scheduler something to run. *)
Definition runnable (st : TaskState) : bool := match st with Sleep => false | _ => true end.

(** [next] is the first runnable task of the scheduler's order. *)
Definition picks {V} (tasks : gmap TaskId V) (states : gmap TaskId TaskState) (previous next : TaskId) : Prop :=
  exists before after, next_tasks previous tasks = before ++ next :: after /\
    (forall x, x ∈ before -> states !! x = Some Sleep) /\
    exists st, states !! next = Some st /\ runnable st = true.

(** A task that is not asleep and is not in user mode has a future to poll. *)
Definition futures_ok {F Fut Fs Dev} (tasks : gmap TaskId Task) (states : gmap TaskId TaskState)
    (futures : gmap TaskId Z) (s : sys F Fut Fs Dev) : Prop :=
  forall id, id ∈ dom tasks -> exists st, states !! id = Some st /\
    match st with
    | SyscallEntry _ | Wake => exists future cell, futures !! id = Some future /\ futs s !! future = Some cell
    | _ => True
    end.

(** The item found for a task, and the state after it has been found. *)
Definition item_of {F Fut Fs Dev} (states : gmap TaskId TaskState) (futures : gmap TaskId Z) (id : TaskId)
    (s : sys F Fut Fs Dev) (r : WorkItem) (s' : sys F Fut Fs Dev) : Prop :=
  match states !! id with
  | Some (User_ frame) => r = WUser frame /\ s' = s
  | Some (SyscallEntry _ | Wake) =>
      exists future, futures !! id = Some future /\ r = WKernel future /\ s' = futs_clone future s
  | _ => False
  end.

Section choice.
Context {F Fut Fs Dev : Type}.
#[local] Abbreviation S := (sys F Fut Fs Dev).
Implicit Types (s : S) (states : gmap TaskId TaskState) (tasks : gmap TaskId Task).

Lemma work_item_run id tasks states futures s :
  TASK_STATES s = EI SAFE (Some (Mutex_new states)) -> TASK_FUTURES s = EI SAFE (Some (Mutex_new futures)) ->
  futures_ok tasks states futures s -> id ∈ dom tasks ->
  (work_item id s = Ret (None, s) /\ states !! id = Some Sleep) \/
  (exists w s', work_item id s = Ret (Some w, s') /\ item_of states futures id s w s' /\
    exists st, states !! id = Some st /\ runnable st = true).
Proof.
  intros Hst Htf Hok Hid. destruct (Hok id Hid) as (st & Hs & Hf). unfold item_of.
  destruct st as [fr| | |fr]; [right|right|left|right].
  - destruct Hf as (fu & [n m] & Hfu & Hc). do 2 eexists. split; [by eapply work_item_kernel_run|].
    rewrite Hs. split; [by exists fu|]. by eexists.
  - destruct Hf as (fu & [n m] & Hfu & Hc). do 2 eexists. split; [by eapply work_item_kernel_run|].
    rewrite Hs. split; [by exists fu|]. by eexists.
  - split; [by eapply work_item_sleep_run|done].
  - do 2 eexists. split; [by eapply work_item_user_run|]. rewrite Hs. split; [done|by eexists].
Qed.

Lemma first_work_item_run tasks states futures s ids :
  TASK_STATES s = EI SAFE (Some (Mutex_new states)) -> TASK_FUTURES s = EI SAFE (Some (Mutex_new futures)) ->
  futures_ok tasks states futures s -> (forall id, id ∈ ids -> id ∈ dom tasks) ->
  (exists id, id ∈ ids /\ states !! id <> Some Sleep) ->
  exists before id after w s', ids = before ++ id :: after /\
    (forall x, x ∈ before -> states !! x = Some Sleep) /\
    (exists st, states !! id = Some st /\ runnable st = true) /\
    first_work_item ids s = Ret ((id, w), s') /\ item_of states futures id s w s'.
Proof.
  intros Hst Htf Hok. induction ids as [|id ids IH]; intros Hids Hex.
  - destruct Hex as (? & ?%elem_of_nil & _). done.
  - cbn. destruct (work_item_run id tasks states futures s Hst Htf Hok (Hids id ltac:(left)))
      as [[Hr Hsl]|(w & s' & Hr & Hi & Hrun)].
    + destruct IH as (b & x & a & w & s' & -> & Hb & Hrun & Hr' & Hi).
      { intros x Hx. apply Hids. by right. }
      { destruct Hex as (x & [->|Hx]%elem_of_cons & Hne); [done|]. by exists x. }
      exists (id :: b), x, a, w, s'. split_and!; [done| |done| |done].
      * intros y [->|Hy]%elem_of_cons; auto.
      * by rewrite (bind_run _ _ _ _ _ Hr).
    + exists [], id, ids, w, s'. split_and!; [done| |done| |done].
      * by intros x ?%elem_of_nil.
      * by rewrite (bind_run _ _ _ _ _ Hr).
Qed.
End choice.

(** ** The order of [next_tasks] *)

Lemma elem_of_next_tasks {V} previous (tasks : gmap TaskId V) x :
  x ∈ next_tasks previous tasks <-> x ∈ dom tasks.
Proof.
  assert (x ∈ (sorted tasks).*1 <-> x ∈ dom tasks) as Hs.
  { rewrite elem_of_dom, list_elem_of_fmap. split.
    - intros ([k v] & -> & H%elem_of_sorted). eauto.
    - intros [v H]. exists (x, v). split; [done|]. by apply elem_of_sorted. }
  unfold next_tasks. rewrite elem_of_app, !list_elem_of_filter, Hs. split; [tauto|].
  intros H. destruct (decide (x <= previous)); [by right|left]. split_and!; [lia|lia|done].
Qed.

(** Before [b] in the cyclic order that starts after [p]. *)
Definition cyclic_lt (p a b : Z) : Prop := (p < a /\ (a < b \/ b <= p)) \/ (a < b <= p).

Lemma sorted_keys_lt {V} (m : gmap Z V) : StronglySorted Z.lt (sorted m).*1.
Proof.
  pose proof (sorted_sorted m) as Hs.
  assert (NoDup (sorted m).*1) as Hn by (rewrite sorted_perm; apply NoDup_fst_map_to_list).
  revert Hs Hn. generalize (sorted m) as l. clear m. intros l.
  induction 1 as [|[k v] l Hs IH Hall]; cbn; [constructor|].
  intros [Hk Hn]%NoDup_cons. constructor; [by apply IH|].
  rewrite Forall_forall in Hall. apply Forall_forall. intros x Hx. pose proof Hx as Hx'.
  apply list_elem_of_fmap in Hx as ([k' v'] & -> & Hin). specialize (Hall _ Hin). unfold key_le in Hall. cbn in *.
  assert (k <> k') by (intros ->; done). lia.
Qed.

Lemma StronglySorted_filter {A} (R : A -> A -> Prop) (P : A -> Prop) `{!forall x, Decision (P x)} l :
  StronglySorted R l -> StronglySorted R (filter P l).
Proof.
  induction 1 as [|x l Hs IH Hall]; [constructor|]. rewrite filter_cons.
  destruct (decide (P x)); [|done]. constructor; [done|]. rewrite Forall_forall in Hall |- *.
  intros y [_ Hy]%list_elem_of_filter. auto.
Qed.

Lemma StronglySorted_weaken {A} (R R' : A -> A -> Prop) l :
  (forall x y, x ∈ l -> y ∈ l -> R x y -> R' x y) -> StronglySorted R l -> StronglySorted R' l.
Proof.
  intros HR. induction 1 as [|x l Hs IH Hall]; [constructor|]. constructor.
  - apply IH. intros. apply HR; [by right|by right|done].
  - rewrite Forall_forall in Hall. apply Forall_forall. intros y Hy. apply HR; [left|by right|auto].
Qed.

Lemma next_tasks_sorted {V} previous (tasks : gmap TaskId V) :
  StronglySorted (cyclic_lt previous) (next_tasks previous tasks).
Proof.
  pose proof (sorted_keys_lt tasks) as Hs. unfold next_tasks. apply StronglySorted_app_2.
  - intros x y. rewrite !list_elem_of_filter. unfold cyclic_lt. lia.
  - eapply StronglySorted_weaken; [|by do 2 apply StronglySorted_filter].
    intros x y. rewrite !list_elem_of_filter. unfold cyclic_lt. lia.
  - eapply StronglySorted_weaken; [|by apply StronglySorted_filter].
    intros x y (? & _)%list_elem_of_filter (? & _)%list_elem_of_filter Hlt. unfold cyclic_lt. lia.
Qed.

(** Tasks strictly between [p] and [x] in the cyclic order. *)
Definition between {V} (tasks : gmap TaskId V) (p x : TaskId) : gset TaskId :=
  filter (fun k => (p < k /\ k < x) \/ (x <= p /\ (p < k \/ k < x))) (dom tasks).

(** Passing over a runnable task: it comes later in the order than the one picked. *)
Lemma picks_between {V} (tasks : gmap TaskId V) states p y x :
  picks tasks states p y -> x ∈ dom tasks -> x <> y ->
  (exists st, states !! x = Some st /\ runnable st = true) ->
  between tasks y x ⊂ between tasks p x.
Proof.
  intros (b & a & Hn & Hb & _) Hx Hne (st & Hst & Hrun).
  pose proof (next_tasks_sorted p tasks) as Hsort. rewrite Hn in Hsort.
  assert (x ∈ a) as Hxa.
  { apply (elem_of_next_tasks p) in Hx. rewrite Hn in Hx.
    apply elem_of_app in Hx as [Hx|Hx]; [|by apply elem_of_cons in Hx as [->|]].
    apply Hb in Hx. rewrite Hst in Hx. by simplify_eq. }
  assert (y ∈ dom tasks) as Hy.
  { apply (elem_of_next_tasks p). rewrite Hn. set_solver. }
  assert (cyclic_lt p y x) as Hlt.
  { apply StronglySorted_app_1_r in Hsort. apply StronglySorted_cons in Hsort as [Hall _].
    rewrite Forall_forall in Hall. auto. }
  unfold between. split.
  - intros k. rewrite !elem_of_filter. unfold cyclic_lt in Hlt.
    intros [? ?]; split; [lia|done].
  - intros Hsub. assert (y ∈ between tasks p x) as Hin.
    { unfold between. rewrite elem_of_filter. split; [|done]. unfold cyclic_lt in Hlt. lia. }
    apply Hsub in Hin. apply elem_of_filter in Hin. lia.
Qed.

(** A run of the scheduler: the tasks it picks, one after the other, while the
    states change in between. *)
Inductive schedule {V} (tasks : gmap TaskId V) (x : TaskId) : TaskId -> list TaskId -> Prop :=
| schedule_nil p : schedule tasks x p []
| schedule_cons p y ys states :
    picks tasks states p y -> (exists st, states !! x = Some st /\ runnable st = true) ->
    schedule tasks x y ys -> schedule tasks x p (y :: ys).

(** C25: the scheduler is fair: a task that stays runnable is picked within as many
    choices as there are tasks, whatever happens to the states of the others. *)
Theorem round_robin_fair {V} (tasks : gmap TaskId V) x p ys :
  schedule tasks x p ys -> x ∈ dom tasks -> (size (dom tasks) <= length ys)%nat -> x ∈ ys.
Proof.
  intros Hs Hx Hlen. cut (x ∈ ys \/ (length ys <= size (between tasks p x))%nat).
  { intros [|Hle]; [done|]. exfalso.
    assert (between tasks p x ⊂ dom tasks) as Hsub; [|apply subset_size in Hsub; lia].
    split; [intros k [_ Hk]%elem_of_filter; done|]. intros Hc. apply Hc in Hx.
    apply elem_of_filter in Hx. lia. }
  clear Hlen. induction Hs as [p|p y ys states Hp Hrun Hs IH]; [right; cbn; lia|].
  destruct (decide (x = y)) as [->|Hne]; [left; left|].
  destruct IH as [|Hle]; [left; by right|right].
  pose proof (subset_size _ _ (picks_between tasks states p y x Hp Hx Hne Hrun)). cbn [length]. lia.
Qed.

Lemma round_robin_fair_witness : 3 ∈ [5; 3].
Proof.
  apply (round_robin_fair (V := unit) {[ 3 := tt; 5 := tt ]} 3 3); [|set_solver|by vm_compute].
  apply (schedule_cons _ _ _ _ _ {[ 3 := Wake; 5 := Wake ]}).
  - exists [], [3]. split_and!; [by vm_compute|by intros ? ?%elem_of_nil|by exists Wake].
  - by exists Wake.
  - apply (schedule_cons _ _ _ _ _ {[ 3 := Wake; 5 := Sleep ]}); [| |constructor].
    + exists [], [5]. split_and!; [by vm_compute|by intros ? ?%elem_of_nil|by exists Wake].
    + by exists Wake.
Defined.

Lemma find_next_ok {F Fut Fs Dev} prev (s : sys F Fut Fs Dev) tasks states futures :
  TASKS s = EI SAFE (Some (Mutex_new tasks)) -> TASK_STATES s = EI SAFE (Some (Mutex_new states)) ->
  TASK_FUTURES s = EI SAFE (Some (Mutex_new futures)) -> futures_ok tasks states futures s ->
  (exists id, id ∈ dom tasks /\ states !! id <> Some Sleep) ->
  exists id w s', find_next_work_item prev s = Ret ((id, w), s') /\
    picks tasks states (default 0 prev) id /\ item_of states futures id s w s'.
Proof.
  intros Hts Hst Htf Hok (x & Hx & Hne).
  destruct (first_work_item_run tasks states futures (held_map (put := put_tasks) tasks (set cpu_if false s))
    (next_tasks (default 0 prev) tasks)) as (b & id & a & w & s' & Hn & Hb & Hrun & Hr & Hi); try done.
  - intros id. by rewrite elem_of_next_tasks.
  - exists x. by rewrite elem_of_next_tasks.
  - assert (exists f : sys F Fut Fs Dev -> sys F Fut Fs Dev, Commutes put_tasks f /\
      item_of states futures id s w (f s) /\ s' = f (held_map (put := put_tasks) tasks (set cpu_if false s)))
      as (f & Hc & Hif & ->).
    { unfold item_of in *. destruct (states !! id) as [[fr| | |fr]|]; try done.
      - destruct Hi as (fu & Hf & -> & ->). exists (futs_clone fu). split_and!; [apply _| |done]. by exists fu.
      - destruct Hi as (fu & Hf & -> & ->). exists (futs_clone fu). split_and!; [apply _| |done]. by exists fu.
      - destruct Hi as [-> ->]. exists (fun s => s). split_and!; [apply _|done..]. }
    exists id, w, (f s). split; [|split; [by exists b, a|done]].
    unfold find_next_work_item, lock_tasks. rewrite (slot_run _ f s tasks tasks (id, w) Hts).
    + unfold free_with. rewrite <- commutes_put, <- Hts. by destruct s.
    + erewrite bind_run by apply slot_deref_held. rewrite Hr. unfold held_map. by rewrite commutes_put.
Qed.

(** The scheduler finds the next task: with every map unlocked, when some task
    is not asleep, [find_next_work_item] returns the first such task of its cyclic
    order, with the saved frame of a task in user mode or a reference to the future
    of any other; nothing else changes. *)
Theorem find_next_spec {F Fut Fs Dev} prev (s : sys F Fut Fs Dev) tasks states futures :
  TASKS s = EI SAFE (Some (Mutex_new tasks)) -> TASK_STATES s = EI SAFE (Some (Mutex_new states)) ->
  TASK_FUTURES s = EI SAFE (Some (Mutex_new futures)) -> futures_ok tasks states futures s ->
  (exists id, id ∈ dom tasks /\ states !! id <> Some Sleep) ->
  exists id w s', find_next_work_item prev s = Ret ((id, w), s') /\
    picks tasks states (default 0 prev) id /\ item_of states futures id s w s'.
Proof. apply find_next_ok. Qed.

Definition example_frame : TrapFrame := TrapFrame_new 0x10000000 0.

(** Two tasks in user mode, of which the second is current. *)
Definition two_tasks : sys Empty_set Empty_set unit unit :=
  Sys (Machine Debug true ∅ 0 0 EarlyInit_new EarlyInit_new false ∅ (Mutex_new None)) []
    ∅ ∅ ∅ EarlyInit_new
    (EI SAFE (Some (Mutex_new {[ 1 := Task_ 16 None; 2 := Task_ 32 None ]})))
    (EI SAFE (Some (Mutex_new {[ 1 := User_ example_frame; 2 := User_ example_frame ]})))
    (EI SAFE (Some (Mutex_new ∅))) (Mutex_new (Some 2)) 3 tt.

Lemma find_next_spec_witness :
  exists id w s', find_next_work_item (Some 2) two_tasks = Ret ((id, w), s') /\ (id = 1 \/ id = 2).
Proof.
  destruct (find_next_spec (Some 2) two_tasks {[ 1 := Task_ 16 None; 2 := Task_ 32 None ]}
    {[ 1 := User_ example_frame; 2 := User_ example_frame ]} ∅) as (id & w & s' & Hr & Hp & Hi); try done.
  - intros id Hid. assert (id = 1 \/ id = 2) as [-> | ->] by set_solver.
    + by exists (User_ example_frame).
    + by exists (User_ example_frame).
  - exists 1. split; [set_solver|done].
  - exists id, w, s'. split; [done|]. destruct Hp as (b & a & Hn & _).
    assert (id ∈ next_tasks 2 ({[ 1 := Task_ 16 None; 2 := Task_ 32 None ]} : gmap TaskId Task)) as Hin
      by (change (default 0 (Some 2)) with 2 in Hn; rewrite Hn; set_solver).
    apply elem_of_next_tasks in Hin. set_solver.
Defined.

(** ** Wakers *)

Lemma task_waker_wake_run {F Fut Fs Dev} id (s : sys F Fut Fs Dev) states :
  TASK_STATES s = EI SAFE (Some (Mutex_new states)) -> is_Some (states !! id) ->
  task_waker_wake id s = Ret (tt, free_with (put := put_states) (<[id := Wake]> states) s).
Proof.
  intros Hst [st Hs]. unfold task_waker_wake, lock_states. eapply (slot_run _ (fun s => s)); [done|].
  erewrite bind_run by apply slot_deref_held. rewrite Hs. apply slot_assign_held.
Qed.

Lemma resume_poll_run {F Fut Fs Dev} t (s : sys F Fut Fs Dev) states st :
  TASK_STATES s = EI SAFE (Some (Mutex_new states)) -> states !! run_task_id t = Some st -> st <> Sleep ->
  resume_poll t s = Ret (match st with
    | SyscallEntry frame => Some (TaskRun_ (run_task_id t) frame) | _ => None end, s).
Proof.
  intros Hst Hs Hne. unfold resume_poll, lock_states.
  erewrite (slot_run _ (fun s => s) s states states); [by rewrite free_same_states|done|].
  erewrite bind_run by apply slot_deref_held. rewrite Hs. by destruct st.
Qed.

(** C39: a spurious wake loses a task: when the waker of a task in user mode is
    called (an [AsyncMutex] leaves wakers of earlier polls behind), its saved frame
    is overwritten; from then on the task's future stays pending however often it
    is polled, without changing anything, and the scheduler only ever finds the
    future to poll, never a frame to return to. *)
Theorem spurious_wake_loses_task {F Fut Fs Dev D} (dispatch : TrapFrame -> D) dispatch_poll
    (t : TaskRun) frame (s : sys F Fut Fs Dev) states futures future n m :
  TASK_STATES s = EI SAFE (Some (Mutex_new states)) -> states !! run_task_id t = Some (User_ frame) ->
  TASK_FUTURES s = EI SAFE (Some (Mutex_new futures)) -> futures !! run_task_id t = Some future ->
  futs s !! future = Some (n, m) ->
  wp (task_waker_wake (run_task_id t)) (fun _ s1 =>
    (forall frame', contents ∅ (TASK_STATES s1) !! run_task_id t <> Some (User_ frame')) /\
    (forall fuel, run_loop_poll dispatch dispatch_poll (S fuel) (run_task_id t) (Resume t) s1 =
       Ret (Some (Resume t), s1)) /\
    wp (work_item (run_task_id t)) (fun w _ => w = Some (WKernel future)) s1) s.
Proof.
  intros Hst Hs Htf Hf Hn. eapply wp_run; [by eapply task_waker_wake_run|].
  set (states' := <[run_task_id t := Wake]> states).
  assert (states' !! run_task_id t = Some Wake) as Hw by apply lookup_insert_eq.
  assert (TASK_STATES (free_with (put := put_states) states' s) = EI SAFE (Some (Mutex_new states'))) as Hst' by done.
  split_and!.
  - intros frame'. change (states' !! run_task_id t <> Some (User_ frame')). rewrite Hw. by intros [=].
  - intros fuel. cbn [run_loop_poll]. erewrite bind_run by (by eapply resume_poll_run). done.
  - eapply wp_run; [by eapply (work_item_kernel_run _ Wake)|done].
Qed.

Lemma spurious_wake_loses_task_witness :
  let s : sys Empty_set unit unit unit :=
    Sys (Machine Debug true ∅ 0 0 EarlyInit_new EarlyInit_new false ∅ (Mutex_new None)) []
      ∅ ∅ {[ 64 := (1, Mutex_new tt) ]} EarlyInit_new EarlyInit_new
      (EI SAFE (Some (Mutex_new {[ 1 := User_ example_frame ]})))
      (EI SAFE (Some (Mutex_new {[ 1 := 64 ]}))) (Mutex_new (Some 1)) 2 tt in
  wp (task_waker_wake 1) (fun _ s1 => wp (work_item 1) (fun w _ => w = Some (WKernel 64)) s1) s.
Proof.
  intros s. eapply wp_mono; [|eapply (spurious_wake_loses_task (D := unit) (fun _ => tt)
    (fun _ _ => panic "not reached") (TaskRun_ 1 example_frame) example_frame s
    {[ 1 := User_ example_frame ]} {[ 1 := 64 ]} 64 1 (Mutex_new tt)); done].
  intros _ s1 (_ & _ & H). exact H.
Defined.

(** ** Context switches *)

Section switching.
Context {F Fut Fs Dev : Type}.
#[local] Abbreviation S := (sys F Fut Fs Dev).
Context (drop_file : F -> M S unit) (drop_future : Fut -> M S unit).
Context (poll : TaskId -> Fut -> M S (option Fut)).
Implicit Types (s : S) (states : gmap TaskId TaskState) (tasks : gmap TaskId Task).

(** A frame the allocator counts. *)
Definition counted (rs : list PhysRegion) (p : Z) : Prop :=
  exists i r, rs !! i = Some r /\ rbegin r <= p < rend r.

(** Loading a page context: a count moves from the old root to the new one. *)
Definition loaded (p : Z) (m : machine) : machine := bump_rc (cr3 m) (-1) (set_cr3 p (bump_rc p 1 m)).

Lemma load_ctx_run rs p (m : machine) :
  regions m = EI SAFE (Some rs) -> regions_ok rs -> rc_enabled m = true ->
  counted rs p -> counted rs (cr3 m) -> 1 < rc_of m (cr3 m) -> rc_of m (cr3 m) < u64_limit - 1 ->
  (ctx ← Phys.clone p; set_ctx ctx) m = Ret (tt, loaded p m).
Proof.
  intros Hrs Hok He (i & r & Hr & Hp) (j & r' & Hr' & Hq) Hrc Hlim. apply wp_Q_run. wp_step.
  unfold Phys.clone. eapply (wp_Phys_new rs i r p Hok Hr Hp); [done..|]. unfold set_ctx. wp_steps. cbn [cr3 bump_rc set_rc].
  assert (rc_of m (cr3 m) <= rc_of (bump_rc p 1 m) (cr3 m)) as Hle.
  { unfold rc_of at 2, rc_load, bump_rc. cbn. destruct (decide (Z.shiftr p 12 = Z.shiftr (cr3 m) 12)) as [E|E].
    - rewrite E, lookup_insert_eq. cbn. unfold rc_of in *. rewrite E.
      rewrite wrap64_small by (unfold in_u64; lia). lia.
    - by rewrite lookup_insert_ne. }
  assert (forall x q, rc_of (set_cr3 x (bump_rc p 1 m)) q = rc_of (bump_rc p 1 m) q) as Hset by done.
  eapply (wp_drop_phys_shared _ rs j r'); try done; unfold from_raw; cbn [cr3 bump_rc set_rc set_cr3];
    change (rc_of _ (cr3 m)) with (rc_of (bump_rc p 1 m) (cr3 m)); lia.
Qed.

Lemma enter_task_run rs b ref fs n p s tasks :
  CURRENT_TASK s = Mutex_new (CURRENT_TASK s).(value) ->
  TASKS s = EI SAFE (Some (Mutex_new tasks)) -> tasks !! b = Some (Task_ ref fs) ->
  objs s !! ref = Some (n, PageCtx_ p) ->
  regions (smach s) = EI SAFE (Some rs) -> regions_ok rs -> rc_enabled (smach s) = true ->
  counted rs p -> counted rs (cr3 (smach s)) -> 1 < rc_of (smach s) (cr3 (smach s)) < u64_limit - 1 ->
  enter_task b s = Ret (ref, set smach_lens (loaded p (smach s))
    (put_objs (<[ref := (wrap64 (n + 1), PageCtx_ p)]> (objs s)) (put_current (Some b) s))).
Proof.
  intros Hc Hts Hb Ho Hrs Hok He Hp Hq Hrc. unfold enter_task.
  erewrite bind_run.
  2:{ unfold lock_current. eapply (current_run _ _ (Some b) tt); [exact Hc|reflexivity]. }
  erewrite bind_run.
  2:{ unfold lock_tasks.
      eapply (slot_run (put := put_tasks) _
        (fun s => put_objs (<[ref := (wrap64 (n + 1), PageCtx_ p)]> (objs s)) s) _ tasks tasks ref); [exact Hts|].
      erewrite bind_run by apply slot_deref_held. rewrite Hb. erewrite bind_run by reflexivity.
      change (page_ctx (Task_ ref fs)) with ref. rewrite (clone_ref_run ref n (PageCtx_ p)) by exact Ho. reflexivity. }
  erewrite bind_run.
  2:{ unfold object. erewrite bind_run; [|].
      2:{ unfold Arc_deref, as_ref. erewrite bind_run; [reflexivity|]. erewrite bind_run; [|reflexivity].
          cbn. rewrite lookup_insert_eq. reflexivity. }
      cbn. reflexivity. }
  erewrite bind_run.
  2:{ unfold zoom. cbn [view smach_lens smach free_with put_tasks put_objs put_current set objs_lens CURRENT_TASK_l].
      rewrite (load_ctx_run rs p (smach s)); try done; lia || reflexivity. }
  unfold mret, M_ret. f_equal. f_equal. destruct s; cbn in *. by subst.
Qed.

Lemma split_unique {A} (P : A -> Prop) (b1 a1 b2 a2 : list A) x y :
  b1 ++ x :: a1 = b2 ++ y :: a2 -> (forall z, z ∈ b1 -> P z) -> (forall z, z ∈ b2 -> P z) ->
  ~ P x -> ~ P y -> x = y.
Proof.
  revert b2. induction b1 as [|z b1 IH]; intros [|w b2]; cbn; intros [= -> H] H1 H2 Hx Hy.
  - done.
  - by destruct Hx; apply H2; left.
  - by destruct Hy; apply H1; left.
  - apply (IH b2); [done| | |done|done]; intros; [apply H1|apply H2]; by right.
Qed.

Lemma picks_unique tasks states p x y : picks tasks states p x -> picks tasks states p y -> x = y.
Proof.
  intros (b1 & a1 & H1 & Hb1 & st1 & Hs1 & Hr1) (b2 & a2 & H2 & Hb2 & st2 & Hs2 & Hr2).
  apply (split_unique (fun z => states !! z = Some Sleep) b1 a1 b2 a2); try done.
  - by rewrite <- H1.
  - rewrite Hs1. intros [= ->]. done.
  - rewrite Hs2. intros [= ->]. done.
Qed.
End switching.

(** C14: a context switch is exact: when the current task is interrupted with
    [frame] and the next task of the scheduler's order is in user mode, [switch]
    returns that task's saved frame ([frame] itself when it is the same task),
    [frame] is what is saved for the interrupted task, the page context of the
    next task is loaded, one count moving from the old root table to the new one,
    and nothing else changes: no reference is lost or kept. *)
Theorem switch_user {F Fut Fs Dev} (drop_file : F -> M (sys F Fut Fs Dev) unit) drop_future poll rs
    (s : sys F Fut Fs Dev) a b frame fa f tasks states futures ref fs n p fuel :
  TASKS s = EI SAFE (Some (Mutex_new tasks)) -> TASK_STATES s = EI SAFE (Some (Mutex_new states)) ->
  TASK_FUTURES s = EI SAFE (Some (Mutex_new futures)) -> CURRENT_TASK s = Mutex_new (Some a) ->
  states !! a = Some (User_ fa) -> futures_ok tasks states futures s ->
  picks tasks (<[a := User_ frame]> states) a b -> <[a := User_ frame]> states !! b = Some (User_ f) ->
  tasks !! b = Some (Task_ ref fs) -> objs s !! ref = Some (n, PageCtx_ p) -> 0 < n < u64_limit - 1 ->
  regions (smach s) = EI SAFE (Some rs) -> regions_ok rs -> rc_enabled (smach s) = true ->
  counted rs p -> counted rs (cr3 (smach s)) -> 1 < rc_of (smach s) (cr3 (smach s)) < u64_limit - 1 ->
  switch drop_file drop_future poll (S fuel) frame s =
    Ret (Some f, set smach_lens (loaded p (smach s)) (put_current (Some b)
      (free_with (put := put_states) (<[a := User_ frame]> states) s))) /\
  (b = a -> f = frame) /\ cr3 (loaded p (smach s)) = p /\ mem (loaded p (smach s)) = mem (smach s).
Proof.
  intros Hts Hst Htf Hc Ha Hok Hp Hb Htb Ho Hn Hrs Hro He Hcp Hcq Hrc.
  split; [|split_and!; [intros ->; rewrite lookup_insert_eq in Hb; by simplify_eq|done|done]].
  set (states' := <[a := User_ frame]> states) in *.
  unfold switch. erewrite bind_run by (by eapply save_current_task_run).
  unfold saved. rewrite Ha. fold states'. cbn [switch_loop].
  set (s1 := free_with (put := put_states) states' s).
  destruct (find_next_ok (Some a) s1 tasks states' futures) as (id & w & s' & Hr & Hpk & Hi); try done.
  { intros id Hid. unfold states'. destruct (Hok id Hid) as (st & Hsti & Hf).
    destruct (decide (a = id)) as [<-|Hne].
    - exists (User_ frame). split; [apply lookup_insert_eq|done].
    - exists st. split; [by rewrite lookup_insert_ne|done]. }
  { exists b. split; [|by rewrite Hb]. apply elem_of_dom. eauto. }
  cbn [default from_option Datatypes.id] in Hpk.
  pose proof (picks_unique _ _ _ _ _ Hpk Hp) as ->. unfold item_of in Hi. rewrite Hb in Hi.
  destruct Hi as [-> ->]. erewrite bind_run by exact Hr. cbn [fst snd].
  erewrite bind_run.
  2:{ eapply (enter_task_run rs b ref fs n p); try done. cbn. by rewrite Hc. }
  erewrite bind_run.
  2:{ eapply (drop_ref_shared_run drop_file ref (n + 1) (PageCtx_ p)); [|lia].
      cbn. rewrite wrap64_small by (unfold in_u64; lia). apply lookup_insert_eq. }
  unfold mret, M_ret. f_equal. f_equal. replace (n + 1 - 1) with n by lia.
  rewrite (wrap64_small n) by (unfold in_u64; lia).
  cbn. rewrite insert_insert_eq, insert_id by done. reflexivity.
Qed.

(** The two tasks with page contexts loaded from two counted frames. *)
Definition switch_machine : machine :=
  Machine Debug true ∅ 0x101000 0 (EI SAFE (Some example_regions)) EarlyInit_new true
    {[ 0x100 := 1; 0x101 := 2 ]} (Mutex_new None).

Definition switch_sys : sys Empty_set Empty_set unit unit :=
  Sys switch_machine [] {[ 16 := (1, PageCtx_ 0x100000); 32 := (1, PageCtx_ 0x101000) ]} ∅ ∅ EarlyInit_new
    (EI SAFE (Some (Mutex_new {[ 1 := Task_ 16 None; 2 := Task_ 32 None ]})))
    (EI SAFE (Some (Mutex_new {[ 1 := User_ example_frame; 2 := User_ (TrapFrame_new 1 1) ]})))
    (EI SAFE (Some (Mutex_new ∅))) (Mutex_new (Some 2)) 3 tt.

Lemma switch_user_witness :
  exists s', switch (fun f : Empty_set => match f with end) (fun f : Empty_set => match f with end)
    (fun _ f => match f with end) 1 (TrapFrame_new 7 7) switch_sys = Ret (Some example_frame, s') /\
    cr3 (smach s') = 0x100000.
Proof.
  eexists. split; [|].
  - eapply (switch_user _ _ _ example_regions switch_sys 2 1 (TrapFrame_new 7 7) (TrapFrame_new 1 1) example_frame
      {[ 1 := Task_ 16 None; 2 := Task_ 32 None ]} {[ 1 := User_ example_frame; 2 := User_ (TrapFrame_new 1 1) ]} ∅
      16 None 1 0x100000 0); try done.
    + intros id Hid. assert (id = 1 \/ id = 2) as [-> | ->] by set_solver; by eexists.
    + exists [], [2]. split_and!; [by vm_compute|by intros ? ?%elem_of_nil|by eexists].
    + apply example_regions_ok.
    + exists 0%nat, (Region 0x100000 0x103000). by split.
    + exists 0%nat, (Region 0x100000 0x103000). by split.
  - done.
Defined.

(** ** Spawning *)

Section spawning.
Context {F Fut Fs Dev : Type}.
#[local] Abbreviation S := (sys F Fut Fs Dev).
Context (drop_file : F -> M S unit) (drop_filesystem : Fs -> M S unit) (drop_future : Fut -> M S unit).

(** The task maps of a state: three contents. *)
Definition task_maps (s : S) : gmap TaskId Task * gmap TaskId TaskState * gmap TaskId Z :=
  (contents ∅ (TASKS s), contents ∅ (TASK_STATES s), contents ∅ (TASK_FUTURES s)).

(** The maps are unlocked, and [id] is in none of them. *)
Record spawn_ready (id : TaskId) tasks states futures (s : S) : Prop := {
  sr_tasks : TASKS s = EI SAFE (Some (Mutex_new tasks));
  sr_states : TASK_STATES s = EI SAFE (Some (Mutex_new states));
  sr_futures : TASK_FUTURES s = EI SAFE (Some (Mutex_new futures));
  sr_no_task : tasks !! id = None;
  sr_no_state : states !! id = None;
  sr_no_future : futures !! id = None
}.

(** One answer of the allocator. *)
Definition next_answer (s : S) : bool := match sanswers s with b :: _ => b | [] => false end.
Definition use_answer (s : S) : S := set_answers (tail (sanswers s)) s.

Lemma answer_run (s : S) : answer s = Ret (next_answer s, use_answer s).
Proof. unfold answer, next_answer, use_answer. destruct s as [m [] ? ? ? ? ? ? ? ? ?]; reflexivity. Qed.


Section slot_inserts.
Context {V : Type} {e : S -> EarlyInit (Mutex (gmap Z V))} {l : lens S (Mutex (gmap Z V))}.
Context {put : EarlyInit (Mutex (gmap Z V)) -> S -> S} {HS : Slot ∅ e l put}.

Lemma map_remove_run m k s :
  map_remove l k (held_map (put := put) m s) = Ret (m !! k, held_map (put := put) (delete k m) s).
Proof using HS.
  unfold map_remove. erewrite bind_run by apply slot_deref_held.
  by erewrite bind_run by apply slot_assign_held.
Qed.
End slot_inserts.

(** The references of a task go back. *)
Definition fs_ok (fs : option Z) (m : gmap Z (Z * Fs)) : Prop :=
  match fs with Some p => exists c v, m !! p = Some (c, v) /\ 1 < c | None => True end.
Definition fs_released (fs : option Z) (m : gmap Z (Z * Fs)) : gmap Z (Z * Fs) :=
  match fs with Some p => alter (fun c => (wrap64 (c.1 - 1), c.2)) p m | None => m end.
Definition released (pc : Z) (fs : option Z) (s : S) : S :=
  put_fss (fs_released fs (fss s)) (put_objs (alter (fun c => (wrap64 (c.1 - 1), c.2)) pc (objs s)) s).

Lemma drop_ref_alter_run pc n k (s : S) : objs s !! pc = Some (n, k) -> 1 < n ->
  drop_ref drop_file pc s = Ret (tt, put_objs (alter (fun c => (wrap64 (c.1 - 1), c.2)) pc (objs s)) s).
Proof. intros H Hn. by rewrite (map_alter_Some _ _ _ _ H), (drop_ref_shared_run drop_file pc n k). Qed.

Lemma drop_fs_opt_run fs (s : S) : fs_ok fs (fss s) ->
  drop_fs_opt drop_filesystem fs s = Ret (tt, put_fss (fs_released fs (fss s)) s).
Proof.
  destruct fs as [p|]; cbn; [|by destruct s]. intros (c & v & Hp & Hc).
  rewrite (map_alter_Some _ _ _ _ Hp). unfold drop_fs, Arc_drop, as_ref, mbind, M_bind, gets. cbn.
  rewrite Hp. cbn. rewrite (proj2 (Z.eqb_neq c 0)), (proj2 (Z.eqb_neq c 1)) by lia. done.
Qed.

Lemma drop_task_run pc fs n k (s : S) : objs s !! pc = Some (n, k) -> 1 < n -> fs_ok fs (fss s) ->
  drop_task drop_file drop_filesystem (Task_ pc fs) s = Ret (tt, released pc fs s).
Proof.
  intros H Hn Hf. unfold drop_task. erewrite bind_run by (by eapply drop_ref_alter_run).
  by rewrite drop_fs_opt_run.
Qed.

Lemma states_scope_run id states (s : S) :
  TASK_STATES s = EI SAFE (Some (Mutex_new states)) -> states !! id = None ->
  lock_states (insert_or_drop TASK_STATES_l (fun _ => mret tt) id Wake) s =
  if granted states s then Ret (Ok tt, free_with (put := put_states) (<[id := Wake]> states) (asked states s))
  else if is_empty states then Ret (Err tt, free_with (put := put_states) states (asked states s))
  else UB DAMAGED.
Proof.
  intros Hst Hid. unfold lock_states.
  pose proof (map_insert_run TASK_STATES TASK_STATES_l put_states states id Wake (set cpu_if false s) Hid) as Hi.
  change (granted states (set cpu_if false s)) with (granted states s) in Hi.
  destruct (granted states s); [|destruct (is_empty states)].
  - eapply (slot_run _ (asked states)); [exact Hst|]. unfold insert_or_drop. by erewrite bind_run by exact Hi.
  - eapply (slot_run _ (asked states)); [exact Hst|]. unfold insert_or_drop. by erewrite bind_run by exact Hi.
  - eapply (with_map_ub ∅ TASK_STATES TASK_STATES_l put_states); [exact Hst|]. by apply bind_ub.
Qed.

(** The cell [Arc::new] takes for a future. *)
Definition new_cell (s : S) : Z := base.fresh ({[ 0 ]} ∪ dom (futs s)).

Lemma new_cell_free (s : S) : futs s !! new_cell s = None.
Proof.
  apply not_elem_of_dom. unfold new_cell. intros H.
  apply (is_fresh ({[ 0 ]} ∪ dom (futs s))). set_solver.
Qed.

Lemma Arc_new_futs_run future (s : S) : (forall s, drop_future future s = Ret (tt, s)) ->
  Arc_new futs_lens answer (fun m => drop_future (value m)) (Mutex_new future) s =
  if next_answer s then
    Ret (Ok (new_cell s), put_futs (<[new_cell s := (1, Mutex_new future)]> (futs s)) (use_answer s))
  else Ret (Err tt, use_answer s).
Proof.
  intros Hd. unfold Arc_new. erewrite bind_run by apply answer_run. destruct (next_answer s).
  - reflexivity.
  - by erewrite bind_run by apply Hd.
Qed.

Definition futures_scope (id : TaskId) (future : Fut) : M S (result unit unit) :=
  lock_futures (
    a ← Arc_new futs_lens answer (fun m => drop_future (value m)) (Mutex_new future);
    match a with
    | Err _ => mret (Err tt)
    | Ok a => insert_or_drop TASK_FUTURES_l (drop_task_future drop_future) id a
    end).

Lemma free_with_futures futures (s s' : S) : TASK_FUTURES s = EI SAFE (Some (Mutex_new futures)) ->
  TASK_FUTURES s' = TASK_FUTURES s -> s' = free_with (put := put_futures) futures s'.
Proof. intros H H'. unfold free_with. rewrite <- H, <- H'. by destruct s'. Qed.

Lemma futures_scope_run id future futures (s : S) :
  TASK_FUTURES s = EI SAFE (Some (Mutex_new futures)) -> futures !! id = None ->
  (forall s, drop_future future s = Ret (tt, s)) ->
  futures_scope id future s =
  if next_answer s then
    if granted futures (use_answer s) then
      Ret (Ok tt, free_with (put := put_futures) (<[id := new_cell s]> futures)
        (put_futs (<[new_cell s := (1, Mutex_new future)]> (futs s)) (asked futures (use_answer s))))
    else if is_empty futures then Ret (Err tt, asked futures (use_answer s))
    else UB DAMAGED
  else Ret (Err tt, use_answer s).
Proof.
  intros Htf Hid Hd. unfold futures_scope, lock_futures.
  pose proof (Arc_new_futs_run future (held_map (put := put_futures) futures (set cpu_if false s)) Hd) as Hn.
  change (next_answer (held_map _ _)) with (next_answer s) in Hn.
  pose proof (map_insert_run TASK_FUTURES TASK_FUTURES_l put_futures futures id (new_cell s)
    (put_futs (<[new_cell s := (1, Mutex_new future)]> (futs s)) (use_answer (set cpu_if false s))) Hid) as Hi.
  change (granted futures (put_futs _ _)) with (granted futures (use_answer s)) in Hi.
  destruct (next_answer s); [destruct (granted futures (use_answer s)); [|destruct (is_empty futures)]|].
  - eapply (slot_run _ (fun s => put_futs (<[new_cell s := (1, Mutex_new future)]> (futs s))
      (asked futures (use_answer s)))); [exact Htf|].
    erewrite bind_run by exact Hn. cbv beta iota. unfold insert_or_drop. by erewrite bind_run by exact Hi.
  - rewrite (free_with_futures futures s (asked futures (use_answer s))) by done.
    eapply (slot_run _ (fun s => asked futures (use_answer s))); [exact Htf|].
    erewrite bind_run by exact Hn. cbv beta iota. unfold insert_or_drop. erewrite bind_run by exact Hi. cbv beta iota.
    unfold drop_task_future, Arc_drop, as_ref, mbind, M_bind, gets. cbn. rewrite lookup_insert_eq. cbn.
    rewrite Hd. unfold modify, mret, M_ret, set_count. cbn.
    rewrite insert_insert_eq, delete_insert_id by apply new_cell_free. reflexivity.
  - eapply (with_map_ub ∅ TASK_FUTURES TASK_FUTURES_l put_futures); [exact Htf|].
    erewrite bind_run by exact Hn. cbv beta iota. apply bind_ub. exact Hi.
  - rewrite (free_with_futures futures s (use_answer s)) by done.
    eapply (slot_run _ use_answer); [exact Htf|]. by erewrite bind_run by exact Hn.
Qed.

Lemma tasks_scope_run id pc fs n k tasks (s : S) :
  TASKS s = EI SAFE (Some (Mutex_new tasks)) -> tasks !! id = None ->
  objs s !! pc = Some (n, k) -> 1 < n -> fs_ok fs (fss s) ->
  lock_tasks (insert_or_drop TASKS_l (drop_task drop_file drop_filesystem) id (Task_ pc fs)) s =
  if granted tasks s then
    Ret (Ok tt, free_with (put := put_tasks) (<[id := Task_ pc fs]> tasks) (asked tasks s))
  else if is_empty tasks then Ret (Err tt, released pc fs (asked tasks s))
  else UB DAMAGED.
Proof.
  intros Hts Hid Ho Hn Hf. unfold lock_tasks.
  pose proof (map_insert_run TASKS TASKS_l put_tasks tasks id (Task_ pc fs) (set cpu_if false s) Hid) as Hi.
  change (granted tasks (set cpu_if false s)) with (granted tasks s) in Hi.
  destruct (granted tasks s); [|destruct (is_empty tasks)].
  - eapply (slot_run _ (asked tasks)); [exact Hts|]. unfold insert_or_drop. by erewrite bind_run by exact Hi.
  - assert (released pc fs (asked tasks s) = free_with (put := put_tasks) tasks (released pc fs (asked tasks s))) as ->
      by (unfold free_with; rewrite <- Hts; by destruct s).
    eapply (slot_run _ (fun s => released pc fs (asked tasks s))); [exact Hts|]. unfold insert_or_drop.
    erewrite bind_run by exact Hi. cbv beta iota.
    erewrite bind_run; [|by eapply (drop_task_run pc fs n k)]. reflexivity.
  - eapply (with_map_ub ∅ TASKS TASKS_l put_tasks); [exact Hts|]. by apply bind_ub.
Qed.


Lemma rollback_run id tasks states futures (s : S) :
  TASKS s = EI SAFE (Some (Mutex_new tasks)) -> TASK_STATES s = EI SAFE (Some (Mutex_new states)) ->
  TASK_FUTURES s = EI SAFE (Some (Mutex_new futures)) -> tasks !! id = None ->
  (forall cell, futures !! id = Some cell -> exists future, futs s !! cell = Some (1, Mutex_new future) /\
     forall s, drop_future future s = Ret (tt, s)) ->
  rollback drop_file drop_filesystem drop_future id s =
  Ret (tt, free_with (put := put_states) (delete id states) (free_with (put := put_futures) (delete id futures)
    (put_futs (match futures !! id with Some cell => delete cell (futs s) | None => futs s end) s))).
Proof.
  intros Hts Hst Htf Hid Hf. unfold rollback.
  assert (s = free_with (put := put_tasks) tasks s) as Hs by (unfold free_with; rewrite <- Hts; by destruct s).
  erewrite bind_run.
  2:{ unfold lock_tasks. eapply (slot_run _ (fun s => s) s tasks tasks tt Hts).
      erewrite bind_run by apply map_remove_run. rewrite Hid, delete_id by done. reflexivity. }
  rewrite <- Hs. set (cells := match futures !! id with Some cell => delete cell (futs s) | None => futs s end).
  erewrite bind_run.
  2:{ unfold lock_futures. eapply (slot_run _ (fun s => put_futs cells s) s futures (delete id futures) tt Htf).
      erewrite bind_run by apply map_remove_run. subst cells. destruct (futures !! id) as [c|]; cbn [drop_opt].
      - destruct (Hf c eq_refl) as (fu & Hc & Hd).
        unfold drop_task_future, Arc_drop, as_ref, mbind, M_bind, gets. cbn. rewrite Hc. cbn.
        rewrite Hd. unfold modify, mret, M_ret, set_count. cbn. by rewrite delete_insert_eq.
      - by destruct s. }
  erewrite bind_run; [reflexivity|].
  unfold lock_states. eapply (slot_run _ (fun s => s) _ states (delete id states)); [exact Hst|].
  by rewrite map_remove_run.
Qed.

(** What spawning does not touch. *)
Definition untouched (s s' : S) : Prop :=
  smach s' = smach s /\ TASK_HANDLES s' = TASK_HANDLES s /\ CURRENT_TASK s' = CURRENT_TASK s /\
  NEXT_TASK_ID s' = NEXT_TASK_ID s.

(** The insertions of a spawn have stopped at [s'], with the references given back and
    some of the entries made. *)
Record half_spawned (id : TaskId) (future : Fut) tasks states futures pc fs (s s' : S) : Prop := {
  hs_untouched : untouched s s';
  hs_tasks : TASKS s' = EI SAFE (Some (Mutex_new tasks));
  hs_states : exists states', TASK_STATES s' = EI SAFE (Some (Mutex_new states')) /\ delete id states' = states;
  hs_futures : exists futures', TASK_FUTURES s' = EI SAFE (Some (Mutex_new futures')) /\
    ((futures' = futures /\ futs s' = futs s) \/
     exists cell, futures' = <[id := cell]> futures /\ futs s !! cell = None /\
       futs s' = <[cell := (1, Mutex_new future)]> (futs s));
  hs_refs : objs s' = objs (released pc fs s) /\ fss s' = fss (released pc fs s)
}.

Section spawn_steps.
Context (id : TaskId) (future : Fut) (tasks : gmap TaskId Task) (states : gmap TaskId TaskState) (futures : gmap TaskId Z).
Context (pc : Z) (fs : option Z) (n : Z).
Hypothesis Hd : forall s : S, drop_future future s = Ret (tt, s).

Lemma rollback_half (s s' : S) : tasks !! id = None -> futures !! id = None ->
  half_spawned id future tasks states futures pc fs s s' ->
  wp (rollback drop_file drop_filesystem drop_future id) (fun _ s2 =>
    untouched s s2 /\ free_map (TASKS s2) /\ free_map (TASK_STATES s2) /\ free_map (TASK_FUTURES s2) /\
    task_maps s2 = (tasks, states, futures) /\ futs s2 = futs s /\
    objs s2 = objs (released pc fs s) /\ fss s2 = fss (released pc fs s)) s'.
Proof using Hd.
  intros Ht0 Hf0 [(Hm & Hh & Hc & Hn) Ht (st & Hst & Hdel) (fu & Hfu & Hcase) [Hob Hfs]].
  eapply wp_run.
  { eapply (rollback_run id tasks st fu); [done..|]. intros cell Hcell.
    destruct Hcase as [[-> _]|(c & -> & _ & Hfut)]; [by rewrite Hf0 in Hcell|].
    rewrite lookup_insert_eq in Hcell. injection Hcell as <-. exists future.
    rewrite Hfut, lookup_insert_eq. by split. }
  unfold untouched, task_maps, contents, free_map. cbn. rewrite Ht, Hdel. destruct Hcase as [[-> Hfut]|(c & -> & Hfree & Hfut)].
  - rewrite Hf0, delete_id by done. split_and!; eauto.
  - rewrite lookup_insert_eq, delete_insert_id, Hfut, delete_insert_id by done. split_and!; eauto.
Qed.

(** The answers are all yes, or a tree has as many entries as a leaf. *)
Definition spawn_unless (n : nat) (s : S) : Prop := ~ all_granted n s /\ ~ (few tasks /\ few states /\ few futures).

Lemma next_answer_all k (s : S) : all_granted (1 + k) s -> next_answer s = true /\ all_granted k (use_answer s).
Proof using Type.
  unfold all_granted, next_answer, use_answer. destruct (sanswers s) as [|b ans]; [done|]. cbn.
  intros H. injection H as -> H. by split.
Qed.

(** The entry of the state has been made; the task goes back. *)
Definition with_state (s : S) : S := free_with (put := put_states) (<[id := Wake]> states) (asked states s).

Lemma drop_task_half (s : S) k b : spawn_ready id tasks states futures s ->
  objs s !! pc = Some (n, k) -> 1 < n -> fs_ok fs (fss s) ->
  wp (_ ← drop_task drop_file drop_filesystem (Task_ pc fs); mret (Err tt : result unit unit))
    (fun r s' => r = Err tt /\ half_spawned id future tasks states futures pc fs s s') (set_answers b (with_state s)).
Proof using Type.
  intros [Hts Hst Htf Ht0 Hs0 Hf0] Ho Hn Hfs. wp_step.
  eapply wp_run; [eapply (drop_task_run pc fs n k); [exact Ho|exact Hn|exact Hfs]|]. wp_step. split; [done|].
  split; [done|exact Hts|exists (<[id := Wake]> states); by rewrite delete_insert_id|
          exists futures; split; [exact Htf|by left]|done].
Qed.

(** The entries of the future and of the task. *)
Lemma spawn_later_cases (s : S) k : spawn_ready id tasks states futures s ->
  objs s !! pc = Some (n, k) -> 1 < n -> fs_ok fs (fss s) ->
  wp_unless (spawn_unless 3 (with_state s))
    (r ← futures_scope id future;
     match r with
     | Err _ => _ ← drop_task drop_file drop_filesystem (Task_ pc fs); mret (Err tt)
     | Ok _ => lock_tasks (insert_or_drop TASKS_l (drop_task drop_file drop_filesystem) id (Task_ pc fs))
     end) (fun r s' =>
    match r with
    | Ok _ => untouched s s' /\ free_map (TASKS s') /\ free_map (TASK_STATES s') /\ free_map (TASK_FUTURES s') /\
        objs s' = objs s /\ fss s' = fss s /\
        exists cell, futs s !! cell = None /\ futs s' = <[cell := (1, Mutex_new future)]> (futs s) /\
          task_maps s' = (<[id := Task_ pc fs]> tasks, <[id := Wake]> states, <[id := cell]> futures)
    | Err _ => ~ all_granted 3 (with_state s) /\ half_spawned id future tasks states futures pc fs s s'
    end) (with_state s).
Proof using Hd.
  intros Hready Ho Hn Hfs. pose proof Hready as [Hts Hst Htf Ht0 Hs0 Hf0].
  pose proof (fun b => drop_task_half s k b Hready Ho Hn Hfs) as Hdrop. set (s3 := with_state s) in *.
  pose proof (futures_scope_run id future futures s3 Htf Hf0 Hd) as Hr.
  pose proof (next_answer_all 2 s3) as Ha2. pose proof (granted_all futures 1 (use_answer s3)) as Hg3.
  destruct (next_answer s3) eqn:E2; [destruct (granted futures (use_answer s3)) eqn:E3; [|destruct (is_empty futures) eqn:Hem]|].
  4: { apply wp_unless_wp. wp_step. eapply wp_run; [exact Hr|]. eapply wp_mono; [|by eapply Hdrop]. intros r s' [-> ?].
       split; [|done]. intros Hg. by destruct (Ha2 Hg). }
  3: { apply wp_unless_damaged; [by apply bind_ub|]. split; [intros Hg; by destruct (Ha2 Hg) as [_ ?%Hg3]|].
       intros (_ & _ & Hf). by rewrite (few_empty _ _ Hf E3) in Hem. }
  2: { apply wp_unless_wp. wp_step. eapply wp_run; [exact Hr|]. eapply wp_mono; [|by eapply Hdrop]. intros r s' [-> ?].
       split; [|done]. intros Hg. by destruct (Ha2 Hg) as [_ ?%Hg3]. }
  eapply wp_unless_run; [exact Hr|]. cbv beta iota.
  set (s4 := free_with _ _).
  pose proof (tasks_scope_run id pc fs n k tasks s4 Hts Ht0 Ho Hn Hfs) as Hrt.
  assert (all_granted 3 s3 -> granted tasks s4 = true) as Hg4.
  { intros Hg. destruct (Ha2 Hg) as [_ Ha%(asked_all futures 1)]. exact (granted_all tasks 0 s4 Ha). }
  destruct (granted tasks s4) eqn:E4; [|destruct (is_empty tasks) eqn:Hem].
  - apply wp_unless_wp. unfold wp. rewrite Hrt. unfold untouched, task_maps, contents, free_map. cbn. split_and!; eauto.
    exists (new_cell s3). split; [exact (new_cell_free s3)|]. done.
  - apply wp_unless_wp. unfold wp. rewrite Hrt. split; [by intros Hg%Hg4|].
    split; [done|exact Hts|exists (<[id := Wake]> states); by rewrite delete_insert_id| |done].
    exists (<[id := new_cell s3]> futures). split; [done|]. right.
    exists (new_cell s3). split_and!; [done|exact (new_cell_free s3)|done].
  - apply wp_unless_damaged; [done|]. split; [by intros Hg%Hg4|]. intros (Hf & _).
    by rewrite (few_empty _ _ Hf E4) in Hem.
Qed.

(** The three insertions, whatever the allocator answers. *)
Lemma spawn_inserts_cases (s : S) k : spawn_ready id tasks states futures s ->
  objs s !! pc = Some (n, k) -> 1 < n -> fs_ok fs (fss s) ->
  wp_unless (spawn_unless 4 s) (spawn_inserts drop_file drop_filesystem drop_future id future (Task_ pc fs)) (fun r s' =>
    match r with
    | Ok _ => untouched s s' /\ free_map (TASKS s') /\ free_map (TASK_STATES s') /\ free_map (TASK_FUTURES s') /\
        objs s' = objs s /\ fss s' = fss s /\
        exists cell, futs s !! cell = None /\ futs s' = <[cell := (1, Mutex_new future)]> (futs s) /\
          task_maps s' = (<[id := Task_ pc fs]> tasks, <[id := Wake]> states, <[id := cell]> futures)
    | Err _ => ~ all_granted 4 s /\ half_spawned id future tasks states futures pc fs s s'
    end) s.
Proof using Hd.
  intros Hready Ho Hn Hfs. pose proof Hready as [Hts Hst Htf Ht0 Hs0 Hf0]. unfold spawn_inserts.
  pose proof (states_scope_run id states s Hst Hs0) as Hrs.
  pose proof (granted_all states 3 s) as Hg1. pose proof (asked_all states 3 s) as Ha1.
  destruct (granted states s) eqn:E1; [|destruct (is_empty states) eqn:Hem].
  - eapply wp_unless_run; [exact Hrs|]. cbv beta iota. change (free_with _ _) with (with_state s).
    eapply wp_unless_mono; [|eapply wp_unless_weaken; [|by apply spawn_later_cases with (k := k)]].
    + intros [u|e] s' H; [exact H|]. split; [|apply H]. intros Hg. by apply (proj1 H), Ha1.
    + intros [Hg Hf]. split; [|exact Hf]. intros Hg'. by apply Hg, Ha1.
  - apply wp_unless_wp. wp_step. eapply wp_run; [exact Hrs|]. cbv beta iota. wp_step.
    eapply wp_run; [apply Hd|]. wp_step.
    eapply wp_run; [eapply (drop_task_run pc fs n k); [exact Ho|exact Hn|exact Hfs]|]. wp_steps.
    split; [by intros Hg%Hg1|].
    split; [done|exact Hts|exists states; by rewrite delete_id|exists futures; split; [exact Htf|by left]|done].
  - apply wp_unless_damaged; [by apply bind_ub|]. split; [by intros Hg%Hg1|]. intros (_ & Hf & _).
    by rewrite (few_empty _ _ Hf E1) in Hem.
Qed.
End spawn_steps.
End spawning.

(** C24: spawning is atomic.  With the maps unlocked and an unused next id, whatever
    the allocator answers at its five allocations: on success the id is the next
    one and exactly the entries of the new task are added: its task, the state
    [Wake], and a future nobody else holds; on failure the result is
    [MemoryExhausted], every map and every future is as before, and the references
    to the page context and the filesystem that were handed over are given back.
    The maps are left unlocked and nothing else changes.  It succeeds if all five are
    granted.  If one is refused while a map has eleven entries or more, the code may
    instead damage that map's tree, and the theorem says nothing further: spawning is
    then not atomic; with fewer it always is.  (The future handed over owns nothing
    yet.) *)
Theorem spawn_atomic {F Fut Fs Dev} (drop_file : F -> M (sys F Fut Fs Dev) unit) drop_filesystem drop_future
    (s : sys F Fut Fs Dev) tasks states futures pc fs n k f :
  spawn_ready (NEXT_TASK_ID s) tasks states futures s ->
  objs s !! pc = Some (n, k) -> 1 < n -> fs_ok fs (fss s) ->
  (forall x, drop_future (f (NEXT_TASK_ID s)) x = Ret (tt, x)) ->
  wp_unless (~ all_granted 5 s /\ ~ (few tasks /\ few states /\ few futures))
    (spawn drop_file drop_filesystem drop_future pc fs f) (fun r s' =>
    smach s' = smach s /\ TASK_HANDLES s' = TASK_HANDLES s /\ CURRENT_TASK s' = CURRENT_TASK s /\
    NEXT_TASK_ID s' = wrap64 (NEXT_TASK_ID s + 1) /\
    free_map (TASKS s') /\ free_map (TASK_STATES s') /\ free_map (TASK_FUTURES s') /\
    match r with
    | Ok id => id = NEXT_TASK_ID s /\ objs s' = objs s /\ fss s' = fss s /\
        exists cell, futs s !! cell = None /\ futs s' = <[cell := (1, Mutex_new (f id))]> (futs s) /\
          task_maps s' = (<[id := Task_ pc fs]> tasks, <[id := Wake]> states, <[id := cell]> futures)
    | Err e => e = MemoryExhausted /\ ~ all_granted 5 s /\ task_maps s' = (tasks, states, futures) /\ futs s' = futs s /\
        objs s' = <[pc := (wrap64 (n - 1), k)]> (objs s) /\ fss s' = fs_released fs (fss s)
    end) s.
Proof.
  intros Hready Ho Hn Hfs Hd. pose proof Hready as [Hts Hst Htf Ht0 Hs0 Hf0]. set (id := NEXT_TASK_ID s) in *.
  set (s0 := set_next_id (wrap64 (id + 1)) s). pose proof (next_answer_all 4 s0) as Hall.
  change (all_granted (1 + 4) s0) with (all_granted 5 s) in Hall.
  unfold spawn. eapply wp_unless_run; [reflexivity|]. eapply wp_unless_run; [apply (answer_run s0)|].
  destruct (next_answer s0).
  2:{ apply wp_unless_wp. wp_step. eapply wp_run; [apply Hd|]. wp_step.
      eapply wp_run; [apply drop_fs_opt_run; exact Hfs|]. wp_step.
      eapply wp_run; [eapply (drop_ref_alter_run drop_file pc n k); [exact Ho|exact Hn]|]. wp_step.
      unfold task_maps, contents, free_map. cbn. rewrite Hts, Hst, Htf, (map_alter_Some _ _ _ _ Ho). cbn.
      split_and!; eauto. intros Hg. by destruct (Hall Hg). }
  set (s1 := use_answer s0) in *. apply wp_unless_bind.
  eapply wp_unless_mono; [|eapply wp_unless_weaken;
    [|eapply (spawn_inserts_cases drop_file drop_filesystem drop_future id (f id) tasks states futures pc fs n Hd s1 k);
      [by split|done..]]].
  2:{ intros [Hg Hf]. split; [|done]. intros Hg'. by destruct (Hall Hg'). }
  intros r s' H. apply wp_unless_wp. destruct r as [[]|[]]; cbv beta iota.
  - destruct H as ((? & ? & ? & ?) & ? & ? & ? & ? & ? & ?). wp_step. by split_and!.
  - destruct H as [Hg H]. wp_step. eapply wp_mono; [|by eapply rollback_half].
    intros [] s2 ((? & ? & ? & ?) & ? & ? & ? & ? & ? & Ho2 & ?). wp_step. split_and!; try done.
    + intros Hg'. by destruct (Hall Hg').
    + rewrite Ho2. unfold released. cbn. by rewrite (map_alter_Some _ _ _ _ Ho).
Qed.

Definition example_spawn : sys Empty_set unit unit unit :=
  Sys switch_machine [true; true; false] {[ 16 := (2, PageCtx_ 0x100000) ]} ∅ {[ 64 := (1, Mutex_new tt) ]}
    EarlyInit_new (EI SAFE (Some (Mutex_new {[ 1 := Task_ 16 None ]})))
    (EI SAFE (Some (Mutex_new {[ 1 := Wake ]}))) (EI SAFE (Some (Mutex_new {[ 1 := 64 ]})))
    (Mutex_new (Some 1)) 3 tt.

Lemma spawn_atomic_witness :
  wp (spawn (fun f : Empty_set => match f with end) (fun _ : unit => mret tt) (fun _ : unit => mret tt) 16 None (fun _ => tt))
    (fun r s' => match r with
       | Ok id => id = 3
       | Err e => task_maps s' = ({[ 1 := Task_ 16 None ]}, {[ 1 := Wake ]}, {[ 1 := 64 ]}) end)
    example_spawn.
Proof.
  eapply wp_mono; [|eapply (wp_unless_not (~ all_granted 5 example_spawn /\ _));
    [|eapply (spawn_atomic _ _ _ example_spawn {[ 1 := Task_ 16 None ]} {[ 1 := Wake ]} {[ 1 := 64 ]} 16 None 2
    (PageCtx_ 0x100000)); [by split|done..]]].
  - intros r s' (_ & _ & _ & _ & _ & _ & _ & H). destruct r as [id|e]; [apply H|apply H].
  - intros [_ H]. apply H. split_and!; apply (bool_decide_unpack _); vm_compute; done.
Defined.
