(* ===== verification/Syscall.v ===== *)
(** * Syscall: the system calls ([kernel/src/syscall.rs], [kernel/src/syscall/args.rs])

    Every handler, and the dispatcher that decodes the registers and stores the
    result.  Files are an interface ([FileOps]); a read may have to wait, and the
    dispatch of a system call is then a future that is polled again.  What the
    handlers print is not modelled. *)

From S2P Require Import Prelude Interface Sync Machine Phys Page UserMem Arc Interrupt System Object Task.

(** ** Files, to the system calls *)

Class FileOps (F Fs S : Type) := {
  (** a poll of [File::read] into a buffer of a length: the file afterwards, the
      bytes stored at the start of the buffer, the result; [None]: pending *)
  file_read : F -> Z -> M S (option (F * list Z * result Z SysError));
  file_write : F -> list Z -> M S (result Z SysError);
  (** [Filesystem::open], its errors converted *)
  fs_open : Fs -> list Z -> M S (result F SysError)
}.

(** ** User memory *)

Definition load_byte (va : Z) : M machine Z :=
  w ← load va;
  mret (Z.land (Z.shiftr w (8 * (va mod 8))) 0xff).

(** Byte [k] of a word replaced. *)
Definition set_byte (w k b : Z) : Z :=
  Z.lor (Z.land w (Z.lnot (Z.shiftl 0xff (8 * k)))) (Z.shiftl b (8 * k)).

Definition store_byte (va b : Z) : M machine unit :=
  w ← load va;
  store va (set_byte w (va mod 8) b).

Fixpoint load_bytes (va : Z) (n : nat) : M machine (list Z) :=
  match n with
  | O => mret []
  | S n => b ← load_byte va; bs ← load_bytes (va + 1) n; mret (b :: bs)
  end.

Fixpoint store_bytes (va : Z) (bs : list Z) : M machine unit :=
  match bs with
  | [] => mret tt
  | b :: bs => _ ← store_byte va b; store_bytes (va + 1) bs
  end.

(** ** Flags *)

Definition UserPageFlags_WRITE : Z := 0x02.
Definition UserPageFlags_all : Z := 0x02.
Definition OpenPathFlags_all : Z := 0x01.

(** [Option::ok_or(..)?] and [map_err(..)?] on values of this layer. *)
Definition or_err {S A B} (o : option A) (e : SysError) (k : A -> M S (result B SysError)) : M S (result B SysError) :=
  match o with Some a => k a | None => mret (Err e) end.

Section memory.
Context {Bf : Bitflags}.

(** [From<UserPageFlags> for PageFlags] *)
Definition page_flags (user_flags : Z) : Z :=
  let flags := Z.lor PRESENT USER in
  if contains user_flags UserPageFlags_WRITE then Z.lor flags WRITE else flags.

Definition new_range (virtual_addr page_count : Z) : M machine (result PageRange SysError) :=
  fun s => lift (PageRange_new (build s) virtual_addr page_count) s.

Definition alloc_page (virtual_addr page_count fl : Z) : M machine (result Z SysError) :=
  section (
    page_range ←? new_range virtual_addr page_count;
    _ ←? validate_available page_range;
    or_err (from_bits UserPageFlags_all fl) IllegalValue (fun fl =>
      let fl := page_flags fl in
      _ ←? pages_try (fun addr =>
        phys ← alloc;
        match phys with
        | Err _ => mret (Err MemoryExhausted)
        | Ok phys =>
            r ← map phys addr fl;
            match r with
            | Ok _ => mret (Ok tt)
            | Err Page.AlreadyMapped => panic "alloc_page: AlreadyMapped error should never happen"
            | Err CannotAllocatePageTable => mret (Err MemoryExhausted)
            end
        end) page_range;
      mret (Ok OK))).

(** A loop over the pages whose body cannot return an error. *)
Definition pages_all (f : Z -> M machine unit) (r : PageRange) : M machine unit :=
  for_each (fun i => addr ← page_addr r i; f addr) (page_indices r).

Definition release_page (virtual_addr page_count : Z) : M machine (result Z SysError) :=
  section (
    page_range ←? new_range virtual_addr page_count;
    _ ←? validate_map page_range 0;
    _ ← pages_all (fun addr =>
      r ← unmap addr;
      expect_ok r "release_page: NotMapped error should never happen") page_range;
    mret (Ok OK)).

Definition syscall_modify_page (virtual_addr page_count fl : Z) : M machine (result Z SysError) :=
  section (
    page_range ←? new_range virtual_addr page_count;
    _ ←? validate_map page_range 0;
    or_err (from_bits UserPageFlags_all fl) IllegalValue (fun fl =>
      let fl := page_flags fl in
      _ ← pages_all (fun addr =>
        r ← modify_page addr fl;
        expect_ok r "modify_page: NotMapped error should never happen") page_range;
      mret (Ok OK))).

(** The elements of [(physical_addr..).step_by(PAGE_SIZE)]; the range then stands one
    past the element. *)
Definition phys_at (physical_addr i : Z) : M machine Z :=
  offset ← mul64 i PAGE_SIZE;
  phys ← add64 physical_addr offset;
  _ ← add64 phys 1;
  mret phys.

Definition map_physical_memory (virtual_addr physical_addr page_count fl : Z) : M machine (result Z SysError) :=
  section (
    page_range ←? new_range virtual_addr page_count;
    _ ←? validate_available page_range;
    or_err (from_bits UserPageFlags_all fl) IllegalValue (fun fl =>
      let fl := page_flags fl in
      _ ← for_each (fun i =>
        addr ← page_addr page_range i;
        phys ← phys_at physical_addr i;
        phys ← Phys_new phys;
        r ← map phys addr fl;
        expect_ok r "page::map in map_physical_memory") (page_indices page_range);
      mret (Ok OK))).
End memory.

(** ** Handles, tasks and files *)

(** A read that waits: the object of the file, the buffer, and the critical section
    that is held meanwhile. *)
Inductive SyscallWait := ReadWait (file buf nbyte : Z) (crit : Critical).

Section syscall.
Context {Bf : Bitflags} {F Fut Fs Dev : Type}.
#[local] Abbreviation S := (sys F Fut Fs Dev).
Context {FO : FileOps F Fs S}.
Context (drop_file : F -> M S unit) (drop_filesystem : Fs -> M S unit) (drop_future : Fut -> M S unit).
(** the future of a task that starts in user space *)
Context (user_task : TrapFrame -> TaskId -> Fut).

Definition mem_call {A} (m : M machine A) : M S A := zoom smach_lens m.

(** [UserArg::from_reg] at [Handle] *)
Definition handle_from_reg (reg : Z) : result Handle SysError := ok_or (Handle_from_u64 reg) BadHandle.

(** [object::put(task::current(), object)?.into_u64()] *)
Definition put_current_task (object : Z) : M S (result Z SysError) :=
  cur ← current;
  h ←? put drop_file cur object;
  mret (Ok (Handle_into_u64 h)).

(** [object::get(task::current(), handle).ok_or(SysError::BadHandle)?] *)
Definition get_object {A} (handle : Handle) (k : Z -> M S (result A SysError)) : M S (result A SysError) :=
  cur ← current;
  r ← get cur handle;
  or_err r BadHandle k.

Definition clone_handle (handle : Handle) : M S (result Z SysError) :=
  get_object handle put_current_task.

Definition release_handle (handle : Handle) : M S (result Z SysError) :=
  cur ← current;
  r ← release cur handle;
  match r with
  | Some ref => _ ← drop_ref drop_file ref; mret (Ok OK)
  | None => mret (Err BadHandle)
  end.

Definition create_page_context : M S (result Z SysError) :=
  page_ctx ← mem_call PageCtx_new;
  match page_ctx with
  | Err _ => mret (Err MemoryExhausted)
  | Ok page_ctx =>
      obj ←? Object_new drop_file (PageCtx_ page_ctx);
      put_current_task obj
  end.

Definition debug : M S (result Z SysError) := mret (Ok OK).

Definition set_page_context (page_ctx : Handle) : M S (result Z SysError) :=
  get_object page_ctx (fun ref =>
    ref ←? downcast drop_file as_page_ctx ref;
    pml4 ← object as_page_ctx ref;
    ctx ← mem_call (Phys.clone pml4);
    _ ← drop_ref drop_file ref;
    _ ← mem_call (set_ctx ctx);
    mret (Ok OK)).

Definition get_page_context : M S (result Z SysError) :=
  page_ctx ← Task.get_page_ctx;
  put_current_task page_ctx.

Definition create_task (page_ctx : Handle) (rip rsp : Z) : M S (result Z SysError) :=
  get_object page_ctx (fun ref =>
    ref ←? downcast drop_file as_page_ctx ref;
    ctx ← clone_ref ref;
    _ ← drop_ref drop_file ref;
    filesystem ← get_filesystem;
    _ ←? spawn drop_file drop_filesystem drop_future ctx filesystem (user_task (TrapFrame_new rip rsp));
    mret (Ok OK)).

Definition exit_ (_status : Z) : M S (result Z SysError) := panic "process exited!".

(** The end of [read_stream] and [write_stream]: the critical section, then the
    file. *)
Definition finish {A} (crit : Critical) (file : Z) (r : A) : M S A :=
  _ ← drop_critical crit;
  _ ← drop_ref drop_file file;
  mret r.

(** One poll of [file.read(buf)]. *)
Definition read_wait (w : SyscallWait) : M S (Poll (result Z SysError) SyscallWait) :=
  let 'ReadWait file buf nbyte crit := w in
  f ← object as_file file;
  r ← file_read f nbyte;
  match r with
  | None => mret (Pending w)
  | Some (f, bytes, result) =>
      _ ← modify (fun s => set objs_lens (alter (fun c => (c.1, File_ f)) file (objs s)) s);
      _ ← mem_call (store_bytes buf bytes);
      r ← finish crit file result;
      mret (Ready r)
  end.

Definition read_stream (file : Handle) (buf nbyte : Z) : M S (Poll (result Z SysError) SyscallWait) :=
  cur ← current;
  r ← get cur file;
  match r with
  | None => mret (Ready (Err BadHandle))
  | Some ref =>
      r ← downcast drop_file as_file ref;
      match r with
      | Err e => mret (Ready (Err e))
      | Ok file =>
          crit ← begin;
          b ← mem_call (borrow_slice_mut 1 buf nbyte);
          match b with
          | Err e => r ← finish crit file (Err e); mret (Ready r)
          | Ok (buf, nbyte) => read_wait (ReadWait file buf nbyte crit)
          end
      end
  end.

Definition write_stream (file : Handle) (buf nbyte : Z) : M S (result Z SysError) :=
  get_object file (fun ref =>
    file ←? downcast drop_file as_file ref;
    crit ← begin;
    b ← mem_call (borrow_slice 1 buf nbyte);
    match b with
    | Err e => finish crit file (Err e)
    | Ok (buf, nbyte) =>
        f ← object as_file file;
        bytes ← mem_call (load_bytes buf (Z.to_nat nbyte));
        result ← file_write f bytes;
        finish crit file result
    end).

Definition open_file (path path_len fl : Z) : M S (result Z SysError) :=
  section (
    path ←? mem_call (borrow_slice 1 path path_len);
    or_err (from_bits OpenPathFlags_all fl) IllegalValue (fun _ =>
      fs ← get_filesystem;
      or_err fs NoFile (fun fs =>
        bytes ← mem_call (load_bytes path.1 (Z.to_nat path.2));
        filesystem ← Arc_deref fss_lens fs;
        r ← (file ←? fs_open filesystem bytes;
             file ←? Object_new drop_file (File_ file);
             put_current_task file);
        _ ← drop_fs drop_filesystem fs;
        mret r))).

(** ** Dispatch *)

(** A handler that does not wait, with a handle argument. *)
Definition with_handle {A} (reg : Z) (k : Handle -> M S (result A SysError)) : M S (result A SysError) :=
  match handle_from_reg reg with Ok h => k h | Err e => mret (Err e) end.

Definition ready {A D} (m : M S A) : M S (Poll A D) := r ← m; mret (Ready r).

Definition dispatch0 (regs : Registers) : M S (Poll (result Z SysError) SyscallWait) :=
  match Syscall_try_from (rax regs) with
  | None => mret (Ready (Err BadSyscall))
  | Some syscall =>
      match syscall with
      | AllocPage => ready (mem_call (alloc_page (rdi regs) (rsi regs) (rdx regs)))
      | ReleasePage => ready (mem_call (release_page (rdi regs) (rsi regs)))
      | ModifyPage => ready (mem_call (syscall_modify_page (rdi regs) (rsi regs) (rdx regs)))
      | CloneHandle => ready (with_handle (rdi regs) clone_handle)
      | ReleaseHandle => ready (with_handle (rdi regs) release_handle)
      | CreatePageContext => ready create_page_context
      | Interface.Debug_ => ready debug
      | SetPageContext => ready (with_handle (rdi regs) set_page_context)
      | GetPageContext => ready get_page_context
      | CreateTask => ready (with_handle (rdi regs) (fun h => create_task h (rsi regs) (rdx regs)))
      | Exit => ready (exit_ (rdi regs))
      | MapPhysicalMemory => ready (mem_call (map_physical_memory (rdi regs) (rsi regs) (rdx regs) (rcx regs)))
      | ReadStream =>
          match handle_from_reg (rdi regs) with
          | Ok h => read_stream h (rsi regs) (rdx regs)
          | Err e => mret (Ready (Err e))
          end
      | WriteStream => ready (with_handle (rdi regs) (fun h => write_stream h (rsi regs) (rdx regs)))
      | OpenFile => ready (open_file (rdi regs) (rsi regs) (rdx regs))
      end
  end.

(** The future of [dispatch]: not polled yet, or waiting. *)
Inductive SyscallFut :=
| Start (frame : TrapFrame)
| Waiting (frame : TrapFrame) (w : SyscallWait).

Definition dispatch (frame : TrapFrame) : SyscallFut := Start frame.

Definition store_result (frame : TrapFrame) (r : result Z SysError) : TrapFrame :=
  set_regs (set_rax (SyscallReturn_code r) (regs frame)) frame.

Definition dispatch_poll (waker : TaskId) (d : SyscallFut) : M S (Poll TrapFrame SyscallFut) :=
  let '(frame, m) := match d with
                     | Start frame => (frame, dispatch0 (regs frame))
                     | Waiting frame w => (frame, read_wait w)
                     end in
  r ← m;
  mret match r with
       | Ready r => Ready (store_result frame r)
       | Pending w => Pending (Waiting frame w)
       end.
End syscall.
