(* ===== verification/SyscallSpec.v ===== *)
(** * SyscallSpec: what the system calls guarantee

    The page calls against the invariants of [PageSpec]; calls with bad arguments. *)

From S2P Require Import Prelude Interface Sync Machine Phys Page PageSpec UserMem Arc Interrupt System Object Task Syscall.

(** ** Loops over the pages of a range *)

Section loops.
Context (r : PageRange) (Hr : user_range r).

Lemma page_addr_run i s : 0 <= i < page_count r -> page_addr r i s = Ret (base_page r + i * 4096, s).
Proof using Hr.
  destruct Hr as (_ & Hb & Hc & Hmax). unfold MAX_USER_ADDR in Hmax. intros Hi. unfold page_addr.
  erewrite bind_run.
  2:{ unfold mul64, lift, u64_mul. rewrite arith_exact; [reflexivity|]. unfold PAGE_SIZE. u64. lia. }
  unfold add64, lift, u64_add. rewrite arith_exact; [done|]. unfold PAGE_SIZE. u64. lia.
Qed.

Lemma page_index_range i : i ∈ page_indices r -> 0 <= i < page_count r.
Proof using Hr.
  destruct Hr as (_ & _ & Hc & _). unfold page_indices. intros (n & -> & Hn%elem_of_seq)%list_elem_of_fmap. lia.
Qed.

Lemma wp_pages_try (f : Z -> M machine (result unit SysError)) (I : list Z -> machine -> Prop)
    (R : SysError -> machine -> Prop) s :
  I (page_list r) s ->
  (forall a rest s, I (a :: rest) s ->
    wp (f a) (fun res s' => match res with Ok _ => I rest s' | Err e => R e s' end) s) ->
  wp (pages_try f r) (fun res s' => match res with Ok _ => I [] s' | Err e => R e s' end) s.
Proof using Hr.
  intros HI Hf. unfold pages_try.
  eapply wp_mono; [|apply (wp_for_each_try _ _ (fun idx s => (forall i, i ∈ idx -> 0 <= i < page_count r) /\
    I ((fun i => base_page r + i * 4096) <$> idx) s) R)].
  - intros [u|e] s' H; [exact (proj2 H)|exact H].
  - split; [exact page_index_range|exact HI].
  - intros i rest s1 [Hin HI1]. wp_step. eapply wp_run; [apply page_addr_run, Hin; left|].
    eapply wp_mono; [|apply Hf; exact HI1]. intros [u|e] s2 H2; [|done]. split; [|done].
    intros j Hj. apply Hin. by right.
Qed.

Lemma wp_pages_all (f : Z -> M machine unit) (I : list Z -> machine -> Prop) s :
  I (page_list r) s ->
  (forall a rest s, I (a :: rest) s -> wp (f a) (fun _ => I rest) s) ->
  wp (pages_all f r) (fun _ => I []) s.
Proof using Hr.
  intros HI Hf. unfold pages_all.
  eapply wp_mono; [|apply (wp_for_each _ _ (fun idx s => (forall i, i ∈ idx -> 0 <= i < page_count r) /\
    I ((fun i => base_page r + i * 4096) <$> idx) s))].
  - intros u s' [_ H]. exact H.
  - split; [exact page_index_range|exact HI].
  - intros i rest s1 [Hin HI1]. wp_step. eapply wp_run; [apply page_addr_run, Hin; left|].
    eapply wp_mono; [|apply Hf; exact HI1]. intros u s2 H2. split; [|done].
    intros j Hj. apply Hin. by right.
Qed.

Lemma page_list_NoDup : NoDup (page_list r).
Proof using Type.
  unfold page_list, page_indices. rewrite <- list_fmap_compose. apply NoDup_fmap; [|apply NoDup_seq].
  intros i j. cbn. lia.
Qed.

(** Different pages of the range have different page numbers. *)
Lemma page_list_vpage a a' : a ∈ page_list r -> a' ∈ page_list r -> vpage a = vpage a' -> a = a'.
Proof using Hr.
  destruct Hr as (Hal & Hb & Hc & Hmax). unfold page_aligned, PAGE_SIZE, MAX_USER_ADDR in *.
  intros (i & Hi & ->)%elem_of_page_list (j & Hj & ->)%elem_of_page_list; [|done..].
  unfold vpage. pow2s. intros H. zdiv.
Qed.

(** A page outside of a range. *)
Definition off_range (va : Z) : Prop := outside va /\ forall a, a ∈ page_list r -> vpage va <> vpage a.
End loops.

(** ** alloc_page *)

(** The low bits of an entry the caller asks for with the flags [fl]: PRESENT (bit 0) and
    USER (bit 2), and WRITE (bit 1) with bit 1 of the argument. *)
Definition entry_bits (fl : Z) : Z := if Z.testbit fl 1 then 0x7 else 0x5.

Section alloc_page.
Context `{!Bitflags, !BitflagsLaws _}.

Lemma page_flags_bits fl : page_flags fl = entry_bits fl.
Proof using All.
  unfold page_flags, entry_bits, UserPageFlags_WRITE. rewrite contains_spec.
  change 2 with (2 ^ 1). rewrite land_pow2 by done. by destruct (Z.testbit fl 1).
Qed.

Lemma page_flags_present fl : page_flags fl = 5 \/ page_flags fl = 7.
Proof using All. rewrite page_flags_bits. unfold entry_bits. destruct (Z.testbit _ _); auto. Qed.

Lemma page_flags_low fl : 0 <= page_flags fl < 0x1000.
Proof using All. destruct (page_flags_present fl) as [-> | ->]; lia. Qed.

Lemma present_entry p fl : nonzero (Z.lor p (page_flags fl)) = Some (Z.lor p (page_flags fl)).
Proof using All.
  unfold nonzero. rewrite (proj2 (Z.eqb_neq _ _)); [done|]. intros Hz%Z.lor_eq_0_iff.
  destruct Hz as [_ Hz]. destruct (page_flags_present fl) as [Hp|Hp]; congruence.
Qed.

(** The entry of a frame with the flags asked for. *)
Lemma present_sum p fl : page_aligned p -> nonzero (Z.lor p (page_flags fl)) = Some (p + entry_bits fl).
Proof using All.
  intros Hp. rewrite present_entry, lor_low by (done || apply page_flags_low). by rewrite page_flags_bits.
Qed.

Section loop.
Context (rs : list PhysRegion) (r : PageRange) (Hr : user_range r) (fl : Z).
Context (bs0 f0 : list Z) (o0 : gmap Z (nat * Z)) (s0 : machine) (Hvm0 : vm_inv rs bs0 f0 o0 s0).
Context (Hfree : forall a, a ∈ page_list r -> pte s0 a = None).

(** The page [a] is mapped with the flags asked for to the frame [p], which was free at the
    start, holds zeros, and has this reference only. *)
Record new_page (s : machine) (a p : Z) : Prop := {
  np_entry : pte s a = Some (p + entry_bits fl);
  np_free : allocatable rs bs0 f0 p;
  np_aligned : page_aligned p;
  np_zero : mem s !! p = Some zero_frame;
  np_count : rc_of s p = 1
}.

(** What holds of every state between two pages: the pages of the range are either
    still free or hold new frames, different pages different ones; everything else is as
    at the start, the data in every frame that was not free included. *)
Record filling_at (bs fl' : list Z) (owner : gmap Z (nat * Z)) (s : machine) : Prop := {
  fi_env : same_env s0 s;
  fi_evolves : evolves rs (fun q => ~ allocatable rs bs0 f0 q) bs0 f0 o0 s0 bs fl' owner s;
  fi_free : forall q, allocatable rs bs fl' q -> allocatable rs bs0 f0 q;
  fi_data : forall a p, a ∈ page_list r -> new_page s a p -> data_frame rs bs fl' owner p;
  fi_off : forall va, off_range r va -> pte s va = pte s0 va;
  fi_pages : forall a, a ∈ page_list r -> pte s a = None \/ exists p, new_page s a p;
  fi_apart : forall a a' p, a ∈ page_list r -> a' ∈ page_list r -> new_page s a p -> new_page s a' p -> a = a'
}.
Definition filling (s : machine) : Prop := exists bs fl' owner, filling_at bs fl' owner s.

Definition filled (rest : list Z) (s : machine) : Prop :=
  filling s /\ NoDup rest /\ (forall a, a ∈ rest -> a ∈ page_list r /\ pte s a = None) /\
  (forall a, a ∈ page_list r -> a ∉ rest -> is_Some (pte s a)).

Lemma new_page_frame s a p p' : new_page s a p -> new_page s a p' -> p = p'.
Proof using Type. intros [H1 _ _ _ _] [H2 _ _ _ _]. rewrite H1 in H2. injection H2. lia. Qed.

Lemma new_page_evolves P bs fl' o bs' fl'' o' s s' a p : new_page s a p -> pte s' a = pte s a ->
  evolves rs P bs fl' o s bs' fl'' o' s' -> P p -> data_frame rs bs fl' o p ->
  new_page s' a p /\ data_frame rs bs' fl'' o' p.
Proof using Type.
  intros [He Hf Hal Hz Hc] Heq Hev HP Hd. destruct (ev_data _ _ _ _ _ _ _ _ _ _ Hev p HP Hd) as (Hd' & Hm & Hrc).
  split; [|done]. split; [congruence|done|done|congruence|congruence].
Qed.

(** A step that takes the frame [phys] for the page [a]: the page is still free after it,
    or it is a new page. *)
Lemma filling_step bs fl' o bs' fl'' o' s s' a phys : filling_at bs fl' o s -> a ∈ page_list r -> pte s a = None ->
  allocatable rs bs fl' phys -> evolves rs (fun q => q <> phys) bs fl' o s bs' fl'' o' s' ->
  same_env s s' -> (forall va, outside va -> vpage va <> vpage a -> pte s' va = pte s va) ->
  pte s' a = None \/ (new_page s' a phys /\ data_frame rs bs' fl'' o' phys) -> filling_at bs' fl'' o' s'.
Proof using Hr.
  intros [He0 Hev0 Hfr Hdat Ho Hp Hap] Ha Hnone Hphys Hev He Hoth Hnew.
  assert (forall a', a' ∈ page_list r -> a' <> a -> pte s' a' = pte s a') as Hpg.
  { intros a' Ha' Hne. apply Hoth; [by eapply page_list_outside|]. intros Hv. by apply Hne, (page_list_vpage r Hr). }
  assert (forall a' p, a' ∈ page_list r -> new_page s a' p -> a' <> a /\ p <> phys /\ new_page s' a' p /\ data_frame rs bs' fl'' o' p) as Hkeep.
  { intros a' p Hin Hn. pose proof (Hdat a' p Hin Hn) as Hd.
    assert (a' <> a) as Hne by (intros ->; pose proof (np_entry _ _ _ Hn); congruence).
    assert (p <> phys) as Hpp by (intros ->; by apply Hd). split_and!; [done|done|..];
      (eapply new_page_evolves; [exact Hn|by apply Hpg|exact Hev|exact Hpp|exact Hd]). }
  assert (forall a' p, a' ∈ page_list r -> new_page s' a' p ->
    (a' = a /\ p = phys /\ data_frame rs bs' fl'' o' p) \/ new_page s a' p) as Hback.
  { intros a' p Hin Hn. destruct (decide (a' = a)) as [->|Hne].
    - left. destruct Hnew as [Hnil|[Hn' Hd]]; [pose proof (np_entry _ _ _ Hn); congruence|].
      by rewrite (new_page_frame s' a p phys Hn Hn').
    - right. destruct (Hp a' Hin) as [Hnil|[p' Hn']].
      + pose proof (np_entry _ _ _ Hn) as He'. rewrite Hpg, Hnil in He' by done. discriminate.
      + destruct (Hkeep a' p' Hin Hn') as (_ & _ & Hn'' & _). by rewrite (new_page_frame s' a' p p' Hn Hn''). }
  split.
  - by eapply same_env_trans.
  - eapply evolves_trans; [exact Hev0|]. eapply evolves_weaken; [|exact Hev]. intros q Hq ->. by apply Hq, Hfr.
  - intros q [Hq|Hq]%(ev_free _ _ _ _ _ _ _ _ _ _ Hev); [by apply Hfr|]. destruct (decide (q = phys)) as [->|]; [by apply Hfr|by destruct Hq].
  - intros a' p Hin [(_ & _ & Hd)|Hn]%Hback; [done| |done]. by eapply Hkeep.
  - intros va [Hva Hne]. rewrite Hoth; [by apply Ho|done|by apply Hne].
  - intros a' Hin. destruct (decide (a' = a)) as [->|Hne]; [destruct Hnew as [?|[? _]]; [by left|right; by exists phys]|].
    rewrite Hpg by done. destruct (Hp a' Hin) as [?|[p Hn]]; [by left|right]. exists p. by eapply Hkeep.
  - intros a' a'' p Hin Hin' Hn%Hback Hn'%Hback; [|done..].
    destruct Hn as [(-> & -> & _)|Hn], Hn' as [(-> & Hpp & _)|Hn']; [done|..].
    + destruct (Hkeep a'' phys Hin' Hn') as (_ & ? & _). done.
    + destruct (Hkeep a' p Hin Hn) as (_ & ? & _). done.
    + by apply (Hap a' a'' p).
Qed.

Lemma alloc_page_body a rest s : filled (a :: rest) s ->
  wp (phys ← alloc;
      match phys with
      | Err _ => mret (Err MemoryExhausted)
      | Ok phys =>
          r ← map phys a (page_flags fl);
          match r with
          | Ok _ => mret (Ok tt)
          | Err Page.AlreadyMapped => panic "alloc_page: AlreadyMapped error should never happen"
          | Err CannotAllocatePageTable => mret (Err MemoryExhausted)
          end
      end)
    (fun res s' => match res with
                   | Ok _ => filled rest s'
                   | Err e => e = MemoryExhausted /\ filling s'
                   end) s.
Proof using All.
  intros ((bs & fl' & o & Hfi) & Hnd & Hrest & Hdone). pose proof (fi_evolves _ _ _ _ Hfi) as Hev0.
  destruct (Hrest a ltac:(left)) as [Ha Hnone]. pose proof (page_list_outside r a Hr Ha) as Hao.
  wp_step. wp_call alloc_vm; [|apply Hev0]. intros [phys|[]] s1 Hpost; [|subst s1; wp_step; split; [done|by exists bs, fl', o]].
  destruct Hpost as (He1 & Ht1 & Hall & Hkn & Hz1 & Hc1 & bs1 & fl1 & Hev1 & Hheld).
  pose proof (same_tables_mappings _ _ Ht1) as Hm1.
  assert (pte s1 a = None) as Hn1 by (by rewrite Hm1).
  wp_step. wp_call (map_ok rs bs1 fl1 o); [|done|apply Hev1|done].
  intros res s2 [(_ & He2 & Hres) (bs2 & fl2 & o2 & Hev2)].
  assert (evolves rs (fun q => q <> phys) bs fl' o s bs2 fl2 o2 s2) as Hev.
  { eapply evolves_trans; [by eapply (evolves_weaken _ (fun _ => True))|]. eapply evolves_weaken; [|exact Hev2]. by right. }
  assert (same_env s s2) as He by (by eapply same_env_trans).
  destruct res as [[]|e].
  2:{ destruct Hres as (He' & Hsame & _). destruct e; [destruct He' as [e He']; congruence|].
      wp_step. split; [done|]. exists bs2, fl2, o2. eapply filling_step; [exact Hfi|exact Ha|done|exact Hall|exact Hev|done| |left].
      - intros va Hva _. by rewrite Hsame, Hm1.
      - by rewrite Hsame. }
  destruct Hres as (_ & Hnew & Hoth & Hrc2). pose proof (held_aligned _ _ _ _ _ _ Hheld) as Hpa.
  rewrite present_sum in Hnew by done. wp_step.
  assert (forall va, outside va -> vpage va <> vpage a -> pte s2 va = pte s va) as Hoth'.
  { intros va Hva Hne. by rewrite Hoth, Hm1. }
  destruct (ev_data _ _ _ _ _ _ _ _ _ _ Hev2 phys) as (Hd2 & Hmem2 & _); [by left|by eapply held_data; [apply Hev1|]|].
  assert (new_page s2 a phys) as Hnp.
  { split; [done|by apply (fi_free _ _ _ _ Hfi)|done|congruence|congruence]. }
  apply NoDup_cons_inv in Hnd as [Hnin Hnd]. split; [|split; [done|split]].
  - exists bs2, fl2, o2. eapply filling_step; [exact Hfi|exact Ha|done|exact Hall|exact Hev|done|done|by right].
  - intros a' Ha'. destruct (Hrest a' ltac:(by right)) as [Hl Hp]. split; [done|].
    rewrite Hoth'; [done|by eapply page_list_outside|]. intros Hv%(page_list_vpage r Hr); [|done..]. by subst a'.
  - intros a' Ha' Hn'. destruct (decide (a' = a)) as [->|Hne]; [rewrite Hnew; by eexists|].
    rewrite Hoth'; [|by eapply page_list_outside|intros Hv%(page_list_vpage r Hr); done].
    apply Hdone; [done|]. by intros [->|?]%elem_of_cons.
Qed.
End loop.

(** What [alloc_page] guarantees. *)
Definition alloc_page_post (rs : list PhysRegion) bs f owner (va count fl : Z) (s : machine)
    (res : result Z SysError) (s' : machine) : Prop :=
  let r := PageRange_ va count in
  match res with
  | Ok v => v = OK /\ user_range r /\ Z.land fl (Z.lnot UserPageFlags_all) = 0 /\
      filling rs r fl bs f owner s s' /\
      forall a, a ∈ page_list r -> pte s a = None /\ exists p, new_page rs fl bs f s' a p
  | Err MemoryExhausted => (u64_limit <= count * 4096 /\ s' = s) \/
      (user_range r /\ (forall a, a ∈ page_list r -> pte s a = None) /\ filling rs r fl bs f owner s s')
  | Err BadPointer => s' = s /\ count * 4096 < u64_limit /\ ~ user_range r
  | Err Interface.AlreadyMapped => s' = s /\ user_range r /\ exists a, a ∈ page_list r /\ is_Some (pte s a)
  | Err IllegalValue => s' = s /\ user_range r /\ Z.land fl (Z.lnot UserPageFlags_all) <> 0
  | Err _ => False
  end.

Lemma filling_if rs r fl bs f o s s' b : filling rs r fl bs f o (set_if b s) s' -> filling rs r fl bs f o s (set_if (m_if s) s').
Proof using Type.
  intros (bs' & f' & o' & [He Hev Hfr Hd Ho Hp Ha]). exists bs', f', o'.
  assert (forall a p, new_page rs fl bs f (set_if (m_if s) s') a p <-> new_page rs fl bs f s' a p) as Hiff.
  { intros a p. split; by intros []. }
  split; [by destruct He as (? & _ & ?)| |done| |exact Ho| |].
  - replace s with (set_if (m_if s) (set_if b s)) at 1 by (by destruct s). by apply evolves_if.
  - intros a p Hin Hn%Hiff. by apply (Hd a).
  - intros a Hin. destruct (Hp a Hin) as [?|[p Hn]]; [by left|right]. exists p. by apply Hiff.
  - intros a a' p Hin Hin' Hn%Hiff Hn'%Hiff. by apply (Ha a a' p).
Qed.

(** The range of a call: overflow, or the range by exact arithmetic. *)
Lemma wp_range {A} s va count (body : PageRange -> M machine (result A SysError)) (Q : result A SysError -> machine -> Prop) :
  in_u64 va -> in_u64 count -> ~ range_overflows va count ->
  (u64_limit <= count * 4096 -> Q (Err MemoryExhausted) s) ->
  (count * 4096 < u64_limit -> ~ user_range (PageRange_ va count) -> Q (Err BadPointer) s) ->
  (user_range (PageRange_ va count) -> wp (body (PageRange_ va count)) Q s) ->
  wp (page_range ←? new_range va count; body page_range) Q s.
Proof using Type.
  intros Hva Hc Hno Hme Hbp Hok. wp_step. eapply wp_run; [unfold new_range, lift; by rewrite PageRange_new_exact|].
  unfold range_result. destruct (Z.leb_spec u64_limit (count * 4096)) as [Hl|Hl]; [by apply Hme|].
  destruct (bool_decide_reflect (page_aligned va /\ va + count * 4096 <= MAX_USER_ADDR)) as [[Hal Hmax]|Hn].
  - apply Hok. destruct Hva, Hc. by split_and!.
  - apply Hbp; [done|]. intros (? & _ & _ & ?). by apply Hn.
Qed.

(** In a debug build the overflow of the end of a range is a panic. *)
Lemma range_panics {A} s va count (body : PageRange -> M machine (result A SysError)) :
  in_u64 va -> in_u64 count -> range_overflows va count -> build s = Debug ->
  section (page_range ←? new_range va count; body page_range) s = Panic OVERFLOW.
Proof using Type.
  intros Hva Hc Hov Hd. unfold section, mbind, M_bind. rewrite begin_run. cbv beta iota.
  unfold try, new_range, lift, mbind, M_bind. change (build (set cpu_if false s)) with (build s).
  by rewrite PageRange_new_overflow, Hd.
Qed.

(** C6: the system call [alloc_page], for any three 64-bit arguments and any machine that
    satisfies the frame and table invariants.  When the end of the range overflows 64 bits,
    a debug build panics with the overflow (a release build accepts the range, C40).
    Otherwise it returns.  On success every page of the range was free and now has an
    entry with PRESENT, USER and, if the caller asked for it, WRITE, to a frame of its own
    that was free before the call, is zeroed and is counted once.  An error other than
    [MemoryExhausted] changes nothing at all: the range is not one of user space, a page of
    it is mapped, or a flag is undefined.  [MemoryExhausted] changes nothing when the
    number of bytes overflows; otherwise the pages already filled stay mapped.  In every
    case the invariants hold, the interrupt flag is as before, no mapping outside of the
    range has changed, and every frame in use that is no table keeps contents and count. *)
Theorem alloc_page_spec rs bs f owner s va count fl :
  vm_inv rs bs f owner s -> in_u64 va -> in_u64 count ->
  (range_overflows va count -> build s = Debug -> alloc_page va count fl s = Panic OVERFLOW) /\
  (~ range_overflows va count -> wp (alloc_page va count fl) (alloc_page_post rs bs f owner va count fl s) s).
Proof using All.
  intros Hvm Hva Hc. split; [intros; by apply range_panics|]. intros Hno. apply wp_section_env. set (s1 := set_if false s).
  assert (vm_inv rs bs f owner s1) as Hvm1 by (by apply vm_inv_if).
  assert (set_if (m_if s) s1 = s) as Hback by (by destruct s).
  set (r := PageRange_ va count).
  apply wp_range; [done..| | |].
  { intros Hl. split; [done|]. left. by rewrite Hback. }
  { intros Hl Hn. split; [done|]. by rewrite Hback. }
  intros Hr. wp_step. eapply wp_run; [apply (validate_available_run owner s1); [apply Hvm1|exact Hr]|].
  destruct (forallb _ _) eqn:Hall.
  2:{ split; [done|]. rewrite Hback. split_and!; [done|done|].
      destruct (decide (Forall (fun a => pte s a = None) (page_list r))) as [HF|HF].
      - exfalso. enough (forallb (fun a => bool_decide (pte s1 a = None)) (page_list r) = true) as Ht by exact (eq_true_false_abs _ Ht Hall).
        apply forallb_forall. intros a Ha%list_elem_of_In. apply bool_decide_eq_true. by eapply Forall_forall in HF.
      - apply not_Forall_Exists, Exists_exists in HF as (a & Ha & Hn); [|apply _]. exists a. split; [done|by apply not_eq_None_Some]. }
  assert (forall a, a ∈ page_list r -> pte s a = None) as Hfree.
  { intros a Ha. rewrite forallb_forall in Hall. apply list_elem_of_In, Hall, bool_decide_eq_true in Ha. exact Ha. }
  unfold or_err. destruct (decide (Z.land fl (Z.lnot UserPageFlags_all) = 0)) as [Hfl|Hfl];
    [rewrite from_bits_some by done|rewrite from_bits_none by done; wp_step; split; [done|by rewrite Hback]].
  wp_step. eapply wp_mono; [|apply (wp_pages_try r Hr _ (filled rs r fl bs f owner s1)
    (fun e s' => e = MemoryExhausted /\ filling rs r fl bs f owner s1 s'))].
  - intros [u|e] s2 H2.
    + destruct H2 as (Hfi & _ & _ & Hdone). wp_step. pose proof Hfi as (bs' & f' & o' & Hfi'). split; [apply Hfi'|].
      split_and!; [done|done|done|by eapply filling_if|]. intros a Ha. split; [by apply Hfree|].
      destruct (fi_pages _ _ _ _ _ _ _ _ _ _ _ Hfi' a Ha) as [Hn|[p Hp]].
      * destruct (Hdone a Ha) as [e He]; [by apply not_elem_of_nil|]. congruence.
      * exists p. by destruct Hp.
    + destruct H2 as [-> Hfi]. pose proof Hfi as (bs' & f' & o' & Hfi'). split; [apply Hfi'|]. right.
      split_and!; [done|done|by eapply filling_if].
  - split; [|split_and!; [apply page_list_NoDup| |done]].
    + exists bs, f, owner. split; [done|by apply evolves_refl|done| |done|by left; apply Hfree|].
      * intros a p Ha Hn. pose proof (np_entry _ _ _ _ _ _ _ Hn) as He. change (pte s a = Some (p + entry_bits fl)) in He.
        by rewrite Hfree in He.
      * intros a a' p Ha _ Hn. pose proof (np_entry _ _ _ _ _ _ _ Hn) as He. change (pte s a = Some (p + entry_bits fl)) in He.
        by rewrite Hfree in He.
    + intros a Ha. split; [done|by apply Hfree].
  - intros a rest s2 H2. by apply alloc_page_body.
Qed.
End alloc_page.

Lemma alloc_page_spec_witness :
  exists r s', alloc_page (Bf := bitflags_crate) 0x1000 1 2 example_vm = Ret (r, s') /\
    alloc_page_post example_regions [0x100000] [] example_owner 0x1000 1 2 example_vm r s'.
Proof.
  apply wp_iff. apply (alloc_page_spec (H := bitflags_crate) (BitflagsLaws0 := bitflags_crate_laws)
    example_regions [0x100000] [] example_owner example_vm 0x1000 1 2);
    [exact example_vm_inv|u64; lia|u64; lia|]. intros (_ & _ & _ & Hlim). revert Hlim. u64. lia.
Defined.

(** ** Results and bad arguments *)

Section results.
Context {Bf : Bitflags} {F Fut Fs Dev : Type}.
#[local] Abbreviation S := (sys F Fut Fs Dev).
Context {FO : FileOps F Fs S}.
Context (drop_file : F -> M S unit) (drop_filesystem : Fs -> M S unit) (drop_future : Fut -> M S unit).
Context (user_task : TrapFrame -> TaskId -> Fut).

(** The system calls whose first argument is a handle. *)
Definition takes_handle (v : Syscall) : bool :=
  match v with
  | CloneHandle | ReleaseHandle | SetPageContext | CreateTask | ReadStream | WriteStream => true
  | _ => false
  end.

(** C30: a system call with a number that is none of the fifteen, or with handle
    zero where a handle is expected, is answered at once: nothing in the kernel
    changes, of the registers only [rax] does, and the user's decoding of [rax] is
    [BadSyscall] or [BadHandle]. *)
Theorem bad_arguments_change_nothing waker frame (s : S) e :
  match Syscall_try_from (rax (regs frame)) with
  | None => e = BadSyscall
  | Some v => takes_handle v = true /\ rdi (regs frame) = 0 /\ e = BadHandle
  end ->
  dispatch_poll drop_file drop_filesystem drop_future user_task waker (dispatch frame) s =
    Ret (Ready (set_regs (set_rax (SysError_code e) (regs frame)) frame), s) /\
  SyscallResult_into (SysError_code e) = Ret (Err e).
Proof using Type.
  intros He. split; [|by destruct e].
  unfold dispatch_poll, dispatch, dispatch0. destruct (Syscall_try_from _) as [v|]; [|by subst e].
  destruct He as (Hv & Hr & ->). rewrite Hr. by destruct v.
Qed.

End results.

(** A console without a key, opened by task 1 as handle 4. *)
Definition silent_files : FileOps unit unit (sys unit unit unit unit) := {|
  file_read _ _ := mret None;
  file_write _ buf := mret (Ok (Z.of_nat (length buf)));
  fs_open _ _ := mret (Err NoFile)
|}.

Definition reading_sys : sys unit unit unit unit :=
  Sys example_vm [] {[ 16 := (1, File_ tt) ]} ∅ ∅ (EI SAFE (Some (Mutex_new {[ 1 := {[ 4 := 16 ]} ]})))
    EarlyInit_new EarlyInit_new EarlyInit_new (Mutex_new (Some 1)) 2 tt.

Lemma bad_arguments_change_nothing_witness :
  dispatch_poll (Bf := bitflags_crate) (FO := silent_files) (fun _ => mret tt) (fun _ => mret tt) (fun _ => mret tt)
    (fun _ _ => tt) 1 (dispatch (TrapFrame_new 7 7)) reading_sys =
    Ret (Ready (set_regs (set_rax (SysError_code BadSyscall) (regs (TrapFrame_new 7 7))) (TrapFrame_new 7 7)), reading_sys) /\
  SyscallResult_into (SysError_code BadSyscall) = Ret (Err BadSyscall).
Proof.
  apply (bad_arguments_change_nothing (Bf := bitflags_crate) (FO := silent_files) (fun _ => mret tt) (fun _ => mret tt)
    (fun _ => mret tt) (fun _ _ => tt) 1 (TrapFrame_new 7 7) reading_sys BadSyscall). done.
Defined.
