(* ===== verification/PageCalls.v ===== *)
(** * PageCalls: the system calls that change pages that are mapped

    [release_page] and [modify_page] over the whole of a range, with the counts of the
    frames; and what [map_physical_memory] does when there is no frame for a page
    table. *)

From S2P Require Import Prelude Interface Sync Machine Phys Page PageSpec UserMem Arc Interrupt System Object Task Syscall SyscallSpec.

(** ** A page at a time *)

(** The frame a page is mapped to, and how many pages of a list are mapped to a frame. *)
Definition frame_of (s : machine) (a : Z) : option Z := pte s a ≫= raw_phys.
Definition refs (s : machine) (p : Z) (l : list Z) : Z := Z.of_nat (length (filter (fun a => frame_of s a = Some p) l)).

Lemma refs_app s p l l' : refs s p (l ++ l') = refs s p l + refs s p l'.
Proof. unfold refs. rewrite filter_app, length_app. lia. Qed.
Lemma refs_one s p a : refs s p [a] = if decide (frame_of s a = Some p) then 1 else 0.
Proof. unfold refs. rewrite filter_cons. by destruct (decide _). Qed.
Lemma refs_nonneg s p l : 0 <= refs s p l.
Proof. unfold refs. lia. Qed.

Section pages.
Context (rs : list PhysRegion) (r : PageRange) (Hr : user_range r) (s0 : machine).

(** Between two pages: those that are done have their new entries, everything else is
    as at the start. *)
Record so_far (new : Z -> option Z) (l rest : list Z) (s : machine) : Prop := {
  sf_split : page_list r = l ++ rest;
  sf_env : same_env s0 s;
  sf_off : forall va, off_range r va -> pte s va = pte s0 va;
  sf_rest : forall a, a ∈ rest -> pte s a = pte s0 a;
  sf_done : forall a, a ∈ l -> pte s a = new a
}.

Lemma so_far_start new : so_far new [] (page_list r) s0.
Proof using Type. split; try done. by intros a Ha%elem_of_nil. Qed.

Lemma so_far_step new l a rest s s' : so_far new l (a :: rest) s -> same_env s s' -> update_post rs a (new a) s s' ->
  so_far new (l ++ [a]) rest s'.
Proof using Hr.
  intros [Hl He Ho Hrest Hdone] He' [Hnew Hoth].
  assert (NoDup (l ++ a :: rest)) as Hnd by (rewrite <- Hl; apply page_list_NoDup).
  apply NoDup_app in Hnd as (_ & Hd & [Ha Hnd]%NoDup_cons).
  assert (forall a', a' ∈ l ++ a :: rest -> a' <> a -> pte s' a' = pte s a') as Hpg.
  { intros a' Ha' Hne. rewrite <- Hl in Ha'. assert (a ∈ page_list r) as Hin by (rewrite Hl; apply elem_of_app; right; left).
    apply Hoth; [by eapply page_list_outside|]. intros Hv. by apply Hne, (page_list_vpage r Hr). }
  split.
  - by rewrite <- app_assoc.
  - by eapply same_env_trans.
  - intros va [Hout Hva]. rewrite Hoth; [by apply Ho|done|]. apply Hva. rewrite Hl. set_solver.
  - intros a' Ha'. rewrite Hpg; [apply Hrest; set_solver|set_solver|]. by intros ->.
  - intros a' [Ha'| ->%list_elem_of_singleton]%elem_of_app; [|done].
    rewrite Hpg; [by apply Hdone|set_solver|]. intros ->. apply (Hd a); [done|left].
Qed.

Lemma so_far_page new l a rest s : so_far new l (a :: rest) s -> a ∈ page_list r /\ outside a /\ pte s a = pte s0 a.
Proof using Hr.
  intros H. assert (a ∈ page_list r) as Ha by (rewrite (sf_split _ _ _ _ H); set_solver).
  split_and!; [done|by eapply page_list_outside|]. apply (sf_rest _ _ _ _ H). left.
Qed.
End pages.

(** ** release_page *)

(** The pages of a range may be released: each that is mapped has a frame that is not a
    page table, which is counted at least as often as it is mapped. *)
Record releasable (rs : list PhysRegion) (owner : gmap Z (nat * Z)) (r : PageRange) (s : machine) : Prop := {
  rl_frame : forall a, a ∈ page_list r -> is_Some (pte s a) -> exists q, frame_of s a = Some q /\ q ∉ dom owner;
  rl_refs : forall p, known rs p -> 0 < refs s p (page_list r) -> refs s p (page_list r) <= rc_of s p < u64_limit
}.

(** A page of the range is never a table. *)
Lemma refs_table rs owner r s p : releasable rs owner r s -> p ∈ dom owner -> refs s p (page_list r) = 0.
Proof.
  intros [Hf _] Hp. unfold refs. destruct (filter _ _) as [|a l] eqn:E; [done|].
  assert (a ∈ a :: l) as Ha by left. rewrite <- E in Ha. apply list_elem_of_filter in Ha as [Hfa Ha].
  destruct (Hf a Ha) as (q & Hq & Hown); [|by simplify_eq].
  unfold frame_of in Hfa. by destruct (pte s a).
Qed.

Section release.
Context (rs : list PhysRegion) (bs : list Z) (owner : gmap Z (nat * Z)).
Context (r : PageRange) (Hr : user_range r) (s0 : machine) (Hrel : releasable rs owner r s0).
Context (Hmapped : forall a, a ∈ page_list r -> is_Some (pte s0 a)).

Definition releasing (rest : list Z) (s : machine) : Prop :=
  exists l, so_far r s0 (fun _ => None) l rest s /\ (exists fl, vm_inv rs bs fl owner s) /\
    forall p, known rs p -> rc_of s p = rc_of s0 p - refs s0 p l.

Lemma raw_phys_aligned e q : raw_phys e = Some q -> page_aligned q.
Proof using Type. unfold raw_phys. destruct (negb _); [|done]. intros [= <-]. apply page_base_aligned. Qed.

Lemma releasing_held a rest fl s e q : releasing (a :: rest) s -> vm_inv rs bs fl owner s ->
  pte s a = Some e -> raw_phys e = Some q -> held rs bs fl owner s q.
Proof using All.
  intros (l & Hsf & _ & Hrc) Hvm He Hq. destruct (so_far_page r Hr s0 _ _ _ _ _ Hsf) as (Ha & _ & Heq).
  assert (frame_of s0 a = Some q) as Hf by (unfold frame_of; by rewrite <- Heq, He).
  destruct (rl_frame _ _ _ _ Hrel a Ha (Hmapped a Ha)) as (q' & Hf' & Hown). assert (q' = q) as -> by congruence.
  split; [by eapply raw_phys_aligned|done|]. intros Hk.
  assert (refs s0 q (page_list r) = refs s0 q l + (1 + refs s0 q rest)) as Hn.
  { rewrite (sf_split _ _ _ _ _ _ Hsf), refs_app. change (a :: rest) with ([a] ++ rest). rewrite refs_app, refs_one, decide_True by done. lia. }
  pose proof (refs_nonneg s0 q l). pose proof (refs_nonneg s0 q rest).
  destruct (rl_refs _ _ _ _ Hrel q Hk) as [Hlo Hhi]; [lia|]. rewrite (Hrc q Hk).
  split; [|lia]. intros Hal. pose proof (pi_rc _ _ _ _ (vm_phys _ _ _ _ _ Hvm) q Hal) as Hz. rewrite (Hrc q Hk) in Hz. lia.
Qed.

Lemma release_page_body a rest s : releasing (a :: rest) s ->
  wp (r ← unmap a; expect_ok r "release_page: NotMapped error should never happen") (fun _ => releasing rest) s.
Proof using All.
  intros Hre. pose proof Hre as (l & Hsf & (fl & Hvm) & Hrc). destruct (so_far_page r Hr s0 _ _ _ _ _ Hsf) as (Ha & Hout & Heq).
  destruct (rl_frame _ _ _ _ Hrel a Ha (Hmapped a Ha)) as (q & Hf & _).
  wp_step. wp_call (unmap_ok rs bs fl owner); [|done|done|intros e q' He Hq'; by eapply releasing_held].
  intros res s1 ((fl' & Hvm1) & Henv & Hpost). rewrite Heq in Hpost. unfold frame_of in Hf. rewrite Hf in Hpost.
  destruct Hpost as (-> & Hup & Hrc1). cbn [expect_ok]. wp_step. exists (l ++ [a]). split; [by eapply so_far_step|]. split; [by exists fl'|].
  intros p Hk. rewrite Hrc1, Hrc, refs_app, refs_one by done. unfold frame_of. rewrite Hf.
  destruct (decide (p = q)) as [->|Hne]; [rewrite decide_True by done|rewrite decide_False by congruence]; lia.
Qed.
End release.

(** What [release_page] guarantees. *)
Definition released (rs : list PhysRegion) (bs : list Z) (owner : gmap Z (nat * Z)) (r : PageRange) (s s' : machine) : Prop :=
  user_range r /\ same_env s s' /\ (exists fl, vm_inv rs bs fl owner s') /\
  (forall va, off_range r va -> pte s' va = pte s va) /\
  (forall a, a ∈ page_list r -> is_Some (pte s a) /\ pte s' a = None) /\
  (forall p, known rs p -> rc_of s' p = rc_of s p - refs s p (page_list r)).

Section calls.
Context `{!Bitflags, !BitflagsLaws _}.

Definition all_mapped (r : PageRange) (s : machine) : Prop := forall a, a ∈ page_list r -> is_Some (pte s a).

Lemma mapped_all s (r : PageRange) : forallb (mapped_with s 0) (page_list r) = true <-> all_mapped r s.
Proof using Type.
  rewrite forallb_forall. unfold all_mapped. setoid_rewrite list_elem_of_In. unfold mapped_with.
  split; intros Hall a Ha; specialize (Hall a Ha); [by destruct (pte s a)|]. destruct Hall as [e ->]. by rewrite Z.land_0_r.
Qed.

Lemma off_if r b s s' : (forall va, off_range r va -> pte s' va = pte s va) -> forall va, off_range r va -> pte (set_if b s') va = pte s va.
Proof using Type. done. Qed.

(** The part both calls share: the range is one of user space and all of it is mapped, or
    nothing has changed. *)
Lemma wp_checked rs bs fl owner s va count (body : PageRange -> M machine (result Z SysError)) (Q : result Z SysError -> machine -> Prop) :
  vm_inv rs bs fl owner s -> entries_valid s -> in_u64 va -> in_u64 count -> ~ range_overflows va count ->
  (u64_limit <= count * 4096 -> Q (Err MemoryExhausted) s) ->
  (count * 4096 < u64_limit -> ~ (user_range (PageRange_ va count) /\ all_mapped (PageRange_ va count) s) -> Q (Err BadPointer) s) ->
  (forall r, r = PageRange_ va count -> user_range r -> all_mapped r s ->
     wp (body r) (fun a s' => same_env (set_if false s) s' /\ Q a (set_if (m_if s) s')) (set_if false s)) ->
  wp (section (page_range ←? new_range va count; _ ←? validate_map page_range 0; body page_range)) Q s.
Proof using All.
  intros Hvm Hval Hva Hc Hno Hme Hbp Hbody. apply wp_section_env.
  assert (set_if (m_if s) (set_if false s) = s) as Hback by (by destruct s).
  assert (vm_inv rs bs fl owner (set_if false s)) as Hvm1 by (by apply vm_inv_if).
  apply wp_range; [done..| | |]; rewrite ?Hback.
  { intros Hl. split; [done|by apply Hme]. }
  { intros Hl Hn. split; [done|]. apply Hbp; [done|]. by intros [? _]. }
  intros Hr. assert (count * 4096 < u64_limit) as Hl.
  { destruct Hr as (_ & Hb & _ & Hmax), Hva. cbn in Hb, Hmax. unfold MAX_USER_ADDR in Hmax. u64. lia. }
  wp_step. eapply wp_run; [apply (validate_map_run owner (set_if false s)); [apply Hvm1|exact Hval|exact Hr]|].
  destruct (forallb _ _) eqn:Hall; [apply Hbody; [done|done|by apply (mapped_all (set_if false s))]|].
  rewrite Hback. split; [done|]. apply Hbp; [done|]. intros [_ Hm%mapped_all]. change (mapped_with (set_if false s) 0) with (mapped_with s 0) in Hall. congruence.
Qed.

(** The outcome of [release_page]: not a range of user space that is all mapped, and
    nothing has changed; or all of it is released. *)
Definition release_page_post rs bs owner va count (s : machine) (res : result Z SysError) (s' : machine) : Prop :=
  let r := PageRange_ va count in
  match res with
  | Ok v => v = OK /\ released rs bs owner r s s'
  | Err MemoryExhausted => u64_limit <= count * 4096 /\ s' = s
  | Err BadPointer => count * 4096 < u64_limit /\ ~ (user_range r /\ all_mapped r s) /\ s' = s
  | Err _ => False
  end.

Lemma release_page_ok rs bs fl owner s va count :
  vm_inv rs bs fl owner s -> entries_valid s -> in_u64 va -> in_u64 count -> ~ range_overflows va count ->
  (user_range (PageRange_ va count) -> releasable rs owner (PageRange_ va count) s) ->
  wp (release_page va count) (release_page_post rs bs owner va count s) s.
Proof using All.
  intros Hvm Hval Hva Hc Hno Hrel. apply (wp_checked rs bs fl owner); [done..|]. intros r Er Hr Hmapped. subst r.
  specialize (Hrel Hr). set (r := PageRange_ va count) in *.
  set (s1 := set_if false s). wp_step.
  eapply wp_mono; [|apply (wp_pages_all r Hr _ (releasing rs bs owner r s1))].
  - intros [] s2 (l & Hsf & (fl' & Hvm2) & Hrc). pose proof (sf_split _ _ _ _ _ _ Hsf) as Hl. rewrite app_nil_r in Hl. subst l.
    wp_step. split; [apply Hsf|]. split; [done|]. split; [exact Hr|].
    split; [by destruct (sf_env _ _ _ _ _ _ Hsf) as (? & _ & ?)|]. split; [exists fl'; by apply vm_inv_if|].
    split; [apply (sf_off _ _ _ _ _ _ Hsf)|]. split; [|exact Hrc].
    intros a Ha. split; [by apply Hmapped|]. apply (sf_done _ _ _ _ _ _ Hsf a Ha).
  - exists []. split; [apply so_far_start|]. split; [exists fl; by apply vm_inv_if|]. intros p _. change (refs s1 p []) with 0. lia.
  - intros a rest s2 H2. apply (release_page_body rs bs owner r Hr s1); [|exact Hmapped|exact H2].
    destruct Hrel as [Hfr Hrefs]. split; [exact Hfr|exact Hrefs].
Qed.

(** C7: the system call [release_page], for any two 64-bit arguments, in a machine where a
    frame of the range is counted at least as often as the range maps it.  When the end of
    the range overflows 64 bits, a debug build panics with the overflow (a release build
    accepts the range, C40).  Otherwise it returns: [MemoryExhausted] when the number of
    bytes overflows, [BadPointer] when the range is not one of user space or a page of it is
    not mapped, and then nothing has changed; or every page of it is no longer mapped, each
    frame has lost exactly the references its pages held, the frame and table invariants
    hold, and no mapping outside of the range has changed. *)
Theorem release_page_spec rs bs fl owner s va count :
  vm_inv rs bs fl owner s -> entries_valid s -> in_u64 va -> in_u64 count ->
  (user_range (PageRange_ va count) -> releasable rs owner (PageRange_ va count) s) ->
  (range_overflows va count -> build s = Debug -> release_page va count s = Panic OVERFLOW) /\
  (~ range_overflows va count -> wp (release_page va count) (release_page_post rs bs owner va count s) s).
Proof using All. intros. split; intros; [by apply range_panics|by eapply release_page_ok]. Qed.

(** ** modify_page *)

Definition modifying (bs : list Z) rs owner (r : PageRange) (f : Z) (s0 : machine) (rest : list Z) (s : machine) : Prop :=
  exists l fl, so_far r s0 (fun a => pte s0 a ≫= fun e => nonzero (set_flags e f)) l rest s /\ vm_inv rs bs fl owner s.

Lemma set_flags_nonzero e fl : nonzero (set_flags e (page_flags fl)) = Some (set_flags e (page_flags fl)).
Proof using All. unfold set_flags. apply present_entry. Qed.

(** C29: the system call [modify_page], for any three 64-bit arguments.  When the end of
    the range overflows 64 bits, a debug build panics with the overflow (a release build
    accepts the range, C40).  Otherwise it returns: an argument is wrong, with the error for
    it, and nothing has changed; or every page of the range still has its frame and now has
    the low bits PRESENT, USER and, exactly if the caller asked for it, WRITE; the frame and
    table invariants hold, and no mapping outside of the range has changed. *)
Theorem modify_page_spec rs bs fl owner s va count flg :
  vm_inv rs bs fl owner s -> entries_valid s -> in_u64 va -> in_u64 count ->
  (range_overflows va count -> build s = Debug -> syscall_modify_page va count flg s = Panic OVERFLOW) /\
  (~ range_overflows va count -> wp (syscall_modify_page va count flg) (fun res s' =>
    let r := PageRange_ va count in
    match res with
    | Ok v =>
        v = OK /\ user_range r /\ Z.land flg (Z.lnot UserPageFlags_all) = 0 /\
        same_env s s' /\ (exists fl', vm_inv rs bs fl' owner s') /\
        (forall va', off_range r va' -> pte s' va' = pte s va') /\
        (forall a, a ∈ page_list r -> exists e e', pte s a = Some e /\ pte s' a = Some e' /\
           raw_phys e' = raw_phys e /\ Z.land e' 0xfff = if Z.testbit flg 1 then 0x7 else 0x5)
    | Err MemoryExhausted => u64_limit <= count * 4096 /\ s' = s
    | Err BadPointer => count * 4096 < u64_limit /\ ~ (user_range r /\ all_mapped r s) /\ s' = s
    | Err IllegalValue => user_range r /\ all_mapped r s /\ Z.land flg (Z.lnot UserPageFlags_all) <> 0 /\ s' = s
    | Err _ => False
    end) s).
Proof using All.
  intros Hvm Hval Hva Hc. split; [intros; by apply range_panics|]. intros Hno. apply (wp_checked rs bs fl owner); [done..|].
  intros r Er Hr Hmapped. subst r. set (r := PageRange_ va count) in *. set (s1 := set_if false s).
  unfold or_err. destruct (decide (Z.land flg (Z.lnot UserPageFlags_all) = 0)) as [Hfl|Hfl];
    [rewrite from_bits_some by done|rewrite from_bits_none by done; wp_step; split; [done|by destruct s]].
  wp_step. eapply wp_mono; [|apply (wp_pages_all r Hr _ (modifying bs rs owner r (page_flags flg) s1))].
  - intros [] s2 (l & fl' & Hsf & Hvm2). pose proof (sf_split _ _ _ _ _ _ Hsf) as Hl. rewrite app_nil_r in Hl. subst l.
    wp_step. split; [apply Hsf|]. split; [done|]. split; [exact Hr|]. split; [done|].
    split; [by destruct (sf_env _ _ _ _ _ _ Hsf) as (? & _ & ?)|]. split; [exists fl'; by apply vm_inv_if|].
    split; [apply (sf_off _ _ _ _ _ _ Hsf)|]. intros a Ha. destruct (Hmapped a Ha) as [e He].
    exists e, (set_flags e (page_flags flg)). split; [exact He|]. split.
    { rewrite (sf_done _ _ _ _ _ _ Hsf a Ha : pte (set_if (m_if s) s2) a = _). change (pte s1 a) with (pte s a). rewrite He. apply set_flags_nonzero. }
    change (if Z.testbit flg 1 then 7 else 5) with (entry_bits flg). rewrite <- page_flags_bits. apply set_flags_keeps, page_flags_low.
  - exists [], fl. split; [apply so_far_start|by apply vm_inv_if].
  - intros a rest s2 (l & fl' & Hsf & Hvm2). destruct (so_far_page r Hr s1 _ _ _ _ _ Hsf) as (Ha & Hout & Heq).
    destruct (Hmapped a Ha) as [e He]. change (pte s a) with (pte s1 a) in He.
    wp_step. wp_call (modify_spec rs bs fl' owner); [|done|done|apply page_flags_low].
    intros res s3 (Hvm3 & Henv & Hpost). rewrite Heq, He in Hpost. destruct Hpost as (-> & Hup & _). cbn [expect_ok]. wp_step.
    exists (l ++ [a]), fl'. split; [|done]. eapply so_far_step; [done|done|done|]. cbv beta. by rewrite He.
Qed.
End calls.

(** ** Witnesses *)

Lemma example_releasable : releasable example_regions example_owner (PageRange_ 0 1) example_vm.
Proof.
  assert (forall a, a ∈ page_list (PageRange_ 0 1) -> a = 0) as H0.
  { intros a Ha. by apply list_elem_of_singleton in Ha. }
  split.
  - intros a ->%H0 _. exists 0x5000. split; [by vm_compute|]. by vm_compute.
  - intros p Hk Hn. exfalso. assert (refs example_vm p [0] = if decide (Some 0x5000 = Some p) then 1 else 0) as Hp by apply refs_one.
    change (page_list (PageRange_ 0 1)) with [0] in Hn. rewrite Hp in Hn. case_decide as Hd; [|lia]. injection Hd as <-.
    revert Hk. apply example_not_known. lia.
Qed.

Lemma small_range base count : 0 <= base -> 0 <= count -> base + count * 4096 < u64_limit -> ~ range_overflows base count.
Proof. intros Hb Hc Hl (_ & _ & _ & H). lia. Qed.

Lemma release_page_spec_witness : exists s',
  release_page (Bf := bitflags_crate) 0 1 example_vm = Ret (Ok OK, s') /\ pte s' 0 = None.
Proof.
  pose proof (release_page_spec (H := bitflags_crate) (BitflagsLaws0 := bitflags_crate_laws)
    example_regions [0x100000] [] example_owner example_vm 0 1 example_vm_inv example_entries_valid
    ltac:(u64; lia) ltac:(u64; lia) (fun _ => example_releasable)) as [_ H].
  specialize (H (small_range 0 1 ltac:(lia) ltac:(lia) ltac:(u64; lia))).
  apply wp_iff in H as (res & s' & Hrun & Hres). exists s'. destruct res as [v|e].
  - destruct Hres as (-> & _ & _ & _ & _ & Hp & _). split; [exact Hrun|]. apply (Hp 0). left.
  - exfalso. assert (match release_page (Bf := bitflags_crate) 0 1 example_vm with Ret (Ok _, _) => True | _ => False end) as Hok
      by (by vm_compute). by rewrite Hrun in Hok.
Defined.

Lemma modify_page_spec_witness : exists s' e,
  syscall_modify_page (Bf := bitflags_crate) 0 1 0 example_vm = Ret (Ok OK, s') /\ pte s' 0 = Some e /\ Z.land e 0xfff = 5.
Proof.
  pose proof (modify_page_spec (H := bitflags_crate) (BitflagsLaws0 := bitflags_crate_laws)
    example_regions [0x100000] [] example_owner example_vm 0 1 0 example_vm_inv example_entries_valid
    ltac:(u64; lia) ltac:(u64; lia)) as [_ H].
  specialize (H (small_range 0 1 ltac:(lia) ltac:(lia) ltac:(u64; lia))).
  apply wp_iff in H as (res & s' & Hrun & Hres). destruct res as [v|e].
  - destruct Hres as (-> & _ & _ & _ & _ & _ & Hp). destruct (Hp 0) as (e & e' & _ & He & _ & Hfl); [left|].
    exists s', e'. split; [exact Hrun|]. split; [exact He|]. by rewrite Hfl.
  - exfalso. assert (match syscall_modify_page (Bf := bitflags_crate) 0 1 0 example_vm with Ret (Ok _, _) => True | _ => False end) as Hok
      by (by vm_compute). by rewrite Hrun in Hok.
Defined.

(** ** No frame for a page table

    [map_physical_memory] expects that mapping cannot fail once the range has been
    found free: but the tables for it may be missing, and there may be no frame for
    them.  The kernel then panics. *)
Definition exhausted_vm : machine :=
  Machine Debug true example_tables 0x1000 0 (EI SAFE (Some example_regions))
    (EI SAFE (Some (Mutex_new [0x103000]))) true ∅ (Mutex_new None).

Example physical_mapping_panics :
  map_physical_memory (Bf := bitflags_crate) 0x40000000 0xb8000 1 2 exhausted_vm = Panic "page::map in map_physical_memory".
Proof. by vm_compute. Qed.
(** With a frame left it succeeds. *)
Example physical_mapping_works :
  match map_physical_memory (Bf := bitflags_crate) 0x1000 0xb8000 1 2 exhausted_vm with
  | Ret (Ok _, s') => pte s' 0x1000
  | _ => None
  end = Some 0xb8007.
Proof. by vm_compute. Qed.
