(* ===== verification/Kernel.v ===== *)
(** * Kernel: the whole kernel ([kernel/src/main.rs], [kernel/src/interrupt.rs])

    The devices join the system's state; the files of [Vfs] run on it as the files
    of the system calls, and the future of the first task boots from the disk.  The
    [interrupt] function is the entry point of everything after the boot.  Every
    component sees the one interrupt flag of the processor. *)

From S2P Require Import Prelude Interface Sync Machine Phys Page Arc Interrupt System Object Task Syscall.
From S2P Require Import Utf8 Block Stream Device.
From S2P Require Console Ide Mbr Fat Vfs.

(** ** State *)

Record devices {D : ArrayDeque} := Devices {
  d_keyboard : Mutex (option deque);
  d_console : Mutex Console.Console;
  d_e9 : list Z;
  d_disk_a : bool;
  d_disk_b : bool;
  d_disk_io : Mutex unit;
  d_disk_hist : list Ide.event;
  d_ports : list (Z * Z)              (* timer and interrupt controllers, written *)
}.
Arguments devices : clear implicits.

Abbreviation Drive := Ide.Drive.
Abbreviation Part := (Mbr.Partition Drive).
Abbreviation FsValue := (Fat.Filesystem Part).
Abbreviation KFile := (Vfs.VfsFile Part TaskId).

(** The futures of tasks: the one [main] spawns, before its first poll, and the run
    loops of tasks in user space. *)
Inductive TaskFut :=
| InitFut (id : TaskId)
| UserFut (l : RunLoop SyscallFut).

Section kernel.
Context {D : ArrayDeque} {Bf : Bitflags}.
#[local] Abbreviation K := (sys KFile TaskFut FsValue (devices D)).
Context {C : Streams K}.
Context (disk : list Ide.event -> Z -> Z).      (* what the disk answers *)
Context (fuel : nat).                           (* for loops without a bound of their own *)

Definition set_devs (d : devices D) (s : K) : K :=
  Sys (smach s) (sanswers s) (objs s) (fss s) (futs s) (TASK_HANDLES s) (TASKS s) (TASK_STATES s)
    (TASK_FUTURES s) (CURRENT_TASK s) (NEXT_TASK_ID s) d.

(** Each device with the processor's interrupt flag. *)
Definition keyboard_l : lens K keyboard :=
  Lens (fun s => Keyboard (m_if (smach s)) (d_keyboard (devs s)))
    (fun k s => let d := devs s in
      set cpu_if (kbd_if k) (set_devs (Devices D (BUFF k) (d_console d) (d_e9 d) (d_disk_a d) (d_disk_b d)
        (d_disk_io d) (d_disk_hist d) (d_ports d)) s)).
Definition console_l : lens K Console.consoles :=
  Lens (fun s => Console.Consoles (m_if (smach s)) (d_console (devs s)) (d_e9 (devs s)) (build (smach s)))
    (fun c s => let d := devs s in
      set cpu_if (Console.con_if c) (set_devs (Devices D (d_keyboard d) (Console.CONSOLE c) (Console.e9 c) (d_disk_a d)
        (d_disk_b d) (d_disk_io d) (d_disk_hist d) (d_ports d)) s)).
Definition ide_l : lens K Ide.channel :=
  Lens (fun s => let d := devs s in
         Ide.Channel (m_if (smach s)) (d_disk_a d) (d_disk_b d) (d_disk_io d) (d_disk_hist d))
    (fun c s => let d := devs s in
      set cpu_if (Ide.ide_if c) (set_devs (Devices D (d_keyboard d) (d_console d) (d_e9 d) (Ide.chan_a c) (Ide.chan_b c)
        (Ide.io c) (Ide.hist c) (d_ports d)) s)).
Definition pit_l : lens K pit :=
  Lens (fun s => Pit (m_if (smach s)) (d_ports (devs s)))
    (fun c s => let d := devs s in
      set cpu_if (pit_if c) (set_devs (Devices D (d_keyboard d) (d_console d) (d_e9 d) (d_disk_a d) (d_disk_b d)
        (d_disk_io d) (d_disk_hist d) (pit_out c)) s)).

Definition port_write (port v : Z) : M K unit := zoom pit_l (pit_write port v).

(** The build of the kernel, for the components that take it as an argument. *)
Definition with_build {A} (m : profile -> M K A) : M K A := fun s => m (build (smach s)) s.

(** ** Files on the devices *)

#[local] Instance kernel_disk : BlockDevice K Drive :=
  {| dev_read d l n := zoom ide_l (Ide.read_sectors disk fuel d l n) |}.
#[local] Instance kernel_partition : BlockDevice K Part :=
  {| dev_read part l n := with_build (fun p => Mbr.part_read p part l n) |}.
#[local] Instance kernel_terminal : Vfs.Terminal K := {|
  Vfs.term_write buf :=
    r ← zoom console_l (Console.console_write fuel buf);
    match r with Some n => mret (Ok n) | None => ub "the console write does not end" end;
  Vfs.term_poll := zoom keyboard_l read_scancode_poll
|}.

(** The files of the system calls, for the task that polls. *)
Definition kernel_files (waker : TaskId) : FileOps KFile FsValue K := {|
  file_read f len := with_build (fun p => Vfs.vfs_read answer p waker task_waker_wake f len);
  file_write f buf := Vfs.vfs_write f buf;
  fs_open fs path := with_build (fun p =>
    r ← Vfs.vfs_open answer p fuel fs path;
    mret (map_err Vfs.SysError_from_OpenError r))
|}.

(** Dropping files, file systems and futures leaves no trace in the state: what they
    own are [Arc]s that are their values here. *)
Definition drop_kfile (f : KFile) : M K unit := mret tt.
Definition drop_fs_value (fs : FsValue) : M K unit := mret tt.
Definition drop_fut (f : TaskFut) : M K unit := mret tt.

(** The closure [create_task] gives to [spawn]. *)
Definition user_task (frame : TrapFrame) (id : TaskId) : TaskFut := UserFut (Begin (setup id frame)).

Definition kernel_dispatch_poll (waker : TaskId) (d : SyscallFut) : M K (Poll TrapFrame SyscallFut) :=
  dispatch_poll (FO := kernel_files waker) drop_kfile drop_fs_value drop_fut user_task waker d.

(** ** The first task *)

Definition INIT_ADDR : Z := 0x10000000.
Definition INIT_NAME : list Z := [105; 110; 105; 116; 46; 98; 105; 110].     (* init.bin *)

(** "read init into userspace" *)
Fixpoint load_init (turns : nat) (waker : TaskId) (init : Fat.File Part TaskId) (addr : Z) : M K unit :=
  match turns with
  | O => ub "init.bin takes more pages"
  | Datatypes.S turns =>
      phys ← mem_call alloc;
      phys ← expect_ok phys "phys::alloc";
      r ← mem_call (map phys addr (Z.lor (Z.lor PRESENT WRITE) USER));
      _ ← expect_ok r "page::map";
      rd ← with_build (fun p => Fat.File_read answer p waker task_waker_wake init PAGE_SIZE);
      _ ← mem_call (store_bytes addr rd.1.2);
      read ← expect_ok rd.2 "init.read";
      if read <? PAGE_SIZE then mret tt
      else load_init turns waker rd.1.1 (addr + read)
  end.

(** The body of the closure in [main], up to [run_loop]. *)
Definition init_body (waker id : TaskId) : M K TaskRun :=
  ide ← zoom ide_l (Ide.open Ide.A);
  ide ← expect_ok ide "ide::open";
  _ ← zoom ide_l (Ide.detect disk fuel ide);
  mbr ← Mbr.Mbr_open answer (fun d => zoom ide_l (Ide.drop_drive d)) ide;
  mbr ← expect_ok mbr "Mbr::open";
  partitions ← Mbr.partitions mbr;
  partitions ← expect_ok partitions "mbr.partitions";
  first ← expect (default None (head partitions)) "partitions[0]";
  fat ← Fat.Fat16_open answer first;
  fat ← expect_ok fat "Fat16::open";
  entry ← with_build (fun p => Fat.entry answer p fuel (Fat.root fat) INIT_NAME);
  entry ← expect_ok entry "entry";
  match entry with
  | None => panic "/init.bin does not exist"
  | Some entry =>
      match Fat.open entry with
      | Fat.OpenDir _ => panic "/init.bin is directory"
      | Fat.OpenFile init =>
          fs ← Arc_new fss_lens answer drop_fs_value fat;
          fs ← expect_ok fs "Arc::new";
          _ ← set_filesystem drop_fs_value (Some fs);
          let task := setup id (TrapFrame_new INIT_ADDR 0) in
          _ ← load_init fuel waker init INIT_ADDR;
          console ← Object_new drop_kfile (File_ Vfs.Console);
          console ← expect_ok console "ObjectRef::new";
          cur ← current;
          h ← put drop_kfile cur console;
          _ ← expect_ok h "object::put";
          mret task
      end
  end.

(** A poll of a task's future; [None] would be the end of the task. *)
Definition poll_task (waker : TaskId) (f : TaskFut) : M K (option TaskFut) :=
  l ← match f with
      | InitFut id => task ← init_body waker id; mret (Begin task)
      | UserFut l => mret l
      end;
  r ← run_loop_poll dispatch kernel_dispatch_poll fuel waker l;
  match r with
  | Some l => mret (Some (UserFut l))
  | None => ub "a poll that does not end"
  end.

Definition kernel_switch (frame : TrapFrame) : M K (option TrapFrame) :=
  switch drop_kfile drop_fut poll_task fuel frame.

(** ** main *)

Definition main : M K (option TrapFrame) :=
  crit ← begin;
  _ ← mem_call init_ref_counts;
  _ ← mem_call init_kernel_pml4_entries;
  _ ← object_init;
  _ ← zoom pit_l pit_init;
  _ ← zoom keyboard_l keyboard_init;
  _ ← drop_critical crit;
  _ ← task_init;
  ctx ← mem_call current_ctx;
  page_ctx ← Object_new drop_kfile (PageCtx_ ctx);
  page_ctx ← expect_ok page_ctx "ObjectRef::new";
  r ← spawn drop_kfile drop_fs_value drop_fut page_ctx None InitFut;
  _ ← expect_ok r "task::spawn init";
  task_start drop_kfile drop_fut poll_task fuel.

(** ** Interrupts *)

(** [mem::fault::Flags] *)
Definition FaultFlags_all : Z := 0x007.
Definition fault : M K (option TrapFrame) := panic "Page fault!".

(** The task switch of the timer: only from user mode. *)
Definition timer (frame : TrapFrame) : M K (option TrapFrame) :=
  o ← lift (origin frame);
  match o with
  | User => kernel_switch frame
  | Kernel => mret (Some frame)
  end.

(** [scancode]: what the keyboard's port reads.  The result is the frame to return
    to. *)
Definition interrupt (scancode : Z) (frame : TrapFrame) : M K (option TrapFrame) :=
  _ ← sti;
  match interrupt_of frame with
  | Irq irq =>
      next ← (if irq =? 0 then timer frame else mret (Some frame));
      _ ← (if irq =? 1 then zoom keyboard_l (keyboard_interrupt scancode) else mret tt);
      _ ← port_write 0x20 0x20;
      _ ← (if 0x08 <=? irq then port_write 0xa0 0x20 else mret tt);
      mret next
  | PageFault =>
      _ ← expect (from_bits FaultFlags_all (error_code frame)) "mem::fault::Flags::from_bits";
      fault
  | Syscall_ =>
      o ← lift (origin frame);
      match o with
      | User => dispatch_syscall drop_kfile drop_fut poll_task fuel frame
      | Kernel => panic "syscall arrived from kernel mode!"
      end
  | Other _ => panic "unexpected interrupt"
  | _ => panic "CPU exception"
  end.
End kernel.
