(* ===== verification/Crabapi.v ===== *)
(** * Crabapi: the user library and the first program ([userland/crabapi], [userland/init])

    The stubs put their arguments in registers and trap; the kernel is a parameter:
    what the trap leaves in [rax].  A user buffer is its address and length.  Loops
    have [fuel]; running out of it is undefined behaviour. *)

From S2P Require Import Prelude Interface.

Section crabapi.
Context {S : Type}.
(** [int 0x7f]: [rax], then the registers the stub loads among [rdi], [rsi], [rdx]
    and [rcx]; the result is [rax] *)
Context (int7f : Z -> list Z -> M S Z).

(** ** syscall.rs *)

Definition syscall0 (v : Syscall) : M S Z := int7f (Syscall_code v) [].
Definition syscall1 (v : Syscall) (a : Z) : M S Z := int7f (Syscall_code v) [a].
Definition syscall2 (v : Syscall) (a b : Z) : M S Z := int7f (Syscall_code v) [a; b].
Definition syscall3 (v : Syscall) (a b c : Z) : M S Z := int7f (Syscall_code v) [a; b; c].
Definition syscall4 (v : Syscall) (a b c d : Z) : M S Z := int7f (Syscall_code v) [a; b; c; d].

Definition alloc_page (base_addr page_count flags : Z) : M S Z := syscall3 AllocPage base_addr page_count flags.
Definition release_page (base_addr page_count : Z) : M S Z := syscall2 ReleasePage base_addr page_count.
Definition modify_page (base_addr page_count flags : Z) : M S Z := syscall3 ModifyPage base_addr page_count flags.
Definition map_physical_memory (base_addr physical_addr page_count flags : Z) : M S Z :=
  syscall4 MapPhysicalMemory base_addr physical_addr page_count flags.
Definition clone_handle (handle : Z) : M S Z := syscall1 CloneHandle handle.
Definition release_handle (handle : Z) : M S Z := syscall1 ReleaseHandle handle.
Definition create_page_context : M S Z := syscall0 CreatePageContext.
Definition debug : M S Z := syscall0 Debug_.
Definition set_page_context (page_ctx : Z) : M S Z := syscall1 SetPageContext page_ctx.
Definition get_page_context : M S Z := syscall0 GetPageContext.
Definition create_task (page_ctx rip rsp : Z) : M S Z := syscall3 CreateTask page_ctx rip rsp.
Definition exit_ (status : Z) : M S Z := syscall1 Exit status.
Definition read_stream (file buff buff_len : Z) : M S Z := syscall3 ReadStream file buff buff_len.
Definition write_stream (file buff buff_len : Z) : M S Z := syscall3 WriteStream file buff buff_len.
Definition open_file (path path_len flags : Z) : M S Z := syscall3 OpenFile path path_len flags.

(** [result.into()] *)
Definition into (m : M S Z) : M S (result Z SysError) := raw ← m; lift (SyscallResult_into raw).

(** ** lib.rs, fs.rs, io.rs, task.rs *)

Definition Handle_clone (h : Z) : M S Z := r ← into (clone_handle h); expect_ok r "syscall::clone_handle".
Definition Handle_drop (h : Z) : M S unit := _ ← release_handle h; mret tt.

Definition CONSOLE_HANDLE : Z := 1.
(** A [Console] is its handle, which is never dropped. *)
Definition console : Z := CONSOLE_HANDLE.

(** [File::open]; a [File] is its handle. *)
Definition File_open (path path_len : Z) : M S (result Z SysError) := into (open_file path path_len 0).

(** [Read::read] and [Write::write] of [Console] and [File]. *)
Definition read (handle buf len : Z) : M S (result Z SysError) := into (read_stream handle buf len).
Definition write (handle buf len : Z) : M S (result Z SysError) := into (write_stream handle buf len).
Definition flush (handle : Z) : M S (result unit SysError) := mret (Ok tt).

Definition task_exit (status : Z) : M S unit := _ ← exit_ status; panic "internal error: entered unreachable code".

Section write_all.
Context (write : Z -> Z -> M S (result Z SysError)).

(** [Write::write_all] *)
Fixpoint write_all (fuel : nat) (buf len : Z) : M S (result unit SysError) :=
  if len <=? 0 then mret (Ok tt)
  else
    match fuel with
    | O => ub "still writing"
    | Datatypes.S fuel =>
        written ←? write buf len;
        if len <? written then panic "range start index out of range"
        else write_all fuel (buf + written) (len - written)
    end.

(** The buffer was handed over piece by piece, from left to right. *)
Inductive written : Z -> Z -> S -> S -> Prop :=
| written_all buf s : written buf 0 s s
| written_part buf len n s s1 s' :
    write buf len s = Ret (Ok n, s1) -> 0 < n <= len -> written (buf + n) (len - n) s1 s' -> written buf len s s'.

(** [write_all] against a kernel that always takes at least one byte ends after
    at most as many calls as there are bytes, having handed over the whole buffer
    in adjacent pieces from left to right; against one that answers with zero bytes
    it never ends. *)
Theorem write_all_progress (ready : S -> Prop) buf len s :
  0 < len -> ready s ->
  ((forall b l s, ready s -> 0 < l -> exists n s1, write b l s = Ret (Ok n, s1) /\ 0 < n <= l /\ ready s1) ->
   exists s', write_all (Z.to_nat len) buf len s = Ret (Ok tt, s') /\ written buf len s s' /\ ready s') /\
  ((forall s, ready s -> exists s1, write buf len s = Ret (Ok 0, s1) /\ ready s1) ->
   forall fuel, write_all fuel buf len s = UB "still writing").
Proof using Type.
  intros Hlen Hr. split.
  - intros Hw. assert (forall k buf len s, 0 <= len <= Z.of_nat k -> ready s ->
      exists s', write_all k buf len s = Ret (Ok tt, s') /\ written buf len s s' /\ ready s') as H.
    { clear - Hw. intros k. induction k as [|k IH]; intros buf len s Hk Hr.
      - exists s. replace len with 0 by lia. split; [done|]. split; [constructor|done].
      - cbn [write_all]. destruct (Z.leb_spec len 0).
        + exists s. replace len with 0 by lia. split; [done|]. split; [constructor|done].
        + destruct (Hw buf len s Hr) as (n & s1 & E & Hn & Hr1); [lia|].
          destruct (IH (buf + n) (len - n) s1) as (s' & E' & Hd & Hr'); [lia|done|].
          exists s'. split; [|split; [by eapply written_part|done]].
          rewrite (try_run _ _ _ _ _ E). by rewrite (proj2 (Z.ltb_ge _ _)) by lia. }
    apply H; [lia|done].
  - intros Hw fuel. revert s Hr. induction fuel as [|fuel IH]; intros s Hr; cbn [write_all];
      rewrite (proj2 (Z.leb_gt _ _)) by done; [done|].
    destruct (Hw s Hr) as (s1 & E & Hr1). rewrite (try_run _ _ _ _ _ E).
    rewrite (proj2 (Z.ltb_ge _ _)) by lia. replace (buf + 0) with buf by lia. replace (len - 0) with len by lia.
    by apply IH.
Qed.
End write_all.

(** ** panic.rs *)

(** The address and length of a byte string in the program. *)
Definition write_bytes (b : Z * Z) : M S unit := _ ← write_stream CONSOLE_HANDLE b.1 b.2; mret tt.

(** [message]: the text formatted into a buffer of 1024 bytes; [location]: the file
    and the line's digits; the constants are strings of the program. *)
Definition user_panic (str : string -> Z * Z) (message : option (Z * Z)) (location : option ((Z * Z) * (Z * Z))) : M S unit :=
  _ ← match message with
      | Some text =>
          _ ← write_bytes (str "panic: ");
          _ ← write_bytes text;
          write_bytes (str "newline")
      | None => write_bytes (str "panic")
      end;
  _ ← match location with
      | Some (file, line) =>
          _ ← write_bytes (str " at ");
          _ ← write_bytes file;
          _ ← write_bytes (str ":");
          _ ← write_bytes line;
          write_bytes (str "newline")
      | None => mret tt
      end;
  _ ← exit_ 0xffffffffffffffff;
  ub "loop {}".

(** ** init/src/main.rs

    [fuel] is for the two calls of [write_all]; the buffers are on the stack. *)
Definition main (fuel : nat) (str : string -> Z * Z) (buf1 buf2 : Z) : M S unit :=
  r ← read console buf1 32;
  _ ← expect_ok r "Console::read";
  w ← write_all (write console) fuel (str "Welcome").1 (str "Welcome").2;
  _ ← expect_ok w "Console::write_all";
  init ← File_open (str "/init.bin").1 (str "/init.bin").2;
  init ← expect_ok init "File::open";
  r ← read init buf2 128;
  _ ← expect_ok r "File::read";
  w ← write_all (write console) fuel buf2 128;
  _ ← expect_ok w "Console::write_all";
  task_exit 0.
End crabapi.

(** A kernel that takes at most two bytes at a time. *)
Lemma write_all_progress_witness :
  exists s', write_all (fun _ l => mret (Ok (Z.min 2 l))) 5 100 5 tt = Ret (Ok tt, s') /\
    written (fun _ l => mret (Ok (Z.min 2 l))) 100 5 tt s' /\ True.
Proof.
  apply (write_all_progress (fun _ l => mret (Ok (Z.min 2 l))) (fun _ => True) 100 5 tt); [lia|done|].
  intros b l s _ Hl. exists (Z.min 2 l), s. split; [done|]. split; [lia|done].
Defined.
