(* ===== verification/KernelSpec.v ===== *)
(** * KernelSpec: the components at work together

    The kernel's disk implements the interface the file system is proved against, so
    that the file system's theorems hold of the files the system calls use; and the
    entry point of interrupts. *)

From S2P Require Import Prelude Interface Sync Machine Phys Page Arc Interrupt System Object Task Syscall.
From S2P Require Import Utf8 Block Stream Device Kernel.
From S2P Require Console Ide Mbr Fat Vfs.

Section kernel_spec.
Context {D : ArrayDeque} {Bf : Bitflags} {BL : BitflagsLaws Bf}.
#[local] Abbreviation K := (sys KFile TaskFut FsValue (devices D)).
Context {C : Streams K}.
Context (disk : list Ide.event -> Z -> Z) (latency : nat) (contents : Z -> list Z) (size : Z).
Context (HD : Ide.AtaDisk disk latency contents size) (fuel : nat) (Hfuel : (latency < fuel)%nat).
Context (Hsize : size <= 0x00ffffff).

#[local] Existing Instance kernel_disk.
#[local] Existing Instance kernel_partition.

(** The disk's ports are free, and so is the map of task states that wakers use. *)
Definition ready (s : K) : Prop := locked (d_disk_io (devs s)) = false /\ free_map (TASK_STATES s).

(** All that reading and waking change: the history of the disk, the states of
    tasks, the answers of the allocator. *)
Record touched (s s' : K) : Prop := {
  to_mach : smach s' = smach s;
  to_objs : objs s' = objs s;
  to_fss : fss s' = fss s;
  to_futs : futs s' = futs s;
  to_handles : TASK_HANDLES s' = TASK_HANDLES s;
  to_tasks : TASKS s' = TASKS s;
  to_futures : TASK_FUTURES s' = TASK_FUTURES s;
  to_current : CURRENT_TASK s' = CURRENT_TASK s;
  to_next : NEXT_TASK_ID s' = NEXT_TASK_ID s;
  to_keyboard : d_keyboard (devs s') = d_keyboard (devs s);
  to_console : d_console (devs s') = d_console (devs s) /\ d_e9 (devs s') = d_e9 (devs s);
  to_ports : d_ports (devs s') = d_ports (devs s)
}.

#[local] Instance touched_preorder : PreOrder touched.
Proof using Type.
  split; [by split|]. intros s1 s2 s3 [] []. split; try congruence. intuition congruence.
Qed.

(** The state after the disk has been accessed. *)
Definition with_hist (h : list Ide.event) (s : K) : K := set (ide_l (D := D)) (Ide.set_hist h (view (ide_l (D := D)) s)) s.

Lemma with_hist_touched h s : touched s (with_hist h s).
Proof using Type. destruct s as [[] ? ? ? ? ? ? ? ? ? ? []]. by split. Qed.

(** The disk of the kernel is a working block device, *)
Lemma kernel_disk_works : BlockDeviceLaws (kernel_disk disk fuel) Ide.A contents size ready touched.
Proof using All.
  split.
  - intros l Hl. by apply (Ide.ata_sector _ _ _ _ HD).
  - intros l count s [Hr Hst] H0 Hpos Hc Hn. cbn. unfold zoom.
    destruct (Ide.read_sectors_ok Bf BL disk latency contents size HD fuel Hfuel l count (view (ide_l (D := D)) s))
      as [h E]; [exact Hr|lia..|].
    rewrite E. exists (with_hist h s). split; [done|]. split; [|apply with_hist_touched].
    destruct s as [[] ? ? ? ? ? ? ? ? ? ? []]. done.
  - exact touched_preorder.
  - exact Hsize.
Qed.

(** and so are the partitions that lie inside it. *)
Lemma kernel_partition_works (part : Part) :
  Mbr.drive part = Ide.A -> 0 <= Mbr.lba part -> 0 <= Mbr.sectors part -> Mbr.lba part + Mbr.sectors part <= size ->
  BlockDeviceLaws (kernel_partition disk fuel) part (fun l => contents (Mbr.lba part + l)) (Mbr.sectors part) ready touched.
Proof using All.
  intros Hd Hl Hs Hin. pose proof kernel_disk_works as KD. split.
  - intros l Hl'. apply (dev_sector (BlockDeviceLaws := KD)). lia.
  - intros l count s Hr H0 Hpos Hc Hn. cbn. unfold with_build.
    destruct (dev_reads (BlockDeviceLaws := Mbr.partition_ok (L := KD) (build (smach s)) Ide.A contents size ready touched
      part Hd Hl Hs Hin) l count s Hr H0 Hpos Hc Hn) as (s' & E & H).
    exists s'. split; [exact E|exact H].
  - exact touched_preorder.
  - lia.
Qed.

(** A waker for a task that exists, or for none. *)
Lemma wake_gives w : gives ready touched (task_waker_wake w) tt.
Proof using Type.
  intros s [Hr [states Hst]]. destruct (states !! w) as [st|] eqn:Hw.
  - exists (free_with (put := put_states) (<[w := Wake]> states) s).
    rewrite (task_waker_wake_run w s states Hst) by (by eexists). split; [done|]. split; [split; [done|by eexists]|by split].
  - exists s. split; [|split; [by split; [|eexists]|done]].
    transitivity (Ret (tt, free_with (put := put_states) states s)).
    + unfold task_waker_wake, lock_states. eapply (slot_run _ (fun s => s)); [done|].
      erewrite bind_run by apply slot_deref_held. by rewrite Hw.
    + by rewrite free_same_states.
Qed.

(** C3: the whole path of a read: for a file open on a partition inside of a working
    disk, the [read] that the [ReadStream] system call makes, through the file system,
    the partition, the disk driver and its ports, puts the next [len] bytes of the
    file in the buffer (fewer at the end), leaves the file at the bytes after them,
    and touches nothing in the kernel but the disk, the allocator and the states of
    tasks that are woken. *)
Theorem kernel_file_read waker (fs : FsValue) (f : Fat.File Part TaskId) rest len (s : K) :
  let part := Fat.part fs in
  let sect := fun l => contents (Mbr.lba part + l) in
  Mbr.drive part = Ide.A -> 0 <= Mbr.lba part -> 0 <= Mbr.sectors part -> Mbr.lba part + Mbr.sectors part <= size ->
  Fat.geometry fs (Mbr.sectors part) -> Fat.file_holds fs sect (Mbr.sectors part) f rest ->
  0 <= len -> next_answer s = true -> ready s ->
  exists f' s', file_read (FileOps := kernel_files disk fuel waker) (Vfs.FatFile (Fat.OpenFile f)) len s =
      Ret (Some (Vfs.FatFile (Fat.OpenFile f'), take (Z.to_nat len) rest, Ok (Z.min len (Z.of_nat (length rest)))), s') /\
    Fat.file_holds fs sect (Mbr.sectors part) f' (skipn (Z.to_nat len) rest) /\ ready s' /\ touched s s'.
Proof using All.
  intros part sect Hd Hl Hs Hin HG Hf Hlen Ha Hr.
  pose proof (kernel_partition_works part Hd Hl Hs Hin) as L.
  assert (answer s = Ret (true, use_answer s)) as Ha' by (by rewrite answer_run, Ha).
  assert (touched s (use_answer s)) as Ht by (by split).
  destruct (Fat.File_read_ok (B := kernel_partition disk fuel) answer (build (smach s)) waker task_waker_wake fs sect
    (Mbr.sectors part) ready touched (L := L) HG wake_gives f rest len s (use_answer s) Hf Hlen Ha' Hr Ht)
    as (f' & s' & E & Hf' & _ & Hr' & Ht').
  exists f', s'. split; [|done]. cbn. unfold with_build. unfold Vfs.vfs_read.
  by erewrite bind_run by exact E.
Qed.

(** A timer interrupt that arrives while the kernel itself runs does not switch
    tasks: it returns to the frame it interrupted, and all that changes is one
    acknowledgement at the interrupt controller and interrupts being enabled. *)
Theorem timer_in_kernel scancode frame (s : K) :
  interrupt_vector frame mod 256 = 0x20 -> Z.land (cs frame) 3 = 0 ->
  interrupt disk fuel scancode frame s =
    Ret (Some frame, set cpu_if true (set (pit_l (D := D)) (Pit true ((0x20, 0x20) :: d_ports (devs s))) s)).
Proof using Type.
  intros Hv Hc. unfold interrupt. erewrite bind_run by reflexivity.
  unfold interrupt_of. rewrite Hv. cbn [Interrupt_from]. unfold timer, origin. rewrite Hc. cbn.
  unfold mbind, M_bind. cbn. by destruct s as [[] ? ? ? ? ? ? ? ? ? ? []].
Qed.
End kernel_spec.

(** The example volume of [Fat] as a partition of a disk, from sector 1. *)
Definition example_contents (l : Z) : list Z := if l =? 0 then Mbr.example_boot else Fat.example_volume (l - 1).

Lemma example_contents_ok l : 0 <= l < 9 ->
  length (example_contents l) = Ide.SECTOR_BYTES /\ Forall (fun b => 0 <= b < 256) (example_contents l).
Proof.
  intros Hl. unfold example_contents. destruct (Z.eqb_spec l 0).
  - split; [done|]. by apply are_bytes_ok.
  - apply Fat.example_volume_ok. lia.
Qed.

Definition example_kfs : FsValue := Fat.Filesystem_ (Mbr.Partition_ Ide.A 0 1 8) Fat.example_bpb.
Definition example_kfile : Fat.File Part TaskId :=
  Fat.File_ example_kfs (Fat.DirEntry_ example_kfs None Fat.example_raw) (Fat.AsyncCell_ false [] (Fat.Seek_ (Some 2) 0 500)).

Definition example_kernel : sys KFile TaskFut FsValue (devices list_deque) :=
  Sys (Machine Debug true ∅ 0 0 EarlyInit_new EarlyInit_new false ∅ (Mutex_new None)) [true] ∅ ∅ ∅ EarlyInit_new
    EarlyInit_new (EI SAFE (Some (Mutex_new ∅))) EarlyInit_new (Mutex_new (Some 1)) 2
    (Devices list_deque (Mutex_new None) (Mutex_new Console.PortE9) [] true false (Mutex_new tt) [] []).

Lemma example_kchain :
  Fat.chain example_kfs (fun l => example_contents (1 + l)) 8 (Some 2) [2; 3].
Proof.
  apply Fat.chain_link; [split; [cbn; lia|by vm_compute]|lia|by vm_compute|].
  change (Fat.linked example_kfs (fun l => example_contents (1 + l)) 2) with (Some 3).
  apply Fat.chain_link; [split; [cbn; lia|by vm_compute]|lia|by vm_compute|].
  change (Fat.linked example_kfs (fun l => example_contents (1 + l)) 3) with (@None Z). constructor.
Qed.

Lemma kernel_file_read_witness :
  exists f' s', file_read (FileOps := kernel_files (D := list_deque) (Bf := bitflags_crate) (C := machines) (Ide.pio_disk example_contents) 2 1)
      (Vfs.FatFile (Fat.OpenFile example_kfile)) 600 example_kernel =
    Ret (Some (Vfs.FatFile (Fat.OpenFile f'), repeat 3 12 ++ repeat 4 512, Ok 524), s') /\
    objs s' = objs example_kernel.
Proof.
  destruct (kernel_file_read (D := list_deque) (Bf := bitflags_crate) (BL := bitflags_crate_laws) (C := machines)
    (Ide.pio_disk example_contents) 1 example_contents 9 (Ide.pio_disk_works _ _ example_contents_ok) 2 ltac:(lia) ltac:(lia)
    1 example_kfs example_kfile (repeat 3 12 ++ repeat 4 512) 600 example_kernel) as (f' & s' & E & _ & _ & Ht);
    [done|cbn; lia|cbn; lia|cbn; lia|split; cbn; lia| |lia|done|split; [done|by eexists]|].
  - split; [done|]. split; [done|]. exists [2; 3]. split; [split; [exact example_kchain|cbn; lia]|by vm_compute].
  - exists f', s'. split; [exact E|]. apply Ht.
Defined.

Lemma timer_in_kernel_witness :
  let frame := TrapFrame_ Registers_default 0x20 0 0xffff 0x08 0 0 0 in
  interrupt (D := list_deque) (Bf := bitflags_crate) (C := machines) (Ide.pio_disk example_contents) 2 0 frame example_kernel =
    Ret (Some frame, set cpu_if true (set (pit_l (D := list_deque)) (Pit true [(0x20, 0x20)]) example_kernel)).
Proof.
  apply (timer_in_kernel (D := list_deque) (Bf := bitflags_crate) (C := machines) (Ide.pio_disk example_contents) 2 0
    (TrapFrame_ Registers_default 0x20 0 0xffff 0x08 0 0 0) example_kernel); done.
Defined.
