(* ===== verification/KernelCall.v ===== *)
(** * KernelCall: a system call, from user space through the kernel and back

    The interrupt of a system call saves the frame, the scheduler finds the future of
    the task, its poll dispatches the call and goes back to user mode, and the scheduler
    then returns the frame with the result: here as one theorem about [interrupt], for
    the calls that work on the memory of the task. *)

From S2P Require Import Prelude Interface Sync Machine Phys Page PageSpec UserMem Arc Interrupt System Object Task Syscall.
From S2P Require Import SyscallSpec PageCalls Utf8 Block Stream Device Kernel.
From S2P Require Console Ide Mbr Fat Vfs.

(** ** The calls that only need the memory *)

Section machine_calls.
Context {Bf : Bitflags}.

Definition machine_call (r : Registers) : option (M machine (result Z SysError)) :=
  match Syscall_try_from (rax r) with
  | None => Some (mret (Err BadSyscall))
  | Some AllocPage => Some (alloc_page (rdi r) (rsi r) (rdx r))
  | Some ReleasePage => Some (release_page (rdi r) (rsi r))
  | Some ModifyPage => Some (syscall_modify_page (rdi r) (rsi r) (rdx r))
  | Some MapPhysicalMemory => Some (map_physical_memory (rdi r) (rsi r) (rdx r) (rcx r))
  | Some Interface.Debug_ => Some (mret (Ok OK))
  | _ => None
  end.

Context {F Fut Fs Dev : Type}.
#[local] Abbreviation S := (sys F Fut Fs Dev).
Context {FO : FileOps F Fs S}.
Context (drop_file : F -> M S unit) (drop_filesystem : Fs -> M S unit) (drop_future : Fut -> M S unit).
Context (user_task : TrapFrame -> TaskId -> Fut).

Lemma dispatch_machine_call waker frame h r m (s : S) :
  machine_call (regs frame) = Some h -> h (smach s) = Ret (r, m) ->
  dispatch_poll drop_file drop_filesystem drop_future user_task waker (dispatch frame) s =
    Ret (Ready (store_result frame r), set smach_lens m s).
Proof.
  assert (set smach_lens (smach s) s = s) as Hs by (by destruct s).
  intros Hm Hh. unfold dispatch_poll, dispatch, dispatch0. unfold machine_call in Hm.
  destruct (Syscall_try_from _) as [[]|]; simplify_eq; unfold ready, mem_call, zoom, mbind, M_bind; cbn [view smach_lens].
  all: try (rewrite Hh; reflexivity).
  all: unfold mret, M_ret in *; simplify_eq; by rewrite Hs.
Qed.
End machine_calls.

(** ** States of a system call under way *)

Section call.
Context {D : ArrayDeque} {Bf : Bitflags}.
#[local] Abbreviation K := (sys KFile TaskFut FsValue (devices D)).
Context {C : Streams K}.
Context (disk : list Ide.event -> Z -> Z) (fuel : nat).
Implicit Types (s : K) (m : machine).

(** The parts that change: the machine, the objects, the futures and the states of
    tasks. *)
Definition during m (o : gmap Z (Z * ObjectKind KFile)) (fu : gmap Z (Z * Mutex TaskFut)) (states : gmap TaskId TaskState) s : K :=
  Sys m (sanswers s) o (fss s) fu (TASK_HANDLES s) (TASKS s) (EI SAFE (Some (Mutex_new states))) (TASK_FUTURES s)
    (CURRENT_TASK s) (NEXT_TASK_ID s) (devs s).

Lemma during_start s states : TASK_STATES s = EI SAFE (Some (Mutex_new states)) ->
  s = during (smach s) (objs s) (futs s) states s.
Proof using Type. destruct s. cbn. by intros ->. Qed.

(** A task in user mode that is ready for a system call: it is current, its page context
    is loaded, and its future waits for a trap. *)
Record in_user (rs : list PhysRegion) (a : TaskId) (fa : TrapFrame) tasks states futures (ref : Z) fs n p future k (t : TaskRun) s : Prop := {
  iu_tasks : TASKS s = EI SAFE (Some (Mutex_new tasks));
  iu_states : TASK_STATES s = EI SAFE (Some (Mutex_new states));
  iu_futures : TASK_FUTURES s = EI SAFE (Some (Mutex_new futures));
  iu_current : CURRENT_TASK s = Mutex_new (Some a);
  iu_task : tasks !! a = Some (Task_ ref fs);
  iu_state : states !! a = Some (User_ fa);
  iu_future : futures !! a = Some future;
  iu_poll : futs s !! future = Some (k, Mutex_new (UserFut (Resume t)));
  iu_id : run_task_id t = a;
  iu_count : 0 < k < u64_limit - 1;
  iu_ctx : objs s !! ref = Some (n, PageCtx_ p);
  iu_ctx_count : 0 < n < u64_limit - 1;
  iu_regions : regions_ok rs;
  iu_counted : counted rs p
}.

(** A machine that runs in the page context [p]. *)
Definition runs_in (rs : list PhysRegion) (p : Z) m : Prop :=
  regions m = EI SAFE (Some rs) /\ rc_enabled m = true /\ cr3 m = p /\ 1 < rc_of m p < u64_limit - 1.

Lemma runs_in_if rs p m b : runs_in rs p m -> runs_in rs p (set_if b m).
Proof using Type. done. Qed.

Lemma loaded_same rs p m : runs_in rs p m -> loaded p m = m.
Proof using Type.
  intros (_ & _ & Hp & Hrc). unfold loaded. rewrite Hp.
  assert (rc m !! Z.shiftr p 12 = Some (rc_of m p)) as Hl.
  { unfold rc_of, rc_load in *. destruct (rc m !! Z.shiftr p 12); [done|cbn in Hrc; lia]. }
  unfold bump_rc at 1. unfold rc_of at 1. unfold rc_load, bump_rc at 1 2. cbn. rewrite lookup_insert_eq, insert_insert_eq. cbn.
  rewrite (wrap64_small (rc_of m p + 1)) by (unfold in_u64; lia). replace (rc_of m p + 1 + -1) with (rc_of m p) by lia.
  rewrite wrap64_small by (unfold in_u64; lia). rewrite insert_id by exact Hl. subst p. by destruct m.
Qed.

(** Every other task sleeps. *)
Definition others_sleep (tasks : gmap TaskId Task) (states : gmap TaskId TaskState) (a : TaskId) : Prop :=
  forall id, id ∈ dom tasks -> id <> a -> states !! id = Some Sleep.

Lemma picks_self tasks states a st : others_sleep tasks states a -> a ∈ dom tasks ->
  states !! a = Some st -> runnable st = true -> picks tasks states a a.
Proof using Type.
  intros Ho Ha Hst Hrun. pose proof (proj2 (elem_of_next_tasks a tasks a) Ha) as Hin.
  apply list_elem_of_split_l in Hin as (before & after & Hn & Hb). exists before, after. split_and!; [done| |by exists st].
  intros x Hx. apply Ho; [|by intros ->]. apply (elem_of_next_tasks a tasks). rewrite Hn. apply elem_of_app. by left.
Qed.

(** ** The steps *)

Lemma enter_syscall_run a fa frame m o fu states s :
  CURRENT_TASK s = Mutex_new (Some a) -> states !! a = Some (User_ fa) ->
  enter_syscall frame (during m o fu states s) = Ret (tt, during m o fu (<[a := SyscallEntry frame]> states) s).
Proof using Type.
  intros Hc Hst. unfold enter_syscall. erewrite bind_run by (apply current_expect_run; exact Hc).
  change (during m o fu (<[a := SyscallEntry frame]> states) s)
    with (free_with (put := put_states) (<[a := SyscallEntry frame]> states) (during m o fu states s)).
  unfold lock_states. eapply (slot_run _ (fun s => s)); [reflexivity|].
  erewrite bind_run by apply slot_deref_held. rewrite Hst. erewrite bind_run by reflexivity. apply slot_assign_held.
Qed.

Lemma enter_current_run rs a ref fs n p tasks m o fu states s :
  CURRENT_TASK s = Mutex_new (Some a) -> TASKS s = EI SAFE (Some (Mutex_new tasks)) -> tasks !! a = Some (Task_ ref fs) ->
  o !! ref = Some (n, PageCtx_ p) -> regions_ok rs -> counted rs p -> runs_in rs p m ->
  enter_task a (during m o fu states s) = Ret (ref, during m (<[ref := (wrap64 (n + 1), PageCtx_ p)]> o) fu states s).
Proof using Type.
  intros Hc Ht Ha Ho Hok Hp Hrun. pose proof Hrun as (Hrs & He & Hcr & Hrc).
  erewrite (enter_task_run rs a ref fs n p _ tasks); try done; cbn.
  - f_equal. f_equal. rewrite (loaded_same rs p m Hrun). unfold during, put_current, put_objs. cbn. by rewrite <- Hc.
  - by rewrite Hc.
  - by rewrite Hcr.
  - by rewrite Hcr.
Qed.

Lemma drop_ctx_run n p ref m o fu states s : 0 < n < u64_limit - 1 -> o !! ref = Some (n, PageCtx_ p) ->
  drop_ref drop_kfile ref (during m (<[ref := (wrap64 (n + 1), PageCtx_ p)]> o) fu states s) = Ret (tt, during m o fu states s).
Proof using Type.
  intros Hn Ho. erewrite (drop_ref_shared_run drop_kfile ref (n + 1) (PageCtx_ p)); [| |lia].
  - unfold put_objs, during. cbn. rewrite insert_insert_eq. replace (n + 1 - 1) with n by lia.
    rewrite wrap64_small by (unfold in_u64; lia). by rewrite insert_id.
  - cbn. rewrite wrap64_small by (unfold in_u64; lia). apply lookup_insert_eq.
Qed.

Lemma alter_here {V} (g : V -> V) (i : Z) x (l : gmap Z V) : alter g i (<[i := x]> l) = <[i := g x]> l.
Proof using Type. rewrite (map_alter_Some _ _ _ x) by apply lookup_insert_eq. apply insert_insert_eq. Qed.

Lemma fut_view_run future d k x m o fu states s :
  view (fut_at future d) (during m o (<[future := (k, x)]> fu) states s) = x.
Proof using Type. cbn. by rewrite lookup_insert_eq. Qed.
Lemma fut_set_run future d k x y m o fu states s :
  set (fut_at future d) y (during m o (<[future := (k, x)]> fu) states s) = during m o (<[future := (k, y)]> fu) states s.
Proof using Type. unfold during. cbn. by rewrite alter_here. Qed.

(** The scope of the mutex of a future: its body finds the future locked. *)
Lemma fut_scope_run future d k f f' m m' o fu states states' s s' (body : M K unit) :
  m_if m' = false ->
  body (during (set_if false m) o (<[future := (k, MutexInner f true)]> fu) states s) =
    Ret (tt, during m' o (<[future := (k, MutexInner f' true)]> fu) states' s') ->
  with_lock (fut_at future d) body (during m o (<[future := (k, Mutex_new f)]> fu) states s) =
    Ret (tt, during (set_if (m_if m) m') o (<[future := (k, Mutex_new f')]> fu) states' s').
Proof using Type.
  intros Hif Hbody. unfold with_lock, lock.
  erewrite bind_run.
  2:{ erewrite bind_run by apply begin_run. unfold gets. erewrite bind_run; [|reflexivity].
      change (set cpu_if false (during m o (<[future := (k, Mutex_new f)]> fu) states s))
        with (during (set_if false m) o (<[future := (k, Mutex_new f)]> fu) states s).
      rewrite fut_view_run. cbn [locked Mutex_new]. erewrite bind_run; [reflexivity|].
      unfold set_locked, modify. rewrite fut_view_run, fut_set_run. reflexivity. }
  erewrite bind_run by exact Hbody. erewrite bind_run; [reflexivity|]. unfold drop_guard. erewrite bind_run.
  2:{ unfold set_locked, modify. rewrite fut_view_run, fut_set_run. reflexivity. }
  rewrite drop_critical_run. f_equal. f_equal. cbn [value].
  change (view cpu_if (during m o (<[future := (k, Mutex_new f)]> fu) states s)) with (m_if m).
  assert (set_if false m' = m') as Hm' by (destruct m'; cbn in Hif; by subst).
  destruct (m_if m); [done|by rewrite Hm'].
Qed.

Lemma run_kernel_run a future k f f' m m' o fu states states' s s' (poll : TaskId -> TaskFut -> M K (option TaskFut)) :
  fu !! future = Some (k, Mutex_new f) -> 1 < k -> m_if m' = false ->
  poll a f (during (set_if false m) o (<[future := (k, MutexInner f true)]> fu) states s) =
    Ret (Some f', during m' o (<[future := (k, MutexInner f true)]> fu) states' s') ->
  run_kernel drop_fut poll a future (during m o fu states s) =
    Ret (tt, during (set_if (m_if m) m') o (<[future := (wrap64 (k - 1), Mutex_new f')]> fu) states' s').
Proof using Type.
  intros Hf Hk Hif Hpoll. unfold run_kernel. erewrite bind_run.
  2:{ unfold Arc_deref, as_ref, mbind, M_bind, gets. cbn [view futs_lens during futs]. rewrite Hf. reflexivity. }
  rewrite <- (insert_id fu future (k, Mutex_new f)) at 1 by done. erewrite bind_run.
  2:{ eapply fut_scope_run; [exact Hif|]. erewrite bind_run; [|unfold deref, gets; rewrite fut_view_run; reflexivity].
      cbn [value]. erewrite bind_run by exact Hpoll. unfold assign, modify. rewrite fut_view_run, fut_set_run. reflexivity. }
  unfold drop_task_future, Arc_drop, as_ref, mbind, M_bind, gets. cbn. rewrite lookup_insert_eq. cbn.
  rewrite (proj2 (Z.eqb_neq k 0)), (proj2 (Z.eqb_neq k 1)) by lia. cbn.
  unfold during, mret, M_ret. by rewrite insert_insert_eq.
Qed.

Lemma run_run a frame m o fu states s : is_Some (states !! a) ->
  run (TaskRun_ a frame) (during m o fu states s) = Ret (tt, during m o fu (<[a := User_ frame]> states) s).
Proof using Type.
  intros [st Hst]. unfold run, lock_states.
  change (during m o fu (<[a := User_ frame]> states) s)
    with (free_with (put := put_states) (<[a := User_ frame]> states) (during m o fu states s)).
  eapply (slot_run _ (fun s => s)); [reflexivity|]. erewrite bind_run by apply slot_deref_held.
  cbn [run_task_id trap_frame]. rewrite Hst. erewrite bind_run by reflexivity. apply slot_assign_held.
Qed.

(** The poll of the future of a task that has made a system call. *)
Lemma poll_call_run a t frame h r m m' o fu states s :
  (4 <= fuel)%nat -> machine_call (regs frame) = Some h -> h m = Ret (r, m') ->
  states !! a = Some (SyscallEntry frame) -> run_task_id t = a ->
  poll_task disk fuel a (UserFut (Resume t)) (during m o fu states s) =
    Ret (Some (UserFut (Resume (TaskRun_ a (store_result frame r)))),
         during m' o fu (<[a := User_ (store_result frame r)]> states) s).
Proof using Type.
  intros Hfuel Hcall Hh Hst Ht. destruct fuel as [|[|[|[|n]]]]; try lia. unfold poll_task.
  erewrite bind_run by reflexivity.
  rewrite (bind_run _ _ _ (Some (Resume (TaskRun_ a (store_result frame r)))) (during m' o fu (<[a := User_ (store_result frame r)]> states) s)); [done|].
  cbn [run_loop_poll].
  erewrite bind_run by (eapply (resume_poll_run t _ states (SyscallEntry frame)); [done|by rewrite Ht|done]).
  cbv iota. cbn [trap_frame run_task_id]. erewrite bind_run.
  2:{ unfold kernel_dispatch_poll. eapply (dispatch_machine_call _ _ _ _ a frame h r m'); [exact Hcall|exact Hh]. }
  cbv iota. cbn [run_task_id]. rewrite Ht.
  change (set smach_lens m' (during m o fu states s)) with (during m' o fu states s).
  erewrite bind_run by (apply run_run; by eexists). cbn [run_loop_poll].
  erewrite bind_run by (eapply (resume_poll_run _ _ _ (User_ (store_result frame r))); [reflexivity|apply lookup_insert_eq|done]).
  reflexivity.
Qed.

(** C31: a turn of the scheduler on a task that waits in a read of the console with no key
    pressed: the poll runs under the lock of the future, with interrupts off, and the
    future is still pending; afterwards interrupts are on exactly if they were before, the
    reference of the scheduler to the future is given back, the keyboard's queue is still
    empty and its mutex free, and nothing else in the kernel has changed, so the interrupt
    of a key can come. *)
Theorem waiting_read_turn (elements : deque -> list Z) {DL : ArrayDequeLaws D elements}
    a t frame ref n buf nbyte crit future k states s :
  TASK_STATES s = EI SAFE (Some (Mutex_new states)) -> (0 < fuel)%nat ->
  futs s !! future = Some (k, Mutex_new (UserFut (Dispatch t (Waiting frame (ReadWait ref buf nbyte crit))))) ->
  0 < k < u64_limit - 1 -> objs s !! ref = Some (n, File_ Vfs.Console) -> nbyte <> 0 ->
  holds elements (view keyboard_l s) [] ->
  exists kb, run_kernel drop_fut (poll_task disk fuel) a future (futs_clone future s) = Ret (tt, set keyboard_l kb s) /\
    holds elements kb [] /\ kbd_if kb = m_if (smach s).
Proof using Type*.
  intros Hst Hfuel Hf Hk Ho Hn Hh. set (f := UserFut (Dispatch t (Waiting frame (ReadWait ref buf nbyte crit)))) in *.
  set (kb0 := Keyboard false (d_keyboard (devs s))).
  assert (holds elements kb0 []) as Hh0 by exact Hh.
  pose proof (read_scancode_holds elements kb0 [] Hh0) as Hp. apply wp_iff in Hp as (r & kb1 & Hp & -> & Hh1 & Hif1).
  set (d := devs s). set (s' := set_devs (Devices D (BUFF kb1) (d_console d) (d_e9 d) (d_disk_a d) (d_disk_b d)
    (d_disk_io d) (d_disk_hist d) (d_ports d)) s).
  exists (Keyboard (m_if (smach s)) (BUFF kb1)). split; [|split; [exact Hh1|done]].
  assert (futs_clone future s = during (smach s) (objs s) (<[future := (wrap64 (k + 1), Mutex_new f)]> (futs s)) states s) as ->.
  { unfold futs_clone. rewrite (map_alter_Some _ _ _ _ Hf). unfold during, put_futs. by rewrite <- Hst. }
  assert (forall fu, poll_task disk fuel a f (during (set_if false (smach s)) (objs s) fu states s) =
    Ret (Some f, during (set_if false (smach s)) (objs s) fu states s')) as Hpoll.
  { intros fu. destruct fuel as [|fl]; [lia|]. unfold poll_task, f. erewrite bind_run by reflexivity.
    cbn [run_loop_poll]. rewrite (bind_run _ _ _ (Some (Dispatch t (Waiting frame (ReadWait ref buf nbyte crit))))
      (during (set_if false (smach s)) (objs s) fu states s')); [done|].
    rewrite (bind_run _ _ _ (Pending (Waiting frame (ReadWait ref buf nbyte crit))) (during (set_if false (smach s)) (objs s) fu states s')); [done|].
    unfold kernel_dispatch_poll, dispatch_poll.
    rewrite (bind_run _ _ _ (Pending (ReadWait ref buf nbyte crit)) (during (set_if false (smach s)) (objs s) fu states s')); [done|].
    unfold read_wait. erewrite bind_run.
    2:{ unfold object, Arc_deref, as_ref, mbind, M_bind, gets. cbn [view objs_lens objs during]. rewrite Ho. reflexivity. }
    rewrite (bind_run _ _ _ None (during (set_if false (smach s)) (objs s) fu states s')); [done|].
    cbn [file_read kernel_files]. unfold with_build, Vfs.vfs_read. rewrite (proj2 (Z.eqb_neq _ _)) by done.
    rewrite (bind_run _ _ _ None (during (set_if false (smach s)) (objs s) fu states s')); [done|].
    cbn [Vfs.term_poll kernel_terminal]. unfold zoom.
    change (view keyboard_l (during (set_if false (smach s)) (objs s) fu states s)) with kb0. rewrite Hp.
    f_equal. f_equal. cbn. rewrite Hif1. reflexivity. }
  assert (wrap64 (k + 1) = k + 1) as Hw by (apply wrap64_small; unfold in_u64; lia).
  erewrite run_kernel_run; [|apply lookup_insert_eq|rewrite Hw; lia| |apply Hpoll]; [|done].
  f_equal. f_equal. rewrite insert_insert_eq, Hw. replace (k + 1 - 1) with k by lia.
  rewrite wrap64_small by (unfold in_u64; lia). rewrite insert_id by exact Hf.
  unfold during, s', set_devs. cbn. rewrite <- Hst. by destruct (smach s).
Qed.

(** What a system call leaves: the machine as the handler left it, with interrupts on,
    the frame to return to, and the future waiting for the next trap. *)
Definition called a future k m frame (states : gmap TaskId TaskState) s : K :=
  during (set_if true m) (objs s) (<[future := (k, Mutex_new (UserFut (Resume (TaskRun_ a frame))))]> (futs s))
    (<[a := User_ frame]> states) s.

Lemma find_self_run a st tasks states futures m o fu s :
  TASKS s = EI SAFE (Some (Mutex_new tasks)) -> TASK_FUTURES s = EI SAFE (Some (Mutex_new futures)) ->
  others_sleep tasks states a -> a ∈ dom tasks -> states !! a = Some st -> runnable st = true ->
  (exists future cell, futures !! a = Some future /\ fu !! future = Some cell) ->
  exists w s', find_next_work_item (Some a) (during m o fu states s) = Ret ((a, w), s') /\
    item_of states futures a (during m o fu states s) w s'.
Proof using Type.
  intros Ht Hf Ho Ha Hst Hrun Hfut.
  destruct (find_next_ok (Some a) (during m o fu states s) tasks states futures) as (id & w & s' & Hr & Hp & Hi); try done.
  - intros id Hid. destruct (decide (id = a)) as [->|Hne]; [|exists Sleep; split; [by apply Ho|done]].
    exists st. split; [done|]. by destruct st.
  - exists a. split; [done|]. rewrite Hst. by intros [= ->].
  - pose proof (picks_unique _ _ _ _ _ Hp (picks_self _ _ _ _ Ho Ha Hst Hrun)) as ->. by exists w, s'.
Qed.

(** A turn of the scheduler on the task that runs: the count of its page context comes
    back to what it was. *)
Section turn.
Context (rs : list PhysRegion) (a : TaskId) (tasks : gmap TaskId Task) (futures : gmap TaskId Z).
Context (ref : Z) (fs : option Z) (n p : Z) (s : K).
Context (Hc : CURRENT_TASK s = Mutex_new (Some a)) (Ht : TASKS s = EI SAFE (Some (Mutex_new tasks))).
Context (Hft : TASK_FUTURES s = EI SAFE (Some (Mutex_new futures))) (Hta : tasks !! a = Some (Task_ ref fs)).
Context (Hok : regions_ok rs) (Hcp : counted rs p) (Hn : 0 < n < u64_limit - 1).
Context (poll : TaskId -> TaskFut -> M K (option TaskFut)).

Lemma user_turn turns m o fu states frame future cell :
  others_sleep tasks states a -> states !! a = Some (User_ frame) -> futures !! a = Some future -> fu !! future = Some cell ->
  o !! ref = Some (n, PageCtx_ p) -> runs_in rs p m ->
  switch_loop drop_kfile drop_fut poll (Datatypes.S turns) (Some a) (during m o fu states s) =
    Ret (Some frame, during m o fu states s).
Proof using Type*.
  intros Ho Hs Hfa Hfu Hctx Hrun. assert (a ∈ dom tasks) as Hd by (apply elem_of_dom; eauto).
  destruct (find_self_run a _ tasks states futures m o fu s Ht Hft Ho Hd Hs eq_refl) as (w & s' & Hfind & Hi); [by eauto|].
  unfold item_of in Hi. rewrite Hs in Hi. destruct Hi as [-> ->].
  cbn [switch_loop]. erewrite bind_run by exact Hfind. cbn [fst snd].
  erewrite bind_run by (by eapply enter_current_run). by erewrite bind_run by (by apply drop_ctx_run).
Qed.

Lemma kernel_turn turns m m' o fu states states' frame future k f f' :
  others_sleep tasks states a -> states !! a = Some (SyscallEntry frame) -> futures !! a = Some future ->
  fu !! future = Some (k, Mutex_new f) -> 0 < k < u64_limit - 1 ->
  o !! ref = Some (n, PageCtx_ p) -> runs_in rs p m -> m_if m' = false ->
  (forall o fu, poll a f (during (set_if false m) o fu states s) = Ret (Some f', during m' o fu states' s)) ->
  switch_loop drop_kfile drop_fut poll (Datatypes.S turns) (Some a) (during m o fu states s) =
    switch_loop drop_kfile drop_fut poll turns (Some a)
      (during (set_if (m_if m) m') o (<[future := (k, Mutex_new f')]> fu) states' s).
Proof using Type*.
  intros Ho Hs Hfa Hfu Hk Hctx Hrun Hif Hpoll. assert (a ∈ dom tasks) as Hd by (apply elem_of_dom; eauto).
  destruct (find_self_run a _ tasks states futures m o fu s Ht Hft Ho Hd Hs eq_refl) as (w & s' & Hfind & Hi); [by eauto|].
  unfold item_of in Hi. rewrite Hs in Hi. destruct Hi as (future' & Hfa' & -> & ->). rewrite Hfa in Hfa'. injection Hfa' as <-.
  assert (futs_clone future (during m o fu states s) =
    during m o (<[future := (wrap64 (k + 1), Mutex_new f)]> fu) states s) as Hcl.
  { unfold futs_clone, during. cbn. by rewrite (map_alter_Some _ _ _ _ Hfu). }
  rewrite Hcl in Hfind. cbn [switch_loop]. erewrite bind_run by exact Hfind. cbn [fst snd].
  erewrite bind_run by (by eapply enter_current_run).
  erewrite bind_run.
  2:{ eapply run_kernel_run; [apply lookup_insert_eq|rewrite wrap64_small; unfold in_u64; lia|exact Hif|apply Hpoll]. }
  erewrite bind_run by (by apply drop_ctx_run). f_equal. f_equal. rewrite insert_insert_eq. f_equal. f_equal. f_equal.
  rewrite (wrap64_small (k + 1)) by (unfold in_u64; lia). rewrite wrap64_small; unfold in_u64; lia.
Qed.
End turn.

(** The round trip of a call, for any handler of [machine_call]. *)
Lemma system_call_run rs a fa tasks states futures ref fs n p future k t frame h r m' scancode s :
  in_user rs a fa tasks states futures ref fs n p future k t s -> others_sleep tasks states a -> runs_in rs p (smach s) ->
  interrupt_of frame = Syscall_ -> origin frame = Ret User -> (4 <= fuel)%nat ->
  machine_call (regs frame) = Some h -> h (set_if false (smach s)) = Ret (r, m') -> runs_in rs p m' -> m_if m' = false ->
  interrupt disk fuel scancode frame s =
    Ret (Some (store_result frame r), called a future k m' (store_result frame r) states s).
Proof using Type.
  intros [Ht Hst Hft Hc Hta Hsa Hfa Hpoll Hid Hk Hctx Hn Hok Hcp] Ho Hrun Hv Hor Hfuel Hcall Hh Hrun' Hif.
  set (states1 := <[a := SyscallEntry frame]> states). set (frame' := store_result frame r).
  set (states2 := <[a := User_ frame']> states1). set (m1 := set_if true (smach s)). set (m2 := set_if true m').
  assert (a ∈ dom tasks) as Hd by (apply elem_of_dom; eauto).
  assert (forall st, others_sleep tasks (<[a := st]> states) a) as Ho1.
  { intros st id Hin Hne. rewrite lookup_insert_ne by congruence. by apply Ho. }
  assert (runs_in rs p m1 /\ runs_in rs p m2) as [Hrun1 Hrun2] by (split; by apply runs_in_if).
  assert (states2 = <[a := User_ frame']> states) as Hs2 by apply insert_insert_eq.
  unfold interrupt. erewrite bind_run by reflexivity. rewrite Hv. erewrite bind_run by (rewrite Hor; reflexivity).
  rewrite (during_start s states Hst) at 1.
  change (set cpu_if true (during (smach s) (objs s) (futs s) states s)) with (during m1 (objs s) (futs s) states s).
  unfold dispatch_syscall. erewrite bind_run by (by eapply enter_syscall_run). fold states1.
  assert (states1 !! a = Some (SyscallEntry frame)) as Hs1 by apply lookup_insert_eq.
  unfold switch. erewrite bind_run by (eapply save_current_task_run; [exact Hc|reflexivity|by eexists]).
  unfold Task.saved. rewrite Hs1.
  change (free_with states1 (during m1 (objs s) (futs s) states1 s)) with (during m1 (objs s) (futs s) states1 s).
  assert (exists turns, fuel = Datatypes.S (Datatypes.S turns)) as [turns Hturns] by (exists (fuel - 2)%nat; lia).
  transitivity (switch_loop drop_kfile drop_fut (poll_task disk fuel) (Datatypes.S (Datatypes.S turns)) (Some a)
    (during m1 (objs s) (futs s) states1 s)); [by rewrite Hturns at 2|].
  erewrite (kernel_turn rs a tasks futures ref fs n p s Hc Ht Hft Hta Hok Hcp Hn _ _ m1 m' (objs s) (futs s) states1 states2
    frame future k _ (UserFut (Resume (TaskRun_ a frame')))); try done; [|by apply Ho1|].
  2:{ intros o fu. by eapply poll_call_run. }
  rewrite Hs2. erewrite (user_turn rs a tasks futures ref fs n p s Hc Ht Hft Hta Hok Hcp Hn _ _ _ _ _ _ frame' future);
    [done|by apply Ho1|apply lookup_insert_eq|done|apply lookup_insert_eq|done..].
Qed.

(** C9: a system call of a task that runs alone, whose handler only works on the memory: the
    interrupt returns to the frame of the call with the result in [rax].  The machine is
    as the handler left it, with interrupts on; the task is in user mode again and its
    future waits for the next trap; nothing else has changed: no reference to its page
    context or to its future is lost or kept. *)
Theorem system_call_returns rs a fa tasks states futures ref fs n p future k t frame h r m' scancode s :
  in_user rs a fa tasks states futures ref fs n p future k t s -> others_sleep tasks states a -> runs_in rs p (smach s) ->
  interrupt_of frame = Syscall_ -> origin frame = Ret User -> (4 <= fuel)%nat ->
  machine_call (regs frame) = Some h -> h (set_if false (smach s)) = Ret (r, m') -> runs_in rs p m' -> m_if m' = false ->
  interrupt disk fuel scancode frame s =
    Ret (Some (store_result frame r), called a future k m' (store_result frame r) states s).
Proof using Type. apply system_call_run. Qed.

(** After [release_page] the machine still runs in its page context: the root of its
    tables is not one of the frames of the pages. *)
Lemma runs_in_released rs bs owner r p m m' :
  runs_in rs p m -> page_aligned p -> counted rs p -> owner !! p = Some (0%nat, 0) ->
  releasable rs owner r m -> released rs bs owner r m m' -> runs_in rs p m'.
Proof using Type.
  intros (_ & _ & Hcr & Hrc) Hp (i & rg & Hrg & Hin) Ho Hrel (_ & (_ & _ & Hcr') & (fl & Hvm) & _ & _ & Hrcs).
  split_and!; [apply (vm_phys _ _ _ _ _ Hvm)|apply (vm_phys _ _ _ _ _ Hvm)|congruence|..].
  all: rewrite Hrcs, (refs_table rs owner) by (by exists i, rg || done || (apply elem_of_dom; eauto)); lia.
Qed.

(** C8: [release_page] from user space and back, for any 64-bit address and number of
    pages except those for which the end of the range overflows 64 bits while the number of
    bytes does not (there a debug build panics and a release build accepts the range, C40):
    the interrupt returns to the frame of the call with the outcome in [rax]; either it is
    the error for bad arguments and nothing of the memory has changed, or exactly the pages
    of the range are no longer mapped and their frames have lost exactly their references;
    in either case the task, its page context and its future are as before the call. *)
Theorem release_call `{!BitflagsLaws Bf} rs bs fl owner a fa tasks states futures ref fs n p future k t frame scancode s :
  in_user rs a fa tasks states futures ref fs n p future k t s -> others_sleep tasks states a -> runs_in rs p (smach s) ->
  interrupt_of frame = Syscall_ -> origin frame = Ret User -> (4 <= fuel)%nat ->
  let r := regs frame in let count := rsi r in
  Syscall_try_from (rax r) = Some ReleasePage -> in_u64 (rdi r) -> in_u64 count -> ~ range_overflows (rdi r) count ->
  vm_inv rs bs fl owner (smach s) -> entries_valid (smach s) -> page_aligned p ->
  (user_range (PageRange_ (rdi r) count) -> releasable rs owner (PageRange_ (rdi r) count) (smach s)) ->
  exists res m', interrupt disk fuel scancode frame s =
      Ret (Some (store_result frame res), called a future k m' (store_result frame res) states s) /\
    release_page_post rs bs owner (rdi r) count (set_if false (smach s)) res m'.
Proof using Type*.
  intros Hu Ho Hrun Hv Hor Hfuel r count Hsys H0 Hc Hno Hvm Hval Hpa Hrel.
  set (m0 := set_if false (smach s)). assert (user_range (PageRange_ (rdi r) count) -> releasable rs owner (PageRange_ (rdi r) count) m0) as Hrel0
    by (intros Hur; destruct (Hrel Hur); by split).
  pose proof (release_page_ok rs bs fl owner m0 (rdi r) count (vm_inv_if _ _ _ _ false _ Hvm) Hval H0 Hc Hno Hrel0) as Hwp.
  apply wp_iff in Hwp as (res & m' & Hh & Hpost). exists res, m'. split; [|exact Hpost].
  assert (owner !! p = Some (0%nat, 0)) as Hroot.
  { rewrite <- (page_base_id p Hpa). destruct Hrun as (_ & _ & <- & _). apply (pt_root _ _ _ (vm_pt _ _ _ _ _ Hvm)). }
  assert (runs_in rs p m' /\ m_if m' = false) as [Hrun' Hif].
  { assert (m' = m0 \/ released rs bs owner (PageRange_ (rdi r) count) m0 m') as [->|Hrd]
      by (destruct res as [v|[]]; naive_solver).
    - by split; [apply runs_in_if|].
    - split; [|by destruct Hrd as (_ & (_ & Hi & _) & _)].
      eapply (runs_in_released rs bs owner _ p m0); try done; [apply Hu|apply Hrel0, Hrd]. }
  eapply system_call_run; try done. unfold machine_call. fold r. by rewrite Hsys.
Qed.
End call.

(** ** An example

    A task that runs alone, in a page context whose root is counted twice, with one page
    at 0; it releases the page. *)
Definition call_regions : list PhysRegion := [Region 0x1000 0x103000].
Definition call_vm : machine :=
  Machine Debug true example_tables 0x1000 0 (EI SAFE (Some call_regions))
    (EI SAFE (Some (Mutex_new [0x100000]))) true {[ 0x1 := 2; 0x5 := 1 ]} (Mutex_new None).

(** The frame of a call with these arguments, in user mode. *)
Definition call_frame (number arg0 arg1 arg2 : Z) : TrapFrame :=
  TrapFrame_ (Regs 0 0 0 0 0 0 0 0 arg0 arg1 0 0 arg2 0 number) 0x7f 0 0x10000000 0x1b 0x200 0x7000 0x23.

Definition call_run : TaskRun := TaskRun_ 1 (TrapFrame_new 0x10000000 0).
Definition call_kernel : sys KFile TaskFut FsValue (devices list_deque) :=
  Sys call_vm [] {[ 16 := (1, PageCtx_ 0x1000) ]} ∅ {[ 32 := (1, Mutex_new (UserFut (Resume call_run))) ]}
    EarlyInit_new (EI SAFE (Some (Mutex_new {[ 1 := Task_ 16 None ]})))
    (EI SAFE (Some (Mutex_new {[ 1 := User_ (TrapFrame_new 0x10000000 0) ]}))) (EI SAFE (Some (Mutex_new {[ 1 := 32 ]})))
    (Mutex_new (Some 1)) 2
    (Devices list_deque (Mutex_new None) (Mutex_new Console.PortE9) [] true false (Mutex_new tt) [] []).

Lemma call_regions_ok : regions_ok call_regions.
Proof.
  split.
  - intros [|i] r [= <-]. by split_and!.
  - by intros [|i] [|j] r r' p [= <-] [= <-].
Qed.

Lemma call_in_user : in_user call_regions 1 (TrapFrame_new 0x10000000 0) {[ 1 := Task_ 16 None ]}
  {[ 1 := User_ (TrapFrame_new 0x10000000 0) ]} {[ 1 := 32 ]} 16 None 1 0x1000 32 1 call_run call_kernel.
Proof.
  split; try done; [apply call_regions_ok|]. by exists 0%nat, (Region 0x1000 0x103000).
Qed.

Lemma call_alone : others_sleep {[ 1 := Task_ 16 None ]} {[ 1 := User_ (TrapFrame_new 0x10000000 0) ]} 1.
Proof. intros id Hid Hne. set_solver. Qed.

Lemma call_runs_in : runs_in call_regions 0x1000 call_vm.
Proof. by split_and!. Qed.

Lemma call_vm_inv : vm_inv call_regions [0x100000] [] example_owner call_vm.
Proof.
  assert (forall p, allocatable call_regions [0x100000] [] p -> 0x100000 <= p) as Hal.
  { intros p [Hp%elem_of_nil|([|i] & r & b & [= <-] & [= <-] & _ & Hp)]; [done|lia]. }
  split; [split; try done|exact example_pt|].
  - by exists None.
  - apply call_regions_ok.
  - intros [|i] r b [= <-] [= <-]. split; [done|cbn; lia].
  - constructor.
  - by intros p Hp%elem_of_nil.
  - intros p Hp%Hal. unfold rc_of, rc_load. cbn [rc call_vm]. rewrite lookup_insert_ne, lookup_singleton_ne; [done|..].
    all: rewrite Z.shiftr_div_pow2 by lia; assert (256 <= p / 2 ^ 12) by (apply Z.div_le_lower_bound; lia); lia.
  - intros t Hd Ht%Hal. apply elem_of_dom in Hd as [x Hx]. unfold example_owner in Hx. lookup_cases Hx; lia.
Qed.

Lemma call_releasable : releasable call_regions example_owner (PageRange_ 0 1) call_vm.
Proof.
  assert (forall a, a ∈ page_list (PageRange_ 0 1) -> a = 0) as H0.
  { intros a Ha. by apply list_elem_of_singleton in Ha. }
  split.
  - intros a ->%H0 _. exists 0x5000. split; [by vm_compute|]. by vm_compute.
  - intros p _ Hn. assert (refs call_vm p [0] = if decide (Some 0x5000 = Some p) then 1 else 0) as Hp by apply refs_one.
    change (page_list (PageRange_ 0 1)) with [0] in *. rewrite Hp in *. case_decide as Hd; [|lia]. injection Hd as <-.
    by vm_compute.
Qed.

Lemma release_call_witness : exists s',
  interrupt (D := list_deque) (Bf := bitflags_crate) (C := machines) (fun _ _ => 0) 4 0 (call_frame 2 0 1 0) call_kernel =
    Ret (Some (call_frame 0 0 1 0), s') /\ pte (smach s') 0 = None.
Proof.
  destruct (release_call (D := list_deque) (Bf := bitflags_crate) (C := machines) (BitflagsLaws0 := bitflags_crate_laws) (fun _ _ => 0) 4
    call_regions [0x100000] [] example_owner _ _ _ _ _ _ _ _ _ _ _ _ (call_frame 2 0 1 0) 0 call_kernel call_in_user call_alone call_runs_in
    eq_refl eq_refl ltac:(lia) eq_refl ltac:(u64; cbn; lia) ltac:(u64; cbn; lia) (small_range 0 1 ltac:(lia) ltac:(lia) ltac:(u64; lia)) call_vm_inv
    example_entries_valid eq_refl (fun _ => call_releasable)) as (res & m' & Hrun & Hpost).
  destruct res as [v|e].
  - destruct Hpost as (-> & _ & _ & _ & _ & Hp & _). eexists. split; [exact Hrun|]. apply (Hp 0). left.
  - exfalso. assert (match interrupt (D := list_deque) (Bf := bitflags_crate) (C := machines) (fun _ _ => 0) 4 0
        (call_frame 2 0 1 0) call_kernel with Ret (Some f, _) => rax (regs f) = 0 | _ => False end) as Hok by (by vm_compute).
    rewrite Hrun in Hok. destruct e; by vm_compute in Hok.
Defined.

(** The same task makes the page read-only with [modify_page]. *)
Lemma system_call_returns_witness : exists m',
  interrupt (D := list_deque) (Bf := bitflags_crate) (C := machines) (fun _ _ => 0) 4 0 (call_frame 3 0 1 0) call_kernel =
    Ret (Some (call_frame 0 0 1 0), called 1 32 1 m' (call_frame 0 0 1 0) {[ 1 := User_ (TrapFrame_new 0x10000000 0) ]} call_kernel) /\
  pte m' 0 = Some 0x5005.
Proof.
  assert (exists m', syscall_modify_page (Bf := bitflags_crate) 0 1 0 (set_if false call_vm) = Ret (Ok OK, m') /\
    runs_in call_regions 0x1000 m' /\ m_if m' = false /\ pte m' 0 = Some 0x5005) as (m' & Hh & Hrun & Hif & Hpte).
  { eexists. split; [vm_compute; reflexivity|]. by split_and!. }
  exists m'. split; [|exact Hpte].
  exact (system_call_returns (D := list_deque) (Bf := bitflags_crate) (C := machines) (fun _ _ => 0) 4
    call_regions _ _ _ _ _ _ _ _ _ _ _ _ (call_frame 3 0 1 0) _ _ m' 0 call_kernel call_in_user call_alone call_runs_in
    eq_refl eq_refl ltac:(lia) eq_refl Hh Hrun Hif).
Defined.

(** The same task waits in a read of the console, its handle's object 48; no key is
    pressed. *)
Definition waiting_kernel : sys KFile TaskFut FsValue (devices list_deque) :=
  Sys call_vm [] {[ 16 := (1, PageCtx_ 0x1000); 48 := (1, File_ Vfs.Console) ]} ∅
    {[ 32 := (1, Mutex_new (UserFut (Dispatch call_run (Waiting (call_frame 13 4 0x10 3) (ReadWait 48 0x10 3 false))))) ]}
    EarlyInit_new (EI SAFE (Some (Mutex_new {[ 1 := Task_ 16 None ]})))
    (EI SAFE (Some (Mutex_new {[ 1 := Sleep ]}))) (EI SAFE (Some (Mutex_new {[ 1 := 32 ]})))
    (Mutex_new (Some 1)) 2
    (Devices list_deque (Mutex_new (Some [])) (Mutex_new Console.PortE9) [] true false (Mutex_new tt) [] []).

Lemma waiting_read_turn_witness : exists kb,
  run_kernel drop_fut (poll_task (D := list_deque) (Bf := bitflags_crate) (C := machines) (fun _ _ => 0) 4) 1 32
    (futs_clone 32 waiting_kernel) = Ret (tt, set (keyboard_l (D := list_deque)) kb waiting_kernel) /\ kbd_if kb = true.
Proof.
  destruct (waiting_read_turn (D := list_deque) (Bf := bitflags_crate) (C := machines) (fun _ _ => 0) 4 (fun d => d)
    (DL := list_deque_laws) 1 call_run (call_frame 13 4 0x10 3) 48 1 0x10 3 false 32 1 {[ 1 := Sleep ]} waiting_kernel)
    as (kb & Hrun & _ & Hif); [done|lia|done|done|done|done|split_and!; [done|cbn; lia|by exists []]|].
  exists kb. split; [exact Hrun|exact Hif].
Defined.
