(* ===== verification/KernelMaps.v ===== *)
(** * KernelMaps: the kernel's finite maps as B-trees

    The kernel's tables are modelled as finite maps, and what the kernel asks of their
    order as sorted lists.  Here that is what the code gets from its B-trees: the
    scheduler's two ranges, the last handle, the order in which the handles of a
    task are dropped, and the outcomes of an insertion ([System.tree_insert]). *)

From stdpp Require Import sorting.
From S2P Require Import Prelude HeapLogic Node BTree NodeSpec BTreeSpec BTreeIter BTreeRefine BTreeRange Deque BTreeRangeSpec.
From S2P Require Import System Object Task.
From iris.proofmode Require Import proofmode.
From iris.prelude Require Import options.

(** ** Insertions *)

Section insertions.
Context {V A : Type} `{!GlobalAlloc NodeLayout A}.
#[local] Abbreviation M := (M (store (Node Z V) A)).
Implicit Types (X : gmap Z V) (L kvs : list (Z * V)).

(** A leaf with a place left takes an entry without asking for memory. *)
Lemma hwp_leaf_insert_place le p par pi kvs1 kvs2 k v Q : (length (kvs1 ++ kvs2) < CAPACITY)%nat →
  tree_at 0 le p par pi (kvs1 ++ kvs2) -∗
  (tree_at 0 le p par pi (kvs1 ++ (k, v) :: kvs2) -∗
    Q (Ok (Fit (Handle_ (NodeRef_ 0 p) (length kvs1)), (p, length kvs1)))) -∗
  hwp (leaf_insert (Handle_ (NodeRef_ 0 p) (length kvs1)) k v : M _) Q.
Proof.
  intros Hlt. cbn [tree_at]. iIntros "Ht HQ". iDestruct "Ht" as ([Hle Hp]) "Hn". unfold leaf_insert. cbn [hnode idx].
  iApply hwp_bind. iApply (hwp_len with "Hn"); [done|]. iIntros "Hn". cbn [keys leaf_node].
  rewrite length_fmap. apply Nat.ltb_lt in Hlt as Hlt'. rewrite Hlt'.
  iApply hwp_bind. iApply (hwp_leaf_insert_fit with "Hn"); [done|solve_len|]. iIntros "Hn". rewrite set_kvs_leaf //.
  iApply hwp_bind. iApply (hwp_new_kv with "Hn"); [done|solve_len|]. iIntros "Hn". iApply hwp_ret.
  iApply "HQ". iSplit; [iPureIntro; solve_len|done].
Qed.

(** In a tree with fewer entries than a leaf holds, every leaf has a place left. *)
Lemma hwp_vacant_insert_place m hd key value L1 L2 : (length (L1 ++ L2) < CAPACITY)%nat →
  godown_at (root m) hd L1 L2 -∗ hwp (vacant_insert m hd key value : M _) (λ '(_, res), ⌜∃ ptr, res = Ok ptr⌝).
Proof.
  iIntros (Hlt) "Hg". iDestruct "Hg" as (n q par pi A' B' kvs1 kvs2 (-> & -> & ->)) "[Hc Ht]".
  unfold vacant_insert. iApply hwp_bind. iApply (hwp_leaf_insert_place with "Ht").
  { rewrite !length_app in Hlt |- *. lia. }
  iIntros "[%Hl Hn]". destruct Hl as [Hl Hq]. iApply hwp_bind.
  iApply (hwp_into_kv with "Hn"); [done|apply lookup_middle..|]. iIntros "Hn".
  iApply hwp_ret. iPureIntro. by eexists.
Qed.

Lemma hwp_insert_place m n L key value : (length L < CAPACITY)%nat →
  map_at m n L ⊢ hwp (BTree.insert m key value : M _)
    (λ '(m', res), ⌜match res with Ok _ => True | Err _ => L = [] ∧ m' = m end⌝ ∧ True)%I.
Proof.
  iIntros (Hlt) "Hm". iApply hwp_bind. iApply (hwp_entry with "Hm"). iSplit; [|iSplit].
  - iIntros (m' hd v L1 L2) "%H Hf". destruct H as (-> & Hs & Hn). iApply hwp_bind.
    iDestruct (found_open with "Hf") as (nd (Hp & Hk & Hv)) "[Hnd Hclose]".
    destruct hd as [[h p] i]. cbn [hnode node idx] in *. iApply hwp_bind.
    iApply (hwp_into_kv with "Hnd"); [done..|]. iIntros "Hnd". iApply hwp_bind.
    iApply (hwp_update with "Hnd"); [done|]. iIntros "Hnd". do 2 iApply hwp_ret. by iSplit.
  - iIntros (m' hd L1 L2) "%H Hg". destruct H as (-> & Hb & Ha & Hs & <-). iApply hwp_bind.
    iApply (hwp_wand with "[Hg]"); [by iApply (hwp_vacant_insert_place with "Hg")|].
    iIntros ([m'' res]) "Hr". iApply hwp_ret. iDestruct "Hr" as %[ptr ->]. by iSplit.
  - iIntros "-> Hm". iApply hwp_ret. by iSplit.
Qed.

(** The three outcomes of [System.tree_insert] are those of the tree: with the answer
    that all it asked for was granted or not, either both succeed, or both fail with
    nothing changed, or the model stops where the tree has failed. *)
Lemma tree_insert_refines {Fl Fut Fs Dev} m X F s key value : is_map m (size X) X F s →
  ∃ m' res s' b, BTree.insert m key value s = Ret ((m', res), s') ∧
    ∀ (σ : sys Fl Fut Fs Dev) answers, sanswers σ = b :: answers →
      match tree_insert X key value σ with
      | Ret (Ok X', _) => res = Ok (X !! key) ∧ X' = <[key := value]> X ∧ is_map m' (size X') X' F s'
      | Ret (Err _, _) => res = Err AllocErr_ ∧ m' = m ∧ is_map m (size X) X F s'
      | UB w => w = DAMAGED ∧ res = Err AllocErr_ ∧ ¬ few X
      | Panic _ => False
      end.
Proof.
  intros Hm. destruct (insert_refines m (size X) X F s key value Hm) as (m' & res & s' & Hrun & H).
  assert ((size X < CAPACITY)%nat → match res with Ok _ => True | Err _ => X = ∅ ∧ m' = m end) as Hplace.
  { intros Hlt. destruct Hm as (L & HX & Hh & Hi). pose proof (map_at_counted _ _ _ _ _ Hh) as (_ & Hs & _).
    rewrite HX (size_to_map L) in Hlt; [|by apply sorted_NoDup].
    destruct (run_framed _ _ _ F s (hwp_insert_place m _ L key value Hlt) Hh Hi) as ([m1 res1] & s1 & Hrun1 & Hp & _).
    rewrite Hrun in Hrun1. injection Hrun1 as <- <- <-. apply holds_pure in Hp as [Hp _]. subst X.
    destruct res; [done|]. destruct Hp as [-> ->]. done. }
  exists m', res, s', (match res with Ok _ => true | Err _ => false end). split; [done|]. intros σ answers Hans.
  unfold tree_insert. destruct res as [old|[]].
  - destruct H as [-> H]. destruct (X !! key) as [v|] eqn:Hk; [|destruct (has_place X)].
    + cbn. rewrite map_size_insert_Some; [done|by eexists].
    + cbn. by rewrite map_size_insert_None // Nat.add_1_r in H |- *.
    + unfold mbind, M_bind, answer. rewrite Hans. cbn. by rewrite map_size_insert_None // Nat.add_1_r in H |- *.
  - destruct H as [Hk H]. rewrite Hk. destruct (has_place X) eqn:Hpl.
    + unfold has_place, leaf_capacity in Hpl. apply bool_decide_eq_true in Hpl.
      destruct Hplace as [-> _]; [unfold CAPACITY, B; lia|]. rewrite map_size_empty in Hpl. lia.
    + unfold mbind, M_bind, answer. rewrite Hans. cbn. destruct (is_empty X) eqn:He.
      * apply is_empty_true in He as ->. destruct Hplace as [_ ->]; [rewrite map_size_empty; unfold CAPACITY, B; lia|].
        split_and!; [done|done|]. destruct H as [(_ & _ & H)|[H|(X' & G & _ & _ & H)]]; [done| |rewrite map_size_empty in H; lia].
        destruct Hm as (L & _ & Hh & _), H as (L' & _ & Hh' & _).
        apply map_at_counted in Hh as [Hh _]. apply map_at_counted in Hh' as [Hh' _]. lia.
      * split_and!; [done|done|]. intros Hf. unfold few, leaf_capacity in Hf.
        destruct Hplace as [-> _]; [unfold CAPACITY, B; lia|]. done.
Qed.
End insertions.

Section kernel_maps.
Context {V A : Type} `{!GlobalAlloc NodeLayout A}.
#[local] Abbreviation M := (M (store (Node Z V) A)).
Implicit Types (X : gmap Z V).

(** [find_next_work_item]: the tasks behind the last one, then the others. *)
Definition task_order (tasks : BTreeMap) (previous : Z) : M (list Z) :=
  behind ← range_entries tasks (Included previous) Unbounded;
  rest ← range_entries tasks Unbounded (Included previous);
  mret (filter (λ id, id ≠ previous) behind.*1 ++ rest.*1).

(** [put]: [handles.keys().rev().nth(0)] *)
Definition last_handle (handles : BTreeMap) : M (option Z) :=
  it ← map_keys handles;
  '(_, h) ← keys_next_back (root_height (root handles)) it;
  mret h.

(** The entries of a map have one order. *)
Lemma entries_of_sorted X L : entries_of X L → Object.sorted X = L.
Proof.
  intros [Hs ->]. pose proof (sorted_NoDup _ Hs) as Hn.
  assert (Object.sorted (list_to_map L : gmap Z V) ≡ₚ L) as Hp by by rewrite sorted_perm map_to_list_to_map.
  apply (StronglySorted_unique_strong key_le); [|apply sorted_sorted| |done].
  - intros [k v] [k' v'] Hx Hy H1 H2. unfold key_le in *. cbn in *. assert (k = k') as -> by lia. f_equal.
    apply elem_of_sorted in Hx. apply (elem_of_list_to_map_1 _ _ _ Hn) in Hy. rewrite Hx in Hy. by injection Hy.
  - clear Hn Hp. unfold BTreeSpec.sorted in Hs. induction L as [|[k v] L IH]; [constructor|].
    apply StronglySorted_cons in Hs as [Hk Hs]. apply StronglySorted_cons. split; [|by apply IH].
    apply Forall_forall. intros [k' v'] Hin. rewrite Forall_forall in Hk.
    assert (klt k k') as H by (apply Hk; by apply (list_elem_of_fmap_2 fst _ (k', v'))).
    change ((k ?= k')%Z = Lt) in H. rewrite Z.compare_lt_iff in H. unfold key_le. cbn. lia.
Qed.

Lemma filter_fmap_fst (P : Z → Prop) `{!∀ x, Decision (P x)} (Q : Z * V → Prop) `{!∀ x, Decision (Q x)} (L : list (Z * V)) :
  (∀ kv, Q kv ↔ P kv.1) → (filter Q L).*1 = filter P L.*1.
Proof.
  intros HQ. induction L as [|kv L IH]; [done|]. cbn [fmap list_fmap]. destruct (decide (P kv.1)).
  - rewrite !filter_cons_True //; [|by apply HQ]. cbn. by rewrite IH.
  - rewrite !filter_cons_False //. by rewrite HQ.
Qed.

(** C37: The order in which the scheduler goes over the tasks, the last handle of a table,
    and the order in which its entries are dropped, are those of the kernel's model. *)
Theorem kernel_orders m X F s previous : is_map m (size X) X F s →
  task_order m previous s = Ret (next_tasks previous X, s) ∧
  last_handle m s = Ret (last_key X, s) ∧
  ∃ s', BTreeMap_drop m s = Ret (Object.sorted X, s') ∧ holds F (cells s').
Proof.
  intros Hm. split_and!.
  - destruct (range_entries_spec m _ X F s (Included previous) Unbounded Hm eq_refl) as (L1 & H1%entries_of_sorted & Hr1).
    destruct (range_entries_spec m _ X F s Unbounded (Included previous) Hm eq_refl) as (L2 & H2%entries_of_sorted & Hr2).
    subst L1 L2. unfold task_order, mbind, M_bind. rewrite Hr1 Hr2. unfold next_tasks.
    rewrite (filter_fmap_fst (λ id, (previous <= id)%Z)); [rewrite (filter_fmap_fst (λ id, (id <= previous)%Z)); [done|]|];
      intros [k v]; unfold in_range; cbn; [rewrite /= ?andb_true_r|rewrite andb_true_r];
      match goal with |- context [(?x ?= ?y)%Z] => destruct (Z.compare_spec x y) end; split; (done || lia).
  - destruct (iter_spec m X F s Hm) as (it & L & Hrun & H%entries_of_sorted & _ & Hit). subst L.
    destruct (deque_next_back _ _ _ (iter_is_deque F _ _ _ (reflexivity _)) _ _ _ Hit) as (it' & Hlast & _).
    unfold last_handle, map_keys, keys_next_back, mbind, M_bind. rewrite Hrun Hlast. unfold last_key. by rewrite fmap_last.
  - destruct (drop_frees m X F s Hm) as (L & s' & Hrun & Hs & HX & HF & _). exists s'.
    by rewrite (entries_of_sorted X L (conj Hs HX)).
Qed.
End kernel_maps.

(** ** Witness *)

Lemma kernel_orders_witness :
  match run_ops BTreeMap_new (fill 13 ++ [Remove 7]%Z) (bump_store []) with
  | Ret ((m, _), s) => ∃ X : gmap Z Z, task_order m 5 s = Ret (next_tasks 5 X, s) ∧ last_handle m s = Ret (last_key X, s)
  | _ => False
  end.
Proof.
  destruct (run_ops BTreeMap_new (fill 13 ++ [Remove 7]%Z) (bump_store [])) as [[[m rs] s]|?|?] eqn:E; [|by vm_compute in E..].
  assert (forallb is_ok rs = true) as Hok by (vm_compute in E; by injection E as <- <- <-).
  eexists. destruct (kernel_orders m _ _ s 5 (run_is_map _ (bump_store []) m rs s (bump_store_inv _) E Hok)) as (H1 & H2 & _).
  split; [exact H1|exact H2].
Defined.
